(* ===== verification/_CoqProject ===== *)
-Q . S2P
Prelude.v
Order.v
Bytes.v
Float.v
Extern.v
Storage.v
SimFs.v
TestKit.v
RealFs.v
SimFsSpec.v
RealFsSpec.v
Confine.v
Durable.v
CrashLogic.v
Frame.v
Segment.v
Recovery.v
Wal.v
WalSpec.v
Memtable.v
MemtableSpec.v
MergeIter.v
MergeSpec.v
SsFormat.v
Bloom.v
SsTable.v
BinarySearch.v
SsTableSpec.v
SsTableBuild.v
Manifest.v
ManifestSpec.v
GroupCommit.v
WalFrame.v
Compaction.v
Db.v
Reads.v
Tables.v
CompactionSpec.v
RecordSpec.v
Robust.v
DbSpec.v
DbOpen.v
DbRefine.v
CrashTables.v
CrashCompaction.v
CrashWal.v
CrashDb.v
PowerLoss.v
CrashSweep.v
WritePath.v
WriteSerial.v
Maintenance.v
RealDb.v
Faults.v
RealFaults.v
FaultTables.v
FaultLog.v
FaultCompact.v
FaultDb.v
Hist.v
Workload.v
KvBench.v
Runner.v
BenchMain.v
RunnerSpec.v
BenchSpec.v
SledShim.v
CrashTest.v
CrashTestSpec.v
FsyncProbe.v
FsyncProbeSpec.v
