(* ===== verification/Prelude.v ===== *)
(** * accretion-db: a verification of the storage engine

    accretion-db is an embedded key-value store built as a log-structured merge
    tree.  A write is appended to a write-ahead log and inserted into a memtable;
    a full memtable is flushed to an immutable table; tables are merged tier by
    tier; a manifest names the tables in use and is replaced by an atomic rename;
    opening replays the log over the tables.  Everything goes through a [Storage]
    trait with two implementations, the operating system and a deterministic
    power-loss simulator.  This library models that engine as executable
    functions, file by file, and proves it against a key-value map.

    ** How the code is modelled

    A method that returns [Result] is a computation [M S E A] of this file: a
    function from the state to a value, an error or a panic, and the state left,
    so an early return, a [?] and the effects performed before it are what they
    are in the source.  A method on a struct has the state [T * S] of the struct
    and the backend.  Integers are [Z] with the wrap-around of their width
    written out ([Bytes.v]); byte strings are [list byte]; [BTreeMap] and
    [HashMap] are [gmap], with ascending iteration [bt_iter] ([Order.v]); the
    [f64] arithmetic used is in [Float.v].  CRC-32, XXH3, the random generator
    and the shuffle are type classes with the laws used and a concrete instance
    each ([Extern.v]).

    ** Parts, files and sources (under src/src/)

    - storage/mod.rs: [Storage.v], the trait as a class, its abstract backend
      [memfs] (a map from paths to contents) and the contract [StorageSpec].
      storage/sim.rs: [SimFs.v]; its theorems, refinement of [memfs] and what a
      crash keeps, [SimFsSpec.v].  storage/real.rs: [RealFs.v], over a
      tree of files and directories whose calls may fall short or fail; [RealFsSpec.v].
      Code that stays in one directory: [Confine.v].
    - wal/frame.rs, wal/segment.rs, wal/recovery.rs, wal/mod.rs: [Frame.v],
      [Segment.v], [Recovery.v], [Wal.v]; theorems in [WalSpec.v], [WalFrame.v].
      Group commit with any number of concurrent callers: [GroupCommit.v].
    - memtable/mod.rs: [Memtable.v], [MemtableSpec.v].  iter/mod.rs:
      [MergeIter.v], [MergeSpec.v].
    - sstable/mod.rs, bloom.rs, builder.rs, reader.rs: [SsFormat.v], [Bloom.v],
      [SsTable.v]; theorems in [BinarySearch.v], [SsTableSpec.v],
      [SsTableBuild.v], [Tables.v].
    - manifest.rs: [Manifest.v], [ManifestSpec.v].  compaction.rs:
      [Compaction.v], [CompactionSpec.v].
    - db.rs: [Db.v]; the record codec [RecordSpec.v]; the invariant [DbSpec.v];
      recovery [DbOpen.v]; the refinement [DbRefine.v]; flushing and compaction
      as the caller sees them [Maintenance.v]; concurrent writers and flushers
      [WritePath.v], [WriteSerial.v]; [Db::open], the engine on the operating
      system, [RealDb.v].  Decoding of arbitrary bytes: [Robust.v].
    - Power loss: the states in which the simulator's disk is a given set of
      files, and a backend that records the simulator after every mutating call,
      [Durable.v]; a triple for code on that backend with a rule per call,
      [CrashLogic.v]; code that only reads, [Reads.v]; the triples of tables,
      manifest and collection, of compaction, of the log, of the engine,
      [CrashTables.v], [CrashCompaction.v], [CrashWal.v], [CrashDb.v]; the
      theorems, [PowerLoss.v].
    - Failing calls: a total triple, what a failing call may leave behind, and code
      that follows its run on [memfs] until a call fails, [Faults.v]; the operating
      system as such a storage, [RealFaults.v]; tables, the log and the manifest,
      compaction, the engine, [FaultTables.v], [FaultLog.v], [FaultCompact.v], [FaultDb.v].
    - testkit.rs: [TestKit.v] (the script, the model map, the sweep over crash
      points); [CrashSweep.v] shows that the sweep passes on this engine.
    - bin/accretion-bench: hist.rs [Hist.v]; workload.rs [Workload.v]; kv.rs,
      the [KvBench] trait and its implementation by the engine, [KvBench.v];
      runner.rs [Runner.v], the threads of a phase as sequences interleaved by any
      schedule; main.rs [BenchMain.v]; sled_shim.rs [SledShim.v], over the sled
      crate as a parameter with the laws of an ordered map.  The trait's contract [KvSpec] is what
      [RunnerSpec.v] proves the phases against; [BenchSpec.v] shows that the engine
      meets it, and the whole run.
    - bin/accretion-crashtest.rs: [CrashTest.v], writer, killer and verifier;
      [CrashTestSpec.v].
    - scripts/fsync_probe.rs (beside src/): [FsyncProbe.v], over a clock; [FsyncProbeSpec.v].

    ** What the theorems show

    - Refinement.  [db_refines], [db_lifetime]: on every backend that meets the
      contract, put, delete, get, scan and flush (with all compactions they
      trigger) answer as the map does, and so does the database opened again.
      [simfs_refines]: the simulator meets the contract.  [realfs_refines]: so
      does each call on the operating system, inside the directory it serves and
      while the system reports no fault.  [real_db_lifetime]: hence the engine
      opened by path on the operating system, the directory made on the way.
    - Torn writes.  [db_torn_write], [wal_open_torn]: a process that dies inside
      an append loses at most that write, and recovery truncates the tail.
    - Power loss.  [simfs_crash], [simfs_synced_survives]: what a crash of the
      simulator may leave of every file.  [db_power_loss], [db_crash_lifetime]:
      the power may go at any moment of an opening, a write, a read or a flush
      with its compactions; the engine then opens, however often the power goes
      again meanwhile, and answers reads as the map before or after the
      interrupted call.  The records written are assumed to be such that no
      single flipped bit turns their frame into another frame
      ([CrashWal.flips_detected], decidable): the CRC of a frame does not cover
      its length field.  The theorems say reads, not writes: a table file that
      no manifest names yet is left where the next flush wants to create one.
    - Errors.  [faults_answered]: whatever system calls fail, at whatever moments, the
      engine does not panic and its caller may go on: each answer is the map's, and a
      call that fails has left the map alone or done what it was asked.  The frozen
      tables, the installed version and the cached readers of a failed flush are part
      of the invariant ([FaultDb.served]).  What is on disk after an error is not
      promised: [torn_append_loses_the_next] and [failed_flush_blocks_flushes] run two
      ways in which it is less than the caller would expect.
    - The project's own tests.  [crash_sweep_passes]: the crash-point sweep finds
      no failing point.  [crash_test_keeps_announced]: what the killed writer
      announced is what the verifier finds, with at most one write more.
      [bench_workloads]: the four workloads run to their reports, under any
      schedule of the threads; [point_read_detects]: a store that loses a value
      makes the reading phase panic.  The benchmark's summary is the order
      statistics of its samples; its command line reads back what it prints.
      [probe_leaves_no_trace]: the fsync probe removes what it made, and prints the
      order statistics of the samples after its warm-up.
    - Concurrency.  [concurrent_writes_serialise]: writes and flushes from any
      number of threads, interleaved anywhere the mutexes allow, leave the map of
      the writes in claim order.  [flush_excludes_writers],
      [write_path_no_stranded], [group_commit_*]: mutual exclusion, absence of
      lost wake-ups, durability before acknowledgement, order, termination;
      [write_alone] ties the thread system to the sequential [write].
    - Components.  Tables and frames read back what was written;
      [manifest_decode_exact], [record_decode_exact]: the decoders accept the
      encoder's images and nothing else; the merge is the newest-wins union; the
      filter has no false
      negatives; the memtable's byte count is exact; compaction keeps the live
      contents and terminates; no input makes a decoder panic.

    The interfaces between components are predicates over [memfs] and classes: a
    component's theorem is proved on [memfs] and carried to any backend by the
    simulation [msim] of this file, one [_sim] lemma per operation.  [msim] lets
    the concrete side reach a dead state (the power is off, the process killed),
    after which nothing is promised; a backend without such states has none.

    ** Bounds and fuel

    The theorems about the engine carry a budget [u ≤ 2^30] that bounds the bytes
    written, the ids and the sequence numbers, so that no 64-bit counter wraps and
    no 32-bit length is truncated; every operation states what it adds (twice that
    when the power may go between a flush and the reset of its log; when calls may
    fail, each call may write all that is in memory once more).  Loops
    over input take fuel equal to the length of what is left, and the theorems
    show that this fuel is enough.  The compaction cascade takes one more turn
    than there are tables, enough with a fanout of two or more, which the theorems
    assume: with a fanout of 0 or 1 the loop of the code does not end.  A bench
    phase takes each put or get of a thread as one step of the schedule, which
    [concurrent_writes_serialise] justifies; its theorem asks for at most
    6,000,000 keys, and that of the crash test for at most 4,000,000 announced
    writes, so that the budget holds.

    ** Not modelled

    The [Display], [Error] and [From] implementations and what the binaries print;
    the choice of a temporary directory; the sled crate; the micro-benchmarks
    (benches/), which only time calls; allocation failure; mutex poisoning after a panic; memory ordering below
    the mutexes. *)
From stdpp Require Export base tactics option list numbers gmap sorting.
From Stdlib Require Export ZArith Lia.

#[global] Open Scope Z_scope.

(** * Outcomes: a returned value, a returned error, or a panic *)

(** A Rust call ends in one of three ways the caller can tell apart: [Ok a] and
    [Err e] are the two constructors of [Result]; [Panic] is an [expect] on an
    absent value, an out-of-range slice index or a failed allocation of an
    invariant the code asserts. *)
Inductive outcome (E A : Type) : Type :=
  | Ok (a : A)
  | Err (e : E)
  | Panic.
Arguments Ok {E A} a.
Arguments Err {E A} e.
Arguments Panic {E A}.

#[export] Instance outcome_ret {E} : MRet (outcome E) := λ A a, Ok a.
#[export] Instance outcome_bind {E} : MBind (outcome E) :=
  λ A B f m, match m with Ok a => f a | Err e => Err e | Panic => Panic end.

Definition outcome_map {E A B} (f : A → B) (r : outcome E A) : outcome E B :=
  match r with Ok a => Ok (f a) | Err e => Err e | Panic => Panic end.

Definition outcome_map_err {E E' A} (f : E → E') (r : outcome E A) : outcome E' A :=
  match r with Ok a => Ok a | Err e => Err (f e) | Panic => Panic end.

(** * The state-and-error monad the stateful code is written in *)

(** [M S E A]: code that owns a state [S] (a storage backend, possibly paired
    with the structure the method borrows mutably), returns an [A] or fails
    with an [E].  A failing call keeps the state it reached: Rust does not roll
    back a mutation when [?] returns early. *)
Definition M (S E A : Type) : Type := S → outcome E A * S.

#[export] Instance M_ret {S E} : MRet (M S E) := λ A a s, (Ok a, s).
#[export] Instance M_bind {S E} : MBind (M S E) :=
  λ A B f m s,
    match m s with
    | (Ok a, s') => f a s'
    | (Err e, s') => (Err e, s')
    | (Panic, s') => (Panic, s')
    end.

Section monad.
Context {S E : Type}.

Definition err {A} (e : E) : M S E A := λ s, (Err e, s).
Definition panic {A} : M S E A := λ s, (Panic, s).
Definition get_state : M S E S := λ s, (Ok s, s).
Definition put_state (s : S) : M S E () := λ _, (Ok (), s).
Definition modify (f : S → S) : M S E () := λ s, (Ok (), f s).
Definition gets {A} (f : S → A) : M S E A := λ s, (Ok (f s), s).

(** A pure fallible computation used inside stateful code. *)
Definition of_outcome {A} (r : outcome E A) : M S E A := λ s, (r, s).

(** [Option::expect]. *)
Definition expect {A} (o : option A) : M S E A :=
  match o with Some a => mret a | None => panic end.

(** [if cond { return Err(e) }]. *)
Definition guard_err (cond : bool) (e : E) : M S E () :=
  if cond then err e else mret ().

(** [for x in l { f(x)?; }]. *)
Fixpoint for_each {A} (l : list A) (f : A → M S E ()) : M S E () :=
  match l with
  | [] => mret ()
  | x :: l' => f x ≫= λ _, for_each l' f
  end.

(** [for x in l { acc = f(acc, x)?; }]. *)
Fixpoint fold_m {A B} (l : list A) (acc : B) (f : B → A → M S E B) : M S E B :=
  match l with
  | [] => mret acc
  | x :: l' => f acc x ≫= λ acc', fold_m l' acc' f
  end.

(** [(0..n).map(|_| f()).collect()], an error stopping the loop. *)
Fixpoint repeat_m {A} (n : nat) (f : M S E A) : M S E (list A) :=
  match n with
  | O => mret []
  | Datatypes.S n' => f ≫= λ x, repeat_m n' f ≫= λ xs, mret (x :: xs)
  end.
End monad.

(** [.map_err(f)?], which is also what [?] does through a [From] impl. *)
Definition map_err {S E E' A} (f : E → E') (m : M S E A) : M S E' A :=
  λ s, let '(r, s') := m s in (outcome_map_err f r, s').

(** [let _ = m;]: an error is dropped, its effect on the state is not. *)
Definition ignore_err {S E E' A} (m : M S E A) : M S E' () :=
  λ s, match m s with
       | (Panic, s') => (Panic, s')
       | (_, s') => (Ok (), s')
       end.

(** [match m { Ok(a) => .., Err(e) => .. }]: the error becomes a value. *)
Definition attempt {S E E' A} (m : M S E A) : M S E' (A + E) :=
  λ s, match m s with
       | (Ok a, s') => (Ok (inl a), s')
       | (Err e, s') => (Ok (inr e), s')
       | (Panic, s') => (Panic, s')
       end.

(** Run code that owns one component of a larger state. *)
Definition on_snd {T S E A} (m : M S E A) : M (T * S) E A :=
  λ '(t, s), let '(r, s') := m s in (r, (t, s')).
Definition zoom {T U S E A} (get : T → U) (set : U → T → T) (m : M (U * S) E A)
    : M (T * S) E A :=
  λ '(t, s), let '(r, (u, s')) := m (get t, s) in (r, (set u t, s')).
(** A local structure [t], dropped at the end of the block. *)
Definition with_local {T S E A} (t : T) (m : M (T * S) E A) : M S E A :=
  λ s, let '(r, (_, s')) := m (t, s) in (r, s').
Definition get_fst {T S E} : M (T * S) E T := λ '(t, s), (Ok t, (t, s)).
Definition mod_fst {T S E} (f : T → T) : M (T * S) E () := λ '(t, s), (Ok (), (f t, s)).

(** ** Running monadic code *)

Section run.
Context {S E : Type}.

Lemma bind_run {A B} (m : M S E A) (f : A → M S E B) s :
  (m ≫= f) s = match m s with
               | (Ok a, s') => f a s'
               | (Err e, s') => (Err e, s')
               | (Panic, s') => (Panic, s')
               end.
Proof. reflexivity. Qed.

Lemma bind_ok {A B} (m : M S E A) (f : A → M S E B) s a s' :
  m s = (Ok a, s') → (m ≫= f) s = f a s'.
Proof. intros H. by rewrite bind_run, H. Qed.

Lemma bind_err {A B} (m : M S E A) (f : A → M S E B) s e s' :
  m s = (Err e, s') → (m ≫= f) s = (Err e, s').
Proof. intros H. by rewrite bind_run, H. Qed.

Lemma bind_ok_inv {A B} (m : M S E A) (f : A → M S E B) s b s' :
  (m ≫= f) s = (Ok b, s') →
  ∃ a s1, m s = (Ok a, s1) ∧ f a s1 = (Ok b, s').
Proof.
  rewrite bind_run. destruct (m s) as [[a|e|] s1]; intros H; simplify_eq; eauto.
Qed.

Lemma bind_ret {A B} (a : A) (f : A → M S E B) : (mret a ≫= f) = f a.
Proof. reflexivity. Qed.

Lemma bind_assoc {A B C} (m : M S E A) (f : A → M S E B) (g : B → M S E C) s :
  ((m ≫= f) ≫= g) s = (m ≫= λ a, f a ≫= g) s.
Proof. rewrite !bind_run. by destruct (m s) as [[]]. Qed.

Lemma map_err_ok {E' A} (f : E → E') (m : M S E A) s a s' :
  m s = (Ok a, s') → map_err f m s = (Ok a, s').
Proof. intros H. unfold map_err. by rewrite H. Qed.

Lemma map_err_err {E' A} (f : E → E') (m : M S E A) s e s' :
  m s = (Err e, s') → map_err f m s = (Err (f e), s').
Proof. intros H. unfold map_err. by rewrite H. Qed.

Lemma map_err_ok_inv {E' A} (f : E → E') (m : M S E A) s a s' :
  map_err f m s = (Ok a, s') → m s = (Ok a, s').
Proof. unfold map_err. destruct (m s) as [[]]; simpl; intros; by simplify_eq. Qed.

Lemma for_each_app {A} (l1 l2 : list A) (f : A → M S E ()) s :
  for_each (l1 ++ l2) f s = (for_each l1 f ≫= λ _, for_each l2 f) s.
Proof.
  revert s. induction l1 as [|x l1 IH]; intros s; [done|]. simpl.
  rewrite bind_assoc, !bind_run. by destruct (f x s) as [[]].
Qed.
End run.

Lemma with_local_run {T S E A} (t : T) (m : M (T * S) E A) s r t' s' :
  m (t, s) = (r, (t', s')) → with_local t m s = (r, s').
Proof. intros H. unfold with_local. by rewrite H. Qed.

Lemma on_snd_run {T S E A} (m : M S E A) (t : T) s r s' :
  m s = (r, s') → on_snd m (t, s) = (r, (t, s')).
Proof. intros H. simpl. by rewrite H. Qed.

(** [mrun] pushes an execution forward through every step whose outcome is a
    hypothesis, and exposes the first one that is not. *)
Ltac mrun1 :=
  first
    [ erewrite bind_ok by eassumption
    | erewrite bind_err by eassumption
    | erewrite bind_ok by (apply map_err_ok; eassumption)
    | erewrite bind_err by (apply map_err_err; eassumption)
    | rewrite bind_ret ].
Ltac mrun := repeat mrun1.

(** * Simulation between two states of the same code *)

(** The run on the left may be cut short at some point, the storage refusing from
    then on to change: [dead s1 s2] relates a state of a run cut short to the state
    of the run that was not.  Between most states nothing is ever cut short. *)
Class Deaths (S1 S2 : Type) := dead : S1 → S2 → Prop.
#[export] Instance deaths_pair {T S1 S2} `{!Deaths S1 S2} : Deaths (T * S1) (T * S2) := λ x y, dead x.2 y.2.
Class Alive (S1 S2 : Type) `{!Deaths S1 S2} := not_dead (s1 : S1) (s2 : S2) : ¬ dead s1 s2.
#[export] Instance alive_pair {T S1 S2} `{!Deaths S1 S2, !Alive S1 S2} : Alive (T * S1) (T * S2).
Proof. intros x y. apply (not_dead x.2 y.2). Qed.

(** [msim R m1 m2]: from related states the two computations end in the same
    outcome and in related states, unless the left one is cut short; a run that has
    been cut short stays where it is, whatever either side runs.  Code that is
    polymorphic in the storage backend is transported along it. *)
Record msim {S1 S2} `{!Deaths S1 S2} {E A} (R : S1 → S2 → Prop) (m1 : M S1 E A) (m2 : M S2 E A) : Prop := {
  ms_run s1 s2 : R s1 s2 →
    ((m1 s1).1 = (m2 s2).1 ∧ R (m1 s1).2 (m2 s2).2) ∨ dead (m1 s1).2 (m2 s2).2;
  ms_left s1 s2 : dead s1 s2 → dead (m1 s1).2 s2;
  ms_right s1 s2 : dead s1 s2 → dead s1 (m2 s2).2;
}.

(** A structure held next to the storage is the same on both sides. *)
Definition with_same {T S1 S2} (R : S1 → S2 → Prop) (x : T * S1) (y : T * S2) : Prop :=
  x.1 = y.1 ∧ R x.2 y.2.

Section msim.
Context {S1 S2 : Type} {D : Deaths S1 S2} (R : S1 → S2 → Prop).

Lemma msim_ret {E A} (a : A) : msim (E:=E) R (mret a) (mret a).
Proof. split; try done. intros s1 s2 HR. by left. Qed.

Lemma msim_err {E A} (e : E) : msim (A:=A) R (err e) (err e).
Proof. split; try done. intros s1 s2 HR. by left. Qed.

Lemma msim_panic {E A} : msim (E:=E) (A:=A) R panic panic.
Proof. split; try done. intros s1 s2 HR. by left. Qed.

Lemma msim_of_outcome {E A} (r : outcome E A) : msim R (of_outcome r) (of_outcome r).
Proof. split; try done. intros s1 s2 HR. by left. Qed.

Lemma msim_expect {E A} (o : option A) : msim (E:=E) R (expect o) (expect o).
Proof. destruct o; [apply msim_ret|apply msim_panic]. Qed.

Lemma msim_bind {E A B} (m1 : M S1 E A) (m2 : M S2 E A) f1 f2 :
  msim R m1 m2 → (∀ a, msim (A:=B) R (f1 a) (f2 a)) →
  msim R (m1 ≫= f1) (m2 ≫= f2).
Proof.
  intros [Hrun Hl Hr] Hf.
  assert (Hl' : ∀ s1 s2, dead s1 s2 → dead ((m1 ≫= f1) s1).2 s2).
  { intros s1 s2 Hd. rewrite bind_run. specialize (Hl s1 s2 Hd).
    destruct (m1 s1) as [[a| |] t1]; [by apply Hf|done..]. }
  assert (Hr' : ∀ s1 s2, dead s1 s2 → dead s1 ((m2 ≫= f2) s2).2).
  { intros s1 s2 Hd. rewrite bind_run. specialize (Hr s1 s2 Hd).
    destruct (m2 s2) as [[a| |] t2]; [by apply Hf|done..]. }
  split; [|done..]. intros s1 s2 HR. destruct (Hrun s1 s2 HR) as [[H1 H2]|Hd]; rewrite !bind_run;
    destruct (m1 s1) as [r1 t1], (m2 s2) as [r2 t2]; simpl in *.
  - subst r2. destruct r1; simpl; [by apply Hf|by left..].
  - right. assert (Hd' : dead match r1 with Ok a => f1 a t1 | Err e => (Err e, t1) | Panic => (Panic, t1) end.2 t2)
      by (destruct r1; [by apply Hf|done..]).
    destruct r2; [by apply Hf|done..].
Qed.

(** Code that does the storage's part and changes the outcome only. *)
Lemma msim_outcome {E E' A B} (g : outcome E A → outcome E' B) (m1 : M S1 E A) (m2 : M S2 E A) f1 f2 :
  (∀ s, f1 s = (g (m1 s).1, (m1 s).2)) → (∀ s, f2 s = (g (m2 s).1, (m2 s).2)) →
  msim R m1 m2 → msim R f1 f2.
Proof.
  intros E1 E2 [Hrun Hl Hr]. split; intros s1 s2 H; rewrite ?E1, ?E2; cbn; [|by apply Hl|by apply Hr].
  destruct (Hrun s1 s2 H) as [[H1 H2]|Hd]; [left|by right]. by rewrite H1.
Qed.

Lemma msim_map_err {E E' A} (f : E → E') (m1 : M S1 E A) (m2 : M S2 E A) :
  msim R m1 m2 → msim R (map_err f m1) (map_err f m2).
Proof. apply (msim_outcome (outcome_map_err f)); intros s; unfold map_err;
  [by destruct (m1 s) as [[]]|by destruct (m2 s) as [[]]]. Qed.

Lemma msim_ignore_err {E E' A} (m1 : M S1 E A) (m2 : M S2 E A) :
  msim R m1 m2 → msim (E:=E') R (ignore_err m1) (ignore_err m2).
Proof.
  apply (msim_outcome (λ r, match r with Panic => Panic | _ => Ok () end)); intros s; unfold ignore_err;
    [by destruct (m1 s) as [[]]|by destruct (m2 s) as [[]]].
Qed.

Lemma msim_attempt {E E' A} (m1 : M S1 E A) (m2 : M S2 E A) :
  msim R m1 m2 → msim (E:=E') R (attempt m1) (attempt m2).
Proof.
  apply (msim_outcome (λ r, match r with Ok a => Ok (inl a) | Err e => Ok (inr e) | Panic => Panic end));
    intros s; unfold attempt; [by destruct (m1 s) as [[]]|by destruct (m2 s) as [[]]].
Qed.

Lemma msim_for_each {E A} (l : list A) (f1 : A → M S1 E ()) f2 :
  (∀ a, msim R (f1 a) (f2 a)) → msim R (for_each l f1) (for_each l f2).
Proof.
  intros Hf. induction l; simpl; [apply msim_ret|].
  apply msim_bind; [done|]. by intros [].
Qed.

Lemma msim_fold_m {E A B} (l : list A) (acc : B) (f1 : B → A → M S1 E B) f2 :
  (∀ b a, msim R (f1 b a) (f2 b a)) → msim R (fold_m l acc f1) (fold_m l acc f2).
Proof.
  intros Hf. revert acc. induction l; intros acc; simpl; [apply msim_ret|].
  by apply msim_bind.
Qed.

Lemma msim_on_snd {T E A} (m1 : M S1 E A) (m2 : M S2 E A) :
  msim R m1 m2 → msim (with_same (T:=T) R) (on_snd m1) (on_snd m2).
Proof.
  intros [Hrun Hl Hr]. split; intros [t s1] [t' s2] H; unfold dead, deaths_pair in *; simpl in *.
  - destruct H as [Ht HR]. simpl in Ht, HR. subst t'. specialize (Hrun s1 s2 HR).
    destruct (m1 s1), (m2 s2). simpl in *. destruct Hrun as [[-> ?]|?]; [by left|by right].
  - specialize (Hl s1 s2 H). by destruct (m1 s1).
  - specialize (Hr s1 s2 H). by destruct (m2 s2).
Qed.

Lemma msim_zoom {T U E A} (get : T → U) set (m1 : M (U * S1) E A) (m2 : M (U * S2) E A) :
  msim (with_same R) m1 m2 → msim (with_same (T:=T) R) (zoom get set m1) (zoom get set m2).
Proof.
  intros [Hrun Hl Hr]. split; intros [t s1] [t' s2] H; unfold dead, deaths_pair in *; simpl in *.
  - destruct H as [Ht HR]. simpl in Ht, HR. subst t'. specialize (Hrun (get t, s1) (get t, s2) (conj eq_refl HR)).
    destruct (m1 (get t, s1)) as [r1 [u1 q1]], (m2 (get t, s2)) as [r2 [u2 q2]].
    simpl in *. destruct Hrun as [(-> & Hu & ?)|?]; [|by right]. simpl in Hu. subst u2. by left.
  - specialize (Hl (get t, s1) (get t, s2) H). by destruct (m1 (get t, s1)) as [? []].
  - specialize (Hr (get t', s1) (get t', s2) H). by destruct (m2 (get t', s2)) as [? []].
Qed.

(** Code that changes the structure before and after. *)
Definition wrapped {T S E A} (pre : T → T) (post : T → T → T) (f : T → M (T * S) E A) : M (T * S) E A :=
  λ '(t, s), let '(r, (t', s')) := f t (pre t, s) in (r, (post t t', s')).
Lemma msim_wrapped {T E A} (pre : T → T) post (f1 : T → M (T * S1) E A) f2 :
  (∀ t, msim (with_same R) (f1 t) (f2 t)) → msim (with_same R) (wrapped pre post f1) (wrapped pre post f2).
Proof.
  intros Hf. split; intros [t s1] [t' s2] H; unfold wrapped, dead, deaths_pair in *; simpl in *.
  - destruct H as [Ht HR]. simpl in Ht, HR. subst t'. destruct (Hf t) as [Hrun _ _].
    specialize (Hrun (pre t, s1) (pre t, s2) (conj eq_refl HR)).
    destruct (f1 t (pre t, s1)) as [r1 [u1 q1]], (f2 t (pre t, s2)) as [r2 [u2 q2]].
    simpl in *. destruct Hrun as [(-> & Hu & ?)|?]; [|by right]. simpl in Hu. subst u2. by left.
  - pose proof (ms_left _ _ _ (Hf t) (pre t, s1) (pre t, s2) H) as Hl. by destruct (f1 t (pre t, s1)) as [? []].
  - pose proof (ms_right _ _ _ (Hf t') (pre t', s1) (pre t', s2) H) as Hr. by destruct (f2 t' (pre t', s2)) as [? []].
Qed.

Lemma msim_with_local {T E A} (t : T) (m1 : M (T * S1) E A) (m2 : M (T * S2) E A) :
  msim (with_same R) m1 m2 → msim R (with_local t m1) (with_local t m2).
Proof.
  intros [Hrun Hl Hr]. split; intros s1 s2 H; unfold with_local, dead, deaths_pair in *.
  - specialize (Hrun (t, s1) (t, s2) (conj eq_refl H)).
    destruct (m1 (t, s1)) as [r1 [u1 q1]], (m2 (t, s2)) as [r2 [u2 q2]].
    simpl in *. destruct Hrun as [(-> & Hu & ?)|?]; [by left|by right].
  - specialize (Hl (t, s1) (t, s2) H). by destruct (m1 (t, s1)) as [? []].
  - specialize (Hr (t, s1) (t, s2) H). by destruct (m2 (t, s2)) as [? []].
Qed.

Lemma msim_get_fst {T E} : msim (E:=E) (with_same (T:=T) R) get_fst get_fst.
Proof. split; intros [t s1] [t' s2] H; [|done..]. destruct H as [Ht HR]; simpl in *; subst. by left. Qed.

Lemma msim_mod_fst {T E} (f : T → T) :
  msim (E:=E) (with_same (T:=T) R) (mod_fst f) (mod_fst f).
Proof. split; intros [t s1] [t' s2] H; [|done..]. destruct H as [Ht HR]; simpl in *; subst. by left. Qed.
End msim.

(** ** Where nothing is cut short *)

Section alive.
Context {S1 S2 : Type} `{D : Deaths S1 S2, !Alive S1 S2} (R : S1 → S2 → Prop).

Lemma msim_intro {E A} (m1 : M S1 E A) (m2 : M S2 E A) :
  (∀ s1 s2, R s1 s2 → (m1 s1).1 = (m2 s2).1 ∧ R (m1 s1).2 (m2 s2).2) → msim R m1 m2.
Proof. intros H. split; intros s1 s2 Hs; [left; by apply H|by destruct (not_dead s1 s2)..]. Qed.
Lemma msim_at {E A} {m1 : M S1 E A} {m2 : M S2 E A} :
  msim R m1 m2 → ∀ s1 s2, R s1 s2 → (m1 s1).1 = (m2 s2).1 ∧ R (m1 s1).2 (m2 s2).2.
Proof. intros [Hrun _ _] s1 s2 HR. destruct (Hrun s1 s2 HR) as [?|Hd]; [done|]. by apply not_dead in Hd. Qed.

(** Run the abstract side, get the concrete run. *)
Lemma msim_run {E A} (m1 : M S1 E A) (m2 : M S2 E A) s1 s2 r s2' :
  msim R m1 m2 → R s1 s2 → m2 s2 = (r, s2') → ∃ s1', m1 s1 = (r, s1') ∧ R s1' s2'.
Proof.
  intros Hm HR H2. destruct (msim_at Hm s1 s2 HR) as [H3 H4]. rewrite H2 in H3, H4.
  exists (m1 s1).2. split; [|done]. destruct (m1 s1). simpl in *. by subst.
Qed.
End alive.
Arguments msim_at {S1 S2 D _ R E A m1 m2} _ _ _ _.

Lemma msim_same_run {T S1 S2 E A} `{D : Deaths S1 S2, !Alive S1 S2} (R : S1 → S2 → Prop) (m1 : M (T * S1) E A)
    (m2 : M (T * S2) E A) t s1 s2 r t' s2' :
  msim (with_same R) m1 m2 → R s1 s2 → m2 (t, s2) = (r, (t', s2')) →
  ∃ s1', m1 (t, s1) = (r, (t', s1')) ∧ R s1' s2'.
Proof.
  intros Hm HR H2.
  destruct (msim_run (with_same R) m1 m2 (t, s1) (t, s2) r (t', s2') Hm)
    as ([t1 s1'] & H1 & [Ht Hs]); [done|done|].
  simpl in *. subst t1. eauto.
Qed.

Create HintDb msim discriminated.
#[export] Hint Resolve msim_ret msim_err msim_panic msim_of_outcome msim_expect
  msim_map_err msim_ignore_err msim_attempt msim_for_each msim_fold_m msim_on_snd msim_zoom msim_with_local
  msim_get_fst msim_mod_fst : msim.

(** [solve_msim] transports straight-line polymorphic code along a simulation:
    it walks the binds, splits every branch both sides share and closes the
    primitive calls from the [msim] database. *)
Ltac solve_msim :=
  repeat first
    [ progress intros
    | assumption
    | solve [eauto 3 with msim]
    | simple apply msim_bind
    | apply msim_map_err | apply msim_ignore_err | apply msim_attempt
    | apply msim_for_each | apply msim_fold_m
    | apply msim_on_snd | apply msim_zoom | apply msim_with_local
    | case_match ].

(** * Invariants of effectful code *)

(** [keeps I Q m]: whatever its outcome, [m] leaves the state satisfying [I], and
    what it returns satisfies [Q]. *)
Definition keeps {S E A} (I : S → Prop) (Q : A → Prop) (m : M S E A) : Prop :=
  ∀ s, I s → I (m s).2 ∧ ∀ a, (m s).1 = Ok a → Q a.
Abbreviation any := (λ _, True).

Section keeps.
Context {S E : Type} (I : S → Prop).

Lemma keeps_any {A} Q (m : M S E A) : keeps I Q m → keeps I any m.
Proof. intros Hm s Hs. split; [by apply Hm|done]. Qed.

Lemma keeps_ret {A} (Q : A → Prop) a : Q a → keeps (E:=E) I Q (mret a).
Proof. intros Ha s Hs. split; [done|]. by intros a' [= <-]. Qed.
Lemma keeps_err {A} (Q : A → Prop) (e : E) : keeps I Q (err e).
Proof. intros s Hs. by split. Qed.
Lemma keeps_panic {A} (Q : A → Prop) : keeps (E:=E) I Q panic.
Proof. intros s Hs. by split. Qed.
Lemma keeps_of_outcome {A} (r : outcome E A) : keeps I any (of_outcome r).
Proof. intros s Hs. by split. Qed.

Lemma keeps_bind {A B} Q R (m : M S E A) (f : A → M S E B) :
  keeps I Q m → (∀ a, Q a → keeps I R (f a)) → keeps I R (m ≫= f).
Proof.
  intros Hm Hf s Hs. rewrite bind_run. destruct (Hm s Hs) as [Hs1 Hq].
  destruct (m s) as [[a|e|] s1]; simpl in *; [|by split..]. by apply Hf; [apply Hq|].
Qed.

Lemma keeps_for_each {A} (l : list A) (f : A → M S E ()) :
  (∀ a, a ∈ l → keeps I any (f a)) → keeps I any (for_each l f).
Proof.
  induction l as [|a l IH]; intros Hf; simpl; [by apply keeps_ret|].
  apply (keeps_bind any); [apply Hf; by left|]. intros _ _. apply IH. intros b Hb. apply Hf. by right.
Qed.

Lemma keeps_ignore_err {E' A} (m : M S E A) : keeps I any m → keeps (E:=E') I any (ignore_err m).
Proof. intros Hm s Hs. unfold ignore_err. destruct (Hm s Hs), (m s) as [[] ?]; by split. Qed.
Lemma keeps_attempt {E' A} (m : M S E A) : keeps I any m → keeps (E:=E') I any (attempt m).
Proof. intros Hm s Hs. unfold attempt. destruct (Hm s Hs), (m s) as [[] ?]; by split. Qed.
Lemma keeps_map_err {E' A} (f : E → E') Q (m : M S E A) : keeps I Q m → keeps I Q (map_err f m).
Proof.
  intros Hm s Hs. destruct (Hm s Hs) as [H1 H2]. unfold map_err. destruct (m s) as [[a|e|] s']; [|by split..].
  split; [done|]. intros a' [= <-]. by apply H2.
Qed.
Lemma keeps_expect {A} (o : option A) : keeps (E:=E) I any (expect o).
Proof. destruct o; [by apply keeps_ret|apply keeps_panic]. Qed.
Lemma keeps_guard b (e : E) : keeps I any (guard_err b e).
Proof. intros s Hs. by destruct b. Qed.
Lemma keeps_fold_m {A B} (Q : B → Prop) (l : list A) (acc : B) (f : B → A → M S E B) :
  (∀ b a, keeps I Q (f b a)) → Q acc ∨ l ≠ [] → keeps I Q (fold_m l acc f).
Proof.
  intros Hf. revert acc. induction l as [|a l IH]; intros acc Ha; simpl; [apply keeps_ret; by destruct Ha|].
  eapply keeps_bind; [apply Hf|]. intros b Hb. apply IH. by left.
Qed.
End keeps.

(** Code over one component of a state. *)
Lemma keeps_on_snd {T S E A} (I : T * S → Prop) Q (m : M S E A) :
  (∀ t, keeps (λ s, I (t, s)) Q m) → keeps I Q (on_snd m).
Proof.
  intros Hm [t s] Hs. simpl. destruct (Hm t s Hs) as [H1 H2].
  destruct (m s) as [r s']. by split.
Qed.
Lemma keeps_get_fst {T S E} (I : T * S → Prop) : keeps (E:=E) I (λ t, ∃ s, I (t, s)) get_fst.
Proof. intros [t s] Hs. split; [done|]. intros ? [= <-]. eauto. Qed.
Lemma keeps_mod_fst {T S E} (I : T * S → Prop) (f : T → T) :
  (∀ t s, I (t, s) → I (f t, s)) → keeps (E:=E) I any (mod_fst f).
Proof. intros Hf [t s] Hs. split; [by apply Hf|done]. Qed.

Lemma keeps_zoom {T U S E A} (I : T * S → Prop) (J : U * S → Prop) Q (get : T → U) (set : U → T → T) (m : M (U * S) E A) :
  (∀ t s, I (t, s) → J (get t, s)) → (∀ t s u s', I (t, s) → J (u, s') → I (set u t, s')) →
  keeps J Q m → keeps I Q (zoom get set m).
Proof.
  intros H1 H2 Hm [t s] Hs. unfold zoom. destruct (Hm (get t, s) (H1 t s Hs)) as [H3 H4].
  destruct (m (get t, s)) as [r [u s']]. split; [by eapply H2|done].
Qed.
Lemma keeps_with_local {T S E A} (I : S → Prop) Q (t : T) (m : M (T * S) E A) :
  keeps (λ x, I x.2) Q m → keeps I Q (with_local t m).
Proof.
  intros Hm s Hs. unfold with_local. destruct (Hm (t, s) Hs) as [H1 H2]. destruct (m (t, s)) as [r [t' s']]. by split.
Qed.

Create HintDb keeps discriminated.

(** [solve_keeps] walks straight-line code with no claim about what it returns. *)
Ltac solve_keeps :=
  repeat first
    [ progress intros
    | assumption
    | exact Logic.I
    | solve [eauto 3 with keeps]
    | simple apply keeps_err | simple apply keeps_panic | simple apply keeps_of_outcome
    | simple apply keeps_ret
    | simple apply (keeps_bind _ any)
    | simple apply keeps_ignore_err | simple apply keeps_attempt | simple apply keeps_map_err
    | simple apply keeps_expect | simple apply keeps_guard
    | simple apply keeps_for_each
    | case_match ].

(** [calm I Q m]: the same, and [m] does not panic. *)
Definition calm {S E A} (I : S → Prop) (Q : A → Prop) (m : M S E A) : Prop :=
  ∀ s, I s → I (m s).2 ∧ match (m s).1 with Ok a => Q a | Err _ => True | Panic => False end.

Section calm.
Context {S E : Type} (I : S → Prop).

Lemma calm_weaken {A} (Q R : A → Prop) (m : M S E A) : (∀ a, Q a → R a) → calm I Q m → calm I R m.
Proof. intros HQ Hm s Hs. destruct (Hm s Hs) as [H1 H2]. split; [done|]. destruct (m s).1; auto. Qed.
Lemma calm_ret {A} (Q : A → Prop) a : Q a → calm (E:=E) I Q (mret a).
Proof. intros Ha s Hs. by split. Qed.
Lemma calm_err {A} (Q : A → Prop) (e : E) : calm I Q (err e).
Proof. intros s Hs. by split. Qed.
Lemma calm_guard b (e : E) : calm I any (guard_err b e).
Proof. intros s Hs. by destruct b. Qed.
Lemma calm_guard_false b (e : E) : calm I (λ _, b = false) (guard_err b e).
Proof. intros s Hs. by destruct b. Qed.
Lemma calm_of_outcome {A} (Q : A → Prop) (r : outcome E A) :
  match r with Ok a => Q a | Err _ => True | Panic => False end → calm I Q (of_outcome r).
Proof. intros Hr s Hs. by split. Qed.
Lemma calm_expect {A} (Q : A → Prop) (o : option A) : (∃ a, o = Some a ∧ Q a) → calm (E:=E) I Q (expect o).
Proof. intros (a & -> & Ha). by apply calm_ret. Qed.
Lemma calm_bind {A B} Q R (m : M S E A) (f : A → M S E B) :
  calm I Q m → (∀ a, Q a → calm I R (f a)) → calm I R (m ≫= f).
Proof.
  intros Hm Hf s Hs. rewrite bind_run. destruct (Hm s Hs) as [Hs1 Hq].
  destruct (m s) as [[a|e|] s1]; simpl in *; [|done..]. by apply Hf.
Qed.
Lemma calm_map_err {E' A} (f : E → E') (Q : A → Prop) (m : M S E A) : calm I Q m → calm I Q (map_err f m).
Proof.
  intros Hm s Hs. unfold map_err. destruct (Hm s Hs) as [H1 H2].
  by destruct (m s) as [[] ?].
Qed.
Lemma calm_attempt {E' A} (Q : A → Prop) (m : M S E A) :
  calm I Q m → calm (E:=E') I (λ r, match r with inl a => Q a | inr _ => True end) (attempt m).
Proof. intros Hm s Hs. unfold attempt. destruct (Hm s Hs) as [H1 H2]. by destruct (m s) as [[] ?]. Qed.
Lemma calm_ignore_err {E' A} (m : M S E A) : calm I any m → calm (E:=E') I any (ignore_err m).
Proof. intros Hm s Hs. unfold ignore_err. destruct (Hm s Hs) as [H1 H2]. by destruct (m s) as [[] ?]. Qed.
Lemma calm_repeat {A} (Q : A → Prop) n (m : M S E A) : calm I Q m → calm I (Forall Q) (repeat_m n m).
Proof.
  intros Hm. induction n as [|n IH]; simpl; [by apply calm_ret|].
  apply (calm_bind Q); [done|]. intros a Ha. apply (calm_bind (Forall Q)); [done|]. intros l Hl.
  apply calm_ret. by constructor.
Qed.
End calm.
Create HintDb calm discriminated.
#[export] Hint Resolve calm_guard calm_err : calm.

(** [solve_calm] walks straight-line code with no claim about what it returns. *)
Ltac solve_calm :=
  repeat first
    [ progress intros
    | assumption
    | exact Logic.I
    | solve [eauto 3 with calm]
    | simple apply calm_err | simple apply calm_ret
    | simple apply (calm_bind _ any)
    | simple apply calm_map_err | simple apply calm_ignore_err
    | case_match ].

(** * Options and lists *)

Lemma union_None_l {A} (x : option A) : None ∪ x = x.
Proof. by destruct x. Qed.

Lemma StronglySorted_lt_NoDup {A} (R : relation A) `{!Irreflexive R} (l : list A) :
  StronglySorted R l → NoDup l.
Proof.
  induction 1 as [|x l Hl IH Hx]; constructor; [|done].
  intros Hin. rewrite Forall_forall in Hx. by eapply (irreflexivity R x), Hx.
Qed.

Lemma StronglySorted_lookup {A} (R : relation A) (l : list A) :
  StronglySorted R l → ∀ i j x y, (i < j)%nat → l !! i = Some x → l !! j = Some y → R x y.
Proof.
  induction 1 as [|z l Hl IH Hz]; intros i [|j] x y Hij Hx Hy; try done; [lia|].
  destruct i as [|i]; simplify_eq/=.
  - by eapply Forall_lookup_1 in Hz.
  - by eapply (IH i j); [lia|..].
Qed.

Lemma fst_snd_unique {K V} (l : list (K * V)) k v w :
  NoDup l.*1 → (k, v) ∈ l → (k, w) ∈ l → v = w.
Proof.
  intros Hnd. induction l as [|[k' v'] l IH]; [by intros ?%elem_of_nil|].
  apply NoDup_cons in Hnd as [Hk Hnd].
  intros [[=]|H1]%elem_of_cons [[=]|H2]%elem_of_cons; subst; try done.
  - destruct Hk. by apply (list_elem_of_fmap_2 fst) in H2.
  - destruct Hk. by apply (list_elem_of_fmap_2 fst) in H1.
  - by apply IH.
Qed.

Lemma take_app_prefix {A} (l1 l2 : list A) n : n = length l1 → take n (l1 ++ l2) = l1.
Proof. intros ->. apply take_app_length. Qed.

Lemma drop_app_prefix {A} (l1 l2 : list A) n : n = length l1 → drop n (l1 ++ l2) = l2.
Proof. intros ->. apply drop_app_length. Qed.

Lemma NoDup_omap {A B} (f : A → option B) (l : list A) :
  (∀ x y z, f x = Some z → f y = Some z → x = y) → NoDup l → NoDup (omap f l).
Proof.
  intros Hf. induction 1 as [|x l Hx Hl IH]; [constructor|]. simpl.
  destruct (f x) as [z|] eqn:Hz; [|done]. constructor; [|done].
  intros (y & Hy & Hyz)%list_elem_of_omap. by rewrite (Hf y x z) in Hy.
Qed.

Lemma elem_of_list_insert {A} (l : list A) i (x y : A) :
  x ∈ <[i := y]> l → x = y ∨ x ∈ l.
Proof.
  intros [j Hj]%list_elem_of_lookup. destruct (decide (i = j)) as [<-|Hne].
  - apply list_lookup_insert_Some in Hj as [(_ & -> & _)|[? _]]; [by left|done].
  - rewrite list_lookup_insert_ne in Hj by done. right. by eapply list_elem_of_lookup_2.
Qed.

Lemma elem_of_concat {A} (ls : list (list A)) x : x ∈ concat ls ↔ ∃ l, l ∈ ls ∧ x ∈ l.
Proof.
  induction ls as [|l ls IH]; simpl.
  - split; [by intros ?%elem_of_nil|by intros (? & ?%elem_of_nil & _)].
  - rewrite elem_of_app, IH. setoid_rewrite elem_of_cons.
    split; [intros [?|(l' & ? & ?)]; eauto|intros (l' & [->|?] & ?); eauto].
Qed.

Lemma concat_split {A} (ls : list (list A)) i l :
  ls !! i = Some l → concat ls = concat (take i ls) ++ l ++ concat (drop (S i) ls).
Proof.
  intros Hi. rewrite <- (take_drop_middle ls i l Hi) at 1. by rewrite concat_app.
Qed.

Lemma elem_of_fst_snoc {A B} (l : list (A * B)) a b x :
  x ∈ (l ++ [(a, b)]).*1 ↔ x ∈ l.*1 ∨ x = a.
Proof. rewrite fmap_app, elem_of_app. simpl. by rewrite list_elem_of_singleton. Qed.

Lemma sum_list_insert {A} (f : A → nat) (l : list A) i x y :
  l !! i = Some x → (sum_list_with f (<[i := y]> l) + f x = sum_list_with f l + f y)%nat.
Proof.
  revert i. induction l as [|z l IH]; intros [|i] Hl; simplify_eq/=; [lia|]. specialize (IH i Hl). lia.
Qed.

(** Membership of a list built from others, by the hypotheses. *)
Ltac in_list :=
  repeat first [rewrite fmap_app | rewrite fmap_cons | rewrite elem_of_app | rewrite elem_of_cons | rewrite list_elem_of_singleton];
  simpl; first [tauto | solve [intuition eauto]].
