(* ===== verification/Order.v ===== *)
(** Rust's [Ord] and [BTreeMap] as the program uses them: a comparison
    function with the laws of a total order, the lexicographic order of [Vec<u8>]
    and of [PathBuf], and the ascending iteration of an ordered map.

    [BTreeMap] and [BTreeSet] are standard-library containers.  A map is a
    [gmap]; what the ordered container adds to it, iteration in ascending key
    order, is [bt_iter]. *)
From S2P Require Import Prelude.

(** * Comparison *)

Class Ord (A : Type) := cmp : A → A → comparison.
#[global] Hint Mode Ord ! : typeclass_instances.

Class OrdLaws (A : Type) `{!Ord A} : Prop := {
  cmp_eq (x y : A) : cmp x y = Eq ↔ x = y;
  cmp_opp (x y : A) : cmp y x = CompOpp (cmp x y);
  cmp_lt_trans (x y z : A) : cmp x y = Lt → cmp y z = Lt → cmp x z = Lt;
}.

Definition olt {A} `{!Ord A} (x y : A) : Prop := cmp x y = Lt.
Definition ole {A} `{!Ord A} (x y : A) : Prop := cmp x y ≠ Gt.
Definition oltb {A} `{!Ord A} (x y : A) : bool :=
  match cmp x y with Lt => true | _ => false end.
Definition oleb {A} `{!Ord A} (x y : A) : bool :=
  match cmp x y with Gt => false | _ => true end.

Declare Scope rust_scope.
Delimit Scope rust_scope with rust.
Infix "≺" := olt (at level 70) : rust_scope.
Infix "⪯" := ole (at level 70) : rust_scope.
Infix "≺?" := oltb (at level 70) : rust_scope.
Infix "⪯?" := oleb (at level 70) : rust_scope.
#[global] Open Scope rust_scope.

#[export] Instance comparison_eq_dec : EqDecision comparison.
Proof. solve_decision. Defined.
#[export] Instance olt_dec {A} `{!Ord A} (x y : A) : Decision (x ≺ y).
Proof. unfold olt. apply _. Defined.
#[export] Instance ole_dec {A} `{!Ord A} (x y : A) : Decision (x ⪯ y).
Proof. unfold ole. apply _. Defined.

#[export] Instance Z_ord : Ord Z := Z.compare.

(** Lexicographic order, a proper prefix being smaller: [Vec]'s [Ord]. *)
Fixpoint list_cmp {A} `{!Ord A} (l1 l2 : list A) : comparison :=
  match l1, l2 with
  | [], [] => Eq
  | [], _ :: _ => Lt
  | _ :: _, [] => Gt
  | x :: l1', y :: l2' =>
      match cmp x y with Eq => list_cmp l1' l2' | c => c end
  end.
#[export] Instance list_ord {A} `{!Ord A} : Ord (list A) := list_cmp.

(** ** Laws *)

#[export] Instance Z_ord_laws : OrdLaws Z.
Proof.
  split; unfold cmp, Z_ord; intros.
  - apply Z.compare_eq_iff.
  - apply Z.compare_antisym.
  - rewrite Z.compare_lt_iff in *. lia.
Qed.

Section laws.
Context {A : Type} `{!Ord A, !OrdLaws A}.
Implicit Types x y z : A.

Lemma cmp_refl x : cmp x x = Eq.
Proof. by apply cmp_eq. Qed.

Lemma olt_irrefl x : ¬ x ≺ x.
Proof. unfold olt. by rewrite cmp_refl. Qed.

Lemma cmp_gt x y : cmp x y = Gt ↔ y ≺ x.
Proof. unfold olt. rewrite (cmp_opp x y). by destruct (cmp x y). Qed.

#[export] Instance olt_strict : StrictOrder (olt (A:=A)).
Proof. split; [exact olt_irrefl|exact cmp_lt_trans]. Qed.

Lemma ole_alt x y : x ⪯ y ↔ x ≺ y ∨ x = y.
Proof.
  unfold ole, olt. rewrite <- (cmp_eq x y). destruct (cmp x y); simpl; intuition congruence.
Qed.

Lemma not_olt x y : ¬ x ≺ y ↔ y ⪯ x.
Proof. unfold ole, olt. rewrite (cmp_opp x y). destruct (cmp x y); simpl; intuition congruence. Qed.

Lemma not_ole x y : ¬ x ⪯ y ↔ y ≺ x.
Proof. rewrite <- not_olt. destruct (decide (y ≺ x)); tauto. Qed.

Lemma olt_trichotomy x y : x ≺ y ∨ x = y ∨ y ≺ x.
Proof. rewrite <- (cmp_gt x y), <- cmp_eq. unfold olt. destruct (cmp x y); auto. Qed.

#[export] Instance ole_preorder : PreOrder (ole (A:=A)).
Proof.
  split; [intros x; rewrite ole_alt; auto|].
  intros x y z. rewrite !ole_alt. intros [?| ->] [?| ->]; auto. left. by etrans.
Qed.

#[export] Instance ole_total : Total (ole (A:=A)).
Proof. intros x y. rewrite !ole_alt. destruct (olt_trichotomy x y) as [?|[->|?]]; auto. Qed.

#[export] Instance ole_antisym : AntiSymm (=) (ole (A:=A)).
Proof.
  intros x y. rewrite !ole_alt. intros [?| ->] [?|?]; auto.
  by destruct (olt_irrefl x); etrans.
Qed.

Lemma olt_ole x y : x ≺ y → x ⪯ y.
Proof. rewrite ole_alt. auto. Qed.

Lemma olt_ole_trans x y z : x ≺ y → y ⪯ z → x ≺ z.
Proof. rewrite ole_alt. intros ? [?| ->]; [by etrans|done]. Qed.

Lemma ole_olt_trans x y z : x ⪯ y → y ≺ z → x ≺ z.
Proof. rewrite ole_alt. intros [?| ->] ?; [by etrans|done]. Qed.

Lemma oltb_olt x y : (x ≺? y) = true ↔ x ≺ y.
Proof. unfold oltb, olt. destruct (cmp x y); simpl; intuition congruence. Qed.

Lemma oleb_ole x y : (x ⪯? y) = true ↔ x ⪯ y.
Proof. unfold oleb, ole. destruct (cmp x y); simpl; intuition congruence. Qed.

Lemma oleb_false x y : (x ⪯? y) = false ↔ y ≺ x.
Proof. rewrite <- not_ole, <- oleb_ole. by destruct (x ⪯? y). Qed.

Lemma oltb_false x y : (x ≺? y) = false ↔ y ⪯ x.
Proof. rewrite <- not_olt, <- oltb_olt. by destruct (x ≺? y). Qed.

Lemma list_cmp_eq (l1 l2 : list A) : list_cmp l1 l2 = Eq ↔ l1 = l2.
Proof.
  revert l2. induction l1 as [|x l1 IH]; intros [|y l2]; simpl; [done..|].
  destruct (cmp x y) eqn:E.
  - apply cmp_eq in E as ->. rewrite IH. intuition congruence.
  - split; [done|intros [= -> ->]]. by rewrite cmp_refl in E.
  - split; [done|intros [= -> ->]]. by rewrite cmp_refl in E.
Qed.

Lemma list_cmp_app_r (a b s : list A) : length a = length b → list_cmp (a ++ s) (b ++ s) = list_cmp a b.
Proof.
  revert b. induction a as [|x a IH]; intros [|y b]; try done; intros Hl; simpl.
  - by apply list_cmp_eq.
  - destruct (cmp x y); [|done..]. apply IH. simpl in Hl. lia.
Qed.
Lemma list_cmp_app_l (p a b : list A) : list_cmp (p ++ a) (p ++ b) = list_cmp a b.
Proof. induction p as [|x p IH]; [done|]. simpl. by rewrite cmp_refl. Qed.
Lemma list_cmp_snoc (l1 l2 : list A) x y :
  length l1 = length l2 → list_cmp (l1 ++ [x]) (l2 ++ [y]) = match list_cmp l1 l2 with Eq => cmp x y | c => c end.
Proof.
  revert l2. induction l1 as [|a l1 IH]; intros [|b l2] Hlen; try done; simpl.
  - by destruct (cmp x y).
  - destruct (cmp a b); [|done..]. apply IH. simpl in Hlen. lia.
Qed.

Lemma list_cmp_opp (l1 l2 : list A) : list_cmp l2 l1 = CompOpp (list_cmp l1 l2).
Proof.
  revert l2. induction l1 as [|x l1 IH]; intros [|y l2]; simpl; try done.
  rewrite (cmp_opp x y). by destruct (cmp x y); simpl.
Qed.

Lemma list_cmp_trans (l1 l2 l3 : list A) :
  list_cmp l1 l2 = Lt → list_cmp l2 l3 = Lt → list_cmp l1 l3 = Lt.
Proof.
  revert l2 l3. induction l1 as [|x l1 IH]; intros [|y l2] [|z l3]; simpl; try done.
  destruct (cmp x y) eqn:E1, (cmp y z) eqn:E2; intros H1 H2; try done.
  - apply cmp_eq in E1 as ->. rewrite E2. eauto.
  - apply cmp_eq in E1 as ->. by rewrite E2.
  - apply cmp_eq in E2 as ->. by rewrite E1.
  - by rewrite (cmp_lt_trans _ _ _ E1 E2).
Qed.

#[export] Instance list_ord_laws : OrdLaws (list A).
Proof.
  split; unfold cmp, list_ord;
    [exact list_cmp_eq|exact list_cmp_opp|exact list_cmp_trans].
Qed.
End laws.
#[export] Hint Resolve olt_ole : core.

(** * Ordered maps *)

(** A list of entries in the order a [BTreeMap] yields them. *)
Definition sorted_keys {K V} `{!Ord K} (l : list (K * V)) : Prop :=
  StronglySorted olt l.*1.

Section btree.
Context {K V : Type} `{Countable K, !Ord K, !OrdLaws K}.
Implicit Types (m : gmap K V) (l : list (K * V)).

(** [BTreeMap::iter]: every entry, in ascending key order. *)
Definition bt_iter m : list (K * V) :=
  merge_sort (λ x y : K * V, x.1 ⪯ y.1) (map_to_list m).

(** [BTreeMap::keys]. *)
Definition bt_keys m : list K := (bt_iter m).*1.

Lemma bt_iter_perm m : bt_iter m ≡ₚ map_to_list m.
Proof. apply merge_sort_Permutation. Qed.

Lemma elem_of_bt_iter m k v : (k, v) ∈ bt_iter m ↔ m !! k = Some v.
Proof. by rewrite bt_iter_perm, elem_of_map_to_list. Qed.

Lemma bt_keys_NoDup m : NoDup (bt_iter m).*1.
Proof. rewrite bt_iter_perm. apply NoDup_fst_map_to_list. Qed.

Lemma sorted_keys_cons k v l :
  sorted_keys ((k, v) :: l) ↔ (∀ kv, kv ∈ l → k ≺ kv.1) ∧ sorted_keys l.
Proof.
  unfold sorted_keys. rewrite fmap_cons, StronglySorted_cons, Forall_fmap, Forall_forall.
  done.
Qed.

Lemma sorted_keys_NoDup l : sorted_keys l → NoDup l.*1.
Proof. apply StronglySorted_lt_NoDup, _. Qed.

#[export] Instance entry_ole_trans : Transitive (λ x y : K * V, x.1 ⪯ y.1).
Proof. intros x y z. apply (transitivity (R:=ole)). Qed.

#[export] Instance entry_ole_total : Total (λ x y : K * V, x.1 ⪯ y.1).
Proof. intros x y. apply (total ole). Qed.

Lemma ole_sorted_strict l :
  StronglySorted (λ x y : K * V, x.1 ⪯ y.1) l → NoDup l.*1 → sorted_keys l.
Proof.
  induction 1 as [|[k v] l Hl IH Hk]; [constructor|].
  intros [Hnin Hnd]%NoDup_cons. apply sorted_keys_cons. split; [|by apply IH].
  rewrite Forall_forall in Hk. intros [k' v'] Hin.
  specialize (Hk _ Hin). simpl in *. apply ole_alt in Hk as [?| ->]; [done|].
  destruct Hnin. by apply (list_elem_of_fmap_2 fst) in Hin.
Qed.

Lemma bt_iter_sorted m : sorted_keys (bt_iter m).
Proof.
  apply ole_sorted_strict; [|apply bt_keys_NoDup].
  apply (StronglySorted_merge_sort _).
Qed.

Lemma sorted_keys_entries l :
  sorted_keys l ↔ StronglySorted (λ x y : K * V, x.1 ≺ y.1) l.
Proof.
  induction l as [|[k v] l IH]; [by split; constructor|].
  rewrite sorted_keys_cons, StronglySorted_cons, Forall_forall, IH. done.
Qed.

(** Ascending order and the set of entries determine the list. *)
Lemma sorted_keys_unique l1 l2 :
  sorted_keys l1 → sorted_keys l2 → (∀ kv, kv ∈ l1 ↔ kv ∈ l2) → l1 = l2.
Proof.
  intros H1 H2 Heq.
  pose proof (NoDup_fmap_1 _ _ (sorted_keys_NoDup _ H1)).
  pose proof (NoDup_fmap_1 _ _ (sorted_keys_NoDup _ H2)).
  apply (StronglySorted_unique_strong (λ x y : K * V, x.1 ≺ y.1)).
  - intros x y _ _ Hxy Hyx. destruct (olt_irrefl x.1). by etrans.
  - by apply sorted_keys_entries.
  - by apply sorted_keys_entries.
  - by apply NoDup_Permutation.
Qed.

Lemma bt_keys_sorted m : StronglySorted olt (bt_keys m).
Proof. apply bt_iter_sorted. Qed.

Lemma elem_of_bt_keys m k : k ∈ bt_keys m ↔ is_Some (m !! k).
Proof.
  unfold bt_keys. rewrite list_elem_of_fmap. split.
  - intros ([k' v] & -> & Hin%elem_of_bt_iter). eauto.
  - intros [v Hv%elem_of_bt_iter]. by exists (k, v).
Qed.

Lemma bt_iter_list_to_map l : sorted_keys l → bt_iter (list_to_map l) = l.
Proof.
  intros Hl. apply sorted_keys_unique; [apply bt_iter_sorted|done|].
  intros [k v]. rewrite elem_of_bt_iter.
  symmetry. apply elem_of_list_to_map, sorted_keys_NoDup, Hl.
Qed.

Lemma list_to_map_bt_iter m : list_to_map (bt_iter m) = m.
Proof.
  apply map_eq. intros k. apply option_eq. intros v.
  rewrite <- (elem_of_list_to_map (bt_iter m)) by apply bt_keys_NoDup.
  apply elem_of_bt_iter.
Qed.

Lemma bt_iter_nil m : bt_iter m = [] ↔ m = ∅.
Proof.
  split; [|by intros ->].
  intros E. by rewrite <- (list_to_map_bt_iter m), E.
Qed.

Lemma bt_iter_length m : length (bt_iter m) = size m.
Proof. rewrite bt_iter_perm. apply length_map_to_list. Qed.

(** Iteration starts with the smallest key. *)
Lemma bt_iter_cons m k v :
  m !! k = Some v → (∀ k' v', m !! k' = Some v' → k ⪯ k') →
  bt_iter m = (k, v) :: bt_iter (delete k m).
Proof.
  intros Hk Hmin. apply sorted_keys_unique; [apply bt_iter_sorted| |].
  - apply sorted_keys_cons. split; [|apply bt_iter_sorted].
    intros [k' v'] Hin. apply elem_of_bt_iter, lookup_delete_Some in Hin as [Hne Hin].
    apply Hmin in Hin. apply ole_alt in Hin as [?|]; done.
  - intros [k' v']. rewrite elem_of_cons, !elem_of_bt_iter, lookup_delete_Some.
    destruct (decide (k = k')) as [<-|Hne].
    + rewrite Hk. split; [intros [= ->]; by left|]. intros [[= ->]|[? _]]; done.
    + split; [by right|]. intros [[= -> _]|[_ ?]]; done.
Qed.

Lemma sorted_keys_filter (P : K * V → Prop) `{!∀ x, Decision (P x)} l :
  sorted_keys l → sorted_keys (filter P l).
Proof.
  induction l as [|[k v] l IH]; [done|].
  intros [Hk Hl]%sorted_keys_cons. rewrite filter_cons. case_decide; [|by apply IH].
  apply sorted_keys_cons. split; [|by apply IH].
  intros kv [_ ?]%list_elem_of_filter. by apply Hk.
Qed.
End btree.

(** The same for a list of keys alone. *)
#[export] Instance olt_antisym {K} `{!Ord K, !OrdLaws K} : AntiSymm (=) (olt (A:=K)).
Proof. intros x y Hx Hy. by destruct (olt_irrefl x); etrans. Qed.

Lemma strict_sorted_unique {K} `{!Ord K, !OrdLaws K} (l1 l2 : list K) :
  StronglySorted olt l1 → StronglySorted olt l2 → (∀ k, k ∈ l1 ↔ k ∈ l2) → l1 = l2.
Proof.
  intros H1 H2 Heq. apply (StronglySorted_unique olt); [done..|].
  apply NoDup_Permutation; [by apply (StronglySorted_lt_NoDup olt)..|done].
Qed.

Lemma merge_sort_strict {K} `{!Ord K, !OrdLaws K} (l : list K) : NoDup l → StronglySorted olt (merge_sort ole l).
Proof.
  intros Hl. rewrite <- (merge_sort_Permutation ole l) in Hl. pose proof (StronglySorted_merge_sort ole l) as Hs. revert Hs Hl.
  induction 1 as [|k l' Hl' IH Hk]; [constructor|]. intros [Hnin Hnd]%NoDup_cons. constructor; [by apply IH|].
  rewrite Forall_forall in *. intros k' Hin. specialize (Hk _ Hin). apply ole_alt in Hk as [?| ->]; done.
Qed.

Lemma strict_sorted_filter {A} (R : relation A) (P : A → Prop) `{!∀ x, Decision (P x)}
    (l : list A) :
  StronglySorted R l → StronglySorted R (filter P l).
Proof.
  induction 1 as [|x l Hl IH Hx]; [constructor|].
  rewrite filter_cons. case_decide; [|done]. constructor; [done|].
  rewrite Forall_forall in *. intros y [_ ?]%list_elem_of_filter. auto.
Qed.

(** Iterating over a range of a [BTreeMap]. *)
Definition bt_range {K V} `{Countable K, !Ord K} (inside : K → bool) (m : gmap K V)
    : list (K * V) :=
  filter (λ kv, inside kv.1 = true) (bt_iter m).

Lemma bt_range_sorted {K V} `{Countable K, !Ord K, !OrdLaws K} inside (m : gmap K V) :
  sorted_keys (bt_range inside m).
Proof. apply sorted_keys_filter, bt_iter_sorted. Qed.

Lemma elem_of_bt_range {K V} `{Countable K, !Ord K, !OrdLaws K} inside (m : gmap K V) k v :
  (k, v) ∈ bt_range inside m ↔ m !! k = Some v ∧ inside k = true.
Proof.
  unfold bt_range. rewrite list_elem_of_filter, elem_of_bt_iter. simpl. tauto.
Qed.

(** * Ranges of keys *)

Inductive Bound (K : Type) : Type := Included (k : K) | Excluded (k : K) | Unbounded.
Arguments Included {K} k. Arguments Excluded {K} k. Arguments Unbounded {K}.

(** [RangeBounds<K>]: its [start_bound] and [end_bound]. *)
Record KeyRange (K : Type) : Type := mkRange { start_bound : Bound K; end_bound : Bound K }.
Arguments mkRange {K}. Arguments start_bound {K}. Arguments end_bound {K}.
Definition full_range {K} : KeyRange K := mkRange Unbounded Unbounded.

Section ranges.
Context {K V : Type} `{Countable K, !Ord K}.

(** The keys a [BTreeMap::range] visits. *)
Definition in_range (r : KeyRange K) (k : K) : bool :=
  match start_bound r with
  | Included s => s ⪯? k | Excluded s => s ≺? k | Unbounded => true
  end &&
  match end_bound r with
  | Included e => k ⪯? e | Excluded e => k ≺? e | Unbounded => true
  end.

(** A range whose start is above its end, or an excluded single point. *)
Definition bad_range (r : KeyRange K) : bool :=
  match start_bound r, end_bound r with
  | Excluded s, Excluded e => e ⪯? s
  | Included s, (Included e | Excluded e) | Excluded s, Included e => e ≺? s
  | _, _ => false
  end.

(** [BTreeMap::range(r)]: a bad range panics as soon as the map has a root to
    search, which an empty map never grew here. *)
Definition bt_range_checked {E} (r : KeyRange K) (m : gmap K V) : outcome E (list (K * V)) :=
  if bad_range r && negb (bool_decide (m = ∅)) then Panic else Ok (bt_range (in_range r) m).
End ranges.
