(* ===== verification/Bytes.v ===== *)
(** Machine integers and byte strings: [u8] as [Byte.byte], the wrap-around of
    [u32], [u64] and [usize] (64-bit, release build: arithmetic wraps and
    [debug_assert!] is compiled out), [to_le_bytes] / [from_le_bytes], the
    lexicographic order of [[u8]], decimal formatting and parsing of the
    numbers in file names. *)
From coqutil Require Export Byte.
From coqutil Require Import Word.LittleEndianList.
From S2P Require Export Prelude Order.
From Stdlib Require Import Strings.String Strings.Byte.

(** [Vec<u8>], [&[u8]], and one component of a path. *)
Abbreviation u8 := Init.Byte.byte.
Abbreviation bytes := (list u8).

#[export] Instance byte_eq_dec : EqDecision u8.
Proof.
  refine (λ x y, match Z.eq_dec (byte.unsigned x) (byte.unsigned y) with
                 | left H => left (byte.unsigned_inj _ _ H)
                 | right H => right _
                 end).
  by intros ->.
Defined.
#[export] Instance byte_countable : Countable u8 :=
  inj_countable' byte.unsigned byte.of_Z byte.of_Z_unsigned.
#[export] Instance byte_ord : Ord u8 := byte.compare.

(** A string literal as bytes: [b"..."]. *)
Definition lit (s : string) : bytes := String.list_byte_of_string s.

(** [v.len() as u64] (a [Vec] never holds more than [isize::MAX] bytes). *)
Definition blen {A} (l : list A) : Z := Z.of_nat (List.length l).

(** * Fixed-width arithmetic *)

Definition u8_wrap (z : Z) : Z := z mod 2 ^ 8.
Definition u32_wrap (z : Z) : Z := z mod 2 ^ 32.
Definition u64_wrap (z : Z) : Z := z mod 2 ^ 64.
Definition u64_add (x y : Z) : Z := u64_wrap (x + y).
Definition u64_sub (x y : Z) : Z := u64_wrap (x - y).
Definition u64_mul (x y : Z) : Z := u64_wrap (x * y).
(** [usize::saturating_mul] and [u64::saturating_add]. *)
Definition u64_max : Z := 2 ^ 64 - 1.
Definition u64_saturating_add (x y : Z) : Z := Z.min (x + y) u64_max.
Definition u64_saturating_mul (x y : Z) : Z := Z.min (x * y) u64_max.
(** [usize::checked_add]. *)
Definition u64_checked_add (x y : Z) : option Z :=
  if decide (x + y ≤ u64_max) then Some (x + y) else None.

(** * Little-endian fields *)

(** [(v as u32).to_le_bytes()] and [v.to_le_bytes()] for a [u64]. *)
Definition le32 (v : Z) : bytes := le_split 4 v.
Definition le64 (v : Z) : bytes := le_split 8 v.
(** [u32::from_le_bytes] and [u64::from_le_bytes]. *)
Definition of_le (b : bytes) : Z := le_combine b.
#[global] Arguments le32 : simpl never.
#[global] Arguments le64 : simpl never.
#[global] Arguments of_le : simpl never.

(** * Slices *)

(** [&buf[lo..hi]]: a panic unless [lo <= hi <= buf.len()]. *)
Definition slice {E A} (buf : list A) (lo hi : Z) : outcome E (list A) :=
  if decide (0 ≤ lo ≤ hi ∧ hi ≤ blen buf)
  then Ok (take (Z.to_nat (hi - lo)) (drop (Z.to_nat lo) buf))
  else Panic.

(** * Decimal numbers in file names *)

Definition digit (d : Z) : u8 := byte.of_Z (48 + d).
(** The low [n] decimal digits of [v], most significant first. *)
Fixpoint digits (n : nat) (v : Z) : bytes :=
  match n with
  | O => []
  | Datatypes.S n' => digits n' (v / 10) ++ [digit (v mod 10)]
  end.

(** [format!("{id:020}")] for a [u64]: every [u64] fits 20 digits. *)
Definition fmt020 (id : Z) : bytes := digits 20 id.

(** One step of [u64::from_str]: multiply by ten, add the digit, both checked. *)
Definition parse_step (acc : option Z) (b : u8) : option Z :=
  a ← acc;
  if decide (48 ≤ byte.unsigned b ≤ 57)
  then let v := a * 10 + (byte.unsigned b - 48) in
       if decide (v ≤ u64_max) then Some v else None
  else None.

(** [str::parse::<u64>().ok()]: at least one digit, a leading [+] allowed,
    overflow refused. *)
Definition parse_u64 (s : bytes) : option Z :=
  match s with
  | [] => None
  | c :: r =>
      let ds := if decide (byte.unsigned c = 43) then r else s in
      match ds with
      | [] => None
      | _ => foldl parse_step (Some 0) ds
      end
  end.

(** [str::strip_suffix]. *)
Definition strip_suffix (suffix s : bytes) : option bytes :=
  let n := (List.length s - List.length suffix)%nat in
  if decide (take n s ++ suffix = s) then Some (take n s) else None.

(** * Laws *)

#[export] Instance byte_ord_laws : OrdLaws u8.
Proof.
  split; unfold cmp, byte_ord, byte.compare; intros.
  - rewrite Z.compare_eq_iff. split; [apply byte.unsigned_inj|by intros ->].
  - apply Z.compare_antisym.
  - rewrite Z.compare_lt_iff in *. lia.
Qed.

Lemma blen_nonneg {A} (l : list A) : 0 ≤ blen l.
Proof. unfold blen. lia. Qed.
#[export] Hint Resolve blen_nonneg : core.

Lemma blen_nil {A} : blen (@nil A) = 0.
Proof. done. Qed.
Lemma blen_cons {A} (x : A) l : blen (x :: l) = 1 + blen l.
Proof. unfold blen. simpl. lia. Qed.
Lemma blen_app {A} (l1 l2 : list A) : blen (l1 ++ l2) = blen l1 + blen l2.
Proof. unfold blen. rewrite length_app. lia. Qed.
Lemma blen_le32 v : blen (le32 v) = 4.
Proof. unfold blen, le32. by rewrite length_le_split. Qed.
Lemma blen_le64 v : blen (le64 v) = 8.
Proof. unfold blen, le64. by rewrite length_le_split. Qed.

Create Rewrite HintDb blen.
#[export] Hint Rewrite @blen_nil @blen_cons @blen_app blen_le32 blen_le64 : blen.
Ltac blens := autorewrite with blen in *.

Lemma of_le_le32 v : of_le (le32 v) = u32_wrap v.
Proof. apply le_combine_split. Qed.
Lemma of_le_le64 v : of_le (le64 v) = u64_wrap v.
Proof. apply le_combine_split. Qed.

Lemma u32_wrap_id v : 0 ≤ v < 2 ^ 32 → u32_wrap v = v.
Proof. apply Z.mod_small. Qed.
Lemma u64_wrap_id v : 0 ≤ v < 2 ^ 64 → u64_wrap v = v.
Proof. apply Z.mod_small. Qed.
Lemma u32_wrap_range v : 0 ≤ u32_wrap v < 2 ^ 32.
Proof. by apply Z.mod_pos_bound. Qed.
Lemma u64_wrap_range v : 0 ≤ u64_wrap v < 2 ^ 64.
Proof. by apply Z.mod_pos_bound. Qed.
Lemma of_le_range b : 0 ≤ of_le b < 2 ^ (8 * blen b).
Proof. apply le_combine_bound. Qed.

Lemma le32_of_le b : blen b = 4 → le32 (of_le b) = b.
Proof. intros H. apply split_le_combine'. unfold blen in H. lia. Qed.
Lemma le64_of_le b : blen b = 8 → le64 (of_le b) = b.
Proof. intros H. apply split_le_combine'. unfold blen in H. lia. Qed.

Lemma slice_app {E A} (pre mid post : list A) lo hi :
  lo = blen pre → hi = blen pre + blen mid →
  slice (E:=E) (pre ++ mid ++ post) lo hi = Ok mid.
Proof.
  intros -> ->. unfold slice. rewrite decide_True.
  - f_equal. rewrite drop_app_prefix by (unfold blen; lia).
    apply take_app_prefix. unfold blen. lia.
  - unfold blen in *. rewrite !length_app. lia.
Qed.

Lemma slice_prefix {E A} (mid post : list A) hi :
  hi = blen mid → slice (E:=E) (mid ++ post) 0 hi = Ok mid.
Proof. intros ->. by apply (slice_app [] mid post). Qed.
Lemma slice_suffix {E A} (pre mid : list A) lo hi :
  lo = blen pre → hi = blen pre + blen mid → slice (E:=E) (pre ++ mid) lo hi = Ok mid.
Proof. intros. rewrite <- (app_nil_r mid) at 1. by apply slice_app. Qed.

Lemma slice_ok {E A} (buf : list A) lo hi :
  0 ≤ lo ≤ hi → hi ≤ blen buf →
  ∃ pre mid post, slice (E:=E) buf lo hi = Ok mid ∧ buf = pre ++ mid ++ post ∧
                  blen pre = lo ∧ blen mid = hi - lo.
Proof.
  intros H1 H2. unfold slice. rewrite decide_True by done.
  exists (take (Z.to_nat lo) buf), (take (Z.to_nat (hi - lo)) (drop (Z.to_nat lo) buf)),
    (drop (Z.to_nat (hi - lo)) (drop (Z.to_nat lo) buf)).
  unfold blen in *. repeat split.
  - by rewrite !take_drop.
  - rewrite length_take. lia.
  - rewrite length_take, length_drop. lia.
Qed.

(** ** Decimal round trip *)

Lemma length_digits n v : List.length (digits n v) = n.
Proof.
  revert v. induction n as [|n IH]; intros v; simpl; [done|].
  rewrite length_app, IH. simpl. lia.
Qed.

Lemma unsigned_digit d : 0 ≤ d < 10 → byte.unsigned (digit d) = 48 + d.
Proof. intros H. unfold digit. rewrite byte.unsigned_of_Z. apply Z.mod_small. lia. Qed.

Lemma parse_digits n v acc :
  0 ≤ v < 10 ^ Z.of_nat n → 0 ≤ acc → acc * 10 ^ Z.of_nat n + v ≤ u64_max →
  foldl parse_step (Some acc) (digits n v) = Some (acc * 10 ^ Z.of_nat n + v).
Proof.
  revert v. induction n as [|n IH]; intros v Hv Hacc Hmax; simpl.
  { f_equal. simpl in Hv. lia. }
  rewrite foldl_app. rewrite Nat2Z.inj_succ, Z.pow_succ_r in * by lia.
  assert (Hd : 0 ≤ v / 10 < 10 ^ Z.of_nat n).
  { split; [apply Z.div_pos; lia|]. apply Z.div_lt_upper_bound; lia. }
  pose proof (Z.div_mod v 10 ltac:(lia)). pose proof (Z.mod_pos_bound v 10 ltac:(lia)).
  rewrite IH by lia. simpl. unfold parse_step. simpl.
  rewrite unsigned_digit by lia. rewrite decide_True by lia.
  rewrite decide_True by lia. f_equal. lia.
Qed.

Lemma digits_head n v b r : digits n v = b :: r → 48 ≤ byte.unsigned b ≤ 57.
Proof.
  revert v b r. induction n as [|n IH]; intros v b r; simpl; [done|].
  destruct (digits n (v / 10)) as [|c l] eqn:E; simpl; intros [= <- <-].
  - pose proof (Z.mod_pos_bound v 10 ltac:(lia)). rewrite unsigned_digit; lia.
  - by eapply IH.
Qed.

Lemma parse_fmt020 id : 0 ≤ id < 2 ^ 64 → parse_u64 (fmt020 id) = Some id.
Proof.
  intros Hid. unfold fmt020, parse_u64.
  destruct (digits 20 id) as [|c r] eqn:E.
  { apply (f_equal List.length) in E. by rewrite length_digits in E. }
  pose proof (digits_head _ _ _ _ E). rewrite decide_False by lia. rewrite <- E.
  apply (parse_digits 20 id 0); [|lia|unfold u64_max; lia].
  assert (2 ^ 64 < 10 ^ Z.of_nat 20) by done. lia.
Qed.

(** A number is compared by its leading digits first. *)
Lemma cmp_div_mod B v w :
  0 < B → match cmp (v / B) (w / B) with Eq => cmp (v mod B) (w mod B) | c => c end = cmp v w.
Proof.
  intros HB. pose proof (Z.div_mod v B ltac:(lia)). pose proof (Z.mod_pos_bound v B HB).
  pose proof (Z.div_mod w B ltac:(lia)). pose proof (Z.mod_pos_bound w B HB). unfold cmp, Z_ord.
  destruct (Z.compare_spec (v / B) (w / B)) as [E|Hlt|Hgt]; symmetry.
  - rewrite E in *. destruct (Z.compare_spec (v mod B) (w mod B));
      [apply Z.compare_eq_iff|apply Z.compare_lt_iff|apply Z.compare_gt_iff]; lia.
  - apply Z.compare_lt_iff. nia.
  - apply Z.compare_gt_iff. nia.
Qed.
Lemma digits_order n v w :
  0 ≤ v < 10 ^ Z.of_nat n → 0 ≤ w < 10 ^ Z.of_nat n →
  cmp (digits n v) (digits n w) = cmp v w.
Proof.
  revert v w. induction n as [|n IH]; intros v w Hv Hw.
  { simpl in *. replace v with w by lia. by rewrite (cmp_refl w). }
  simpl. rewrite Nat2Z.inj_succ, Z.pow_succ_r in * by lia.
  unfold cmp at 1, list_ord. rewrite list_cmp_snoc by by rewrite !length_digits.
  assert (Hbnd : ∀ z, 0 ≤ z < 10 * 10 ^ Z.of_nat n → 0 ≤ z / 10 < 10 ^ Z.of_nat n).
  { intros z Hz. split; [apply Z.div_pos; lia|apply Z.div_lt_upper_bound; lia]. }
  specialize (IH (v / 10) (w / 10) (Hbnd _ Hv) (Hbnd _ Hw)).
  unfold cmp at 1, list_ord in IH. rewrite IH, <- (cmp_div_mod 10 v w) by lia.
  pose proof (Z.mod_pos_bound v 10 ltac:(lia)). pose proof (Z.mod_pos_bound w 10 ltac:(lia)).
  destruct (cmp (v / 10) (w / 10)); [|done..]. unfold cmp, byte_ord, byte.compare, Z_ord.
  rewrite !unsigned_digit by lia. apply Z.add_compare_mono_l.
Qed.

Lemma strip_suffix_app suffix s : strip_suffix suffix (s ++ suffix) = Some s.
Proof.
  unfold strip_suffix. rewrite length_app, Nat.add_sub, take_app_length.
  by rewrite decide_True.
Qed.

Lemma strip_suffix_Some suffix s r : strip_suffix suffix s = Some r → s = r ++ suffix.
Proof. unfold strip_suffix. case_decide as H; intros; simplify_eq. by rewrite H. Qed.

(** Drop every wrap-around that arithmetic shows cannot happen. *)
Ltac no_wrap :=
  repeat match goal with
    | |- context [u64_wrap ?a] => rewrite (u64_wrap_id a) by lia
    | |- context [u32_wrap ?a] => rewrite (u32_wrap_id a) by lia
    end.
