(* ===== verification/Float.v ===== *)
(** [f64]: IEEE binary64 with the rounding to nearest even of the hardware, and the
    saturating casts of Rust, on the Standard Library's executable floats. *)
From Stdlib Require Export Floats.SpecFloat.
From S2P Require Export Bytes.

Abbreviation f64 := spec_float.

(** [z as f64]. *)
Definition f64_of (z : Z) : f64 := binary_normalize 53 1024 z 0 false.
Definition f64_div : f64 → f64 → f64 := SFdiv 53 1024.
Definition f64_mul : f64 → f64 → f64 := SFmul 53 1024.
Definition f64_add : f64 → f64 → f64 := SFadd 53 1024.
Definition f64_lt : f64 → f64 → bool := SFltb.
Definition f64_le : f64 → f64 → bool := SFleb.
Definition f64_zero : f64 := S754_zero false.
Definition f64_one : f64 := f64_of 1.
(** [std::f64::consts::LN_2]. *)
Definition LN_2 : f64 := S754_finite false 0x162E42FEFA39EF (-53).

(** [x.round() as i64]: half away from zero, then a saturating cast. *)
Definition i64_sat (z : Z) : Z := Z.max (- 2 ^ 63) (Z.min z (2 ^ 63 - 1)).
Definition f64_round_i64 (x : f64) : Z :=
  match x with
  | S754_zero _ | S754_nan => 0
  | S754_infinity s => if s then - 2 ^ 63 else 2 ^ 63 - 1
  | S754_finite s m e =>
      let a := if decide (0 ≤ e) then Z.pos m * 2 ^ e
               else (Z.pos m + 2 ^ (- e - 1)) / 2 ^ (- e) in
      i64_sat (if s then - a else a)
  end.

(** [x.ceil() as usize]: saturating, 0 for a NaN. *)
Definition f64_ceil_usize (x : f64) : Z :=
  match x with
  | S754_zero _ | S754_nan => 0
  | S754_infinity s => if s then 0 else u64_max
  | S754_finite s m e =>
      if s then 0
      else Z.min u64_max (if decide (0 ≤ e) then Z.pos m * 2 ^ e
                          else (Z.pos m + 2 ^ (- e) - 1) / 2 ^ (- e))
  end.

(** [x as u64]: towards zero, saturating, 0 for a NaN. *)
Definition f64_trunc_u64 (x : f64) : Z :=
  match x with
  | S754_zero _ | S754_nan => 0
  | S754_infinity s => if s then 0 else u64_max
  | S754_finite s m e =>
      if s then 0
      else Z.min u64_max (if decide (0 ≤ e) then Z.pos m * 2 ^ e else Z.pos m / 2 ^ (- e))
  end.

(** [x.clamp(lo, hi)]: a NaN stays one. *)
Definition f64_clamp (x lo hi : f64) : f64 :=
  let x := if f64_lt x lo then lo else x in
  if f64_lt hi x then hi else x.

Lemma f64_ceil_nonneg x : 0 ≤ f64_ceil_usize x.
Proof.
  assert (0 ≤ u64_max) by done.
  destruct x as [s|s| |[] m e]; simpl; try done; [by destruct s|].
  case_decide; [lia|]. apply Z.min_glb; [done|]. apply Z.div_pos; [|apply Z.pow_pos_nonneg; lia].
  pose proof (Z.pow_pos_nonneg 2 (- e)). lia.
Qed.
