(* ===== verification/Extern.v ===== *)
(** The third-party code the engine calls, as parameters: the CRC-32 of the
    [crc32fast] crate, the 128-bit hash of [xxhash_rust], the generator of
    [rand] with its shuffle.  A class gives each its operation, a law class states the documented
    behaviour the theorems use, and a small concrete instance shows that the
    laws can hold. *)
From S2P Require Export Bytes.

(** [crc32fast::hash(&[u8]) -> u32]. *)
Class Crc32 := crc32_hash : bytes → Z.
Class Crc32Laws `{!Crc32} : Prop := crc32_u32 (b : bytes) : 0 ≤ crc32_hash b < 2 ^ 32.

(** [xxh3_128(&[u8]) -> u128]. *)
Class Xxh3 := xxh3_128 : bytes → Z.
Class Xxh3Laws `{!Xxh3} : Prop := xxh3_u128 (b : bytes) : 0 ≤ xxh3_128 b < 2 ^ 128.

(** [StdRng]: seeding and the three shapes of [gen_range] the simulator draws
    from, [gen_range(0u8..3)], [gen_range(0..=n)] on [usize] and
    [gen_range(0..n)] on [u64]. *)
Class Rng (R : Type) := {
  seed_from_u64 : Z → R;
  gen_u8_below : Z → R → Z * R;
  gen_usize_upto : Z → R → Z * R;
  gen_u64_below : Z → R → Z * R;
}.
Class RngLaws (R : Type) `{!Rng R} : Prop := {
  gen_u8_range n r : 0 < n → 0 ≤ (gen_u8_below n r).1 < n;
  gen_usize_range n r : 0 ≤ n → 0 ≤ (gen_usize_upto n r).1 ≤ n;
  gen_u64_range n r : 0 < n → 0 ≤ (gen_u64_below n r).1 < n;
}.

(** [SliceRandom::shuffle]: the slice permuted in place. *)
Class Shuffle (R : Type) := shuffle : list Z → R → list Z * R.
Class ShuffleLaws (R : Type) `{!Shuffle R} : Prop := shuffle_perm l r : (shuffle l r).1 ≡ₚ l.

(** ** Concrete instances, for evaluating the model *)

Module Sample.

(** A weighted byte sum, reduced as it goes: enough to tell the samples' payloads apart. *)
Fixpoint sum_from (i : Z) (b : bytes) : Z :=
  match b with
  | [] => i
  | x :: b' => sum_from (Z.land (i * 31 + byte.unsigned x + 1) 0xFFFFFFFF) b'
  end.
Definition crc : Crc32 := λ b, u32_wrap (sum_from 7 b).
Definition xxh3 : Xxh3 := λ b, sum_from 3 b mod 2 ^ 128.
(** A linear congruential generator. *)
Definition lcg (r : Z) : Z := (r * 1103515245 + 12345) mod 2 ^ 31.
Definition rng : Rng Z := {|
  seed_from_u64 s := s;
  gen_u8_below n r := (lcg r mod n, lcg r);
  gen_usize_upto n r := (lcg r mod (n + 1), lcg r);
  gen_u64_below n r := (lcg r mod n, lcg r);
|}.

(** A rotation. *)
Definition rotation : Shuffle Z := λ l r, (drop (Z.to_nat (r mod blen l)) l ++ take (Z.to_nat (r mod blen l)) l, r).

Lemma crc_laws : @Crc32Laws crc.
Proof. intros b. apply u32_wrap_range. Qed.
Lemma xxh3_laws : @Xxh3Laws xxh3.
Proof. intros b. by apply Z.mod_pos_bound. Qed.
Lemma rng_laws : @RngLaws Z rng.
Proof.
  split; intros n r Hn; simpl.
  - by apply Z.mod_pos_bound.
  - pose proof (Z.mod_pos_bound (lcg r) (n + 1)). lia.
  - by apply Z.mod_pos_bound.
Qed.
Lemma rotation_laws : @ShuffleLaws Z rotation.
Proof. intros l r. simpl. rewrite (Permutation_app_comm (drop _ l)). by rewrite take_drop. Qed.

End Sample.
