(* ===== verification/Storage.v ===== *)
(** The storage seam ([src/storage/mod.rs]): paths, [StorageError], the
    [Storage] trait as a class, and the abstract contract of a backend.

    [memfs], a map from paths to contents, says what a process observes of a
    backend while no crash happens.  [StorageSpec] is the interface the engine's
    files are proved against: an implementation simulates [memfs] call by call,
    outcome by outcome. *)
From S2P Require Export Extern.
From Stdlib Require Import Strings.String.

(** * Paths *)

(** A [PathBuf]: its components, the root directory's included. *)
Abbreviation path := (list bytes).

(** [Path::join] with a relative component, [Path::parent], [Path::file_name]. *)
Definition join (dir : path) (name : bytes) : path := dir ++ [name].
Definition parent (p : path) : option path :=
  match p with [] => None | _ => Some (removelast p) end.
Definition file_name (p : path) : option bytes := last p.

(** * Errors *)

Inductive StorageError : Type :=
  | NotFound (p : path)
  | AlreadyExists (p : path)
  | OutOfBounds (p : path) (offset len : Z)
  | NotADirectory (p : path)
  | Io (p : path) (message : string).

(** * The trait *)

(** Every method takes the backend's state, the interior a [&self] method locks,
    and returns the state it leaves.  [read_at] takes the length of the caller's
    buffer and returns the bytes it wrote to its front. *)
Class Storage (S : Type) := {
  fs_create : path → M S StorageError ();
  fs_open : path → M S StorageError ();
  fs_append : path → bytes → M S StorageError Z;
  fs_write_at : path → Z → bytes → M S StorageError ();
  fs_read_at : path → Z → Z → M S StorageError bytes;
  fs_sync_file : path → M S StorageError ();
  fs_sync_dir : path → M S StorageError ();
  fs_rename : path → path → M S StorageError ();
  fs_delete : path → M S StorageError ();
  fs_list : path → M S StorageError (list path);
  fs_len : path → M S StorageError Z;
}.

(** Return [true] if [path] is a direct child of [dir]. *)
Definition is_child_of (p dir : path) : bool := bool_decide (parent p = Some dir).

(** * What a process observes of a backend *)

(** Overwrite [length data] bytes of [old] at [start]. *)
Definition splice (old : bytes) (start : Z) (data : bytes) : bytes :=
  take (Z.to_nat start) old ++ data ++ drop (Z.to_nat start + List.length data) old.

(** The bytes a positional read of [n] bytes at [offset] yields. *)
Definition read_bytes (b : bytes) (offset n : Z) : bytes :=
  take (Z.to_nat n) (drop (Z.to_nat offset) b).

(** Written out, so that no binder of a section is taken for its instances. *)
Abbreviation memfs :=
  (@gmap (list (list Byte.byte))
     (@list_eq_dec (list Byte.byte) (@list_eq_dec Byte.byte byte_eq_dec))
     (@list_countable (list Byte.byte) (@list_eq_dec Byte.byte byte_eq_dec)
        (@list_countable Byte.byte byte_eq_dec byte_countable))
     (list Byte.byte)).

Definition mem_file {A} (p : path) (f : bytes → M memfs StorageError A)
    : M memfs StorageError A :=
  λ m, match m !! p with
       | Some b => f b m
       | None => (Err (NotFound p), m)
       end.

Definition mem_create (p : path) : M memfs StorageError () := λ m,
  match m !! p with
  | Some _ => (Err (AlreadyExists p), m)
  | None => (Ok (), <[p := []]> m)
  end.
Definition mem_open (p : path) : M memfs StorageError () :=
  mem_file p (λ _, mret ()).
Definition mem_append (p : path) (data : bytes) : M memfs StorageError Z :=
  mem_file p (λ b m, (Ok (blen b), <[p := b ++ data]> m)).
Definition mem_write_at (p : path) (offset : Z) (data : bytes) : M memfs StorageError () :=
  mem_file p (λ b m,
    if decide (offset > blen b ∨ offset + blen data > blen b)
    then (Err (OutOfBounds p offset (blen b)), m)
    else (Ok (), <[p := splice b offset data]> m)).
Definition mem_read_at (p : path) (offset n : Z) : M memfs StorageError bytes :=
  mem_file p (λ b,
    if decide (offset > blen b) then err (OutOfBounds p offset (blen b))
    else mret (read_bytes b offset n)).
Definition mem_sync_file (p : path) : M memfs StorageError () :=
  mem_file p (λ _, mret ()).
Definition mem_sync_dir (dir : path) : M memfs StorageError () := mret ().
Definition mem_rename (from to : path) : M memfs StorageError () :=
  mem_file from (λ b m,
    (Ok (), if decide (from = to) then m else delete from (<[to := b]> m))).
Definition mem_delete (p : path) : M memfs StorageError () :=
  mem_file p (λ _ m, (Ok (), delete p m)).
Definition mem_list (dir : path) : M memfs StorageError (list path) :=
  gets (λ m, filter (λ p, is_child_of p dir = true) (bt_keys m)).
Definition mem_len (p : path) : M memfs StorageError Z :=
  mem_file p (λ b, mret (blen b)).

#[export] Instance mem_storage : Storage memfs := {|
  fs_create := mem_create;
  fs_open := mem_open;
  fs_append := mem_append;
  fs_write_at := mem_write_at;
  fs_read_at := mem_read_at;
  fs_sync_file := mem_sync_file;
  fs_sync_dir := mem_sync_dir;
  fs_rename := mem_rename;
  fs_delete := mem_delete;
  fs_list := mem_list;
  fs_len := mem_len;
|}.

(** * The contract of a backend *)

(** Nothing cuts a run short that is compared with the abstract backend. *)
#[export] Instance mem_deaths S : Deaths S memfs := λ _ _, False.
#[export] Instance mem_alive S : Alive S memfs.
Proof. by intros s m []. Qed.

(** Two backends whose calls match. *)
Class StorageSim (S S2 : Type) `{!Storage S, !Storage S2, !Deaths S S2} := {
  st_view : S → S2 → Prop;
  sim_create p : msim st_view (fs_create p) (fs_create p);
  sim_open p : msim st_view (fs_open p) (fs_open p);
  sim_append p b : msim st_view (fs_append p b) (fs_append p b);
  sim_write_at p o b : msim st_view (fs_write_at p o b) (fs_write_at p o b);
  sim_read_at p o n : msim st_view (fs_read_at p o n) (fs_read_at p o n);
  sim_sync_file p : msim st_view (fs_sync_file p) (fs_sync_file p);
  sim_sync_dir p : msim st_view (fs_sync_dir p) (fs_sync_dir p);
  sim_rename p q : msim st_view (fs_rename p q) (fs_rename p q);
  sim_delete p : msim st_view (fs_delete p) (fs_delete p);
  sim_list p : msim st_view (fs_list p) (fs_list p);
  sim_len p : msim st_view (fs_len p) (fs_len p);
}.
(** [st_view s m]: the backend in state [s] is in working order (well formed, no
    crash armed) and shows the process the files [m]. *)
Abbreviation StorageSpec S := (StorageSim S memfs).
#[export] Hint Resolve sim_create sim_open sim_append sim_write_at sim_read_at
  sim_sync_file sim_sync_dir sim_rename sim_delete sim_list sim_len : msim.

(** The abstract backend meets its own contract. *)
#[export] Instance mem_storage_spec : StorageSpec memfs.
Proof. exists eq; intros; apply msim_intro; by intros ? ? ->. Defined.

Lemma mem_view (m : memfs) : st_view m m.
Proof. unfold st_view. done. Qed.

(** ** Facts about paths and reads *)

Lemma parent_join dir name : parent (join dir name) = Some dir.
Proof.
  unfold parent, join. destruct (dir ++ [name]) eqn:E; [by destruct dir|].
  rewrite <- E. f_equal. apply removelast_last.
Qed.
Lemma file_name_join dir name : file_name (join dir name) = Some name.
Proof. apply last_snoc. Qed.
Lemma join_inj dir n1 n2 : join dir n1 = join dir n2 → n1 = n2.
Proof. unfold join. intros H. by simplify_list_eq. Qed.
Lemma is_child_join dir name : is_child_of (join dir name) dir = true.
Proof. apply bool_decide_eq_true. apply parent_join. Qed.
Lemma join_dir_eq d1 d2 n1 n2 : join d1 n1 = join d2 n2 → d1 = d2 ∧ n1 = n2.
Proof. apply app_inj_tail. Qed.
Lemma child_of_join p dir : is_child_of p dir = true → ∃ n, p = join dir n.
Proof.
  intros H%bool_decide_eq_true. unfold parent in H.
  destruct p as [|c p _] using rev_ind; [done|].
  exists c. unfold join. f_equal. rewrite removelast_last in H.
  destruct (p ++ [c]) eqn:E; [by destruct p|]. by simplify_eq.
Qed.

Lemma blen_read_bytes b o n :
  0 ≤ o ≤ blen b → 0 ≤ n → blen (read_bytes b o n) = Z.min n (blen b - o).
Proof.
  unfold blen, read_bytes. intros Ho Hn. rewrite length_take, length_drop. lia.
Qed.

Lemma read_bytes_app pre mid post o n :
  o = blen pre → n = blen mid → read_bytes (pre ++ mid ++ post) o n = mid.
Proof.
  intros -> ->. unfold read_bytes. rewrite drop_app_prefix by (unfold blen; lia).
  apply take_app_prefix. unfold blen. lia.
Qed.

Lemma read_bytes_all b : read_bytes b 0 (blen b) = b.
Proof. unfold read_bytes. rewrite drop_0. apply take_ge. unfold blen. lia. Qed.

(** ** What a piece of code leaves alone *)

(** Apart from the files [P], [m] is [m0]. *)
Definition outside (P : path → Prop) (m0 m : memfs) : Prop := ∀ p, ¬ P p → m !! p = m0 !! p.

Lemma keeps_mem_file {A : Type} (P : path → Prop) (m0 : memfs) (Q : A → Prop) (p : path) (f : bytes → M memfs StorageError A) :
  (∀ b, keeps (outside P m0) Q (f b)) → keeps (outside P m0) Q (mem_file p f).
Proof. intros Hf m Hm. unfold mem_file. destruct (m !! p); [by apply Hf|by split]. Qed.

Section outside.
Context (P : path → Prop) (m0 : memfs).
Abbreviation out := (outside P m0).

Lemma outside_insert (m : memfs) (p : path) (b : bytes) : P p → out m → out (<[p := b]> m).
Proof. intros Hp Hm q Hq. rewrite lookup_insert_ne; [by apply Hm|]. by intros <-. Qed.
Lemma outside_delete (m : memfs) (p : path) : P p → out m → out (delete p m).
Proof. intros Hp Hm q Hq. rewrite lookup_delete_ne; [by apply Hm|]. by intros <-. Qed.

Lemma keeps_create p : P p → keeps out any (fs_create p).
Proof. intros Hp m Hm. simpl. unfold mem_create. case_match; split; try done. by apply outside_insert. Qed.
Lemma keeps_open p : keeps out any (fs_open p).
Proof. apply keeps_mem_file. intros b. by apply keeps_ret. Qed.
Lemma keeps_append p data : P p → keeps out any (fs_append p data).
Proof. intros Hp. apply keeps_mem_file. intros b m Hm. split; [|done]. by apply outside_insert. Qed.
Lemma keeps_read_at p o n : keeps out any (fs_read_at p o n).
Proof. apply keeps_mem_file. intros b. case_decide; [by apply keeps_err|by apply keeps_ret]. Qed.
Lemma keeps_len p : keeps out any (fs_len p).
Proof. apply keeps_mem_file. intros b. by apply keeps_ret. Qed.
Lemma keeps_sync_file p : keeps out any (fs_sync_file p).
Proof. apply keeps_mem_file. intros b. by apply keeps_ret. Qed.
Lemma keeps_sync_dir p : keeps out any (fs_sync_dir p).
Proof. by apply keeps_ret. Qed.
Lemma keeps_delete p : P p → keeps out any (fs_delete p).
Proof. intros Hp. apply keeps_mem_file. intros b m Hm. split; [|done]. by apply outside_delete. Qed.
Lemma keeps_rename p q : P p → P q → keeps out any (fs_rename p q).
Proof.
  intros Hp Hq. apply keeps_mem_file. intros b m Hm. split; [|done]. simpl.
  case_decide; [done|]. by apply outside_delete, outside_insert.
Qed.
Lemma keeps_list d : keeps out any (fs_list d).
Proof. intros m Hm. by split. Qed.
End outside.
#[export] Hint Resolve keeps_create keeps_open keeps_append keeps_read_at keeps_len keeps_sync_file
  keeps_sync_dir keeps_delete keeps_rename keeps_list : keeps.
