(* ===== verification/SimFs.v ===== *)
(** The power-loss simulator ([src/storage/sim.rs]): inode generations with a
    live and a durable image, a namespace with a live and a durable binding per
    path, the crash that reverts both and tears one unsynced tail, and the armed
    crash hook every mutating call runs. *)
From S2P Require Export Storage.

Module SimFs.

(** * State *)

Inductive TearMode : Type := Drop | Truncate | BitFlip.

Record CrashReport : Type := mkReport {
  ops_before_crash : Z;
  torn_path : option path;
  tear_mode : TearMode;
  tail_len : Z;
  tail_kept : Z;
}.

Record InodeState : Type := mkInode {
  live : bytes;
  durable : bytes;
  last_append_seq : option Z;
}.

Record PathState : Type := mkPath {
  live_inode : option Z;
  durable_inode : option Z;
}.

(** [InodeState::default()], [PathState::default()]. *)
Definition inode_default : InodeState := mkInode [] [] None.
Definition path_default : PathState := mkPath None None.

Record SimState (R : Type) : Type := mkSim {
  files : gmap path PathState;
  inodes : gmap Z InodeState;
  next_inode : Z;
  op_count : Z;
  next_append_seq : Z;
  crash_after : option Z;
  last_report : option CrashReport;
  rng : R;
}.
Arguments mkSim {R}.
Arguments files {R}. Arguments inodes {R}. Arguments next_inode {R}.
Arguments op_count {R}. Arguments next_append_seq {R}. Arguments crash_after {R}.
Arguments last_report {R}. Arguments rng {R}.

Section simfs.
Context {R : Type} `{!Rng R}.
Implicit Types st : SimState R.

(** Field updates. *)
Definition set_files f st : SimState R :=
  mkSim f (inodes st) (next_inode st) (op_count st) (next_append_seq st)
    (crash_after st) (last_report st) (rng st).
Definition set_inodes i st : SimState R :=
  mkSim (files st) i (next_inode st) (op_count st) (next_append_seq st)
    (crash_after st) (last_report st) (rng st).
Definition set_rng r st : SimState R :=
  mkSim (files st) (inodes st) (next_inode st) (op_count st) (next_append_seq st)
    (crash_after st) (last_report st) r.

(** [SimFs::new], [SimFs::with_seed]. *)
Definition with_seed (seed : Z) : SimState R :=
  mkSim ∅ ∅ 1 0 0 None None (seed_from_u64 seed).

Definition arm_crash_after (n : Z) st : SimState R :=
  mkSim (files st) (inodes st) (next_inode st) (op_count st) (next_append_seq st)
    (Some n) (last_report st) (rng st).

(** * Crash *)

(** Whether some path durably resolves to [inode_id]. *)
Definition is_durably_referenced st (inode_id : Z) : bool :=
  existsb (λ pe, bool_decide (durable_inode pe.2 = Some inode_id)) (bt_iter (files st)).

(** The inodes a crash may tear, with the order of their newest unsynced append. *)
Definition tear_candidates st : list (Z * Z) :=
  omap (λ ie : Z * InodeState,
    seq ← last_append_seq ie.2;
    if decide (blen (live ie.2) > blen (durable ie.2) ∧
               is_durably_referenced st ie.1 = true)
    then Some (seq, ie.1) else None) (bt_iter (inodes st)).

(** [Iterator::max_by_key(|(seq, _)| *seq)]: the last of the maximal elements. *)
Fixpoint max_by_seq (l : list (Z * Z)) : option (Z * Z) :=
  match l with
  | [] => None
  | x :: l' =>
      match max_by_seq l' with
      | Some y => if decide (x.1 ≤ y.1) then Some y else Some x
      | None => Some x
      end
  end.

(** The tear target: the newest candidate under its first durable name. *)
Definition tear_target st : option (path * Z) :=
  '(_, inode_id) ← max_by_seq (tear_candidates st);
  '(_, (p, _)) ← list_find (λ pe : path * PathState,
      durable_inode pe.2 = Some inode_id) (bt_iter (files st));
  Some (p, inode_id).

(** [kept[byte] ^= 1 << (bit % 8)]. *)
Definition flip_bit (b : bytes) (byte bit : Z) : bytes :=
  match b !! Z.to_nat byte with
  | Some x => <[Z.to_nat byte := byte.of_Z (Z.lxor (byte.unsigned x) (Z.shiftl 1 (bit mod 8)))]> b
  | None => b
  end.

(** Mangle one inode's unsynced tail: the draw of the mode, then of the place. *)
Definition tear (inode : InodeState) (r : R) : TearMode * Z * Z * bytes * R :=
  let dur := durable inode in
  let tail_len := blen (live inode) - blen dur in
  let tail := drop (List.length dur) (live inode) in
  let '(m, r) := gen_u8_below 3 r in
  if decide (m = 0) then (Drop, tail_len, 0, dur, r)
  else if decide (m = 1) then
    let '(k, r) := gen_usize_upto tail_len r in
    (Truncate, tail_len, k, dur ++ take (Z.to_nat k) tail, r)
  else
    let '(bit, r) := gen_u64_below (tail_len * 8) r in
    (BitFlip, tail_len, tail_len, flip_bit (dur ++ tail) (blen dur + bit / 8) bit, r).

(** [collect_unreferenced_inodes]: keep what some binding still names. *)
Definition referenced (f : gmap path PathState) (i : Z) : Prop :=
  map_Exists (λ _ e, live_inode e = Some i ∨ durable_inode e = Some i) f.
#[export] Instance referenced_dec f i : Decision (referenced f i).
Proof. unfold referenced. apply _. Defined.
Definition collect_unreferenced_inodes st : SimState R :=
  set_inodes (filter (λ ie, referenced (files st) ie.1) (inodes st)) st.

(** Every inode and path goes back to its durable image. *)
Definition revert st : SimState R :=
  let st := set_inodes ((λ i, mkInode (durable i) (durable i) None) <$> inodes st) st in
  let st := set_files
    (filter (λ pe : path * PathState, is_Some (durable_inode pe.2))
      ((λ e, mkPath (durable_inode e) (durable_inode e)) <$> files st)) st in
  collect_unreferenced_inodes st.

Definition crash_locked st : CrashReport * SimState R :=
  let '(report, st) :=
    match tear_target st with
    | Some (p, inode_id) =>
        match inodes st !! inode_id with
        | Some inode =>
            let '(mode, tail_len, tail_kept, kept, r) := tear inode (rng st) in
            (mkReport (op_count st) (Some p) mode tail_len tail_kept,
             set_rng r (set_inodes
               (<[inode_id := mkInode (live inode) kept (last_append_seq inode)]> (inodes st)) st))
        | None => (mkReport (op_count st) None Drop 0 0, st)
        end
    | None => (mkReport (op_count st) None Drop 0 0, st)
    end in
  let st := revert st in
  (report,
   mkSim (files st) (inodes st) (next_inode st) (op_count st) (next_append_seq st)
     None (Some report) (rng st)).

(** [bump]: count one mutating call and fire an armed crash. *)
Definition bump st : SimState R :=
  let st := mkSim (files st) (inodes st) (next_inode st) (op_count st + 1)
              (next_append_seq st) (crash_after st) (last_report st) (rng st) in
  match crash_after st with
  | Some n => if decide (n ≤ op_count st) then (crash_locked st).2 else st
  | None => st
  end.

(** * The [Storage] methods *)

(** The live inode a path resolves to. *)
Definition live_id st (p : path) : option Z := files st !! p ≫= live_inode.

(** [files.get(path).and_then(live_inode).ok_or(NotFound)], then
    [inodes.get(id).expect("live inode present")]. *)
Definition with_live {A} (p : path) (f : Z → InodeState → M (SimState R) StorageError A)
    : M (SimState R) StorageError A := λ st,
  match live_id st p with
  | None => (Err (NotFound p), st)
  | Some i =>
      match inodes st !! i with
      | None => (Panic, st)
      | Some ino => f i ino st
      end
  end.

Definition set_live_inode (l : option Z) (e : PathState) : PathState :=
  mkPath l (durable_inode e).

Definition create (p : path) : M (SimState R) StorageError () := λ st,
  match live_id st p with
  | Some _ => (Err (AlreadyExists p), st)
  | None =>
      let id := next_inode st in
      let entry := default path_default (files st !! p) in
      (Ok (), bump (mkSim (<[p := set_live_inode (Some id) entry]> (files st))
                      (<[id := inode_default]> (inodes st)) (id + 1) (op_count st)
                      (next_append_seq st) (crash_after st) (last_report st) (rng st)))
  end.

Definition open (p : path) : M (SimState R) StorageError () := λ st,
  match live_id st p with
  | Some _ => (Ok (), st)
  | None => (Err (NotFound p), st)
  end.

Definition append (p : path) (data : bytes) : M (SimState R) StorageError Z :=
  with_live p (λ id ino st,
    (Ok (blen (live ino)),
     bump (mkSim (files st)
             (<[id := mkInode (live ino ++ data) (durable ino)
                        (Some (next_append_seq st))]> (inodes st))
             (next_inode st) (op_count st) (next_append_seq st + 1)
             (crash_after st) (last_report st) (rng st)))).

Definition write_at (p : path) (offset : Z) (data : bytes) : M (SimState R) StorageError () :=
  with_live p (λ id ino st,
    let len := blen (live ino) in
    if decide (offset > len ∨ offset + blen data > len)
    then (Err (OutOfBounds p offset len), st)
    else (Ok (), bump (set_inodes
           (<[id := mkInode (splice (live ino) offset data) (durable ino)
                      (last_append_seq ino)]> (inodes st)) st))).

Definition read_at (p : path) (offset n : Z) : M (SimState R) StorageError bytes :=
  with_live p (λ _ ino st,
    let len := blen (live ino) in
    if decide (offset > len) then (Err (OutOfBounds p offset len), st)
    else (Ok (read_bytes (live ino) offset n), st)).

Definition sync_file (p : path) : M (SimState R) StorageError () :=
  with_live p (λ id ino st,
    (Ok (), bump (set_inodes (<[id := mkInode (live ino) (live ino) None]> (inodes st)) st))).

(** One entry of [sync_dir]'s loop: the live binding becomes durable. *)
Definition commit_entry (dir p : path) (e : PathState) : PathState :=
  if is_child_of p dir then mkPath (live_inode e) (live_inode e) else e.
Definition sync_dir (dir : path) : M (SimState R) StorageError () := λ st,
  let f := map_imap (λ p e, Some (commit_entry dir p e)) (files st) in
  let f := filter (λ pe : path * PathState,
             is_Some (live_inode pe.2) ∨ is_Some (durable_inode pe.2)) f in
  (Ok (), bump (collect_unreferenced_inodes (set_files f st))).

Definition rename (from to : path) : M (SimState R) StorageError () := λ st,
  match live_id st from with
  | None => (Err (NotFound from), st)
  | Some id =>
      let f :=
        if decide (from = to) then files st
        else
          let f := <[to := set_live_inode (Some id) (default path_default (files st !! to))]>
                     (files st) in
          alter (set_live_inode None) from f in
      (Ok (), bump (collect_unreferenced_inodes (set_files f st)))
  end.

Definition delete (p : path) : M (SimState R) StorageError () := λ st,
  match live_id st p with
  | None => (Err (NotFound p), st)
  | Some _ =>
      (Ok (), bump (collect_unreferenced_inodes
                (set_files (alter (set_live_inode None) p (files st)) st)))
  end.

Definition list_dir (dir : path) : M (SimState R) StorageError (list path) :=
  gets (λ st,
    (filter (λ pe : path * PathState,
       is_Some (live_inode pe.2) ∧ is_child_of pe.1 dir = true) (bt_iter (files st))).*1).

Definition len (p : path) : M (SimState R) StorageError Z :=
  with_live p (λ _ ino st, (Ok (blen (live ino)), st)).

#[global] Instance sim_storage : Storage (SimState R) := {|
  fs_create := create;
  fs_open := open;
  fs_append := append;
  fs_write_at := write_at;
  fs_read_at := read_at;
  fs_sync_file := sync_file;
  fs_sync_dir := sync_dir;
  fs_rename := rename;
  fs_delete := delete;
  fs_list := list_dir;
  fs_len := len;
|}.

(** [SimFs::crash]: a power loss now. *)
Definition crash st : CrashReport * SimState R := crash_locked st.

End simfs.
End SimFs.
