(* ===== verification/TestKit.v ===== *)
(** The crash-test kit ([src/testkit/mod.rs]): the backend that halts once its
    simulator has lost power, one crash run, and the sweep over every crash point. *)
From Stdlib Require Import Strings.String.
From S2P Require Export SimFs.

Module TestKit.
Import SimFs.

(** What a sweep runs: a closure handed any [Storage].  It returns nothing and
    reports failure by panicking only. *)
Definition Body : Type := ∀ S : Type, Storage S → M S Empty_set ().

(** [Result::expect]. *)
Definition expecting {S E E' A} (m : M S E A) : M S E' A := λ s,
  match m s with
  | (Ok a, s') => (Ok a, s')
  | (_, s') => (Panic, s')
  end.

Section testkit.
Context {R : Type} {RNG : Rng R}.

Record CrashInjector : Type := mkInjector { inner : SimState R; halted : bool }.

Definition new (sim : SimState R) : CrashInjector := mkInjector sim false.

Definition halt_message : string := "simulated power loss: process halted after crash".

(** [guard(path)?]. *)
Definition guard (p : path) : M CrashInjector StorageError () := λ i,
  if halted i then (Err (Io p halt_message), i) else (Ok (), i).

(** [observe()]. *)
Definition observe (i : CrashInjector) : CrashInjector :=
  match last_report (inner i) with Some _ => mkInjector (inner i) true | None => i end.

(** [let r = self.inner.op(..); self.observe(); r], behind the guard, and a call
    that is only passed on. *)
Definition observed_op {A} (op : M (SimState R) StorageError A) : M CrashInjector StorageError A := λ i,
  let '(r, s) := op (inner i) in (r, observe (mkInjector s (halted i))).
Definition forwarded {A} (p : path) (op : M (SimState R) StorageError A) : M CrashInjector StorageError A :=
  _ ← guard p; observed_op op.
Definition passed {A} (op : M (SimState R) StorageError A) : M CrashInjector StorageError A := λ i,
  let '(r, s) := op (inner i) in (r, mkInjector s (halted i)).

#[global] Instance injector_storage : Storage CrashInjector := {|
  fs_create p := forwarded p (create p);
  fs_open p := passed (open p);
  fs_append p data := forwarded p (append p data);
  fs_write_at p offset data := forwarded p (write_at p offset data);
  fs_read_at p offset n := passed (read_at p offset n);
  fs_sync_file p := forwarded p (sync_file p);
  fs_sync_dir dir := forwarded dir (sync_dir dir);
  fs_rename from to := forwarded from (rename from to);
  fs_delete p := forwarded p (delete p);
  fs_list dir := passed (list_dir dir);
  fs_len p := passed (len p);
|}.

(** [count_ops(seed, body)]: a panic of the body is a panic of the call. *)
Definition count_ops (seed : Z) (body : Body) : outcome Empty_set Z :=
  match body (SimState R) sim_storage (with_seed seed) with
  | (Ok _, sim) => Ok (op_count sim)
  | (Err e, _) => Err e
  | (Panic, _) => Panic
  end.

(** [run_crash] up to [verify]: the report, and the file system recovered.  The
    panic of a body without a crash is raised again. *)
Definition crash_image (seed crash_after : Z) (body : Body) : outcome Empty_set (CrashReport * SimState R) :=
  let '(r, i) := body CrashInjector injector_storage (new (arm_crash_after crash_after (with_seed seed))) in
  let sim := inner i in
  match r, last_report sim with
  | Panic, None => Panic
  | _, Some report => Ok (report, sim)
  | _, None => Ok (crash sim)
  end.

(** [run_crash(seed, crash_after, body, verify)]. *)
Definition run_crash (seed crash_after : Z) (body : Body) (verify : CrashReport → M (SimState R) Empty_set ())
    : outcome Empty_set CrashReport :=
  '(report, recovered) ← crash_image seed crash_after body;
  _ ← (verify report recovered).1;
  mret report.

(** The loop [for i in 1..=n] of [crash_sweep], and the whole. *)
Fixpoint sweep_loop (seed : Z) (body : Body) (verify : CrashReport → M (SimState R) Empty_set ()) (i : Z) (turns : nat)
    : outcome Empty_set () :=
  match turns with
  | O => mret ()
  | Datatypes.S turns' => _ ← run_crash seed i body verify; sweep_loop seed body verify (i + 1) turns'
  end.
Definition crash_sweep (seed : Z) (body : Body) (verify : CrashReport → M (SimState R) Empty_set ()) : outcome Empty_set Z :=
  n ← count_ops seed body;
  _ ← sweep_loop seed body verify 1 (Z.to_nat n);
  mret n.
End testkit.
Arguments CrashInjector : clear implicits.
End TestKit.
