(* ===== verification/RealFs.v ===== *)
(** The operating-system backend ([src/storage/real.rs]) over a model of the
    [std::fs] calls it makes: a tree of files and directories, transfers that may be
    short, interrupted or fail, as a list of events the system has in store. *)
From Stdlib Require Import Strings.String.
From S2P Require Export Storage.

Module RealFs.

(** * The operating system, as far as [std::fs] shows it *)

Inductive node : Type := File (contents : bytes) | Dir.

(** What a system call meets: nothing of note, a transfer of at most [k + 1] bytes,
    an interrupt, a failure.  When the list runs out, nothing of note. *)
Inductive event : Type := Go | Short (k : nat) | Interrupted | Fault (message : string).

Record OsState : Type := mkOs { nodes : gmap path node; events : list event }.

(** [io::Error]: the kinds [map_io] tells apart, and the others with their text. *)
Inductive IoError : Type := KindNotFound | KindAlreadyExists | KindInterrupted | KindOther (message : string).

Definition os_set (f : gmap path node) (s : OsState) : OsState := mkOs f (events s).

Definition next_event : M OsState IoError event := λ s,
  match events s with
  | [] => (Ok Go, s)
  | e :: es => (Ok e, mkOs (nodes s) es)
  end.

(** A call that is retried when interrupted, as std does outside [read] and
    [write], and that may fail. *)
Definition syscall {A} (k : M OsState IoError A) : M OsState IoError A :=
  e ← next_event;
  match e with Fault msg => err (KindOther msg) | _ => k end.

Definition is_a_directory : IoError := KindOther "Is a directory (os error 21)".
Definition not_a_directory : IoError := KindOther "Not a directory (os error 20)".

(** The file [p] names, or why opening it fails. *)
Definition os_file {A} (p : path) (k : bytes → M OsState IoError A) : M OsState IoError A := λ s,
  match nodes s !! p with
  | None => (Err KindNotFound, s)
  | Some Dir => (Err is_a_directory, s)
  | Some (File b) => k b s
  end.

(** The directory a new entry [p] goes to. *)
Definition os_parent {A} (p : path) (k : M OsState IoError A) : M OsState IoError A := λ s,
  match parent p ≫= λ d, nodes s !! d with
  | None => (Err KindNotFound, s)
  | Some (File _) => (Err not_a_directory, s)
  | Some Dir => k s
  end.

Definition put_file (p : path) (b : bytes) : M OsState IoError () := λ s,
  (Ok (), os_set (<[p := File b]> (nodes s)) s).

(** [OpenOptions::new().write(true).create_new(true).open(p)]. *)
Definition os_create_new (p : path) : M OsState IoError () :=
  syscall (λ s, match nodes s !! p with
                | Some _ => (Err KindAlreadyExists, s)
                | None => os_parent p (put_file p []) s
                end).
(** [OpenOptions::new().append(true).open(p)], the same with [write(true)]. *)
Definition os_open_write (p : path) : M OsState IoError () := syscall (os_file p (λ _, mret ())).
(** [File::open(p)]: a directory may be opened to be read. *)
Definition os_open_read (p : path) : M OsState IoError () :=
  syscall (λ s, match nodes s !! p with Some _ => (Ok (), s) | None => (Err KindNotFound, s) end).

(** One [write(2)] of [data] at [offset], which may extend the file: how much of it
    was written. *)
Definition os_write (p : path) (offset : Z) (data : bytes) : M OsState IoError Z :=
  e ← next_event;
  match e with
  | Fault msg => err (KindOther msg)
  | Interrupted => err KindInterrupted
  | _ =>
      let n := match e with Short k => Z.min (blen data) (Z.of_nat k + 1) | _ => blen data end in
      os_file p (λ b, _ ← put_file p (splice b offset (take (Z.to_nat n) data)); mret n)
  end.

(** [Write::write_all]: the loop of std around [write]. *)
Fixpoint write_all (fuel : nat) (p : path) (offset : Z) (data : bytes) : M OsState IoError () := λ s,
  match fuel with
  | O => (Panic, s)
  | Datatypes.S fuel' =>
      if decide (data = []) then (Ok (), s) else
      match os_write p offset data s with
      | (Ok n, s') => write_all fuel' p (offset + n) (drop (Z.to_nat n) data) s'
      | (Err KindInterrupted, s') => write_all fuel' p offset data s'
      | (Err e, s') => (Err e, s')
      | (Panic, s') => (Panic, s')
      end
  end.
(** Each turn takes an event or writes a byte. *)
Definition write_fuel (data : bytes) (s : OsState) : nat := Datatypes.S (length data + length (events s)).
Definition os_write_all (p : path) (offset : Z) (data : bytes) : M OsState IoError () := λ s,
  write_all (write_fuel data s) p offset data s.

(** One [read(2)] of at most [want] bytes at [offset]. *)
Definition os_read (p : path) (offset want : Z) : M OsState IoError bytes :=
  e ← next_event;
  match e with
  | Fault msg => err (KindOther msg)
  | Interrupted => err KindInterrupted
  | _ =>
      let n := match e with Short k => Z.min want (Z.of_nat k + 1) | _ => want end in
      os_file p (λ b, mret (read_bytes b offset n))
  end.

(** [metadata().len()] of an open file; [fs::metadata(p)], which also answers for a
    directory, with a size the platform chooses. *)
Definition os_file_len (p : path) : M OsState IoError Z := syscall (os_file p (λ b, mret (blen b))).

Definition os_rename (from to : path) : M OsState IoError () :=
  syscall (os_file from (λ b, os_parent to (λ s,
    match nodes s !! to with
    | Some Dir => (Err is_a_directory, s)
    | _ => (Ok (), os_set (if decide (from = to) then nodes s else base.delete from (<[to := File b]> (nodes s))) s)
    end))).
Definition os_remove_file (p : path) : M OsState IoError () :=
  syscall (os_file p (λ _ s, (Ok (), os_set (base.delete p (nodes s)) s))).
(** The entries of a directory, in no particular order. *)
Definition os_read_dir (d : path) : M OsState IoError (list path) :=
  syscall (λ s, match nodes s !! d with
                | None => (Err KindNotFound, s)
                | Some (File _) => (Err not_a_directory, s)
                | Some Dir => (Ok (filter (λ p, is_child_of p d = true) (map_to_list (nodes s)).*1), s)
                end).

Definition os_mkdir (p : path) : M OsState IoError () :=
  syscall (λ s, match nodes s !! p with
                | Some _ => (Err KindAlreadyExists, s)
                | None => os_parent p (λ s, (Ok (), os_set (<[p := Dir]> (nodes s)) s)) s
                end).
(** [Path::is_file], [Path::is_dir], [Path::exists]: false when the system cannot tell. *)
Definition os_stat {E} (test : node → bool) (p : path) : M OsState E bool :=
  r ← attempt (syscall (λ s, match nodes s !! p with Some n => (Ok n, s) | None => (Err KindNotFound, s) end));
  mret (match r with inl n => test n | inr _ => false end).
Definition path_is_file {E} : path → M OsState E bool := os_stat (λ n, match n with File _ => true | Dir => false end).
Definition path_is_dir {E} : path → M OsState E bool := os_stat (λ n, match n with Dir => true | File _ => false end).
Definition path_exists {E} : path → M OsState E bool := os_stat (λ _, true).
(** [if path.is_dir() { Ok(()) } else { Err(e) }]. *)
Definition unless_dir (p : path) (e : IoError) : M OsState IoError () :=
  is_dir ← path_is_dir p;
  if is_dir : bool then mret () else err e.
(** [fs::create_dir_all], by recursion on the components from the last one up. *)
Fixpoint mkdirs (rp : list bytes) : M OsState IoError () :=
  match rp with
  | [] => mret ()
  | _ :: up =>
      made ← attempt (os_mkdir (reverse rp));
      match made with
      | inl _ => mret ()
      | inr KindNotFound =>
          _ ← mkdirs up;
          made ← attempt (os_mkdir (reverse rp));
          match made with inl _ => mret () | inr e => unless_dir (reverse rp) e end
      | inr e => unless_dir (reverse rp) e
      end
  end.
Definition os_create_dir_all (d : path) : M OsState IoError () := mkdirs (reverse d).

(** * The backend *)

Definition interrupted_message : string := "Interrupted system call (os error 4)".

(** [map_io]. *)
Definition map_io (p : path) (e : IoError) : StorageError :=
  match e with
  | KindNotFound => NotFound p
  | KindAlreadyExists => AlreadyExists p
  | KindInterrupted => Io p interrupted_message
  | KindOther msg => Io p msg
  end.

(** [io::Error::to_string]. *)
Definition io_to_string (e : IoError) : string :=
  match e with
  | KindNotFound => "No such file or directory (os error 2)"
  | KindAlreadyExists => "File exists (os error 17)"
  | KindInterrupted => interrupted_message
  | KindOther msg => msg
  end.

Section realfs.
(** The size the platform reports for a directory. *)
Context (dir_len : path → Z).

Definition create (p : path) : M OsState StorageError () := map_err (map_io p) (os_create_new p).

Definition open (p : path) : M OsState StorageError () :=
  is_file ← path_is_file p;
  if is_file : bool then mret () else
  exists_ ← path_exists p;
  if exists_ : bool then err (NotADirectory p) else err (NotFound p).

Definition append (p : path) (data : bytes) : M OsState StorageError Z :=
  _ ← map_err (map_io p) (os_open_write p);
  offset ← map_err (map_io p) (os_file_len p);
  _ ← map_err (map_io p) (os_write_all p offset data);
  mret offset.

Definition write_at (p : path) (offset : Z) (data : bytes) : M OsState StorageError () :=
  _ ← map_err (map_io p) (os_open_write p);
  len ← map_err (map_io p) (os_file_len p);
  if decide (offset > len ∨ u64_add offset (blen data) > len) then err (OutOfBounds p offset len) else
  _ ← map_err (map_io p) (syscall (mret ()));
  map_err (map_io p) (os_write_all p offset data).

(** The loop of [read_at]; [filled] bytes are in the buffer. *)
Fixpoint read_loop (fuel : nat) (p : path) (offset n : Z) (filled : bytes) : M OsState StorageError bytes := λ s,
  match fuel with
  | O => (Panic, s)
  | Datatypes.S fuel' =>
      if decide (blen filled < n) then
        match os_read p (offset + blen filled) (n - blen filled) s with
        | (Ok [], s') => (Ok filled, s')
        | (Ok got, s') => read_loop fuel' p offset n (filled ++ got) s'
        | (Err KindInterrupted, s') => read_loop fuel' p offset n filled s'
        | (Err e, s') => (Err (map_io p e), s')
        | (Panic, s') => (Panic, s')
        end
      else (Ok filled, s)
  end.
(** Each turn takes an event or fills a byte. *)
Definition read_all (p : path) (offset n : Z) : M OsState StorageError bytes := λ s,
  read_loop (Datatypes.S (Z.to_nat n + length (events s))) p offset n [] s.
Definition read_at (p : path) (offset n : Z) : M OsState StorageError bytes :=
  _ ← map_err (map_io p) (os_open_read p);
  _ ← map_err (map_io p) (syscall (mret ()));
  read_all p offset n.

Definition sync_file (p : path) : M OsState StorageError () :=
  _ ← map_err (map_io p) (os_open_write p);
  map_err (map_io p) (syscall (mret ())).
Definition sync_dir (d : path) : M OsState StorageError () :=
  _ ← map_err (map_io d) (os_open_read d);
  map_err (map_io d) (syscall (mret ())).

Definition rename (from to : path) : M OsState StorageError () := map_err (map_io from) (os_rename from to).
Definition delete (p : path) : M OsState StorageError () := map_err (map_io p) (os_remove_file p).

(** The loop of [list] over what [read_dir] yields. *)
Fixpoint list_loop (d : path) (entries out : list path) : M OsState StorageError (list path) :=
  match entries with
  | [] => mret out
  | p :: rest =>
      _ ← map_err (map_io d) (syscall (mret ()));
      is_file ← path_is_file p;
      list_loop d rest (if is_file : bool then out ++ [p] else out)
  end.
Definition list_dir (d : path) : M OsState StorageError (list path) :=
  entries ← map_err (map_io d) (os_read_dir d);
  out ← list_loop d entries [];
  mret (merge_sort (λ p q : path, p ⪯ q) out).

Definition len (p : path) : M OsState StorageError Z :=
  map_err (map_io p) (syscall (λ s,
    match nodes s !! p with
    | Some (File b) => (Ok (blen b), s)
    | Some Dir => (Ok (dir_len p), s)
    | None => (Err KindNotFound, s)
    end)).

#[global] Instance real_storage : Storage OsState := {|
  fs_create := create;
  fs_open := open;
  fs_append := append;
  fs_write_at := write_at;
  fs_read_at := read_at;
  fs_sync_file := sync_file;
  fs_sync_dir := sync_dir;
  fs_rename := rename;
  fs_delete := delete;
  fs_list := list_dir;
  fs_len := len;
|}.
End realfs.
End RealFs.
