(* ===== verification/SimFsSpec.v ===== *)
(** What the simulator guarantees: it is a correct backend while no crash is
    armed (it simulates [memfs]), and a crash keeps exactly what was synced. *)
From Stdlib Require Import Strings.String.
From S2P Require Export SimFs.

Module SimSpec.
Import SimFs.

Section spec.
Context {R : Type} `{!Rng R}.
Implicit Types st : SimState R.
Implicit Types p q : path.

Definition durable_id st (p : path) : option Z := files st !! p ≫= durable_inode.

(** The bytes the process sees under a path. *)
Definition live_bytes st (p : path) : option bytes :=
  i ← live_id st p; ino ← inodes st !! i; Some (live ino).

(** Well-formed simulator states: bindings resolve, inode numbers are fresh,
    no two live names share an inode. *)
Record wf st : Prop := mkWf {
  wf_live p i : live_id st p = Some i → is_Some (inodes st !! i);
  wf_durable p i : durable_id st p = Some i → is_Some (inodes st !! i);
  wf_fresh i : is_Some (inodes st !! i) → i < next_inode st;
  wf_inj p q i : live_id st p = Some i → live_id st q = Some i → p = q;
}.

Definition view st (m : memfs) : Prop :=
  wf st ∧ crash_after st = None ∧ ∀ p, m !! p = live_bytes st p.

(** ** Elementary facts *)

Lemma bump_unarmed st :
  crash_after st = None →
  bump st = mkSim (files st) (inodes st) (next_inode st) (op_count st + 1)
              (next_append_seq st) None (last_report st) (rng st).
Proof. intros H. unfold bump. simpl. by rewrite H. Qed.

Lemma view_intro st m :
  wf st → crash_after st = None → (∀ p, m !! p = live_bytes st p) → view st m.
Proof. done. Qed.

Lemma wf_live_ino st p i :
  wf st → live_id st p = Some i → ∃ ino, inodes st !! i = Some ino.
Proof. intros H Hp. by destruct (wf_live _ H _ _ Hp) as [? ?]; eauto. Qed.

(** [wf] and the view do not read the counters or the generator. *)
Lemma wf_ext st st' :
  files st' = files st → inodes st' = inodes st → next_inode st' = next_inode st →
  wf st → wf st'.
Proof.
  intros Hf Hi Hn []. split; unfold live_id, durable_id in *; rewrite ?Hf, ?Hi, ?Hn; eauto.
Qed.

(** A reachable path gives [with_live] its inode; an absent one is [NotFound]. *)
Lemma with_live_run {A} p (f : Z → InodeState → M (SimState R) StorageError A) st :
  wf st →
  with_live p f st =
    match live_id st p with
    | None => (Err (NotFound p), st)
    | Some i => match inodes st !! i with Some ino => f i ino st | None => (Panic, st) end
    end.
Proof. intros _. unfold with_live. by destruct (live_id st p). Qed.

(** Dropping inodes no binding names changes neither view nor well-formedness. *)
Lemma collect_lookup st i :
  inodes (collect_unreferenced_inodes st) !! i =
    if decide (referenced (files st) i) then inodes st !! i else None.
Proof.
  simpl. rewrite map_lookup_filter. destruct (inodes st !! i); simpl; [|by case_decide].
  repeat case_decide; simplify_option_eq; done.
Qed.

Lemma referenced_live st p i : live_id st p = Some i → referenced (files st) i.
Proof.
  unfold live_id, referenced. intros H. rewrite bind_Some in H.
  destruct H as (e & He & Hi). apply map_Exists_lookup. eauto.
Qed.
Lemma referenced_durable st p i : durable_id st p = Some i → referenced (files st) i.
Proof.
  unfold durable_id, referenced. intros H. rewrite bind_Some in H.
  destruct H as (e & He & Hi). apply map_Exists_lookup. eauto.
Qed.

Lemma collect_wf st : wf st → wf (collect_unreferenced_inodes st).
Proof.
  intros Hwf. split.
  - intros p i Hp. rewrite collect_lookup, decide_True by by eapply referenced_live.
    by eapply (wf_live st).
  - intros p i Hp. rewrite collect_lookup, decide_True by by eapply referenced_durable.
    by eapply (wf_durable st).
  - intros i. rewrite collect_lookup. case_decide; [apply (wf_fresh st Hwf)|by intros []].
  - apply (wf_inj st Hwf).
Qed.

Lemma collect_live_bytes st p : live_bytes (collect_unreferenced_inodes st) p = live_bytes st p.
Proof.
  unfold live_bytes. change (live_id (collect_unreferenced_inodes st) p) with (live_id st p).
  destruct (live_id st p) as [i|] eqn:E; [|done]. cbn [mbind option_bind].
  rewrite collect_lookup. by rewrite decide_True by by eapply referenced_live.
Qed.

Lemma view_ext st st' m :
  files st' = files st → inodes st' = inodes st → next_inode st' = next_inode st →
  crash_after st' = crash_after st → view st m → view st' m.
Proof.
  intros Hf Hi Hn Hc (Hwf & Hca & Hm). split_and!.
  - by eapply wf_ext.
  - congruence.
  - intros p. rewrite Hm. unfold live_bytes, live_id. by rewrite Hf, Hi.
Qed.

Lemma view_bump st m : view st m → view (bump st) m.
Proof.
  intros Hv. rewrite bump_unarmed by apply Hv.
  eapply view_ext; try apply Hv; try done. symmetry. apply Hv.
Qed.

Lemma view_collect st m : view st m → view (collect_unreferenced_inodes st) m.
Proof.
  intros (Hwf & Hca & Hm). split_and!; [by apply collect_wf|done|].
  intros p. by rewrite collect_live_bytes.
Qed.

(** Rewriting one live inode changes the one file whose name it has. *)
Lemma view_write st m p i ino ino' :
  view st m → live_id st p = Some i → inodes st !! i = Some ino →
  view (set_inodes (<[i := ino']> (inodes st)) st) (<[p := live ino']> m).
Proof.
  intros (Hwf & Hca & Hm) Hp Hi. split_and!; [|done|].
  - split; simpl.
    + intros q j Hq. destruct (decide (i = j)) as [->|];
        [rewrite lookup_insert_eq; eauto|].
      rewrite lookup_insert_ne by done. by eapply (wf_live st).
    + intros q j Hq. destruct (decide (i = j)) as [->|];
        [rewrite lookup_insert_eq; eauto|].
      rewrite lookup_insert_ne by done. by eapply (wf_durable st).
    + intros j. destruct (decide (i = j)) as [->|].
      * intros _. apply (wf_fresh st Hwf). eauto.
      * rewrite lookup_insert_ne by done. apply (wf_fresh st Hwf).
    + apply (wf_inj st Hwf).
  - intros q. unfold live_bytes. simpl.
    change (live_id (set_inodes _ st) q) with (live_id st q).
    destruct (decide (p = q)) as [<-|Hne].
    + rewrite lookup_insert_eq, Hp. cbn. by rewrite lookup_insert_eq.
    + rewrite lookup_insert_ne, Hm by done. unfold live_bytes.
      destruct (live_id st q) as [j|] eqn:Hq; [|done]. cbn.
      rewrite lookup_insert_ne; [done|].
      intros ->. destruct Hne. by eapply (wf_inj st).
Qed.

Lemma with_live_sim {A} (p : path) (f : Z → InodeState → M (SimState R) StorageError A)
    (g : bytes → M memfs StorageError A) :
  (∀ st m i ino, view st m → live_id st p = Some i → inodes st !! i = Some ino →
     m !! p = Some (live ino) →
     (f i ino st).1 = (g (live ino) m).1 ∧ view (f i ino st).2 (g (live ino) m).2) →
  msim view (with_live p f) (mem_file p g).
Proof.
  intros H. apply msim_intro. intros st m Hv. unfold with_live, mem_file.
  destruct (live_id st p) as [i|] eqn:Hp.
  - destruct (wf_live_ino st p i (proj1 Hv) Hp) as [ino Hi]. rewrite Hi.
    assert (Hm : m !! p = Some (live ino)).
    { rewrite (proj2 (proj2 Hv)). unfold live_bytes. rewrite Hp. cbn. by rewrite Hi. }
    rewrite Hm. by apply H.
  - assert (Hm : m !! p = None).
    { rewrite (proj2 (proj2 Hv)). unfold live_bytes. by rewrite Hp. }
    by rewrite Hm.
Qed.

Lemma create_sim p : msim view (create p) (mem_create p).
Proof.
  apply msim_intro. intros st m Hv. unfold create, mem_create.
  pose proof Hv as (Hwf & Hca & Hm). pose proof (Hm p) as Hmp. unfold live_bytes in Hmp.
  destruct (live_id st p) as [i|] eqn:Hp; cbn in Hmp.
  { destruct (wf_live_ino st p i Hwf Hp) as [ino Hino]. rewrite Hino in Hmp. by rewrite Hmp. }
  rewrite Hmp. simpl. split; [done|]. apply view_bump. split_and!; [|done|].
  - assert (Hnew : ∀ j, is_Some (inodes st !! j) → j ≠ next_inode st).
    { intros j Hj%(wf_fresh st Hwf). lia. }
    assert (Hlive : ∀ q j, live_id (mkSim (<[p:=set_live_inode (Some (next_inode st))
        (default path_default (files st !! p))]> (files st)) (<[next_inode st:=inode_default]>
        (inodes st)) (next_inode st + 1) (op_count st) (next_append_seq st) (crash_after st)
        (last_report st) (rng st)) q = Some j →
        (q = p ∧ j = next_inode st) ∨ (q ≠ p ∧ live_id st q = Some j)).
    { intros q j. unfold live_id. simpl. destruct (decide (p = q)) as [->|].
      - rewrite lookup_insert_eq. intros [= <-]. auto.
      - rewrite lookup_insert_ne by done. auto. }
    split.
    + intros q j [[-> ->]|[_ Hq]]%Hlive; simpl; [rewrite lookup_insert_eq; eauto|].
      apply (wf_live st Hwf) in Hq. rewrite lookup_insert_ne; [done|]. by apply not_eq_sym, Hnew.
    + intros q j Hq. simpl.
      assert (durable_id st q = Some j) as Hd%(wf_durable st Hwf).
      { revert Hq. unfold durable_id. simpl. destruct (decide (p = q)) as [->|].
        - rewrite lookup_insert_eq. simpl. by destruct (files st !! q).
        - by rewrite lookup_insert_ne. }
      rewrite lookup_insert_ne; [done|]. by apply not_eq_sym, Hnew.
    + intros j. simpl. destruct (decide (next_inode st = j)) as [<-|]; [lia|].
      rewrite lookup_insert_ne by done. intros Hj%(wf_fresh st Hwf). lia.
    + intros q r j [[-> ->]|[? Hq]]%Hlive [[-> Hj]|[? Hr]]%Hlive; try done.
      * apply (wf_live st Hwf) in Hr. by apply Hnew in Hr.
      * apply (wf_live st Hwf) in Hq. by apply Hnew in Hq.
      * by eapply (wf_inj st).
  - intros q. unfold live_bytes, live_id. simpl. destruct (decide (p = q)) as [->|].
    + rewrite !lookup_insert_eq. cbn. by rewrite lookup_insert_eq.
    + rewrite !lookup_insert_ne, Hm by done. unfold live_bytes, live_id.
      destruct (files st !! q) as [e|] eqn:Hq; [|done]. cbn.
      destruct (live_inode e) as [j|] eqn:Hj; [|done]. cbn.
      rewrite lookup_insert_ne; [done|]. intros <-.
      assert (is_Some (inodes st !! next_inode st)) as Hs%(wf_fresh st Hwf); [|lia].
      eapply (wf_live st Hwf q). unfold live_id. by rewrite Hq.
Qed.

Lemma open_sim p : msim view (open p) (mem_open p).
Proof.
  apply msim_intro. intros st m Hv. unfold open, mem_open, mem_file. pose proof Hv as (Hwf & Hca & Hm).
  rewrite Hm. unfold live_bytes. destruct (live_id st p) as [i|] eqn:Hp; cbn; [|done].
  by destruct (wf_live_ino st p i Hwf Hp) as [ino ->].
Qed.

Lemma append_sim p b : msim view (append p b) (mem_append p b).
Proof.
  apply with_live_sim. intros st m i ino Hv Hp Hi Hm. simpl. split; [done|].
  apply view_bump. eapply view_ext;
    [..|exact (view_write st m p i ino
                 (mkInode (live ino ++ b) (durable ino) (Some (next_append_seq st))) Hv Hp Hi)];
    done.
Qed.

Lemma write_at_sim p o b : msim view (write_at p o b) (mem_write_at p o b).
Proof.
  apply with_live_sim. intros st m i ino Hv Hp Hi Hm. cbv zeta.
  case_decide; simpl; [done|]. split; [done|].
  apply view_bump.
  by apply (view_write st m p i ino
    (mkInode (splice (live ino) o b) (durable ino) (last_append_seq ino))).
Qed.

Lemma read_at_sim p o n : msim view (read_at p o n) (mem_read_at p o n).
Proof.
  apply with_live_sim. intros st m i ino Hv Hp Hi Hm. cbv zeta. by case_decide.
Qed.

Lemma len_sim p : msim view (len p) (mem_len p).
Proof. by apply with_live_sim. Qed.

Lemma sync_file_sim p : msim view (sync_file p) (mem_sync_file p).
Proof.
  apply with_live_sim. intros st m i ino Hv Hp Hi Hm. simpl. split; [done|].
  apply view_bump.
  pose proof (view_write st m p i ino (mkInode (live ino) (live ino) None) Hv Hp Hi) as H.
  simpl in H. by rewrite (insert_id m p (live ino)) in H.
Qed.

(** ** Namespace operations *)

Lemma view_files st m f m' :
  view st m →
  (∀ p i, f !! p ≫= live_inode = Some i → is_Some (inodes st !! i)) →
  (∀ p i, f !! p ≫= durable_inode = Some i → is_Some (inodes st !! i)) →
  (∀ p q i, f !! p ≫= live_inode = Some i → f !! q ≫= live_inode = Some i → p = q) →
  (∀ p, m' !! p = (i ← f !! p ≫= live_inode; ino ← inodes st !! i; Some (live ino))) →
  view (bump (collect_unreferenced_inodes (set_files f st))) m'.
Proof.
  intros (Hwf & Hca & Hm) Hl Hd Hinj Hm'. apply view_bump, view_collect.
  split_and!; [|done|exact Hm'].
  split; [exact Hl|exact Hd|apply (wf_fresh st Hwf)|exact Hinj].
Qed.

Lemma sync_dir_files dir st p :
  filter (λ pe : path * PathState, is_Some (live_inode pe.2) ∨ is_Some (durable_inode pe.2))
    (map_imap (λ p e, Some (commit_entry dir p e)) (files st)) !! p =
  (e ← files st !! p;
   let e' := commit_entry dir p e in
   if decide (is_Some (live_inode e') ∨ is_Some (durable_inode e')) then Some e' else None).
Proof.
  rewrite map_lookup_filter, map_lookup_imap. destruct (files st !! p) as [e|]; [|done].
  simpl. case_decide; by simplify_option_eq.
Qed.

Lemma sync_dir_live dir st p :
  filter (λ pe : path * PathState, is_Some (live_inode pe.2) ∨ is_Some (durable_inode pe.2))
    (map_imap (λ p e, Some (commit_entry dir p e)) (files st)) !! p ≫= live_inode = live_id st p.
Proof.
  rewrite sync_dir_files. unfold live_id. destruct (files st !! p) as [[l d]|]; [|done].
  simpl. unfold commit_entry. case_decide as Hd; simpl; [by case_match|].
  destruct l; [|done]. destruct Hd. left. case_match; simpl; eauto.
Qed.

Lemma sync_dir_durable dir st p :
  filter (λ pe : path * PathState, is_Some (live_inode pe.2) ∨ is_Some (durable_inode pe.2))
    (map_imap (λ p e, Some (commit_entry dir p e)) (files st)) !! p ≫= durable_inode =
  if is_child_of p dir then live_id st p else durable_id st p.
Proof.
  rewrite sync_dir_files. unfold live_id, durable_id.
  destruct (files st !! p) as [[l d]|]; simpl; [|by case_match].
  unfold commit_entry. destruct (is_child_of p dir); simpl; case_decide as Hd; simpl; try done.
  - destruct l; [|done]. destruct Hd. eauto.
  - destruct d; [|done]. destruct Hd. eauto.
Qed.

Lemma sync_dir_sim dir : msim view (sync_dir dir) (mem_sync_dir dir).
Proof.
  apply msim_intro. intros st m Hv. split; [done|]. pose proof Hv as (Hwf & Hca & Hm).
  apply (view_files st m); [done|..].
  - intros p i. rewrite sync_dir_live. apply (wf_live st Hwf).
  - intros p i. rewrite sync_dir_durable.
    case_match; [apply (wf_live st Hwf)|apply (wf_durable st Hwf)].
  - intros p q i. rewrite !sync_dir_live. apply (wf_inj st Hwf).
  - intros p. rewrite sync_dir_live. apply Hm.
Qed.

Lemma alter_none_live (f : gmap path PathState) p q :
  alter (set_live_inode None) p f !! q ≫= live_inode =
  if decide (p = q) then None else f !! q ≫= live_inode.
Proof.
  rewrite lookup_alter. case_decide as H; [subst q|done]. by destruct (f !! p).
Qed.

Lemma alter_none_durable (f : gmap path PathState) p q :
  alter (set_live_inode None) p f !! q ≫= durable_inode = f !! q ≫= durable_inode.
Proof.
  rewrite lookup_alter. case_decide as H; [subst q|done]. by destruct (f !! p).
Qed.

Lemma delete_sim p : msim view (SimFs.delete p) (mem_delete p).
Proof.
  apply msim_intro. intros st m Hv. unfold SimFs.delete, mem_delete, mem_file.
  pose proof Hv as (Hwf & Hca & Hm). pose proof (Hm p) as Hmp. unfold live_bytes in Hmp.
  destruct (live_id st p) as [i|] eqn:Hp; cbn in Hmp; [|by rewrite Hmp].
  destruct (wf_live_ino st p i Hwf Hp) as [ino Hino]. rewrite Hino in Hmp. rewrite Hmp.
  split; [done|]. simpl. apply (view_files st m); [done|..].
  - intros q j. rewrite alter_none_live. case_decide; [done|apply (wf_live st Hwf)].
  - intros q j. rewrite alter_none_durable. apply (wf_durable st Hwf).
  - intros q r j. rewrite !alter_none_live. repeat case_decide; try done. apply (wf_inj st Hwf).
  - intros q. rewrite alter_none_live, lookup_delete. case_decide; [done|]. apply Hm.
Qed.

Definition rename_files st (from to : path) (i : Z) : gmap path PathState :=
  alter (set_live_inode None) from
    (<[to := set_live_inode (Some i) (default path_default (files st !! to))]> (files st)).

Lemma rename_live st from to i p :
  from ≠ to →
  rename_files st from to i !! p ≫= live_inode =
  if decide (from = p) then None else if decide (to = p) then Some i else live_id st p.
Proof.
  intros Hne. unfold rename_files. rewrite alter_none_live. case_decide; [done|].
  rewrite lookup_insert. by case_decide.
Qed.

Lemma rename_durable st from to i p :
  rename_files st from to i !! p ≫= durable_inode = durable_id st p.
Proof.
  unfold rename_files. rewrite alter_none_durable, lookup_insert. unfold durable_id.
  case_decide as H; [rewrite <- H|done]. simpl. by destruct (files st !! to).
Qed.

Lemma rename_sim from to : msim view (rename from to) (mem_rename from to).
Proof.
  apply msim_intro. intros st m Hv. unfold rename, mem_rename, mem_file.
  pose proof Hv as (Hwf & Hca & Hm). pose proof (Hm from) as Hmp. unfold live_bytes in Hmp.
  destruct (live_id st from) as [i|] eqn:Hp; cbn in Hmp; [|by rewrite Hmp].
  destruct (wf_live_ino st from i Hwf Hp) as [ino Hino]. rewrite Hino in Hmp. rewrite Hmp.
  split; [done|]. simpl. case_decide as Hft.
  { apply view_bump, view_collect. eapply view_ext; [..|exact Hv]; done. }
  fold (rename_files st from to i). apply (view_files st m); [done|..].
  - intros p j. rewrite rename_live by done. repeat case_decide; [done| |apply (wf_live st Hwf)].
    intros [= <-]. eauto.
  - intros p j. rewrite rename_durable. apply (wf_durable st Hwf).
  - intros p q j. rewrite !rename_live by done. repeat case_decide; try congruence.
    + intros [= <-] Hq. pose proof (wf_inj st Hwf from q i Hp Hq). congruence.
    + intros Hq [= <-]. pose proof (wf_inj st Hwf from p i Hp Hq). congruence.
    + apply (wf_inj st Hwf).
  - intros p. rewrite rename_live by done. rewrite lookup_delete.
    case_decide; [done|]. rewrite lookup_insert. case_decide; [|apply Hm].
    cbn. by rewrite Hino.
Qed.

Lemma view_dom st m p : view st m → is_Some (m !! p) ↔ is_Some (live_id st p).
Proof.
  intros (Hwf & Hca & Hm). rewrite Hm. unfold live_bytes.
  destruct (live_id st p) as [i|] eqn:Hp; cbn; [|by split; intros []].
  destruct (wf_live_ino st p i Hwf Hp) as [ino Hino]. rewrite Hino. by split; eauto.
Qed.

Lemma list_sim dir : msim view (list_dir dir) (mem_list dir).
Proof.
  apply msim_intro. intros st m Hv. split; [|done]. simpl. f_equal. apply strict_sorted_unique.
  - apply sorted_keys_filter, bt_iter_sorted.
  - apply strict_sorted_filter, bt_keys_sorted.
  - intros p. rewrite list_elem_of_filter, elem_of_bt_keys, (view_dom st m p Hv).
    unfold live_id. rewrite list_elem_of_fmap. split.
    + intros ([q e] & -> & Hin). apply list_elem_of_filter in Hin as [[Hl Hc] He].
      apply elem_of_bt_iter in He. simpl in *. by rewrite He.
    + intros [Hc [i Hi]]. destruct (files st !! p) as [e|] eqn:He; [|done].
      exists (p, e). split; [done|]. apply list_elem_of_filter.
      rewrite elem_of_bt_iter. simpl in *. eauto.
Qed.

(** The simulator is a correct backend as long as no crash fires. *)
#[global] Instance sim_spec : StorageSpec (SimState R) := {|
  st_view := view;
  sim_create := create_sim;
  sim_open := open_sim;
  sim_append := append_sim;
  sim_write_at := write_at_sim;
  sim_read_at := read_at_sim;
  sim_sync_file := sync_file_sim;
  sim_sync_dir := sync_dir_sim;
  sim_rename := rename_sim;
  sim_delete := delete_sim;
  sim_list := list_sim;
  sim_len := len_sim;
|}.

Lemma view_with_seed seed : view (with_seed seed) ∅.
Proof.
  split_and!; [|done|].
  - split; unfold live_id, durable_id; simpl; intros *; rewrite ?lookup_empty;
      [done|done|by intros []|done].
  - intros p. unfold live_bytes, live_id. simpl. by rewrite !lookup_empty.
Qed.

Lemma st_view_with_seed seed : st_view (with_seed seed) ∅.
Proof. change (view (with_seed seed) ∅). apply view_with_seed. Qed.

(** * What a crash does *)

(** The bytes under a durable name. *)
Definition durable_bytes st p : option bytes :=
  i ← durable_id st p; ino ← inodes st !! i; Some (durable ino).

(** What a tear may leave of [old ++ tail], given that [old] was synced. *)
Definition torn (old tail : bytes) (mode : TearMode) (b : bytes) : Prop :=
  match mode with
  | Drop => b = old
  | Truncate => ∃ k, b = old ++ take k tail
  | BitFlip => ∃ byte bit, blen old ≤ byte < blen old + blen tail ∧ 0 ≤ bit ∧
                 b = flip_bit (old ++ tail) byte bit
  end.

Lemma torn_prefix old tail mode b : torn old tail mode b → ∃ t, b = old ++ t.
Proof.
  destruct mode; simpl.
  - intros ->. exists []. by rewrite app_nil_r.
  - intros [k ->]. eauto.
  - intros (i & bit & Hi & _ & ->). unfold flip_bit. case_match; [|eauto].
    rewrite insert_app_r_alt by (unfold blen in *; lia). eauto.
Qed.

(** What a crash may leave of one inode. *)
Definition inode_image (ino : InodeState) (b : bytes) : Prop :=
  b = durable ino ∨
  (blen (durable ino) < blen (live ino) ∧
   ∃ mode, torn (durable ino) (drop (List.length (durable ino)) (live ino)) mode b).

Lemma tear_torn ino r mode tl tk kept r' :
  RngLaws R → blen (durable ino) < blen (live ino) →
  tear ino r = (mode, tl, tk, kept, r') →
  torn (durable ino) (drop (List.length (durable ino)) (live ino)) mode kept.
Proof.
  intros Hr Hlen. unfold tear. set (tail := drop _ _).
  assert (Htail : blen tail = blen (live ino) - blen (durable ino)).
  { unfold tail, blen in *. rewrite length_drop. lia. }
  destruct (gen_u8_below 3 r) as [m r1]. repeat case_decide.
  - by intros; simplify_eq.
  - destruct (gen_usize_upto _ r1) as [k r2]. intros; simplify_eq. simpl. eauto.
  - set (n := _ * 8). pose proof (gen_u64_range n r1) as Hbit.
    destruct (gen_u64_below n r1) as [bit r2]. simpl in Hbit.
    intros; simplify_eq. simpl. subst n. eexists _, bit. split; [|split; [|done]]; [|lia].
    assert (0 ≤ bit / 8 < blen tail); [|lia].
    split; [apply Z.div_pos; lia|apply Z.div_lt_upper_bound; lia].
Qed.

Lemma max_by_seq_in l x : max_by_seq l = Some x → x ∈ l.
Proof.
  revert x. induction l as [|y l IH]; simpl; [done|]. intros x.
  destruct (max_by_seq l) as [z|]; [case_decide|]; intros [= <-]; set_solver.
Qed.

Lemma tear_target_unsynced st p i :
  tear_target st = Some (p, i) →
  ∃ ino, inodes st !! i = Some ino ∧ blen (durable ino) < blen (live ino) ∧
         durable_id st p = Some i.
Proof.
  unfold tear_target. intros H.
  apply bind_Some in H as ([seq j] & Hmax & H). apply bind_Some in H as ([n [q e]] & Hf & H).
  simplify_eq.
  apply max_by_seq_in in Hmax. unfold tear_candidates in Hmax.
  apply list_elem_of_omap in Hmax as ([k ino] & Hin & Hk).
  apply elem_of_bt_iter in Hin. simplify_option_eq. exists ino. split_and!; [done|lia|].
  apply list_find_Some in Hf as (Hf & Hd & _). simpl in *.
  apply list_elem_of_lookup_2, elem_of_bt_iter in Hf. unfold durable_id. by rewrite Hf.
Qed.

Lemma revert_live st p : live_id (revert st) p = durable_id st p.
Proof.
  unfold revert, live_id, durable_id. simpl. rewrite map_lookup_filter, lookup_fmap.
  destruct (files st !! p) as [[l d]|]; [|done]. simpl.
  case_guard as Hg; simpl; [done|]. destruct d; [|done]. destruct Hg. simpl. eauto.
Qed.

Lemma revert_durable st p : durable_id (revert st) p = durable_id st p.
Proof.
  unfold revert, durable_id. simpl. rewrite map_lookup_filter, lookup_fmap.
  destruct (files st !! p) as [[l d]|]; [|done]. simpl.
  case_guard as Hg; simpl; [done|]. destruct d; [|done]. destruct Hg. simpl. eauto.
Qed.

Lemma revert_inode st p i :
  durable_id st p = Some i →
  inodes (revert st) !! i = (λ ino, mkInode (durable ino) (durable ino) None) <$> inodes st !! i.
Proof.
  intros Hp. unfold revert. rewrite collect_lookup. simpl. rewrite lookup_fmap.
  rewrite decide_True; [done|].
  eapply (referenced_durable (revert st) p). by rewrite revert_durable.
Qed.

(** The crash is a tear of at most one inode followed by the reversion. *)
Lemma crash_decompose st :
  RngLaws R →
  ∃ st1, files st1 = files st ∧ next_inode st1 = next_inode st ∧
    files (crash st).2 = files (revert st1) ∧ inodes (crash st).2 = inodes (revert st1) ∧
    next_inode (crash st).2 = next_inode st ∧
    (∀ i, inodes st !! i = None → inodes st1 !! i = None) ∧
    ∀ i ino, inodes st !! i = Some ino →
      ∃ ino1, inodes st1 !! i = Some ino1 ∧ inode_image ino (durable ino1) ∧
        ((∀ p, tear_target st ≠ Some (p, i)) → durable ino1 = durable ino).
Proof.
  intros Hr. unfold crash, crash_locked.
  destruct (tear_target st) as [[p0 i0]|] eqn:Ht;
    [|exists st; split_and!; try done; intros i ino ->; eexists; split_and!; by try left].
  destruct (tear_target_unsynced _ _ _ Ht) as (ino0 & Hi0 & Hlen & Hd0). rewrite Hi0.
  destruct (tear ino0 (rng st)) as [[[[mode tl] tk] kept] r'] eqn:Htear.
  set (st1 := set_rng r' _). exists st1. split_and!; try done.
  - intros i Hi. simpl. rewrite lookup_insert_ne; [done|]. congruence.
  - intros i ino Hi. simpl. destruct (decide (i0 = i)) as [->|Hne].
    + rewrite lookup_insert_eq. simplify_eq. eexists. split_and!; [done| |].
      * right. split; [done|]. exists mode. by eapply tear_torn.
      * intros H. by destruct (H p0).
    + rewrite lookup_insert_ne by done. eexists. split_and!; [done|by left|done].
Qed.

(** After a crash the namespace is the durable one, every surviving file holds
    its synced bytes, and only the tear target may hold more, out of its
    unsynced tail. *)
Lemma crash_image st p :
  RngLaws R → wf st →
  match durable_id st p with
  | None => live_bytes (crash st).2 p = None
  | Some i =>
      ∃ ino b, inodes st !! i = Some ino ∧ live_bytes (crash st).2 p = Some b ∧
        durable_bytes (crash st).2 p = Some b ∧ inode_image ino b ∧
        ((∀ q, tear_target st ≠ Some (q, i)) → b = durable ino)
  end.
Proof.
  intros Hr Hwf. destruct (crash_decompose st Hr) as (st1 & Hf1 & Hn1 & Hf & Hi & _ & _ & Himg).
  assert (Hl : live_id (crash st).2 p = durable_id st p).
  { transitivity (live_id (revert st1) p); [unfold live_id; by rewrite Hf|].
    rewrite revert_live. unfold durable_id. by rewrite Hf1. }
  assert (Hd : durable_id (crash st).2 p = durable_id st p).
  { transitivity (durable_id (revert st1) p); [unfold durable_id; by rewrite Hf|].
    rewrite revert_durable. unfold durable_id. by rewrite Hf1. }
  unfold live_bytes, durable_bytes. rewrite Hl, Hd.
  destruct (durable_id st p) as [i|] eqn:Hp; cbn [mbind option_bind]; [|done].
  destruct (wf_durable st Hwf p i Hp) as [ino Hino].
  destruct (Himg i ino Hino) as (ino1 & Hino1 & Himg1 & Hsame).
  exists ino, (durable ino1). rewrite Hi, (revert_inode st1 p i), Hino1; [done|].
  revert Hp. unfold durable_id. by rewrite Hf1.
Qed.

(** A file whose bytes were synced under a synced name survives unchanged. *)
Lemma crash_synced st p i ino :
  RngLaws R → wf st → durable_id st p = Some i → inodes st !! i = Some ino →
  live ino = durable ino → live_bytes (crash st).2 p = Some (durable ino).
Proof.
  intros Hr Hwf Hp Hi Hsync. pose proof (crash_image st p Hr Hwf) as H. rewrite Hp in H.
  destruct H as (ino' & b & Hi' & Hb & _ & Himg & _). simplify_eq. rewrite Hb.
  destruct Himg as [->|[Hlen _]]; [done|]. rewrite Hsync in Hlen. lia.
Qed.

(** The invariant across a crash: it needs durable names not to share inodes. *)
Definition durable_inj st : Prop :=
  ∀ p q i, durable_id st p = Some i → durable_id st q = Some i → p = q.

Lemma crash_wf st : RngLaws R → wf st → durable_inj st → wf (crash st).2 ∧ durable_inj (crash st).2.
Proof.
  intros Hr Hwf Hinj.
  destruct (crash_decompose st Hr) as (st1 & Hf1 & Hn1 & Hf & Hi & Hn & Hnone & Himg).
  assert (Hl : ∀ p, live_id (crash st).2 p = durable_id st p).
  { intros p. transitivity (live_id (revert st1) p); [unfold live_id; by rewrite Hf|].
    rewrite revert_live. unfold durable_id. by rewrite Hf1. }
  assert (Hd : ∀ p, durable_id (crash st).2 p = durable_id st p).
  { intros p. transitivity (durable_id (revert st1) p); [unfold durable_id; by rewrite Hf|].
    rewrite revert_durable. unfold durable_id. by rewrite Hf1. }
  assert (Hres : ∀ p i, durable_id st p = Some i → is_Some (inodes (crash st).2 !! i)).
  { intros p i Hp. destruct (wf_durable st Hwf p i Hp) as [ino Hino].
    destruct (Himg i ino Hino) as (ino1 & Hino1 & _).
    rewrite Hi, (revert_inode st1 p i), Hino1; [by eexists|].
    revert Hp. unfold durable_id. by rewrite Hf1. }
  split; [split|].
  - intros p i. rewrite Hl. apply Hres.
  - intros p i. rewrite Hd. apply Hres.
  - intros i. rewrite Hi, Hn. unfold revert. rewrite collect_lookup. simpl.
    rewrite lookup_fmap. case_decide; [|by intros []].
    destruct (inodes st !! i) as [ino|] eqn:Hino; [|rewrite (Hnone i Hino); by intros []].
    intros _. apply (wf_fresh st Hwf). eauto.
  - intros p q i. rewrite !Hl. apply Hinj.
  - intros p q i. rewrite !Hd. apply Hinj.
Qed.

(** * What the simulator promises *)

(** A call of the [Storage] trait, and its answer. *)
Inductive call : Type :=
  | Create (p : path) | Open (p : path) | Append (p : path) (data : bytes)
  | WriteAt (p : path) (o : Z) (data : bytes) | ReadAt (p : path) (o n : Z)
  | SyncFile (p : path) | SyncDir (p : path) | Rename (p q : path) | DeleteFile (p : path)
  | ListDir (p : path) | Len (p : path).
Inductive answer : Type := Unit | Num (z : Z) | Data (b : bytes) | Paths (l : list path).

Definition do_call {S} `{!Storage S} (c : call) : M S StorageError answer :=
  match c with
  | Create p => _ ← fs_create p; mret Unit
  | Open p => _ ← fs_open p; mret Unit
  | Append p b => z ← fs_append p b; mret (Num z)
  | WriteAt p o b => _ ← fs_write_at p o b; mret Unit
  | ReadAt p o n => b ← fs_read_at p o n; mret (Data b)
  | SyncFile p => _ ← fs_sync_file p; mret Unit
  | SyncDir p => _ ← fs_sync_dir p; mret Unit
  | Rename p q => _ ← fs_rename p q; mret Unit
  | DeleteFile p => _ ← fs_delete p; mret Unit
  | ListDir p => l ← fs_list p; mret (Paths l)
  | Len p => z ← fs_len p; mret (Num z)
  end.
(** A client that makes the calls in turn and keeps every answer and error. *)
Fixpoint do_calls {S} `{!Storage S} (cs : list call) : M S StorageError (list (answer + StorageError)) :=
  match cs with
  | [] => mret []
  | c :: cs' => a ← attempt (do_call c); l ← do_calls cs'; mret (a :: l)
  end.

Lemma do_calls_sim {S} `{!Storage S, !StorageSpec S} cs : msim st_view (do_calls (S:=S) cs) (do_calls cs).
Proof.
  induction cs as [|c cs IH]; simpl; [apply msim_ret|]. apply msim_bind; [|intros a; solve_msim].
  apply msim_attempt. unfold do_call. destruct c; solve_msim.
Qed.

Lemma do_calls_view seed cs : ∃ m, view (do_calls cs (with_seed seed)).2 m.
Proof.
  destruct (msim_at (do_calls_sim cs) (with_seed seed) ∅ (st_view_with_seed seed)) as [_ Hv].
  eexists. exact Hv.
Qed.

(** C20: for every seed and every sequence of calls, the simulator answers each
    call, errors included, as the abstract file system does. *)
Theorem simfs_refines seed (cs : list call) :
  (do_calls cs (with_seed seed)).1 = (do_calls (S:=memfs) cs ∅).1.
Proof. apply (msim_at (do_calls_sim cs) (with_seed seed) ∅ (st_view_with_seed seed)). Qed.

(** C21: a power loss after any calls leaves exactly the durably named files; each
    holds its last synced bytes, except that the one tear target may also hold
    a mangled part of its unsynced tail. *)
Theorem simfs_crash seed (cs : list call) (p : path) :
  RngLaws R →
  let st := (do_calls cs (with_seed seed)).2 in
  match durable_id st p with
  | None => live_bytes (crash st).2 p = None
  | Some i =>
      ∃ ino b, inodes st !! i = Some ino ∧ live_bytes (crash st).2 p = Some b ∧
        durable_bytes (crash st).2 p = Some b ∧ inode_image ino b ∧
        ((∀ q, tear_target st ≠ Some (q, i)) → b = durable ino)
  end.
Proof. intros Hr st. destruct (do_calls_view seed cs) as (m & Hwf & _). by apply crash_image. Qed.

Lemma bump_files st : crash_after st = None → files (bump st) = files st ∧ inodes (bump st) = inodes st.
Proof. intros Hc. by rewrite bump_unarmed. Qed.

(** C22: after [sync_file] of a file and [sync_dir] of its directory, a power loss
    keeps every byte of it. *)
Theorem simfs_synced_survives st (m : memfs) (d p : path) (b : bytes) :
  RngLaws R → view st m → m !! p = Some b → is_child_of p d = true →
  live_bytes (crash (sync_dir d (sync_file p st).2).2).2 p = Some b.
Proof.
  intros Hr Hv Hb Hd. pose proof Hv as (Hwf & Hca & Hm). rewrite Hm in Hb. unfold live_bytes in Hb.
  destruct (live_id st p) as [i|] eqn:Hp; [|done]. cbn [mbind option_bind] in Hb.
  destruct (inodes st !! i) as [ino|] eqn:Hi; [|done]. injection Hb as Hb.
  destruct (msim_at (sync_file_sim p) st m Hv) as [_ Hv1].
  destruct (msim_at (sync_dir_sim d) _ _ Hv1) as [_ Hv2].
  set (st1 := (sync_file p st).2) in *. set (st2 := (sync_dir d st1).2) in *.
  assert (E1 : files st1 = files st ∧ inodes st1 = <[i := mkInode (live ino) (live ino) None]> (inodes st)).
  { unfold st1, sync_file. rewrite with_live_run by done. rewrite Hp, Hi. cbn [snd].
    destruct (bump_files (set_inodes (<[i := mkInode (live ino) (live ino) None]> (inodes st)) st) Hca) as [-> ->].
    done. }
  destruct E1 as [Ef1 Ei1]. assert (Hp1 : live_id st1 p = Some i) by (unfold live_id; by rewrite Ef1).
  assert (Hd2 : durable_id st2 p = Some i).
  { unfold st2, sync_dir. cbn [snd]. unfold durable_id.
    rewrite (proj1 (bump_files (collect_unreferenced_inodes (set_files _ st1)) (proj1 (proj2 Hv1)))). cbn [files collect_unreferenced_inodes set_inodes set_files].
    by rewrite sync_dir_durable, Hd. }
  assert (Hi2 : inodes st2 !! i = Some (mkInode (live ino) (live ino) None)).
  { unfold st2, sync_dir. cbn [snd]. rewrite (proj2 (bump_files (collect_unreferenced_inodes (set_files _ st1)) (proj1 (proj2 Hv1)))), collect_lookup.
    rewrite decide_True.
    - cbn [inodes set_files]. by rewrite Ei1, lookup_insert_eq.
    - apply referenced_live with p. unfold live_id. cbn [files set_files]. by rewrite sync_dir_live. }
  rewrite (crash_synced st2 p i _ Hr (proj1 Hv2) Hd2 Hi2 eq_refl). by rewrite <- Hb.
Qed.

End spec.

#[local] Existing Instance Sample.rng.

Definition sample_calls : list call :=
  [Create [lit "f"]; Append [lit "f"] (lit "ab"); SyncFile [lit "f"]; SyncDir []; Append [lit "f"] (lit "c")].

Lemma simfs_crash_witness :
  let st := (do_calls sample_calls (with_seed (R:=Z) 7)).2 in
  match durable_id st [lit "f"] with
  | None => live_bytes (crash st).2 [lit "f"] = None
  | Some i =>
      ∃ ino b, inodes st !! i = Some ino ∧ live_bytes (crash st).2 [lit "f"] = Some b ∧
        durable_bytes (crash st).2 [lit "f"] = Some b ∧ inode_image ino b ∧
        ((∀ q, tear_target st ≠ Some (q, i)) → b = durable ino)
  end.
Proof. apply (simfs_crash (R:=Z) 7 sample_calls [lit "f"]). exact Sample.rng_laws. Defined.

Lemma simfs_synced_survives_witness :
  ∃ st : SimState Z, live_bytes (crash (sync_dir [] (sync_file [lit "f"] st).2).2).2 [lit "f"] = Some [].
Proof.
  destruct (msim_at (create_sim [lit "f"]) (with_seed (R:=Z) 7) ∅ (view_with_seed 7)) as [_ Hv].
  eexists. apply (simfs_synced_survives _ _ [] [lit "f"] [] Sample.rng_laws Hv); done.
Defined.
End SimSpec.
