(* ===== verification/RealFsSpec.v ===== *)
(** The operating-system backend meets the storage contract: inside one directory,
    and as long as no system call fails, every call answers as the abstract file
    system does, however its transfers are split and interrupted. *)
From Stdlib Require Import Strings.String.
From S2P Require Export RealFs SimFsSpec.

Module RealFsSpec.
Import RealFs SimSpec.

Definition calm (e : event) : Prop := match e with Fault _ => False | _ => True end.

Section spec.
Context (dir_len : path → Z).
#[local] Existing Instance real_storage.
Implicit Types (s : OsState) (d p q : path) (m : memfs) (b data : bytes).

(** The directory [d] of the system holds the files [m] and nothing else. *)
Record os_holds d s m : Prop := {
  oh_dir : nodes s !! d = Some Dir;
  oh_files p : is_child_of p d = true → nodes s !! p = File <$> m !! p;
  oh_in p : is_Some (m !! p) → is_child_of p d = true;
  oh_calm : Forall calm (events s);
}.

Lemma child_not_self p d : is_child_of p d = true → p ≠ d.
Proof. intros [n ->]%child_of_join E. apply (f_equal length) in E. unfold join in E. rewrite length_app in E. simpl in E. lia. Qed.
Lemma child_parent p d : is_child_of p d = true → parent p = Some d.
Proof. apply bool_decide_eq_true. Qed.

Lemma os_holds_events d s m es : Forall calm es → os_holds d s m → os_holds d (mkOs (nodes s) es) m.
Proof. intros He []. by split. Qed.
Lemma os_holds_insert d s m p b es :
  is_child_of p d = true → Forall calm es → os_holds d s m →
  os_holds d (mkOs (<[p := File b]> (nodes s)) es) (<[p := b]> m).
Proof.
  intros Hp He []. split; cbn; [|intros q Hq|intros q Hq|done].
  - rewrite lookup_insert_ne; [done|by apply child_not_self].
  - destruct (decide (p = q)) as [->|]; [by rewrite !lookup_insert_eq|]. rewrite !lookup_insert_ne by done. by apply oh_files0.
  - destruct (decide (p = q)) as [->|]; [done|]. rewrite lookup_insert_ne in Hq by done. by apply oh_in0.
Qed.
Lemma os_holds_delete d s m p es :
  is_child_of p d = true → Forall calm es → os_holds d s m →
  os_holds d (mkOs (base.delete p (nodes s)) es) (base.delete p m).
Proof.
  intros Hp He []. split; cbn; [|intros q Hq|intros q Hq|done].
  - rewrite lookup_delete_ne; [done|by apply child_not_self].
  - destruct (decide (p = q)) as [->|]; [by rewrite !lookup_delete_eq|]. rewrite !lookup_delete_ne by done. by apply oh_files0.
  - apply oh_in0. destruct (decide (p = q)) as [->|]; [by rewrite lookup_delete_eq in Hq; destruct Hq|].
    by rewrite lookup_delete_ne in Hq.
Qed.

(** ** System calls when nothing fails *)

Lemma syscall_calm {A} (k : M OsState IoError A) s :
  Forall calm (events s) → ∃ es, Forall calm es ∧ syscall k s = k (mkOs (nodes s) es).
Proof.
  intros Hc. unfold syscall, next_event. rewrite bind_run. destruct s as [f [|e es]]; cbn in *; [by exists []|].
  apply Forall_cons in Hc as [He Hes]. exists es. split; [done|]. by destruct e.
Qed.

Lemma splice_step b off n data :
  0 ≤ off ≤ blen b → 0 ≤ n ≤ blen data →
  splice (splice b off (take (Z.to_nat n) data)) (off + n) (drop (Z.to_nat n) data) = splice b off data.
Proof.
  unfold splice, blen. intros Ho Hn. set (o := Z.to_nat off). set (k := Z.to_nat n).
  replace (Z.to_nat (off + n)) with (o + k)%nat by lia.
  assert (Hl : length (take k data) = k) by (rewrite length_take; lia).
  assert (Hlo : length (take o b) = o) by (rewrite length_take; lia).
  assert (Et : take (o + k) (take o b ++ take k data ++ drop (o + length (take k data)) b) = take o b ++ take k data).
  { rewrite take_app, Hlo, firstn_all2 by (rewrite length_take; lia). f_equal.
    replace (o + k - o)%nat with k by lia. rewrite take_app, Hl, Nat.sub_diag, firstn_O, app_nil_r.
    rewrite take_take. by rewrite Nat.min_id. }
  rewrite Et, <- !(assoc_L (++)). f_equal. rewrite (assoc_L (++)), take_drop. f_equal.
  rewrite !drop_app, Hlo, Hl, !length_drop. rewrite !drop_drop.
  rewrite (drop_ge (take o b)) by (rewrite Hlo; lia). rewrite (drop_ge (take k data)) by (rewrite Hl; lia).
  cbn [app]. f_equal. lia.
Qed.

Lemma blen_splice b off data : 0 ≤ off ≤ blen b → off + blen data ≤ blen (splice b off data).
Proof.
  unfold splice, blen. intros Ho. rewrite !length_app, length_take, length_drop. lia.
Qed.

Lemma os_write_calm p data s b off :
  Forall calm (events s) → nodes s !! p = Some (File b) → data ≠ [] →
  ∃ es, Forall calm es ∧
    ((os_write p off data s = (Err KindInterrupted, mkOs (nodes s) es) ∧ (length es < length (events s))%nat) ∨
     ∃ n, 0 < n ≤ blen data ∧ (length es ≤ length (events s))%nat ∧
       os_write p off data s = (Ok n, mkOs (<[p := File (splice b off (take (Z.to_nat n) data))]> (nodes s)) es)).
Proof.
  intros Hc Hp Hd. assert (Hpos : 0 < blen data) by (destruct data; [done|rewrite blen_cons; pose proof (blen_nonneg data); lia]).
  assert (Hfile : ∀ n es, 0 < n ≤ blen data →
    os_file p (λ b, _ ← put_file p (splice b off (take (Z.to_nat n) data)); mret n) (mkOs (nodes s) es) =
    (Ok n, mkOs (<[p := File (splice b off (take (Z.to_nat n) data))]> (nodes s)) es)).
  { intros n es Hn. unfold os_file. cbn [nodes]. by rewrite Hp. }
  unfold os_write, next_event. rewrite bind_run. destruct s as [f [|e es]]; cbn in *.
  - exists []. split; [done|]. right. exists (blen data). rewrite Hfile by lia. split_and!; [lia|lia|done|done].
  - apply Forall_cons in Hc as [He Hes]. exists es. split; [done|]. destruct e as [|k| |msg]; try done.
    + right. exists (blen data). rewrite Hfile by lia. split_and!; [lia|lia|lia|done].
    + right. exists (Z.min (blen data) (Z.of_nat k + 1)). rewrite Hfile by lia. split_and!; [lia|lia|lia|done].
    + left. split; [done|lia].
Qed.

Lemma write_all_calm p fuel : ∀ data s b off,
  (length data + length (events s) < fuel)%nat → Forall calm (events s) → nodes s !! p = Some (File b) → 0 ≤ off ≤ blen b →
  ∃ es, Forall calm es ∧ write_all fuel p off data s =
    (Ok (), mkOs (if decide (data = []) then nodes s else <[p := File (splice b off data)]> (nodes s)) es).
Proof.
  induction fuel as [|fuel IH]; intros data s b off Hf Hc Hp Ho; [lia|]. cbn [write_all].
  destruct (decide (data = [])) as [Hd|Hd]; [exists (events s); split; [done|by destruct s]|].
  destruct (os_write_calm p data s b off Hc Hp Hd) as (es & Hes & [[-> Hlt]|(n & Hn & Hlt & ->)]).
  - destruct (IH data (mkOs (nodes s) es) b off) as (es' & Hes' & E); [cbn; lia|done|done|done|].
    exists es'. rewrite E, decide_False by done. done.
  - set (b1 := splice b off (take (Z.to_nat n) data)). pose proof (blen_splice b off (take (Z.to_nat n) data) Ho) as Hb1.
    assert (Htk : blen (take (Z.to_nat n) data) = n) by (unfold blen in *; rewrite length_take; lia).
    destruct (IH (drop (Z.to_nat n) data) (mkOs (<[p := File b1]> (nodes s)) es) b1 (off + n)) as (es' & Hes' & E);
      [cbn; rewrite length_drop; unfold blen in *; lia|done|cbn; by rewrite lookup_insert_eq|fold b1 in Hb1; lia|].
    exists es'. split; [done|]. rewrite E. cbn [nodes]. f_equal. f_equal. case_decide as Hdr.
    + unfold b1. rewrite firstn_all2; [done|]. apply (f_equal length) in Hdr. rewrite length_drop in Hdr. simpl in Hdr. lia.
    + rewrite insert_insert_eq. unfold b1. by rewrite splice_step by lia.
Qed.

Lemma os_write_all_calm p data s b off :
  Forall calm (events s) → nodes s !! p = Some (File b) → 0 ≤ off ≤ blen b →
  ∃ es, Forall calm es ∧ os_write_all p off data s = (Ok (), mkOs (<[p := File (splice b off data)]> (nodes s)) es).
Proof.
  intros Hc Hp Ho. destruct (write_all_calm p (write_fuel data s) data s b off) as (es & Hes & E); [unfold write_fuel; lia|done..|].
  exists es. split; [done|]. unfold os_write_all. rewrite E. case_decide as Hd; [|done]. subst data. f_equal. f_equal.
  rewrite insert_id; [done|]. rewrite Hp. f_equal. f_equal. unfold splice. simpl. rewrite Nat.add_0_r. symmetry. apply take_drop.
Qed.

(** ** Reading *)

Lemma os_read_calm p s b off want :
  Forall calm (events s) → nodes s !! p = Some (File b) → 0 < want →
  ∃ es, Forall calm es ∧
    ((os_read p off want s = (Err KindInterrupted, mkOs (nodes s) es) ∧ (length es < length (events s))%nat) ∨
     ∃ n, 0 < n ≤ want ∧ (length es ≤ length (events s))%nat ∧
       os_read p off want s = (Ok (read_bytes b off n), mkOs (nodes s) es)).
Proof.
  intros Hc Hp Hw.
  assert (Hfile : ∀ n es, os_file p (λ b, mret (read_bytes b off n)) (mkOs (nodes s) es) =
    (Ok (read_bytes b off n), mkOs (nodes s) es)).
  { intros n es. unfold os_file. cbn [nodes]. by rewrite Hp. }
  unfold os_read, next_event. rewrite bind_run. destruct s as [f [|e es]]; cbn in *.
  - exists []. split; [done|]. right. exists want. rewrite Hfile. split_and!; [lia|lia|done|done].
  - apply Forall_cons in Hc as [He Hes]. exists es. split; [done|]. destruct e as [|k| |msg]; try done.
    + right. exists want. rewrite Hfile. split_and!; [lia|lia|lia|done].
    + right. exists (Z.min want (Z.of_nat k + 1)). rewrite Hfile. split_and!; [lia|lia|lia|done].
    + left. split; [done|lia].
Qed.

(** A read continued where the last one stopped. *)
Lemma read_bytes_more b off i n :
  0 ≤ off → 0 ≤ i → 0 ≤ n → blen (read_bytes b off i) = i →
  read_bytes b off i ++ read_bytes b (off + i) n = read_bytes b off (i + n).
Proof.
  unfold read_bytes, blen. intros Ho Hi Hn Hl. set (l := drop (Z.to_nat off) b) in *.
  replace (drop (Z.to_nat (off + i)) b) with (drop (Z.to_nat i) l) by (unfold l; rewrite drop_drop; f_equal; lia).
  replace (Z.to_nat (i + n)) with (Z.to_nat i + Z.to_nat n)%nat by lia.
  rewrite <- (take_drop (Z.to_nat i) l) at 3. rewrite take_app. rewrite firstn_all2 with (l := take _ l) by lia. f_equal. f_equal. lia.
Qed.

(** A read that returned fewer bytes than asked for is one that asked for those. *)
Lemma read_bytes_short b o k : read_bytes b o (blen (read_bytes b o k)) = read_bytes b o k.
Proof.
  unfold read_bytes, blen. rewrite Nat2Z.id, length_take. destruct (Nat.min_spec (Z.to_nat k) (length (drop (Z.to_nat o) b))) as [[_ ->]|[? ->]].
  - done.
  - by rewrite !firstn_all2 by lia.
Qed.

Lemma read_loop_calm p b off n fuel : ∀ s i,
  (Z.to_nat (n - i) + length (events s) < fuel)%nat → Forall calm (events s) → nodes s !! p = Some (File b) →
  0 ≤ off → 0 ≤ i ≤ n → blen (read_bytes b off i) = i →
  ∃ es, Forall calm es ∧ read_loop fuel p off n (read_bytes b off i) s = (Ok (read_bytes b off n), mkOs (nodes s) es).
Proof.
  induction fuel as [|fuel IH]; intros s i Hf Hc Hp Ho Hi Hl; [lia|]. cbn [read_loop]. rewrite Hl.
  destruct (decide (i < n)) as [Hlt|Hge].
  2:{ exists (events s). replace n with i by lia. split; [done|]. by destruct s. }
  destruct (os_read_calm p s b (off + i) (n - i) Hc Hp) as (es & Hes & [[-> Hle]|(k & Hk & Hle & ->)]); [lia|..].
  - destruct (IH (mkOs (nodes s) es) i) as (es' & Hes' & E); [cbn; lia|done..|]. by exists es'.
  - pose proof (read_bytes_more b off i k Ho ltac:(lia) ltac:(lia) Hl) as Hmore.
    destruct (read_bytes b (off + i) k) as [|x got] eqn:Hgot.
    + exists es. split; [done|]. f_equal. f_equal.
      assert (Hend : drop (Z.to_nat i) (drop (Z.to_nat off) b) = []).
      { rewrite drop_drop. unfold read_bytes in Hgot. replace (Z.to_nat (off + i)) with (Z.to_nat off + Z.to_nat i)%nat in Hgot by lia.
        destruct (drop _ b); [done|]. by destruct (Z.to_nat k) eqn:?; [lia|]. }
      unfold read_bytes. apply (f_equal length) in Hend. rewrite length_drop in Hend. simpl in Hend. by rewrite !firstn_all2 by lia.
    + rewrite <- Hgot. pose proof (read_bytes_short b (off + i) k) as Hs. set (j := blen (read_bytes b (off + i) k)) in *.
      assert (Hj : 0 < j ≤ k).
      { unfold j. split; [rewrite Hgot, blen_cons; pose proof (blen_nonneg got); lia|].
        unfold read_bytes, blen. rewrite length_take. lia. }
      rewrite <- Hs. rewrite read_bytes_more by (done || lia).
      destruct (IH (mkOs (nodes s) es) (i + j)) as (es' & Hes' & E); [cbn; lia|done|done|done|lia| |by exists es'].
      rewrite <- read_bytes_more by (done || lia). rewrite blen_app, Hl, Hs. done.
Qed.
(** ** The calls of the backend *)

Abbreviation same_as d f g := (∀ s m, os_holds d s m → (f s).1 = (g m).1 ∧ os_holds d (f s).2 (g m).2).

Lemma file_node d s m p b : os_holds d s m → is_child_of p d = true → m !! p = Some b → nodes s !! p = Some (File b).
Proof. intros [] Hp Hb. rewrite oh_files0 by done. by rewrite Hb. Qed.
Lemma no_node d s m p : os_holds d s m → is_child_of p d = true → m !! p = None → nodes s !! p = None.
Proof. intros [] Hp Hb. rewrite oh_files0 by done. by rewrite Hb. Qed.

Ltac next_call := match goal with
  | |- context [syscall ?k ?s'] =>
      let es := fresh "es" in let Hes := fresh "Hes" in let E := fresh "E" in
      destruct (syscall_calm k s') as (es & Hes & E); [first [assumption|eapply oh_calm; eassumption]|rewrite E; clear E]
  end.

(** Opening a file for writing. *)
Lemma open_write_calm d s m p :
  os_holds d s m → is_child_of p d = true →
  ∃ es, Forall calm es ∧ map_err (map_io p) (os_open_write p) s =
    (match m !! p with Some _ => Ok () | None => Err (NotFound p) end, mkOs (nodes s) es).
Proof.
  intros Hs Hp. unfold map_err, os_open_write. next_call. exists es. split; [done|]. unfold os_file. cbn [nodes].
  destruct (m !! p) as [b|] eqn:Hb; [by rewrite (file_node d s m p b)|by rewrite (no_node d s m p)].
Qed.
Lemma file_len_calm d s m p b :
  os_holds d s m → is_child_of p d = true → m !! p = Some b →
  ∃ es, Forall calm es ∧ map_err (map_io p) (os_file_len p) s = (Ok (blen b), mkOs (nodes s) es).
Proof.
  intros Hs Hp Hb. unfold map_err, os_file_len. next_call. exists es. split; [done|]. unfold os_file. cbn [nodes].
  by rewrite (file_node d s m p b).
Qed.

Lemma open_read_calm s p :
  Forall calm (events s) →
  ∃ es, Forall calm es ∧ map_err (map_io p) (os_open_read p) s =
    (match nodes s !! p with Some _ => Ok () | None => Err (NotFound p) end, mkOs (nodes s) es).
Proof.
  intros Hs. unfold map_err, os_open_read. next_call. exists es. split; [done|]. cbn [nodes]. by destruct (nodes s !! p).
Qed.
Lemma sync_calm s p :
  Forall calm (events s) →
  ∃ es, Forall calm es ∧ map_err (map_io p) (syscall (mret ())) s = (Ok (), mkOs (nodes s) es).
Proof. intros Hs. unfold map_err. next_call. by exists es. Qed.

Lemma real_create d p : is_child_of p d = true → same_as d (create p) (mem_create p).
Proof.
  intros Hp s m Hs. unfold create, map_err, os_create_new. next_call. cbn [nodes]. unfold mem_create.
  destruct (m !! p) as [b|] eqn:Hb.
  - rewrite (file_node d s m p b) by done. split; [done|]. by apply os_holds_events.
  - rewrite (no_node d s m p) by done. unfold os_parent. rewrite (child_parent p d Hp). cbn [mbind option_bind nodes].
    rewrite (oh_dir _ _ _ Hs). cbn. split; [done|]. by apply os_holds_insert.
Qed.
Lemma stat_calm {E} test s p :
  Forall calm (events s) →
  ∃ es, Forall calm es ∧
    os_stat (E:=E) test p s = (Ok (match nodes s !! p with Some n => test n | None => false end), mkOs (nodes s) es).
Proof.
  intros Hs. unfold os_stat. rewrite bind_run. unfold attempt. next_call. exists es. split; [done|]. cbn [nodes].
  by destruct (nodes s !! p).
Qed.
Lemma real_open d p : is_child_of p d = true → same_as d (open p) (mem_open p).
Proof.
  intros Hp s m Hs. unfold open, path_is_file, path_exists, mem_open, mem_file.
  destruct (stat_calm (E:=StorageError) (λ n, match n with File _ => true | Dir => false end) s p) as (es & Hes & E); [by eapply oh_calm|].
  erewrite bind_ok by exact E. apply (os_holds_events _ _ _ _ Hes) in Hs. destruct (m !! p) as [b|] eqn:Hb.
  { pose proof (file_node d _ m p b Hs Hp Hb) as Hn. cbn [nodes] in Hn. by rewrite Hn. }
  pose proof (no_node d _ m p Hs Hp Hb) as Hn. cbn [nodes] in Hn. rewrite Hn.
  destruct (stat_calm (E:=StorageError) (λ _, true) (mkOs (nodes s) es) p Hes) as (es2 & Hes2 & E2). cbn [nodes] in E2. rewrite Hn in E2.
  erewrite bind_ok by exact E2. split; [done|]. by apply (os_holds_events _ (mkOs (nodes s) es)).
Qed.
Lemma real_append d p data : is_child_of p d = true → same_as d (append p data) (mem_append p data).
Proof.
  intros Hp s m Hs. unfold append, mem_append, mem_file.
  destruct (open_write_calm d s m p Hs Hp) as (es & Hes & E). apply (os_holds_events _ _ _ _ Hes) in Hs.
  destruct (m !! p) as [b|] eqn:Hb; [erewrite bind_ok by exact E|by erewrite bind_err by exact E].
  destruct (file_len_calm d _ m p b Hs Hp Hb) as (es1 & Hes1 & E1). cbn [nodes] in E1. erewrite bind_ok by exact E1.
  destruct (os_write_all_calm p data (mkOs (nodes s) es1) b (blen b)) as (es2 & Hes2 & E2);
    [done|by apply (file_node d _ m p b Hs)|pose proof (blen_nonneg b); lia|].
  erewrite bind_ok by (apply map_err_ok; exact E2). split; [done|].
  assert (Es : splice b (blen b) data = b ++ data).
  { unfold splice, blen. rewrite Nat2Z.id, firstn_all, drop_ge by lia. by rewrite app_nil_r. }
  rewrite Es. cbn. by apply (os_holds_insert d (mkOs (nodes s) es) m).
Qed.
Lemma real_write_at d p o data :
  is_child_of p d = true → 0 ≤ o → o + blen data < 2 ^ 64 → same_as d (write_at p o data) (mem_write_at p o data).
Proof.
  intros Hp Ho Hw s m Hs. unfold write_at, mem_write_at, mem_file. pose proof (blen_nonneg data).
  destruct (open_write_calm d s m p Hs Hp) as (es & Hes & E). apply (os_holds_events _ _ _ _ Hes) in Hs.
  destruct (m !! p) as [b|] eqn:Hb; [erewrite bind_ok by exact E|by erewrite bind_err by exact E].
  destruct (file_len_calm d _ m p b Hs Hp Hb) as (es1 & Hes1 & E1). cbn [nodes] in E1. erewrite bind_ok by exact E1.
  apply (os_holds_events _ _ _ _ Hes1) in Hs. cbn [nodes] in Hs.
  unfold u64_add. rewrite u64_wrap_id by lia. case_decide as Hd; [by split|].
  destruct (syscall_calm (mret ()) (mkOs (nodes s) es1)) as (es2 & Hes2 & E2); [done|]. cbn [nodes] in E2.
  erewrite bind_ok by (apply map_err_ok; exact E2).
  destruct (os_write_all_calm p data (mkOs (nodes s) es2) b o) as (es3 & Hes3 & E3);
    [done|by apply (file_node d _ m p b Hs)|lia|].
  unfold map_err. rewrite E3. split; [done|]. cbn. by apply (os_holds_insert d (mkOs (nodes s) es1) m).
Qed.
Lemma real_read_at d p o n s m :
  is_child_of p d = true → 0 ≤ o → 0 ≤ n → (∀ b, m !! p = Some b → o ≤ blen b) → os_holds d s m →
  (read_at p o n s).1 = (mem_read_at p o n m).1 ∧ os_holds d (read_at p o n s).2 (mem_read_at p o n m).2.
Proof.
  intros Hp Ho Hn Hin Hs. unfold read_at, mem_read_at, mem_file.
  destruct (open_read_calm s p (oh_calm _ _ _ Hs)) as (es & Hes & E). destruct (m !! p) as [b|] eqn:Hb.
  2:{ rewrite (no_node d s m p) in E by done. erewrite bind_err by exact E. split; [done|]. by apply os_holds_events. }
  rewrite (file_node d s m p b) in E by done. erewrite bind_ok by exact E.
  specialize (Hin b eq_refl). rewrite decide_False by lia.
  destruct (sync_calm (mkOs (nodes s) es) p) as (es2 & Hes2 & E2); [done|]. cbn [nodes] in E2.
  erewrite bind_ok by exact E2. unfold read_all. cbn [events].
  destruct (read_loop_calm p b o n (Datatypes.S (Z.to_nat n + length es2)) (mkOs (nodes s) es2) 0) as (es3 & Hes3 & E3);
    [cbn; lia|done|by apply (file_node d s m p b)|done|lia|done|].
  change (read_bytes b o 0) with (@nil u8) in E3. rewrite E3. split; [done|]. cbn. by apply os_holds_events.
Qed.
Lemma real_sync_file d p : is_child_of p d = true → same_as d (sync_file p) (mem_sync_file p).
Proof.
  intros Hp s m Hs. unfold sync_file, mem_sync_file, mem_file.
  destruct (open_write_calm d s m p Hs Hp) as (es & Hes & E). apply (os_holds_events _ _ _ _ Hes) in Hs.
  destruct (m !! p) as [b|] eqn:Hb; [erewrite bind_ok by exact E|by erewrite bind_err by exact E].
  destruct (sync_calm (mkOs (nodes s) es) p) as (es2 & Hes2 & E2); [done|]. cbn [nodes] in E2. rewrite E2.
  split; [done|]. by apply (os_holds_events _ (mkOs (nodes s) es)).
Qed.
Lemma real_sync_dir d : same_as d (sync_dir d) (mem_sync_dir d).
Proof.
  intros s m Hs. unfold sync_dir. destruct (open_read_calm s d (oh_calm _ _ _ Hs)) as (es & Hes & E).
  rewrite (oh_dir _ _ _ Hs) in E. erewrite bind_ok by exact E.
  destruct (sync_calm (mkOs (nodes s) es) d) as (es2 & Hes2 & E2); [done|]. cbn [nodes] in E2. rewrite E2.
  split; [done|]. by apply os_holds_events.
Qed.
Lemma real_rename d p q :
  is_child_of p d = true → is_child_of q d = true → same_as d (rename p q) (mem_rename p q).
Proof.
  intros Hp Hq s m Hs. unfold rename, map_err, os_rename. next_call. unfold os_file, mem_rename, mem_file. cbn [nodes].
  apply (os_holds_events _ _ _ _ Hes) in Hs. destruct (m !! p) as [b|] eqn:Hb.
  2:{ pose proof (no_node d _ m p Hs Hp Hb) as Hf. cbn [nodes] in Hf. by rewrite Hf. }
  pose proof (file_node d _ m p b Hs Hp Hb) as Hf. cbn [nodes] in Hf. rewrite Hf. unfold os_parent. rewrite (child_parent q d Hq).
  cbn [mbind option_bind nodes]. pose proof (oh_dir _ _ _ Hs) as Hd. cbn [nodes] in Hd. rewrite Hd.
  pose proof (oh_files _ _ _ Hs q Hq) as Hfq. cbn [nodes] in Hfq. rewrite Hfq.
  assert (Hend : os_holds d (os_set (if decide (p = q) then nodes s else base.delete p (<[q := File b]> (nodes s))) (mkOs (nodes s) es))
    (if decide (p = q) then m else base.delete p (<[q := b]> m))).
  { case_decide; [done|]. unfold os_set. cbn [nodes events].
    pose proof (os_holds_insert d (mkOs (nodes s) es) m q b es Hq Hes Hs) as Hins.
    pose proof (os_holds_delete d _ _ p es Hp Hes Hins) as HH. cbn [nodes] in HH. exact HH. }
  destruct (m !! q) as [bq|]; split; done.
Qed.
Lemma real_delete d p : is_child_of p d = true → same_as d (RealFs.delete p) (mem_delete p).
Proof.
  intros Hp s m Hs. unfold RealFs.delete, map_err, os_remove_file. next_call. unfold os_file, mem_delete, mem_file. cbn [nodes].
  destruct (m !! p) as [b|] eqn:Hb.
  - rewrite (file_node d s m p b) by done. split; [done|]. by apply os_holds_delete.
  - rewrite (no_node d s m p) by done. split; [done|]. by apply os_holds_events.
Qed.
Lemma real_len d p : is_child_of p d = true → same_as d (len dir_len p) (mem_len p).
Proof.
  intros Hp s m Hs. unfold len, map_err. next_call. unfold mem_len, mem_file. cbn [nodes].
  destruct (m !! p) as [b|] eqn:Hb.
  - rewrite (file_node d s m p b) by done. split; [done|]. by apply os_holds_events.
  - rewrite (no_node d s m p) by done. split; [done|]. by apply os_holds_events.
Qed.
Definition is_file (f : gmap path node) (p : path) : bool :=
  match f !! p with Some (File _) => true | _ => false end.
Lemma list_loop_calm d entries s out :
  Forall calm (events s) →
  ∃ es, Forall calm es ∧
    list_loop d entries out s = (Ok (out ++ filter (λ p, is_file (nodes s) p = true) entries), mkOs (nodes s) es).
Proof.
  revert s out. induction entries as [|p entries IH]; intros s out Hs; cbn [list_loop].
  { exists (events s). rewrite app_nil_r. by destruct s. }
  destruct (sync_calm s d Hs) as (es & Hes & E). erewrite bind_ok by exact E.
  destruct (stat_calm (E:=StorageError) (λ n, match n with File _ => true | Dir => false end) (mkOs (nodes s) es) p Hes) as (es2 & Hes2 & E2).
  cbn [nodes] in E2. erewrite bind_ok by exact E2. fold (is_file (nodes s) p).
  destruct (IH (mkOs (nodes s) es2) (if is_file (nodes s) p then out ++ [p] else out) Hes2) as (es3 & Hes3 & E3).
  exists es3. split; [done|]. rewrite E3. cbn [nodes]. rewrite filter_cons. destruct (is_file (nodes s) p); [|done].
  rewrite decide_True by done. by rewrite <- (assoc_L (++)).
Qed.
Lemma real_list d : same_as d (list_dir d) (mem_list d).
Proof.
  intros s m Hs. unfold list_dir.
  assert (∃ es, Forall calm es ∧ map_err (map_io d) (os_read_dir d) s =
    (Ok (filter (λ p, is_child_of p d = true) (map_to_list (nodes s)).*1), mkOs (nodes s) es)) as (es & Hes & E).
  { unfold map_err, os_read_dir. next_call. cbn [nodes]. rewrite (oh_dir _ _ _ Hs). by exists es. }
  erewrite bind_ok by exact E.
  destruct (list_loop_calm d (filter (λ p, is_child_of p d = true) (map_to_list (nodes s)).*1) (mkOs (nodes s) es) [] Hes) as (es2 & Hes2 & E2).
  erewrite bind_ok by exact E2. cbn [nodes app]. split; [|by apply os_holds_events].
  unfold mem_list, gets. cbn [fst mret M_ret]. f_equal. apply strict_sorted_unique.
  - apply merge_sort_strict, NoDup_filter, NoDup_filter, NoDup_fst_map_to_list.
  - apply strict_sorted_filter, bt_keys_sorted.
  - intros p. rewrite merge_sort_Permutation, !list_elem_of_filter, elem_of_bt_keys. unfold is_file.
    rewrite list_elem_of_fmap. split.
    + intros (Hf & Hp & _). split; [done|]. rewrite (oh_files _ _ _ Hs p Hp) in Hf. by destruct (m !! p).
    + intros [Hp [b Hb]]. pose proof (file_node d s m p b Hs Hp Hb) as Hn. rewrite Hn. split_and!; [done|done|].
      exists (p, File b). by rewrite elem_of_map_to_list.
Qed.

(** ** Creating the directory *)

(** Going up from the path, the first thing that exists is a directory. *)
Fixpoint makeable (f : gmap path node) (rp : list bytes) : Prop :=
  match f !! reverse rp with
  | Some Dir => True
  | Some (File _) => False
  | None => match rp with [] => False | _ :: up => makeable f up end
  end.
(** Some absent prefixes of the path have become directories. *)
Definition grown (f f' : gmap path node) (rp : list bytes) : Prop :=
  ∀ p, f' !! p = f !! p ∨ (f !! p = None ∧ f' !! p = Some Dir ∧ p `prefix_of` reverse rp).

Lemma parent_snoc (p : path) c : parent (p ++ [c]) = Some p.
Proof. apply (parent_join p c). Qed.
Lemma mkdir_calm s rp c :
  Forall calm (events s) →
  ∃ es, Forall calm es ∧ os_mkdir (reverse (c :: rp)) s =
    match nodes s !! reverse (c :: rp), nodes s !! reverse rp with
    | Some _, _ => (Err KindAlreadyExists, mkOs (nodes s) es)
    | None, None => (Err KindNotFound, mkOs (nodes s) es)
    | None, Some (File _) => (Err not_a_directory, mkOs (nodes s) es)
    | None, Some Dir => (Ok (), mkOs (<[reverse (c :: rp) := Dir]> (nodes s)) es)
    end.
Proof.
  intros Hs. unfold os_mkdir. next_call. exists es. split; [done|]. cbn [nodes]. case_match; [done|].
  unfold os_parent. rewrite reverse_cons, parent_snoc. cbn. by destruct (nodes s !! reverse rp) as [[]|].
Qed.
Lemma mkdirs_ok rp s :
  Forall calm (events s) → makeable (nodes s) rp →
  ∃ s', mkdirs rp s = (Ok (), s') ∧ Forall calm (events s') ∧ nodes s' !! reverse rp = Some Dir ∧
    grown (nodes s) (nodes s') rp.
Proof.
  revert s. induction rp as [|c rp IH]; intros s Hs Hm.
  { exists s. cbn in *. split_and!; [done..| |by left]. by destruct (_ !! _) as [[]|]. }
  destruct (mkdir_calm s rp c Hs) as (es & Hes & E1). cbn [mkdirs makeable] in *. rewrite bind_run. unfold attempt at 1. rewrite E1.
  assert (Hins : ∀ f, f !! reverse (c :: rp) = None → grown (nodes s) f rp → grown (nodes s) (<[reverse (c :: rp) := Dir]> f) (c :: rp)).
  { intros f Hn Hf p. destruct (decide (p = reverse (c :: rp))) as [->|Hne].
    - destruct (Hf (reverse (c :: rp))) as [<-|(H0 & H1 & _)]; [|congruence]. right. by rewrite lookup_insert_eq.
    - rewrite lookup_insert_ne by done. destruct (Hf p) as [->|(H0 & H1 & Hp)]; [by left|right]. split_and!; [done..|].
      rewrite reverse_cons. by apply prefix_app_r. }
  destruct (nodes s !! reverse (c :: rp)) as [[]|] eqn:Ed; [done|..].
  { destruct (stat_calm (E:=IoError) (λ n, match n with Dir => true | File _ => false end) (mkOs (nodes s) es) (reverse (c :: rp)) Hes)
      as (es2 & Hes2 & E2). cbn [nodes] in E2. rewrite Ed in E2. unfold unless_dir, path_is_dir. erewrite bind_ok by exact E2.
    eexists. split_and!; [done..|by left]. }
  destruct (nodes s !! reverse rp) as [[]|] eqn:Eup; [by destruct rp; cbn in Hm, Eup; rewrite ?Eup in Hm|..].
  { eexists. split_and!; [done|done|by cbn [nodes]; rewrite lookup_insert_eq|]. apply Hins; [done|by left]. }
  destruct (IH (mkOs (nodes s) es) Hes Hm) as (s1 & E2 & Hs1 & Hup & Hg). erewrite bind_ok by exact E2.
  assert (Hn : nodes s1 !! reverse (c :: rp) = None).
  { destruct (Hg (reverse (c :: rp))) as [->|(_ & _ & Hp)]; [done|]. apply prefix_length in Hp. rewrite !length_reverse in Hp. simpl in Hp. lia. }
  destruct (mkdir_calm s1 rp c Hs1) as (es2 & Hes2 & E3). rewrite Hn, Hup in E3. rewrite bind_run. unfold attempt. rewrite E3.
  eexists. split_and!; [done|done|by cbn [nodes]; rewrite lookup_insert_eq|]. by apply Hins.
Qed.

(** A directory that is there is left as it is; one that is made is empty. *)
Lemma create_dir_all_held d s m :
  os_holds d s m → ∃ s', os_create_dir_all d s = (Ok (), s') ∧ os_holds d s' m.
Proof.
  intros []. destruct (mkdirs_ok (reverse d) s) as (s' & E1 & Hc & Hd & Hg); [done| |].
  { destruct d as [|c d _] using rev_ind; [by cbn; cbn in oh_dir0; rewrite oh_dir0|].
    rewrite reverse_snoc. cbn [makeable]. rewrite reverse_cons, reverse_involutive. by rewrite oh_dir0. }
  rewrite reverse_involutive in Hd. exists s'. split; [done|]. split; [done| |done|done].
  intros p Hp. rewrite <- oh_files0 by done. destruct (Hg p) as [->|(_ & _ & Hpre)]; [done|].
  apply child_of_join in Hp as [n ->]. rewrite reverse_involutive in Hpre. apply prefix_length in Hpre. unfold join in Hpre.
  rewrite length_app in Hpre. simpl in Hpre. lia.
Qed.
Lemma create_dir_all_fresh d s :
  Forall calm (events s) → makeable (nodes s) (reverse d) → (∀ p, is_child_of p d = true → nodes s !! p = None) →
  ∃ s', os_create_dir_all d s = (Ok (), s') ∧ os_holds d s' ∅.
Proof.
  intros Hs Hm Hn. destruct (mkdirs_ok (reverse d) s Hs Hm) as (s' & E1 & Hc & Hd & Hg). rewrite reverse_involutive in Hd.
  exists s'. split; [done|]. split; [done| |by intros p [? ?]|done].
  intros p Hp. rewrite lookup_empty. destruct (Hg p) as [->|(_ & _ & Hpre)]; [by apply Hn|].
  apply child_of_join in Hp as [n ->]. rewrite reverse_involutive in Hpre. apply prefix_length in Hpre. unfold join in Hpre.
  rewrite length_app in Hpre. simpl in Hpre. lia.
Qed.

(** * The contract *)

(** A call on files of [d], or on [d] itself, that a read past the end of a file
    excepted: there the two backends differ. *)
Definition in_dir d m (c : call) : Prop :=
  match c with
  | Create p | Open p | Append p _ | SyncFile p | DeleteFile p | Len p => is_child_of p d = true
  | WriteAt p o data => is_child_of p d = true ∧ 0 ≤ o ∧ o + blen data < 2 ^ 64
  | ReadAt p o n => is_child_of p d = true ∧ 0 ≤ o ∧ 0 ≤ n ∧ ∀ b, m !! p = Some b → o ≤ blen b
  | SyncDir q | ListDir q => q = d
  | Rename p q => is_child_of p d = true ∧ is_child_of q d = true
  end.
Fixpoint all_in_dir d m (cs : list call) : Prop :=
  match cs with [] => True | c :: cs' => in_dir d m c ∧ all_in_dir d (do_call c m).2 cs' end.

Lemma same_as_bind {A B} d (f : M OsState StorageError A) (g : M memfs StorageError A) (k : A → B) s m :
  (f s).1 = (g m).1 ∧ os_holds d (f s).2 (g m).2 →
  ((a ← f; mret (k a)) s).1 = ((a ← g; mret (k a)) m).1 ∧ os_holds d ((a ← f; mret (k a)) s).2 ((a ← g; mret (k a)) m).2.
Proof.
  intros [E Hs]. rewrite !bind_run. destruct (f s) as [r1 s'], (g m) as [r2 m']. cbn in *. subst r2. by destruct r1.
Qed.

#[local] Instance realfs_storage : Storage OsState := real_storage dir_len.

Lemma real_call d s m (c : call) :
  os_holds d s m → in_dir d m c →
  (do_call c s).1 = (do_call (S:=memfs) c m).1 ∧ os_holds d (do_call c s).2 (do_call c m).2.
Proof.
  intros Hs Hc. destruct c as [p|p|p b|p o b|p o n|p|q|p q|p|q|p]; cbn [in_dir do_call] in *; apply (same_as_bind d).
  - by apply real_create.
  - by apply real_open.
  - by apply real_append.
  - destruct Hc as (? & ? & ?). by apply real_write_at.
  - destruct Hc as (? & ? & ? & ?). by apply real_read_at.
  - by apply real_sync_file.
  - subst q. by apply real_sync_dir.
  - destruct Hc. by apply real_rename.
  - by apply real_delete.
  - subst q. by apply real_list.
  - by apply real_len.
Qed.

End spec.

(** A file is written by two calls that the system cuts short and interrupts, and
    renamed. *)
Definition stuttering : OsState :=
  mkOs {[ [lit "db"] := Dir ]} [Go; Go; Go; Short 1; Interrupted; Go; Go; Go; Go; Interrupted; Short 0; Short 0].
Definition some_calls : list call :=
  let p := [lit "db"; lit "a"] in
  [Create p; Append p (lit "1234"); WriteAt p 1 (lit "9"); ReadAt p 0 8; SyncFile p; Rename p [lit "db"; lit "b"];
   Len p; ListDir [lit "db"]; SyncDir [lit "db"]; Create [lit "db"; lit "b"]].
End RealFsSpec.
