(* ===== verification/Confine.v ===== *)
(** Code that stays inside one directory: a triple for what code that returns leaves
    behind, the calls it may make, the abstract backend that watches them, and how a
    run on it carries over to the operating system, whose answers agree with the
    abstract backend's on such calls only. *)
From Stdlib Require Import Strings.String.
From S2P Require Export RealFsSpec.

Module Confine.
Import SimSpec RealFsSpec.

(** * When a value is returned *)

(** [yields I Q m]: if [m] returns a value, it leaves [I], and the value is in [Q].
    Nothing is said of a run that fails: its caller passes the failure on. *)
Definition yields {S E A} (I : S → Prop) (Q : A → Prop) (m : M S E A) : Prop :=
  ∀ s a s', I s → m s = (Ok a, s') → I s' ∧ Q a.

Section yields.
Context {S E : Type} (I : S → Prop).

Lemma yields_weaken {A} (Q R : A → Prop) (m : M S E A) : (∀ a, Q a → R a) → yields I Q m → yields I R m.
Proof. intros HQ Hm s a s' Hs E1. destruct (Hm s a s' Hs E1). auto. Qed.
Lemma yields_keeps {A} Q (m : M S E A) : keeps I Q m → yields I Q m.
Proof. intros Hm s a s' Hs E1. destruct (Hm s Hs) as [H1 H2]. rewrite E1 in H1, H2. split; [done|]. by apply H2. Qed.
Lemma yields_ret {A} (Q : A → Prop) a : Q a → yields (E:=E) I Q (mret a).
Proof. intros Ha s b s' Hs [= <- <-]. done. Qed.
Lemma yields_err {A} (Q : A → Prop) (e : E) : yields I Q (err e).
Proof. done. Qed.
Lemma yields_panic {A} (Q : A → Prop) : yields (E:=E) I Q panic.
Proof. done. Qed.
Lemma yields_of_outcome {A} (r : outcome E A) : yields I (λ a, r = Ok a) (of_outcome r).
Proof. intros s a s' Hs [= -> <-]. done. Qed.
Lemma yields_expect {A} (o : option A) : yields (E:=E) I (λ a, o = Some a) (expect o).
Proof. destruct o; [by apply yields_ret|apply yields_panic]. Qed.
Lemma yields_guard b (e : E) : yields I (λ _, b = false) (guard_err b e).
Proof. destruct b; [done|by apply yields_ret]. Qed.
Lemma yields_bind {A B} Q R (m : M S E A) (f : A → M S E B) :
  yields I Q m → (∀ a, Q a → yields I R (f a)) → yields I R (m ≫= f).
Proof. intros Hm Hf s b s' Hs (a & s1 & E1 & E2)%bind_ok_inv. destruct (Hm _ _ _ Hs E1). by eapply Hf. Qed.
Lemma yields_map_err {E' A} (f : E → E') Q (m : M S E A) : yields I Q m → yields I Q (map_err f m).
Proof. intros Hm s a s' Hs E1%map_err_ok_inv. by eapply Hm. Qed.
(** A failure turned into a value that never becomes one of the whole. *)
Lemma yields_attempt {E' A B} Q R (m : M S E A) (f : A + E → M S E' B) :
  yields I Q m → (∀ a, Q a → yields I R (f (inl a))) → (∀ e s b s', f (inr e) s ≠ (Ok b, s')) →
  yields I R (attempt m ≫= f).
Proof.
  intros Hm Hl Hr s b s' Hs. rewrite bind_run. unfold attempt. destruct (m s) as [[a|e|] s1] eqn:E1; [..|done].
  - destruct (Hm _ _ _ Hs E1). by apply Hl.
  - by intros ?%Hr.
Qed.
Lemma yields_for_each {A} (P : A → Prop) (l : list A) (f : A → M S E ()) :
  Forall P l → (∀ a, P a → yields I any (f a)) → yields I any (for_each l f).
Proof.
  intros Hl Hf. induction Hl as [|a l Ha Hl IH]; simpl; [by apply yields_ret|].
  apply (yields_bind any); [by apply Hf|done].
Qed.
Lemma yields_fold_m {A B} (P : A → Prop) (Q : B → Prop) (l : list A) acc (f : B → A → M S E B) :
  Forall P l → Q acc → (∀ b a, Q b → P a → yields I Q (f b a)) → yields I Q (fold_m l acc f).
Proof.
  intros Hl Ha Hf. revert acc Ha. induction Hl as [|a l Hp Hl IH]; intros acc Ha; simpl; [by apply yields_ret|].
  apply (yields_bind Q); [by apply Hf|]. intros b Hb. by apply IH.
Qed.
Lemma yields_repeat {A} (Q : A → Prop) n (m : M S E A) : yields I Q m → yields I (Forall Q) (repeat_m n m).
Proof.
  intros Hm. induction n as [|n IH]; simpl; [by apply yields_ret|].
  apply (yields_bind Q); [done|]. intros a Ha. apply (yields_bind (Forall Q)); [done|]. intros l Hl. apply yields_ret. by constructor.
Qed.
End yields.

(** A structure that satisfies [F], and a storage that satisfies [I]. *)
Abbreviation both F I := (λ x, F x.1 ∧ I x.2).

Section both.
Context {T S E : Type} (F : T → Prop) (I : S → Prop).

Lemma yields_on_snd {A} Q (m : M S E A) : yields I Q m → yields (both F I) Q (on_snd m).
Proof.
  intros Hm [t s] a [t' s'] [Ht Hs]. unfold on_snd. destruct (m s) as [r s1] eqn:E1. intros [= -> <- <-].
  by destruct (Hm _ _ _ Hs E1).
Qed.
Lemma yields_get_fst : yields (E:=E) (both F I) F get_fst.
Proof. intros [t s] a x [Ht Hs] [= <- <-]. done. Qed.
Lemma yields_mod_fst (f : T → T) : (∀ t, F t → F (f t)) → yields (E:=E) (both F I) any (mod_fst f).
Proof. intros Hf [t s] a x [Ht Hs] [= <- <-]. split; [|done]. split; [by apply Hf|done]. Qed.
Lemma yields_zoom {U A} (G : U → Prop) Q (get : T → U) set (m : M (U * S) E A) :
  (∀ t, F t → G (get t)) → (∀ t u, F t → G u → F (set u t)) → yields (both G I) Q m →
  yields (both F I) Q (zoom get set m).
Proof.
  intros Hg Hset Hm [t s] a x [Ht Hs]. unfold zoom. destruct (m (get t, s)) as [r [u s1]] eqn:E1. intros [= -> <-].
  assert (HI : G (get t) ∧ I s) by (split; [by apply Hg|done]). destruct (Hm (get t, s) a (u, s1) HI E1) as [[Hu ?] ?].
  split; [|done]. split; [by apply Hset|done].
Qed.
Lemma yields_with_local {A} Q t (m : M (T * S) E A) : F t → yields (both F I) Q m → yields I Q (with_local t m).
Proof.
  intros Ht Hm s a s' Hs. unfold with_local. destruct (m (t, s)) as [r [t1 s1]] eqn:E1. intros [= -> <-].
  by destruct (Hm (t, s) a (t1, s1) (conj Ht Hs) E1) as [[] ?].
Qed.
End both.

Create HintDb yields discriminated.
#[export] Hint Resolve yields_ret yields_err yields_panic yields_of_outcome yields_expect yields_guard
  yields_map_err yields_on_snd yields_get_fst : yields.
#[export] Hint Extern 5 (yields _ _ (mod_fst _)) => simple apply yields_mod_fst; intros : yields.

(** [solve_yields] walks straight-line code, each step under what the database says of it. *)
Ltac yields_step :=
  first
    [ solve [eauto 4 with yields]
    | eapply yields_bind; [solve [eauto 4 with yields]|]; cbn beta; intros
    | case_match ].
Ltac solve_yields := repeat yields_step.

(** * Calls of one directory *)

(** What a storage whose state is in [I] allows code that stays in the directory [d]. *)
Record allows {S} `{!Storage S} (d : path) (I : S → Prop) : Prop := {
  al_create p : is_child_of p d = true → yields I any (fs_create p);
  al_open p : is_child_of p d = true → keeps I any (fs_open p);
  al_append p b : is_child_of p d = true → yields I any (fs_append p b);
  al_read p o n : is_child_of p d = true → 0 ≤ o → 0 ≤ n → yields I any (fs_read_at p o n);
  al_sync_file p : is_child_of p d = true → yields I any (fs_sync_file p);
  al_sync_dir : yields I any (fs_sync_dir d);
  al_rename p q : is_child_of p d = true → is_child_of q d = true → yields I any (fs_rename p q);
  al_delete p : is_child_of p d = true → keeps I any (fs_delete p);
  al_list : yields I (Forall (λ p, is_child_of p d = true)) (fs_list d);
  al_len p : is_child_of p d = true → keeps I (λ n, 0 ≤ n) (fs_len p);
}.

(** * The watched backend *)

(** The abstract backend, and whether every call so far was one the operating system
    answers alike. *)
Record Watched : Type := mkWatched { seen_files : memfs; confined : bool }.

#[export] Instance in_dir_dec d m c : Decision (in_dir d m c).
Proof.
  destruct c as [p|p|p b|p o b|p o n|p|q|p q|p|q|p]; cbn [in_dir]; try apply _.
  assert (Hin : Decision (∀ b, m !! p = Some b → o ≤ blen b)); [|apply _].
  destruct (m !! p) as [b|]; [|by left].
  destruct (decide (o ≤ blen b)) as [Hle|Hgt]; [left; by intros b' [= <-]|right; intros Hall; by apply Hgt, Hall].
Defined.

Definition watched {A} (d : path) (c : call) (f : M memfs StorageError A) : M Watched StorageError A := λ w,
  let '(r, m) := f (seen_files w) in
  (r, mkWatched m (confined w && bool_decide (in_dir d (seen_files w) c))).

Definition watched_storage (d : path) : Storage Watched := {|
  fs_create p := watched d (Create p) (mem_create p);
  fs_open p := watched d (Open p) (mem_open p);
  fs_append p b := watched d (Append p b) (mem_append p b);
  fs_write_at p o b := watched d (WriteAt p o b) (mem_write_at p o b);
  fs_read_at p o n := watched d (ReadAt p o n) (mem_read_at p o n);
  fs_sync_file p := watched d (SyncFile p) (mem_sync_file p);
  fs_sync_dir p := watched d (SyncDir p) (mem_sync_dir p);
  fs_rename p q := watched d (Rename p q) (mem_rename p q);
  fs_delete p := watched d (DeleteFile p) (mem_delete p);
  fs_list p := watched d (ListDir p) (mem_list p);
  fs_len p := watched d (Len p) (mem_len p);
|}.
#[export] Instance watched_mem_deaths : Deaths Watched memfs := λ _ _, False.
#[export] Instance watched_mem_alive : Alive Watched memfs.
Proof. by intros w m []. Qed.
(** Once a call has left the directory nothing is promised of the system. *)
#[export] Instance os_watched_deaths : Deaths RealFs.OsState Watched := λ _ w, confined w = false.

Section watched.
Context (d : path) (dir_len : path → Z).
#[local] Instance W : Storage Watched := watched_storage d.
#[local] Instance OS : Storage RealFs.OsState := RealFs.real_storage dir_len.

Lemma watched_mem_sim {A} c (f : M memfs StorageError A) : msim (λ w m, seen_files w = m) (watched d c f) f.
Proof. apply msim_intro. intros w m <-. unfold watched. by destruct (f (seen_files w)). Qed.
Definition watched_spec : StorageSpec Watched.
Proof. exists (λ w m, seen_files w = m); intros; apply watched_mem_sim. Defined.

(** A call of the system against the same call watched. *)
Lemma os_watched_sim {A} c (f : M RealFs.OsState StorageError A) (g : M memfs StorageError A) :
  (∀ s m, os_holds d s m → in_dir d m c → (f s).1 = (g m).1 ∧ os_holds d (f s).2 (g m).2) →
  msim (λ s w, os_holds d s (seen_files w) ∧ confined w = true) f (watched d c g).
Proof.
  intros Hfg. split; unfold dead, os_watched_deaths, watched.
  - intros s w [Hs Hw]. specialize (Hfg s (seen_files w) Hs). destruct (g (seen_files w)) as [r m]. cbn. rewrite Hw.
    case_bool_decide as Hc; [left|by right]. by destruct (Hfg Hc).
  - done.
  - intros s w Hw. destruct (g (seen_files w)) as [r m]. cbn. by rewrite Hw.
Qed.
Definition os_watched : StorageSim RealFs.OsState Watched.
Proof.
  exists (λ s w, os_holds d s (seen_files w) ∧ confined w = true); intros; apply os_watched_sim; intros s m Hs; cbn [in_dir];
    intros Hc.
  - by apply (real_create d p).
  - by apply (real_open d p).
  - by apply (real_append d p).
  - destruct Hc as (? & ? & ?). by apply (real_write_at d p).
  - destruct Hc as (? & ? & ? & ?). by apply (real_read_at d p).
  - by apply (real_sync_file d p).
  - subst p. by apply (real_sync_dir d).
  - destruct Hc as [? ?]. by apply (real_rename d p q).
  - by apply (real_delete d p).
  - subst p. by apply (real_list d).
  - by apply (real_len dir_len d p).
Defined.

(** ** What the watched backend allows *)

Abbreviation inside := (λ w : Watched, confined w = true).

Lemma watched_keeps {A} c (Q : A → Prop) (f : M memfs StorageError A) :
  (∀ m, in_dir d m c) → (∀ m a m', f m = (Ok a, m') → Q a) → keeps inside Q (watched d c f).
Proof.
  intros Hc HQ w Hw. unfold watched. destruct (f (seen_files w)) as [r m] eqn:E1. cbn in *. rewrite Hw, bool_decide_true by apply Hc.
  split; [done|]. intros a ->. by eapply HQ.
Qed.
Lemma watched_yields {A} c (Q : A → Prop) (f : M memfs StorageError A) :
  (∀ m a m', f m = (Ok a, m') → in_dir d m c ∧ Q a) → yields inside Q (watched d c f).
Proof.
  intros Hf w a w' Hw. unfold watched. destruct (f (seen_files w)) as [r m] eqn:E1. cbn in *. intros [= -> <-].
  destruct (Hf _ _ _ E1) as [Hc HQ]. cbn. by rewrite Hw, bool_decide_true.
Qed.
Lemma watched_allows : allows d inside.
Proof.
  split; intros; cbn; try (apply watched_yields; intros m a m' E1; cbn [in_dir]; done).
  - by apply watched_keeps.
  - apply watched_yields. intros m a m' E1. cbn [in_dir]. split_and!; try done. intros b Hb.
    unfold mem_read_at, mem_file in E1. rewrite Hb in E1. case_decide; [done|lia].
  - by apply watched_keeps.
  - apply watched_yields. intros m a m' [= <- <-]. split; [done|]. by apply Forall_forall; intros p [? _]%list_elem_of_filter.
  - apply watched_keeps; [done|]. intros m a m'. unfold mem_len, mem_file. case_match; intros [= <- <-]. apply blen_nonneg.
Qed.
End watched.

(** * Carrying a run over *)

(** A run of the abstract side that returns, of code known to stay alive in between,
    is a run of the concrete side. *)
Lemma carried {X1 X2 X3 E A} `{!Deaths X1 X2, !Deaths X2 X3, !Alive X2 X3} (R1 : X1 → X2 → Prop) (R2 : X2 → X3 → Prop)
    (m1 : M X1 E A) m2 m3 (I : X2 → Prop) (Q : A → Prop) x1 x2 x3 a x3' :
  msim R1 m1 m2 → msim R2 m2 m3 → yields I Q m2 → (∀ y1 y2, I y2 → ¬ dead y1 y2) →
  R1 x1 x2 → R2 x2 x3 → I x2 → m3 x3 = (Ok a, x3') →
  ∃ x1' x2', m1 x1 = (Ok a, x1') ∧ R1 x1' x2' ∧ R2 x2' x3' ∧ I x2' ∧ Q a.
Proof.
  intros H1 H2 Hy Hd HR1 HR2 HI E3. destruct (msim_run R2 m2 m3 x2 x3 _ x3' H2 HR2 E3) as (x2' & E2 & HR2').
  destruct (Hy _ _ _ HI E2) as [HI' HQ]. destruct (ms_run R1 m1 m2 H1 x1 x2 HR1) as [[E1 HR1']|Hdead].
  - rewrite E2 in E1, HR1'. cbn in E1, HR1'. destruct (m1 x1) as [r x1'] eqn:E0. cbn in *. subst r. by exists x1', x2'.
  - rewrite E2 in Hdead. by destruct (Hd _ _ HI' Hdead).
Qed.
End Confine.
