(* ===== verification/Durable.v ===== *)
(** What a power loss leaves, between and inside the calls of the simulator: the
    states in which the disk is a given set of files, with a set of new files that
    no durable name reaches yet; how each call moves between them; and a backend
    that records the simulator after every mutating call, so that a statement
    about every record is one about a power loss at any moment. *)
From Stdlib Require Import Strings.String.
From S2P Require Export SimFsSpec.

Module Durable.
Import SimFs SimSpec.

(** * The recording backend *)

(** A backend, and the states it was in after each mutating call. *)
Record Traced (S : Type) : Type := mkTraced { now : S; past : list S }.
Arguments mkTraced {S}. Arguments now {S}. Arguments past {S}.

Section traced.
Context {S : Type} {ST : Storage S}.

Definition recorded {E A} (m : M S E A) : M (Traced S) E A := λ t,
  let '(r, s) := m (now t) in (r, mkTraced s (past t ++ [s])).
Definition observed {E A} (m : M S E A) : M (Traced S) E A := λ t,
  let '(r, s) := m (now t) in (r, mkTraced s (past t)).

Lemma recorded_now {E A} (m : M S E A) t : now (recorded m t).2 = (m (now t)).2.
Proof. unfold recorded. by destruct (m (now t)). Qed.
Lemma recorded_res {E A} (m : M S E A) t : (recorded m t).1 = (m (now t)).1.
Proof. unfold recorded. by destruct (m (now t)). Qed.

#[global] Instance traced_storage : Storage (Traced S) := {|
  fs_create p := recorded (fs_create p);
  fs_open p := observed (fs_open p);
  fs_append p b := recorded (fs_append p b);
  fs_write_at p o b := recorded (fs_write_at p o b);
  fs_read_at p o n := observed (fs_read_at p o n);
  fs_sync_file p := recorded (fs_sync_file p);
  fs_sync_dir p := recorded (fs_sync_dir p);
  fs_rename p q := recorded (fs_rename p q);
  fs_delete p := recorded (fs_delete p);
  fs_list p := observed (fs_list p);
  fs_len p := observed (fs_len p);
|}.

Context {STS : StorageSpec S}.

Lemma recorded_sim {E A} (m : M S E A) (m' : M memfs E A) :
  msim st_view m m' → msim (λ t, st_view (now t)) (recorded m) m'.
Proof. intros H. apply msim_intro. intros t s Hv. destruct (msim_at H (now t) s Hv) as [H1 H2]. unfold recorded. by destruct (m (now t)). Qed.
Lemma observed_sim {E A} (m : M S E A) (m' : M memfs E A) :
  msim st_view m m' → msim (λ t, st_view (now t)) (observed m) m'.
Proof. intros H. apply msim_intro. intros t s Hv. destruct (msim_at H (now t) s Hv) as [H1 H2]. unfold observed. by destruct (m (now t)). Qed.

#[global] Instance traced_spec : StorageSpec (Traced S).
Proof.
  exists (λ t m, st_view (now t) m); intros;
    first [apply recorded_sim | apply observed_sim]; auto with msim.
Defined.

(** ** What a run records *)

(** The run from [t] to [t'] only recorded states satisfying [Img]. *)
Definition steps (Img : S → Prop) (t t' : Traced S) : Prop :=
  ∃ xs, past t' = past t ++ xs ∧ Forall Img xs.

Lemma steps_refl Img t : steps Img t t.
Proof. exists []. by rewrite app_nil_r. Qed.
Lemma steps_trans Img t1 t2 t3 : steps Img t1 t2 → steps Img t2 t3 → steps Img t1 t3.
Proof.
  intros (xs & E1 & H1) (ys & E2 & H2). exists (xs ++ ys). rewrite E2, E1, app_assoc. split; [done|]. by apply Forall_app.
Qed.
Lemma steps_mono (Img Img' : S → Prop) t t' : (∀ x, Img x → Img' x) → steps Img t t' → steps Img' t t'.
Proof. intros Hi (xs & E & H). exists xs. split; [done|]. by eapply Forall_impl. Qed.

(** Every call keeps [I], and so does every state it records. *)
Definition tracks (I : S → Prop) (t0 t : Traced S) : Prop := I (now t) ∧ steps I t0 t.

Lemma tracks_refl I t : I (now t) → tracks I t t.
Proof. split; [done|apply steps_refl]. Qed.

Lemma keeps_recorded I t0 {E A} (m : M S E A) :
  (∀ s, I s → I (m s).2) → keeps (tracks I t0) any (recorded m).
Proof.
  intros Hm t [Hi Hs]. unfold recorded. specialize (Hm _ Hi). destruct (m (now t)) as [r s]. split; [|done].
  split; [done|]. eapply steps_trans; [exact Hs|]. exists [s]. split; [done|]. by constructor.
Qed.
Lemma keeps_observed I t0 {E A} (m : M S E A) :
  (∀ s, (m s).2 = s) → keeps (tracks I t0) any (observed m).
Proof.
  intros Hm t [Hi Hs]. unfold observed. specialize (Hm (now t)). destruct (m (now t)) as [r s]. split; [|done].
  simpl in *. by subst s.
Qed.

(** One recorded call. *)
Lemma recorded_step (Img : S → Prop) {E A} (m : M S E A) t r s :
  m (now t) = (r, s) → Img s → ∃ t', recorded m t = (r, t') ∧ now t' = s ∧ steps Img t t'.
Proof.
  intros Hm Hi. unfold recorded. rewrite Hm. eexists. split; [done|]. split; [done|].
  exists [s]. split; [done|]. by constructor.
Qed.
End traced.

(** * Durability in the simulator *)

Section durable.
Context {R : Type} {RNG : Rng R}.
Implicit Types (st : SimState R) (d p q : path) (m : memfs) (D : path → Prop).

(** The files the process sees. *)
Definition live_map st : memfs :=
  map_imap (λ _ e, i ← live_inode e; ino ← inodes st !! i; Some (live ino)) (files st).
Lemma live_map_lookup st p : live_map st !! p = live_bytes st p.
Proof.
  unfold live_map, live_bytes, live_id. rewrite map_lookup_imap. destruct (files st !! p) as [[l du]|]; [|done].
  simpl. by destruct l.
Qed.
Lemma live_map_view st : wf st → crash_after st = None → view st (live_map st).
Proof. intros Hw Hc. split_and!; [done|done|]. intros p. apply live_map_lookup. Qed.

(** The disk durably holds the files [m0].  The files of [D] are new: no durable
    name reaches them, and they may hold unsynced bytes; every other file holds
    what was synced.  Outside the directory [d] nothing is pending. *)
Record quiet d m0 D st : Prop := {
  q_wf : wf st;
  q_unarmed : crash_after st = None;
  q_inj : durable_inj st;
  q_dur p : durable_bytes st p = m0 !! p;
  q_whole p i ino : durable_id st p = Some i → inodes st !! i = Some ino → live ino = durable ino;
  q_synced p i ino : ¬ D p → live_id st p = Some i → inodes st !! i = Some ino → live ino = durable ino;
  q_fresh p q i : D p → live_id st p = Some i → durable_id st q ≠ Some i;
  q_out p : is_child_of p d = false → live_id st p = durable_id st p;
}.

Definition nowhere : path → Prop := λ _, False.
Definition only p : path → Prop := λ q, q = p.

(** Nothing is pending: the disk durably holds what the process sees. *)
Definition settled d m st : Prop :=
  view st m ∧ quiet d m nowhere st ∧ ∀ p, live_id st p = durable_id st p.

Lemma quiet_view d m0 D st : quiet d m0 D st → view st (live_map st).
Proof. intros []. by apply live_map_view. Qed.

(** ** Calls on one file *)

Lemma quiet_wf_step {A} d m0 D st (m : M (SimState R) StorageError A) (m' : M memfs StorageError A) :
  quiet d m0 D st → msim view m m' → wf (m st).2 ∧ crash_after (m st).2 = None.
Proof. intros Hq Hs. destruct (msim_at Hs _ _ (quiet_view _ _ _ _ Hq)) as [_ (? & ? & _)]. done. Qed.

(** What a call that fails leaves: the state it found. *)
Lemma create_state p st :
  crash_after st = None →
  let st' := (create p st).2 in
  st' = st ∨ (live_id st p = None ∧ (create p st).1 = Ok () ∧
    (∀ q, live_id st' q = if decide (p = q) then Some (next_inode st) else live_id st q) ∧
    (∀ q, durable_id st' q = durable_id st q) ∧ inodes st' = <[next_inode st := inode_default]> (inodes st)).
Proof.
  intros Hc. unfold create. destruct (live_id st p) as [i|] eqn:Hp; [by left|]. right. cbn [fst snd].
  rewrite bump_unarmed by done. split_and!; try done; intros q; unfold live_id, durable_id; simpl.
  - rewrite lookup_insert. by case_decide.
  - rewrite lookup_insert. case_decide as H; [rewrite <- H|done]. simpl. by destruct (files st !! p).
Qed.

Lemma quiet_create d m0 D p st :
  is_child_of p d = true → quiet d m0 D st → quiet d m0 D (create p st).2.
Proof.
  intros Hpd Hq. pose proof Hq as [].
  destruct (quiet_wf_step _ _ _ _ (create p) (mem_create p) Hq (create_sim p)) as [Hw Hc].
  destruct (create_state p st q_unarmed0) as [->|(Hn & _ & El & Ed & Ei)]; [done|].
  assert (Hnew : ∀ i ino, inodes st !! i = Some ino → i ≠ next_inode st).
  { intros i ino Hi ->. pose proof (wf_fresh st q_wf0 (next_inode st)) as Hf. rewrite Hi in Hf. specialize (Hf ltac:(eauto)). lia. }
  assert (Hdur : ∀ q i, durable_id st q = Some i → i ≠ next_inode st).
  { intros q i Hqi. destruct (wf_durable st q_wf0 q i Hqi) as [ino Hi]. by eapply Hnew. }
  split; try done.
  - intros q1 q2 i. rewrite !Ed. apply q_inj0.
  - intros q. rewrite <- q_dur0. unfold durable_bytes. rewrite Ed. destruct (durable_id st q) as [i|] eqn:Hi; [|done].
    cbn [mbind option_bind]. rewrite Ei, lookup_insert_ne; [done|]. by apply not_eq_sym, (Hdur q).
  - intros q i ino. rewrite Ed, Ei. intros Hi. rewrite lookup_insert_ne by (by apply not_eq_sym, (Hdur q)). by apply (q_whole0 q).
  - intros q i ino Hnd. rewrite El, Ei. case_decide as Hpq.
    + intros [= <-]. rewrite lookup_insert_eq. by intros [= <-].
    + intros Hi. destruct (wf_live st q_wf0 q i Hi) as [ino' Hino]. rewrite lookup_insert_ne by (by eapply not_eq_sym, Hnew).
      by apply (q_synced0 q).
  - intros q q' i HD. rewrite El, Ed. case_decide as Hpq.
    + intros [= <-] Hd. by apply (Hdur q' (next_inode st)).
    + by apply q_fresh0.
  - intros q Hqd. rewrite El, Ed. case_decide; [congruence|by apply q_out0].
Qed.

(** A call that rewrites one live inode. *)
Lemma with_live_state {A} p (f : Z → InodeState → M (SimState R) StorageError A) st :
  (with_live p f st).2 = st ∨
  ∃ i ino, live_id st p = Some i ∧ inodes st !! i = Some ino ∧ with_live p f st = f i ino st.
Proof.
  unfold with_live. destruct (live_id st p) as [i|] eqn:Hp; [|by left].
  destruct (inodes st !! i) as [ino|] eqn:Hi; [|by left]. right. eauto.
Qed.

(** Rewriting the inode of [p]: if its durable bytes stay, [p] must be new; if they
    become the live ones, they stay as they are under a durable name. *)
Lemma quiet_rewrite d m0 D D' p st st' i ino ino' :
  quiet d m0 D st → wf st' → crash_after st' = None →
  live_id st p = Some i → inodes st !! i = Some ino →
  files st' = files st → inodes st' = <[i := ino']> (inodes st) →
  (durable ino' = durable ino ∧ D p ∨ durable ino' = live ino ∧ live ino' = live ino) →
  (∀ q, D' q → D q) → (∀ q, D q → ¬ D' q → q = p ∧ live ino' = durable ino') →
  quiet d m0 D' st'.
Proof.
  intros [] Hw Hc Hp Hi Ef Ei Hino Hsub Hgone.
  assert (El : ∀ q, live_id st' q = live_id st q) by (intros q; unfold live_id; by rewrite Ef).
  assert (Ed : ∀ q, durable_id st' q = durable_id st q) by (intros q; unfold durable_id; by rewrite Ef).
  assert (Hbound : ∀ q, durable_id st q = Some i → durable ino' = durable ino ∧ live ino' = durable ino').
  { intros q Hqi. pose proof (q_whole0 q i ino Hqi Hi) as Hwh. destruct Hino as [[_ HD]|[-> ->]]; [|by rewrite Hwh].
    by destruct (q_fresh0 p q i HD Hp). }
  split; try done.
  - intros q1 q2 j. rewrite !Ed. apply q_inj0.
  - intros q. rewrite <- q_dur0. unfold durable_bytes. rewrite Ed. destruct (durable_id st q) as [j|] eqn:Hj; [|done].
    cbn [mbind option_bind]. rewrite Ei. destruct (decide (i = j)) as [<-|Hne]; [|by rewrite lookup_insert_ne].
    rewrite lookup_insert_eq, Hi. cbn. f_equal. by apply (Hbound q).
  - intros q j ino1. rewrite Ed, Ei. intros Hj. destruct (decide (i = j)) as [<-|Hne].
    + rewrite lookup_insert_eq. intros [= <-]. by apply (Hbound q).
    + rewrite lookup_insert_ne by done. by apply (q_whole0 q).
  - intros q j ino1 HD'. rewrite El, Ei. intros Hj. destruct (decide (i = j)) as [<-|Hne].
    + rewrite lookup_insert_eq. intros [= <-]. assert (q = p) as -> by by apply (wf_inj st q_wf0 q p i).
      destruct Hino as [[_ HD]|[-> ->]]; [by apply (Hgone p)|done].
    + rewrite lookup_insert_ne by done. intros Hj'. apply (q_synced0 q j ino1); [|done..].
      intros HD. destruct (Hgone q HD HD') as [-> _]. congruence.
  - intros q q' j HD'. rewrite El, Ed. apply q_fresh0. by apply Hsub.
  - intros q. rewrite El, Ed. apply q_out0.
Qed.

Lemma quiet_append d m0 D p b st : D p → quiet d m0 D st → quiet d m0 D (append p b st).2.
Proof.
  intros HD Hq. destruct (quiet_wf_step _ _ _ _ (append p b) (mem_append p b) Hq (append_sim p b)) as [Hw Hc].
  unfold append in *. destruct (with_live_state p (λ id ino st,
    (Ok (blen (live ino)), bump (mkSim (files st) (<[id := mkInode (live ino ++ b) (durable ino)
       (Some (next_append_seq st))]> (inodes st)) (next_inode st) (op_count st) (next_append_seq st + 1)
       (crash_after st) (last_report st) (rng st)))) st) as [->|(i & ino & Hp & Hi & E)]; [done|].
  rewrite E in *. cbn [snd] in *. rewrite bump_unarmed in * by apply (q_unarmed _ _ _ _ Hq).
  eapply (quiet_rewrite d m0 D D p st _ i ino); [done..|by left|done|done].
Qed.

Lemma sync_file_state p st :
  crash_after st = None →
  let st' := (sync_file p st).2 in
  (st' = st ∧ (sync_file p st).1 ≠ Ok ()) ∨
  ∃ i ino, live_id st p = Some i ∧ inodes st !! i = Some ino ∧ files st' = files st ∧
    inodes st' = <[i := mkInode (live ino) (live ino) None]> (inodes st).
Proof.
  intros Hc. unfold sync_file, with_live. destruct (live_id st p) as [i|] eqn:Hp; [|by left].
  destruct (inodes st !! i) as [ino|] eqn:Hi; [|by left]. right. exists i, ino. cbn [snd]. by rewrite bump_unarmed.
Qed.

Lemma quiet_sync_file d m0 D p st : quiet d m0 D st → quiet d m0 D (sync_file p st).2.
Proof.
  intros Hq. destruct (quiet_wf_step _ _ _ _ (sync_file p) (mem_sync_file p) Hq (sync_file_sim p)) as [Hw Hc].
  destruct (sync_file_state p st (q_unarmed _ _ _ _ Hq)) as [[-> _]|(i & ino & Hp & Hi & Ef & Ei)]; [done|].
  eapply (quiet_rewrite d m0 D D p st _ i ino); [done..|by right|done|done].
Qed.

(** A synced file leaves [D]. *)
Lemma quiet_synced d m0 p st :
  quiet d m0 (only p) st → (sync_file p st).1 = Ok () → quiet d m0 nowhere (sync_file p st).2.
Proof.
  intros Hq Hok. destruct (quiet_wf_step _ _ _ _ (sync_file p) (mem_sync_file p) Hq (sync_file_sim p)) as [Hw Hc].
  destruct (sync_file_state p st (q_unarmed _ _ _ _ Hq)) as [[_ Hn]|(i & ino & Hp & Hi & Ef & Ei)]; [done|].
  eapply (quiet_rewrite d m0 (only p) nowhere p st _ i ino); [done..|by right|done|].
  by intros q -> _.
Qed.

(** ** Calls on the namespace *)

Lemma collected_inode f st p i :
  f !! p ≫= live_inode = Some i ∨ f !! p ≫= durable_inode = Some i →
  inodes (collect_unreferenced_inodes (set_files f st)) !! i = inodes st !! i.
Proof.
  intros Hp. rewrite collect_lookup. rewrite decide_True; [done|]. cbn [files set_files].
  destruct Hp as [Hp|Hp]; [by eapply (referenced_live (set_files f st))|by eapply (referenced_durable (set_files f st))].
Qed.

(** A call that moves live names: no durable name changes, and every live name
    had one before, new or not as it is now. *)
Lemma quiet_files d m0 D st f :
  quiet d m0 D st →
  wf (bump (collect_unreferenced_inodes (set_files f st))) →
  (∀ p, f !! p ≫= durable_inode = durable_id st p) →
  (∀ p i, f !! p ≫= live_inode = Some i → ∃ p0, live_id st p0 = Some i ∧ (D p ↔ D p0)) →
  (∀ p, is_child_of p d = false → f !! p ≫= live_inode = live_id st p) →
  quiet d m0 D (bump (collect_unreferenced_inodes (set_files f st))).
Proof.
  intros [] Hw Hd Hl Ho. rewrite bump_unarmed in * by done. set (st' := mkSim _ _ _ _ _ _ _ _) in *.
  assert (El : ∀ p, live_id st' p = f !! p ≫= live_inode) by done.
  assert (Ed : ∀ p, durable_id st' p = durable_id st p) by apply Hd.
  assert (Hin : ∀ p i, durable_id st p = Some i → inodes st' !! i = inodes st !! i).
  { intros p i Hp. apply (collected_inode f st p). right. by rewrite Hd. }
  assert (Hil : ∀ p i, live_id st' p = Some i → inodes st' !! i = inodes st !! i).
  { intros p i Hp. apply (collected_inode f st p). by left. }
  split; try done.
  - intros q1 q2 i. rewrite !Ed. apply q_inj0.
  - intros q. rewrite <- q_dur0. unfold durable_bytes. rewrite Ed. destruct (durable_id st q) as [i|] eqn:Hi; [|done].
    cbn [mbind option_bind]. by rewrite (Hin q).
  - intros q i ino. rewrite Ed. intros Hi. rewrite (Hin q) by done. by apply (q_whole0 q).
  - intros q i ino HD Hq. rewrite (Hil q) by done. rewrite El in Hq. destruct (Hl q i Hq) as (p0 & H0 & Hiff).
    apply (q_synced0 p0); [|done]. by rewrite <- Hiff.
  - intros q q' i HD Hq. rewrite El in Hq. rewrite Ed. destruct (Hl q i Hq) as (p0 & H0 & Hiff).
    apply (q_fresh0 p0); [by apply Hiff|done].
  - intros q Hq. rewrite El, Ed, Ho by done. by apply q_out0.
Qed.

Lemma quiet_delete d m0 D p st :
  is_child_of p d = true → quiet d m0 D st → quiet d m0 D (SimFs.delete p st).2.
Proof.
  intros Hpd Hq. destruct (quiet_wf_step _ _ _ _ (SimFs.delete p) (mem_delete p) Hq (delete_sim p)) as [Hw _].
  unfold SimFs.delete in *. destruct (live_id st p) as [i|]; [|done]. cbn [snd] in *. apply quiet_files; [done..| | |].
  - intros q. by rewrite alter_none_durable.
  - intros q j. rewrite alter_none_live. case_decide; [done|]. intros Hj. by exists q.
  - intros q Hqd. rewrite alter_none_live. case_decide; [congruence|done].
Qed.

Lemma quiet_rename d m0 D p q st :
  is_child_of p d = true → is_child_of q d = true → ¬ D p → ¬ D q →
  quiet d m0 D st → quiet d m0 D (rename p q st).2.
Proof.
  intros Hpd Hqd Hp Hq Hqu. destruct (quiet_wf_step _ _ _ _ (rename p q) (mem_rename p q) Hqu (rename_sim p q)) as [Hw _].
  unfold rename in *. destruct (live_id st p) as [i|] eqn:Hi; [|done]. cbn [snd] in *. case_decide as Hpq.
  - apply quiet_files; [done..| | |]; [intros x; done| |intros x _; done]. intros x j Hj. by exists x.
  - fold (rename_files st p q i) in *. apply quiet_files; [done..| | |].
    + intros x. by rewrite rename_durable.
    + intros x j. rewrite rename_live by done. repeat case_decide; [done| |intros Hj; by exists x].
      intros [= <-]. exists p. subst. split; [done|]. by split; intros ?.
    + intros x Hx. rewrite rename_live by done. repeat case_decide; [congruence|congruence|done].
Qed.

(** The directory sync that makes every pending name durable. *)
Lemma sync_dir_settles d m0 m st :
  view st m → quiet d m0 nowhere st → settled d m (sync_dir d st).2.
Proof.
  intros Hv Hq. destruct (msim_at (sync_dir_sim d) st m Hv) as [_ Hv']. change (mem_sync_dir d m).2 with m in Hv'.
  split; [exact Hv'|]. pose proof Hq as []. pose proof Hv as (_ & _ & Hm). pose proof Hv' as (Hw' & Hc' & Hm').
  unfold sync_dir in *. cbn [snd] in *. set (f := filter _ _) in *. rewrite bump_unarmed in * by done.
  set (st' := mkSim _ _ _ _ _ _ _ _) in *.
  assert (El : ∀ p, live_id st' p = live_id st p) by (intros p; apply sync_dir_live).
  assert (Ed : ∀ p, durable_id st' p = live_id st p).
  { intros p. transitivity (if is_child_of p d then live_id st p else durable_id st p); [apply sync_dir_durable|].
    destruct (is_child_of p d) eqn:Hp; [done|]. by rewrite q_out0. }
  assert (Hil : ∀ p i, live_id st p = Some i → inodes st' !! i = inodes st !! i).
  { intros p i Hp. apply (collected_inode f st p). left. by rewrite <- Hp, <- (El p). }
  split; [|intros p; by rewrite El, Ed]. split; try done.
  - intros p q i. rewrite !Ed. apply (wf_inj st q_wf0).
  - intros p. rewrite Hm. unfold durable_bytes, live_bytes. rewrite Ed. destruct (live_id st p) as [i|] eqn:Hp; [|done].
    cbn [mbind option_bind]. rewrite (Hil p) by done. destruct (inodes st !! i) as [ino|] eqn:Hi; [|done].
    change (Some (durable ino) = Some (live ino)). f_equal. symmetry. by apply (q_synced0 p i ino (λ H, H)).
  - intros p i ino. rewrite Ed. intros Hp. rewrite (Hil p) by done. by apply (q_synced0 p i ino (λ H, H)).
  - intros p i ino _. rewrite El. intros Hp. rewrite (Hil p) by done. by apply (q_synced0 p i ino (λ H, H)).
  - intros p _. by rewrite El, Ed.
Qed.

Lemma settled_quiet d m D st : (∀ p, D p → m !! p = None) → settled d m st → quiet d m D st.
Proof.
  intros HD [(_ & _ & Hm) [[] _]]. split; try done; [intros p i ino _; by apply (q_synced0 p i ino (λ H, H))|].
  intros p q i Hp Hi. specialize (HD p Hp). rewrite Hm in HD. unfold live_bytes in HD. rewrite Hi in HD.
  destruct (wf_live st q_wf0 p i Hi) as [ino Hino]. cbn in HD. by rewrite Hino in HD.
Qed.

(** ** Power loss *)

Lemma whole_no_tear st : (∀ p i ino, durable_id st p = Some i → inodes st !! i = Some ino → live ino = durable ino) →
  tear_target st = None.
Proof.
  intros Hw. destruct (tear_target st) as [[p i]|] eqn:Ht; [|done].
  destruct (tear_target_unsynced _ _ _ Ht) as (ino & Hi & Hlt & Hd). rewrite (Hw p i ino Hd Hi) in Hlt. lia.
Qed.

(** A reverted disk has nothing pending. *)
Lemma crash_settled d st m :
  RngLaws R → wf st → durable_inj st → (∀ p, live_bytes (crash st).2 p = m !! p) → settled d m (crash st).2.
Proof.
  intros Hr Hw Hi Hm. destruct (crash_wf st Hr Hw Hi) as [Hw' Hi'].
  destruct (crash_decompose st Hr) as (st1 & Hf1 & _ & Hf & Hino & _).
  assert (Hl : ∀ p, live_id (crash st).2 p = durable_id (crash st).2 p).
  { intros p. unfold live_id, durable_id. rewrite Hf. fold (live_id (revert st1) p) (durable_id (revert st1) p).
    by rewrite revert_live, revert_durable. }
  assert (Hwhole : ∀ i ino, inodes (crash st).2 !! i = Some ino → live ino = durable ino).
  { intros i ino. rewrite Hino. unfold revert. rewrite collect_lookup. case_decide; [|done]. cbn [inodes set_inodes set_files].
    rewrite lookup_fmap. intros (x & _ & ->)%fmap_Some. done. }
  assert (Hc : crash_after (crash st).2 = None).
  { unfold crash, crash_locked. by destruct (match tear_target st with Some _ => _ | None => _ end). }
  split; [by split_and!; [| |intros p; rewrite Hm]|]. split; [|done]. split; try done.
  - intros p. rewrite <- Hm. unfold durable_bytes, live_bytes. rewrite Hl. destruct (durable_id _ p) as [i|]; [|done].
    cbn [mbind option_bind]. destruct (inodes (crash st).2 !! i) as [ino|] eqn:E; [|done].
    change (Some (durable ino) = Some (live ino)). f_equal. symmetry. by eapply Hwhole.
  - intros p i ino _. apply Hwhole.
  - intros p i ino _ _. apply Hwhole.
Qed.

Lemma quiet_crash d m0 D st : RngLaws R → quiet d m0 D st → settled d m0 (crash st).2.
Proof.
  intros Hr []. apply crash_settled; [done..|]. intros p. pose proof (crash_image st p Hr q_wf0) as Hc.
  rewrite <- q_dur0. unfold durable_bytes. destruct (durable_id st p) as [i|] eqn:Hp; [|done].
  destruct Hc as (ino & b & Hi & -> & _ & _ & Hsame). cbn [mbind option_bind]. rewrite Hi. change (Some b = Some (durable ino)). f_equal. apply Hsame.
  intros q. by rewrite (whole_no_tear st).
Qed.

(** ** An unsynced append to a durable file *)

(** The disk durably holds [m], and [p] has [tail] unsynced after [old]. *)
Section appended.
Context (d : path) (m : memfs) (st : SimState R) (p : path) (old tail : bytes).
Context (Hr : RngLaws R) (Hs : settled d m st) (Hp : m !! p = Some old).
Abbreviation st1 := (append p tail st).2.

Lemma appended_state : ∃ i ino, live_id st p = Some i ∧ inodes st !! i = Some ino ∧ live ino = old ∧ durable ino = old ∧
  st1 = mkSim (files st) (<[i := mkInode (old ++ tail) old (Some (next_append_seq st))]> (inodes st)) (next_inode st)
    (op_count st + 1) (next_append_seq st + 1) None (last_report st) (rng st).
Proof.
  destruct Hs as (Hv & Hq & _). pose proof Hq as []. pose proof Hv as (_ & _ & Hm). rewrite Hm in Hp. unfold live_bytes in Hp.
  destruct (live_id st p) as [i|] eqn:Hl; [|done]. cbn [mbind option_bind] in Hp.
  destruct (inodes st !! i) as [ino|] eqn:Hi; [|done]. injection Hp as Hold.
  pose proof (q_synced0 p i ino (λ H, H) Hl Hi) as Hsy. exists i, ino. split_and!; [done..|congruence|].
  unfold append. rewrite with_live_run by done. rewrite Hl, Hi. cbn [snd]. rewrite bump_unarmed by done.
  by rewrite <- Hsy, Hold.
Qed.
Lemma appended_view : view st1 (<[p := old ++ tail]> m).
Proof.
  destruct Hs as (Hv & _). destruct (msim_at (append_sim p tail) st m Hv) as [_ Hv1].
  unfold mem_append, mem_file in Hv1. by rewrite Hp in Hv1.
Qed.
(** Names lead where they led. *)
Lemma appended_names q : live_id st1 q = live_id st q ∧ durable_id st1 q = durable_id st q.
Proof. destruct appended_state as (i & ino & _ & _ & _ & _ & ->). done. Qed.

(** The power goes before the sync. *)
Lemma appended_crash : ∃ b mode, torn old tail mode b ∧ settled d (<[p := b]> m) (crash st1).2.
Proof.
  destruct appended_state as (i & ino & Hl & Hi & Hlive & Hdur & Est). pose proof appended_view as Hv1.
  destruct Hs as (_ & Hq & Hln). destruct Hq.
  assert (Ed1 : ∀ q, durable_id st1 q = durable_id st q) by (intros q; apply appended_names).
  assert (Ei1 : inodes st1 = <[i := mkInode (old ++ tail) old (Some (next_append_seq st))]> (inodes st)) by by rewrite Est.
  pose proof (crash_image st1 p Hr (proj1 Hv1)) as Hc. rewrite Ed1, <- Hln, Hl in Hc.
  destruct Hc as (ino1 & b & E1 & Hb & _ & Himg & _). rewrite Ei1, lookup_insert_eq in E1. injection E1 as <-.
  unfold inode_image in Himg. cbn [live durable] in Himg. rewrite drop_app_length in Himg.
  assert (∃ mode, torn old tail mode b) as [mode Ht].
  { destruct Himg as [->|[_ [mode Ht]]]; [by exists Drop|by exists mode]. }
  exists b, mode. split; [done|]. apply crash_settled; [done|apply Hv1|intros q1 q2 j; rewrite !Ed1; apply q_inj0|].
  intros q. destruct (decide (p = q)) as [<-|Hne]; [by rewrite lookup_insert_eq|].
  rewrite lookup_insert_ne by done. rewrite <- q_dur0. pose proof (crash_image st1 q Hr (proj1 Hv1)) as Hc.
  unfold durable_bytes. rewrite Ed1 in Hc. destruct (durable_id st q) as [j|] eqn:Hj; [|done].
  destruct Hc as (ino1 & b1 & E1 & -> & _ & Himg1 & _). cbn [mbind option_bind].
  assert (Hij : i ≠ j) by (intros ->; apply Hne, (q_inj0 p q j); [by rewrite <- Hln|done]).
  rewrite Ei1, lookup_insert_ne in E1 by done. rewrite E1. change (Some b1 = Some (durable ino1)). f_equal.
  destruct Himg1 as [->|[Hlt _]]; [done|]. rewrite (q_whole0 q j ino1 Hj E1) in Hlt. lia.
Qed.

(** The sync returns. *)
Lemma appended_synced : settled d (<[p := old ++ tail]> m) (sync_file p st1).2.
Proof.
  destruct appended_state as (i & ino & Hl & Hi & Hlive & Hdur & Est). pose proof appended_view as Hv1.
  destruct Hs as (_ & Hq & Hln). destruct Hq.
  destruct (msim_at (sync_file_sim p) _ _ Hv1) as [_ Hv2]. unfold mem_sync_file, mem_file in Hv2. rewrite lookup_insert_eq in Hv2.
  assert (Ei1 : inodes st1 = <[i := mkInode (old ++ tail) old (Some (next_append_seq st))]> (inodes st)) by by rewrite Est.
  assert (Hl1 : live_id st1 p = Some i) by by rewrite (proj1 (appended_names p)).
  split; [exact Hv2|]. destruct (sync_file_state p st1) as [[_ Hn]|(i' & ino' & Hl' & Hi' & Ef & Ei)]; [by rewrite Est|..].
  { exfalso. apply Hn. unfold sync_file. rewrite with_live_run by apply Hv1. by rewrite Hl1, Ei1, lookup_insert_eq. }
  rewrite Hl1 in Hl'. injection Hl' as <-. rewrite Ei1, lookup_insert_eq in Hi'. injection Hi' as <-. cbn [live durable] in Ei.
  set (st2 := (sync_file p st1).2) in *.
  assert (El2 : ∀ q, live_id st2 q = live_id st q) by (intros q; rewrite <- (proj1 (appended_names q)); unfold live_id; by rewrite Ef).
  assert (Ed2 : ∀ q, durable_id st2 q = durable_id st q) by (intros q; rewrite <- (proj2 (appended_names q)); unfold durable_id; by rewrite Ef).
  assert (Hwhole : ∀ q j ino1, durable_id st q = Some j → inodes st2 !! j = Some ino1 → live ino1 = durable ino1).
  { intros q j ino1 Hj. rewrite Ei, Ei1, insert_insert_eq. destruct (decide (i = j)) as [<-|Hij].
    - rewrite lookup_insert_eq. by intros [= <-].
    - rewrite lookup_insert_ne by done. by apply (q_whole0 q). }
  split; [|intros q; by rewrite El2, Ed2, Hln]. split; try apply Hv2; try done.
  - intros q1 q2 j. rewrite !Ed2. apply q_inj0.
  - intros q. pose proof Hv2 as (_ & _ & Hm2). rewrite Hm2. unfold durable_bytes, live_bytes.
    rewrite Ed2, El2, Hln. destruct (durable_id st q) as [j|] eqn:Hj; [|done]. cbn [mbind option_bind].
    destruct (inodes st2 !! j) as [ino1|] eqn:E; [|done]. change (Some (durable ino1) = Some (live ino1)).
    f_equal. symmetry. by apply (Hwhole q j).
  - intros q j ino1. rewrite Ed2. apply Hwhole.
  - intros q j ino1 _. rewrite El2, Hln. apply Hwhole.
  - intros q _. by rewrite El2, Ed2, Hln.
Qed.
End appended.

End durable.

(** ** The calls of the recording simulator *)

Section tracked.
Context {R : Type} {RNG : Rng R}.
Implicit Types (d p q : path) (m : memfs) (D : path → Prop).

Lemma keeps_tr_create d m0 D t0 p :
  is_child_of p d = true → keeps (tracks (quiet d m0 D) t0) any (fs_create p).
Proof. intros Hp. apply keeps_recorded. intros st. by apply quiet_create. Qed.
Lemma keeps_tr_append d m0 D t0 p b : D p → keeps (tracks (quiet d m0 D) t0) any (fs_append p b).
Proof. intros Hp. apply keeps_recorded. intros st. by apply quiet_append. Qed.
Lemma keeps_tr_sync_file d m0 D t0 p : keeps (tracks (quiet d m0 D) t0) any (fs_sync_file p).
Proof. apply keeps_recorded. intros st. by apply quiet_sync_file. Qed.
Lemma keeps_tr_delete d m0 D t0 p :
  is_child_of p d = true → keeps (tracks (quiet d m0 D) t0) any (fs_delete p).
Proof. intros Hp. apply keeps_recorded. intros st. by apply quiet_delete. Qed.
Lemma keeps_tr_rename d m0 D t0 p q :
  is_child_of p d = true → is_child_of q d = true → ¬ D p → ¬ D q → keeps (tracks (quiet d m0 D) t0) any (fs_rename p q).
Proof. intros Hp Hq HD HD'. apply keeps_recorded. intros st. by apply quiet_rename. Qed.

(** Calls that only look. *)
Lemma keeps_tr_open (I : SimState R → Prop) t0 p : keeps (tracks I t0) any (fs_open p).
Proof. apply keeps_observed. intros st. cbn. unfold SimFs.open. by destruct (live_id st p). Qed.
Lemma keeps_tr_read_at (I : SimState R → Prop) t0 p o n : keeps (tracks I t0) any (fs_read_at p o n).
Proof.
  apply keeps_observed. intros st. cbn. unfold read_at, with_live. destruct (live_id st p) as [i|]; [|done].
  destruct (inodes st !! i); [|done]. cbv zeta. by case_decide.
Qed.
Lemma keeps_tr_list (I : SimState R → Prop) t0 p : keeps (tracks I t0) any (fs_list p).
Proof. by apply keeps_observed. Qed.
Lemma keeps_tr_len (I : SimState R → Prop) t0 p : keeps (tracks I t0) any (fs_len p).
Proof.
  apply keeps_observed. intros st. cbn. unfold len, with_live. destruct (live_id st p) as [i|]; [|done].
  by destruct (inodes st !! i).
Qed.
End tracked.
#[export] Hint Resolve keeps_tr_create keeps_tr_append keeps_tr_sync_file keeps_tr_delete keeps_tr_rename
  keeps_tr_open keeps_tr_read_at keeps_tr_list keeps_tr_len : keeps.
End Durable.
