(* ===== verification/CrashLogic.v ===== *)
(** A small logic for code that runs on the recording simulator: a triple says
    that a run returns, what it leaves, and that a power loss after any of its
    mutating calls leaves a disk of the stated set; one rule per call, over the
    two kinds of states in which something is pending. *)
From Stdlib Require Import Strings.String.
From S2P Require Export Durable.

Module CrashLogic.
Import SimFs SimSpec Durable.

(** Code that only looks. *)
Record looks {S} `{!Storage S} (I : S → Prop) : Prop := {
  lk_open p : keeps I any (fs_open p);
  lk_read p o n : keeps I any (fs_read_at p o n);
  lk_list p : keeps I any (fs_list p);
  lk_len p : keeps I any (fs_len p);
}.

Lemma looks_any {S} `{!Storage S} : looks (λ _, True).
Proof. split; intros; by split. Qed.

Lemma keeps_same_observed {S E A} (t0 : Traced S) (m : M S E A) :
  (∀ s, (m s).2 = s) → keeps (λ t, t = t0) any (observed m).
Proof.
  intros Hm t ->. split; [|done]. unfold observed. specialize (Hm (now t0)). destruct (m (now t0)) as [r s].
  simpl in *. subst s. by destruct t0.
Qed.

(** The projections to the storage: the storage itself, or [snd]. *)
Abbreviation alone := (@Datatypes.id _).

(** The storage has nothing pending. *)
Abbreviation rests d := (λ _ y, ∃ m', settled d m' (now y.2)).

Section logic.
Context {R : Type} {RNG : Rng R} {RL : RngLaws R} (d : path).
Abbreviation T := (Traced (SimState R)).
Implicit Types (m : memfs) (p q : path) (st : SimState R) (t : T) (Q : memfs → Prop).

Lemma looks_same t0 : looks (λ t, t = t0).
Proof.
  split; intros; apply keeps_same_observed; intros st; cbn.
  - unfold SimFs.open. by destruct (live_id st p).
  - unfold read_at, with_live. destruct (live_id st p) as [i|]; [|done].
    destruct (inodes st !! i); [|done]. cbv zeta. by case_decide.
  - done.
  - unfold len, with_live. destruct (live_id st p) as [i|]; [|done]. by destruct (inodes st !! i).
Qed.

(** * The triple *)

(** Losing power in [st] leaves a disk with nothing pending and files in [Q]. *)
Definition lost Q st : Prop := ∃ m, settled d m (crash st).2 ∧ Q m.

Lemma lost_mono Q Q' st : (∀ m, Q m → Q' m) → lost Q st → lost Q' st.
Proof. intros H (m & Hm & HQ). exists m. auto. Qed.
Lemma quiet_lost Q m0 D st : quiet d m0 D st → Q m0 → lost Q st.
Proof. intros Hq H. exists m0. split; [by eapply quiet_crash|done]. Qed.
Lemma settled_lost Q m st : settled d m st → Q m → lost Q st.
Proof. intros Hs. apply quiet_lost with nowhere. by apply settled_quiet. Qed.

(** The code [m], run from [σ], returns a value and a state of [Post]; losing
    power after any of its mutating calls leaves a disk of [Q]. *)
Definition cruns {Σ E A} (π : Σ → T) Q (m : M Σ E A) (Post : A → Σ → Prop) (σ : Σ) : Prop :=
  ∃ a σ', m σ = (Ok a, σ') ∧ Post a σ' ∧ steps (lost Q) (π σ) (π σ').

Section rules.
Context {Σ E : Type} (π : Σ → T) (Q : memfs → Prop).

Lemma cruns_ret {A} (a : A) Post σ : Post a σ → cruns (E:=E) π Q (mret a) Post σ.
Proof. intros H. exists a, σ. split; [done|]. split; [done|apply steps_refl]. Qed.
Lemma cruns_bind {A B} (m : M Σ E A) (f : A → M Σ E B) Post Post' σ :
  cruns π Q m Post σ → (∀ a σ', Post a σ' → cruns π Q (f a) Post' σ') → cruns π Q (m ≫= f) Post' σ.
Proof.
  intros (a & σ1 & H1 & HP & Hs1) Hf. destruct (Hf a σ1 HP) as (b & σ2 & H2 & HP2 & Hs2).
  exists b, σ2. split; [by erewrite bind_ok by exact H1|]. split; [done|]. by eapply steps_trans.
Qed.
Lemma cruns_post {A} (m : M Σ E A) (Post Post' : A → Σ → Prop) σ :
  (∀ a σ', Post a σ' → Post' a σ') → cruns π Q m Post σ → cruns π Q m Post' σ.
Proof. intros H (a & σ' & H1 & H2 & H3). exists a, σ'. auto. Qed.
Lemma cruns_img {A} Q' (m : M Σ E A) Post σ :
  (∀ x, Q x → Q' x) → cruns π Q m Post σ → cruns π Q' m Post σ.
Proof.
  intros H (a & σ' & H1 & H2 & H3). exists a, σ'. split; [done|]. split; [done|].
  eapply steps_mono; [|done]. intros x. by apply lost_mono.
Qed.
(** A run whose result is known otherwise. *)
Lemma cruns_known {A} (m : M Σ E A) Post σ a σ' :
  m σ = (Ok a, σ') → cruns π Q m Post σ → cruns π Q m (λ b x, b = a ∧ x = σ' ∧ Post a σ') σ.
Proof. intros E1 (b & x & E2 & HP & Hs). rewrite E1 in E2. injection E2 as <- <-. exists a, σ'. auto. Qed.
Lemma cruns_step {A} (m : M Σ E A) Post σ a σ' :
  m σ = (Ok a, σ') → Post a σ' → steps (lost Q) (π σ) (π σ') → cruns π Q m Post σ.
Proof. intros. exists a, σ'. auto. Qed.
Lemma cruns_eq {A} (m m' : M Σ E A) Post σ : m σ = m' σ → cruns π Q m' Post σ → cruns π Q m Post σ.
Proof. intros Heq (a & σ' & H1 & H2). exists a, σ'. by rewrite Heq. Qed.
(** A first step of known result. *)
Lemma cruns_then {A B} (m : M Σ E A) (f : A → M Σ E B) Post Post' σ a σ' :
  m σ = (Ok a, σ') → cruns π Q m Post σ → (Post a σ' → cruns π Q (f a) Post' σ') → cruns π Q (m ≫= f) Post' σ.
Proof.
  intros H1 Hm Hf. eapply cruns_bind; [by eapply cruns_known|]. cbn beta. intros b x (-> & -> & HP). by apply Hf.
Qed.
(** A first step that records nothing. *)
Lemma cruns_first {A B} (m : M Σ E A) (f : A → M Σ E B) Post σ a σ' :
  m σ = (Ok a, σ') → π σ' = π σ → cruns π Q (f a) Post σ' → cruns π Q (m ≫= f) Post σ.
Proof.
  intros H1 Hp (b & σ2 & H2 & HP & Hs). exists b, σ2. split; [by erewrite bind_ok by exact H1|]. by rewrite <- Hp.
Qed.
Lemma cruns_map_err {E' A} (f : E → E') (m : M Σ E A) Post σ :
  cruns π Q m Post σ → cruns π Q (map_err f m) Post σ.
Proof. intros (a & σ' & H1 & H2). exists a, σ'. split; [by apply map_err_ok|done]. Qed.
Lemma cruns_attempt {E' A} (m : M Σ E A) (Post : A + E → Σ → Prop) σ :
  cruns π Q m (λ a, Post (inl a)) σ → cruns (E:=E') π Q (attempt m) Post σ.
Proof. intros (a & σ' & H1 & H2). exists (inl a), σ'. split; [|done]. unfold attempt. by rewrite H1. Qed.
Lemma cruns_of_outcome {A} (r : outcome E A) a Post σ :
  r = Ok a → Post a σ → cruns π Q (of_outcome r) Post σ.
Proof. intros -> H. exists a, σ. split; [done|]. split; [done|apply steps_refl]. Qed.
End rules.

(** Code over a structure and the storage. *)
Lemma cruns_on_snd {X E A} Q (m : M T E A) (Post : A → X * T → Prop) x t :
  cruns alone Q m (λ a t', Post a (x, t')) t → cruns snd Q (on_snd m) Post (x, t).
Proof. intros (a & t' & H1 & H2). exists a, (x, t'). split; [by apply on_snd_run|done]. Qed.
Lemma cruns_on_snd_bind {X E A B} Q (m : M T E A) (f : A → M (X * T) E B) P (Post : B → X * T → Prop) x t :
  cruns alone Q m P t → (∀ a t', P a t' → cruns snd Q (f a) Post (x, t')) → cruns snd Q (on_snd m ≫= f) Post (x, t).
Proof.
  intros Hm Hf. apply (cruns_bind _ _ _ _ (λ a y, y.1 = x ∧ P a y.2)).
  - apply cruns_on_snd. by eapply cruns_post; [|exact Hm].
  - intros a [x' t'] [E1 HP]. cbn in E1, HP. subst x'. by apply Hf.
Qed.
Lemma cruns_zoom {X Y E A} Q (get : X → Y) set (m : M (Y * T) E A) (Post : A → X * T → Prop) x t :
  cruns snd Q m (λ a y, Post a (set y.1 x, y.2)) (get x, t) → cruns snd Q (zoom get set m) Post (x, t).
Proof. intros (a & [y t'] & H1 & H2). exists a, (set y x, t'). split; [|done]. unfold zoom. by rewrite H1. Qed.
Lemma cruns_mod_fst {X E} Q (f : X → X) (Post : () → X * T → Prop) x t :
  Post () (f x, t) → cruns (E:=E) snd Q (mod_fst f) Post (x, t).
Proof. intros H. exists (), (f x, t). split; [done|]. split; [done|apply steps_refl]. Qed.
Lemma cruns_get_fst {X E} Q (Post : X → X * T → Prop) x t :
  Post x (x, t) → cruns (E:=E) snd Q get_fst Post (x, t).
Proof. intros H. exists x, (x, t). split; [done|]. split; [done|apply steps_refl]. Qed.

(** * Pending states *)

(** The process sees [m]; a power loss leaves [m0]. *)
Definition pending m0 m st : Prop := view st m ∧ quiet d m0 nowhere st.
(** The same, and [p] is a new file with bytes not synced. *)
Definition fresh m0 m p st : Prop := view st m ∧ quiet d m0 (only p) st.

Lemma settled_pending m st : settled d m st → pending m m st.
Proof. intros Hs. split; [by destruct Hs|by apply settled_quiet]. Qed.
Lemma view_unique st m m' : view st m → view st m' → m = m'.
Proof. intros (_ & _ & H1) (_ & _ & H2). apply map_eq. intros p. by rewrite H1. Qed.
Lemma settled_view m m' st : settled d m st → view st m' → settled d m' st.
Proof. intros Hs Hv. by rewrite <- (view_unique st m m') by (done || by destruct Hs). Qed.

Lemma quiet_only m0 p st : live_id st p = None → quiet d m0 nowhere st → quiet d m0 (only p) st.
Proof.
  intros Hp []. split; try done; [intros q i ino _; by apply (q_synced0 q i ino (λ H, H))|].
  intros q q' i -> Hi. congruence.
Qed.
Lemma view_no_live st m p : view st m → m !! p = None → live_id st p = None.
Proof.
  intros (Hw & _ & Hm) Hp. rewrite Hm in Hp. unfold live_bytes in Hp. destruct (live_id st p) as [i|] eqn:E; [|done].
  destruct (wf_live st Hw p i E) as [ino Hi]. cbn in Hp. by rewrite Hi in Hp.
Qed.

(** ** Calls *)

(** A call that keeps what a power loss leaves. *)
Lemma call_keeps {A} Q m0 D (f : M (SimState R) StorageError A) f' m t a m' (Post : A → T → Prop) :
  msim view f f' → view (now t) m → f' m = (Ok a, m') →
  (∀ st, quiet d m0 D st → quiet d m0 D (f st).2) → quiet d m0 D (now t) → Q m0 →
  (∀ t', view (now t') m' → quiet d m0 D (now t') → (f (now t)).2 = now t' → Post a t') →
  cruns alone Q (recorded f) Post t.
Proof.
  intros Hsim Hv Hf Hk Hq HQ HP. destruct (msim_run view f f' (now t) m _ m' Hsim Hv Hf) as (s & Hs & Hv').
  pose proof (Hk _ Hq) as Hq'. rewrite Hs in Hq', HP. cbn in Hq', HP.
  destruct (recorded_step (lost Q) f t (Ok a) s Hs) as (t' & Ht & Hn & Hst); [by eapply quiet_lost|].
  exists a, t'. split; [done|]. split; [|done]. apply HP; by rewrite Hn.
Qed.

Lemma c_create Q m0 m p t :
  is_child_of p d = true → m !! p = None → pending m0 m (now t) → Q m0 →
  cruns alone Q (fs_create p) (λ _ t', fresh m0 (<[p := []]> m) p (now t')) t.
Proof.
  intros Hp Hn [Hv Hq] HQ. eapply (call_keeps Q m0 (only p)); [apply create_sim|done|unfold mem_create; by rewrite Hn| | |done|].
  - intros st. by apply quiet_create.
  - apply quiet_only; [by eapply view_no_live|done].
  - by split.
Qed.
(** A new file left empty has nothing to sync. *)
Lemma c_create_empty Q m0 m p t :
  is_child_of p d = true → m !! p = None → pending m0 m (now t) → Q m0 →
  cruns alone Q (fs_create p) (λ _ t', pending m0 (<[p := []]> m) (now t')) t.
Proof.
  intros Hp Hn [Hv Hq] HQ. eapply (call_keeps Q m0 nowhere); [apply create_sim|done|unfold mem_create; by rewrite Hn| |done|done|].
  - intros st. by apply quiet_create.
  - by split.
Qed.
Lemma c_append Q m0 m p old b t :
  m !! p = Some old → fresh m0 m p (now t) → Q m0 →
  cruns alone Q (fs_append p b) (λ _ t', fresh m0 (<[p := old ++ b]> m) p (now t')) t.
Proof.
  intros Hp [Hv Hq] HQ. eapply (call_keeps Q m0 (only p)); [apply append_sim|done| | |done|done|].
  - unfold mem_append, mem_file. by rewrite Hp.
  - intros st. by apply quiet_append.
  - by split.
Qed.
Lemma c_sync_fresh Q m0 m p t :
  is_Some (m !! p) → fresh m0 m p (now t) → Q m0 →
  cruns alone Q (fs_sync_file p) (λ _ t', pending m0 m (now t')) t.
Proof.
  intros [b Hp] [Hv Hq] HQ.
  assert (Hm : mem_sync_file p m = (Ok (), m)) by (unfold mem_sync_file, mem_file; by rewrite Hp).
  destruct (msim_run view _ _ (now t) m _ _ (sync_file_sim p) Hv Hm) as (s & Hs & Hv').
  eapply (call_keeps Q m0 (only p)); [apply sync_file_sim|done|exact Hm| |done|done|].
  - intros st. by apply quiet_sync_file.
  - intros t' Hvt _ Ht. split; [done|]. rewrite <- Ht. apply quiet_synced; [done|]. by rewrite Hs.
Qed.
Lemma c_delete Q m0 m p t :
  is_child_of p d = true → is_Some (m !! p) → pending m0 m (now t) → Q m0 →
  cruns alone Q (fs_delete p) (λ _ t', pending m0 (base.delete p m) (now t')) t.
Proof.
  intros Hp [b Hb] [Hv Hq] HQ. eapply (call_keeps Q m0 nowhere); [apply delete_sim|done| | |done|done|].
  - unfold mem_delete, mem_file. by rewrite Hb.
  - intros st. by apply quiet_delete.
  - by split.
Qed.
(** Deleting a file that may be missing. *)
Lemma c_try_delete {E} Q m0 m p t :
  is_child_of p d = true → pending m0 m (now t) → Q m0 →
  cruns (E:=E) id Q (ignore_err (fs_delete p)) (λ _ t', pending m0 (base.delete p m) (now t')) t.
Proof.
  intros Hp [Hv Hq] HQ. destruct (msim_at (delete_sim p) (now t) m Hv) as [H1 H2].
  assert (Em : (mem_delete p m).2 = base.delete p m).
  { unfold mem_delete, mem_file. destruct (m !! p) eqn:E0; [done|]. cbn. by rewrite delete_id. }
  rewrite Em in H2. pose proof (quiet_delete d m0 nowhere p (now t) Hp Hq) as Hq'.
  exists (), (mkTraced (SimFs.delete p (now t)).2 (past t ++ [(SimFs.delete p (now t)).2])). split; [|split].
  - unfold ignore_err. change (fs_delete p) with (recorded (SimFs.delete p)). unfold recorded.
    unfold mem_delete, mem_file in H1. destruct (SimFs.delete p (now t)) as [r s]. cbn in *. subst r.
    by destruct (m !! p).
  - by split.
  - exists [(SimFs.delete p (now t)).2]. split; [done|]. constructor; [by eapply quiet_lost|done].
Qed.
Lemma c_rename Q m0 m p q b t :
  is_child_of p d = true → is_child_of q d = true → p ≠ q → m !! p = Some b → pending m0 m (now t) → Q m0 →
  cruns alone Q (fs_rename p q) (λ _ t', pending m0 (<[q := b]> (base.delete p m)) (now t')) t.
Proof.
  intros Hp Hq Hne Hb [Hv Hqu] HQ. eapply (call_keeps Q m0 nowhere); [apply rename_sim|done| | |done|done|].
  - unfold mem_rename, mem_file. rewrite Hb. rewrite decide_False by done. rewrite delete_insert_ne by done. reflexivity.
  - intros st. apply quiet_rename; [done..|by intros []|by intros []].
  - by split.
Qed.
Lemma c_sync_dir Q m0 m t :
  pending m0 m (now t) → Q m → cruns alone Q (fs_sync_dir d) (λ _ t', settled d m (now t')) t.
Proof.
  intros [Hv Hq] HQ. pose proof (sync_dir_settles d m0 m (now t) Hv Hq) as Hs.
  destruct (msim_run view _ _ (now t) m (Ok ()) m (sync_dir_sim d) Hv) as (s & Hr & _); [done|]. rewrite Hr in Hs.
  destruct (recorded_step (lost Q) (SimFs.sync_dir d) t (Ok ()) s Hr) as (t' & Ht & Hn & Hst); [by eapply settled_lost|].
  exists (), t'. split; [done|]. split; [by rewrite Hn|done].
Qed.
(** Syncing again what is synced. *)
Lemma c_sync_again Q m0 m p t :
  is_Some (m !! p) → pending m0 m (now t) → Q m0 →
  cruns alone Q (fs_sync_file p) (λ _ t', pending m0 m (now t')) t.
Proof.
  intros [b Hp] [Hv Hq] HQ. eapply (call_keeps Q m0 nowhere); [apply sync_file_sim|done| | |done|done|].
  - unfold mem_sync_file, mem_file. by rewrite Hp.
  - intros st. by apply quiet_sync_file.
  - by split.
Qed.
(** Bytes appended to a file that is durable, not synced yet. *)
Definition appended m p old b st : Prop :=
  view st (<[p := old ++ b]> m) ∧ settled d (<[p := old ++ b]> m) (SimFs.sync_file p st).2.

Lemma c_append_durable Q m p old b t :
  settled d m (now t) → m !! p = Some old → (∀ b' mode, torn old b mode b' → Q (<[p := b']> m)) →
  cruns alone Q (fs_append p b) (λ _ t', appended m p old b (now t')) t.
Proof.
  intros Hs Hp Htorn. pose proof Hs as [Hv _].
  assert (Ha : mem_append p b m = (Ok (blen old), <[p := old ++ b]> m)) by (unfold mem_append, mem_file; by rewrite Hp).
  destruct (msim_run view _ _ (now t) m _ _ (append_sim p b) Hv Ha) as (s1 & H1 & Hv1).
  destruct (appended_crash d m (now t) p old b RL Hs Hp) as (b' & mode & Hb & Hc).
  pose proof (appended_synced d m (now t) p old b Hs Hp) as Hsync. rewrite H1 in Hc, Hsync. cbn [snd] in Hc, Hsync.
  destruct (recorded_step (lost Q) (SimFs.append p b) t _ s1 H1) as (t1 & E1 & N1 & S1).
  { exists (<[p := b']> m). split; [done|]. by eapply Htorn. }
  apply (cruns_step _ _ _ _ _ _ _ E1); [|done]. by rewrite N1.
Qed.
Lemma c_sync_appended Q m p old b t :
  appended m p old b (now t) → Q (<[p := old ++ b]> m) →
  cruns alone Q (fs_sync_file p) (λ _ t', settled d (<[p := old ++ b]> m) (now t')) t.
Proof.
  intros [Hv Hsync] HQ. set (m1 := <[p := old ++ b]> m) in *.
  assert (Hy : mem_sync_file p m1 = (Ok (), m1)) by (unfold mem_sync_file, mem_file, m1; by rewrite lookup_insert_eq).
  destruct (msim_run view _ _ (now t) m1 _ _ (sync_file_sim p) Hv Hy) as (s2 & H2 & Hv2).
  rewrite H2 in Hsync. cbn in Hsync.
  destruct (recorded_step (lost Q) (SimFs.sync_file p) t (Ok ()) s2 H2) as (t2 & E2 & N2 & S2); [by eapply settled_lost|].
  apply (cruns_step _ _ _ _ _ _ _ E2); [|done]. by rewrite N2.
Qed.
(** Code that only looks, of known result. *)
Lemma looks_run {E A} (f : M T E A) (f' : M memfs E A) m t r m' :
  (∀ t0, keeps (λ t, t = t0) any f) → msim (st_view (S:=T)) f f' → view (now t) m → f' m = (r, m') → f t = (r, t).
Proof.
  intros Hk Hsim Hv Hf. destruct (msim_run _ f f' t m r m' Hsim Hv Hf) as (t' & Ht & _).
  destruct (Hk t t eq_refl) as [Et _]. rewrite Ht in Et. cbn in Et. by subst t'.
Qed.

(** ** Replacing a file whole *)

(** Written aside, synced, renamed over, the directory synced: what the manifest
    and the truncation of a log do. *)
Definition replace {S} `{!Storage S} (dir tmp p : path) (b : bytes) : M S StorageError () :=
  _ ← ignore_err (fs_delete tmp);
  _ ← fs_create tmp;
  _ ← fs_append tmp b;
  _ ← fs_sync_file tmp;
  _ ← fs_rename tmp p;
  fs_sync_dir dir.

Definition swapped tmp p (b : bytes) m : memfs := <[p := b]> (base.delete tmp m).

Lemma c_replace Q m0 m tmp p b t :
  is_child_of tmp d = true → is_child_of p d = true → tmp ≠ p → pending m0 m (now t) →
  Q m0 → Q (swapped tmp p b m) →
  cruns alone Q (replace d tmp p b) (λ _ t', settled d (swapped tmp p b m) (now t')) t.
Proof.
  intros Ht Hp Hne Hs H0 HQ. unfold replace. eapply cruns_bind; [by eapply c_try_delete|]. cbn beta. intros _ t1 Hs1.
  eapply cruns_bind; [eapply c_create; [done|apply lookup_delete_eq|exact Hs1|done]|]. cbn beta. intros _ t2 Hs2.
  eapply cruns_bind; [eapply c_append; [apply lookup_insert_eq|exact Hs2|done]|]. cbn beta. intros _ t3 Hs3.
  eapply cruns_bind; [eapply c_sync_fresh; [rewrite lookup_insert_eq; by eexists|exact Hs3|done]|]. cbn beta. intros _ t4 Hs4.
  eapply cruns_bind; [eapply c_rename; [exact Ht|exact Hp|done|apply lookup_insert_eq|exact Hs4|done]|]. cbn beta. intros _ t5 Hs5.
  rewrite insert_insert_eq, insert_delete_eq, delete_insert_eq in Hs5. by eapply c_sync_dir.
Qed.
End logic.
End CrashLogic.
