(* ===== verification/Frame.v ===== *)
(** WAL record framing ([src/wal/frame.rs]): [payload_len u32 | crc u32 |
    payload], with the decoder's three verdicts. *)
From Stdlib Require Import Strings.String.
From S2P Require Export Extern.

Module Frame.

Definition LEN_SZ : Z := 4.
Definition CRC_SZ : Z := 4.
Definition HEADER_SZ : Z := LEN_SZ + CRC_SZ.

Section frame.
Context `{!Crc32}.

(** [encode(payload)]; the length field is [payload.len() as u32]. *)
Definition encode (payload : bytes) : bytes :=
  le32 (u32_wrap (blen payload)) ++ le32 (crc32_hash payload) ++ payload.

Record DecodedFrame : Type := mkFrame {
  payload : bytes;
  total_len : Z;
}.

Inductive FrameError : Type := Truncated | BadCrc.

(** [decode(buf, offset)]. *)
Definition decode (buf : bytes) (offset : Z) : outcome FrameError DecodedFrame :=
  match u64_checked_add offset HEADER_SZ with
  | None => Err Truncated
  | Some header_end =>
      if decide (header_end > blen buf) then Err Truncated else
      len_bytes ← slice buf offset (offset + LEN_SZ);
      let payload_len := of_le len_bytes in
      crc_bytes ← slice buf (offset + LEN_SZ) header_end;
      let want_crc := of_le crc_bytes in
      match u64_checked_add header_end payload_len with
      | None => Err Truncated
      | Some payload_end =>
          if decide (payload_end > blen buf) then Err Truncated else
          payload ← slice buf header_end payload_end;
          if decide (crc32_hash payload = want_crc)
          then Ok (mkFrame payload (HEADER_SZ + payload_len))
          else Err BadCrc
      end
  end.

(** * Correctness *)

Context `{!Crc32Laws}.

Lemma blen_encode p : blen (encode p) = HEADER_SZ + blen p.
Proof. unfold encode, HEADER_SZ, LEN_SZ, CRC_SZ. rewrite !blen_app, !blen_le32. lia. Qed.

Lemma of_le_crc p : of_le (le32 (crc32_hash p)) = crc32_hash p.
Proof. rewrite of_le_le32. apply u32_wrap_id, crc32_u32. Qed.

(** Decoding where a header stands: the declared payload is read and checked. *)
Lemma decode_at pre lenb crcb rest :
  blen lenb = 4 → blen crcb = 4 →
  blen (pre ++ lenb ++ crcb ++ rest) ≤ u64_max →
  decode (pre ++ lenb ++ crcb ++ rest) (blen pre) =
    if decide (of_le lenb > blen rest) then Err Truncated
    else let p := take (Z.to_nat (of_le lenb)) rest in
         if decide (crc32_hash p = of_le crcb)
         then Ok (mkFrame p (HEADER_SZ + of_le lenb)) else Err BadCrc.
Proof.
  intros Hl Hc Hmax. unfold decode, u64_checked_add, HEADER_SZ, LEN_SZ, CRC_SZ.
  pose proof (blen_nonneg pre). pose proof (blen_nonneg rest).
  pose proof (of_le_range lenb) as Hrange.
  rewrite !blen_app, Hl, Hc in Hmax |- *. rewrite Hl in Hrange.
  rewrite decide_True by lia. rewrite decide_False by lia.
  rewrite (slice_app pre lenb _ (blen pre)) by lia.
  cbn [mbind outcome_bind].
  replace (pre ++ lenb ++ crcb ++ rest) with ((pre ++ lenb) ++ crcb ++ rest) at 1
    by by rewrite <- app_assoc.
  rewrite (slice_app (pre ++ lenb) crcb) by (rewrite ?blen_app; lia).
  cbn [mbind outcome_bind].
  destruct (decide (of_le lenb > blen rest)).
  { case_decide; [|done]. by rewrite decide_True by lia. }
  rewrite decide_True by lia. rewrite decide_False by lia.
  rewrite <- (take_drop (Z.to_nat (of_le lenb)) rest) at 1.
  replace (pre ++ lenb ++ crcb ++ take (Z.to_nat (of_le lenb)) rest ++
           drop (Z.to_nat (of_le lenb)) rest)
    with ((pre ++ lenb ++ crcb) ++ take (Z.to_nat (of_le lenb)) rest ++
          drop (Z.to_nat (of_le lenb)) rest) by by rewrite <- !app_assoc.
  rewrite (slice_app (pre ++ lenb ++ crcb)); [done|rewrite !blen_app; lia|].
  rewrite !blen_app. unfold blen in *. rewrite length_take. lia.
Qed.

(** A short header is a torn write. *)
Lemma decode_short buf off :
  0 ≤ off → blen buf < off + HEADER_SZ → decode buf off = Err Truncated.
Proof.
  intros Hoff Hlen. unfold decode. destruct (u64_checked_add off HEADER_SZ) eqn:E; [|done].
  unfold u64_checked_add in E. case_decide; simplify_eq. by rewrite decide_True by lia.
Qed.

(** A frame decodes, wherever it sits in a buffer, to its payload and its length
    on disk. *)
Lemma decode_encode_at pre p post :
  blen p < 2 ^ 32 → blen (pre ++ encode p ++ post) ≤ u64_max →
  decode (pre ++ encode p ++ post) (blen pre) = Ok (mkFrame p (blen (encode p))).
Proof.
  intros Hp Hmax. pose proof (blen_nonneg p). pose proof (blen_nonneg post).
  assert (E : pre ++ encode p ++ post =
              pre ++ le32 (u32_wrap (blen p)) ++ le32 (crc32_hash p) ++ (p ++ post)).
  { unfold encode. by rewrite <- !app_assoc. }
  rewrite E in *. rewrite decode_at by (done || apply blen_le32).
  rewrite of_le_le32, (u32_wrap_id (blen p)), u32_wrap_id by lia.
  rewrite of_le_crc, blen_app. rewrite decide_False by lia. cbv zeta.
  rewrite (take_app_prefix p) by (unfold blen; lia).
  rewrite decide_True by done. rewrite blen_encode. done.
Qed.

(** A proper prefix of a frame, the whole of what follows, is a torn write. *)
Lemma decode_torn pre p n :
  blen p < 2 ^ 32 → blen (pre ++ encode p) ≤ u64_max →
  (n < List.length (encode p))%nat →
  decode (pre ++ take n (encode p)) (blen pre) = Err Truncated.
Proof.
  intros Hp Hmax Hn. pose proof (blen_nonneg pre).
  destruct (decide (n < 8)%nat) as [H8|H8].
  { apply decode_short; [done|]. unfold HEADER_SZ, LEN_SZ, CRC_SZ, blen in *.
    rewrite length_app, length_take. lia. }
  assert (E : take n (encode p) =
              le32 (u32_wrap (blen p)) ++ le32 (crc32_hash p) ++ take (n - 8) p).
  { unfold encode, le32. rewrite take_app_ge; rewrite LittleEndianList.length_le_split; [|lia].
    rewrite take_app_ge; rewrite LittleEndianList.length_le_split; [|lia].
    do 3 f_equal. lia. }
  assert (Hn' : (n - 8 < List.length p)%nat).
  { pose proof (blen_encode p) as Hb. unfold HEADER_SZ, LEN_SZ, CRC_SZ, blen in *. lia. }
  rewrite E, decode_at; try apply blen_le32.
  - rewrite of_le_le32, (u32_wrap_id (blen p)), u32_wrap_id by (unfold blen in *; lia).
    rewrite decide_True; [done|]. unfold blen. rewrite length_take. lia.
  - rewrite !blen_app, blen_encode in *. rewrite !blen_le32.
    unfold HEADER_SZ, LEN_SZ, CRC_SZ, blen in *. rewrite length_take. lia.
Qed.

(** Soundness: what decodes is a frame, in place, inside the buffer. *)
Lemma decode_sound buf off f :
  0 ≤ off → decode buf off = Ok f →
  ∃ pre post, buf = pre ++ encode (payload f) ++ post ∧ blen pre = off ∧
    total_len f = blen (encode (payload f)) ∧ blen (payload f) < 2 ^ 32.
Proof.
  intros Hoff. unfold decode, u64_checked_add, HEADER_SZ, LEN_SZ, CRC_SZ.
  case_decide as Hmax1; [|done]. case_decide as Hlen; [done|].
  destruct (slice_ok (E:=FrameError) buf off (off + 4)) as (pre & lenb & r1 & -> & Hb1 & Hpre & Hlb);
    [lia..|]. cbn [mbind outcome_bind].
  pose proof (of_le_range lenb) as Hrange. rewrite Hlb in Hrange.
  replace (off + 4 - off) with 4 in Hrange by lia. change (8 * 4) with 32 in Hrange.
  destruct (slice_ok (E:=FrameError) buf (off + 4) (off + (4 + 4)))
    as (pre2 & crcb & r2 & -> & Hb2 & Hpre2 & Hcb); [lia..|]. cbn [mbind outcome_bind].
  case_decide as Hmax2; [|done]. case_decide as Hlen2; [done|].
  destruct (slice_ok (E:=FrameError) buf (off + (4 + 4)) (off + (4 + 4) + of_le lenb))
    as (pre3 & p & post & -> & Hb3 & Hpre3 & Hpb); [lia..|]. cbn [mbind outcome_bind].
  case_decide as Hcrc; [|done]. intros [= <-]. cbn [payload total_len].
  assert (Hcat : pre3 = pre ++ lenb ++ crcb).
  { assert (pre2 = pre ++ lenb) as ->.
    { apply (app_inj_1 _ _ (crcb ++ r2) r1); [unfold blen in *; rewrite length_app; lia|].
      by rewrite <- Hb2, Hb1, <- app_assoc. }
    apply (app_inj_1 _ _ (p ++ post) r2); [unfold blen in *; rewrite !length_app in *; lia|].
    rewrite <- Hb3, Hb2, <- !app_assoc. done. }
  exists pre, post. split_and!; [|done| |lia].
  - rewrite Hb3, Hcat. unfold encode.
    replace (u32_wrap (blen p)) with (of_le lenb) by (rewrite u32_wrap_id; lia).
    rewrite Hcrc, !le32_of_le by lia. by rewrite <- !app_assoc.
  - rewrite blen_encode. unfold HEADER_SZ, LEN_SZ, CRC_SZ. lia.
Qed.

(** [decode] never panics on an offset a [usize] can hold. *)
Lemma decode_no_panic buf off : 0 ≤ off → decode buf off ≠ Panic.
Proof.
  intros Hoff. unfold decode, u64_checked_add, HEADER_SZ, LEN_SZ, CRC_SZ.
  case_decide; [|done]. case_decide; [done|].
  destruct (slice_ok (E:=FrameError) buf off (off + 4)) as (? & lenb & ? & -> & _ & _ & _);
    [lia..|]. cbn [mbind outcome_bind].
  destruct (slice_ok (E:=FrameError) buf (off + 4) (off + (4 + 4))) as (? & ? & ? & -> & _ & _ & _);
    [lia..|]. cbn [mbind outcome_bind].
  pose proof (of_le_range lenb).
  case_decide; [|done]. case_decide; [done|].
  destruct (slice_ok (E:=FrameError) buf (off + (4 + 4)) (off + (4 + 4) + of_le lenb))
    as (? & ? & ? & -> & _ & _ & _); [lia..|]. cbn [mbind outcome_bind]. by case_decide.
Qed.

(** C31: at any offset of any buffer, [decode] accepts exactly the frames: it
    returns a payload and a length if and only if the bytes there start with the
    encoding of that payload, of that length. *)
Theorem frame_decode_exact pre rest p n :
  blen (pre ++ rest) ≤ u64_max →
  decode (pre ++ rest) (blen pre) = Ok (mkFrame p n) ↔
  blen p < 2 ^ 32 ∧ n = HEADER_SZ + blen p ∧ ∃ post, rest = encode p ++ post.
Proof.
  intros Hmax. split.
  - intros (pre' & post & E & Hl & Hn & Hp)%decode_sound; [|apply blen_nonneg]. cbn [payload total_len] in *.
    apply app_inj_1 in E as [-> ->]; [|unfold blen in Hl; lia]. rewrite blen_encode in Hn. eauto.
  - intros (Hp & -> & post & ->). rewrite decode_encode_at by done. by rewrite blen_encode.
Qed.

End frame.

Lemma frame_decode_exact_witness :
  @decode Sample.crc (lit "x" ++ @encode Sample.crc (lit "hi") ++ lit "y") 1 = Ok (mkFrame (lit "hi") 10).
Proof.
  apply (@frame_decode_exact Sample.crc Sample.crc_laws (lit "x") (@encode Sample.crc (lit "hi") ++ lit "y") (lit "hi") 10);
    [done|]. split; [done|]. split; [done|]. by exists (lit "y").
Defined.
End Frame.
