(* ===== verification/Segment.v ===== *)
(** WAL segment files ([src/wal/segment.rs]): their names, the open segment's
    append and sync, and reading a whole segment back. *)
From Stdlib Require Import Strings.String.
From S2P Require Export Storage.

Module Segment.

Definition ID_WIDTH : nat := 20.
Definition SUFFIX : bytes := lit ".wal".

(** [segment_path(dir, id)]. *)
Definition segment_path (dir : path) (id : Z) : path := join dir (fmt020 id ++ SUFFIX).

(** [parse_segment_id(path)].  The [to_str] step refuses names that are not
    UTF-8; such a name is refused by [parse] here too. *)
Definition parse_segment_id (p : path) : option Z :=
  name ← file_name p;
  digits ← strip_suffix SUFFIX name;
  if decide (List.length digits ≠ ID_WIDTH) then None else parse_u64 digits.

(** An open, writable segment. *)
Record Segment : Type := mkSegment {
  seg_id : Z;
  seg_path : path;
  write_offset : Z;
}.

Section segment.
Context {S : Type} `{!Storage S}.

(** [list_segments(fs, dir)]: the files whose name is a segment name, by id. *)
Definition list_segments (dir : path) : M S StorageError (list (Z * path)) :=
  ps ← fs_list dir;
  mret (merge_sort (λ x y : Z * path, x.1 ⪯ y.1)
          (omap (λ p, id ← parse_segment_id p; Some (id, p)) ps)).

(** [Segment::create], [Segment::open]. *)
Definition create (dir : path) (id : Z) : M S StorageError Segment :=
  let p := segment_path dir id in
  _ ← fs_create p;
  mret (mkSegment id p 0).

Definition open (dir : path) (id : Z) : M S StorageError Segment :=
  let p := segment_path dir id in
  n ← fs_len p;
  mret (mkSegment id p n).

(** [Segment::append], [Segment::sync]: methods on the segment they borrow. *)
Definition append (data : bytes) : M (Segment * S) StorageError () :=
  seg ← get_fst;
  _ ← on_snd (fs_append (seg_path seg) data);
  mod_fst (λ seg, mkSegment (seg_id seg) (seg_path seg)
                    (u64_add (write_offset seg) (blen data))).

Definition sync : M (Segment * S) StorageError () :=
  seg ← get_fst;
  on_snd (fs_sync_file (seg_path seg)).

(** The loop of [read_all]: positional reads until the buffer is full or a read
    returns nothing.  Every turn reads at least one byte, so [len + 1] turns of
    fuel are enough. *)
Fixpoint read_loop (fuel : nat) (p : path) (len : Z) (buf : bytes) : M S StorageError bytes :=
  match fuel with
  | O => mret buf
  | Datatypes.S fuel' =>
      if decide (blen buf < len) then
        chunk ← fs_read_at p (blen buf) (len - blen buf);
        if decide (chunk = []) then mret buf
        else read_loop fuel' p len (buf ++ chunk)
      else mret buf
  end.

(** [read_all(fs, path)]: a missing file reads as empty. *)
Definition read_all (p : path) : M S StorageError bytes :=
  r ← attempt (fs_len p);
  match r with
  | inl len => read_loop (Datatypes.S (Z.to_nat len)) p len []
  | inr (NotFound _) => mret []
  | inr e => err e
  end.

End segment.

(** * Names *)

Lemma parse_segment_path dir id :
  0 ≤ id < 2 ^ 64 → parse_segment_id (segment_path dir id) = Some id.
Proof.
  intros Hid. unfold parse_segment_id, segment_path. rewrite file_name_join.
  cbn [mbind option_bind]. rewrite strip_suffix_app. cbn [mbind option_bind]. unfold fmt020. rewrite length_digits.
  rewrite decide_False by (unfold ID_WIDTH; lia). by apply parse_fmt020.
Qed.

Lemma segment_path_inj dir id1 id2 :
  0 ≤ id1 < 2 ^ 64 → 0 ≤ id2 < 2 ^ 64 →
  segment_path dir id1 = segment_path dir id2 → id1 = id2.
Proof.
  intros H1 H2 E. apply (f_equal parse_segment_id) in E.
  rewrite !parse_segment_path in E by done. by simplify_eq.
Qed.

(** Lexicographic order of segment paths is numeric order of their ids. *)
Lemma segment_path_order dir id1 id2 :
  0 ≤ id1 < 2 ^ 64 → 0 ≤ id2 < 2 ^ 64 →
  cmp (segment_path dir id1) (segment_path dir id2) = cmp id1 id2.
Proof.
  intros H1 H2. unfold segment_path, join, cmp at 1, list_ord.
  rewrite list_cmp_app_l. cbn [list_cmp]. unfold cmp at 1.
  assert (E : list_cmp (fmt020 id1 ++ SUFFIX) (fmt020 id2 ++ SUFFIX) = cmp id1 id2).
  { rewrite list_cmp_app_r by (unfold fmt020; by rewrite !length_digits).
    assert (2 ^ 64 < 10 ^ Z.of_nat 20) by done. apply (digits_order 20); lia. }
  unfold list_ord. rewrite E. by destruct (cmp id1 id2).
Qed.

(** * Reading back *)

Section facts.
Context {S S2 : Type} {ST : Storage S} {ST2 : Storage S2} {SD : Deaths S S2} {SS : StorageSim S S2}.
Abbreviation V := (st_view (S:=S) (S2:=S2)).

Lemma list_segments_sim dir : msim V (list_segments (S:=S) dir) (list_segments dir).
Proof. unfold list_segments. solve_msim. Qed.
Lemma seg_create_sim dir id : msim V (create (S:=S) dir id) (create dir id).
Proof. unfold create. solve_msim. Qed.
Lemma seg_open_sim dir id : msim V (open (S:=S) dir id) (open dir id).
Proof. unfold open. solve_msim. Qed.
Lemma seg_append_sim b : msim (with_same V) (append (S:=S) b) (append b).
Proof. unfold append. solve_msim. Qed.
Lemma sync_sim : msim (with_same V) (sync (S:=S)) sync.
Proof. unfold sync. solve_msim. Qed.
Lemma read_loop_sim n p len b : msim V (read_loop (S:=S) n p len b) (read_loop n p len b).
Proof. revert b. induction n; intros b; simpl; solve_msim. Qed.
Lemma read_all_sim p : msim V (read_all (S:=S) p) (read_all p).
Proof.
  unfold read_all. apply msim_bind; [apply msim_attempt; eauto with msim|].
  intros [len|[]]; eauto using read_loop_sim with msim.
Qed.
End facts.
#[global] Hint Resolve list_segments_sim seg_create_sim seg_open_sim seg_append_sim sync_sim
  read_all_sim : msim.

(** [read_all] returns the file, or nothing when there is none. *)
Lemma read_all_mem (p : path) (m : memfs) :
  read_all p m = (Ok (default [] (m !! p)), m).
Proof.
  unfold read_all. rewrite bind_run. unfold attempt at 1. simpl.
  unfold mem_len, mem_file. destruct (m !! p) as [b|] eqn:Hp; [|done].
  cbn -[read_loop]. simpl read_loop. rewrite blen_nil.
  case_decide as H0.
  - rewrite bind_run. simpl. unfold mem_read_at, mem_file. rewrite Hp.
    rewrite decide_False by lia. simpl. rewrite Z.sub_0_r, read_bytes_all.
    case_decide as Hb; [subst b; done|].
    destruct (Z.to_nat (blen b)); simpl; [done|]. by rewrite decide_False by lia.
  - simpl. destruct b as [|x b]; [done|]. rewrite blen_cons in H0. pose proof (blen_nonneg b). lia.
Qed.

(** a segment's file name determines its id, and the lexicographic order in
    which a directory lists segments is the numeric order of their ids. *)
Theorem segment_names dir id1 id2 :
  0 ≤ id1 < 2 ^ 64 → 0 ≤ id2 < 2 ^ 64 →
  parse_segment_id (segment_path dir id1) = Some id1 ∧
  (segment_path dir id1 ≺ segment_path dir id2 ↔ id1 < id2).
Proof.
  intros H1 H2. split; [by apply parse_segment_path|].
  unfold olt. rewrite segment_path_order by done. apply Z.compare_lt_iff.
Qed.
Lemma segment_names_witness :
  parse_segment_id (segment_path [lit "db"] 7) = Some 7 ∧
  (segment_path [lit "db"] 7 ≺ segment_path [lit "db"] 12 ↔ 7 < 12).
Proof. apply (segment_names [lit "db"] 7 12); lia. Defined.

End Segment.
