(* ===== verification/Recovery.v ===== *)
(** WAL recovery ([src/wal/recovery.rs]): the frame scan with the torn-tail
    rule, the replay of every segment in id order, the rewrite that truncates a
    dirty tail. *)
From Stdlib Require Import Strings.String.
From S2P Require Export Frame Segment.

Module Recovery.
Import Segment.

Inductive StopReason : Type := Clean | Truncated | BadCrc.
#[global] Instance stop_reason_eq_dec : EqDecision StopReason.
Proof. solve_decision. Defined.

Record Recovered : Type := mkRecovered {
  records : list bytes;
  tail_segment : option Z;
  tail_valid_len : Z;
  stop_reason : StopReason;
}.
(** [Recovered::default()]. *)
Definition recovered_default : Recovered := mkRecovered [] None 0 Clean.

Section recovery.
Context `{!Crc32}.

(** The loop of [scan_buffer].  A decoded frame is at least a header long, so
    one turn per byte and a last one are enough fuel. *)
Fixpoint scan_loop {E} (fuel : nat) (buf : bytes) (out : list bytes) (off : Z)
    : outcome E (list bytes * (Z * StopReason)) :=
  match fuel with
  | O => Panic
  | Datatypes.S fuel' =>
      if decide (off = blen buf) then Ok (out, (off, Clean))
      else match Frame.decode buf off with
           | Ok f => scan_loop fuel' buf (out ++ [Frame.payload f]) (off + Frame.total_len f)
           | Err Frame.Truncated => Ok (out, (off, Truncated))
           | Err Frame.BadCrc => Ok (out, (off, BadCrc))
           | Panic => Panic
           end
  end.

(** [scan_buffer(buf, out)]: the records pushed onto [out], where the valid
    prefix ends, why the scan stopped. *)
Definition scan_buffer {E} (buf : bytes) (out : list bytes)
    : outcome E (list bytes * (Z * StopReason)) :=
  scan_loop (Datatypes.S (List.length buf)) buf out 0.

Context {S : Type} `{!Storage S}.

(** The segment loop of [recover], which breaks at the first dirty segment. *)
Fixpoint recover_loop (segments : list (Z * path)) (result : Recovered)
    : M S StorageError Recovered :=
  match segments with
  | [] => mret result
  | (id, p) :: rest =>
      buf ← read_all p;
      '(recs, (valid_len, reason)) ← of_outcome (scan_buffer buf (records result));
      let result := mkRecovered recs (Some id) valid_len reason in
      if decide (reason ≠ Clean) then mret result
      else recover_loop rest result
  end.

(** [recover(fs, dir)]. *)
Definition recover (dir : path) : M S StorageError Recovered :=
  segments ← list_segments dir;
  recover_loop segments recovered_default.

(** [tmp_path(dir, id)]. *)
Definition tmp_path (dir : path) (id : Z) : path := join dir (fmt020 id ++ lit ".wal.tmp").

(** [truncate_tail(fs, dir, tail_segment, valid_len)]. *)
Definition truncate_tail (dir : path) (tail valid_len : Z) : M S StorageError () :=
  let p := segment_path dir tail in
  current ← fs_len p;
  if decide (current ≤ valid_len) then mret () else
  buf ← read_all p;
  keep ← of_outcome (slice buf 0 valid_len);
  let tmp := tmp_path dir tail in
  _ ← ignore_err (fs_delete tmp);
  _ ← fs_create tmp;
  _ ← fs_append tmp keep;
  _ ← fs_sync_file tmp;
  _ ← fs_rename tmp p;
  fs_sync_dir dir.

End recovery.

(** * The scan *)

Section scan.
Context `{!Crc32, !Crc32Laws}.
Implicit Types ps rs : list bytes.

(** The bytes of a log holding the records [ps]. *)
Definition frames ps : bytes := concat (Frame.encode <$> ps).

(** Records a frame can carry. *)
Definition small (p : bytes) : Prop := blen p < 2 ^ 32.

Lemma frames_app ps rs : frames (ps ++ rs) = frames ps ++ frames rs.
Proof. unfold frames. by rewrite fmap_app, concat_app. Qed.
Lemma frames_snoc ps p : frames (ps ++ [p]) = frames ps ++ Frame.encode p.
Proof. rewrite frames_app. unfold frames. simpl. by rewrite app_nil_r. Qed.
Lemma frames_cons p ps : frames (p :: ps) = Frame.encode p ++ frames ps.
Proof. done. Qed.

Lemma length_encode p : (8 ≤ List.length (Frame.encode p))%nat.
Proof.
  pose proof (Frame.blen_encode p) as Hb. pose proof (blen_nonneg p).
  unfold Frame.HEADER_SZ, Frame.LEN_SZ, Frame.CRC_SZ, blen in *. lia.
Qed.

(** Scanning past the frames of [ps] hands the scan over to what follows. *)
Lemma scan_frames {E} fuel pre ps rest out :
  Forall small ps → blen (pre ++ frames ps ++ rest) ≤ u64_max →
  (List.length (frames ps ++ rest) < fuel)%nat →
  ∃ fuel', (List.length rest < fuel')%nat ∧
    scan_loop (E:=E) fuel (pre ++ frames ps ++ rest) out (blen pre) =
    scan_loop fuel' (pre ++ frames ps ++ rest) (out ++ ps) (blen (pre ++ frames ps)).
Proof.
  revert fuel pre out. induction ps as [|p ps IH]; intros fuel pre out Hs Hmax Hfuel.
  { exists fuel. by rewrite !app_nil_r. }
  apply Forall_cons in Hs as [Hp Hs]. rewrite frames_cons, <- !app_assoc in *.
  pose proof (length_encode p) as H8.
  destruct fuel as [|fuel]; [simpl in Hfuel; lia|]. cbn [scan_loop].
  rewrite decide_False.
  2:{ rewrite !blen_app, Frame.blen_encode. pose proof (blen_nonneg p).
      pose proof (blen_nonneg (frames ps)). pose proof (blen_nonneg rest).
      unfold Frame.HEADER_SZ, Frame.LEN_SZ, Frame.CRC_SZ. lia. }
  rewrite Frame.decode_encode_at by done. cbn [Frame.payload Frame.total_len].
  destruct (IH fuel (pre ++ Frame.encode p) (out ++ [p])) as (fuel' & Hf & E1).
  - done.
  - by rewrite <- app_assoc.
  - rewrite !length_app in *. lia.
  - exists fuel'. split; [done|].
    rewrite blen_app, <- !app_assoc in E1. rewrite E1. done.
Qed.

Lemma scan_loop_stop {E} fuel buf out off e :
  off ≠ blen buf → (0 < fuel)%nat → Frame.decode buf off = Err e →
  scan_loop (E:=E) fuel buf out off =
  Ok (out, (off, match e with Frame.Truncated => Truncated | Frame.BadCrc => BadCrc end)).
Proof.
  intros Hoff Hf Hd. destruct fuel; [lia|]. simpl. rewrite decide_False, Hd by done.
  by destruct e.
Qed.

(** A log of whole frames is scanned cleanly, in order. *)
Lemma scan_clean {E} ps out :
  Forall small ps → blen (frames ps) ≤ u64_max →
  scan_buffer (E:=E) (frames ps) out = Ok (out ++ ps, (blen (frames ps), Clean)).
Proof.
  intros Hs Hmax. unfold scan_buffer.
  destruct (scan_frames (E:=E) (Datatypes.S (List.length (frames ps))) [] ps [] out)
    as (fuel' & Hf & E1); try rewrite app_nil_r; simpl; [done|done|lia|].
  rewrite blen_nil, app_nil_r in E1. simpl in E1. rewrite E1.
  destruct fuel'; [simpl in Hf; lia|]. simpl. by rewrite decide_True.
Qed.

(** A log ending in a torn frame: everything before it is recovered. *)
Lemma scan_torn {E} ps p n out :
  Forall small ps → small p → blen (frames ps ++ Frame.encode p) ≤ u64_max →
  (0 < n < List.length (Frame.encode p))%nat →
  scan_buffer (E:=E) (frames ps ++ take n (Frame.encode p)) out =
  Ok (out ++ ps, (blen (frames ps), Truncated)).
Proof.
  intros Hs Hp Hmax Hn. unfold scan_buffer.
  assert (Hlen : List.length (take n (Frame.encode p)) = n) by (rewrite length_take; lia).
  destruct (scan_frames (E:=E)
    (Datatypes.S (List.length (frames ps ++ take n (Frame.encode p)))) []
    ps (take n (Frame.encode p)) out) as (fuel' & Hf & E1); simpl; [done| |lia|].
  { rewrite !blen_app in *. unfold blen in *. lia. }
  rewrite blen_nil in E1. simpl in E1. rewrite E1.
  apply (scan_loop_stop _ _ _ _ Frame.Truncated).
  - rewrite blen_app. unfold blen. rewrite Hlen. lia.
  - lia.
  - apply Frame.decode_torn; [done|done|lia].
Qed.

(** Soundness of any scan: what it returns is exactly the framed prefix of the
    buffer, and it is clean exactly when that prefix is the whole buffer. *)
Lemma scan_loop_sound {E} fuel buf out off res n reason :
  0 ≤ off ≤ blen buf → scan_loop (E:=E) fuel buf out off = Ok (res, (n, reason)) →
  ∃ ps pre post, res = out ++ ps ∧ buf = pre ++ frames ps ++ post ∧ blen pre = off ∧
    n = blen (pre ++ frames ps) ∧ (reason = Clean ↔ post = []) ∧ Forall small ps.
Proof.
  revert out off. induction fuel as [|fuel IH]; intros out off Hoff; simpl; [done|].
  case_decide as Hend.
  { intros [= <- <- <-]. exists [], buf, []. rewrite !app_nil_r. done. }
  destruct (Frame.decode buf off) as [f|e|] eqn:Hd; [| |done].
  - destruct (Frame.decode_sound buf off f (proj1 Hoff) Hd)
      as (pre & post & Hbuf & Hpre & Htl & Hsm).
    assert (Hcut : off + Frame.total_len f ≤ blen buf).
    { rewrite Hbuf, !blen_app, Htl, Hpre. pose proof (blen_nonneg post). lia. }
    pose proof (blen_nonneg (Frame.encode (Frame.payload f))).
    intros Hscan. apply IH in Hscan; [|lia].
    destruct Hscan as (ps & pre' & post' & -> & Hbuf' & Hpre' & -> & Hr & Hs).
    assert (pre' = pre ++ Frame.encode (Frame.payload f)) as ->.
    { apply (app_inj_1 _ _ (frames ps ++ post') post).
      - rewrite <- Hpre, Htl in Hpre'. unfold blen in *. rewrite length_app. lia.
      - rewrite <- Hbuf', Hbuf, <- app_assoc. done. }
    exists (Frame.payload f :: ps), pre, post'. rewrite frames_cons, <- !app_assoc in *.
    split_and!; try done. by constructor.
  - intros Hres.
    assert (res = out ∧ n = off ∧ reason ≠ Clean) as (-> & -> & Hr).
    { destruct e; by simplify_eq. }
    exists [], (take (Z.to_nat off) buf), (drop (Z.to_nat off) buf).
    change (frames []) with (@nil u8). rewrite !app_nil_r. simpl.
    assert (Hlen : blen (take (Z.to_nat off) buf) = off).
    { unfold blen in *. rewrite length_take. lia. }
    split_and!; [done|by rewrite take_drop|done|by rewrite Hlen| |done].
    split; [done|]. intros Hnil. apply (f_equal List.length) in Hnil.
    rewrite length_drop in Hnil. unfold blen in *. simpl in Hnil. lia.
Qed.

Lemma scan_sound {E} buf out res n reason :
  scan_buffer (E:=E) buf out = Ok (res, (n, reason)) →
  ∃ ps post, res = out ++ ps ∧ buf = frames ps ++ post ∧ n = blen (frames ps) ∧
    (reason = Clean ↔ post = []) ∧ Forall small ps.
Proof.
  intros Hsc. apply scan_loop_sound in Hsc as (ps & pre & post & -> & Hbuf & Hpre & -> & Hr & Hs);
    [|pose proof (blen_nonneg buf); lia].
  assert (pre = []) as -> by (destruct pre; [done|rewrite blen_cons in Hpre;
    pose proof (blen_nonneg pre); lia]).
  exists ps, post. done.
Qed.

(** The records a scan pushes do not depend on what was already there. *)
Lemma scan_loop_acc {E} fuel buf out off :
  scan_loop (E:=E) fuel buf out off =
  outcome_map (λ '(ps, r), (out ++ ps, r)) (scan_loop fuel buf [] off).
Proof.
  revert out off. induction fuel as [|fuel IH]; intros out off; simpl; [done|].
  case_decide; simpl; [by rewrite app_nil_r|].
  destruct (Frame.decode buf off) as [f|[]|]; simpl; rewrite ?app_nil_r; try done.
  rewrite IH, (IH [_]). destruct (scan_loop fuel buf [] _) as [[]|e|]; simpl; [|done..].
  by rewrite <- app_assoc.
Qed.
Lemma scan_acc {E} buf out :
  scan_buffer (E:=E) buf out = outcome_map (λ '(ps, r), (out ++ ps, r)) (scan_buffer buf []).
Proof. apply scan_loop_acc. Qed.

(** The scan always ends within its fuel, and never panics. *)
Lemma scan_loop_total {E} fuel buf out off :
  0 ≤ off ≤ blen buf → blen buf - off < Z.of_nat fuel →
  scan_loop (E:=E) fuel buf out off ≠ Panic ∧ ∀ e, scan_loop (E:=E) fuel buf out off ≠ Err e.
Proof.
  revert out off. induction fuel as [|fuel IH]; intros out off Hoff Hf; [lia|].
  simpl. case_decide; [done|].
  destruct (Frame.decode buf off) as [f|e|] eqn:Hd.
  - destruct (Frame.decode_sound buf off f (proj1 Hoff) Hd)
      as (pre & post & Hbuf & Hpre & Htl & Hsm).
    assert (off + Frame.total_len f ≤ blen buf).
    { rewrite Hbuf, !blen_app, Htl, Hpre. pose proof (blen_nonneg post). lia. }
    pose proof (length_encode (Frame.payload f)). apply IH; unfold blen in *; lia.
  - by destruct e.
  - by destruct (Frame.decode_no_panic buf off (proj1 Hoff)).
Qed.

Lemma scan_total {E} buf out :
  ∃ res n reason, scan_buffer (E:=E) buf out = Ok (res, (n, reason)).
Proof.
  destruct (scan_loop_total (E:=E) (Datatypes.S (List.length buf)) buf out 0) as [H1 H2].
  - pose proof (blen_nonneg buf). lia.
  - unfold blen. lia.
  - unfold scan_buffer. destruct (scan_loop _ _ _ _) as [[res [n reason]]|e|] eqn:Hs; [eauto|..].
    + by destruct (H2 e).
    + done.
Qed.

(** C27: on any bytes a segment may hold, the scan ends and returns the records of
    the longest prefix made of whole frames, the length of that prefix, and
    [Clean] exactly when the prefix is everything. *)
Theorem scan_longest_prefix (buf : bytes) :
  blen buf ≤ u64_max →
  ∃ ps rest reason,
    scan_buffer (E:=StorageError) buf [] = Ok (ps, (blen (frames ps), reason)) ∧
    buf = frames ps ++ rest ∧ Forall small ps ∧ (reason = Clean ↔ rest = []) ∧
    ∀ p post, small p → rest ≠ Frame.encode p ++ post.
Proof.
  intros Hmax. destruct (scan_total (E:=StorageError) buf []) as (ps & n & reason & Hsc).
  pose proof (scan_sound buf [] ps n reason Hsc) as (ps' & rest & E & Hb & -> & Hr & Hs). simpl in E. subst ps'.
  exists ps, rest, reason. split_and!; try done. intros p post Hp ->.
  rewrite (assoc_L (++)), <- frames_snoc in Hb.
  destruct (scan_frames (E:=StorageError) (Datatypes.S (length buf)) [] (ps ++ [p]) post []) as (fuel & Hf & E).
  - apply Forall_app. by repeat constructor.
  - by rewrite app_nil_l, <- Hb.
  - rewrite <- Hb. lia.
  - rewrite !app_nil_l, <- Hb in E. change (blen (A:=u8) []) with 0 in E.
    unfold scan_buffer in Hsc. rewrite E in Hsc.
    apply scan_loop_sound in Hsc as (ps2 & pre & post2 & E2 & _).
    + apply (f_equal length) in E2. rewrite !length_app in E2. simpl in E2. lia.
    + rewrite Hb, blen_app. pose proof (blen_nonneg post). pose proof (blen_nonneg (frames (ps ++ [p]))). lia.
Qed.

End scan.

Lemma scan_longest_prefix_witness :
  ∃ ps rest reason,
    scan_buffer (H:=Sample.crc) (E:=StorageError) (lit "torn") [] = Ok (ps, (blen (frames (H:=Sample.crc) ps), reason)) ∧
    lit "torn" = frames (H:=Sample.crc) ps ++ rest.
Proof.
  destruct (scan_longest_prefix (H:=Sample.crc) (H0:=Sample.crc_laws) (lit "torn")) as (ps & rest & reason & H1 & H2 & _);
    [done|]. by exists ps, rest, reason.
Defined.
End Recovery.
