(* ===== verification/Wal.v ===== *)
(** The write-ahead log ([src/wal/mod.rs]): opening, appending under each
    durability contract, segment rotation, reset, as one caller sees them.  The
    group commit among concurrent callers is the subject of [GroupCommit.v],
    over the same three coordinator steps. *)
From S2P Require Export Recovery.

Module Wal.
Import Segment.

Definition DEFAULT_SEGMENT_SIZE : Z := 4 * 1024 * 1024.

Inductive Durability : Type := Always | GroupCommit | OsBuffered.
#[global] Instance durability_eq_dec : EqDecision Durability.
Proof. solve_decision. Defined.

Definition is_durable (d : Durability) : bool :=
  match d with Always | GroupCommit => true | OsBuffered => false end.

Record WalOptions : Type := mkWalOptions {
  opt_durability : Durability;
  opt_segment_size : Z;
}.
(** [Durability::default()], [WalOptions::default()] and
    [WalOptions { durability, ..Default::default() }]. *)
Definition durability_default : Durability := Always.
Definition wal_options_default : WalOptions := mkWalOptions durability_default DEFAULT_SEGMENT_SIZE.
Definition options_with (d : Durability) : WalOptions := mkWalOptions d DEFAULT_SEGMENT_SIZE.

(** * The commit coordinator *)

Record Coord : Type := mkCoord {
  queue : list (Z * bytes);
  next_seq : Z;
  synced_through : Z;
  leader_active : bool;
}.
(** [Coord::default()]. *)
Definition coord_default : Coord := mkCoord [] 0 0 false.

(** Step 1 of [commit_group]: claim a sequence number, join the queue. *)
Definition enqueue (frame : bytes) (c : Coord) : Z * Coord :=
  let seq := u64_add (next_seq c) 1 in
  (seq, mkCoord (queue c ++ [(seq, frame)]) seq (synced_through c) (leader_active c)).

(** Step 2: become the leader and take the whole queue. *)
Definition take_batch (c : Coord) : list (Z * bytes) * Coord :=
  (queue c, mkCoord [] (next_seq c) (synced_through c) true).

(** [batch.last().map(|(s, _)| *s).unwrap_or(my_seq)]. *)
Definition highest (batch : list (Z * bytes)) (my_seq : Z) : Z :=
  match last batch with Some (s, _) => s | None => my_seq end.

(** Step 3: publish the outcome; a failed batch goes back in front. *)
Definition publish (batch : list (Z * bytes)) (my_seq : Z) (ok : bool) (c : Coord) : Coord :=
  if ok
  then mkCoord (queue c) (next_seq c) (Z.max (synced_through c) (highest batch my_seq)) false
  else mkCoord (batch ++ queue c) (next_seq c) (synced_through c) false.

(** * The log *)

Record Wal : Type := mkWal {
  dir : path;
  durability : Durability;
  segment_size : Z;
  active : Segment;
  coord : Coord;
}.

Definition set_active (s : Segment) (w : Wal) : Wal :=
  mkWal (dir w) (durability w) (segment_size w) s (coord w).
Definition set_coord (c : Coord) (w : Wal) : Wal :=
  mkWal (dir w) (durability w) (segment_size w) (active w) c.

Section wal.
Context `{!Crc32} {S : Type} `{!Storage S}.

(** [Wal::open(fs, dir, options)]. *)
Definition open (dir : path) (options : WalOptions)
    : M S StorageError (Wal * Recovery.Recovered) :=
  recovered ← Recovery.recover dir;
  _ ← (if decide (Recovery.stop_reason recovered ≠ Recovery.Clean)
       then match Recovery.tail_segment recovered with
            | Some tail =>
                Recovery.truncate_tail dir tail (Recovery.tail_valid_len recovered)
            | None => mret ()
            end
       else mret ());
  segs ← list_segments dir;
  active ← match last segs with
           | Some (id, _) => Segment.open dir id
           | None =>
               seg ← Segment.create dir 1;
               _ ← fs_sync_dir dir;
               mret seg
           end;
  mret (mkWal dir (opt_durability options) (opt_segment_size options) active coord_default,
        recovered).

(** [active_segment_id]. *)
Definition active_segment_id (w : Wal) : Z := seg_id (active w).

(** [existing.iter().map(|(id, _)| *id).max().unwrap_or(0) + 1]. *)
Definition next_segment_id (existing : list (Z * path)) : Z :=
  u64_add (match existing.*1 with [] => 0 | x :: l => foldl Z.max x l end) 1.

(** [Wal::reset]. *)
Definition reset : M (Wal * S) StorageError () :=
  w ← get_fst;
  existing ← on_snd (list_segments (dir w));
  fresh ← on_snd (Segment.create (dir w) (next_segment_id existing));
  _ ← on_snd (fs_sync_dir (dir w));
  _ ← on_snd (for_each existing (λ ip, fs_delete ip.2));
  _ ← on_snd (fs_sync_dir (dir w));
  mod_fst (set_active fresh).

(** [maybe_rotate]. *)
Definition maybe_rotate : M (Wal * S) StorageError () :=
  w ← get_fst;
  if decide (write_offset (active w) < segment_size w) then mret () else
  let next_id := u64_add (seg_id (active w)) 1 in
  _ ← zoom active set_active Segment.sync;
  seg ← on_snd (Segment.create (dir w) next_id);
  _ ← on_snd (fs_sync_dir (dir w));
  mod_fst (set_active seg).

(** [commit_sync_now], [commit_buffered], [write_batch]. *)
Definition commit_sync_now (frame : bytes) : M (Wal * S) StorageError () :=
  _ ← zoom active set_active (Segment.append frame);
  _ ← zoom active set_active Segment.sync;
  maybe_rotate.

Definition commit_buffered (frame : bytes) : M (Wal * S) StorageError () :=
  _ ← zoom active set_active (Segment.append frame);
  maybe_rotate.

Definition write_batch (batch : list (Z * bytes)) : M (Wal * S) StorageError () :=
  _ ← for_each batch (λ sf, zoom active set_active (Segment.append sf.2));
  _ ← zoom active set_active Segment.sync;
  maybe_rotate.

(** [commit_group] run by a caller with no other caller inside: it enqueues,
    leads its batch at once, publishes.  The turn that would park needs a
    leader that is another thread; with nobody to wake it the caller never
    returns, which is the [panic] branch. *)
Definition commit_group (frame : bytes) : M (Wal * S) StorageError () :=
  w ← get_fst;
  let '(my_seq, c) := enqueue frame (coord w) in
  _ ← mod_fst (set_coord c);
  if decide (my_seq ≤ synced_through c) then mret () else
  if leader_active c then panic else
  let '(batch, c) := take_batch c in
  _ ← mod_fst (set_coord c);
  io ← attempt (write_batch batch);
  _ ← mod_fst (λ w, set_coord (publish batch my_seq
                     (match io with inl _ => true | inr _ => false end) (coord w)) w);
  match io with inl _ => mret () | inr e => err e end.

(** [Wal::append(payload)]. *)
Definition append (payload : bytes) : M (Wal * S) StorageError () :=
  let frame := Frame.encode payload in
  w ← get_fst;
  match durability w with
  | Always => commit_sync_now frame
  | OsBuffered => commit_buffered frame
  | GroupCommit => commit_group frame
  end.

End wal.
End Wal.
