(* ===== verification/WalSpec.v ===== *)
(** What the write-ahead log promises a single caller: opening returns the
    records that were appended, appending adds one record in every durability
    mode and across rotation, reset empties the log.  Proved on the abstract
    backend and carried to every backend that meets [StorageSpec]. *)
From Stdlib Require Import Strings.String.
From S2P Require Export Wal.

Module WalSpec.
Import Segment Recovery Wal.

Section sims.
Context `{!Crc32} {S S2 : Type} {ST : Storage S} {ST2 : Storage S2} {SD : Deaths S S2} {SS : StorageSim S S2}.
Abbreviation V := (st_view (S:=S) (S2:=S2)).

Lemma recover_loop_sim segs r :
  msim V (recover_loop (S:=S) segs r) (recover_loop segs r).
Proof.
  revert r. induction segs as [|[id p] segs IH]; intros r; simpl; [apply msim_ret|].
  apply msim_bind; [eauto with msim|]. intros buf.
  apply msim_bind; [eauto with msim|]. intros [recs [n reason]].
  case_decide; [apply msim_ret|apply IH].
Qed.
Lemma recover_sim d : msim V (recover (S:=S) d) (recover d).
Proof. apply msim_bind; [eauto with msim|]. intros segs. apply recover_loop_sim. Qed.
Lemma truncate_tail_sim d tail n :
  msim V (truncate_tail (S:=S) d tail n) (truncate_tail d tail n).
Proof. unfold truncate_tail. solve_msim. Qed.
Hint Resolve recover_sim truncate_tail_sim : msim.

Lemma wal_open_sim d o : msim V (Wal.open (S:=S) d o) (Wal.open d o).
Proof. unfold Wal.open. solve_msim. Qed.
Lemma reset_sim : msim (with_same V) (reset (S:=S)) reset.
Proof. unfold reset. solve_msim. Qed.
Lemma maybe_rotate_sim : msim (with_same V) (maybe_rotate (S:=S)) maybe_rotate.
Proof. unfold maybe_rotate. solve_msim. Qed.
Hint Resolve maybe_rotate_sim : msim.
Lemma commit_sync_now_sim f :
  msim (with_same V) (commit_sync_now (S:=S) f) (commit_sync_now f).
Proof. unfold commit_sync_now. solve_msim. Qed.
Lemma commit_buffered_sim f :
  msim (with_same V) (commit_buffered (S:=S) f) (commit_buffered f).
Proof. unfold commit_buffered. solve_msim. Qed.
Lemma write_batch_sim b : msim (with_same V) (write_batch (S:=S) b) (write_batch b).
Proof. unfold write_batch. solve_msim. Qed.
Hint Resolve commit_sync_now_sim commit_buffered_sim write_batch_sim : msim.
Lemma commit_group_sim f : msim (with_same V) (commit_group (S:=S) f) (commit_group f).
Proof.
  unfold commit_group. apply msim_bind; [eauto with msim|]. intros w.
  destruct (enqueue f (coord w)) as [seq c]. solve_msim.
Qed.
Hint Resolve commit_group_sim : msim.
Lemma wal_append_sim p : msim (with_same V) (Wal.append (S:=S) p) (Wal.append p).
Proof. unfold Wal.append. solve_msim. Qed.
End sims.
#[global] Hint Resolve wal_open_sim reset_sim wal_append_sim : msim.

(** * Segment files on the abstract backend *)

(** The segment files of [d] in [m] are exactly [fs], ids ascending.  A name that
    [parse] reads as a segment id but [format] would not produce (a leading [+])
    is excluded here. *)
Record seg_files (d : path) (m : memfs) (fs : list (Z * bytes)) : Prop := {
  sf_sorted : sorted_keys fs;
  sf_range id b : (id, b) ∈ fs → 0 ≤ id < 2 ^ 64;
  sf_file id b : (id, b) ∈ fs → m !! segment_path d id = Some b;
  sf_only p id : is_Some (m !! p) → is_child_of p d = true → parse_segment_id p = Some id →
    p = segment_path d id ∧ id ∈ fs.*1;
}.

Definition seg_entry (d : path) (id : Z) : Z * path := (id, segment_path d id).

Lemma seg_entries_sorted d (fs : list (Z * bytes)) :
  sorted_keys fs → sorted_keys (seg_entry d <$> fs.*1).
Proof. unfold sorted_keys. by rewrite <- list_fmap_compose, list_fmap_id. Qed.

Lemma list_segments_mem d m fs :
  seg_files d m fs → list_segments d m = (Ok (seg_entry d <$> fs.*1), m).
Proof.
  intros [Hs Hr Hf Ho]. unfold list_segments. simpl. unfold mem_list, gets. rewrite bind_run.
  unfold mret, M_ret. do 2 f_equal.
  set (l := omap _ _).
  assert (Hin : ∀ x, x ∈ l ↔ x ∈ seg_entry d <$> fs.*1).
  { intros [id p]. unfold l. rewrite list_elem_of_omap. setoid_rewrite list_elem_of_filter.
    setoid_rewrite elem_of_bt_keys. rewrite list_elem_of_fmap. split.
    - intros (q & [Hc Hq] & Hp). destruct (parse_segment_id q) eqn:E; simplify_eq/=.
      destruct (Ho p id Hq Hc E) as [-> Hid]. eauto.
    - intros (id' & [= -> ->] & Hid). apply list_elem_of_fmap in Hid as ([? b] & -> & Hid).
      exists (segment_path d z). simpl. rewrite (Hf z b Hid), parse_segment_path by eauto.
      split_and!; [apply is_child_join|eauto|done]. }
  assert (Hnd : NoDup l.*1).
  { apply NoDup_fmap_2_strong.
    - intros [i p] [j q] Hi Hj Hij. simpl in Hij. subst j. apply Hin, list_elem_of_fmap in Hi as (? & [= -> ->] & _).
      by apply Hin, list_elem_of_fmap in Hj as (? & [= -> ->] & _).
    - apply NoDup_omap.
      + intros p q [??] Hp Hq. by simplify_option_eq.
      + apply NoDup_filter, (StronglySorted_lt_NoDup olt), bt_keys_sorted. }
  apply sorted_keys_unique.
  - apply ole_sorted_strict; [apply (StronglySorted_merge_sort _)|].
    by rewrite merge_sort_Permutation.
  - by apply seg_entries_sorted.
  - intros kv. rewrite merge_sort_Permutation. apply Hin.
Qed.

(** ** How file operations change the segment files *)

Lemma seg_files_ext d m m' fs :
  (∀ p, is_child_of p d = true → is_Some (parse_segment_id p) → m' !! p = m !! p) →
  seg_files d m fs → seg_files d m' fs.
Proof.
  intros E [Hs Hr Hf Ho]. split; [done..| |].
  - intros i b Hin. rewrite E; [by apply Hf|apply is_child_join|].
    rewrite parse_segment_path by eauto. eauto.
  - intros p i Hp Hc Hi. apply Ho; [|done..]. rewrite <- E; eauto.
Qed.

Lemma seg_files_new d m fs i b :
  seg_files d m fs → (∀ j, j ∈ fs.*1 → j < i) → 0 ≤ i < 2 ^ 64 →
  seg_files d (<[segment_path d i := b]> m) (fs ++ [(i, b)]).
Proof.
  intros [Hs Hr Hf Ho] Hlt Hi. split.
  - unfold sorted_keys. rewrite fmap_app. apply StronglySorted_app. split_and!; [|done|].
    + intros j k Hj ->%list_elem_of_singleton. by apply Z.compare_lt_iff, Hlt.
    + repeat constructor.
  - intros j c [Hin|[= -> ->]%list_elem_of_singleton]%elem_of_app; eauto.
  - intros j c [Hin|[= -> ->]%list_elem_of_singleton]%elem_of_app; [|by rewrite lookup_insert_eq].
    rewrite lookup_insert_ne; [by apply Hf|]. intros E.
    apply segment_path_inj in E; [|by eauto..]. subst j.
    assert (i < i); [|lia]. apply Hlt. by apply (list_elem_of_fmap_2 fst) in Hin.
  - intros p j Hp Hc Hj. destruct (decide (segment_path d i = p)) as [<-|Hne].
    + rewrite parse_segment_path in Hj by done. simplify_eq. split; [done|in_list].
    + rewrite lookup_insert_ne in Hp by done. destruct (Ho p j) as [-> ?]; [done..|].
      split; [done|]. rewrite fmap_app. in_list.
Qed.

Lemma seg_files_snoc_lt d m fs i b j :
  seg_files d m (fs ++ [(i, b)]) → j ∈ fs.*1 → j < i.
Proof.
  intros [Hs _ _ _] Hj. unfold sorted_keys in Hs. rewrite fmap_app in Hs.
  apply StronglySorted_app in Hs as (H & _). apply Z.compare_lt_iff.
  apply (H j i Hj). in_list.
Qed.

Lemma seg_files_snoc_inv d m fs i b :
  seg_files d m (fs ++ [(i, b)]) →
  m !! segment_path d i = Some b ∧ 0 ≤ i < 2 ^ 64 ∧
  seg_files d (delete (segment_path d i) m) fs.
Proof.
  intros Hsf. pose proof (λ j, seg_files_snoc_lt _ _ _ _ _ j Hsf) as Hlt.
  destruct Hsf as [Hs Hr Hf Ho]. assert (0 ≤ i < 2 ^ 64) by (eapply Hr; in_list).
  split; [apply Hf; in_list|]. split; [done|]. split.
  - unfold sorted_keys in *. rewrite fmap_app in Hs. by apply StronglySorted_app in Hs as (_ & ? & _).
  - intros j c Hin. eapply Hr. in_list.
  - intros j c Hin. rewrite lookup_delete_ne; [apply Hf; in_list|]. intros E.
    apply segment_path_inj in E; [|done|eapply Hr; in_list]. subst j.
    assert (i < i); [|lia]. apply Hlt. by apply (list_elem_of_fmap_2 fst) in Hin.
  - intros p j Hp Hc Hj. rewrite lookup_delete in Hp. case_decide; [by destruct Hp|].
    destruct (Ho p j) as [-> Hin]; [done..|]. split; [done|].
    apply elem_of_fst_snoc in Hin as [?| ->]; done.
Qed.

Lemma seg_files_update d m fs i b b' :
  seg_files d m (fs ++ [(i, b)]) →
  seg_files d (<[segment_path d i := b']> m) (fs ++ [(i, b')]).
Proof.
  intros Hsf. pose proof (λ j, seg_files_snoc_lt _ _ _ _ _ j Hsf) as Hlt.
  apply seg_files_snoc_inv in Hsf as (_ & Hi & Hsf).
  rewrite <- insert_delete_eq. by apply seg_files_new.
Qed.

(** Deleting the files [list_segments] returned leaves no segment. *)
Lemma delete_segments_mem d fs rest m :
  seg_files d m (fs ++ rest) →
  ∃ m', for_each (seg_entry d <$> fs.*1) (λ ip, fs_delete ip.2) m = (Ok (), m') ∧
        seg_files d m' rest.
Proof.
  revert m. induction fs as [|[i b] fs IH]; intros m Hsf; [by exists m|].
  cbn [fmap list_fmap fst for_each seg_entry snd].
  pose proof (sf_range _ _ _ Hsf i b ltac:(in_list)) as Hi.
  erewrite bind_ok.
  2:{ simpl. unfold mem_delete, mem_file.
      by rewrite (sf_file _ _ _ Hsf i b) by in_list. }
  apply IH. destruct Hsf as [Hs Hr Hf Ho]. simpl in Hs.
  apply sorted_keys_cons in Hs as [Hlt Hs]. split; [done| | |].
  - intros j c Hin. apply (Hr j c). by apply list_elem_of_further.
  - intros j c Hin. rewrite lookup_delete_ne; [apply Hf; by apply list_elem_of_further|]. intros E.
    apply segment_path_inj in E; [|done|apply (Hr j c); by apply list_elem_of_further]. subst j.
    by apply (olt_irrefl i), (Hlt (i, c)).
  - intros p j Hp Hc Hj. rewrite lookup_delete in Hp. case_decide as Hpi; [by destruct Hp|].
    destruct (Ho p j) as [-> Hin]; [done..|]. split; [done|]. apply elem_of_cons in Hin as [-> |]; done.
Qed.

(** * Replay *)

Section replay.
Context `{!Crc32, !Crc32Laws}.
Implicit Types (d : path) (m : memfs) (segs : list (Z * list bytes)).

(** A log of whole frames: each segment's id and records. *)
Definition seg_bytes (segs : list (Z * list bytes)) : list (Z * bytes) :=
  prod_map id frames <$> segs.
Definition wal_records (segs : list (Z * list bytes)) : list bytes := concat segs.*2.

(** Records and segments of sizes the code can address. *)
Definition fits (segs : list (Z * list bytes)) : Prop :=
  ∀ i ps, (i, ps) ∈ segs → Forall small ps ∧ blen (frames ps) ≤ u64_max.

Lemma seg_bytes_fst segs : (seg_bytes segs).*1 = segs.*1.
Proof. unfold seg_bytes. rewrite <- list_fmap_compose. by apply list_fmap_ext. Qed.
Lemma seg_bytes_app s1 s2 : seg_bytes (s1 ++ s2) = seg_bytes s1 ++ seg_bytes s2.
Proof. apply fmap_app. Qed.
Lemma wal_records_app s1 s2 : wal_records (s1 ++ s2) = wal_records s1 ++ wal_records s2.
Proof. unfold wal_records. by rewrite fmap_app, concat_app. Qed.
Lemma elem_of_seg_bytes segs i ps : (i, ps) ∈ segs → (i, frames ps) ∈ seg_bytes segs.
Proof. intros Hin. unfold seg_bytes. by apply (list_elem_of_fmap_2 (prod_map id frames)) in Hin. Qed.

(** What replaying the clean log [segs] after [r] returns. *)
Definition after_clean (segs : list (Z * list bytes)) (r : Recovered) : Recovered :=
  match last segs with
  | None => r
  | Some (i, ps) =>
      mkRecovered (records r ++ wal_records segs) (Some i) (blen (frames ps)) Clean
  end.

Lemma recover_loop_clean d m segs rest r :
  (∀ i ps, (i, ps) ∈ segs → m !! segment_path d i = Some (frames ps)) →
  fits segs →
  recover_loop ((seg_entry d <$> segs.*1) ++ rest) r m =
  recover_loop rest (after_clean segs r) m.
Proof.
  revert r. induction segs as [|[i ps] segs IH]; intros r Hm Hf; [done|].
  cbn [fmap list_fmap app recover_loop seg_entry fst].
  erewrite bind_ok by apply read_all_mem. rewrite (Hm i ps) by in_list. cbn [default id].
  destruct (Hf i ps) as [Hs Hmax]; [in_list|].
  erewrite bind_ok by (unfold of_outcome; by rewrite scan_clean). cbn beta iota.
  rewrite decide_False by (by intros []). rewrite IH by (intros j qs ?; (apply (Hm j qs) || apply (Hf j qs)); apply list_elem_of_further; done).
  f_equal. unfold after_clean. unfold wal_records. destruct segs as [|y segs].
  - simpl. by rewrite app_nil_r.
  - rewrite last_cons_cons. destruct (last (y :: segs)) as [[j qs]|] eqn:E; [|by apply last_None in E].
    simpl. by rewrite <- app_assoc.
Qed.

(** What replaying one more segment with the contents [b] returns. *)
Lemma recover_loop_last d m i b ps n reason r :
  m !! segment_path d i = Some b →
  scan_buffer (E:=StorageError) b [] = Ok (ps, (n, reason)) →
  recover_loop [seg_entry d i] r m =
  (Ok (mkRecovered (records r ++ ps) (Some i) n reason), m).
Proof.
  intros Hm Hsc. cbn [recover_loop seg_entry].
  erewrite bind_ok by apply read_all_mem. rewrite Hm. cbn [default id].
  erewrite bind_ok by (unfold of_outcome; by rewrite scan_acc, Hsc). cbn beta iota.
  by case_decide.
Qed.

Lemma recover_mem d m segs i b ps n reason :
  seg_files d m (seg_bytes segs ++ [(i, b)]) → fits segs →
  scan_buffer (E:=StorageError) b [] = Ok (ps, (n, reason)) →
  recover d m = (Ok (mkRecovered (wal_records segs ++ ps) (Some i) n reason), m).
Proof.
  intros Hsf Hf Hsc. unfold recover. erewrite bind_ok by by apply list_segments_mem.
  rewrite !fmap_app, seg_bytes_fst. rewrite (recover_loop_clean d m segs); [|..|done].
  - rewrite (recover_loop_last d m i b ps n reason); [|by apply (sf_file _ _ _ Hsf); in_list|done].
    unfold after_clean. destruct (last segs) as [[j qs]|] eqn:E; [done|].
    by apply last_None in E as ->.
  - intros j qs Hin. apply (sf_file _ _ _ Hsf), elem_of_app. left. by apply elem_of_seg_bytes.
Qed.
End replay.

(** * The invariant of an open log *)

Section wal_ok.
Context `{!Crc32, !Crc32Laws}.
Implicit Types (d : path) (m : memfs) (segs : list (Z * list bytes)) (w : Wal).

Lemma seg_files_fresh d m fs i :
  seg_files d m fs → (∀ j, j ∈ fs.*1 → j < i) → 0 ≤ i < 2 ^ 64 → m !! segment_path d i = None.
Proof.
  intros Hsf Hlt Hi. destruct (m !! segment_path d i) as [b|] eqn:Hb; [|done].
  destruct (sf_only _ _ _ Hsf (segment_path d i) i) as [_ Hin];
    [eauto|apply is_child_join|by apply parse_segment_path|].
  apply Hlt in Hin. lia.
Qed.

(** No other caller is inside [commit_group]. *)
Definition coord_idle (c : Coord) : Prop :=
  queue c = [] ∧ leader_active c = false ∧ 0 ≤ synced_through c ≤ next_seq c.

(** The segments of [dir w] hold, in order, the records [segs] and then, in the
    active segment, [ps]. *)
Record wal_ok w m segs (ps : list bytes) : Prop := {
  wo_files : seg_files (dir w) m (seg_bytes (segs ++ [(seg_id (active w), ps)]));
  wo_path : seg_path (active w) = segment_path (dir w) (seg_id (active w));
  wo_off : write_offset (active w) = blen (frames ps);
  wo_fits : fits (segs ++ [(seg_id (active w), ps)]);
}.

(** The files hold the records [rs]. *)
Definition log_holds w m (rs : list bytes) : Prop :=
  ∃ segs ps, wal_ok w m segs ps ∧ rs = wal_records segs ++ ps.

(** The log holds the records [rs] and nobody is committing. *)
Definition wal_holds w m (rs : list bytes) : Prop := log_holds w m rs ∧ coord_idle (coord w).

Lemma log_holds_coord c w m rs : log_holds w m rs → log_holds (set_coord c w) m rs.
Proof. intros (segs & ps & [] & ->). exists segs, ps. by split. Qed.

(** What an append leaves alone. *)
Definition same_config w w' : Prop :=
  dir w' = dir w ∧ durability w' = durability w ∧ segment_size w' = segment_size w.

#[global] Instance same_config_preorder : PreOrder same_config.
Proof. split; [done|]. intros w1 w2 w3 (?&?&?) (?&?&?). split_and!; congruence. Qed.

Lemma seg_bytes_snoc segs i ps :
  seg_bytes (segs ++ [(i, ps)]) = seg_bytes segs ++ [(i, frames ps)].
Proof. by rewrite seg_bytes_app. Qed.

Lemma wo_active w m segs ps :
  wal_ok w m segs ps → m !! seg_path (active w) = Some (frames ps).
Proof.
  intros Hw. rewrite (wo_path _ _ _ _ Hw). apply (sf_file _ _ _ (wo_files _ _ _ _ Hw)).
  rewrite seg_bytes_snoc. in_list.
Qed.

(** One frame reaches the active segment. *)
Lemma segment_append_ok w m segs ps p :
  wal_ok w m segs ps → small p → blen (frames (ps ++ [p])) ≤ u64_max →
  ∃ w' m', zoom active set_active (Segment.append (Frame.encode p)) (w, m) = (Ok (), (w', m')) ∧
    wal_ok w' m' segs (ps ++ [p]) ∧ same_config w w' ∧ coord w' = coord w ∧
    seg_id (active w') = seg_id (active w).
Proof.
  intros Hw Hp Hmax. unfold zoom, Segment.append. rewrite bind_run. simpl.
  rewrite bind_run. simpl. unfold mem_append, mem_file. rewrite (wo_active _ _ _ _ Hw).
  do 2 eexists. split; [done|]. split_and!; [|done..].
  destruct Hw as [Hf Hpath Hoff Hfit]. rewrite seg_bytes_snoc in Hf.
  split; simpl; [|done| |].
  - rewrite seg_bytes_snoc, frames_snoc, Hpath. by eapply seg_files_update.
  - rewrite Hoff, frames_snoc, blen_app. unfold u64_add. apply u64_wrap_id.
    rewrite frames_snoc, blen_app in Hmax. unfold u64_max in Hmax.
    pose proof (blen_nonneg (frames ps)). pose proof (blen_nonneg (Frame.encode p)). lia.
  - intros j qs [Hin|[= -> ->]%list_elem_of_singleton]%elem_of_app.
    + apply (Hfit j qs). in_list.
    + split; [|done]. apply Forall_app. split; [|by constructor].
      apply (Hfit (seg_id (active w)) ps). in_list.
Qed.

Lemma segment_sync_ok w m segs ps :
  wal_ok w m segs ps → zoom active set_active Segment.sync (w, m) = (Ok (), (w, m)).
Proof.
  intros Hw. unfold zoom, Segment.sync. rewrite bind_run. simpl.
  unfold mem_sync_file, mem_file. rewrite (wo_active _ _ _ _ Hw). by destruct w.
Qed.

Lemma wo_id w m segs ps : wal_ok w m segs ps → 0 ≤ seg_id (active w) < 2 ^ 64.
Proof.
  intros Hw. eapply (sf_range _ _ _ (wo_files _ _ _ _ Hw)). rewrite seg_bytes_snoc. in_list.
Qed.

Lemma wo_lt w m segs ps j :
  wal_ok w m segs ps → j ∈ (seg_bytes (segs ++ [(seg_id (active w), ps)])).*1 →
  j ≤ seg_id (active w).
Proof.
  intros Hw. pose proof (wo_files _ _ _ _ Hw) as Hf. rewrite seg_bytes_snoc in *.
  intros [Hj| ->]%elem_of_fst_snoc; [|done]. apply Z.lt_le_incl.
  by eapply seg_files_snoc_lt.
Qed.

(** A fresh, empty segment becomes the active one. *)
Lemma fresh_wal_ok w m segs ps i :
  wal_ok w m segs ps → seg_id (active w) < i < 2 ^ 64 →
  m !! segment_path (dir w) i = None ∧
  wal_ok (set_active (mkSegment i (segment_path (dir w) i) 0) w) (<[segment_path (dir w) i := []]> m)
    (segs ++ [(seg_id (active w), ps)]) [].
Proof.
  intros Hw Hi. pose proof (wo_id _ _ _ _ Hw).
  assert (Hlt : ∀ j, j ∈ (seg_bytes (segs ++ [(seg_id (active w), ps)])).*1 → j < i).
  { intros j Hj. pose proof (wo_lt _ _ _ _ _ Hw Hj). lia. }
  split; [apply (seg_files_fresh _ _ _ i (wo_files _ _ _ _ Hw)); (done || lia)|].
  destruct Hw as [Hf Hpath Hoff Hfit]. split; simpl; [|done..|].
  - rewrite seg_bytes_snoc. apply seg_files_new; [done|done|lia].
  - intros j qs [Hin|[= -> ->]%list_elem_of_singleton]%elem_of_app; [by apply (Hfit j qs)|].
    split; [done|]. by unfold u64_max.
Qed.
Lemma fresh_segment_ok w m segs ps i :
  wal_ok w m segs ps → seg_id (active w) < i < 2 ^ 64 →
  ∃ m', Segment.create (dir w) i m = (Ok (mkSegment i (segment_path (dir w) i) 0), m') ∧
        wal_ok (set_active (mkSegment i (segment_path (dir w) i) 0) w) m'
          (segs ++ [(seg_id (active w), ps)]) [].
Proof.
  intros Hw Hi. destruct (fresh_wal_ok w m segs ps i Hw Hi) as [Hn Hw']. eexists. split; [|exact Hw'].
  unfold Segment.create. rewrite bind_run. simpl. unfold mem_create. by rewrite Hn.
Qed.

Lemma maybe_rotate_ok w m rs :
  log_holds w m rs → seg_id (active w) + 1 < 2 ^ 64 →
  ∃ w' m', maybe_rotate (w, m) = (Ok (), (w', m')) ∧
    log_holds w' m' rs ∧ same_config w w' ∧ coord w' = coord w ∧
    seg_id (active w') ≤ seg_id (active w) + 1.
Proof.
  intros (segs & ps & Hw & ->) Hid. pose proof (wo_id _ _ _ _ Hw).
  unfold maybe_rotate. erewrite bind_ok by done. case_decide.
  { do 2 eexists. split; [done|]. split_and!; [|done..|lia]. by exists segs, ps. }
  erewrite bind_ok by by eapply segment_sync_ok.
  unfold u64_add. rewrite u64_wrap_id by lia.
  destruct (fresh_segment_ok _ _ _ _ (seg_id (active w) + 1) Hw) as (m' & Hc & Hw'); [lia|].
  erewrite bind_ok by by apply on_snd_run. erewrite bind_ok by done.
  do 2 eexists. split; [done|]. split_and!; [|done..].
  exists (segs ++ [(seg_id (active w), ps)]), []. split; [done|].
  rewrite wal_records_app. unfold wal_records at 3. simpl. by rewrite !app_nil_r.
Qed.
(** Room for one more record: sizes and counters stay inside [u64]. *)
Definition room w (rs : list bytes) (p : bytes) : Prop :=
  small p ∧ blen (frames (rs ++ [p])) ≤ u64_max ∧
  seg_id (active w) + 1 < 2 ^ 64 ∧ next_seq (coord w) + 1 < 2 ^ 64.

Lemma blen_frames_app rs1 rs2 : blen (frames (rs1 ++ rs2)) = blen (frames rs1) + blen (frames rs2).
Proof. by rewrite frames_app, blen_app. Qed.

Lemma append_then_rotate w m rs p :
  log_holds w m rs → small p → blen (frames (rs ++ [p])) ≤ u64_max →
  seg_id (active w) + 1 < 2 ^ 64 →
  ∃ w' m', (_ ← zoom active set_active (Segment.append (Frame.encode p)); maybe_rotate) (w, m)
             = (Ok (), (w', m')) ∧
           (_ ← zoom active set_active (Segment.append (Frame.encode p));
            _ ← zoom active set_active Segment.sync; maybe_rotate) (w, m) = (Ok (), (w', m')) ∧
    log_holds w' m' (rs ++ [p]) ∧ same_config w w' ∧ coord w' = coord w ∧
    seg_id (active w') ≤ seg_id (active w) + 1.
Proof.
  intros (segs & ps & Hw & ->) Hp Hmax Hid.
  destruct (segment_append_ok w m segs ps p Hw Hp) as (w1 & m1 & Ha & Hw1 & Hc1 & Hco1 & Hi1).
  { rewrite <- app_assoc, blen_frames_app in Hmax. pose proof (blen_nonneg (frames (wal_records segs))). lia. }
  destruct (maybe_rotate_ok w1 m1 (wal_records segs ++ ps ++ [p])) as (w2 & m2 & Hr & Hw2 & Hc2 & Hco2 & Hi2).
  { by exists segs, (ps ++ [p]). }
  { by rewrite Hi1. }
  exists w2, m2. split_and!.
  - by erewrite bind_ok by exact Ha.
  - erewrite bind_ok by exact Ha. by erewrite bind_ok by by eapply segment_sync_ok.
  - by rewrite <- app_assoc.
  - by etrans.
  - congruence.
  - lia.
Qed.

(** At most one segment and one sequence number are used up. *)
Definition small_step w w' : Prop :=
  seg_id (active w') ≤ seg_id (active w) + 1 ∧
  next_seq (coord w') ≤ next_seq (coord w) + 1.

Lemma write_batch_one {S} `{!Storage S} (seq : Z) (f : bytes) (x : Wal * S) :
  write_batch [(seq, f)] x =
  (_ ← zoom active set_active (Segment.append f);
   _ ← zoom active set_active Segment.sync; maybe_rotate) x.
Proof. unfold write_batch. simpl for_each. by rewrite bind_assoc. Qed.

Lemma commit_group_ok w m rs p :
  wal_holds w m rs → room w rs p →
  ∃ w' m', commit_group (Frame.encode p) (w, m) = (Ok (), (w', m')) ∧
    wal_holds w' m' (rs ++ [p]) ∧ same_config w w' ∧ small_step w w'.
Proof.
  intros (Hw & Hq & Hl & Hs) (Hp & Hmax & Hid & Hn).
  unfold commit_group. erewrite bind_ok by done. unfold enqueue. rewrite Hq, Hl. simpl app.
  unfold u64_add. rewrite u64_wrap_id by lia. cbn beta iota. erewrite bind_ok by done.
  simpl. rewrite decide_False by lia. unfold take_batch. simpl. erewrite bind_ok by done.
  set (w0 := set_coord _ (set_coord _ w)).
  destruct (append_then_rotate w0 m rs p) as (w1 & m1 & _ & H1 & Hw1 & Hc1 & Hco1 & Hi1); try done.
  { unfold w0. by do 2 apply log_holds_coord. }
  erewrite bind_ok by (unfold attempt; by rewrite write_batch_one, H1).
  erewrite bind_ok by done. do 2 eexists. split; [done|]. split; [|split].
  - split; [by apply log_holds_coord|]. rewrite Hco1. unfold coord_idle, publish, highest. simpl.
    split_and!; [done..|lia|lia].
  - by etrans; [|exact Hc1].
  - split; simpl; [exact Hi1|rewrite Hco1; simpl; lia].
Qed.

(** Under each durability contract [append] returns [Ok], the log holds the
    old records and then the new one, whether or not the segment rotated. *)
Lemma append_ok w m rs p :
  wal_holds w m rs → room w rs p →
  ∃ w' m', Wal.append p (w, m) = (Ok (), (w', m')) ∧
    wal_holds w' m' (rs ++ [p]) ∧ same_config w w' ∧ small_step w w'.
Proof.
  intros Hw Hroom. unfold Wal.append. erewrite bind_ok by done.
  destruct (durability w) eqn:Hd; [|by apply commit_group_ok|];
    destruct Hw as [Hw Hco], Hroom as (Hp & Hmax & Hid & _);
    destruct (append_then_rotate w m rs p) as (w1 & m1 & H1 & H2 & Hw1 & Hc1 & Hco1 & Hi1); try done;
    exists w1, m1; (split; [assumption|]); (split; [split; [done|by rewrite Hco1]|]);
    (split; [done|]); (split; [done|rewrite Hco1; lia]).
Qed.

Lemma foldl_max (l : list Z) x y : (∀ z, z ∈ l → z ≤ y) → x ≤ y → y ∈ x :: l → foldl Z.max x l = y.
Proof.
  revert x. induction l as [|z l IH]; intros x Hl Hx Hin; simpl.
  - by apply list_elem_of_singleton in Hin.
  - apply IH; [intros; apply Hl; by right| |].
    + assert (z ≤ y) by (apply Hl; by left). lia.
    + assert (z ≤ y) by (apply Hl; by left).
      apply elem_of_cons. apply elem_of_cons in Hin as [?|[?|]%elem_of_cons]; [left; lia|left; lia|by right].
Qed.

(** The next id is above every segment of the directory. *)
Lemma next_segment_id_ok w m segs ps :
  wal_ok w m segs ps → seg_id (active w) + 1 < 2 ^ 64 →
  next_segment_id (seg_entry (dir w) <$> (seg_bytes (segs ++ [(seg_id (active w), ps)])).*1)
  = seg_id (active w) + 1.
Proof.
  intros Hw Hid. pose proof (wo_id _ _ _ _ Hw). unfold next_segment_id, u64_add.
  pose proof (λ j, wo_lt _ _ _ _ j Hw) as Hle. rewrite <- (list_fmap_compose (seg_entry _) fst).
  rewrite (list_fmap_ext _ id) by done. rewrite list_fmap_id.
  assert (Hin : seg_id (active w) ∈ (seg_bytes (segs ++ [(seg_id (active w), ps)])).*1).
  { rewrite seg_bytes_snoc. apply elem_of_fst_snoc. by right. }
  destruct ((seg_bytes _).*1) as [|x l]; [by apply elem_of_nil in Hin|].
  rewrite (foldl_max l x (seg_id (active w))); [apply u64_wrap_id; lia|..|done].
  - intros z Hz. apply Hle. by right.
  - apply Hle. by left.
Qed.

(** The segment a reset or a rotation moves to. *)
Definition next_active w : Segment :=
  mkSegment (seg_id (active w) + 1) (segment_path (dir w) (seg_id (active w) + 1)) 0.
(** The segments of an open log. *)
Definition open_segments w segs (ps : list bytes) : list (Z * bytes) := seg_bytes (segs ++ [(seg_id (active w), ps)]).

(** The steps of a [reset]. *)
Lemma reset_run w m segs ps :
  wal_ok w m segs ps → seg_id (active w) + 1 < 2 ^ 64 →
  let m1 := <[seg_path (next_active w) := []]> m in
  ∃ m2, for_each (seg_entry (dir w) <$> (open_segments w segs ps).*1) (λ ip, fs_delete ip.2) m1 = (Ok (), m2) ∧
    seg_files (dir w) m1 (open_segments w segs ps ++ [(seg_id (active w) + 1, [])]) ∧
    wal_ok (set_active (next_active w) w) m2 [] [] ∧
    reset (w, m) = (Ok (), (set_active (next_active w) w, m2)).
Proof.
  intros Hw Hid m1. unfold reset. erewrite bind_ok by done.
  erewrite bind_ok by (apply on_snd_run, list_segments_mem, (wo_files _ _ _ _ Hw)).
  rewrite (next_segment_id_ok _ _ _ _ Hw Hid). pose proof (wo_id _ _ _ _ Hw).
  destruct (fresh_wal_ok _ _ _ _ (seg_id (active w) + 1) Hw) as [Hn Hw1]; [lia|].
  assert (Hf1 : seg_files (dir w) m1 (open_segments w segs ps ++ [(seg_id (active w) + 1, [])])).
  { pose proof (wo_files _ _ _ _ Hw1) as Hf. by rewrite seg_bytes_snoc in Hf. }
  destruct (delete_segments_mem _ _ _ _ Hf1) as (m2 & Hd & Hf2). exists m2. split; [exact Hd|]. split; [exact Hf1|].
  split.
  - split; simpl; [done..|]. intros j qs [= -> ->]%list_elem_of_singleton. split; [done|]. by unfold u64_max.
  - erewrite bind_ok.
    2:{ apply on_snd_run. unfold Segment.create. rewrite bind_run. simpl. unfold mem_create. by rewrite Hn. }
    erewrite bind_ok by done. erewrite bind_ok by (apply on_snd_run; exact Hd). by erewrite bind_ok by done.
Qed.

(** [reset] leaves an open log with no records. *)
Lemma reset_ok w m rs :
  wal_holds w m rs → seg_id (active w) + 1 < 2 ^ 64 →
  ∃ w' m', reset (w, m) = (Ok (), (w', m')) ∧ wal_holds w' m' [] ∧ same_config w w' ∧
    seg_id (active w') = seg_id (active w) + 1 ∧ coord w' = coord w.
Proof.
  intros [(segs & ps & Hw & ->) Hco] Hid. destruct (reset_run w m segs ps Hw Hid) as (m2 & _ & _ & Hw2 & Hr).
  do 2 eexists. split; [exact Hr|]. split_and!; [|done..]. split; [|done]. by exists [], [].
Qed.

(** ** Opening *)

Lemma parse_tmp_path d i : parse_segment_id (tmp_path d i) = None.
Proof.
  unfold parse_segment_id, tmp_path. rewrite file_name_join. cbn [mbind option_bind].
  destruct (strip_suffix SUFFIX _) as [r|] eqn:E; [|done].
  apply strip_suffix_Some in E. apply (f_equal (λ l, last l)) in E.
  rewrite !last_app in E. vm_compute in E. done.
Qed.

(** The rewrite that drops a torn tail leaves the valid prefix under the
    segment's name and touches no other segment. *)
Lemma truncate_tail_ok d m fs i b n :
  seg_files d m (fs ++ [(i, b)]) → 0 ≤ n < blen b →
  ∃ m', truncate_tail d i n m = (Ok (), m') ∧
        seg_files d m' (fs ++ [(i, take (Z.to_nat n) b)]).
Proof.
  intros Hsf Hn. pose proof (seg_files_snoc_inv _ _ _ _ _ Hsf) as (Hb & Hi & _).
  set (p := segment_path d i) in *. set (tmp := tmp_path d i).
  assert (Hne : p ≠ tmp).
  { intros E. pose proof (parse_tmp_path d i) as Ht. fold tmp in Ht.
    rewrite <- E in Ht. unfold p in Ht. by rewrite parse_segment_path in Ht. }
  unfold truncate_tail. fold p tmp.
  erewrite bind_ok by (simpl; unfold mem_len, mem_file; by rewrite Hb).
  rewrite decide_False by lia.
  erewrite bind_ok by apply read_all_mem. rewrite Hb. cbn [default id].
  erewrite bind_ok by (unfold of_outcome, slice; by rewrite decide_True by lia).
  rewrite Z.sub_0_r, drop_0. set (keep := take _ b).
  assert (∃ m1, ignore_err (E':=StorageError) (fs_delete tmp) m = (Ok (), m1) ∧ m1 = delete tmp m)
    as (m1 & Hd & ->).
  { exists (delete tmp m). split; [|done]. unfold ignore_err. simpl. unfold mem_delete, mem_file.
    destruct (m !! tmp) eqn:E; [done|]. by rewrite delete_id. }
  erewrite bind_ok by exact Hd.
  erewrite bind_ok by (simpl; unfold mem_create; by rewrite lookup_delete_eq).
  erewrite bind_ok by (simpl; unfold mem_append, mem_file; by rewrite lookup_insert_eq).
  rewrite insert_insert_eq, insert_delete_eq. simpl app.
  erewrite bind_ok by (simpl; unfold mem_sync_file, mem_file; by rewrite lookup_insert_eq).
  erewrite bind_ok by (simpl; unfold mem_rename, mem_file; by rewrite lookup_insert_eq).
  rewrite decide_False by done. eexists. split; [done|].
  eapply seg_files_ext; [|by apply (seg_files_update d m fs i b keep)].
  intros q Hc Hq. assert (tmp ≠ q).
  { intros <-. unfold tmp in Hq. rewrite parse_tmp_path in Hq. by destruct Hq. }
  rewrite lookup_delete_ne by done. fold p.
  destruct (decide (p = q)) as [<-|]; rewrite ?lookup_insert_eq, ?lookup_insert_ne by done; done.
Qed.

Lemma wal_ok_opened d m segs i ps o :
  seg_files d m (seg_bytes (segs ++ [(i, ps)])) → fits (segs ++ [(i, ps)]) →
  wal_holds (mkWal d (opt_durability o) (opt_segment_size o)
    (mkSegment i (segment_path d i) (blen (frames ps))) coord_default) m (wal_records segs ++ ps).
Proof. intros Hsf Hf. split; [|done]. exists segs, ps. by split. Qed.

(** Opening an empty directory gives an empty, open log. *)
Lemma open_empty d m o :
  seg_files d m [] →
  ∃ w m', Wal.open d o m = (Ok (w, recovered_default), m') ∧ wal_holds w m' [] ∧
    w = mkWal d (opt_durability o) (opt_segment_size o)
          (mkSegment 1 (segment_path d 1) 0) coord_default.
Proof.
  intros Hsf. pose proof (list_segments_mem _ _ _ Hsf) as Hl. simpl in Hl.
  unfold Wal.open, recover. rewrite bind_assoc. erewrite bind_ok by exact Hl.
  simpl recover_loop. rewrite bind_ret. simpl. rewrite bind_ret.
  erewrite bind_ok by exact Hl. simpl. rewrite bind_assoc. unfold Segment.create at 1.
  rewrite bind_assoc. erewrite bind_ok.
  2:{ simpl. unfold mem_create. rewrite (seg_files_fresh d m [] 1 Hsf); [done| |lia].
      intros j Hj. by apply elem_of_nil in Hj. }
  do 2 eexists. split; [done|]. split; [|done].
  apply (wal_ok_opened d _ [] 1 [] o).
  - apply (seg_files_new d m []); [done| |lia]. intros j Hj. by apply elem_of_nil in Hj.
  - intros j qs [= -> ->]%list_elem_of_singleton. split; [done|]. by unfold u64_max.
Qed.

(** Opening returns the records of every segment and of the valid prefix of
    the last one, in order, and leaves a log that holds exactly those. *)
Lemma open_ok d m segs i b ps n reason o :
  seg_files d m (seg_bytes segs ++ [(i, b)]) → fits segs → blen b ≤ u64_max →
  scan_buffer (E:=StorageError) b [] = Ok (ps, (n, reason)) →
  ∃ w m', Wal.open d o m =
      (Ok (w, mkRecovered (wal_records segs ++ ps) (Some i) n reason), m') ∧
    wal_holds w m' (wal_records segs ++ ps) ∧
    w = mkWal d (opt_durability o) (opt_segment_size o)
          (mkSegment i (segment_path d i) (blen (frames ps))) coord_default.
Proof.
  intros Hsf Hf Hb Hsc. unfold Wal.open. erewrite bind_ok by by eapply recover_mem.
  cbn [stop_reason tail_segment tail_valid_len records].
  apply scan_sound in Hsc as (ps' & post & E & -> & -> & Hclean & Hs). simpl in E. subst ps'.
  assert (Hfit : fits (segs ++ [(i, ps)])).
  { intros j qs [Hin|[= -> ->]%list_elem_of_singleton]%elem_of_app; [by apply (Hf j qs)|].
    split; [done|]. rewrite blen_app in Hb. pose proof (blen_nonneg post). lia. }
  assert (∃ m1, (if decide (reason ≠ Clean)
                 then truncate_tail d i (blen (frames ps)) else mret ()) m = (Ok (), m1) ∧
            seg_files d m1 (seg_bytes (segs ++ [(i, ps)]))) as (m1 & Ht & Hsf1).
  { rewrite seg_bytes_snoc. case_decide as Hr.
    - destruct (truncate_tail_ok d m (seg_bytes segs) i (frames ps ++ post) (blen (frames ps)))
        as (m1 & Ht & Hsf1); [done| |].
      + assert (post ≠ []) by tauto. destruct post; [done|].
        rewrite blen_app, blen_cons. pose proof (blen_nonneg post). pose proof (blen_nonneg (frames ps)). lia.
      + exists m1. split; [done|]. by rewrite take_app_prefix in Hsf1 by (unfold blen; lia).
    - exists m. split; [done|]. assert (post = []) as -> by tauto. by rewrite app_nil_r in Hsf. }
  erewrite bind_ok by exact Ht. erewrite bind_ok by by apply list_segments_mem.
  rewrite seg_bytes_fst, !fmap_app. simpl. rewrite last_snoc. simpl.
  unfold Segment.open at 1. rewrite bind_assoc.
  assert (Hm1 : m1 !! segment_path d i = Some (frames ps)).
  { apply (sf_file _ _ _ Hsf1). rewrite seg_bytes_snoc. in_list. }
  erewrite bind_ok by (simpl; unfold mem_len, mem_file; by rewrite Hm1).
  do 2 eexists. split; [done|]. split; [|done]. by apply wal_ok_opened.
Qed.

(** ** What a killed process leaves *)

(** The segments in [d], the last one numbered [i] and possibly torn, hold [rs]. *)
Inductive log_on_disk d m : list bytes → Z → Prop :=
  | log_none : seg_files d m [] → log_on_disk d m [] 1
  | log_some segs i b ps n reason :
      seg_files d m (seg_bytes segs ++ [(i, b)]) → fits segs → blen b ≤ u64_max →
      scan_buffer (E:=StorageError) b [] = Ok (ps, (n, reason)) →
      log_on_disk d m (wal_records segs ++ ps) i.

Lemma open_log_ok d m rs i o :
  log_on_disk d m rs i →
  ∃ w r m', Wal.open d o m = (Ok (w, r), m') ∧ records r = rs ∧ wal_holds w m' rs ∧
    dir w = d ∧ coord w = coord_default ∧ seg_id (active w) = i ∧ durability w = opt_durability o.
Proof.
  intros [Hf|segs j b ps n reason Hf Hfit Hb Hsc].
  - destruct (open_empty d m o Hf) as (w & m' & Ho & Hw & ->). by do 3 eexists.
  - destruct (open_ok d m segs j b ps n reason o Hf Hfit Hb Hsc) as (w & m' & Ho & Hw & ->).
    by do 3 eexists.
Qed.

Lemma log_holds_disk w m rs : log_holds w m rs → log_on_disk (dir w) m rs (seg_id (active w)).
Proof.
  intros (segs & ps & Hw & ->). pose proof (wo_files _ _ _ _ Hw) as Hf. rewrite seg_bytes_snoc in Hf.
  destruct (wo_fits _ _ _ _ Hw (seg_id (active w)) ps) as [Hs Hmax]; [in_list|].
  eapply log_some; [exact Hf| |exact Hmax|by rewrite scan_clean].
  intros j qs Hin. apply (wo_fits _ _ _ _ Hw j qs). in_list.
Qed.

Lemma wal_holds_disk w m rs : wal_holds w m rs → log_on_disk (dir w) m rs (seg_id (active w)).
Proof. intros [Hw _]. by apply log_holds_disk. Qed.

(** The append of [p] reached the disk up to its [n]th byte. *)
Lemma torn_append w m rs p n :
  log_holds w m rs → small p → blen (frames (rs ++ [p])) ≤ u64_max →
  ∃ b, m !! seg_path (active w) = Some b ∧
    log_on_disk (dir w) (<[seg_path (active w) := b ++ take n (Frame.encode p)]> m)
      (if decide (n < length (Frame.encode p))%nat then rs else rs ++ [p]) (seg_id (active w)).
Proof.
  intros (segs & ps & Hw & ->) Hp Hmax. exists (frames ps). split; [by apply (wo_active _ _ segs)|].
  pose proof (wo_files _ _ _ _ Hw) as Hf. rewrite seg_bytes_snoc in Hf.
  destruct (wo_fits _ _ _ _ Hw (seg_id (active w)) ps) as [Hs _]; [in_list|].
  assert (Hfit : fits segs) by (intros j qs Hin; apply (wo_fits _ _ _ _ Hw j qs); in_list).
  rewrite <- (assoc_L (++)), blen_frames_app, frames_snoc, blen_app in Hmax.
  pose proof (blen_nonneg (frames (wal_records segs))).
  apply (seg_files_update _ _ _ _ _ (frames ps ++ take n (Frame.encode p))) in Hf.
  rewrite <- (wo_path _ _ _ _ Hw) in Hf.
  assert (Hlen : blen (frames ps ++ take n (Frame.encode p)) ≤ u64_max).
  { rewrite blen_app. assert (blen (take n (Frame.encode p)) ≤ blen (Frame.encode p)); [|lia].
    unfold blen. rewrite length_take. lia. }
  case_decide as Hn; [destruct (decide (n = 0%nat)) as [->|Hn0]|].
  - rewrite take_0, app_nil_r in *. eapply log_some; [exact Hf|done..|by rewrite scan_clean].
  - eapply log_some; [exact Hf|done..|]. rewrite scan_torn; [done..|rewrite blen_app; lia|lia].
  - rewrite take_ge in * by lia. rewrite <- (assoc_L (++)). eapply log_some; [exact Hf|done..|].
    rewrite <- frames_snoc in *. rewrite scan_clean; [done| |done]. apply Forall_app. by split; [|constructor].
Qed.
End wal_ok.

(** * The contract, on every backend *)

(** A caller that appends the records [rs] one after the other. *)
Definition append_all `{!Crc32} {S} `{!Storage S} (rs : list bytes) : M (Wal * S) StorageError () :=
  for_each rs Wal.append.

Section contract.
Context `{!Crc32, !Crc32Laws} {S : Type} `{!Storage S, !StorageSpec S}.
Implicit Types (s : S) (m : memfs) (w : Wal).

Lemma append_all_ok w m rs0 rs :
  wal_holds w m rs0 → Forall small rs → blen (frames (rs0 ++ rs)) ≤ u64_max →
  seg_id (active w) + blen rs < 2 ^ 64 → next_seq (coord w) + blen rs < 2 ^ 64 →
  ∃ w' m', append_all rs (w, m) = (Ok (), (w', m')) ∧ wal_holds w' m' (rs0 ++ rs) ∧
           same_config w w'.
Proof.
  revert w m rs0. induction rs as [|p rs IH]; intros w m rs0 Hw Hs Hmax Hid Hseq.
  { exists w, m. by rewrite app_nil_r. }
  apply Forall_cons in Hs as [Hp Hs]. rewrite blen_cons in Hid, Hseq.
  pose proof (blen_nonneg rs).
  destruct (append_ok w m rs0 p Hw) as (w1 & m1 & Ha & Hw1 & Hc1 & Hi1 & Hn1).
  { split_and!; [done| |lia..]. rewrite cons_middle, app_assoc, blen_frames_app in Hmax.
    pose proof (blen_nonneg (frames rs)). lia. }
  destruct (IH w1 m1 (rs0 ++ [p]) Hw1 Hs) as (w2 & m2 & Ha2 & Hw2 & Hc2);
    [by rewrite <- app_assoc|lia..|].
  exists w2, m2. split_and!; [|by rewrite <- app_assoc in Hw2|by etrans].
  unfold append_all. simpl. erewrite bind_ok by exact Ha. exact Ha2.
Qed.

(** Closing (or killing) the process and opening again recovers the log. *)
Lemma reopen_ok w m rs :
  wal_holds w m rs → ∀ o, ∃ w' m' r, Wal.open (dir w) o m = (Ok (w', r), m') ∧
    records r = rs ∧ stop_reason r = Clean ∧ wal_holds w' m' rs.
Proof.
  intros [(segs & ps & Hw & ->) _] o. pose proof (wo_files _ _ _ _ Hw) as Hf.
  rewrite seg_bytes_snoc in Hf.
  destruct (wo_fits _ _ _ _ Hw (seg_id (active w)) ps) as [Hs Hmax]; [in_list|].
  destruct (open_ok (dir w) m segs (seg_id (active w)) (frames ps) ps (blen (frames ps)) Clean o Hf)
    as (w' & m' & Ho & Hw' & _).
  - intros j qs Hin. apply (wo_fits _ _ _ _ Hw j qs). in_list.
  - done.
  - by rewrite scan_clean.
  - do 3 eexists. split; [exact Ho|]. done.
Qed.

(** C10: on every backend and under each of the three durability contracts,
    [append] returns [Ok] and the log then holds the old records followed by the
    new one, whether or not the segment rotated. *)
Theorem wal_append s m w rs p :
  st_view s m → wal_holds w m rs → room w rs p →
  ∃ w' s' m', Wal.append p (w, s) = (Ok (), (w', s')) ∧ st_view s' m' ∧
    wal_holds w' m' (rs ++ [p]) ∧ same_config w w'.
Proof.
  intros Hv Hw Hroom. destruct (append_ok w m rs p Hw Hroom) as (w' & m' & Ha & Hw' & Hc & _).
  destruct (msim_same_run st_view (Wal.append p) _ w s m _ _ _ (wal_append_sim p) Hv Ha)
    as (s' & Ha' & Hv'). eauto 10.
Qed.

(** C11: opening a log whose last segment ends in garbage returns the records of
    all segments and of that segment's longest valid prefix, in order; the tail
    is cut off, and the log left open holds exactly the returned records. *)
Theorem wal_open_torn s m d segs i b ps n reason o :
  st_view s m → seg_files d m (seg_bytes segs ++ [(i, b)]) → fits segs → blen b ≤ u64_max →
  scan_buffer (E:=StorageError) b [] = Ok (ps, (n, reason)) →
  ∃ w s' m' r, Wal.open d o s = (Ok (w, r), s') ∧ st_view s' m' ∧
    records r = wal_records segs ++ ps ∧ stop_reason r = reason ∧
    wal_holds w m' (wal_records segs ++ ps).
Proof.
  intros Hv Hf Hfit Hb Hsc.
  destruct (open_ok d m segs i b ps n reason o Hf Hfit Hb Hsc) as (w & m' & Ho & Hw & _).
  destruct (msim_run st_view (Wal.open d o) _ s m _ _ (wal_open_sim d o) Hv Ho) as (s' & Ho' & Hv').
  do 4 eexists. split_and!; [exact Ho'|exact Hv'|done..].
Qed.

(** A log opened on a directory without segments, given any records, and
    opened again returns those records in order. *)
Theorem wal_reopen s m d o1 o2 rs :
  st_view s m → seg_files d m [] → Forall small rs → blen (frames rs) ≤ u64_max →
  1 + blen rs < 2 ^ 64 →
  ∃ w1 s1 w2 s2 w3 r s3,
    Wal.open d o1 s = (Ok (w1, recovered_default), s1) ∧
    append_all rs (w1, s1) = (Ok (), (w2, s2)) ∧
    Wal.open d o2 s2 = (Ok (w3, r), s3) ∧ records r = rs ∧ stop_reason r = Clean.
Proof.
  intros Hv Hf Hs Hmax Hlen.
  destruct (open_empty d m o1 Hf) as (w1 & m1 & Ho1 & Hw1 & E1).
  destruct (append_all_ok w1 m1 [] rs Hw1 Hs Hmax) as (w2 & m2 & Ha & Hw2 & Hd & _);
    [subst w1; simpl; lia..|].
  destruct (reopen_ok w2 m2 rs Hw2 o2) as (w3 & m3 & r & Ho3 & Hr & Hst & _).
  rewrite Hd in Ho3. subst w1. simpl in Ho3.
  destruct (msim_run st_view (Wal.open d o1) _ s m _ _ (wal_open_sim d o1) Hv Ho1) as (s1 & ? & Hv1).
  destruct (msim_same_run st_view (append_all rs) (append_all rs) _ s1 m1 _ _ _
    (msim_for_each _ _ _ _ (wal_append_sim (S:=S))) Hv1 Ha) as (s2 & ? & Hv2).
  destruct (msim_run st_view (Wal.open d o2) _ s2 m2 _ _ (wal_open_sim d o2) Hv2 Ho3) as (s3 & ? & _).
  do 7 eexists. eauto.
Qed.

(** [reset] empties the log: it returns [Ok], the log stays open with no
    records and its next appends go to a segment above every earlier one. *)
Theorem wal_reset s m w rs :
  st_view s m → wal_holds w m rs → seg_id (active w) + 1 < 2 ^ 64 →
  ∃ w' s' m', reset (w, s) = (Ok (), (w', s')) ∧ st_view s' m' ∧ wal_holds w' m' [] ∧
    same_config w w' ∧ seg_id (active w') = seg_id (active w) + 1.
Proof.
  intros Hv Hw Hid. destruct (reset_ok w m rs Hw Hid) as (w' & m' & Ha & Hw' & Hc & Hs & _).
  destruct (msim_same_run st_view reset _ w s m _ _ _ reset_sim Hv Ha)
    as (s' & Ha' & Hv'). eauto 10.
Qed.
End contract.

(** ** Concrete logs *)

#[local] Existing Instance Sample.crc.
#[local] Existing Instance Sample.crc_laws.

Definition sample_wal_options : WalOptions := mkWalOptions GroupCommit 16.

Lemma no_segments d : seg_files d ∅ [].
Proof. split; [constructor|by intros ? ? ?%elem_of_nil..|]. intros p i Hp _ _. rewrite lookup_empty in Hp. by destruct Hp. Qed.

(** A log with one record, in segments that rotate at every append. *)
Lemma sample_log :
  ∃ w (m : memfs), wal_holds w m [lit "one"] ∧ seg_id (active w) ≤ 2 ∧ next_seq (coord w) ≤ 1.
Proof.
  destruct (open_empty [lit "d"] ∅ sample_wal_options (no_segments _)) as (w & m & _ & Hw & ->).
  destruct (append_ok _ m [] (lit "one") Hw) as (w' & m' & _ & Hw' & _ & Hi & Hn); [done|].
  exists w', m'. split; [done|]. simpl in Hi, Hn. lia.
Qed.

Lemma wal_append_witness :
  ∃ w (m : memfs) w' s' m', wal_holds w m [lit "one"] ∧
    Wal.append (lit "two") (w, m) = (Ok (), (w', s')) ∧ st_view (S:=memfs) s' m' ∧
    wal_holds w' m' [lit "one"; lit "two"].
Proof.
  destruct sample_log as (w & m & Hw & Hi & Hn).
  destruct (wal_append (S:=memfs) m m w [lit "one"] (lit "two") (mem_view m) Hw) as (w' & s' & m' & Ha & Hv & Hw' & _).
  { split_and!; [done|done|lia|lia]. }
  exists w, m, w', s', m'. split; [exact Hw|]. split; [exact Ha|]. split; [exact Hv|exact Hw'].
Defined.

(** One segment, whose second frame lost its last byte. *)
Definition sample_torn : bytes := Frame.encode (lit "one") ++ take 10 (Frame.encode (lit "two")).
Definition sample_torn_dir : memfs := <[segment_path [lit "d"] 1 := sample_torn]> ∅.
Lemma wal_open_torn_witness :
  ∃ w s' m' r, Wal.open [lit "d"] sample_wal_options sample_torn_dir = (Ok (w, r), s') ∧
    st_view (S:=memfs) s' m' ∧ records r = [lit "one"] ∧ stop_reason r = Truncated.
Proof.
  destruct (wal_open_torn (S:=memfs) sample_torn_dir sample_torn_dir
    [lit "d"] [] 1 sample_torn [lit "one"] 11 Truncated sample_wal_options) as (w & s' & m' & r & Ho & Hv & Hr & Hs & _).
  - apply mem_view.
  - apply (seg_files_new [lit "d"] ∅ [] 1 sample_torn); [apply no_segments|by intros j ?%elem_of_nil|lia].
  - by intros ? ? ?%elem_of_nil.
  - done.
  - vm_compute. done.
  - exists w, s', m', r. split; [exact Ho|]. split; [exact Hv|]. split; [exact Hr|exact Hs].
Defined.

Lemma wal_reopen_witness :
  ∃ w1 s1 w2 s2 w3 r s3,
    Wal.open [lit "d"] sample_wal_options (∅ : memfs) = (Ok (w1, recovered_default), s1) ∧
    append_all [lit "one"; lit "two"] (w1, s1) = (Ok (), (w2, s2)) ∧
    Wal.open [lit "d"] sample_wal_options s2 = (Ok (w3, r), s3) ∧ records r = [lit "one"; lit "two"] ∧
    stop_reason r = Clean.
Proof.
  apply (wal_reopen (S:=memfs) ∅ ∅ [lit "d"] sample_wal_options sample_wal_options [lit "one"; lit "two"]).
  - apply mem_view.
  - apply no_segments.
  - by repeat constructor.
  - done.
  - done.
Defined.

Lemma wal_reset_witness :
  ∃ w (m : memfs) w' s' m', wal_holds w m [lit "one"] ∧ reset (w, m) = (Ok (), (w', s')) ∧
    st_view (S:=memfs) s' m' ∧ wal_holds w' m' [].
Proof.
  destruct sample_log as (w & m & Hw & Hi & Hn).
  destruct (wal_reset (S:=memfs) m m w [lit "one"] (mem_view m) Hw) as (w' & s' & m' & Ha & Hv & Hw' & _); [lia|].
  exists w, m, w', s', m'. split; [exact Hw|]. split; [exact Ha|]. split; [exact Hv|exact Hw'].
Defined.

End WalSpec.
