(* ===== verification/Memtable.v ===== *)
(** The in-memory write buffer ([src/memtable/mod.rs]): versioned values, one
    sorted table with its byte accounting, the set of one active and several
    frozen tables, the freeze, the removal of a flushed table by identity, and
    the snapshots a scan merges. *)
From S2P Require Export Bytes.

Module Memtable.

(** * Versioned values *)

Abbreviation Seq := Z.

Inductive ValueKind : Type := Value (v : bytes) | Tombstone.
Record InternalValue : Type := mkValue { seq : Seq; kind : ValueKind }.
Abbreviation Entry := (bytes * InternalValue)%type.

#[global] Instance value_kind_eq_dec : EqDecision ValueKind.
Proof. solve_decision. Defined.
#[global] Instance internal_value_eq_dec : EqDecision InternalValue.
Proof. solve_decision. Defined.

(** [InternalValue::value], [InternalValue::tombstone]. *)
Definition value (seq : Seq) (v : bytes) : InternalValue := mkValue seq (Value v).
Definition tombstone (seq : Seq) : InternalValue := mkValue seq Tombstone.

Definition is_tombstone (iv : InternalValue) : bool :=
  match kind iv with Tombstone => true | Value _ => false end.
Definition as_value (iv : InternalValue) : option bytes :=
  match kind iv with Value v => Some v | Tombstone => None end.
Definition payload_bytes (iv : InternalValue) : Z :=
  match kind iv with Value v => blen v | Tombstone => 0 end.

(** * One table *)

Record Memtable : Type := mkMemtable {
  map : gmap bytes InternalValue;
  approx_bytes : Z;
}.

Definition ENTRY_OVERHEAD : Z := 32.

(** [Memtable::new]. *)
Definition new : Memtable := mkMemtable ∅ 0.

(** [key.len() + val.payload_bytes() + ENTRY_OVERHEAD]. *)
Definition entry_bytes (key : bytes) (iv : InternalValue) : Z :=
  u64_add (u64_add (blen key) (payload_bytes iv)) ENTRY_OVERHEAD.

(** [Memtable::insert]. *)
Definition insert (key : bytes) (val : InternalValue) (t : Memtable) : Memtable :=
  let incoming := entry_bytes key val in
  mkMemtable (<[key := val]> (map t))
    (match map t !! key with
     | Some prev => u64_add (u64_sub (approx_bytes t) (entry_bytes key prev)) incoming
     | None => u64_add (approx_bytes t) incoming
     end).

(** [Memtable::insert_if_newer]. *)
Definition insert_if_newer (key : bytes) (val : InternalValue) (t : Memtable) : Memtable :=
  let incoming := entry_bytes key val in
  match map t !! key with
  | Some prev =>
      if decide (seq val ≤ seq prev) then t
      else mkMemtable (<[key := val]> (map t))
             (u64_add (u64_sub (approx_bytes t) (entry_bytes key prev)) incoming)
  | None => mkMemtable (<[key := val]> (map t)) (u64_add (approx_bytes t) incoming)
  end.

(** [Memtable::get], [len], [is_empty], [iter], [snapshot], [range_snapshot]. *)
Definition get (key : bytes) (t : Memtable) : option InternalValue := map t !! key.
Definition len (t : Memtable) : Z := Z.of_nat (size (map t)).
Definition is_empty (t : Memtable) : bool := bool_decide (map t = ∅).
Definition iter (t : Memtable) : list Entry := bt_iter (map t).
Definition snapshot (t : Memtable) : list Entry := (λ '(k, v), (k, v)) <$> bt_iter (map t).
Definition range_snapshot {E} (r : KeyRange bytes) (t : Memtable) : outcome E (list Entry) :=
  bt_range_checked r (map t).

(** * The set: one active table, several frozen ones *)

(** A frozen table is an [Arc]: its allocation's identity next to its contents,
    which no longer change. *)
Record Frozen : Type := mkFrozen { arc_id : Z; table : Memtable }.

(** [MemState] and the [max_bytes] of [MemtableSet]; [next_arc] numbers the
    allocations of [Arc::new]. *)
Record MemtableSet : Type := mkSet {
  active : Memtable;
  frozen : list Frozen;
  max_bytes : Z;
  next_arc : Z;
}.

(** [MemtableSet::new]. *)
Definition set_new (max_bytes : Z) : MemtableSet := mkSet new [] max_bytes 0.

(** [MemtableSet::insert], [MemtableSet::insert_if_newer]. *)
Definition set_insert (key : bytes) (val : InternalValue) (s : MemtableSet) : MemtableSet :=
  mkSet (insert key val (active s)) (frozen s) (max_bytes s) (next_arc s).
Definition set_insert_if_newer (key : bytes) (val : InternalValue) (s : MemtableSet) : MemtableSet :=
  mkSet (insert_if_newer key val (active s)) (frozen s) (max_bytes s) (next_arc s).

(** The newest-first walk over the frozen tables. *)
Fixpoint get_frozen (key : bytes) (newest_first : list Frozen) : option InternalValue :=
  match newest_first with
  | [] => None
  | f :: rest =>
      match get key (table f) with
      | Some v => Some v
      | None => get_frozen key rest
      end
  end.

(** [MemtableSet::get]. *)
Definition set_get (key : bytes) (s : MemtableSet) : option InternalValue :=
  match get key (active s) with
  | Some v => Some v
  | None => get_frozen key (reverse (frozen s))
  end.

(** [active_bytes], [is_full], [frozen_count]. *)
Definition active_bytes (s : MemtableSet) : Z := approx_bytes (active s).
Definition is_full (s : MemtableSet) : bool := bool_decide (max_bytes s ≤ active_bytes s).
Definition frozen_count (s : MemtableSet) : Z := blen (frozen s).

(** [freeze], [freeze_if_full]. *)
Definition freeze (s : MemtableSet) : Frozen * MemtableSet :=
  let f := mkFrozen (next_arc s) (active s) in
  (f, mkSet new (frozen s ++ [f]) (max_bytes s) (next_arc s + 1)).
Definition freeze_if_full (s : MemtableSet) : option Frozen * MemtableSet :=
  if is_empty (active s) || bool_decide (approx_bytes (active s) < max_bytes s)
  then (None, s)
  else let '(f, s) := freeze s in (Some f, s).

(** [discard_frozen]: remove by [Arc::ptr_eq]. *)
Definition discard_frozen (f : Frozen) (s : MemtableSet) : MemtableSet :=
  mkSet (active s) (filter (λ g, arc_id g ≠ arc_id f) (frozen s)) (max_bytes s) (next_arc s).

(** [scan_iters], [full_iters]: one bounded snapshot per table, the active one
    first. *)
Definition scan_iters {E} (r : KeyRange bytes) (s : MemtableSet) : outcome E (list (list Entry)) :=
  a ← range_snapshot r (active s);
  fs ← foldr (λ f acc, x ← range_snapshot r (table f); xs ← acc; Ok (x :: xs)) (Ok []) (frozen s);
  Ok (a :: fs).
Definition full_iters {E} (s : MemtableSet) : outcome E (list (list Entry)) :=
  scan_iters full_range s.

End Memtable.
