(* ===== verification/MemtableSpec.v ===== *)
(** What the write buffer promises: the byte count is the sum over the entries,
    applying writes in any order leaves the newest version of each key, freezing
    changes no read, a flushed table can be dropped once its contents are below. *)
From S2P Require Export Memtable.

Module Newest.
Import Memtable.

Abbreviation kvmap := (gmap bytes InternalValue).
Implicit Types m : kvmap.

(** The newer of two versions of a key; at equal sequence numbers the first. *)
Definition newer (x y : InternalValue) : InternalValue :=
  if decide (seq x < seq y) then y else x.

(** Newest-wins union, the first map preferred at equal sequence numbers. *)
Definition nunion (m1 m2 : kvmap) : kvmap := union_with (λ x y, Some (newer x y)) m1 m2.

(** The newest version of each key of a list of writes. *)
Definition newest (l : list Entry) : kvmap := foldr (λ kv m, nunion {[kv.1 := kv.2]} m) ∅ l.

(** Versions of one key differ in their sequence number. *)
Definition coherent (l : list Entry) : Prop :=
  ∀ k v w, (k, v) ∈ l → (k, w) ∈ l → seq v = seq w → v = w.

Lemma lookup_nunion m1 m2 k :
  nunion m1 m2 !! k = union_with (λ x y, Some (newer x y)) (m1 !! k) (m2 !! k).
Proof. apply lookup_union_with. Qed.

Lemma newer_assoc x y z : newer x (newer y z) = newer (newer x y) z.
Proof. unfold newer. repeat case_decide; try done; lia. Qed.
Lemma newer_idemp x : newer x x = x.
Proof. unfold newer. by case_decide. Qed.

#[global] Instance nunion_assoc : Assoc (=) nunion.
Proof.
  intros m1 m2 m3. apply map_eq. intros k. rewrite !lookup_nunion.
  destruct (m1 !! k), (m2 !! k), (m3 !! k); simpl; try done. by rewrite newer_assoc.
Qed.
#[global] Instance nunion_empty_l : LeftId (=) ∅ nunion.
Proof. intros m. apply map_eq. intros k. rewrite lookup_nunion, lookup_empty. by destruct (m !! k). Qed.
#[global] Instance nunion_empty_r : RightId (=) ∅ nunion.
Proof. intros m. apply map_eq. intros k. rewrite lookup_nunion, lookup_empty. by destruct (m !! k). Qed.

Lemma newest_app l1 l2 : newest (l1 ++ l2) = nunion (newest l1) (newest l2).
Proof.
  induction l1 as [|kv l1 IH]; simpl; [by rewrite (left_id_L ∅ nunion)|].
  by rewrite IH, (assoc_L nunion).
Qed.

Lemma newest_foldl l m :
  foldl (λ m kv, nunion m {[kv.1 := kv.2]}) m l = nunion m (newest l).
Proof.
  revert m. induction l as [|kv l IH]; intros m; simpl; [by rewrite (right_id_L ∅ nunion)|].
  by rewrite IH, (assoc_L nunion).
Qed.

Lemma newest_lookup l k v : newest l !! k = Some v → (k, v) ∈ l.
Proof.
  revert v. induction l as [|[k' w] l IH]; intros v; simpl; [by rewrite lookup_empty|].
  rewrite lookup_nunion, lookup_singleton, elem_of_cons. case_decide as Hk.
  - subst k'. destruct (newest l !! k) as [u|]; simpl; [|intros [= ->]; by left].
    unfold newer. case_decide; intros [= ->]; [right; by apply IH|by left].
  - destruct (newest l !! k) as [u|]; simpl; [|done]. intros [= ->]. right. by apply IH.
Qed.

Lemma newest_max l k w :
  (k, w) ∈ l → ∃ v, newest l !! k = Some v ∧ seq w ≤ seq v.
Proof.
  induction l as [|[k' u] l IH]; [by intros ?%elem_of_nil|]. simpl.
  rewrite lookup_nunion, lookup_singleton.
  intros [[= <- <-]|Hin]%elem_of_cons.
  - rewrite decide_True by done. destruct (newest l !! k); simpl; [|by eexists].
    eexists. split; [done|]. unfold newer. case_decide; lia.
  - destruct (IH Hin) as (v & -> & Hle). case_decide; simpl; [|by eexists].
    eexists. split; [done|]. unfold newer. case_decide; lia.
Qed.

(** Which version wins depends only on which writes there are. *)
Lemma newest_spec l k v :
  coherent l →
  newest l !! k = Some v ↔ (k, v) ∈ l ∧ ∀ w, (k, w) ∈ l → seq w ≤ seq v.
Proof.
  intros Hc. split.
  - intros Hv. split; [by apply newest_lookup|]. intros w Hw.
    destruct (newest_max l k w Hw) as (v' & Hv' & ?). by simplify_eq.
  - intros [Hin Hmax]. destruct (newest_max l k v Hin) as (v' & Hv' & Hle).
    pose proof (newest_lookup _ _ _ Hv') as Hin'. specialize (Hmax _ Hin').
    rewrite Hv'. f_equal. apply (Hc k); [done..|lia].
Qed.

Lemma newest_None l k : newest l !! k = None ↔ k ∉ l.*1.
Proof.
  split.
  - intros Hn ([? v] & -> & Hin)%list_elem_of_fmap. destruct (newest_max l _ v Hin) as (? & ? & _).
    by simplify_eq/=.
  - intros Hk. destruct (newest l !! k) eqn:E; [|done]. destruct Hk.
    apply newest_lookup in E. by apply (list_elem_of_fmap_2 fst) in E.
Qed.

Lemma newest_ext l1 l2 :
  coherent l1 → (∀ kv, kv ∈ l1 ↔ kv ∈ l2) → newest l1 = newest l2.
Proof.
  intros Hc Heq.
  assert (Hc2 : coherent l2) by (intros k v w; rewrite <- !Heq; apply Hc).
  apply map_eq. intros k. apply option_eq. intros v.
  rewrite !newest_spec by done. setoid_rewrite Heq. done.
Qed.

(** A list with one version per key is its own map. *)
Lemma newest_NoDup l : NoDup l.*1 → newest l = list_to_map l.
Proof.
  induction l as [|[k v] l IH]; [done|]. simpl. intros [Hk Hnd]%NoDup_cons.
  rewrite IH by done. apply map_eq. intros k'. rewrite lookup_nunion, lookup_singleton, lookup_insert.
  case_decide; [|by destruct (list_to_map l !! k')]. subst k'.
  apply not_elem_of_list_to_map in Hk. by rewrite Hk.
Qed.
End Newest.

Module MemtableSpec.
Import Memtable Newest.

(** * Byte accounting *)

(** The bytes the entries of a table account for. *)
Definition footprint (m : kvmap) : Z :=
  map_fold (λ k v z, blen k + payload_bytes v + ENTRY_OVERHEAD + z) 0 m.

Definition wf (t : Memtable) : Prop := approx_bytes t = u64_wrap (footprint (map t)).

Lemma footprint_insert m k v :
  m !! k = None → footprint (<[k := v]> m) = blen k + payload_bytes v + ENTRY_OVERHEAD + footprint m.
Proof. intros Hk. unfold footprint. rewrite map_fold_insert_L; [done|intros; lia|done]. Qed.

Lemma footprint_delete m k v :
  m !! k = Some v → footprint m = blen k + payload_bytes v + ENTRY_OVERHEAD + footprint (delete k m).
Proof.
  intros Hk. rewrite <- (insert_delete_id m k v Hk) at 1. apply footprint_insert.
  apply lookup_delete_eq.
Qed.

Lemma footprint_update m k v :
  footprint (<[k := v]> m) =
  footprint m - match m !! k with Some p => blen k + payload_bytes p + ENTRY_OVERHEAD | None => 0 end
  + (blen k + payload_bytes v + ENTRY_OVERHEAD).
Proof.
  rewrite <- insert_delete_eq, footprint_insert by apply lookup_delete_eq.
  destruct (m !! k) as [p|] eqn:Hp.
  - rewrite (footprint_delete m k p Hp). lia.
  - rewrite delete_id by done. lia.
Qed.

Lemma payload_nonneg v : 0 ≤ payload_bytes v.
Proof. unfold payload_bytes. by destruct (kind v). Qed.

Lemma footprint_nonneg m : 0 ≤ footprint m.
Proof.
  unfold footprint. apply (map_fold_weak_ind (λ z _, 0 ≤ z)); [done|].
  intros k v _ z _ Hz. pose proof (payload_nonneg v). pose proof (blen_nonneg k).
  unfold ENTRY_OVERHEAD. lia.
Qed.

Lemma entry_bytes_mod k v :
  entry_bytes k v = u64_wrap (blen k + payload_bytes v + ENTRY_OVERHEAD).
Proof. unfold entry_bytes, u64_add, u64_wrap. by rewrite Zplus_mod_idemp_l. Qed.

Lemma wf_step t k v :
  wf t →
  wf (mkMemtable (<[k := v]> (map t))
       (match map t !! k with
        | Some prev => u64_add (u64_sub (approx_bytes t) (entry_bytes k prev)) (entry_bytes k v)
        | None => u64_add (approx_bytes t) (entry_bytes k v)
        end)).
Proof.
  unfold wf. simpl. intros ->. rewrite footprint_update, entry_bytes_mod.
  destruct (map t !! k) as [p|]; rewrite ?entry_bytes_mod; unfold u64_add, u64_sub, u64_wrap.
  - rewrite Zplus_mod_idemp_l, Zplus_mod_idemp_r, <- Zplus_mod_idemp_l, Zminus_mod_idemp_l,
      Zplus_mod_idemp_l, <- Zplus_mod_idemp_l, Zminus_mod_idemp_r, Zplus_mod_idemp_l. done.
  - rewrite Zplus_mod_idemp_l, Zplus_mod_idemp_r. f_equal. lia.
Qed.

Lemma wf_new : wf new.
Proof. done. Qed.
Lemma wf_insert t k v : wf t → wf (insert k v t).
Proof. apply wf_step. Qed.
Lemma wf_insert_if_newer t k v : wf t → wf (insert_if_newer k v t).
Proof.
  intros Ht. unfold insert_if_newer. pose proof (wf_step t k v Ht) as H.
  destruct (map t !! k); [|done]. by case_decide.
Qed.

(** A table accounts for bytes exactly when it has entries. *)
Lemma active_bytes_zero t :
  wf t → footprint (map t) < 2 ^ 64 → approx_bytes t > 0 ↔ map t ≠ ∅.
Proof.
  intros -> Hlt. pose proof (footprint_nonneg (map t)). rewrite u64_wrap_id by lia. split.
  - intros Hp E. rewrite E in Hp. by vm_compute in Hp.
  - intros Hne. apply map_choose in Hne as (k & v & Hk).
    rewrite (footprint_delete _ _ _ Hk). pose proof (footprint_nonneg (delete k (map t))).
    pose proof (payload_nonneg v). pose proof (blen_nonneg k). unfold ENTRY_OVERHEAD. lia.
Qed.

(** * Newest wins *)

Lemma insert_if_newer_map t k v : map (insert_if_newer k v t) = nunion (map t) {[k := v]}.
Proof.
  apply map_eq. intros k'. rewrite lookup_nunion, lookup_singleton. unfold insert_if_newer.
  destruct (decide (k = k')) as [<-|Hk].
  - destruct (map t !! k) as [p|] eqn:Hp; [case_decide as Hs|]; simpl;
      rewrite ?lookup_insert_eq, ?Hp; [|..|done]; simpl; unfold newer.
    + by rewrite decide_False by lia.
    + by rewrite decide_True by lia.
  - destruct (map t !! k) as [p|]; [case_decide|]; simpl; rewrite ?lookup_insert_ne by done;
      by destruct (map t !! k').
Qed.

(** Applying a list of writes to a table. *)
Definition apply_writes (l : list Entry) (t : Memtable) : Memtable :=
  foldl (λ t kv, insert_if_newer kv.1 kv.2 t) t l.

Lemma apply_writes_map l t : map (apply_writes l t) = nunion (map t) (newest l).
Proof.
  rewrite <- newest_foldl. revert t. induction l as [|kv l IH]; intros t; simpl; [done|].
  by rewrite IH, insert_if_newer_map.
Qed.

Lemma apply_writes_wf l t : wf t → wf (apply_writes l t).
Proof. revert t. induction l; intros t Ht; simpl; [done|]. by apply IHl, wf_insert_if_newer. Qed.

(** * The set *)

Lemma get_frozen_app key l1 l2 :
  get_frozen key (l1 ++ l2) =
  match get_frozen key l1 with Some v => Some v | None => get_frozen key l2 end.
Proof. induction l1 as [|f l1 IH]; simpl; [done|]. by destruct (get key (table f)). Qed.

(** What the set shows: the active table, then the frozen ones, newest first. *)
Definition set_view (s : MemtableSet) : kvmap :=
  map (active s) ∪ foldr (λ f m, map (table f) ∪ m) ∅ (reverse (frozen s)).

Lemma get_frozen_lookup key l :
  get_frozen key l = foldr (λ f m, map (table f) ∪ m) ∅ l !! key.
Proof.
  induction l as [|f l IH]; simpl; [done|]. rewrite lookup_union. unfold get.
  rewrite IH. by destruct (map (table f) !! key), (foldr _ _ _ !! key).
Qed.

Lemma set_get_lookup key s : set_get key s = set_view s !! key.
Proof.
  unfold set_get, set_view, get. rewrite lookup_union, get_frozen_lookup.
  by destruct (map (active s) !! key), (foldr _ _ _ !! key).
Qed.

Lemma freeze_view s : set_view (freeze s).2 = set_view s.
Proof.
  unfold set_view. simpl. rewrite reverse_snoc. simpl. by rewrite (left_id_L ∅ (∪)).
Qed.

Lemma foldr_union_app (l1 l2 : list Frozen) :
  foldr (λ f m, map (table f) ∪ m) ∅ (l1 ++ l2) =
  foldr (λ f m, map (table f) ∪ m) ∅ l1 ∪ foldr (λ f m, map (table f) ∪ m) ∅ l2.
Proof.
  induction l1 as [|f l1 IH]; simpl; [by rewrite (left_id_L ∅ (∪))|].
  by rewrite IH, (assoc_L (∪)).
Qed.

(** The allocations of a set are distinct and numbered below the next one. *)
Definition arcs_ok (s : MemtableSet) : Prop :=
  NoDup (arc_id <$> frozen s) ∧ Forall (λ f, arc_id f < next_arc s) (frozen s).

Lemma freeze_arcs s : arcs_ok s → arcs_ok (freeze s).2.
Proof.
  intros [Hnd Hlt]. split; simpl.
  - rewrite fmap_app. apply NoDup_app. split_and!; [done| |apply NoDup_singleton].
    intros i (f & -> & Hf)%list_elem_of_fmap Hi%list_elem_of_singleton.
    rewrite Forall_forall in Hlt. specialize (Hlt f Hf). simpl in Hi. lia.
  - apply Forall_app. split; [|by repeat constructor; simpl; lia].
    eapply Forall_impl; [done|]. simpl. lia.
Qed.

Lemma discard_oldest f fs a mb n :
  NoDup (arc_id <$> f :: fs) → frozen (discard_frozen f (mkSet a (f :: fs) mb n)) = fs.
Proof.
  intros [Hf _]%NoDup_cons. simpl. rewrite filter_cons, decide_False by by intros [].
  assert (Hg : ∀ g, g ∈ fs → arc_id g ≠ arc_id f).
  { intros g Hg E. destruct Hf. rewrite <- E. by apply list_elem_of_fmap_2. }
  clear Hf. induction fs as [|g fs IH]; [done|]. rewrite filter_cons, decide_True by (apply Hg; by left).
  f_equal. apply IH. intros h Hh. apply Hg. by right.
Qed.

(** Once the oldest frozen table's contents are visible below the set, dropping
    it changes no read through the set and what is below. *)
Lemma discard_view f fs s below :
  frozen s = f :: fs → arcs_ok s → map (table f) ⊆ below →
  set_view (discard_frozen f s) ∪ below = set_view s ∪ below.
Proof.
  intros Hs [Hnd _] Hsub. destruct s as [a fz mb n]. simpl in *. subst fz.
  unfold set_view. rewrite discard_oldest by done. simpl frozen.
  rewrite reverse_cons, foldr_union_app. simpl. rewrite (right_id_L ∅ (∪)), !(assoc_L (∪)).
  rewrite <- !(assoc_L (∪)). do 2 f_equal. symmetry. by apply map_subseteq_union.
Qed.

(** * What the write buffer promises *)

(** A call on one table. *)
Inductive mop : Type := Insert (k : bytes) (v : InternalValue) | InsertIfNewer (k : bytes) (v : InternalValue).
Definition run_mop (t : Memtable) (o : mop) : Memtable :=
  match o with Insert k v => insert k v t | InsertIfNewer k v => insert_if_newer k v t end.

Lemma run_mops_wf ops t : wf t → wf (foldl run_mop t ops).
Proof.
  revert t. induction ops as [|o ops IH]; intros t Ht; simpl; [done|]. apply IH.
  destruct o; simpl; [by apply wf_insert|by apply wf_insert_if_newer].
Qed.

(** C37: after any inserts, overwrites and tombstones included, the byte counter of
    a table is the sum over its entries of key, payload and overhead, modulo the
    counter's width. *)
Theorem memtable_accounting (ops : list mop) :
  let t := foldl run_mop new ops in
  approx_bytes t = u64_wrap (footprint (map t)).
Proof. apply run_mops_wf, wf_new. Qed.

(** replaying versioned writes in any order leaves, for each key, the version
    with the largest sequence number. *)
Theorem memtable_replay (l1 l2 : list Entry) :
  coherent l1 → (∀ kv, kv ∈ l1 ↔ kv ∈ l2) →
  map (apply_writes l1 new) = map (apply_writes l2 new) ∧
  ∀ k v, get k (apply_writes l1 new) = Some v ↔ (k, v) ∈ l1 ∧ ∀ w, (k, w) ∈ l1 → seq w ≤ seq v.
Proof.
  intros Hc Heq. rewrite !apply_writes_map. simpl. rewrite !(left_id_L ∅ nunion).
  split; [by apply newest_ext|]. intros k v. unfold get. rewrite apply_writes_map. simpl.
  rewrite (left_id_L ∅ nunion). by apply newest_spec.
Qed.

(** Freezing the active table changes no lookup; dropping the oldest frozen
    table changes no lookup that falls back on contents that include its own. *)
Theorem memtable_freeze_discard (s : MemtableSet) (f : Frozen) (fs : list Frozen) (below : kvmap) (k : bytes) :
  arcs_ok s →
  set_get k (freeze s).2 = set_get k s ∧ arcs_ok (freeze s).2 ∧
  (frozen s = f :: fs → map (table f) ⊆ below →
   match set_get k (discard_frozen f s) with Some v => Some v | None => below !! k end =
   match set_get k s with Some v => Some v | None => below !! k end).
Proof.
  intros Ha. split; [by rewrite !set_get_lookup, freeze_view|]. split; [by apply freeze_arcs|].
  intros Hs Hsub. pose proof (discard_view f fs s below Hs Ha Hsub) as E.
  apply (f_equal (λ m, m !! k)) in E. rewrite !lookup_union in E. rewrite !set_get_lookup.
  by destruct (set_view (discard_frozen f s) !! k), (set_view s !! k); rewrite ?union_Some_l, ?union_None_l in E.
Qed.

Definition sample_writes : list Entry :=
  [([], mkValue 2 Tombstone); ([], mkValue 1 (Value []))].
Lemma memtable_replay_witness :
  map (apply_writes sample_writes new) = map (apply_writes (reverse sample_writes) new).
Proof.
  apply (memtable_replay sample_writes (reverse sample_writes)).
  - intros k v w Hv Hw E. unfold sample_writes in *.
    repeat (apply elem_of_cons in Hv as [[= -> ->]|Hv]; [|try by apply elem_of_nil in Hv]);
    repeat (apply elem_of_cons in Hw as [Hw|Hw]; [injection Hw as ?; subst; done|try by apply elem_of_nil in Hw]).
  - intros kv. symmetry. apply elem_of_reverse.
Defined.
Lemma memtable_freeze_discard_witness :
  set_get [] (freeze (set_new 10)).2 = set_get [] (set_new 10).
Proof.
  apply (memtable_freeze_discard (set_new 10) (mkFrozen 0 new) [] ∅ []). split; constructor.
Defined.

End MemtableSpec.
