(* ===== verification/MergeIter.v ===== *)
(** The k-way merge of the read path ([src/iter/mod.rs]): a heap of source heads
    ordered by key, then newest, then source; the iterator that pops the winner
    and discards its older duplicates; the tombstone-free adapter. *)
From S2P Require Export Memtable.

Module MergeIter.
Import Memtable.

(** [HeapHead]. *)
Record HeapHead : Type := mkHead { h_key : bytes; h_value : InternalValue; h_source : nat }.

(** [HeapHead::cmp]: the head to pop first is the greatest. *)
Definition head_cmp (self other : HeapHead) : comparison :=
  match cmp (h_key other) (h_key self) with
  | Eq => match cmp (seq (h_value self)) (seq (h_value other)) with
          | Eq => Nat.compare (h_source other) (h_source self)
          | c => c
          end
  | c => c
  end.

(** [BinaryHeap]: its elements, greatest first.  [push], [pop] and [peek] are
    the standard library's; the order of distinct elements is total. *)
Fixpoint heap_push (x : HeapHead) (h : list HeapHead) : list HeapHead :=
  match h with
  | [] => [x]
  | y :: h' => match head_cmp x y with Gt => x :: h | _ => y :: heap_push x h' end
  end.

(** A source is the entries its iterator still yields. *)
Record MergeIterator : Type := mkMerge {
  sources : list (list Entry);
  heap : list HeapHead;
}.

(** The loop of [MergeIterator::new] over [sources.iter_mut().enumerate()]. *)
Fixpoint new_loop (i : nat) (srcs : list (list Entry)) (it : MergeIterator) : MergeIterator :=
  match srcs with
  | [] => it
  | [] :: rest => new_loop (Datatypes.S i) rest (mkMerge (sources it ++ [[]]) (heap it))
  | ((k, v) :: src) :: rest =>
      new_loop (Datatypes.S i) rest
        (mkMerge (sources it ++ [src]) (heap_push (mkHead k v i) (heap it)))
  end.
Definition new (srcs : list (list Entry)) : MergeIterator := new_loop 0 srcs (mkMerge [] []).

Section merge.
Context {E : Type}.

(** [refill(idx)]. *)
Definition refill (idx : nat) (it : MergeIterator) : outcome E MergeIterator :=
  match sources it !! idx with
  | None => Panic
  | Some [] => Ok it
  | Some ((k, v) :: src) =>
      Ok (mkMerge (<[idx := src]> (sources it)) (heap_push (mkHead k v idx) (heap it)))
  end.

(** Entries not yet returned or discarded: each turn of a loop below uses one. *)
Definition pending (it : MergeIterator) : nat :=
  List.length (heap it) + sum_list_with (List.length (A:=Entry)) (sources it).

(** The duplicate-discarding loop of [next]. *)
Fixpoint skip_dups (fuel : nat) (key : bytes) (it : MergeIterator) : outcome E MergeIterator :=
  match fuel with
  | O => Panic
  | Datatypes.S fuel' =>
      match heap it with
      | peek :: h =>
          if decide (h_key peek = key) then
            it ← refill (h_source peek) (mkMerge (sources it) h);
            skip_dups fuel' key it
          else Ok it
      | [] => Ok it
      end
  end.

(** [MergeIterator::next]. *)
Definition next (it : MergeIterator) : outcome E (option Entry * MergeIterator) :=
  match heap it with
  | [] => Ok (None, it)
  | winner :: h =>
      it ← refill (h_source winner) (mkMerge (sources it) h);
      it ← skip_dups (Datatypes.S (pending it)) (h_key winner) it;
      Ok (Some (h_key winner, h_value winner), it)
  end.

(** Draining an iterator into a vector. *)
Fixpoint collect_loop (fuel : nat) (it : MergeIterator) : outcome E (list Entry) :=
  match fuel with
  | O => Panic
  | Datatypes.S fuel' =>
      '(e, it) ← next it;
      match e with
      | None => Ok []
      | Some e => rest ← collect_loop fuel' it; Ok (e :: rest)
      end
  end.
Definition collect (it : MergeIterator) : outcome E (list Entry) :=
  collect_loop (Datatypes.S (pending it)) it.

(** [LiveIter::next]: skip tombstones. *)
Fixpoint live_loop (fuel : nat) (it : MergeIterator)
    : outcome E (option (bytes * bytes) * MergeIterator) :=
  match fuel with
  | O => Panic
  | Datatypes.S fuel' =>
      '(e, it) ← next it;
      match e with
      | None => Ok (None, it)
      | Some (key, value) =>
          match kind value with
          | Value v => Ok (Some (key, v), it)
          | Tombstone => live_loop fuel' it
          end
      end
  end.
Definition live_next (it : MergeIterator) : outcome E (option (bytes * bytes) * MergeIterator) :=
  live_loop (Datatypes.S (pending it)) it.

(** Draining a [LiveIter] (a [Scan]). *)
Fixpoint live_collect_loop (fuel : nat) (it : MergeIterator) : outcome E (list (bytes * bytes)) :=
  match fuel with
  | O => Panic
  | Datatypes.S fuel' =>
      '(e, it) ← live_next it;
      match e with
      | None => Ok []
      | Some kv => rest ← live_collect_loop fuel' it; Ok (kv :: rest)
      end
  end.
Definition live_collect (it : MergeIterator) : outcome E (list (bytes * bytes)) :=
  live_collect_loop (Datatypes.S (pending it)) it.

End merge.
End MergeIter.
