(* ===== verification/MergeSpec.v ===== *)
(** The merge is correct: it always ends, and what it yields is the newest-wins
    union of its sources in ascending key order, each key once, ties going to
    the first source. *)
From S2P Require Export MergeIter MemtableSpec.

Module MergeSpec.
Import Memtable Newest MergeIter.
Implicit Types (ls : list (list Entry)) (l : list Entry) (h x y : HeapHead).

(** * The order of heads *)

(** [x] is popped before [y]. *)
Definition before x y : Prop := head_cmp x y = Gt.

Lemma head_cmp_opp x y : head_cmp y x = CompOpp (head_cmp x y).
Proof.
  unfold head_cmp. rewrite (cmp_opp (h_key x) (h_key y)).
  destruct (cmp (h_key x) (h_key y)); simpl; try done.
  rewrite (cmp_opp (seq (h_value x)) (seq (h_value y))).
  destruct (cmp (seq (h_value x)) (seq (h_value y))); simpl; try done.
  apply Nat.compare_antisym.
Qed.

Lemma before_spec x y :
  before x y ↔ h_key x ≺ h_key y ∨
    (h_key x = h_key y ∧
     (seq (h_value y) < seq (h_value x) ∨
      (seq (h_value x) = seq (h_value y) ∧ (h_source x < h_source y)%nat))).
Proof.
  unfold before, head_cmp, olt. rewrite (cmp_opp (h_key x) (h_key y)).
  destruct (cmp (h_key x) (h_key y)) eqn:Ek; simpl.
  - apply cmp_eq in Ek. unfold cmp, Z_ord.
    destruct (Z.compare_spec (seq (h_value x)) (seq (h_value y))).
    + rewrite Nat.compare_gt_iff. intuition (try congruence; try lia).
    + intuition (try congruence; try lia).
    + intuition (try congruence; try lia).
  - intuition congruence.
  - assert (h_key x ≠ h_key y) by (intros E; rewrite E, cmp_refl in Ek; done).
    intuition congruence.
Qed.

#[global] Instance before_trans : Transitive before.
Proof.
  intros x y z. rewrite !before_spec. intros [H1|[H1 H1']] [H2|[H2 H2']].
  - left. by etrans.
  - left. by rewrite <- H2.
  - left. by rewrite H1.
  - right. split; [congruence|lia].
Qed.

(** Heads of different sources are never tied. *)
Lemma not_before x y : h_source x ≠ h_source y → ¬ before x y → before y x.
Proof.
  intros Hs. unfold before. rewrite (head_cmp_opp x y).
  destruct (head_cmp x y) eqn:E; simpl; [|done|done]. exfalso. apply Hs.
  unfold head_cmp in E. repeat case_match; try done. by apply Nat.compare_eq in E.
Qed.

(** ** The heap *)

Lemma heap_push_perm x hp : heap_push x hp ≡ₚ x :: hp.
Proof.
  induction hp as [|y hp IH]; simpl; [done|]. destruct (head_cmp x y); [|..|done];
    rewrite IH; apply Permutation_swap.
Qed.

Lemma heap_push_sorted x hp :
  StronglySorted before hp → (∀ y, y ∈ hp → h_source x ≠ h_source y) →
  StronglySorted before (heap_push x hp).
Proof.
  induction 1 as [|y hp Hh IH Hy]; intros Hx; simpl; [by repeat constructor|].
  destruct (head_cmp x y) eqn:E.
  3:{ constructor; [by constructor|]. constructor; [done|].
      eapply Forall_impl; [exact Hy|]. intros z Hz. by trans y. }
  all: assert (before y x) by (apply not_before; [apply Hx; by left|unfold before; congruence]);
    constructor; [apply IH; intros; apply Hx; by right|];
    rewrite heap_push_perm; by constructor.
Qed.

(** * What the iterator represents *)

Definition head_of (i : nat) l : list HeapHead :=
  match l with (k, v) :: _ => [mkHead k v i] | [] => [] end.
Fixpoint heads_from (i : nat) ls : list HeapHead :=
  match ls with [] => [] | l :: ls' => head_of i l ++ heads_from (S i) ls' end.

(** The heap holds the head of every source in [ls], the source its rest. *)
Record rep (it : MergeIterator) ls : Prop := {
  rep_sources : sources it = tail <$> ls;
  rep_sorted : StronglySorted before (heap it);
  rep_heap : heap it ≡ₚ heads_from 0 ls;
}.

Lemma elem_of_heads i ls h :
  h ∈ heads_from i ls ↔
  ∃ j t, ls !! j = Some ((h_key h, h_value h) :: t) ∧ h_source h = (i + j)%nat.
Proof.
  revert i. induction ls as [|l ls IH]; intros i; simpl.
  { split; [by intros ?%elem_of_nil|by intros (? & ? & ? & _)]. }
  rewrite elem_of_app, IH. split.
  - intros [Hh|(j & t & Hj & Hs)].
    + destruct l as [|[k v] t]; [by apply elem_of_nil in Hh|].
      apply list_elem_of_singleton in Hh as ->. exists 0%nat, t. split; [done|simpl; lia].
    + exists (S j), t. split; [done|lia].
  - intros ([|j] & t & Hj & Hs); simpl in Hj.
    + simplify_eq. left. apply list_elem_of_singleton. destruct h. simpl in *. f_equal. lia.
    + right. exists j, t. split; [done|lia].
Qed.

Lemma heads_insert i ls j l :
  (j < length ls)%nat →
  heads_from i (<[j := l]> ls) ≡ₚ head_of (i + j) l ++ heads_from i (<[j := []]> ls).
Proof.
  revert i j. induction ls as [|l' ls IH]; intros i [|j] Hj; simpl in *; [lia|lia| |].
  - by rewrite Nat.add_0_r.
  - rewrite (IH (S i) j) by lia. rewrite !(assoc_L (++)), Nat.add_succ_r.
    f_equiv. apply Permutation_app_comm.
Qed.

Lemma heads_sources_NoDup i ls j l :
  ls !! j = Some l → ∀ y, y ∈ heads_from i (<[j := []]> ls) → h_source y ≠ (i + j)%nat.
Proof.
  intros Hj y (j' & t & Hj' & ->)%elem_of_heads E. assert (j' = j) as -> by lia.
  rewrite list_lookup_insert_eq in Hj' by (by eapply lookup_lt_Some). done.
Qed.

(** Popping the head of source [idx] and refilling it advances that source. *)
Lemma refill_rep {E} ls h hs idx e t srcs :
  srcs = tail <$> ls → StronglySorted before hs → (h :: hs) ≡ₚ heads_from 0 ls →
  h_source h = idx → ls !! idx = Some (e :: t) →
  ∃ it', refill (E:=E) idx (mkMerge srcs hs) = Ok it' ∧ rep it' (<[idx := t]> ls).
Proof.
  intros -> Hs Hp Hi Hl. pose proof (lookup_lt_Some _ _ _ Hl) as Hlen.
  assert (Hhs : hs ≡ₚ heads_from 0 (<[idx := []]> ls)).
  { pose proof (heads_insert 0 ls idx (e :: t) Hlen) as H.
    rewrite list_insert_id in H by done. rewrite H in Hp.
    assert (h ∈ heads_from 0 ls) as (j & t' & Hj & Hj')%elem_of_heads.
    { rewrite H, <- Hp. by left. }
    assert (j = idx) as -> by (simpl in Hj'; lia). rewrite Hl in Hj. injection Hj as -> ->.
    simpl in Hp. destruct h as [k v s]. simpl in *. subst s.
    by apply (Permutation_cons_inv (l:=hs)) in Hp. }
  unfold refill. simpl. rewrite list_lookup_fmap, Hl. simpl.
  destruct t as [|[k v] t].
  - eexists. split; [done|]. split; simpl; [|done|done].
    rewrite list_fmap_insert. simpl. rewrite list_insert_id; [done|].
    rewrite list_lookup_fmap, Hl. done.
  - eexists. split; [done|]. split; simpl.
    + by rewrite list_fmap_insert.
    + apply heap_push_sorted; [done|]. intros y Hy. rewrite Hhs in Hy. simpl.
      pose proof (heads_sources_NoDup 0 ls idx _ Hl y Hy). simpl in *. congruence.
    + rewrite heap_push_perm, Hhs, (heads_insert 0 ls idx ((k, v) :: t)) by done. done.
Qed.

Definition total ls : nat := sum_list_with (length (A:=Entry)) ls.

Lemma pending_rep it ls : rep it ls → pending it = total ls.
Proof.
  intros [Hs _ Hp]. unfold pending. rewrite Hs, Hp. clear. unfold total.
  generalize 0%nat. induction ls as [|[|[k v] t] ls IH]; intros i; simpl; [done|apply IH|].
  specialize (IH (S i)). unfold fmap in IH. lia.
Qed.

Lemma total_insert ls idx e t :
  ls !! idx = Some (e :: t) → S (total (<[idx := t]> ls)) = total ls.
Proof.
  revert idx. induction ls as [|l ls IH]; intros [|idx]; simpl; intros H; simplify_eq; [done|].
  unfold total in *. simpl. rewrite <- (IH idx H). lia.
Qed.

(** ** Building it *)

Lemma new_loop_rep i done ls it :
  length done = i → rep it done → rep (new_loop i ls it) (done ++ ls).
Proof.
  revert i done it. induction ls as [|[|[k v] src] ls IH]; intros i dn it Hi [H1 H2 H3].
  - by rewrite app_nil_r.
  - simpl. rewrite (cons_middle _ dn ls), (assoc_L (++)). apply IH; [rewrite length_app; simpl; lia|].
    split; simpl; [by rewrite fmap_app, H1|done|]. rewrite H3. clear. generalize 0%nat.
    induction dn; intros n; simpl; [done|]. by rewrite <- IHdn.
  - simpl. rewrite (cons_middle _ dn ls), (assoc_L (++)). apply IH; [rewrite length_app; simpl; lia|].
    split; simpl; [by rewrite fmap_app, H1| |].
    + apply heap_push_sorted; [done|]. intros y Hy. rewrite H3 in Hy.
      apply elem_of_heads in Hy as (j & t & Hj & Hj'). apply lookup_lt_Some in Hj. simpl in *. lia.
    + rewrite heap_push_perm, H3. subst i. clear.
      assert (∀ n, heads_from n (dn ++ [(k, v) :: src]) =
                   heads_from n dn ++ [mkHead k v (n + length dn)]) as ->.
      { induction dn as [|l dn IH]; intros n; simpl; [by rewrite Nat.add_0_r|].
        rewrite IH, <- (assoc_L (++)). do 4 f_equal. lia. }
      rewrite Permutation_app_comm. done.
Qed.

Lemma new_rep ls : rep (new ls) ls.
Proof. apply (new_loop_rep 0 []); [done|]. split; [done|constructor|done]. Qed.

(** * One step *)

(** Advance a source past the key [k]. *)
Definition advance (k : bytes) l : list Entry :=
  match l with (k', _) :: t => if decide (k' = k) then t else l | [] => [] end.

(** Sources as the merge requires them, [k] the smallest key left. *)
Definition sorted_sources ls : Prop := Forall sorted_keys ls.
Definition above (k : bytes) ls : Prop := ∀ l kv, l ∈ ls → kv ∈ l → k ⪯ kv.1.

Lemma sorted_tail (e : Entry) t : sorted_keys (e :: t) → sorted_keys t.
Proof. destruct e. by intros [_ ?]%sorted_keys_cons. Qed.

Lemma advance_idemp k l : sorted_keys l → advance k (advance k l) = advance k l.
Proof.
  destruct l as [|[k' v] t]; [done|]. simpl. intros [Hk Ht]%sorted_keys_cons.
  case_decide as E; [|simpl; by rewrite decide_False]. subst k'.
  destruct t as [|[k2 v2] t]; [done|]. simpl. rewrite decide_False; [done|].
  intros ->. by apply (olt_irrefl k), (Hk (k, v2)), list_elem_of_here.
Qed.

(** Advancing one source by its head [k] and then all of them is advancing all. *)
Lemma advance_insert k ls idx v t :
  sorted_sources ls → ls !! idx = Some ((k, v) :: t) →
  advance k <$> <[idx := t]> ls = advance k <$> ls.
Proof.
  intros Hs Hl. rewrite list_fmap_insert. apply list_insert_id.
  rewrite list_lookup_fmap, Hl. simpl. f_equal.
  pose proof (advance_idemp k ((k, v) :: t)) as H. simpl in H. rewrite decide_True in H by done.
  rewrite decide_True by done. symmetry. apply H. by eapply Forall_lookup_1 in Hs.
Qed.

Lemma sorted_sources_insert ls idx e t :
  sorted_sources ls → ls !! idx = Some (e :: t) → sorted_sources (<[idx := t]> ls).
Proof.
  intros Hs Hl. apply Forall_insert; [done|]. apply (sorted_tail e).
  by eapply Forall_lookup_1 in Hs.
Qed.

Lemma above_insert k ls idx e t :
  above k ls → ls !! idx = Some (e :: t) → above k (<[idx := t]> ls).
Proof.
  intros Ha Hl l kv [->|Hin]%elem_of_list_insert Hkv; [|by eapply Ha].
  apply (Ha (e :: t)); [by eapply list_elem_of_lookup_2|by right].
Qed.

(** When no head is [k], nothing is left to advance. *)
Lemma advance_stable k ls :
  (∀ h, h ∈ heads_from 0 ls → h_key h ≠ k) → advance k <$> ls = ls.
Proof.
  generalize 0%nat. induction ls as [|l ls IH]; intros i Hh; [done|]. simpl in *. f_equal.
  - destruct l as [|[k' v] t]; [done|]. simpl. rewrite decide_False; [done|].
    apply (Hh (mkHead k' v i)), elem_of_app. left. by apply list_elem_of_singleton.
  - apply (IH (S i)). intros h Hin. apply Hh, elem_of_app. by right.
Qed.

Lemma skip_dups_rep {E} fuel k it ls :
  rep it ls → sorted_sources ls → above k ls → (total ls < fuel)%nat →
  ∃ it', skip_dups (E:=E) fuel k it = Ok it' ∧ rep it' (advance k <$> ls).
Proof.
  revert it ls. induction fuel as [|fuel IH]; intros it ls Hr Hs Ha Hf; [lia|].
  destruct it as [srcs hp]. destruct Hr as [H1 H2 H3]. simpl in *.
  destruct hp as [|peek hp].
  { eexists. split; [done|]. rewrite advance_stable; [done|].
    intros h Hin. rewrite <- H3 in Hin. by apply elem_of_nil in Hin. }
  assert (Hpk : peek ∈ heads_from 0 ls) by (rewrite <- H3; by left).
  pose proof Hpk as (j & t & Hj & Hsrc)%elem_of_heads. simpl in Hsrc.
  apply StronglySorted_cons in H2 as [Hlt H2].
  case_decide as Hk.
  - destruct (refill_rep (E:=E) ls peek hp j (h_key peek, h_value peek) t srcs)
      as (it1 & Hr1 & Hrep1); [done..|].
    rewrite Hsrc, Hr1. cbn [mbind outcome_bind]. rewrite Hk in Hj.
    destruct (IH it1 (<[j := t]> ls) Hrep1) as (it2 & Hsk & Hrep2).
    + by eapply sorted_sources_insert.
    + by eapply above_insert.
    + pose proof (total_insert _ _ _ _ Hj). lia.
    + exists it2. split; [done|]. by erewrite advance_insert in Hrep2.
  - eexists. split; [done|]. rewrite advance_stable.
    { split; simpl; [done|by constructor|done]. }
    intros h Hin. rewrite <- H3 in Hin. apply elem_of_cons in Hin as [->|Hin]; [done|].
    rewrite Forall_forall in Hlt. specialize (Hlt h Hin). apply before_spec in Hlt.
    intros E1. assert (Hle : k ⪯ h_key peek).
    { apply (Ha _ (h_key peek, h_value peek) (list_elem_of_lookup_2 _ _ _ Hj)). by left. }
    rewrite E1 in Hlt. destruct Hlt as [Hlt|[? _]]; [|done].
    by apply (olt_irrefl k), (ole_olt_trans _ (h_key peek)).
Qed.

(** Whether anything is left, and if so which entry comes next. *)
Lemma rep_done it ls : rep it ls → heap it = [] → Forall (λ l, l = []) ls.
Proof.
  intros [_ _ H3] Hh. rewrite Hh in H3. symmetry in H3; apply Permutation_nil_r in H3. revert H3. clear.
  generalize 0%nat. induction ls as [|[|[k v] t] ls IH]; intros i; simpl; [constructor| |done].
  intros H. constructor; [done|]. by eapply IH.
Qed.

Lemma next_rep {E} it ls w hp :
  rep it ls → sorted_sources ls → heap it = w :: hp →
  ∃ it', next (E:=E) it = Ok (Some (h_key w, h_value w), it') ∧
    rep it' (advance (h_key w) <$> ls) ∧ above (h_key w) ls ∧
    (∃ t, ls !! h_source w = Some ((h_key w, h_value w) :: t)) ∧
    ∀ h, h ∈ heads_from 0 ls → h = w ∨ before w h.
Proof.
  intros [H1 H2 H3] Hs Hh. unfold next. rewrite Hh in *.
  assert (Hw : w ∈ heads_from 0 ls) by (rewrite <- H3; by left).
  apply elem_of_heads in Hw as (j & t & Hj & Hsrc). simpl in Hsrc. rewrite Hsrc.
  apply StronglySorted_cons in H2 as [Hlt H2].
  assert (Hall : ∀ h, h ∈ heads_from 0 ls → h = w ∨ before w h).
  { intros h Hin. rewrite <- H3 in Hin. apply elem_of_cons in Hin as [->|Hin]; [by left|].
    right. rewrite Forall_forall in Hlt. by apply Hlt. }
  assert (Ha : above (h_key w) ls).
  { intros l [k v] Hl Hkv. apply list_elem_of_lookup in Hl as [i Hi].
    assert (Hsl : sorted_keys l) by by eapply Forall_lookup_1 in Hs.
    destruct l as [|[k0 v0] l]; [by apply elem_of_nil in Hkv|].
    assert (h_key w ⪯ k0) as Hk0.
    { destruct (Hall (mkHead k0 v0 i)) as [<-|Hb]; [by apply elem_of_heads; eauto|done|].
      apply before_spec in Hb. apply ole_alt. simpl in Hb. tauto. }
    apply sorted_keys_cons in Hsl as [Hk _]. apply elem_of_cons in Hkv as [[= -> ->]|Hkv]; [done|].
    etrans; [done|]. apply olt_ole, (Hk _ Hkv). }
  destruct (refill_rep (E:=E) ls w hp j (h_key w, h_value w) t (sources it))
    as (it1 & Hr1 & Hrep1); [done..|].
  rewrite Hr1. cbn [mbind outcome_bind].
  destruct (skip_dups_rep (E:=E) (S (pending it1)) (h_key w) it1 (<[j := t]> ls))
    as (it2 & Hsk & Hrep2); [done|by eapply sorted_sources_insert|by eapply above_insert| |].
  { rewrite (pending_rep _ _ Hrep1). lia. }
  rewrite Hsk. cbn [mbind outcome_bind]. exists it2. split; [done|].
  erewrite advance_insert in Hrep2 by done. eauto.
Qed.

(** * The stream *)

Lemma sorted_sources_advance k ls : sorted_sources ls → sorted_sources (advance k <$> ls).
Proof.
  intros Hs. apply Forall_fmap. eapply Forall_impl; [done|]. intros [|[k' v] t] Hl; [done|].
  simpl. case_decide; [by eapply sorted_tail|done].
Qed.

Lemma total_advance k ls : (total (advance k <$> ls) ≤ total ls)%nat.
Proof.
  unfold total. induction ls as [|[|[k' v] t] ls IH]; simpl; [done|done|].
  unfold fmap in IH. case_decide; simpl; lia.
Qed.

Lemma total_advance_lt k v t ls i :
  ls !! i = Some ((k, v) :: t) → (total (advance k <$> ls) < total ls)%nat.
Proof.
  revert i. induction ls as [|l ls IH]; intros [|i]; simpl; intros Hi; simplify_eq.
  - unfold total. simpl. rewrite decide_True by done. pose proof (total_advance k ls) as H.
    unfold total, fmap in *. lia.
  - specialize (IH _ Hi). pose proof (total_advance k [l]) as H. unfold total, fmap in *. simpl in *. lia.
Qed.

Lemma delete_nunion k m1 m2 : delete k (nunion m1 m2) = nunion (delete k m1) (delete k m2).
Proof. apply delete_union_with. Qed.

Lemma newest_advance k l :
  sorted_keys l → (∀ kv, kv ∈ l → k ⪯ kv.1) → newest (advance k l) = delete k (newest l).
Proof.
  intros Hs Ha. destruct l as [|[k' v] t]; [symmetry; apply delete_empty|]. simpl.
  apply sorted_keys_cons in Hs as [Hk Hs]. rewrite delete_nunion.
  assert (Hnt : k ⪯ k') by (apply (Ha (k', v)); by left).
  rewrite (delete_id (newest t)).
  2:{ apply newest_None. intros ([k2 v2] & E & Hin)%list_elem_of_fmap. simpl in E. subst k2.
      by apply (olt_irrefl k), (ole_olt_trans _ k'), (Hk _ Hin). }
  case_decide as E.
  - subst k'. by rewrite delete_singleton_eq, (left_id_L ∅ nunion).
  - by rewrite delete_singleton_ne.
Qed.

Lemma newest_concat_advance k ls :
  sorted_sources ls → above k ls →
  newest (concat (advance k <$> ls)) = delete k (newest (concat ls)).
Proof.
  induction 1 as [|l ls Hl Hs IH]; intros Ha; simpl; [by rewrite delete_empty|].
  rewrite !newest_app, delete_nunion, newest_advance; [|done|intros; by eapply Ha; [left|]].
  f_equal. apply IH. intros l' kv ? ?. eapply Ha; [by right|done].
Qed.

(** The first of the newest versions of a key is the one kept. *)
Lemma first_newest l1 l2 k v :
  (∀ w, (k, w) ∈ l1 → seq w < seq v) → (∀ w, (k, w) ∈ l2 → seq w ≤ seq v) →
  newest (l1 ++ (k, v) :: l2) !! k = Some v.
Proof.
  intros H1 H2. rewrite newest_app. simpl. rewrite !lookup_nunion, lookup_singleton_eq.
  destruct (newest l1 !! k) as [w1|] eqn:E1, (newest l2 !! k) as [w2|] eqn:E2; simpl; try done;
    try apply newest_lookup, H1 in E1; try apply newest_lookup, H2 in E2; unfold newer;
    repeat case_decide; try done; lia.
Qed.

Lemma winner_newest ls w t :
  sorted_sources ls → above (h_key w) ls →
  ls !! h_source w = Some ((h_key w, h_value w) :: t) →
  (∀ h, h ∈ heads_from 0 ls → h = w ∨ before w h) →
  newest (concat ls) !! h_key w = Some (h_value w).
Proof.
  intros Hs Ha Hi Hall. rewrite (concat_split _ _ _ Hi). simpl.
  assert (Hhead : ∀ i v, (∃ l, ls !! i = Some l ∧ (h_key w, v) ∈ l) →
            mkHead (h_key w) v i ∈ heads_from 0 ls).
  { intros i v (l & Hl & Hin). apply elem_of_heads. simpl. exists i.
    assert (Hsl : sorted_keys l) by by eapply Forall_lookup_1 in Hs.
    destruct l as [|[k0 v0] l]; [by apply elem_of_nil in Hin|].
    apply elem_of_cons in Hin as [[= <- <-]|Hin]; [eauto|].
    apply sorted_keys_cons in Hsl as [Hk _]. destruct (olt_irrefl (h_key w)).
    eapply ole_olt_trans; [|exact (Hk _ Hin)].
    apply (Ha _ (k0, v0) (list_elem_of_lookup_2 _ _ _ Hl)). by left. }
  assert (Hle : ∀ i v, (∃ l, ls !! i = Some l ∧ (h_key w, v) ∈ l) →
            seq v < seq (h_value w) ∨ seq v = seq (h_value w) ∧ (h_source w ≤ i)%nat).
  { intros i v Hv. destruct (Hall _ (Hhead i v Hv)) as [<-|Hb]; simpl; [right; split; [done|lia]|].
    apply before_spec in Hb. simpl in Hb. destruct Hb as [Hb|[_ Hb]]; [by apply olt_irrefl in Hb|lia]. }
  apply first_newest; intros v Hv.
  - apply elem_of_concat in Hv as (l & Hl & Hv).
    apply list_elem_of_lookup in Hl as [i Hl']. apply lookup_take_Some in Hl' as [Hl' Hlt].
    destruct (Hle i v) as [?|[_ ?]]; [eauto|done|lia].
  - apply elem_of_app in Hv as [Hv|Hv].
    + destruct (Hle (h_source w) v); [|lia|lia]. eexists. split; [done|]. by right.
    + apply elem_of_concat in Hv as (l & Hl & Hv). apply list_elem_of_lookup in Hl as [i Hl'].
      rewrite lookup_drop in Hl'. destruct (Hle _ v (ex_intro _ l (conj Hl' Hv))); lia.
Qed.


(** The entries a merge of [ls] yields. *)
Definition merged ls : list Entry := bt_iter (newest (concat ls)).

Lemma merged_nil ls : Forall (λ l, l = []) ls → merged ls = [].
Proof. intros Hn. unfold merged. assert (concat ls = []) as ->; [|done]. by induction Hn as [|l ls ->]. Qed.

Lemma merged_cons ls w t :
  sorted_sources ls → above (h_key w) ls →
  ls !! h_source w = Some ((h_key w, h_value w) :: t) →
  (∀ h, h ∈ heads_from 0 ls → h = w ∨ before w h) →
  merged ls = (h_key w, h_value w) :: merged (advance (h_key w) <$> ls).
Proof.
  intros Hs Ha Hi Hall. unfold merged. rewrite newest_concat_advance by done.
  apply bt_iter_cons; [by eapply winner_newest|].
  intros k v Hin%newest_lookup. apply elem_of_concat in Hin as (l & Hl & Hin). by eapply (Ha l (k, v)).
Qed.

Lemma next_merged {E} it ls :
  rep it ls → sorted_sources ls →
  match merged ls with
  | [] => next (E:=E) it = Ok (None, it)
  | e :: rest => ∃ it' ls', next (E:=E) it = Ok (Some e, it') ∧ rep it' ls' ∧
      sorted_sources ls' ∧ (total ls' < total ls)%nat ∧ merged ls' = rest
  end.
Proof.
  intros Hr Hs. destruct (heap it) as [|w hp] eqn:Hh.
  - rewrite merged_nil by by eapply rep_done. unfold next. by rewrite Hh.
  - destruct (next_rep (E:=E) it ls w hp Hr Hs Hh) as (it' & Hn & Hr' & Ha & [t Hi] & Hall).
    erewrite merged_cons by done. do 2 eexists. split_and!; [done|done|..|done].
    + by apply sorted_sources_advance.
    + by eapply total_advance_lt.
Qed.

Lemma collect_loop_rep {E} fuel it ls :
  rep it ls → sorted_sources ls → (total ls < fuel)%nat →
  collect_loop (E:=E) fuel it = Ok (merged ls).
Proof.
  revert it ls. induction fuel as [|fuel IH]; intros it ls Hr Hs Hf; [lia|]. simpl.
  pose proof (next_merged (E:=E) it ls Hr Hs) as Hn. destruct (merged ls) as [|e rest].
  - by rewrite Hn.
  - destruct Hn as (it' & ls' & Hn & Hr' & Hs' & Ht & <-). rewrite Hn. cbn [mbind outcome_bind].
    by rewrite (IH it' ls') by (done || lia).
Qed.

Lemma collect_ok {E} ls :
  sorted_sources ls → collect (E:=E) (new ls) = Ok (merged ls).
Proof.
  intros Hs. pose proof (new_rep ls) as Hr. apply collect_loop_rep; [done..|].
  rewrite (pending_rep _ _ Hr). lia.
Qed.

(** ** Live entries *)

(** The live pairs of a list of entries. *)
Definition live_of (l : list Entry) : list (bytes * bytes) :=
  omap (λ kv, v ← as_value kv.2; Some (kv.1, v)) l.

Lemma live_loop_rep {E} fuel it ls :
  rep it ls → sorted_sources ls → (total ls < fuel)%nat →
  match live_of (merged ls) with
  | [] => ∃ it', live_loop (E:=E) fuel it = Ok (None, it')
  | kv :: rest => ∃ it' ls', live_loop (E:=E) fuel it = Ok (Some kv, it') ∧ rep it' ls' ∧
      sorted_sources ls' ∧ (total ls' < total ls)%nat ∧ live_of (merged ls') = rest
  end.
Proof.
  revert it ls. induction fuel as [|fuel IH]; intros it ls Hr Hs Hf; [lia|].
  cbn [live_loop]. pose proof (next_merged (E:=E) it ls Hr Hs) as Hn.
  destruct (merged ls) as [|[k [s [v|]]] rest]; simpl.
  - rewrite Hn. by eexists.
  - destruct Hn as (it' & ls' & Hn & Hr' & Hs' & Ht & <-). rewrite Hn. by do 2 eexists.
  - destruct Hn as (it' & ls' & Hn & Hr' & Hs' & Ht & <-). rewrite Hn. cbn [mbind outcome_bind].
    simpl. specialize (IH it' ls' Hr' Hs'). fold (live_of (merged ls')).
    destruct (live_of (merged ls')); [apply IH; lia|].
    destruct IH as (it2 & ls2 & ? & ? & ? & ? & ?); [lia|]. exists it2, ls2. split_and!; [done..|lia|done].
Qed.

Lemma live_collect_loop_rep {E} fuel it ls :
  rep it ls → sorted_sources ls → (total ls < fuel)%nat →
  live_collect_loop (E:=E) fuel it = Ok (live_of (merged ls)).
Proof.
  revert it ls. induction fuel as [|fuel IH]; intros it ls Hr Hs Hf; [lia|]. simpl.
  pose proof (live_loop_rep (E:=E) (S (pending it)) it ls Hr Hs) as Hn.
  rewrite (pending_rep _ _ Hr) in Hn. unfold live_next. rewrite (pending_rep _ _ Hr).
  destruct (live_of (merged ls)) as [|e rest].
  - destruct Hn as [it' ->]; [lia|done].
  - destruct Hn as (it' & ls' & -> & Hr' & Hs' & Ht & <-); [lia|]. cbn [mbind outcome_bind].
    by rewrite (IH it' ls') by (done || lia).
Qed.

Lemma live_collect_ok {E} ls :
  sorted_sources ls → live_collect (E:=E) (new ls) = Ok (live_of (merged ls)).
Proof.
  intros Hs. pose proof (new_rep ls) as Hr. apply live_collect_loop_rep; [done..|].
  rewrite (pending_rep _ _ Hr). lia.
Qed.

Lemma elem_of_live_of (l : list Entry) k b :
  (k, b) ∈ live_of l ↔ ∃ w, (k, w) ∈ l ∧ as_value w = Some b.
Proof.
  unfold live_of. rewrite list_elem_of_omap. split.
  - intros ([k' w] & Hin & Hw). simpl in Hw. destruct (as_value w) eqn:Ew; [|done]. simplify_eq/=. eauto.
  - intros (w & Hin & Hw). exists (k, w). simpl. by rewrite Hw.
Qed.

Lemma live_of_sorted (l : list Entry) : sorted_keys l → sorted_keys (live_of l).
Proof.
  induction l as [|[k w] l IH]; [done|]. intros [Hk Hs]%sorted_keys_cons.
  unfold live_of. cbn [omap list_omap fst snd]. fold (live_of l). destruct (as_value w) as [b|]; simpl; [|by apply IH].
  apply sorted_keys_cons. split; [|by apply IH].
  intros [k' b'] (w' & Hw' & _)%elem_of_live_of. by apply (Hk (k', w')).
Qed.

(** C25: draining the merge of sorted sources yields, in ascending key order, each
    key once, with its newest version and, between equal sequence numbers, the
    version of the earlier source. *)
Theorem merge_newest {E} (ls : list (list Entry)) :
  Forall sorted_keys ls → collect (E:=E) (new ls) = Ok (bt_iter (newest (concat ls))).
Proof. apply collect_ok. Qed.

(** Draining the live adapter yields the same, less the keys whose newest
    version is a tombstone. *)
Theorem merge_live {E} (ls : list (list Entry)) :
  Forall sorted_keys ls →
  ∃ out, live_collect (E:=E) (new ls) = Ok out ∧ sorted_keys out ∧
    ∀ k b, (k, b) ∈ out ↔ ∃ v, newest (concat ls) !! k = Some v ∧ kind v = Value b.
Proof.
  intros Hs. exists (live_of (merged ls)). split; [by apply live_collect_ok|].
  split; [apply live_of_sorted, bt_iter_sorted|]. intros k b. rewrite elem_of_live_of. unfold merged.
  setoid_rewrite elem_of_bt_iter. split; intros (w & Hw & Hb); exists w; split; try done.
  - unfold as_value in Hb. by destruct (kind w); simplify_eq.
  - unfold as_value. by rewrite Hb.
Qed.

Definition sample_sources : list (list Entry) :=
  [[([], mkValue 1 (Value []))]; [([], mkValue 2 Tombstone)]].
Lemma sample_sources_sorted : Forall sorted_keys sample_sources.
Proof. repeat constructor. Qed.
Lemma merge_newest_witness :
  collect (E:=()) (new sample_sources) = Ok [([], mkValue 2 Tombstone)].
Proof. rewrite (merge_newest sample_sources sample_sources_sorted). reflexivity. Defined.
Lemma merge_live_witness :
  ∃ out, live_collect (E:=()) (new sample_sources) = Ok out ∧ sorted_keys out.
Proof. destruct (merge_live (E:=()) sample_sources sample_sources_sorted) as (out & H1 & H2 & _). by exists out. Defined.

End MergeSpec.
