(* ===== verification/SsFormat.v ===== *)
(** The SSTable format's shared parts ([src/sstable/mod.rs]): constants, values,
    entries, errors, and the bounds-checked cursor every decoder reads with. *)
From S2P Require Export Storage.
From Stdlib Require Import Strings.String.

Module SsFormat.

Definition BLOCK_SIZE : Z := 4096.
Definition FOOTER_MAGIC : Z := 0x4143_4352_5F53_5354.
Definition FORMAT_VERSION : Z := 1.

(** [Value]; [ValueRef] is the same data borrowed. *)
Inductive Value : Type := Put (v : bytes) | Delete.
Record Entry : Type := mkEntry { key : bytes; seq : Z; value : Value }.

(** The formatted message of [Corrupt], as the data it is formatted from. *)
Inductive Corruption : Type :=
  | UnexpectedEnd (need have : Z)
  | BloomNumBits (num_bits : Z)
  | BloomNumHashes
  | BloomLength (len num_bits : Z)
  | ShorterThanFooter (file_len : Z)
  | FooterMagic
  | UnsupportedVersion (version : Z)
  | ShortRead (offset wanted got : Z)
  | TooShortForCrc (what : string)
  | CrcMismatch (what : string) (stored computed : Z)
  | RegionPastLimit (what : string) (offset len limit : Z)
  | UnknownValueTag (tag : Z)
  | WalRecordTruncated
  | WalRecordTag (tag : Z).

Inductive SsTableError : Type :=
  | Storage (e : StorageError)
  | Corrupt (why : Corruption)
  | Unsorted.

(** * The cursor *)

Record Cursor : Type := mkCursor { buf : bytes; pos : Z }.

(** [Cursor::new], [remaining], [take], [u32], [u64], [u8]. *)
Definition cursor_new (b : bytes) : Cursor := mkCursor b 0.
Definition remaining (c : Cursor) : Z := blen (buf c) - pos c.
Definition cur_take (n : Z) : M Cursor SsTableError bytes := λ c,
  if decide (remaining c < n) then (Err (Corrupt (UnexpectedEnd n (remaining c))), c)
  else match slice (E:=SsTableError) (buf c) (pos c) (pos c + n) with
       | Ok out => (Ok out, mkCursor (buf c) (pos c + n))
       | r => (r, c)
       end.
Definition cur_u32 : M Cursor SsTableError Z := b ← cur_take 4; mret (of_le b).
Definition cur_u64 : M Cursor SsTableError Z := b ← cur_take 8; mret (of_le b).
Definition cur_u8 : M Cursor SsTableError Z :=
  b ← cur_take 1; x ← expect (b !! 0%nat); mret (byte.unsigned x).

(** * Reading what was written *)

(** A cursor that has read [pre] and has [post] left. *)
Definition cur_at (pre post : bytes) : Cursor := mkCursor (pre ++ post) (blen pre).

Lemma cursor_new_at b : cursor_new b = cur_at [] b.
Proof. done. Qed.

Lemma remaining_at pre post : remaining (cur_at pre post) = blen post.
Proof. unfold remaining, cur_at. simpl. rewrite blen_app. lia. Qed.

Lemma take_at n pre mid post :
  n = blen mid → cur_take n (cur_at pre (mid ++ post)) = (Ok mid, cur_at (pre ++ mid) post).
Proof.
  intros ->. unfold cur_take. rewrite remaining_at, blen_app. pose proof (blen_nonneg post).
  rewrite decide_False by lia. unfold cur_at. simpl. rewrite slice_app by done.
  by rewrite <- (assoc_L (++)), blen_app.
Qed.

Lemma u32_at v pre post :
  0 ≤ v < 2 ^ 32 → cur_u32 (cur_at pre (le32 v ++ post)) = (Ok v, cur_at (pre ++ le32 v) post).
Proof.
  intros Hv. unfold cur_u32. erewrite bind_ok by (apply take_at; by rewrite blen_le32).
  by rewrite of_le_le32, u32_wrap_id.
Qed.
Lemma u64_at v pre post :
  0 ≤ v < 2 ^ 64 → cur_u64 (cur_at pre (le64 v ++ post)) = (Ok v, cur_at (pre ++ le64 v) post).
Proof.
  intros Hv. unfold cur_u64. erewrite bind_ok by (apply take_at; by rewrite blen_le64).
  by rewrite of_le_le64, u64_wrap_id.
Qed.
Lemma u8_at x pre post :
  cur_u8 (cur_at pre (x :: post)) = (Ok (byte.unsigned x), cur_at (pre ++ [x]) post).
Proof. unfold cur_u8. by erewrite bind_ok by by apply (take_at 1 pre [x]). Qed.

(** Reading past the end is an error, never a panic. *)
Lemma take_short n pre post :
  blen post < n → cur_take n (cur_at pre post) = (Err (Corrupt (UnexpectedEnd n (blen post))), cur_at pre post).
Proof. intros Hn. unfold cur_take. rewrite remaining_at. by rewrite decide_True. Qed.

End SsFormat.
