(* ===== verification/Bloom.v ===== *)
(** The per-table Bloom filter ([src/sstable/bloom.rs]): its sizing, the double
    hashing of the probes, insertion and membership, its encoding. *)
From S2P Require Export SsFormat Float.

Module Bloom.
Import SsFormat.

Record BloomFilter : Type := mkBloom {
  bits : bytes;
  num_bits : Z;
  num_hashes : Z;
}.

Section bloom.
Context `{!Xxh3} {E : Type}.

(** [BloomFilter::new(expected_keys, bits_per_key)]. *)
Definition new (expected_keys bits_per_key : Z) : BloomFilter :=
  let n := Z.max expected_keys 1 in
  let target_bits := Z.max (u64_saturating_mul n bits_per_key) 64 in
  let num_bytes := (target_bits + 7) / 8 in
  let num_bits := u32_wrap (u64_mul num_bytes 8) in
  let k := f64_round_i64 (f64_mul (f64_div (f64_of num_bits) (f64_of n)) LN_2) in
  let num_hashes := Z.max 1 (Z.min k 30) in
  mkBloom (replicate (Z.to_nat num_bytes) (byte.of_Z 0)) num_bits num_hashes.

(** [hashes(key)]: the remainder by zero panics. *)
Definition hashes (b : BloomFilter) (key : bytes) : outcome E (Z * Z) :=
  let h := xxh3_128 key in
  let h1 := u64_wrap h in
  let m := num_bits b in
  if decide (u64_sub m 1 = 0) then Panic
  else Ok (h1, u64_add (u64_wrap (Z.shiftr h 64) mod (u64_sub m 1)) 1).

(** One index of [probes(key)]. *)
Definition probe (b : BloomFilter) (h : Z * Z) (i : Z) : outcome E Z :=
  if decide (num_bits b = 0) then Panic
  else Ok (u32_wrap (u64_add h.1 (u64_mul i h.2) mod num_bits b)).

(** [self.bits[(idx / 8) as usize]]. *)
Definition bit_byte (bs : bytes) (idx : Z) : outcome E u8 :=
  match bs !! Z.to_nat (idx / 8) with Some x => Ok x | None => Panic end.

(** [self.bits[idx / 8] |= 1 << (idx % 8)], and the test of the same bit. *)
Definition set_bit (bs : bytes) (idx : Z) : outcome E bytes :=
  x ← bit_byte bs idx;
  Ok (<[Z.to_nat (idx / 8) :=
        byte.of_Z (Z.lor (byte.unsigned x) (Z.shiftl 1 (idx mod 8)))]> bs).
Definition test_bit (bs : bytes) (idx : Z) : outcome E bool :=
  x ← bit_byte bs idx;
  Ok (negb (Z.land (byte.unsigned x) (Z.shiftl 1 (idx mod 8)) =? 0)).

(** The indices [0..num_hashes]. *)
Definition probe_range (b : BloomFilter) : list Z := seqZ 0 (num_hashes b).

(** [probes(key).collect()]. *)
Fixpoint probes_loop (b : BloomFilter) (h : Z * Z) (js : list Z) : outcome E (list Z) :=
  match js with
  | [] => Ok []
  | i :: js' => p ← probe b h i; ps ← probes_loop b h js'; Ok (p :: ps)
  end.
Definition probes (b : BloomFilter) (key : bytes) : outcome E (list Z) :=
  h ← hashes b key; probes_loop b h (probe_range b).

(** [insert(key)]. *)
Fixpoint set_bits (bs : bytes) (idxs : list Z) : outcome E bytes :=
  match idxs with
  | [] => Ok bs
  | i :: idxs' => bs ← set_bit bs i; set_bits bs idxs'
  end.
Definition insert (key : bytes) (b : BloomFilter) : outcome E BloomFilter :=
  ps ← probes b key;
  bs ← set_bits (bits b) ps;
  Ok (mkBloom bs (num_bits b) (num_hashes b)).

(** [contains(key)]: [all] stops at the first clear bit. *)
Fixpoint all_set (b : BloomFilter) (h : Z * Z) (js : list Z) : outcome E bool :=
  match js with
  | [] => Ok true
  | i :: js' =>
      p ← probe b h i;
      t ← test_bit (bits b) p;
      if t : bool then all_set b h js' else Ok false
  end.
Definition contains (b : BloomFilter) (key : bytes) : outcome E bool :=
  h ← hashes b key; all_set b h (probe_range b).
End bloom.

(** [encode(buf)]: the bytes it appends. *)
Definition encode (b : BloomFilter) : bytes :=
  le32 (num_bits b) ++ le32 (num_hashes b) ++ le64 (blen (bits b)) ++ bits b.

(** [decode(cur)]. *)
Definition decode : M Cursor SsTableError BloomFilter :=
  num_bits ← cur_u32;
  num_hashes ← cur_u32;
  byte_len ← cur_u64;
  bits ← cur_take byte_len;
  _ ← guard_err (bool_decide (num_bits = 0 ∨ num_bits mod 8 ≠ 0)) (Corrupt (BloomNumBits num_bits));
  _ ← guard_err (bool_decide (num_hashes = 0)) (Corrupt BloomNumHashes);
  _ ← guard_err (bool_decide (num_bits / 8 ≠ blen bits)) (Corrupt (BloomLength (blen bits) num_bits));
  mret (mkBloom bits num_bits num_hashes).

Example new_sized : new 100 10 = mkBloom (replicate 125 (byte.of_Z 0)) 1000 7.
Proof. vm_compute. reflexivity. Qed.

(** * No false negatives *)

Section facts.
Context `{!Xxh3} {E : Type}.
Implicit Types (b : BloomFilter) (bs key : bytes) (j : Z).

(** Filters as [new] builds them: byte-aligned, small enough for [u32]. *)
Record wf b : Prop := {
  wf_len : num_bits b = 8 * blen (bits b);
  wf_bits : 8 ≤ num_bits b < 2 ^ 32;
  wf_hashes : 1 ≤ num_hashes b < 2 ^ 32;
}.

Lemma new_wf n k :
  0 ≤ k → Z.max n 1 * k ≤ 2 ^ 32 - 16 → wf (new n k).
Proof.
  intros Hk Hmax. unfold new, u64_saturating_mul.
  set (t := Z.max (Z.min _ _) 64).
  assert (Ht : 64 ≤ t ≤ 2 ^ 32 - 16) by (unfold t, u64_max; lia).
  pose proof (Z.div_mod (t + 7) 8 ltac:(done)) as Hd. pose proof (Z.mod_pos_bound (t + 7) 8 ltac:(done)) as Hm.
  set (nb := (t + 7) / 8) in *. unfold u64_mul.
  rewrite (u64_wrap_id (nb * 8)) by lia. rewrite u32_wrap_id by lia.
  assert (Hlen : blen (replicate (Z.to_nat nb) (byte.of_Z 0)) = nb).
  { unfold blen. rewrite length_replicate. lia. }
  split; simpl; [rewrite Hlen; lia|lia|lia].
Qed.

(** The bit at [j]. *)
Definition bit bs j : bool :=
  match bs !! Z.to_nat (j / 8) with Some x => Z.testbit (byte.unsigned x) (j mod 8) | None => false end.

Lemma bit_byte_ok bs j :
  0 ≤ j < 8 * blen bs → ∃ x, bs !! Z.to_nat (j / 8) = Some x ∧ bit_byte (E:=E) bs j = Ok x.
Proof.
  intros Hj. assert (0 ≤ j / 8 < blen bs).
  { split; [apply Z.div_pos; lia|apply Z.div_lt_upper_bound; lia]. }
  destruct (lookup_lt_is_Some_2 bs (Z.to_nat (j / 8))) as [x Hx]; [unfold blen in *; lia|].
  exists x. unfold bit_byte. by rewrite Hx.
Qed.

Lemma test_bit_ok bs j :
  0 ≤ j < 8 * blen bs → test_bit (E:=E) bs j = Ok (bit bs j).
Proof.
  intros Hj. destruct (bit_byte_ok bs j Hj) as (x & Hx & Hb). unfold test_bit, bit.
  rewrite Hb, Hx. cbn [mbind outcome_bind]. f_equal.
  pose proof (Z.mod_pos_bound j 8 ltac:(done)) as Hm.
  destruct (Z.testbit (byte.unsigned x) (j mod 8)) eqn:Ht.
  - destruct (Z.eqb_spec (Z.land (byte.unsigned x) (Z.shiftl 1 (j mod 8))) 0) as [E0|]; [|done].
    apply (f_equal (λ z, Z.testbit z (j mod 8))) in E0.
    rewrite Z.land_spec, Ht, Z.shiftl_spec, Z.sub_diag, Z.bits_0 in E0 by lia. done.
  - assert (Z.land (byte.unsigned x) (Z.shiftl 1 (j mod 8)) = 0) as ->; [|done].
    apply Z.bits_inj'. intros n Hn. rewrite Z.land_spec, Z.bits_0, Z.shiftl_1_l.
    rewrite Z.pow2_bits_eqb by lia. destruct (Z.eqb_spec (j mod 8) n) as [<-|]; [by rewrite Ht|].
    apply andb_false_r.
Qed.

Lemma set_bit_ok bs j :
  0 ≤ j < 8 * blen bs →
  ∃ bs', set_bit (E:=E) bs j = Ok bs' ∧ blen bs' = blen bs ∧
    ∀ i, 0 ≤ i < 8 * blen bs → bit bs' i = bit bs i || (i =? j).
Proof.
  intros Hj. destruct (bit_byte_ok bs j Hj) as (x & Hx & Hb). unfold set_bit. rewrite Hb.
  cbn [mbind outcome_bind]. eexists. split; [done|]. split.
  { unfold blen. by rewrite length_insert. }
  intros i Hi. unfold bit at 1 2. pose proof (lookup_lt_Some _ _ _ Hx) as Hlt.
  pose proof (Z.mod_pos_bound i 8 ltac:(done)). pose proof (Z.mod_pos_bound j 8 ltac:(done)).
  pose proof (Z.div_mod i 8 ltac:(done)) as Di. pose proof (Z.div_mod j 8 ltac:(done)) as Dj.
  assert (0 ≤ i / 8 ∧ 0 ≤ j / 8) as [? ?] by (split; apply Z.div_pos; lia).
  destruct (decide (Z.to_nat (j / 8) = Z.to_nat (i / 8))) as [E1|E1].
  - assert (Ed : i / 8 = j / 8) by lia. rewrite Ed in *. rewrite list_lookup_insert_eq, Hx by done.
    rewrite byte.unsigned_of_Z. unfold byte.wrap. rewrite Z.mod_pow2_bits_low by lia.
    rewrite Z.lor_spec, Z.shiftl_1_l, Z.pow2_bits_eqb by lia. f_equal.
    destruct (Z.eqb_spec (j mod 8) (i mod 8)), (Z.eqb_spec i j); lia.
  - rewrite list_lookup_insert_ne by done. destruct (Z.eqb_spec i j); [by subst|]. by rewrite orb_false_r.
Qed.

Lemma set_bits_ok bs js :
  Forall (λ j, 0 ≤ j < 8 * blen bs) js →
  ∃ bs', set_bits (E:=E) bs js = Ok bs' ∧ blen bs' = blen bs ∧
    (∀ i, 0 ≤ i < 8 * blen bs → bit bs i = true → bit bs' i = true) ∧
    (∀ i, i ∈ js → bit bs' i = true).
Proof.
  revert bs. induction js as [|j js IH]; intros bs Hjs; simpl.
  { exists bs. split_and!; try done. by intros i ?%elem_of_nil. }
  apply Forall_cons in Hjs as [Hj Hjs].
  destruct (set_bit_ok bs j Hj) as (bs1 & -> & Hl1 & Hb1). cbn [mbind outcome_bind].
  destruct (IH bs1) as (bs2 & -> & Hl2 & Hm2 & Hs2); [by rewrite Hl1|].
  exists bs2. split_and!; [done|by rewrite Hl2| |].
  - intros i Hi Hb. apply Hm2; [by rewrite Hl1|]. by rewrite Hb1, Hb.
  - intros i [->|Hi]%elem_of_cons; [|by apply Hs2].
    apply Hm2; [by rewrite Hl1|]. rewrite Hb1 by done. by rewrite Z.eqb_refl, orb_true_r.
Qed.

(** The indices [key] probes in a well-formed filter. *)
Lemma hashes_ok b key : wf b → ∃ h, hashes (E:=E) b key = Ok h.
Proof.
  intros [? ? _]. unfold hashes, u64_sub. rewrite u64_wrap_id by lia.
  rewrite decide_False by lia. eauto.
Qed.

Lemma probe_ok b h i :
  wf b → ∃ p, probe (E:=E) b h i = Ok p ∧ 0 ≤ p < 8 * blen (bits b).
Proof.
  intros [Hl Hb _]. unfold probe. rewrite decide_False by lia.
  pose proof (Z.mod_pos_bound (u64_add h.1 (u64_mul i h.2)) (num_bits b) ltac:(lia)).
  eexists. split; [done|]. rewrite u32_wrap_id; lia.
Qed.

Lemma probes_loop_ok b h js :
  wf b → ∃ ps, probes_loop (E:=E) b h js = Ok ps ∧ Forall (λ j, 0 ≤ j < 8 * blen (bits b)) ps ∧
    ∀ i p, i ∈ js → probe (E:=E) b h i = Ok p → p ∈ ps.
Proof.
  intros Hwf. induction js as [|i js IH]; simpl.
  { exists []. split_and!; [done|constructor|]. by intros i p ?%elem_of_nil. }
  destruct (probe_ok b h i Hwf) as (p & Hp & Hr). destruct IH as (ps & -> & Hf & Hin).
  rewrite Hp. exists (p :: ps). split_and!; [done|by constructor|].
  intros i' p' [->|Hi]%elem_of_cons Hp'; [assert (p' = p) as -> by congruence; by left|]. right. by eapply Hin.
Qed.

(** What [contains] reads back. *)
Definition holds b key : Prop :=
  ∃ h, hashes (E:=E) b key = Ok h ∧
    ∀ i p, i ∈ probe_range b → probe (E:=E) b h i = Ok p → bit (bits b) p = true.

Lemma all_set_ok b h js :
  wf b → (∀ i p, i ∈ js → probe (E:=E) b h i = Ok p → bit (bits b) p = true) →
  all_set (E:=E) b h js = Ok true.
Proof.
  intros Hwf. induction js as [|i js IH]; intros Hall; [done|]. simpl.
  destruct (probe_ok b h i Hwf) as (p & Hp & Hr). rewrite Hp. cbn [mbind outcome_bind].
  rewrite test_bit_ok by done. rewrite (Hall i p) by (done || by left). cbn [mbind outcome_bind].
  apply IH. intros i' p' Hi. apply Hall. by right.
Qed.

Lemma contains_holds b key : wf b → holds b key → contains (E:=E) b key = Ok true.
Proof.
  intros Hwf (h & Hh & Hall). unfold contains. rewrite Hh. by apply all_set_ok.
Qed.

Lemma contains_ok b key : wf b → ∃ r, contains (E:=E) b key = Ok r.
Proof.
  intros Hwf. unfold contains. destruct (hashes_ok b key Hwf) as [h ->]. cbn [mbind outcome_bind].
  induction (probe_range b) as [|i js IH]; simpl; [eauto|].
  destruct (probe_ok b h i Hwf) as (p & -> & Hr). cbn [mbind outcome_bind].
  rewrite test_bit_ok by done. cbn [mbind outcome_bind]. destruct (bit _ _); eauto.
Qed.

Lemma insert_ok b key :
  wf b → ∃ b', insert (E:=E) key b = Ok b' ∧ wf b' ∧ holds b' key ∧
    (∀ key', holds b key' → holds b' key').
Proof.
  intros Hwf. unfold insert, probes. destruct (hashes_ok b key Hwf) as [h Hh].
  rewrite Hh. cbn [mbind outcome_bind].
  destruct (probes_loop_ok b h (probe_range b) Hwf) as (ps & -> & Hf & Hin). cbn [mbind outcome_bind].
  destruct (set_bits_ok (bits b) ps Hf) as (bs & -> & Hl & Hm & Hs). cbn [mbind outcome_bind].
  eexists. split; [done|]. pose proof Hwf as [H1 H2 H3]. split_and!.
  - split; simpl; [by rewrite Hl|done..].
  - exists h. split; [done|]. intros i p Hi Hp. apply Hs. by eapply Hin.
  - intros key' (h' & Hh' & Hall). exists h'. split; [done|]. intros i p Hi Hp.
    destruct (probe_ok b h' i Hwf) as (p' & Hp' & Hr). assert (p' = p) as -> by (unfold probe in *; simpl in *; congruence).
    apply Hm; [done|]. by eapply Hall.
Qed.

Lemma insert_num_bits b key b' : insert (E:=E) key b = Ok b' → num_bits b' = num_bits b.
Proof.
  unfold insert. destruct (probes b key) as [ps| |]; try done. cbn [mbind outcome_bind].
  destruct (set_bits (bits b) ps); try done. cbn [mbind outcome_bind]. by intros [= <-].
Qed.

(** Inserting the keys of a table. *)
Fixpoint insert_all (keys : list bytes) b : outcome E BloomFilter :=
  match keys with
  | [] => Ok b
  | k :: keys' => b ← insert k b; insert_all keys' b
  end.

Lemma insert_all_ok keys b :
  wf b → ∃ b', insert_all keys b = Ok b' ∧ wf b' ∧
    (∀ k, holds b k ∨ k ∈ keys → holds b' k).
Proof.
  revert b. induction keys as [|k keys IH]; intros b Hwf; simpl.
  { exists b. split_and!; try done. intros k [?|?%elem_of_nil]; done. }
  destruct (insert_ok b k Hwf) as (b1 & -> & Hwf1 & Hk & Hm). cbn [mbind outcome_bind].
  destruct (IH b1 Hwf1) as (b2 & -> & Hwf2 & Hin). exists b2. split_and!; [done..|].
  intros k' [Hk'|[->|Hk']%elem_of_cons]; apply Hin; eauto.
Qed.

(** * Encoding *)

Lemma blen_bloom_encode b : blen (encode b) = 16 + blen (bits b).
Proof. unfold encode. rewrite !blen_app, !blen_le32, blen_le64. lia. Qed.

Lemma decode_encode b pre post :
  wf b → decode (cur_at pre (encode b ++ post)) = (Ok b, cur_at (pre ++ encode b) post).
Proof.
  destruct b as [bs nb nh]. intros [Hl Hb Hh]. cbn [bits num_bits num_hashes] in *.
  unfold decode, encode. cbn [bits num_bits num_hashes]. rewrite <- !(assoc_L (++)).
  erewrite bind_ok by (apply u32_at; lia). erewrite bind_ok by (apply u32_at; lia).
  erewrite bind_ok by (apply u64_at; pose proof (blen_nonneg bs); lia).
  erewrite bind_ok by by apply take_at. subst nb.
  rewrite !(Z.mul_comm 8), Z.mod_mul, Z.div_mul by done.
  rewrite !bool_decide_eq_false_2 by lia. unfold guard_err. rewrite !bind_ret.
  by rewrite <- !(assoc_L (++)).
Qed.

(** C38: a filter sized for its keys, filled with them, written out and read back
    answers [true] for every one of them: it has no false negatives. *)
Theorem bloom_no_false_negatives n k (keys : list bytes) (pre post : bytes) :
  0 ≤ k → Z.max n 1 * k ≤ 2 ^ 32 - 16 →
  ∃ b c, insert_all keys (new n k) = Ok b ∧
    decode (cur_at pre (encode b ++ post)) = (Ok b, c) ∧
    ∀ key, key ∈ keys → contains (E:=E) b key = Ok true.
Proof.
  intros Hk Hmax. destruct (insert_all_ok keys (new n k)) as (b & Hb & Hwf & Hin); [by apply new_wf|].
  exists b, (cur_at (pre ++ encode b) post). split; [done|]. split; [by apply decode_encode|].
  intros key Hkey. apply contains_holds; [done|]. apply Hin. by right.
Qed.

End facts.

Lemma bloom_no_false_negatives_witness :
  ∃ b c, insert_all (E:=()) (H:=Sample.xxh3) [[]] (new 1 10) = Ok b ∧
    decode (cur_at [] (encode b ++ [])) = (Ok b, c) ∧
    ∀ key, key ∈ [[]] → contains (E:=()) (H:=Sample.xxh3) b key = Ok true.
Proof. apply (bloom_no_false_negatives (H:=Sample.xxh3) 1 10 [[]] [] []); lia. Defined.

End Bloom.
