(* ===== verification/SsTable.v ===== *)
(** SSTables ([src/sstable/builder.rs], [src/sstable/reader.rs]): the streaming
    builder with its blocks, sparse index, filter and footer; the reader with its
    checks, point lookup and forward iterator. *)
From Stdlib Require Import Strings.String.
From S2P Require Export Bloom.

Module SsTable.
Import SsFormat Bloom.

Definition DEFAULT_BITS_PER_KEY : Z := 10.
Definition TAG_DELETE : Z := 0.
Definition TAG_PUT : Z := 1.
Definition FOOTER_SIZE : Z := 48.

(** * The builder *)

Record SsTableSummary : Type := mkSummary {
  s_num_entries : Z;
  s_first_key : option bytes;
  s_last_key : option bytes;
  s_file_len : Z;
}.

Record IndexEntry : Type := mkIndex { ie_first_key : bytes; ie_offset : Z; ie_len : Z }.

Record SsTableBuilder : Type := mkBuilder {
  b_path : path;
  block : bytes;
  block_first_key : option bytes;
  index : list IndexEntry;
  bloom : BloomFilter;
  offset : Z;
  num_entries : Z;
  last_key : option bytes;
  first_key : option bytes;
}.

(** [encoded_entry_len(key, value)], [encode_entry(buf, key, seq, value)]. *)
Definition encoded_entry_len (key : bytes) (v : Value) : Z :=
  let value_part := match v with Put v => u64_add 4 (blen v) | Delete => 0 end in
  u64_add (u64_add (u64_add (u64_add 4 (blen key)) 8) 1) value_part.
Definition encode_entry (key : bytes) (seq : Z) (v : Value) : bytes :=
  le32 (u32_wrap (blen key)) ++ key ++ le64 seq ++
  match v with
  | Put v => byte.of_Z TAG_PUT :: le32 (u32_wrap (blen v)) ++ v
  | Delete => [byte.of_Z TAG_DELETE]
  end.

(** The index block's body: the count, then each entry. *)
Definition encode_index_entry (e : IndexEntry) : bytes :=
  le32 (u32_wrap (blen (ie_first_key e))) ++ ie_first_key e ++ le64 (ie_offset e) ++ le32 (ie_len e).
Definition encode_index (es : list IndexEntry) : bytes :=
  le32 (u32_wrap (blen es)) ++ concat (encode_index_entry <$> es).

(** The footer's body. *)
Definition encode_footer (index_off index_len bloom_off bloom_len num_entries : Z) : bytes :=
  le64 FOOTER_MAGIC ++ le32 FORMAT_VERSION ++ le64 index_off ++ le32 index_len ++
  le64 bloom_off ++ le32 bloom_len ++ le64 num_entries.

Section sstable.
Context `{!Crc32, !Xxh3} {S : Type} `{!Storage.Storage S}.

(** A structure followed by its CRC. *)
Definition with_crc (body : bytes) : bytes := body ++ le32 (crc32_hash body).

(** [SsTableBuilder::new(storage, path, expected_keys, bits_per_key)]. *)
Definition builder_new (p : path) (expected_keys bits_per_key : Z)
    : M S SsTableError SsTableBuilder :=
  _ ← map_err Storage (fs_create p);
  mret (mkBuilder p [] None [] (Bloom.new expected_keys bits_per_key) 0 0 None None).

Definition set_block (blk : bytes) (b : SsTableBuilder) : SsTableBuilder :=
  mkBuilder (b_path b) blk (block_first_key b) (index b) (bloom b) (offset b)
    (num_entries b) (last_key b) (first_key b).
Definition set_offset (o : Z) (b : SsTableBuilder) : SsTableBuilder :=
  mkBuilder (b_path b) (block b) (block_first_key b) (index b) (bloom b) o
    (num_entries b) (last_key b) (first_key b).

(** [seal_block]. *)
Definition seal_block : M (SsTableBuilder * S) SsTableError () :=
  b ← get_fst;
  if decide (block b = []) then mret () else
  let blk := with_crc (block b) in
  _ ← mod_fst (set_block blk);
  let block_offset := offset b in
  let block_len := u32_wrap (blen blk) in
  _ ← on_snd (map_err Storage (fs_append (b_path b) blk));
  _ ← mod_fst (set_offset (u64_add (offset b) block_len));
  k ← expect (block_first_key b);
  mod_fst (λ b, mkBuilder (b_path b) [] None (index b ++ [mkIndex k block_offset block_len])
                  (bloom b) (offset b) (num_entries b) (last_key b) (first_key b)).

(** [get_or_insert]: [if o.is_none() { o = Some(k) }]. *)
Definition or_some (o : option bytes) (k : bytes) : option bytes :=
  match o with None => Some k | Some _ => o end.

(** [add(key, seq, value)]. *)
Definition add (key : bytes) (seq : Z) (v : Value) : M (SsTableBuilder * S) SsTableError () :=
  b ← get_fst;
  _ ← guard_err (match last_key b with Some prev => key ⪯? prev | None => false end) Unsorted;
  let entry_len := encoded_entry_len key v in
  _ ← (if decide (block b ≠ [] ∧ u64_add (blen (block b)) entry_len > BLOCK_SIZE)
       then seal_block else mret ());
  b ← get_fst;
  bloom ← of_outcome (Bloom.insert key (bloom b));
  mod_fst (λ b, mkBuilder (b_path b) (block b ++ encode_entry key seq v)
                  (or_some (block_first_key b) key) (index b) bloom (offset b)
                  (u64_add (num_entries b) 1) (Some key) (or_some (first_key b) key)).

(** One [storage.append] of [finish], and the offset it leaves. *)
Definition put_section (data : bytes) (len : Z) : M (SsTableBuilder * S) SsTableError () :=
  b ← get_fst;
  _ ← on_snd (map_err Storage (fs_append (b_path b) data));
  mod_fst (λ b, set_offset (u64_add (offset b) len) b).

(** [finish()]. *)
Definition finish : M (SsTableBuilder * S) SsTableError SsTableSummary :=
  _ ← seal_block;
  b ← get_fst;
  let index_buf := with_crc (encode_index (index b)) in
  let index_offset := offset b in
  let index_len := u32_wrap (blen index_buf) in
  _ ← put_section index_buf index_len;
  b ← get_fst;
  let bloom_buf := with_crc (Bloom.encode (bloom b)) in
  let bloom_offset := offset b in
  let bloom_len := u32_wrap (blen bloom_buf) in
  _ ← put_section bloom_buf bloom_len;
  let footer := with_crc
    (encode_footer index_offset index_len bloom_offset bloom_len (num_entries b)) in
  _ ← put_section footer (blen footer);
  _ ← on_snd (map_err Storage (fs_sync_file (b_path b)));
  b ← get_fst;
  mret (mkSummary (num_entries b) (first_key b) (last_key b) (offset b)).

(** * The reader *)

Record BlockHandle : Type := mkHandle { h_first_key : bytes; h_offset : Z; h_len : Z }.

Record SsTableReader : Type := mkReader {
  r_path : path;
  r_index : list BlockHandle;
  r_bloom : BloomFilter;
  r_num_entries : Z;
}.

(** [read_exact(storage, path, offset, len)]. *)
Definition read_exact (p : path) (offset len : Z) : M S SsTableError bytes :=
  buf ← map_err Storage (fs_read_at p offset len);
  if decide (blen buf ≠ len) then err (Corrupt (ShortRead offset len (blen buf)))
  else mret buf.

(** [verify_crc(buf, what)]. *)
Definition verify_crc (buf : bytes) (what : string) : outcome SsTableError () :=
  if decide (blen buf < 4) then Err (Corrupt (TooShortForCrc what)) else
  body ← slice buf 0 (blen buf - 4);
  crc_bytes ← slice buf (blen buf - 4) (blen buf);
  let stored := of_le crc_bytes in
  let actual := crc32_hash body in
  if decide (stored ≠ actual) then Err (Corrupt (CrcMismatch what stored actual)) else Ok ().

(** [check_region(offset, len, limit, what)]. *)
Definition check_region (offset len limit : Z) (what : string) : outcome SsTableError () :=
  if decide (u64_saturating_add offset len > limit)
  then Err (Corrupt (RegionPastLimit what offset len limit)) else Ok ().

(** One turn of the loop of [decode_index]. *)
Definition decode_handle : M Cursor SsTableError BlockHandle :=
  key_len ← cur_u32;
  first_key ← cur_take key_len;
  offset ← cur_u64;
  len ← cur_u32;
  mret (mkHandle first_key offset len).
(** [decode_index(buf)]. *)
Definition decode_index (buf : bytes) : outcome SsTableError (list BlockHandle) :=
  body ← slice buf 0 (blen buf - 4);
  ((count ← cur_u32; repeat_m (Z.to_nat count) decode_handle) (cursor_new body)).1.

(** One turn of the loop of [decode_block]. *)
Definition decode_entry : M Cursor SsTableError Entry :=
  key_len ← cur_u32;
  key ← cur_take key_len;
  seq ← cur_u64;
  tag ← cur_u8;
  value ← (if decide (tag = TAG_PUT) then vlen ← cur_u32; v ← cur_take vlen; mret (Put v)
           else if decide (tag = TAG_DELETE) then mret Delete
           else err (Corrupt (UnknownValueTag tag)));
  mret (mkEntry key seq value).
(** [while cur.remaining() > 0]: every turn reads thirteen bytes or fails. *)
Fixpoint decode_block_loop (fuel : nat) : M Cursor SsTableError (list Entry) :=
  match fuel with
  | O => panic
  | Datatypes.S fuel' =>
      c ← get_state;
      if decide (remaining c > 0) then
        e ← decode_entry;
        es ← decode_block_loop fuel';
        mret (e :: es)
      else mret []
  end.
(** [decode_block(buf)]. *)
Definition decode_block (buf : bytes) : outcome SsTableError (list Entry) :=
  (decode_block_loop (Datatypes.S (List.length buf)) (cursor_new buf)).1.

(** [SsTableReader::open(storage, path)]. *)
Definition reader_open (p : path) : M S SsTableError SsTableReader :=
  file_len ← map_err Storage (fs_len p);
  _ ← guard_err (bool_decide (file_len < FOOTER_SIZE)) (Corrupt (ShorterThanFooter file_len));
  footer ← read_exact p (file_len - FOOTER_SIZE) FOOTER_SIZE;
  _ ← of_outcome (verify_crc footer "footer");
  '(index_off, index_len, bloom_off, bloom_len, num_entries) ← of_outcome ((
    magic ← cur_u64;
    _ ← guard_err (bool_decide (magic ≠ FOOTER_MAGIC)) (Corrupt FooterMagic);
    version ← cur_u32;
    _ ← guard_err (bool_decide (version ≠ FORMAT_VERSION)) (Corrupt (UnsupportedVersion version));
    index_off ← cur_u64;
    index_len ← cur_u32;
    bloom_off ← cur_u64;
    bloom_len ← cur_u32;
    num_entries ← cur_u64;
    mret (index_off, index_len, bloom_off, bloom_len, num_entries)) (cursor_new footer)).1;
  let footer_start := file_len - FOOTER_SIZE in
  _ ← of_outcome (check_region index_off index_len footer_start "index");
  _ ← of_outcome (check_region bloom_off bloom_len footer_start "bloom");
  index_buf ← read_exact p index_off index_len;
  _ ← of_outcome (verify_crc index_buf "index");
  index ← of_outcome (decode_index index_buf);
  bloom_buf ← read_exact p bloom_off bloom_len;
  _ ← of_outcome (verify_crc bloom_buf "bloom");
  bloom_body ← of_outcome (slice bloom_buf 0 (blen bloom_buf - 4));
  bloom ← of_outcome (Bloom.decode (cursor_new bloom_body)).1;
  mret (mkReader p index bloom num_entries).

(** [slice::binary_search_by]: halve the window until one element is left. *)
Fixpoint bsearch_loop {A} (fuel : nat) (f : A → comparison) (l : list A) (base size : nat) : nat :=
  match fuel with
  | O => base
  | Datatypes.S fuel' =>
      if decide (size ≤ 1)%nat then base else
      let half := Nat.div2 size in
      let mid := (base + half)%nat in
      let base := match l !! mid with
                  | Some x => match f x with Gt => base | _ => mid end
                  | None => base
                  end in
      bsearch_loop fuel' f l base (size - half)
  end.
Definition binary_search_by {A} (f : A → comparison) (l : list A) : nat + nat :=
  let base := bsearch_loop (List.length l) f l 0 (List.length l) in
  match l !! base with
  | None => inr 0%nat
  | Some x => match f x with
              | Eq => inl base
              | Lt => inr (Datatypes.S base)
              | Gt => inr base
              end
  end.
(** [slice::partition_point]. *)
Definition partition_point {A} (pred : A → bool) (l : list A) : nat :=
  match binary_search_by (λ x, if pred x then Lt else Gt) l with inl i | inr i => i end.

(** [find_block(key)]. *)
Definition find_block (r : SsTableReader) (key : bytes) : option nat :=
  match r_index r with
  | [] => None
  | h0 :: _ =>
      if key ≺? h_first_key h0 then None
      else Some (partition_point (λ h, h_first_key h ⪯? key) (r_index r) - 1)%nat
  end.

(** [load_block(idx)]. *)
Definition load_block (r : SsTableReader) (idx : nat) : M S SsTableError (list Entry) :=
  h ← expect (r_index r !! idx);
  raw ← read_exact (r_path r) (h_offset h) (h_len h);
  _ ← of_outcome (verify_crc raw "data block");
  body ← of_outcome (slice raw 0 (blen raw - 4));
  of_outcome (decode_block body).

(** [may_contain(key)], [get(key)]. *)
Definition may_contain (r : SsTableReader) (key : bytes) : outcome SsTableError bool :=
  Bloom.contains (r_bloom r) key.
Definition get (r : SsTableReader) (k : bytes) : M S SsTableError (option Entry) :=
  present ← of_outcome (Bloom.contains (r_bloom r) k);
  if negb present then mret None else
  match find_block r k with
  | None => mret None
  | Some block_idx =>
      entries ← load_block r block_idx;
      match binary_search_by (λ e, cmp (key e) k) entries with
      | inl i => e ← expect (entries !! i); mret (Some e)
      | inr _ => mret None
      end
  end.

(** [SsTableIter] and [iter()]. *)
Record SsTableIter : Type := mkIter {
  block_idx : nat;
  it_block : list Entry;
  within : nat;
  loaded : bool;
}.
Definition iter_new : SsTableIter := mkIter 0 [] 0 false.

(** [SsTableIter::next]: an error is yielded once and ends the iteration; each
    turn of the loop consumes a block. *)
Fixpoint iter_next (fuel : nat) (r : SsTableReader)
    : M (SsTableIter * S) SsTableError (option Entry) :=
  match fuel with
  | O => panic
  | Datatypes.S fuel' =>
      it ← get_fst;
      match (if loaded it then it_block it !! within it else None) with
      | Some e =>
          _ ← mod_fst (λ it, mkIter (block_idx it) (it_block it) (Datatypes.S (within it)) (loaded it));
          mret (Some e)
      | None =>
          if decide (List.length (r_index r) ≤ block_idx it)%nat then mret None else
          res ← attempt (on_snd (load_block r (block_idx it)));
          match res with
          | inl entries =>
              _ ← mod_fst (λ it, mkIter (Datatypes.S (block_idx it)) entries 0 true);
              iter_next fuel' r
          | inr e =>
              _ ← mod_fst (λ it, mkIter (List.length (r_index r)) [] (within it) false);
              err e
          end
      end
  end.

(** [for entry in reader.iter() { let e = entry?; .. }], the entries collected.
    A block of [len] bytes holds at most [len] entries. *)
Fixpoint drain (fuel : nat) (r : SsTableReader) : M (SsTableIter * S) SsTableError (list Entry) :=
  match fuel with
  | O => panic
  | Datatypes.S fuel' =>
      e ← iter_next (Datatypes.S (Datatypes.S (List.length (r_index r)))) r;
      match e with
      | None => mret []
      | Some e => es ← drain fuel' r; mret (e :: es)
      end
  end.
Definition drain_fuel (r : SsTableReader) : nat :=
  Datatypes.S (sum_list_with (λ h, Z.to_nat (h_len h)) (r_index r)).
Definition entries (r : SsTableReader) : M S SsTableError (list Entry) :=
  with_local iter_new (drain (drain_fuel r) r).

End sstable.
End SsTable.
