(* ===== verification/BinarySearch.v ===== *)
(** Binary search, as [slice::binary_search_by] and [slice::partition_point]
    run it, finds what it should on a partitioned slice. *)
From S2P Require Export SsTable.

Module BinarySearch.
Import SsTable.

Section bsearch.
Context {A : Type} (f : A → comparison) (l : list A).

(** [f] turns to [Gt] once and stays there. *)
Hypothesis mono : ∀ i j x y, (i < j)%nat → l !! i = Some x → l !! j = Some y →
  f x = Gt → f y = Gt.

(** Everything at or above [n] is greater; what is at [base] is not, unless the
    window starts at the front. *)
Definition window (base n : nat) : Prop :=
  (base < n ≤ length l)%nat ∧
  (base = 0%nat ∨ ∃ x, l !! base = Some x ∧ f x ≠ Gt) ∧
  ∀ i x, (n ≤ i)%nat → l !! i = Some x → f x = Gt.

Lemma bsearch_loop_window fuel base size :
  (size ≤ fuel + 1)%nat → window base (base + size) →
  window (bsearch_loop fuel f l base size) (bsearch_loop fuel f l base size + 1).
Proof.
  revert base size. induction fuel as [|fuel IH]; intros base size Hf Hw.
  { destruct Hw as (H1 & H2 & H3). simpl. assert (size = 1%nat) as -> by lia. done. }
  simpl. case_decide as Hs.
  { destruct Hw as (H1 & H2 & H3). assert (size = 1%nat) as -> by lia. done. }
  destruct Hw as (H1 & H2 & H3). set (half := Nat.div2 size).
  assert (Hh : (0 < half < size ∧ 2 * half ≤ size)%nat).
  { unfold half. rewrite Nat.div2_div. pose proof (Nat.Div0.mul_div_le size 2).
    repeat split; [apply Nat.div_str_pos; lia|apply Nat.div_lt; lia|done]. }
  destruct (lookup_lt_is_Some_2 l (base + half)) as [x Hx]; [lia|]. rewrite Hx.
  destruct (f x) eqn:Hfx.
  1,2: apply IH; [lia|]; split_and!; [lia|lia|right; exists x; split; congruence|];
    intros i y Hi; apply H3; lia.
  apply IH; [lia|]. split_and!; [lia|lia|done|].
  intros i y Hi Hy. destruct (decide (i = base + half)%nat) as [->|]; [congruence|].
  eapply (mono (base + half) i); [lia|done..].
Qed.

Lemma bsearch_window :
  l ≠ [] → window (bsearch_loop (length l) f l 0 (length l))
                  (bsearch_loop (length l) f l 0 (length l) + 1).
Proof.
  intros Hl. apply bsearch_loop_window; [lia|]. split_and!; [|lia|by left|].
  - destruct l; simpl; [done|lia].
  - intros i x Hi Hx. apply lookup_lt_Some in Hx. lia.
Qed.
End bsearch.

(** A point lookup in a slice sorted by a key. *)
Lemma binary_search_found {A K} `{!Ord K, !OrdLaws K} (key : A → K) (l : list A) (k : K) :
  StronglySorted olt (key <$> l) →
  match binary_search_by (λ e, cmp (key e) k) l with
  | inl i => ∃ e, l !! i = Some e ∧ key e = k
  | inr _ => ∀ e, e ∈ l → key e ≠ k
  end.
Proof.
  intros Hs.
  assert (Hlt : ∀ i j x y, (i < j)%nat → l !! i = Some x → l !! j = Some y → key x ≺ key y).
  { intros i j x y Hij Hx Hy. apply (StronglySorted_lookup _ _ Hs i j); [done|..];
      rewrite list_lookup_fmap; [by rewrite Hx|by rewrite Hy]. }
  assert (Hmono : ∀ i j x y, (i < j)%nat → l !! i = Some x → l !! j = Some y →
            cmp (key x) k = Gt → cmp (key y) k = Gt).
  { intros i j x y Hij Hx Hy Hg. apply cmp_gt in Hg. apply cmp_gt. etrans; [done|]. by eapply Hlt. }
  unfold binary_search_by. destruct (decide (l = [])) as [->|Hne].
  { simpl. by intros e ?%elem_of_nil. }
  destruct (bsearch_window (λ e, cmp (key e) k) l Hmono Hne) as (H1 & H2 & H3).
  set (base := bsearch_loop _ _ _ _ _) in *.
  destruct (lookup_lt_is_Some_2 l base) as [x Hx]; [lia|]. rewrite Hx.
  assert (Hno : cmp (key x) k ≠ Eq → ∀ e, e ∈ l → key e ≠ k).
  { intros Hxk e [i Hi]%list_elem_of_lookup E.
    destruct (decide (i = base)) as [->|Hib]; [simplify_eq; by rewrite cmp_refl in Hxk|].
    destruct (decide (i < base)%nat).
    - destruct H2 as [H2|(x' & Hx' & H2)]; [lia|]. simplify_eq. apply H2.
      apply cmp_gt. eapply (Hlt i base); done.
    - specialize (H3 i e ltac:(lia) Hi). simpl in H3. by rewrite E, cmp_refl in H3. }
  destruct (cmp (key x) k) eqn:Hc; [|by apply Hno..].
  exists x. split; [done|]. by apply cmp_eq.
Qed.

(** The length of the prefix a predicate holds on. *)
Lemma partition_point_spec {A} (pred : A → bool) (l1 l2 : list A) :
  Forall (λ x, pred x = true) l1 → Forall (λ x, pred x = false) l2 →
  partition_point pred (l1 ++ l2) = length l1.
Proof.
  intros H1 H2. set (l := l1 ++ l2).
  assert (Hp : ∀ i x, l !! i = Some x → pred x = bool_decide (i < length l1)%nat).
  { intros i x Hx. apply lookup_app_Some in Hx as [Hx|[Hle Hx]].
    - pose proof (lookup_lt_Some _ _ _ Hx). rewrite bool_decide_eq_true_2 by done.
      by eapply Forall_lookup_1 in H1.
    - rewrite bool_decide_eq_false_2 by lia. by eapply Forall_lookup_1 in H2. }
  set (f := λ x, if pred x then Lt else Gt).
  assert (Hmono : ∀ i j x y, (i < j)%nat → l !! i = Some x → l !! j = Some y →
            f x = Gt → f y = Gt).
  { intros i j x y Hij Hx Hy. unfold f. rewrite (Hp _ _ Hx), (Hp _ _ Hy).
    repeat case_bool_decide; try done; lia. }
  unfold partition_point, binary_search_by. fold f.
  destruct (decide (l = [])) as [E|Hne].
  { rewrite E. simpl. unfold l in E. apply app_nil in E as [-> _]. done. }
  destruct (bsearch_window f l Hmono Hne) as (Hb1 & Hb2 & Hb3).
  set (base := bsearch_loop _ _ _ _ _) in *.
  destruct (lookup_lt_is_Some_2 l base) as [x Hx]; [lia|]. rewrite Hx. 
  rewrite (Hp _ _ Hx). case_bool_decide as Hlt.
  - destruct (decide (S base < length l1)%nat) as [Hs|]; [|lia].
    assert (Hlen : (S base < length l)%nat) by (unfold l; rewrite length_app; lia).
    destruct (lookup_lt_is_Some_2 l (S base) Hlen) as [y Hy].
    specialize (Hb3 (S base) y ltac:(lia) Hy). unfold f in Hb3.
    rewrite (Hp _ _ Hy), bool_decide_eq_true_2 in Hb3 by done. done.
  - destruct Hb2 as [->|(x' & Hx' & Hb2)]; [lia|]. assert (x' = x) as -> by congruence. unfold f in Hb2.
    by rewrite (Hp _ _ Hx), bool_decide_eq_false_2 in Hb2.
Qed.

End BinarySearch.
