(* ===== verification/SsTableSpec.v ===== *)
(** What an SSTable promises: a table built from strictly increasing entries
    opens, holds exactly those entries, finds each key through the filter, the
    sparse index and the block, and iterates them in order. *)
From Stdlib Require Import Strings.String.
From S2P Require Export BinarySearch.

Module SsTableSpec.
Import SsFormat Bloom SsTable BinarySearch.

(** * The codec *)

Section codec.
Context `{!Crc32, !Crc32Laws}.
Implicit Types (e : Entry) (es : list Entry) (pre post body : bytes).

(** Entries whose fields fit their length words. *)
Definition entry_ok e : Prop :=
  blen (key e) < 2 ^ 32 ∧ 0 ≤ seq e < 2 ^ 64 ∧
  match value e with Put v => blen v < 2 ^ 32 | Delete => True end.

(** The body of a data block. *)
Definition enc e : bytes := encode_entry (key e) (seq e) (value e).
Definition encs es : bytes := concat (enc <$> es).

Lemma blen_enc e :
  blen (enc e) = 13 + blen (key e) + match value e with Put v => 4 + blen v | Delete => 0 end.
Proof.
  unfold enc, encode_entry. destruct (value e); rewrite !blen_app, !blen_le32, !blen_le64, ?blen_cons,
    ?blen_app, ?blen_le32, ?blen_nil; lia.
Qed.
Lemma blen_enc_pos e : 13 ≤ blen (enc e).
Proof. rewrite blen_enc. pose proof (blen_nonneg (key e)). destruct (value e) as [v|]; [pose proof (blen_nonneg v)|]; lia. Qed.

Lemma encs_app es1 es2 : encs (es1 ++ es2) = encs es1 ++ encs es2.
Proof. unfold encs. by rewrite fmap_app, concat_app. Qed.
Lemma encs_snoc es e : encs (es ++ [e]) = encs es ++ enc e.
Proof. rewrite encs_app. unfold encs. simpl. by rewrite app_nil_r. Qed.
Lemma encs_length es : blen es * 13 ≤ blen (encs es).
Proof.
  induction es as [|e es IH]; [done|]. change (encs (e :: es)) with (enc e ++ encs es).
  rewrite blen_cons, blen_app. pose proof (blen_enc_pos e). lia.
Qed.

Lemma encoded_entry_len_ok key v :
  blen key < 2 ^ 32 → match v with Put v => blen v < 2 ^ 32 | Delete => True end →
  encoded_entry_len key v = blen (encode_entry key 0 v).
Proof.
  intros Hk Hv. pose proof (blen_nonneg key).
  pose proof (blen_enc (mkEntry key 0 v)) as He. unfold enc in He.
  cbn [SsFormat.key SsFormat.seq SsFormat.value] in He. rewrite He.
  unfold encoded_entry_len, u64_add.
  destruct v as [v|]; [pose proof (blen_nonneg v)|]; no_wrap; lia.
Qed.

Lemma enc_put k s v :
  enc (mkEntry k s (Put v)) =
  le32 (u32_wrap (blen k)) ++ k ++ le64 s ++ [byte.of_Z TAG_PUT] ++ le32 (u32_wrap (blen v)) ++ v.
Proof. done. Qed.
Lemma enc_delete k s :
  enc (mkEntry k s Delete) = le32 (u32_wrap (blen k)) ++ k ++ le64 s ++ [byte.of_Z TAG_DELETE].
Proof. done. Qed.

Lemma decode_entry_at e pre post :
  entry_ok e → decode_entry (cur_at pre (enc e ++ post)) = (Ok e, cur_at (pre ++ enc e) post).
Proof.
  destruct e as [k s [v|]]; intros (Hk & Hs & Hv); cbn [key seq value] in *;
    pose proof (blen_nonneg k); [pose proof (blen_nonneg v); rewrite enc_put|rewrite enc_delete];
    no_wrap; unfold decode_entry; rewrite <- !(assoc_L (++));
    erewrite bind_ok by (apply u32_at; lia); erewrite bind_ok by (by apply take_at);
    erewrite bind_ok by (by apply u64_at); erewrite bind_ok by (apply u8_at).
  - rewrite decide_True by done.
    rewrite bind_assoc. erewrite bind_ok by (apply u32_at; lia).
    rewrite bind_assoc. erewrite bind_ok by by apply take_at.
    rewrite bind_ret. rewrite <- !(assoc_L (++)). done.
  - rewrite decide_False, decide_True by done.
    rewrite bind_ret. rewrite <- !(assoc_L (++)). done.
Qed.

Lemma decode_block_loop_at fuel es pre :
  Forall entry_ok es → (length es < fuel)%nat →
  decode_block_loop fuel (cur_at pre (encs es)) = (Ok es, cur_at (pre ++ encs es) []).
Proof.
  revert fuel pre. induction es as [|e es IH]; intros [|fuel] pre Hok Hf; simpl in Hf; try lia;
    cbn [decode_block_loop]; erewrite bind_ok by done; rewrite remaining_at.
  - rewrite decide_False by done. unfold encs. simpl. by rewrite app_nil_r.
  - apply Forall_cons in Hok as [He Hok]. change (encs (e :: es)) with (enc e ++ encs es).
    rewrite decide_True.
    2:{ rewrite blen_app. pose proof (blen_enc_pos e). pose proof (blen_nonneg (encs es)). lia. }
    erewrite bind_ok by by apply decode_entry_at.
    erewrite bind_ok by (apply IH; [done|lia]). by rewrite <- (assoc_L (++)).
Qed.

Lemma decode_encs es : Forall entry_ok es → decode_block (encs es) = Ok es.
Proof.
  intros Hok. unfold decode_block. rewrite cursor_new_at, decode_block_loop_at; [done|done|].
  pose proof (encs_length es) as Hl. unfold blen in Hl. lia.
Qed.

Lemma verify_with_crc body what : verify_crc (with_crc body) what = Ok ().
Proof.
  unfold verify_crc, with_crc. rewrite blen_app, blen_le32. pose proof (blen_nonneg body).
  rewrite decide_False by lia. rewrite slice_prefix by lia. cbn [mbind outcome_bind].
  rewrite slice_suffix by (rewrite ?blen_le32; lia). cbn [mbind outcome_bind].
  rewrite of_le_le32, u32_wrap_id by apply crc32_u32. by rewrite decide_False by (by intros []).
Qed.

Lemma strip_with_crc {E} body :
  slice (E:=E) (with_crc body) 0 (blen (with_crc body) - 4) = Ok body.
Proof. unfold with_crc. apply slice_prefix. rewrite blen_app, blen_le32. lia. Qed.
Lemma blen_with_crc body : blen (with_crc body) = blen body + 4.
Proof. unfold with_crc. by rewrite blen_app, blen_le32. Qed.

(** ** The sparse index *)

Definition index_ok (ie : IndexEntry) : Prop :=
  blen (ie_first_key ie) < 2 ^ 32 ∧ 0 ≤ ie_offset ie < 2 ^ 64 ∧ 0 ≤ ie_len ie < 2 ^ 32.
Definition handle_of (ie : IndexEntry) : BlockHandle :=
  mkHandle (ie_first_key ie) (ie_offset ie) (ie_len ie).

Lemma decode_handle_at ie pre post :
  index_ok ie →
  decode_handle (cur_at pre (encode_index_entry ie ++ post)) =
  (Ok (handle_of ie), cur_at (pre ++ encode_index_entry ie) post).
Proof.
  intros (Hk & Ho & Hl). unfold decode_handle, encode_index_entry.
  pose proof (blen_nonneg (ie_first_key ie)). rewrite (u32_wrap_id (blen _)) by lia.
  rewrite <- !(assoc_L (++)).
  erewrite bind_ok by (apply u32_at; lia). erewrite bind_ok by by apply take_at.
  erewrite bind_ok by by apply u64_at. erewrite bind_ok by by apply u32_at.
  by rewrite <- !(assoc_L (++)).
Qed.

Lemma decode_handles_at ies pre post :
  Forall index_ok ies →
  repeat_m (length ies) decode_handle (cur_at pre (concat (encode_index_entry <$> ies) ++ post)) =
  (Ok (handle_of <$> ies), cur_at (pre ++ concat (encode_index_entry <$> ies)) post).
Proof.
  revert pre. induction ies as [|ie ies IH]; intros pre Hok; simpl; [by rewrite app_nil_r|].
  apply Forall_cons in Hok as [Hie Hok]. rewrite <- (assoc_L (++)).
  erewrite bind_ok by by apply decode_handle_at. erewrite bind_ok by by apply IH.
  by rewrite <- (assoc_L (++)).
Qed.

Lemma decode_encode_index ies :
  Forall index_ok ies → blen ies < 2 ^ 32 →
  decode_index (with_crc (encode_index ies)) = Ok (handle_of <$> ies).
Proof.
  intros Hok Hlen. unfold decode_index. rewrite strip_with_crc. cbn [mbind outcome_bind].
  rewrite cursor_new_at. unfold encode_index. pose proof (blen_nonneg ies).
  rewrite (u32_wrap_id (blen ies)) by lia.
  erewrite bind_ok by (apply u32_at; lia).
  replace (Z.to_nat (blen ies)) with (length ies) by (unfold blen; lia).
  rewrite <- (app_nil_r (concat _)). by rewrite decode_handles_at.
Qed.
End codec.
(** * The file *)

Section table.
Context `{!Crc32, !Crc32Laws, !Xxh3}.
Implicit Types (e : Entry) (es : list Entry) (blks : list (list Entry)) (bs : bytes) (m : memfs)
  (p : path) (bl : BloomFilter).

Definition blk_bytes es : bytes := with_crc (encs es).
Definition data blks : bytes := concat (blk_bytes <$> blks).
Definition first_of es : bytes := match es with e :: _ => key e | [] => [] end.
Fixpoint index_from (off : Z) blks : list IndexEntry :=
  match blks with
  | [] => []
  | es :: blks' =>
      mkIndex (first_of es) off (blen (blk_bytes es)) :: index_from (off + blen (blk_bytes es)) blks'
  end.
Definition index_buf blks : bytes := with_crc (encode_index (index_from 0 blks)).
Definition bloom_buf bl : bytes := with_crc (Bloom.encode bl).
Definition footer_buf blks bl (n : Z) : bytes :=
  with_crc (encode_footer (blen (data blks)) (blen (index_buf blks))
    (blen (data blks) + blen (index_buf blks)) (blen (bloom_buf bl)) n).

(** [bs] is a table file holding [es], cut into the blocks [blks]. *)
Record table_file bs es blks bl : Prop := {
  tf_es : es = concat blks;
  tf_blks : Forall (λ b, b ≠ []) blks;
  tf_bytes : bs = data blks ++ index_buf blks ++ bloom_buf bl ++ footer_buf blks bl (blen es);
  tf_ok : Forall entry_ok es;
  tf_bloom : Bloom.wf bl;
  tf_holds e : e ∈ es → Bloom.holds (E:=SsTableError) bl (key e);
  tf_size : blen bs < 2 ^ 32;
}.

(** The handle [reader_open] returns on such a file. *)
Definition reader_of p es blks bl : SsTableReader :=
  mkReader p (handle_of <$> index_from 0 blks) bl (blen es).

Lemma blk_bytes_len es : blen (blk_bytes es) = blen (encs es) + 4.
Proof. apply blen_with_crc. Qed.
Lemma data_app b1 b2 : data (b1 ++ b2) = data b1 ++ data b2.
Proof. unfold data. by rewrite fmap_app, concat_app. Qed.
Lemma data_cons es blks : data (es :: blks) = blk_bytes es ++ data blks.
Proof. done. Qed.

Lemma index_from_app off b1 b2 :
  index_from off (b1 ++ b2) = index_from off b1 ++ index_from (off + blen (data b1)) b2.
Proof.
  revert off. induction b1 as [|es b1 IH]; intros off; simpl; [by rewrite Z.add_0_r|].
  rewrite IH, data_cons, blen_app. do 3 f_equal. lia.
Qed.

Lemma index_from_length off blks : length (index_from off blks) = length blks.
Proof. revert off. induction blks; intros off; simpl; [done|]. by rewrite IHblks. Qed.

Lemma index_from_lookup off blks i es :
  blks !! i = Some es →
  index_from off blks !! i =
    Some (mkIndex (first_of es) (off + blen (data (take i blks))) (blen (blk_bytes es))).
Proof.
  intros Hi. rewrite <- (take_drop_middle blks i es Hi) at 1.
  rewrite index_from_app, lookup_app_r;
    rewrite index_from_length, length_take_le by (apply lookup_lt_Some in Hi; lia); [|lia].
  by rewrite Nat.sub_diag.
Qed.

Lemma index_from_ok off blks :
  0 ≤ off → off + blen (data blks) < 2 ^ 32 → Forall (Forall entry_ok) blks →
  Forall index_ok (index_from off blks).
Proof.
  revert off. induction blks as [|es blks IH]; intros off Ho Hmax Hok; simpl; [constructor|].
  apply Forall_cons in Hok as [He Hok]. rewrite data_cons, blen_app in Hmax.
  pose proof (blen_nonneg (blk_bytes es)). pose proof (blen_nonneg (data blks)).
  constructor; [|apply IH; [lia|lia|done]]. split_and!; simpl; try lia.
  destruct es as [|e es]; [done|]. apply Forall_cons in He as [[Hk _] _]. done.
Qed.

Lemma data_length blks : blen blks ≤ blen (data blks).
Proof.
  induction blks as [|es blks IH]; [done|]. rewrite data_cons, blen_cons, blen_app, blk_bytes_len.
  pose proof (blen_nonneg (encs es)). lia.
Qed.

Lemma blen_footer_buf blks bl n : blen (footer_buf blks bl n) = FOOTER_SIZE.
Proof.
  unfold footer_buf. rewrite blen_with_crc. unfold encode_footer.
  rewrite !blen_app, !blen_le64, !blen_le32. done.
Qed.

Lemma read_exact_ok p m pre mid post off n :
  m !! p = Some (pre ++ mid ++ post) → off = blen pre → n = blen mid →
  read_exact p off n m = (Ok mid, m).
Proof.
  intros Hm -> ->. unfold read_exact. erewrite bind_ok.
  2:{ apply map_err_ok. simpl. unfold mem_read_at, mem_file. rewrite Hm.
      rewrite decide_False; [done|]. rewrite !blen_app. pose proof (blen_nonneg mid).
      pose proof (blen_nonneg post). lia. }
  rewrite read_bytes_app by done. rewrite decide_False; [done|]. by intros [].
Qed.

(** The footer parses back to what was written. *)
Lemma parse_footer_ok io il bo bn n :
  0 ≤ io < 2 ^ 64 → 0 ≤ il < 2 ^ 32 → 0 ≤ bo < 2 ^ 64 → 0 ≤ bn < 2 ^ 32 → 0 ≤ n < 2 ^ 64 →
  ((magic ← cur_u64;
    _ ← guard_err (bool_decide (magic ≠ FOOTER_MAGIC)) (Corrupt FooterMagic);
    version ← cur_u32;
    _ ← guard_err (bool_decide (version ≠ FORMAT_VERSION)) (Corrupt (UnsupportedVersion version));
    index_off ← cur_u64;
    index_len ← cur_u32;
    bloom_off ← cur_u64;
    bloom_len ← cur_u32;
    num_entries ← cur_u64;
    mret (index_off, index_len, bloom_off, bloom_len, num_entries))
      (cursor_new (with_crc (encode_footer io il bo bn n)))).1 = Ok (io, il, bo, bn, n).
Proof.
  intros. rewrite cursor_new_at. unfold with_crc, encode_footer. rewrite <- !(assoc_L (++)).
  erewrite bind_ok by by apply u64_at. erewrite bind_ok by done.
  erewrite bind_ok by by apply u32_at. erewrite bind_ok by done.
  erewrite bind_ok by by apply u64_at. erewrite bind_ok by by apply u32_at.
  erewrite bind_ok by by apply u64_at. erewrite bind_ok by by apply u32_at.
  erewrite bind_ok by by apply u64_at. done.
Qed.

Lemma check_region_ok off len limit what :
  off + len ≤ limit → check_region off len limit what = Ok ().
Proof.
  intros Hl. unfold check_region, u64_saturating_add. by rewrite decide_False by lia.
Qed.

Lemma tf_sizes bs es blks bl :
  table_file bs es blks bl →
  blen bs = blen (data blks) + blen (index_buf blks) + blen (bloom_buf bl) + FOOTER_SIZE ∧
  0 ≤ blen (data blks) ∧ 0 ≤ blen (index_buf blks) ∧ 0 ≤ blen (bloom_buf bl) ∧
  0 ≤ blen es < 2 ^ 32.
Proof.
  intros Ht. pose proof (tf_size _ _ _ _ Ht) as Hs. rewrite (tf_bytes _ _ _ _ Ht) in Hs |- *.
  rewrite !blen_app, blen_footer_buf in *. split_and!; [lia|done..|].
  pose proof (blen_nonneg (index_buf blks)). pose proof (blen_nonneg (bloom_buf bl)).
  assert (blen es ≤ blen (data blks)); [|unfold FOOTER_SIZE in *; lia].
  rewrite (tf_es _ _ _ _ Ht). clear. induction blks as [|b blks IH]; [done|].
  rewrite data_cons, blen_app, blk_bytes_len. simpl. rewrite blen_app.
  pose proof (encs_length b). pose proof (blen_nonneg b). lia.
Qed.

Lemma reader_open_ok p m bs es blks bl :
  m !! p = Some bs → table_file bs es blks bl →
  reader_open p m = (Ok (reader_of p es blks bl), m).
Proof.
  intros Hm Ht. destruct (tf_sizes _ _ _ _ Ht) as (Hlen & Hs1 & Hs2 & Hs3 & Hs4).
  pose proof (tf_size _ _ _ _ Ht) as Hs. unfold FOOTER_SIZE in *.
  unfold reader_open. erewrite bind_ok.
  2:{ apply map_err_ok. simpl. unfold mem_len, mem_file. by rewrite Hm. }
  unfold FOOTER_SIZE. rewrite bool_decide_eq_false_2 by lia. erewrite bind_ok by done.
  pose proof (tf_bytes _ _ _ _ Ht) as Hb. rewrite Hb in Hm.
  erewrite bind_ok.
  2:{ apply (read_exact_ok p m (data blks ++ index_buf blks ++ bloom_buf bl) (footer_buf blks bl (blen es)) []).
      - rewrite Hm, app_nil_r. by rewrite <- !(assoc_L (++)).
      - rewrite !blen_app. lia.
      - by rewrite blen_footer_buf. }
  erewrite bind_ok by (unfold of_outcome, footer_buf; by rewrite verify_with_crc).
  erewrite bind_ok by (unfold of_outcome, footer_buf; rewrite parse_footer_ok by lia; done).
  cbn beta iota.
  erewrite bind_ok by (unfold of_outcome; by rewrite check_region_ok by lia).
  erewrite bind_ok by (unfold of_outcome; by rewrite check_region_ok by lia).
  erewrite bind_ok by by apply (read_exact_ok p m (data blks) (index_buf blks) _ _ _ Hm).
  erewrite bind_ok by (unfold of_outcome, index_buf; by rewrite verify_with_crc).
  erewrite bind_ok.
  2:{ unfold of_outcome, index_buf. rewrite decode_encode_index; [done|..].
      - apply index_from_ok; [done|lia|]. pose proof (tf_ok _ _ _ _ Ht) as Hok.
        rewrite (tf_es _ _ _ _ Ht) in Hok. by apply Forall_concat in Hok.
      - pose proof (data_length blks). unfold blen in *. rewrite index_from_length. lia. }
  erewrite bind_ok.
  2:{ apply (read_exact_ok p m (data blks ++ index_buf blks) (bloom_buf bl) (footer_buf blks bl (blen es))).
      - by rewrite Hm, <- !(assoc_L (++)).
      - by rewrite !blen_app.
      - done. }
  erewrite bind_ok by (unfold of_outcome, bloom_buf; by rewrite verify_with_crc).
  erewrite bind_ok by (unfold of_outcome, bloom_buf; by rewrite strip_with_crc).
  erewrite bind_ok.
  2:{ unfold of_outcome. rewrite cursor_new_at, <- (app_nil_r (Bloom.encode bl)).
      rewrite (Bloom.decode_encode bl [] []) by apply (tf_bloom _ _ _ _ Ht). done. }
  done.
Qed.
(** ** Reading blocks *)

Lemma load_block_ok p m bs es blks bl i b :
  m !! p = Some bs → table_file bs es blks bl → blks !! i = Some b →
  load_block (reader_of p es blks bl) i m = (Ok b, m).
Proof.
  intros Hm Ht Hi. unfold load_block, reader_of. cbn [r_index r_path].
  rewrite list_lookup_fmap, (index_from_lookup _ _ _ _ Hi). simpl fmap. cbn [expect].
  rewrite bind_ret. unfold handle_of. cbn [ie_first_key ie_offset ie_len h_offset h_len].
  rewrite (tf_bytes _ _ _ _ Ht) in Hm.
  rewrite <- (take_drop_middle blks i b Hi), data_app, data_cons, <- !(assoc_L (++)) in Hm.
  erewrite bind_ok by (eapply read_exact_ok; [exact Hm|lia|done]).
  erewrite bind_ok by (unfold of_outcome, blk_bytes; by rewrite verify_with_crc).
  erewrite bind_ok by (unfold of_outcome, blk_bytes; by rewrite strip_with_crc).
  unfold of_outcome. rewrite decode_encs; [done|].
  pose proof (tf_ok _ _ _ _ Ht) as Hok. rewrite (tf_es _ _ _ _ Ht) in Hok.
  apply Forall_concat in Hok. by eapply Forall_lookup_1 in Hok.
Qed.

(** * Iteration *)

(** An iterator that still has [rest] to yield. *)
Definition iter_rep blks (it : SsTableIter) (rest : list Entry) : Prop :=
  rest = (if loaded it then drop (within it) (it_block it) else []) ++
         concat (drop (block_idx it) blks).

Lemma iter_next_load p m bs es blks bl fuel it b :
  m !! p = Some bs → table_file bs es blks bl → blks !! block_idx it = Some b →
  (if loaded it then it_block it !! within it else None) = None →
  iter_next (S fuel) (reader_of p es blks bl) (it, m) =
  iter_next fuel (reader_of p es blks bl) (mkIter (S (block_idx it)) b 0 true, m).
Proof.
  intros Hm Ht Hb Hn. cbn [iter_next]. erewrite bind_ok by done. rewrite Hn.
  rewrite decide_False.
  2:{ simpl. rewrite length_fmap, index_from_length. apply lookup_lt_Some in Hb. lia. }
  erewrite bind_ok.
  2:{ unfold attempt. by erewrite on_snd_run by by eapply load_block_ok. }
  cbn beta iota. by erewrite bind_ok by done.
Qed.

Lemma iter_next_ok p m bs es blks bl it rest :
  m !! p = Some bs → table_file bs es blks bl → iter_rep blks it rest →
  ∃ it', iter_next (S (S (length (r_index (reader_of p es blks bl))))) (reader_of p es blks bl) (it, m)
           = (Ok (head rest), (it', m)) ∧ iter_rep blks it' (tail rest).
Proof.
  intros Hm Ht Hr. set (r := reader_of p es blks bl).
  assert (Hhit : ∀ fuel it e, (if loaded it then it_block it !! within it else None) = Some e →
            ∀ rest, iter_rep blks it rest →
            ∃ it', iter_next (S fuel) r (it, m) = (Ok (head rest), (it', m)) ∧ iter_rep blks it' (tail rest)).
  { intros fuel it1 e He rest1 Hr1. cbn [iter_next]. erewrite bind_ok by done. rewrite He.
    unfold iter_rep in Hr1. destruct (loaded it1) eqn:Hl; [|done].
    rewrite (drop_S _ _ _ He) in Hr1. subst rest1. eexists.
    split; [by erewrite bind_ok by done|]. unfold iter_rep. simpl. by rewrite Hl. }
  destruct (if loaded it then it_block it !! within it else None) as [e|] eqn:He; [by eapply Hhit|].
  assert (Hrest : rest = concat (drop (block_idx it) blks)).
  { rewrite Hr. destruct (loaded it); [|done]. apply lookup_ge_None in He. by rewrite drop_ge. }
  destruct (blks !! block_idx it) as [b|] eqn:Hb.
  - unfold r. erewrite iter_next_load by done.
    pose proof (tf_blks _ _ _ _ Ht) as Hne. eapply Forall_lookup_1 in Hne; [|done].
    destruct b as [|e b]; [done|]. eapply Hhit; [done|].
    unfold iter_rep. simpl. rewrite Hrest, (drop_S _ _ _ Hb). done.
  - apply lookup_ge_None in Hb. rewrite drop_ge in Hrest by done. simpl in Hrest. subst rest.
    exists it. split; [|exact Hr].
    cbn [iter_next]. erewrite bind_ok by done. rewrite He. rewrite decide_True; [done|].
    unfold r. simpl. by rewrite length_fmap, index_from_length.
Qed.

Lemma drain_ok p m bs es blks bl fuel it rest :
  m !! p = Some bs → table_file bs es blks bl → iter_rep blks it rest → (length rest < fuel)%nat →
  ∃ it', drain fuel (reader_of p es blks bl) (it, m) = (Ok rest, (it', m)).
Proof.
  intros Hm Ht. revert it rest. induction fuel as [|fuel IH]; intros it rest Hr Hf; [lia|].
  cbn [drain]. destruct (iter_next_ok p m bs es blks bl it rest Hm Ht Hr) as (it1 & Hn & Hr1).
  erewrite bind_ok by exact Hn. destruct rest as [|e rest]; simpl; [by eexists|].
  destruct (IH it1 rest Hr1) as [it2 Hd]; [simpl in Hf; lia|]. exists it2.
  by erewrite bind_ok by exact Hd.
Qed.

Lemma drain_fuel_ok p es blks bl :
  es = concat blks → (length es < drain_fuel (reader_of p es blks bl))%nat.
Proof.
  intros ->. unfold drain_fuel. simpl. generalize 0 as off.
  assert (∀ off, (length (concat blks) ≤
    sum_list_with (λ h, Z.to_nat (h_len h)) (handle_of <$> index_from off blks))%nat); [|intros off; specialize (H2 off); lia].
  induction blks as [|b blks IH]; intros off; simpl; [done|]. rewrite length_app.
  specialize (IH (off + blen (blk_bytes b))). unfold fmap in IH.
  assert (length b ≤ Z.to_nat (blen (blk_bytes b)))%nat; [|lia].
  rewrite blk_bytes_len. pose proof (encs_length b). unfold blen in *. lia.
Qed.

Lemma entries_ok p m bs es blks bl :
  m !! p = Some bs → table_file bs es blks bl →
  entries (reader_of p es blks bl) m = (Ok es, m).
Proof.
  intros Hm Ht.
  destruct (drain_ok p m bs es blks bl (drain_fuel (reader_of p es blks bl)) iter_new es Hm Ht)
    as [it Hd].
  - unfold iter_rep. simpl. apply (tf_es _ _ _ _ Ht).
  - apply drain_fuel_ok, (tf_es _ _ _ _ Ht).
  - by eapply with_local_run.
Qed.

(** * Point lookup *)

(** The entry of a key, the entries being sorted. *)
Definition find_entry (k : bytes) es : option Entry := snd <$> list_find (λ e, key e = k) es.
Definition sorted_entries es : Prop := StronglySorted olt (key <$> es).

Lemma find_entry_Some k es e :
  sorted_entries es → find_entry k es = Some e ↔ e ∈ es ∧ key e = k.
Proof.
  intros Hs. unfold find_entry. split.
  - intros ([i e'] & Hf & ->)%fmap_Some. apply list_find_Some in Hf as (Hi & Hk & _).
    split; [by eapply list_elem_of_lookup_2|done].
  - intros [Hin Hk]. destruct (list_find (λ e, key e = k) es) as [[i e']|] eqn:Hf; simpl.
    + apply list_find_Some in Hf as (Hi & Hk' & _). f_equal.
      apply list_elem_of_lookup in Hin as [j Hj]. subst k.
      assert (i = j) as ->; [|congruence].
      apply (NoDup_lookup (key <$> es) i j (key e')); [by apply (StronglySorted_lt_NoDup olt)|..];
        rewrite list_lookup_fmap; [by rewrite Hi|by rewrite Hj, Hk'].
    + apply list_find_None in Hf. rewrite Forall_forall in Hf. by destruct (Hf e).
Qed.

Lemma find_entry_None k es : find_entry k es = None ↔ ∀ e, e ∈ es → key e ≠ k.
Proof.
  unfold find_entry. rewrite fmap_None, list_find_None, Forall_forall. done.
Qed.

Lemma sorted_entries_block blks i b :
  sorted_entries (concat blks) → blks !! i = Some b → sorted_entries b.
Proof.
  intros Hs Hi. rewrite <- (take_drop_middle blks i b Hi), concat_app in Hs. simpl in Hs.
  unfold sorted_entries in *. rewrite !fmap_app in Hs.
  apply StronglySorted_app in Hs as (_ & _ & Hs). by apply StronglySorted_app in Hs as (_ & ? & _).
Qed.

(** Every key of a block is at least the block's first key and below the next's. *)
Lemma blocks_ordered blks i j b c e :
  sorted_entries (concat blks) → Forall (λ b, b ≠ []) blks → (i < j)%nat →
  blks !! i = Some b → blks !! j = Some c → e ∈ b → key e ≺ first_of c.
Proof.
  intros Hs Hne Hij Hi Hj He.
  rewrite <- (take_drop_middle blks j c Hj), concat_app in Hs.
  unfold sorted_entries in Hs. rewrite fmap_app in Hs.
  apply StronglySorted_app in Hs as (Hs & _). apply Hs.
  - apply list_elem_of_fmap_2, elem_of_concat. exists b. split; [|done].
    apply (list_elem_of_lookup_2 _ i). by rewrite lookup_take_lt.
  - eapply Forall_lookup_1 in Hne; [|exact Hj]. destruct c as [|e' c]; [done|]. simpl. by left.
Qed.

Lemma first_of_le blks i b e :
  sorted_entries (concat blks) → blks !! i = Some b → e ∈ b → first_of b ⪯ key e.
Proof.
  intros Hs Hi He. pose proof (sorted_entries_block _ _ _ Hs Hi) as Hb.
  destruct b as [|e0 b]; [by apply elem_of_nil in He|]. simpl.
  apply elem_of_cons in He as [->|He]; [done|]. unfold sorted_entries in Hb.
  apply StronglySorted_cons in Hb as [Hlt _]. rewrite Forall_forall in Hlt.
  apply olt_ole, Hlt. by apply list_elem_of_fmap_2.
Qed.
Lemma split_by_first k blks :
  sorted_entries (concat blks) → Forall (λ b, b ≠ []) blks →
  ∃ b1 b2, blks = b1 ++ b2 ∧ Forall (λ b, (first_of b ⪯? k) = true) b1 ∧
           Forall (λ b, (first_of b ⪯? k) = false) b2.
Proof.
  induction blks as [|b blks IH]; intros Hs Hne; [by exists [], []|].
  destruct (first_of b ⪯? k) eqn:Hb.
  - destruct IH as (b1 & b2 & -> & Hb1 & Hb2).
    + simpl in Hs. unfold sorted_entries in *. rewrite fmap_app in Hs.
      by apply StronglySorted_app in Hs as (_ & _ & ?).
    + by apply Forall_cons in Hne as [_ ?].
    + exists (b :: b1), b2. split_and!; [done|by constructor|done].
  - exists [], (b :: blks). split_and!; [done|done|]. constructor; [done|].
    apply Forall_forall. intros c [j Hj]%list_elem_of_lookup. apply oleb_false in Hb. apply oleb_false.
    etrans; [exact Hb|]. destruct b as [|e b]; [by apply Forall_cons in Hne as [? _]|].
    apply (blocks_ordered (((e :: b)) :: blks) 0 (S j) (e :: b) c e); [done..|lia|done|done|by left].
Qed.

(** Blocks whose first key exceeds [k] do not hold it. *)
Lemma block_above blks i b e k :
  sorted_entries (concat blks) → blks !! i = Some b → e ∈ b → k ≺ first_of b → key e ≠ k.
Proof.
  intros Hs Hi He Hlt Hk. assert (first_of b ⪯ key e) by by eapply first_of_le.
  apply (olt_irrefl k), (olt_ole_trans k (first_of b) k); [done|]. by rewrite <- Hk.
Qed.
Lemma index_first_keys off xs : h_first_key <$> (handle_of <$> index_from off xs) = first_of <$> xs.
Proof. revert off. induction xs as [|x xs IH]; intros off; simpl; [done|]. f_equal. apply IH. Qed.
Lemma index_forall (P : bytes → Prop) off xs :
  Forall (λ x, P (first_of x)) xs → Forall (λ h, P (h_first_key h)) (handle_of <$> index_from off xs).
Proof. intros Hf. apply Forall_fmap with (f := h_first_key). rewrite index_first_keys. by apply Forall_fmap. Qed.
(** The binary search finds where the first keys pass [k]. *)
Lemma partition_index b1 b2 k off :
  Forall (λ b, (first_of b ⪯? k) = true) b1 → Forall (λ b, (first_of b ⪯? k) = false) b2 →
  partition_point (λ h, h_first_key h ⪯? k) (handle_of <$> index_from off (b1 ++ b2)) = length b1.
Proof.
  intros Hb1 Hb2. rewrite index_from_app, fmap_app.
  rewrite partition_point_spec; [by rewrite length_fmap, index_from_length|..].
  - by apply (index_forall (λ f, (f ⪯? k) = true)).
  - by apply (index_forall (λ f, (f ⪯? k) = false)).
Qed.
(** The last block that may hold [k] is the only one that can. *)
Lemma last_block_holds b1 c b2 k e :
  let blks := b1 ++ c :: b2 in
  sorted_entries (concat blks) → Forall (λ b, b ≠ []) blks → first_of c ⪯ k → Forall (λ b, (first_of b ⪯? k) = false) b2 →
  e ∈ concat blks → key e = k → e ∈ c.
Proof.
  intros blks Hs Hne Hc Hb2 (b & Hb & He)%elem_of_concat Hk. apply list_elem_of_lookup in Hb as [i Hi].
  assert (Hcl : blks !! length b1 = Some c) by by unfold blks; rewrite lookup_app_r, Nat.sub_diag.
  destruct (decide (i < length b1)%nat) as [Hlt|Hge].
  { pose proof (blocks_ordered _ i (length b1) b c e Hs Hne Hlt Hi Hcl He) as Hkc. rewrite Hk in Hkc.
    exfalso; by apply (olt_irrefl k), (olt_ole_trans k (first_of c) k). }
  destruct (decide (i = length b1)) as [->|Hgt]; [congruence|]. pose proof Hi as Hi2.
  unfold blks in Hi2. rewrite lookup_app_r in Hi2 by lia. destruct (i - length b1)%nat as [|i'] eqn:Ei; [lia|].
  simpl in Hi2. eapply Forall_lookup_1 in Hb2; [|exact Hi2]. apply oleb_false in Hb2.
  by destruct (block_above blks i b e k Hs Hi He Hb2).
Qed.

Lemma find_block_ok p blks bl n k :
  sorted_entries (concat blks) → Forall (λ b, b ≠ []) blks →
  match find_block (mkReader p (handle_of <$> index_from 0 blks) bl n) k with
  | None => ∀ e, e ∈ concat blks → key e ≠ k
  | Some i => ∃ b, blks !! i = Some b ∧ ∀ e, e ∈ concat blks → key e = k → e ∈ b
  end.
Proof.
  intros Hs Hne. unfold find_block. cbn [r_index].
  destruct blks as [|b0 blks]; [by intros e ?%elem_of_nil|].
  cbn [index_from fmap list_fmap handle_of h_first_key ie_first_key]. set (all := b0 :: blks) in *.
  destruct (split_by_first k all Hs Hne) as (b1 & b2 & E & Hb1 & Hb2).
  destruct (k ≺? first_of b0) eqn:Hk0.
  { apply oltb_olt in Hk0. intros e (b & Hb & He)%elem_of_concat. apply list_elem_of_lookup in Hb as [i Hi].
    eapply block_above; [exact Hs|exact Hi|exact He|]. destruct b1 as [|x b1].
    - simpl in E. subst b2. eapply Forall_lookup_1 in Hb2; [|exact Hi]. by apply oleb_false.
    - injection E as <- _. apply Forall_cons in Hb1 as [Hx%oleb_ole _].
      exfalso; by apply (olt_irrefl k), (olt_ole_trans k (first_of b0) k). }
  apply oltb_false in Hk0.
  change (∃ b, all !! (partition_point (λ h, h_first_key h ⪯? k)
    (handle_of <$> index_from 0 all) - 1)%nat = Some b ∧ ∀ e, e ∈ concat all → key e = k → e ∈ b).
  rewrite E, partition_index by done. destruct b1 as [|c b1 _] using rev_ind.
  { simpl in E. rewrite <- E in Hb2. apply Forall_cons in Hb2 as [Hb2 _].
    apply oleb_false in Hb2. exfalso; by apply (olt_irrefl k), (olt_ole_trans k (first_of b0) k). }
  clearbody all. rewrite <- (assoc_L (++)) in E. cbn [app] in E. subst all. rewrite <- (assoc_L (++)). cbn [app].
  rewrite length_app. simpl length. rewrite Nat.add_sub. exists c.
  split; [by rewrite lookup_app_r, Nat.sub_diag|]. apply Forall_app in Hb1 as [_ Hcb]. apply Forall_singleton, oleb_ole in Hcb.
  intros e He Hk. by eapply last_block_holds.
Qed.

Lemma table_get_ok p m bs es blks bl k :
  m !! p = Some bs → table_file bs es blks bl → sorted_entries es →
  get (reader_of p es blks bl) k m = (Ok (find_entry k es), m).
Proof.
  intros Hm Ht Hs. unfold get. cbn [r_bloom reader_of].
  destruct (Bloom.contains_ok (E:=SsTableError) bl k (tf_bloom _ _ _ _ Ht)) as [present Hp].
  erewrite bind_ok by (unfold of_outcome; by rewrite Hp).
  destruct present; simpl.
  2:{ destruct (find_entry k es) as [e|] eqn:Hf; [|done]. exfalso.
      apply find_entry_Some in Hf as [Hin <-]; [|done].
      rewrite (Bloom.contains_holds (E:=SsTableError) bl (key e)) in Hp; [done|apply (tf_bloom _ _ _ _ Ht)|].
      by apply (tf_holds _ _ _ _ Ht). }
  pose proof (tf_es _ _ _ _ Ht) as Hes.
  pose proof (find_block_ok p blks bl (blen es) k) as Hfb. rewrite <- Hes in Hfb.
  specialize (Hfb Hs (tf_blks _ _ _ _ Ht)). unfold reader_of.
  destruct (find_block _ k) as [i|].
  2:{ by rewrite (proj2 (find_entry_None k es) Hfb). }
  destruct Hfb as (b & Hb & Honly).
  erewrite bind_ok by by eapply load_block_ok.
  assert (Hsb : sorted_entries b) by (eapply sorted_entries_block; [by rewrite <- Hes|done]).
  assert (Hsub : ∀ e, e ∈ b → e ∈ es).
  { intros e He. rewrite Hes. apply elem_of_concat. exists b. split; [by eapply list_elem_of_lookup_2|done]. }
  pose proof (binary_search_found key b k Hsb) as Hbs.
  destruct (binary_search_by _ b) as [j|j].
  - destruct Hbs as (e & Hj & Hk). rewrite Hj. cbn [expect]. rewrite bind_ret. unfold mret, M_ret. do 2 f_equal. symmetry.
    apply find_entry_Some; [done|]. split; [|done]. by eapply Hsub, list_elem_of_lookup_2.
  - unfold mret, M_ret. do 2 f_equal. symmetry. apply find_entry_None. intros e He Hk. by apply (Hbs e); [apply Honly|].
Qed.
End table.

End SsTableSpec.
