(* ===== verification/SsTableBuild.v ===== *)
(** The builder writes table files: whatever strictly increasing entries it is
    given, the file it leaves is one [SsTableSpec] reads back; and the transport
    of every table operation to a backend that meets [StorageSpec]. *)
From Stdlib Require Import Strings.String.
From S2P Require Export SsTableSpec.

Module SsTableBuild.
Import SsFormat Bloom SsTable SsTableSpec.

Section build.
Context {CRC : Crc32} {CRCL : Crc32Laws} {XXH : Xxh3}.
Implicit Types (e : Entry) (es : list Entry) (blks : list (list Entry)) (b : SsTableBuilder)
  (m : memfs) (p : path).

(** * Sizes *)

(** An upper bound on what one entry adds to the file: itself, and a block of its
    own with its CRC and index entry. *)
Definition tweight e : Z := blen (enc e) + 20 + blen (key e).
Definition tweights es : Z := foldr (λ e z, tweight e + z) 0 es.

(** Tables small enough for every length and offset to fit its field. *)
Definition table_fits es (expected : Z) : Prop :=
  tweights es + Z.max expected 1 * 10 ≤ 2 ^ 31.

Lemma tweight_pos e : 0 ≤ tweight e.
Proof. unfold tweight. pose proof (blen_enc_pos e). pose proof (blen_nonneg (key e)). lia. Qed.
Lemma tweights_app es1 es2 : tweights (es1 ++ es2) = tweights es1 + tweights es2.
Proof. induction es1 as [|e es1 IH]; simpl; [done|]. rewrite IH. lia. Qed.
Lemma tweights_nonneg es : 0 ≤ tweights es.
Proof. induction es as [|e es IH]; simpl; [done|]. pose proof (tweight_pos e). lia. Qed.
Lemma tweights_length es : blen es ≤ tweights es.
Proof.
  induction es as [|e es IH]; simpl; [done|]. rewrite blen_cons. unfold tweight.
  pose proof (blen_enc_pos e). pose proof (blen_nonneg (key e)). lia.
Qed.

Lemma tweights_encs es : blen (encs es) ≤ tweights es.
Proof.
  induction es as [|e es IH]; [done|]. change (encs (e :: es)) with (enc e ++ encs es).
  rewrite blen_app. simpl. unfold tweight at 1. pose proof (blen_nonneg (key e)). lia.
Qed.

Lemma tweights_block es : es ≠ [] → blen (blk_bytes es) + 16 + blen (first_of es) ≤ tweights es.
Proof.
  destruct es as [|e es]; [done|]. intros _. rewrite blk_bytes_len.
  change (encs (e :: es)) with (enc e ++ encs es). rewrite blen_app. simpl. unfold tweight at 1.
  pose proof (tweights_encs es). lia.
Qed.

Lemma blen_index_entry ie : blen (encode_index_entry ie) = 16 + blen (ie_first_key ie).
Proof. unfold encode_index_entry. rewrite !blen_app, !blen_le32, blen_le64. lia. Qed.

Lemma tweights_blocks off blks :
  Forall (λ c, c ≠ []) blks →
  blen (data blks) + blen (concat (encode_index_entry <$> index_from off blks))
    ≤ tweights (concat blks).
Proof.
  intros Hne. revert off. induction Hne as [|c blks Hc Hne IH]; intros off; [done|].
  rewrite data_cons. cbn [index_from fmap list_fmap concat ie_first_key].
  rewrite tweights_app, !blen_app, blen_index_entry. cbn [ie_first_key].
  specialize (IH (off + blen (blk_bytes c))). pose proof (tweights_block c Hc). lia.
Qed.

(** * The builder's invariant *)

Record builder_at (p : path) (m0 : memfs) b m blks (cur : list Entry) : Prop := {
  ba_path : b_path b = p;
  ba_files : m = <[p := data blks]> m0;
  ba_blks : Forall (λ c, c ≠ []) blks;
  ba_block : block b = encs cur;
  ba_first : block_first_key b = key <$> head cur;
  ba_index : index b = index_from 0 blks;
  ba_offset : offset b = blen (data blks);
  ba_num : num_entries b = blen (concat blks ++ cur);
  ba_last : last_key b = key <$> last (concat blks ++ cur);
  ba_first_key : first_key b = key <$> head (concat blks ++ cur);
  ba_wf : Bloom.wf (bloom b);
  ba_holds e : e ∈ concat blks ++ cur → Bloom.holds (E:=SsTableError) (bloom b) (key e);
}.

Lemma append_mem {E} (err : StorageError → E) p m c data :
  m !! p = Some c → map_err err (fs_append p data) m = (Ok (blen c), <[p := c ++ data]> m).
Proof. intros Hm. unfold map_err. simpl. unfold mem_append, mem_file. by rewrite Hm. Qed.

Lemma encs_nil es : encs es = [] ↔ es = [].
Proof.
  split; [|by intros ->]. intros E. pose proof (encs_length es) as Hl. rewrite E in Hl.
  destruct es; [done|]. rewrite blen_cons in Hl. pose proof (blen_nonneg es). rewrite blen_nil in Hl. lia.
Qed.

Lemma seal_block_ok p m0 b m blks cur :
  builder_at p m0 b m blks cur → cur ≠ [] → tweights (concat blks ++ cur) < 2 ^ 32 →
  ∃ b' m', seal_block (b, m) = (Ok (), (b', m')) ∧ builder_at p m0 b' m' (blks ++ [cur]) [] ∧
    num_bits (bloom b') = num_bits (bloom b).
Proof.
  intros Hb Hne Hsz. rewrite tweights_app in Hsz.
  pose proof (tweights_blocks 0 blks (ba_blks _ _ _ _ _ _ Hb)) as Hw.
  pose proof (tweights_block cur Hne) as Hc. pose proof (blen_nonneg (first_of cur)).
  pose proof (blen_nonneg (concat (encode_index_entry <$> index_from 0 blks))).
  pose proof (blen_nonneg (data blks)). pose proof (blen_nonneg (blk_bytes cur)).
  unfold seal_block. erewrite bind_ok by done.
  rewrite (ba_block _ _ _ _ _ _ Hb). rewrite decide_False by by rewrite encs_nil.
  erewrite bind_ok by done. fold (blk_bytes cur).
  rewrite (ba_path _ _ _ _ _ _ Hb).
  erewrite bind_ok.
  2:{ apply on_snd_run, append_mem. rewrite (ba_files _ _ _ _ _ _ Hb). by rewrite lookup_insert_eq. }
  erewrite bind_ok by done.
  rewrite (ba_first _ _ _ _ _ _ Hb). destruct cur as [|e cur]; [done|]. simpl head. simpl fmap.
  cbn [expect]. rewrite bind_ret. do 2 eexists. split; [done|]. split; [|done].
  rewrite (ba_offset _ _ _ _ _ _ Hb). unfold u64_add. no_wrap.
  assert (Hcat : concat (blks ++ [e :: cur]) ++ [] = concat blks ++ e :: cur).
  { rewrite concat_app. simpl. by rewrite !app_nil_r. }
  destruct Hb. split; simpl.
  - done.
  - subst m. rewrite insert_insert_eq, data_app, data_cons. change (data []) with (@nil u8).
    by rewrite app_nil_r.
  - apply Forall_app. split; [done|]. by repeat constructor.
  - done.
  - done.
  - rewrite ba_index0, index_from_app. simpl. done.
  - rewrite data_app, data_cons, !blen_app. change (data []) with (@nil u8). rewrite blen_nil. lia.
  - by rewrite Hcat.
  - by rewrite Hcat.
  - by rewrite Hcat.
  - done.
  - by rewrite Hcat.
Qed.

Lemma add_ok p m0 b m blks cur e :
  builder_at p m0 b m blks cur → entry_ok e →
  (∀ e', last (concat blks ++ cur) = Some e' → key e' ≺ key e) →
  tweights (concat blks ++ cur ++ [e]) < 2 ^ 32 →
  ∃ b' m' blks' cur', add (key e) (seq e) (value e) (b, m) = (Ok (), (b', m')) ∧
    builder_at p m0 b' m' blks' cur' ∧ cur' ≠ [] ∧
    concat blks' ++ cur' = concat blks ++ cur ++ [e] ∧ num_bits (bloom b') = num_bits (bloom b).
Proof.
  intros Hb He Hlast Hsz. unfold add. erewrite bind_ok by done.
  assert (Hg : (match last_key b with Some prev => key e ⪯? prev | None => false end) = false).
  { rewrite (ba_last _ _ _ _ _ _ Hb). destruct (last (concat blks ++ cur)) as [e'|]; [|done].
    simpl. apply oleb_false. by apply Hlast. }
  rewrite Hg. erewrite bind_ok by done.
  assert (Hseal : ∃ b1 m1 blks1 cur1,
    (if decide (block b ≠ [] ∧ u64_add (blen (block b)) (encoded_entry_len (key e) (value e)) > BLOCK_SIZE)
     then seal_block else mret ()) (b, m) = (Ok (), (b1, m1)) ∧
    builder_at p m0 b1 m1 blks1 cur1 ∧ concat blks1 ++ cur1 = concat blks ++ cur ∧
    num_bits (bloom b1) = num_bits (bloom b)).
  { case_decide as Hd.
    - destruct (seal_block_ok p m0 b m blks cur Hb) as (b1 & m1 & Hs & Hb1 & Hn).
      + intros ->. destruct Hd as [Hd _]. by rewrite (ba_block _ _ _ _ _ _ Hb) in Hd.
      + rewrite (assoc_L (++)), tweights_app in Hsz. pose proof (tweights_nonneg [e]). lia.
      + exists b1, m1, (blks ++ [cur]), []. split_and!; [done..| |done].
        rewrite concat_app. simpl. by rewrite !app_nil_r.
    - by exists b, m, blks, cur. }
  destruct Hseal as (b1 & m1 & blks1 & cur1 & Hs & Hb1 & Hcat & Hn).
  erewrite bind_ok by exact Hs. erewrite bind_ok by done.
  destruct (Bloom.insert_ok (E:=SsTableError) (bloom b1) (key e) (ba_wf _ _ _ _ _ _ Hb1))
    as (bl & Hi & Hwf & Hk & Hmono).
  erewrite bind_ok by (unfold of_outcome; by rewrite Hi).
  assert (Hcat' : concat blks1 ++ cur1 ++ [e] = concat blks ++ cur ++ [e]).
  { by rewrite !(assoc_L (++)), Hcat. }
  do 2 eexists. exists blks1, (cur1 ++ [e]). split; [done|]. split_and!; [|by destruct cur1|done|].
  2:{ simpl. apply Bloom.insert_num_bits in Hi. by rewrite Hi, Hn. }
  pose proof (tweights_length (concat blks ++ cur ++ [e])) as Hlen.
  destruct Hb1. split; simpl; try done.
  - by rewrite ba_block0, encs_snoc.
  - rewrite ba_first0. by destruct cur1.
  - rewrite ba_num0. unfold u64_add. rewrite !blen_app. rewrite <- Hcat', !blen_app in Hlen.
    rewrite <- Hcat' in Hsz. change (blen [e]) with 1 in *.
    pose proof (blen_nonneg (concat blks1)). pose proof (blen_nonneg cur1). no_wrap. lia.
  - by rewrite (assoc_L (++)), last_snoc.
  - rewrite ba_first_key0. rewrite (assoc_L (++)). by destruct (concat blks1 ++ cur1).
  - intros e' Hin. rewrite (assoc_L (++)) in Hin.
    apply elem_of_app in Hin as [Hin| ->%list_elem_of_singleton]; [|done]. by apply Hmono, ba_holds0.
Qed.

(** * Whole tables *)

Lemma builder_new_ok p m expected :
  m !! p = None → Z.max expected 1 * DEFAULT_BITS_PER_KEY ≤ 2 ^ 31 →
  ∃ b, builder_new p expected DEFAULT_BITS_PER_KEY m = (Ok b, <[p := []]> m) ∧
    builder_at p m b (<[p := []]> m) [] [] ∧ num_bits (bloom b) ≤ 2 ^ 31 + 8.
Proof.
  intros Hm Hx. unfold DEFAULT_BITS_PER_KEY in *. unfold builder_new. erewrite bind_ok.
  2:{ apply map_err_ok. simpl. unfold mem_create. by rewrite Hm. }
  eexists. split; [done|]. split.
  - split; try done; [apply Bloom.new_wf; lia|]. by intros e ?%elem_of_nil.
  - cbn [bloom]. unfold Bloom.new. cbn [num_bits]. unfold u64_saturating_mul.
    set (t := Z.max (Z.min _ _) 64). assert (64 ≤ t ≤ 2 ^ 31) by (unfold t, u64_max; lia).
    pose proof (Z.div_mod (t + 7) 8 ltac:(done)). pose proof (Z.mod_pos_bound (t + 7) 8 ltac:(done)).
    unfold u64_mul. no_wrap. lia.
Qed.

(** Adding the entries of a list one after the other. *)
Definition add_all {S} `{!Storage.Storage S} es : M (SsTableBuilder * S) SsTableError () :=
  for_each es (λ e, add (key e) (seq e) (value e)).

Lemma add_all_ok p m0 b m blks cur es :
  builder_at p m0 b m blks cur → Forall entry_ok es →
  sorted_entries (concat blks ++ cur ++ es) → tweights (concat blks ++ cur ++ es) < 2 ^ 32 →
  ∃ b' m' blks' cur', add_all es (b, m) = (Ok (), (b', m')) ∧
    builder_at p m0 b' m' blks' cur' ∧ concat blks' ++ cur' = concat blks ++ cur ++ es ∧
    (cur' = [] → concat blks' ++ cur' = [] ∨ es = [] ∧ cur = []) ∧
    num_bits (bloom b') = num_bits (bloom b).
Proof.
  revert b m blks cur. induction es as [|e es IH]; intros b m blks cur Hb Hok Hs Hsz.
  { exists b, m, blks, cur. rewrite app_nil_r. split_and!; try done. intros ->. by right. }
  apply Forall_cons in Hok as [He Hok].
  assert (Hsplit : concat blks ++ cur ++ e :: es = (concat blks ++ cur ++ [e]) ++ es).
  { by rewrite <- !(assoc_L (++)). }
  destruct (add_ok p m0 b m blks cur e Hb He) as (b1 & m1 & blks1 & cur1 & Ha & Hb1 & Hne & Hcat & Hn).
  - intros e' [l Hl]%last_Some. rewrite (assoc_L (++)), Hl in Hs. unfold sorted_entries in Hs.
    rewrite fmap_app in Hs. apply StronglySorted_app in Hs as (Hlt & _).
    apply Hlt; apply list_elem_of_fmap_2; [apply elem_of_app; right; by left|by left].
  - rewrite Hsplit, tweights_app in Hsz. pose proof (tweights_nonneg es). lia.
  - rewrite Hsplit, <- Hcat, <- (assoc_L (++)) in Hs, Hsz.
    destruct (IH b1 m1 blks1 cur1 Hb1 Hok Hs Hsz) as (b2 & m2 & blks2 & cur2 & Ha2 & Hb2 & Hc2 & Hcur & Hn2).
    exists b2, m2, blks2, cur2. split_and!; [|done|by rewrite Hc2, Hsplit, <- Hcat, <- (assoc_L (++))| |congruence].
    + unfold add_all. simpl. by erewrite bind_ok by exact Ha.
    + intros E. destruct (Hcur E) as [?|[_ ?]]; [by left|done].
Qed.

Lemma put_section_ok p data len b m c :
  b_path b = p → m !! p = Some c →
  put_section data len (b, m) =
  (Ok (), (set_offset (u64_add (offset b) len) b, <[p := c ++ data]> m)).
Proof.
  intros Hp Hm. unfold put_section. erewrite bind_ok by done. rewrite Hp.
  by erewrite bind_ok by by eapply on_snd_run, append_mem.
Qed.

Lemma finish_sealed p m0 b m blks :
  builder_at p m0 b m blks [] → Forall entry_ok (concat blks) →
  tweights (concat blks) + num_bits (bloom b) < 2 ^ 32 - 256 →
  ∃ bs b' m', finish (b, m) = (Ok (mkSummary (blen (concat blks)) (key <$> head (concat blks))
                          (key <$> last (concat blks)) (blen bs)), (b', m')) ∧
    m' = <[p := bs]> m0 ∧ table_file bs (concat blks) blks (bloom b).
Proof.
  intros Hb Hok Hsz. pose proof Hb as [Hpath Hm Hne Hblk _ Hidx Hoff Hnum Hlast Hfirst Hwf Hholds].
  rewrite app_nil_r in *.
  pose proof (tweights_blocks 0 blks Hne) as Hw. pose proof (tweights_length (concat blks)) as Hlen.
  pose proof (Bloom.wf_len _ Hwf) as Hbits. pose proof (blen_nonneg (bits (bloom b))) as Hb0.
  assert (Hi : blen (index_buf blks) = 8 + blen (concat (encode_index_entry <$> index_from 0 blks))).
  { unfold index_buf. rewrite blen_with_crc. unfold encode_index. rewrite blen_app, blen_le32. lia. }
  assert (Hbl : blen (bloom_buf (bloom b)) = 20 + blen (bits (bloom b))).
  { unfold bloom_buf. rewrite blen_with_crc, Bloom.blen_bloom_encode. lia. }
  pose proof (blen_nonneg (concat (encode_index_entry <$> index_from 0 blks))).
  pose proof (blen_nonneg (data blks)).
  assert (Hseal : seal_block (b, m) = (Ok (), (b, m))).
  { unfold seal_block. erewrite bind_ok by done. by rewrite Hblk, decide_True. }
  set (bs := data blks ++ index_buf blks ++ bloom_buf (bloom b) ++ footer_buf blks (bloom b) (blen (concat blks))).
  assert (Hbs : blen bs = blen (data blks) + blen (index_buf blks) + blen (bloom_buf (bloom b)) + 48).
  { unfold bs. rewrite !blen_app, blen_footer_buf. unfold FOOTER_SIZE. lia. }
  exists bs. do 2 eexists. split_and!; [|reflexivity|].
  - unfold finish. erewrite bind_ok by exact Hseal. erewrite bind_ok by done.
    rewrite Hidx, Hoff. fold (index_buf blks).
    erewrite bind_ok by (apply (put_section_ok p); [done|rewrite Hm; apply lookup_insert_eq]).
    erewrite bind_ok by done. cbn [set_offset bloom offset num_entries b_path].
    fold (bloom_buf (bloom b)). rewrite Hoff.
    erewrite bind_ok by (apply (put_section_ok p); [done|apply lookup_insert_eq]).
    erewrite bind_ok by (apply (put_section_ok p); [done|apply lookup_insert_eq]).
    erewrite bind_ok.
    2:{ apply on_snd_run, map_err_ok. simpl. unfold mem_sync_file, mem_file.
        by rewrite Hpath, lookup_insert_eq. }
    erewrite bind_ok by done. cbn [set_offset num_entries first_key last_key offset].
    rewrite Hm, !insert_insert_eq. unfold u64_add. rewrite Hnum, Hfirst, Hlast.
    no_wrap. fold (footer_buf blks (bloom b) (blen (concat blks))).
    rewrite blen_footer_buf. unfold FOOTER_SIZE. no_wrap.
    rewrite <- !(assoc_L (++)). fold bs. rewrite Hbs. reflexivity.
  - split; try done. lia.
Qed.

Lemma finish_ok p m0 b m blks cur :
  builder_at p m0 b m blks cur → Forall entry_ok (concat blks ++ cur) →
  tweights (concat blks ++ cur) + num_bits (bloom b) < 2 ^ 32 - 256 →
  ∃ bs b' m' blks' bl sum, finish (b, m) = (Ok sum, (b', m')) ∧ m' = <[p := bs]> m0 ∧
    table_file bs (concat blks ++ cur) blks' bl ∧
    sum = mkSummary (blen (concat blks ++ cur)) (key <$> head (concat blks ++ cur))
            (key <$> last (concat blks ++ cur)) (blen bs).
Proof.
  intros Hb Hok Hsz. pose proof (Bloom.wf_bits _ (ba_wf _ _ _ _ _ _ Hb)).
  destruct (decide (cur = [])) as [->|Hne].
  - rewrite app_nil_r in *. destruct (finish_sealed p m0 b m blks Hb Hok Hsz)
      as (bs & b' & m' & Hf & Hm & Ht). do 6 eexists. eauto.
  - destruct (seal_block_ok p m0 b m blks cur Hb Hne) as (b1 & m1 & Hs & Hb1 & Hn); [lia|].
    assert (Hcat : concat (blks ++ [cur]) = concat blks ++ cur).
    { rewrite concat_app. simpl. by rewrite app_nil_r. }
    destruct (finish_sealed p m0 b1 m1 (blks ++ [cur]) Hb1) as (bs & b' & m' & Hf & Hm & Ht);
      [by rewrite Hcat|by rewrite Hcat, Hn|]. rewrite Hcat in *.
    do 6 eexists. split; [|eauto].
    (* sealing first and then finishing is what [finish] does *)
    unfold finish in *. erewrite bind_ok by exact Hs.
    assert (Hseal : seal_block (b1, m1) = (Ok (), (b1, m1))).
    { unfold seal_block. erewrite bind_ok by done. by rewrite (ba_block _ _ _ _ _ _ Hb1), decide_True. }
    erewrite bind_ok in Hf by exact Hseal. exact Hf.
Qed.
End build.

(** * Transport *)

Section sims.
Context `{!Crc32, !Xxh3} {S S2 : Type} {ST : Storage.Storage S} {ST2 : Storage.Storage S2} {SD : Deaths S S2} {SS : StorageSim S S2}.
Abbreviation V := (st_view (S:=S) (S2:=S2)).

Lemma builder_new_sim p n k :
  msim V (builder_new (S:=S) p n k) (builder_new p n k).
Proof. unfold builder_new. solve_msim. Qed.
Lemma seal_block_sim : msim (with_same V) (seal_block (S:=S)) seal_block.
Proof. unfold seal_block. solve_msim. Qed.
Hint Resolve seal_block_sim : msim.
Lemma add_sim k q v : msim (with_same V) (add (S:=S) k q v) (add k q v).
Proof. unfold add, guard_err. solve_msim. Qed.
Lemma put_section_sim d n :
  msim (with_same V) (put_section (S:=S) d n) (put_section d n).
Proof. unfold put_section. solve_msim. Qed.
Hint Resolve put_section_sim : msim.
Lemma finish_sim : msim (with_same V) (finish (S:=S)) finish.
Proof. unfold finish. solve_msim. Qed.
Lemma read_exact_sim p o n : msim V (read_exact (S:=S) p o n) (read_exact p o n).
Proof. unfold read_exact. solve_msim. Qed.
Hint Resolve read_exact_sim : msim.
Lemma reader_open_sim p : msim V (reader_open (S:=S) p) (reader_open p).
Proof. unfold reader_open, guard_err. solve_msim. Qed.
Lemma load_block_sim r i : msim V (load_block (S:=S) r i) (load_block r i).
Proof. unfold load_block. solve_msim. Qed.
Hint Resolve load_block_sim : msim.
Lemma get_sim r k : msim V (get (S:=S) r k) (get r k).
Proof. unfold get. solve_msim. Qed.
Lemma iter_next_sim n r :
  msim (with_same V) (iter_next (S:=S) n r) (iter_next n r).
Proof. induction n as [|n IH]; cbn [iter_next]; solve_msim. Qed.
Hint Resolve iter_next_sim : msim.
Lemma drain_sim n r : msim (with_same V) (drain (S:=S) n r) (drain n r).
Proof. induction n as [|n IH]; cbn [drain]; solve_msim. Qed.
Hint Resolve drain_sim : msim.
Lemma entries_sim r : msim V (entries (S:=S) r) (entries r).
Proof. unfold entries. solve_msim. Qed.
End sims.
#[global] Hint Resolve builder_new_sim seal_block_sim add_sim finish_sim
  reader_open_sim get_sim entries_sim : msim.

End SsTableBuild.
