(* ===== verification/Manifest.v ===== *)
(** The manifest ([src/manifest.rs]): versions and their derivation, the file's
    codec, the atomic switch (write aside, sync, rename, sync the directory), the
    handle with its current, superseded and pinned versions, and the collection
    of table files no live version names. *)
From Stdlib Require Import Strings.String.
From S2P Require Export SsFormat.

Module Manifest.
Import SsFormat.

Definition MANIFEST_NAME : bytes := lit "MANIFEST".
Definition MANIFEST_TMP : bytes := lit "MANIFEST.tmp".
Definition MANIFEST_MAGIC : Z := 0x4143_4352_5F4D_4652.
Definition MANIFEST_FORMAT : Z := 1.

(** The formatted message of [Corrupt], as data. *)
Inductive Corruption : Type :=
  | ShorterThanCrc
  | CrcMismatch (stored computed : Z)
  | MagicMismatch
  | UnsupportedFormat (format : Z)
  | UnexpectedEnd (need have : Z).
Inductive ManifestError : Type := Storage (e : StorageError) | Corrupt (why : Corruption).

(** * Versions *)

Record TableMeta : Type := mkMeta {
  id : Z;
  num_entries : Z;
  first_key : bytes;
  last_key : bytes;
}.
#[global] Instance table_meta_eq_dec : EqDecision TableMeta.
Proof. solve_decision. Defined.

(** [key_in_range(key)]. *)
Definition key_in_range (t : TableMeta) (key : bytes) : bool :=
  (first_key t ⪯? key) && (key ⪯? last_key t).

Record Version : Type := mkVersion {
  tiers : list (list TableMeta);
  next_seq : Z;
  next_table_id : Z;
}.
(** [Version::empty()]. *)
Definition version_empty : Version := mkVersion [] 1 1.

(** [all_tables], [referenced_ids], [tier_len], [num_tiers],
    [tables_newest_first]. *)
Definition all_tables (v : Version) : list TableMeta := concat (tiers v).
Definition referenced_ids (v : Version) : gset Z := list_to_set (id <$> all_tables v).
Definition tier_len (v : Version) (t : nat) : nat :=
  match tiers v !! t with Some tier => List.length tier | None => 0%nat end.
Definition num_tiers (v : Version) : nat := List.length (tiers v).
Definition tables_newest_first (v : Version) : list TableMeta := concat (reverse <$> tiers v).

(** [flushed(table, next_seq)]. *)
Definition flushed (v : Version) (table : TableMeta) (seq : Z) : Version :=
  let ts := match tiers v with [] => [[]] | ts => ts end in
  mkVersion (alter (λ tier, tier ++ [table]) 0%nat ts)
    (Z.max seq (next_seq v)) (Z.max (next_table_id v) (u64_add (id table) 1)).

(** [while matches!(v.tiers.last(), Some(tier) if tier.is_empty()) { pop }]. *)
Fixpoint trim_loop (fuel : nat) (ts : list (list TableMeta)) : list (list TableMeta) :=
  match fuel with
  | O => ts
  | Datatypes.S fuel' =>
      match last ts with
      | Some [] => trim_loop fuel' (removelast ts)
      | _ => ts
      end
  end.
Definition trim_tiers (ts : list (list TableMeta)) : list (list TableMeta) :=
  trim_loop (List.length ts) ts.

(** [while v.tiers.len() <= t + 1 { push(Vec::new()) }]. *)
Definition pad_tiers (n : nat) (ts : list (list TableMeta)) : list (list TableMeta) :=
  ts ++ replicate (n - List.length ts) [].

(** [compacted(t, output)]. *)
Definition compacted (v : Version) (t : nat) (output : TableMeta) : Version :=
  let ts := pad_tiers (t + 2) (tiers v) in
  let ts := <[t := []]> ts in
  let ts := alter (λ tier, tier ++ [output]) (t + 1)%nat ts in
  mkVersion (trim_tiers ts) (next_seq v) (Z.max (next_table_id v) (u64_add (id output) 1)).

(** [table_path(dir, id)], [parse_table_id(path)]. *)
Definition table_path (dir : path) (id : Z) : path := join dir (fmt020 id ++ lit ".sst").
Definition parse_table_id (p : path) : option Z :=
  name ← file_name p;
  stem ← strip_suffix (lit ".sst") name;
  parse_u64 stem.

(** * The codec *)

Section codec.
Context `{!Crc32}.

(** [put_bytes(buf, b)]. *)
Definition put_bytes (b : bytes) : bytes := le32 (u32_wrap (blen b)) ++ b.
Definition encode_meta (t : TableMeta) : bytes :=
  le64 (id t) ++ le64 (num_entries t) ++ put_bytes (first_key t) ++ put_bytes (last_key t).
Definition encode_tier (tier : list TableMeta) : bytes :=
  le32 (u32_wrap (blen tier)) ++ concat (encode_meta <$> tier).
Definition encode_body (v : Version) : bytes :=
  le64 MANIFEST_MAGIC ++ le32 MANIFEST_FORMAT ++ le64 (next_seq v) ++ le64 (next_table_id v) ++
  le32 (u32_wrap (blen (tiers v))) ++ concat (encode_tier <$> tiers v).
(** [encode_version(v)]. *)
Definition encode_version (v : Version) : bytes :=
  encode_body v ++ le32 (crc32_hash (encode_body v)).

(** [Reader]: the manifest's own cursor over the same two fields. *)
Definition r_take (n : Z) : M Cursor ManifestError bytes := λ c,
  if decide (blen (buf c) - pos c < n)
  then (Err (Corrupt (UnexpectedEnd n (blen (buf c) - pos c))), c)
  else match slice (E:=ManifestError) (buf c) (pos c) (pos c + n) with
       | Ok out => (Ok out, mkCursor (buf c) (pos c + n))
       | r => (r, c)
       end.
Definition r_u32 : M Cursor ManifestError Z := b ← r_take 4; mret (of_le b).
Definition r_u64 : M Cursor ManifestError Z := b ← r_take 8; mret (of_le b).
Definition r_bytes : M Cursor ManifestError bytes := n ← r_u32; r_take n.

Definition decode_meta : M Cursor ManifestError TableMeta :=
  id ← r_u64; num_entries ← r_u64; first_key ← r_bytes; last_key ← r_bytes;
  mret (mkMeta id num_entries first_key last_key).
Definition decode_tier : M Cursor ManifestError (list TableMeta) :=
  num_tables ← r_u32; repeat_m (Z.to_nat num_tables) decode_meta.
Definition decode_body : M Cursor ManifestError Version :=
  magic ← r_u64;
  _ ← guard_err (bool_decide (magic ≠ MANIFEST_MAGIC)) (Corrupt MagicMismatch);
  format ← r_u32;
  _ ← guard_err (bool_decide (format ≠ MANIFEST_FORMAT)) (Corrupt (UnsupportedFormat format));
  next_seq ← r_u64;
  next_table_id ← r_u64;
  num_tiers ← r_u32;
  tiers ← repeat_m (Z.to_nat num_tiers) decode_tier;
  mret (mkVersion tiers next_seq next_table_id).
(** [decode_version(buf)]. *)
Definition decode_version (b : bytes) : outcome ManifestError Version :=
  if decide (blen b < 4) then Err (Corrupt ShorterThanCrc) else
  body ← slice b 0 (blen b - 4);
  crc_bytes ← slice b (blen b - 4) (blen b);
  let stored := of_le crc_bytes in
  let actual := crc32_hash body in
  if decide (stored ≠ actual) then Err (Corrupt (CrcMismatch stored actual)) else
  (decode_body (cursor_new body)).1.
End codec.

(** * The handle *)

(** An [Arc<Version>]: its allocation's identity and its contents. *)
Record VersionRef : Type := mkRef { arc_id : Z; version : Version }.

(** [Manifest] with the [Inner] its mutex guards.  [pins] counts, per allocation,
    the [Arc]s held outside the manifest: [Arc::strong_count(v) > 1] for a
    version the manifest holds once says that some are. *)
Record Manifest : Type := mkManifest {
  dir : path;
  current : VersionRef;
  obsolete : list VersionRef;
  pins : gmap Z nat;
  next_arc : Z;
}.

Definition pin_count (m : Manifest) (a : Z) : nat := default 0%nat (pins m !! a).

Section manifest.
Context `{!Crc32} {S : Type} `{!Storage.Storage S}.

(** [write_manifest(fs, dir, version)]. *)
Definition write_manifest (d : path) (v : Version) : M S ManifestError () :=
  let tmp := join d MANIFEST_TMP in
  let final_path := join d MANIFEST_NAME in
  let bytes := encode_version v in
  _ ← ignore_err (fs_delete tmp);
  _ ← map_err Storage (fs_create tmp);
  _ ← map_err Storage (fs_append tmp bytes);
  _ ← map_err Storage (fs_sync_file tmp);
  _ ← map_err Storage (fs_rename tmp final_path);
  map_err Storage (fs_sync_dir d).

(** [Manifest::open(fs, dir)]. *)
Definition open (d : path) : M S ManifestError Manifest :=
  let p := join d MANIFEST_NAME in
  opened ← attempt (fs_open p);
  current ← match opened with
            | inl _ =>
                len ← map_err Storage (fs_len p);
                buf ← map_err Storage (fs_read_at p 0 len);
                of_outcome (decode_version buf)
            | inr _ =>
                _ ← write_manifest d version_empty;
                mret version_empty
            end;
  mret (mkManifest d (mkRef 0 current) [] ∅ 1).

(** [current()]: another [Arc] to the current version; and its drop. *)
Definition pin (a : Z) (m : Manifest) : Manifest :=
  mkManifest (dir m) (current m) (obsolete m) (<[a := Datatypes.S (pin_count m a)]> (pins m)) (next_arc m).
Definition unpin (a : Z) (m : Manifest) : Manifest :=
  mkManifest (dir m) (current m) (obsolete m) (<[a := pred (pin_count m a)]> (pins m)) (next_arc m).
(** [let version = manifest.current(); ..]: pinned until the end of the scope,
    however the scope is left. *)
Definition with_current {E A} (f : Version → M (Manifest * S) E A) : M (Manifest * S) E A :=
  λ '(m, s),
    let a := arc_id (current m) in
    let '(r, (m', s')) := f (version (current m)) (pin a m, s) in
    (r, (unpin a m', s')).

(** The ids some live version names: step one of [gc]. *)
Definition retain_obsolete (m : Manifest) : Manifest :=
  mkManifest (dir m) (current m) (filter (λ v, (0 < pin_count m (arc_id v))%nat) (obsolete m))
    (pins m) (next_arc m).
Definition live_ids (m : Manifest) : gset Z :=
  referenced_ids (version (current m)) ∪
  ⋃ ((λ v, referenced_ids (version v)) <$> obsolete m).

(** The deletion loop of [gc]; it reports whether it deleted anything. *)
Definition gc_loop (live : gset Z) (ps : list path) : M S ManifestError bool :=
  fold_m ps false (λ deleted p,
    match parse_table_id p with
    | Some id =>
        if decide (id ∈ live) then mret deleted
        else _ ← map_err Storage (fs_delete p); mret true
    | None => mret deleted
    end).
(** [gc()]. *)
Definition gc : M (Manifest * S) ManifestError () :=
  _ ← mod_fst retain_obsolete;
  m ← get_fst;
  ps ← on_snd (map_err Storage (fs_list (dir m)));
  deleted_any ← on_snd (gc_loop (live_ids m) ps);
  if deleted_any : bool then on_snd (map_err Storage (fs_sync_dir (dir m))) else mret ().

(** [install(new)]; the [Arc] it returns is dropped by every caller. *)
Definition swap_in (new : Version) (m : Manifest) : Manifest :=
  mkManifest (dir m) (mkRef (next_arc m) new) (obsolete m ++ [current m]) (pins m) (next_arc m + 1).
Definition install (new : Version) : M (Manifest * S) ManifestError () :=
  m ← get_fst;
  _ ← on_snd (write_manifest (dir m) new);
  _ ← mod_fst (swap_in new);
  gc.

End manifest.
End Manifest.
