(* ===== verification/ManifestSpec.v ===== *)
(** What the manifest promises: its file parses back to the version it encodes,
    a switch replaces it whole, opening returns what was installed, and garbage
    collection removes exactly the table files no live version names. *)
From coqutil Require Import Word.LittleEndianList.
From Stdlib Require Import Strings.String.
From S2P Require Export Manifest.

Module ManifestSpec.
Import SsFormat Manifest.

(** * The codec *)

Section codec.
Context {CRC : Crc32} {CRCL : Crc32Laws}.
Implicit Types (pre post : bytes) (t : TableMeta) (v : Version).

Lemma r_take_at n pre mid post :
  n = blen mid → r_take n (cur_at pre (mid ++ post)) = (Ok mid, cur_at (pre ++ mid) post).
Proof.
  intros ->. unfold r_take. fold (remaining (cur_at pre (mid ++ post))).
  rewrite remaining_at, blen_app. pose proof (blen_nonneg post).
  rewrite decide_False by lia. unfold cur_at. simpl. rewrite slice_app by done.
  by rewrite <- (assoc_L (++)), blen_app.
Qed.
Lemma r_u32_at x pre post :
  0 ≤ x < 2 ^ 32 → r_u32 (cur_at pre (le32 x ++ post)) = (Ok x, cur_at (pre ++ le32 x) post).
Proof.
  intros Hx. unfold r_u32. erewrite bind_ok by (apply r_take_at; by rewrite blen_le32).
  by rewrite of_le_le32, u32_wrap_id.
Qed.
Lemma r_u64_at x pre post :
  0 ≤ x < 2 ^ 64 → r_u64 (cur_at pre (le64 x ++ post)) = (Ok x, cur_at (pre ++ le64 x) post).
Proof.
  intros Hx. unfold r_u64. erewrite bind_ok by (apply r_take_at; by rewrite blen_le64).
  by rewrite of_le_le64, u64_wrap_id.
Qed.
Lemma r_bytes_at b pre post :
  blen b < 2 ^ 32 → r_bytes (cur_at pre (put_bytes b ++ post)) = (Ok b, cur_at (pre ++ put_bytes b) post).
Proof.
  intros Hb. pose proof (blen_nonneg b). unfold r_bytes, put_bytes. no_wrap.
  rewrite <- !(assoc_L (++)).
  erewrite bind_ok by (apply r_u32_at; lia). rewrite r_take_at by done. by rewrite <- !(assoc_L (++)).
Qed.

(** Reading back a counted list of encoded items. *)
Lemma repeat_at {A} (dec : M Cursor ManifestError A) (enc : A → bytes) (P : A → Prop) l pre post :
  (∀ a pre post, P a → dec (cur_at pre (enc a ++ post)) = (Ok a, cur_at (pre ++ enc a) post)) →
  Forall P l →
  repeat_m (length l) dec (cur_at pre (concat (enc <$> l) ++ post)) =
  (Ok l, cur_at (pre ++ concat (enc <$> l)) post).
Proof.
  intros Hd. revert pre. induction l as [|a l IH]; intros pre Hl; simpl; [by rewrite app_nil_r|].
  apply Forall_cons in Hl as [Ha Hl]. rewrite <- (assoc_L (++)).
  erewrite bind_ok by by apply Hd. erewrite bind_ok by by apply IH. by rewrite <- (assoc_L (++)).
Qed.

(** Versions whose fields fit their words. *)
Definition meta_ok t : Prop :=
  0 ≤ id t < 2 ^ 64 ∧ 0 ≤ num_entries t < 2 ^ 64 ∧
  blen (first_key t) < 2 ^ 32 ∧ blen (last_key t) < 2 ^ 32.
Definition tier_ok (tier : list TableMeta) : Prop := Forall meta_ok tier ∧ blen tier < 2 ^ 32.
Definition version_ok v : Prop :=
  Forall tier_ok (tiers v) ∧ blen (tiers v) < 2 ^ 32 ∧
  0 ≤ next_seq v < 2 ^ 64 ∧ 0 ≤ next_table_id v < 2 ^ 64.

Lemma decode_meta_at t pre post :
  meta_ok t → decode_meta (cur_at pre (encode_meta t ++ post)) = (Ok t, cur_at (pre ++ encode_meta t) post).
Proof.
  intros (Hi & Hn & Hf & Hl). unfold decode_meta, encode_meta. rewrite <- !(assoc_L (++)).
  erewrite bind_ok by by apply r_u64_at. erewrite bind_ok by by apply r_u64_at.
  erewrite bind_ok by by apply r_bytes_at. erewrite bind_ok by by apply r_bytes_at.
  rewrite <- !(assoc_L (++)). by destruct t.
Qed.

Lemma decode_tier_at tier pre post :
  tier_ok tier →
  decode_tier (cur_at pre (encode_tier tier ++ post)) = (Ok tier, cur_at (pre ++ encode_tier tier) post).
Proof.
  intros [Ht Hlen]. pose proof (blen_nonneg tier). unfold decode_tier, encode_tier. no_wrap.
  rewrite <- !(assoc_L (++)). erewrite bind_ok by (apply r_u32_at; lia).
  replace (Z.to_nat (blen tier)) with (length tier) by (unfold blen; lia).
  rewrite (repeat_at decode_meta encode_meta meta_ok) by (done || apply decode_meta_at).
  by rewrite <- !(assoc_L (++)).
Qed.

Lemma decode_body_at v pre post :
  version_ok v → decode_body (cur_at pre (encode_body v ++ post)) = (Ok v, cur_at (pre ++ encode_body v) post).
Proof.
  intros (Ht & Hlen & Hs & Hi). pose proof (blen_nonneg (tiers v)).
  unfold encode_body, decode_body. no_wrap. rewrite <- !(assoc_L (++)).
  erewrite bind_ok by by apply r_u64_at. erewrite bind_ok by done.
  erewrite bind_ok by by apply r_u32_at. erewrite bind_ok by done.
  erewrite bind_ok by by apply r_u64_at. erewrite bind_ok by by apply r_u64_at.
  erewrite bind_ok by (apply r_u32_at; lia).
  replace (Z.to_nat (blen (tiers v))) with (length (tiers v)) by (unfold blen; lia).
  erewrite bind_ok by (apply (repeat_at decode_tier encode_tier tier_ok); [apply decode_tier_at|done]).
  rewrite <- !(assoc_L (++)). by destruct v.
Qed.
(** The checksum guards the body. *)
Lemma decode_checked body :
  decode_version (body ++ le32 (crc32_hash body)) = (decode_body (cursor_new body)).1.
Proof.
  unfold decode_version. pose proof (blen_nonneg body). rewrite blen_app, blen_le32. rewrite decide_False by lia.
  rewrite slice_prefix by lia. cbn [mbind outcome_bind].
  rewrite slice_suffix by (rewrite ?blen_le32; lia). cbn [mbind outcome_bind].
  rewrite of_le_le32, (u32_wrap_id (crc32_hash _)) by apply crc32_u32.
  by rewrite decide_False by (by intros []).
Qed.
Lemma decode_encode_version v : version_ok v → decode_version (encode_version v) = Ok v.
Proof.
  intros Hv. unfold encode_version. rewrite decode_checked, cursor_new_at, <- (app_nil_r (encode_body v)).
  by rewrite decode_body_at.
Qed.

(** ** What the decoder accepts *)

(** [dec] consumes exactly the encoding of what it returns, which is a [P]. *)
Definition exactly {E A} (dec : M Cursor E A) (enc : A → bytes) (P : A → Prop) : Prop :=
  ∀ pre rest a c, dec (cur_at pre rest) = (Ok a, c) → ∃ post, rest = enc a ++ post ∧ c = cur_at (pre ++ enc a) post ∧ P a.

Lemma r_take_exact n : 0 ≤ n → exactly (r_take n) (λ b, b) (λ b, blen b = n).
Proof.
  intros Hn pre rest b c E. destruct (decide (blen rest < n)) as [Hlt|Hge].
  { unfold r_take in E. fold (remaining (cur_at pre rest)) in E. by rewrite remaining_at, decide_True in E. }
  rewrite <- (take_drop (Z.to_nat n) rest) in E |- *. set (mid := take _ rest) in *.
  assert (Hlen : blen mid = n) by (subst mid; unfold blen in *; rewrite length_take; lia).
  rewrite r_take_at in E by done. injection E as <- <-. by eexists.
Qed.
Lemma of_le_inj n b : length b = n → le_split n (of_le b) = b.
Proof. intros <-. apply split_le_combine. Qed.
Lemma r_u32_exact : exactly r_u32 le32 (λ x, 0 ≤ x < 2 ^ 32).
Proof.
  intros pre rest x c (b & c1 & E & [= <- <-])%bind_ok_inv. apply r_take_exact in E as (post & -> & -> & Hb); [|done].
  exists post. unfold blen in Hb. assert (Eb : le32 (of_le b) = b) by (apply (of_le_inj 4); lia). rewrite Eb. split_and!; [done|done|..].
  all: pose proof (of_le_range b) as Hr; unfold blen in Hr; rewrite Hb in Hr; apply Hr.
Qed.
Lemma r_u64_exact : exactly r_u64 le64 (λ x, 0 ≤ x < 2 ^ 64).
Proof.
  intros pre rest x c (b & c1 & E & [= <- <-])%bind_ok_inv. apply r_take_exact in E as (post & -> & -> & Hb); [|done].
  exists post. unfold blen in Hb. assert (Eb : le64 (of_le b) = b) by (apply (of_le_inj 8); lia). rewrite Eb. split_and!; [done|done|..].
  all: pose proof (of_le_range b) as Hr; unfold blen in Hr; rewrite Hb in Hr; apply Hr.
Qed.
Lemma r_bytes_exact : exactly r_bytes put_bytes (λ b, blen b < 2 ^ 32).
Proof.
  intros pre rest b c (n & c1 & E & E2)%bind_ok_inv. apply r_u32_exact in E as (post & -> & -> & Hn).
  apply r_take_exact in E2 as (post2 & -> & -> & Hb); [|lia]. exists post2. unfold put_bytes.
  rewrite Hb, u32_wrap_id by done. rewrite <- !(assoc_L (++)). split_and!; [done|done|lia].
Qed.
Lemma repeat_exact {A} (dec : M Cursor ManifestError A) enc P n :
  exactly dec enc P → exactly (repeat_m n dec) (λ l, concat (enc <$> l)) (λ l, Forall P l ∧ length l = n).
Proof.
  intros Hd. induction n as [|n IH]; intros pre rest l c.
  - intros [= <- <-]. exists rest. by rewrite app_nil_r.
  - cbn [repeat_m]. intros (a & c1 & E & E2)%bind_ok_inv. apply bind_ok_inv in E2 as (l' & c2 & E2 & [= <- <-]).
    apply Hd in E as (post & -> & -> & Ha). apply IH in E2 as (post2 & -> & -> & Hl & Hlen). exists post2.
    cbn [fmap list_fmap concat]. rewrite <- !(assoc_L (++)). split_and!; [done|done|by constructor|by rewrite <- Hlen].
Qed.
Lemma decode_meta_exact : exactly decode_meta encode_meta meta_ok.
Proof.
  intros pre rest t c (i & c1 & E1 & E)%bind_ok_inv. apply bind_ok_inv in E as (n & c2 & E2 & E).
  apply bind_ok_inv in E as (f & c3 & E3 & E). apply bind_ok_inv in E as (l & c4 & E4 & [= <- <-]).
  apply r_u64_exact in E1 as (p1 & -> & -> & Hi). apply r_u64_exact in E2 as (p2 & -> & -> & Hn).
  apply r_bytes_exact in E3 as (p3 & -> & -> & Hf). apply r_bytes_exact in E4 as (p4 & -> & -> & Hl).
  exists p4. unfold encode_meta. cbn [id num_entries first_key last_key]. rewrite <- !(assoc_L (++)). by split_and!.
Qed.
Lemma decode_tier_exact : exactly decode_tier encode_tier tier_ok.
Proof.
  intros pre rest t c (n & c1 & E1 & E2)%bind_ok_inv. apply r_u32_exact in E1 as (p1 & -> & -> & Hn).
  apply (repeat_exact _ _ _ _ decode_meta_exact) in E2 as (p2 & -> & -> & Ht & Hlen). exists p2. unfold encode_tier.
  assert (Eb : blen t = n) by (unfold blen; lia). rewrite Eb, u32_wrap_id by done. rewrite <- !(assoc_L (++)).
  split_and!; [done|done|]. split; [done|]. lia.
Qed.
Lemma decode_body_exact : exactly decode_body encode_body version_ok.
Proof.
  intros pre rest v c (g & c1 & E1 & E)%bind_ok_inv. apply bind_ok_inv in E as ([] & c1' & Eg & E).
  unfold guard_err in Eg. case_bool_decide as Hg; [done|]. injection Eg as <-.
  apply bind_ok_inv in E as (fm & c2 & E2 & E). apply bind_ok_inv in E as ([] & c2' & Ef & E).
  unfold guard_err in Ef. case_bool_decide as Hfm; [done|]. injection Ef as <-.
  apply bind_ok_inv in E as (sq & c3 & E3 & E). apply bind_ok_inv in E as (ni & c4 & E4 & E).
  apply bind_ok_inv in E as (nt & c5 & E5 & E). apply bind_ok_inv in E as (ts & c6 & E6 & [= <- <-]).
  apply r_u64_exact in E1 as (p1 & -> & -> & _). apply r_u32_exact in E2 as (p2 & -> & -> & _).
  apply r_u64_exact in E3 as (p3 & -> & -> & Hs). apply r_u64_exact in E4 as (p4 & -> & -> & Hi).
  apply r_u32_exact in E5 as (p5 & -> & -> & Hn). apply (repeat_exact _ _ _ _ decode_tier_exact) in E6 as (p6 & -> & -> & Ht & Hlen).
  exists p6. subst g fm. unfold encode_body. cbn [next_seq next_table_id tiers].
  assert (Eb : blen ts = nt) by (unfold blen; lia). rewrite Eb, u32_wrap_id by done. rewrite <- !(assoc_L (++)).
  split_and!; [done|done|]. split; [done|]. split; [cbn; lia|]. by split.
Qed.

Lemma decode_version_inv b v :
  decode_version b = Ok v → ∃ body, b = body ++ le32 (crc32_hash body) ∧ (decode_body (cursor_new body)).1 = Ok v.
Proof.
  intros E. assert (∃ body tail, b = body ++ tail ∧ blen tail = 4) as (body & tail & -> & Htail).
  { unfold decode_version in E. case_decide as Hlen; [done|]. exists (take (length b - 4) b), (drop (length b - 4) b).
    rewrite take_drop. split; [done|]. unfold blen in *. rewrite length_drop. lia. }
  exists body. pose proof (blen_nonneg body). assert (Et : tail = le32 (of_le tail)) by (symmetry; apply (of_le_inj 4); unfold blen in Htail; lia).
  unfold decode_version in E. rewrite blen_app, decide_False in E by lia. rewrite slice_prefix in E by lia. cbn [mbind outcome_bind] in E.
  rewrite slice_suffix in E by lia. cbn [mbind outcome_bind] in E. case_decide as Hcrc; [done|].
  split; [|done]. by rewrite <- Hcrc, <- Et.
Qed.

Lemma version_empty_ok : version_ok version_empty.
Proof. by repeat split. Qed.
End codec.

(** * Table names *)

Lemma parse_table_path d i : 0 ≤ i < 2 ^ 64 → parse_table_id (table_path d i) = Some i.
Proof.
  intros Hi. unfold parse_table_id, table_path. rewrite file_name_join.
  cbn [mbind option_bind]. rewrite strip_suffix_app. cbn [mbind option_bind]. by apply parse_fmt020.
Qed.
Lemma table_path_inj d i j :
  0 ≤ i < 2 ^ 64 → 0 ≤ j < 2 ^ 64 → table_path d i = table_path d j → i = j.
Proof.
  intros Hi Hj E. apply (f_equal parse_table_id) in E.
  rewrite !parse_table_path in E by done. by simplify_eq.
Qed.

(** A name that does not end in [.sst] is not a table's. *)
Lemma parse_table_other d name c :
  last name = Some c → byte.unsigned c ≠ 116 → parse_table_id (join d name) = None.
Proof.
  intros Hl Hc. unfold parse_table_id. rewrite file_name_join. cbn [mbind option_bind].
  destruct (strip_suffix (lit ".sst") name) as [r|] eqn:E; [|done].
  apply strip_suffix_Some in E. subst name. rewrite last_app in Hl. vm_compute in Hl.
  injection Hl as <-. by destruct Hc.
Qed.

(** * Versions *)

Lemma last_removelast {A} (l : list A) x : last l = Some x → l = removelast l ++ [x].
Proof.
  intros [l' ->]%last_Some. by rewrite removelast_last.
Qed.

Lemma trim_tiers_concat {B} (f : list TableMeta → list B) ts :
  f [] = [] → concat (f <$> trim_tiers ts) = concat (f <$> ts).
Proof.
  intros Hf. unfold trim_tiers. generalize (length ts) as n. intros n.
  revert ts. induction n as [|n IH]; intros ts; simpl; [done|].
  destruct (last ts) as [[|x tier]|] eqn:E; try done. rewrite IH.
  rewrite (last_removelast _ _ E) at 2. rewrite fmap_app, concat_app. simpl.
  by rewrite Hf, !app_nil_r.
Qed.

Lemma pad_tiers_concat {B} (f : list TableMeta → list B) n ts :
  f [] = [] → concat (f <$> pad_tiers n ts) = concat (f <$> ts).
Proof.
  intros Hf. unfold pad_tiers. rewrite fmap_app, concat_app.
  assert (concat (f <$> replicate (n - length ts) []) = []) as ->; [|by rewrite app_nil_r].
  induction (n - length ts)%nat as [|k IH]; simpl; [done|]. by rewrite Hf.
Qed.

(** A flush puts its table in front of every older one. *)
Lemma flushed_newest_first v t q :
  tables_newest_first (flushed v t q) = t :: tables_newest_first v.
Proof.
  unfold tables_newest_first, flushed. simpl. destruct (tiers v) as [|tier ts]; simpl; [done|].
  by rewrite reverse_snoc.
Qed.

Lemma flushed_all_tables v t q : all_tables (flushed v t q) ≡ₚ t :: all_tables v.
Proof.
  unfold all_tables, flushed. simpl. destruct (tiers v) as [|tier ts]; simpl; [done|].
  by rewrite (Permutation_app_comm tier [t]).
Qed.
(** Newest-first order of a list of tiers. *)
Definition newest_first (ts : list (list TableMeta)) : list TableMeta := concat (reverse <$> ts).

Lemma newest_first_app ts1 ts2 : newest_first (ts1 ++ ts2) = newest_first ts1 ++ newest_first ts2.
Proof. unfold newest_first. by rewrite fmap_app, concat_app. Qed.

(** A compaction puts its output where the tier's tables were, in front of
    everything older. *)
Lemma compacted_newest_first v pre tier post out :
  tiers v = pre ++ tier :: post →
  tables_newest_first (compacted v (length pre) out) =
  newest_first pre ++ out :: newest_first post.
Proof.
  intros Hv. unfold tables_newest_first, compacted. simpl.
  rewrite trim_tiers_concat by done. rewrite Hv. unfold pad_tiers. fold (newest_first pre).
  rewrite length_app. simpl.
  destruct post as [|t2 post].
  - match goal with |- context [replicate ?n []] => replace n with 1%nat by (simpl; lia) end. simpl.
    rewrite <- (assoc_L (++)), insert_app_r_alt, Nat.sub_diag by lia. simpl.
    rewrite (alter_app_r _ pre _ 1). simpl. fold newest_first.
    change (concat (reverse <$> ?l)) with (newest_first l).
    rewrite newest_first_app. done.
  - match goal with |- context [replicate ?n []] => replace n with 0%nat by (simpl; lia) end. simpl.
    rewrite app_nil_r, insert_app_r_alt, Nat.sub_diag by lia. simpl.
    rewrite (alter_app_r _ pre _ 1). simpl.
    change (concat (reverse <$> ?l)) with (newest_first l).
    rewrite newest_first_app. f_equal. unfold newest_first. simpl.
    rewrite reverse_snoc. done.
Qed.

(** * The file *)

Section files.
Context {CRC : Crc32} {CRCL : Crc32Laws}.
Implicit Types (v : Version) (d : path) (m : memfs).

Lemma manifest_names_differ d : join d MANIFEST_TMP ≠ join d MANIFEST_NAME.
Proof. by intros E%join_inj. Qed.

Lemma write_manifest_ok d v m :
  write_manifest d v m =
  (Ok (), <[join d MANIFEST_NAME := encode_version v]> (delete (join d MANIFEST_TMP) m)).
Proof.
  set (tmp := join d MANIFEST_TMP). set (fin := join d MANIFEST_NAME).
  assert (Hne : tmp ≠ fin) by apply manifest_names_differ.
  unfold write_manifest. fold tmp fin.
  assert (Hd : ignore_err (E':=ManifestError) (fs_delete tmp) m = (Ok (), delete tmp m)).
  { unfold ignore_err. simpl. unfold mem_delete, mem_file.
    destruct (m !! tmp) eqn:E; [done|]. by rewrite delete_id. }
  erewrite bind_ok by exact Hd.
  erewrite bind_ok by (apply map_err_ok; simpl; unfold mem_create; by rewrite lookup_delete_eq).
  erewrite bind_ok by (apply map_err_ok; simpl; unfold mem_append, mem_file; by rewrite lookup_insert_eq).
  rewrite insert_insert_eq. simpl app.
  erewrite bind_ok by (apply map_err_ok; simpl; unfold mem_sync_file, mem_file; by rewrite lookup_insert_eq).
  erewrite bind_ok by (apply map_err_ok; simpl; unfold mem_rename, mem_file; by rewrite lookup_insert_eq).
  rewrite decide_False by done. unfold map_err. simpl. f_equal.
  rewrite delete_insert_ne by done. by rewrite delete_insert_id by apply lookup_delete_eq.
Qed.

(** The manifest file of [d] holds [v]. *)
Definition manifest_at d v m : Prop :=
  m !! join d MANIFEST_NAME = Some (encode_version v) ∧ version_ok v.

Lemma open_existing d v m :
  manifest_at d v m → open d m = (Ok (mkManifest d (mkRef 0 v) [] ∅ 1), m).
Proof.
  intros [Hm Hv]. unfold open.
  erewrite bind_ok by (unfold attempt; simpl; unfold mem_open, mem_file; by rewrite Hm).
  cbn beta iota. rewrite bind_assoc.
  erewrite bind_ok by (apply map_err_ok; simpl; unfold mem_len, mem_file; by rewrite Hm).
  rewrite bind_assoc. erewrite bind_ok.
  2:{ apply map_err_ok. simpl. unfold mem_read_at, mem_file. rewrite Hm.
      rewrite decide_False by (pose proof (blen_nonneg (encode_version v)); lia). done. }
  rewrite read_bytes_all.
  by erewrite bind_ok by (unfold of_outcome; by rewrite decode_encode_version).
Qed.

Lemma open_fresh d m :
  m !! join d MANIFEST_NAME = None →
  open d m = (Ok (mkManifest d (mkRef 0 version_empty) [] ∅ 1),
              <[join d MANIFEST_NAME := encode_version version_empty]> (delete (join d MANIFEST_TMP) m)).
Proof.
  intros Hm. unfold open.
  erewrite bind_ok by (unfold attempt; simpl; unfold mem_open, mem_file; by rewrite Hm).
  cbn beta iota. rewrite bind_assoc. by erewrite bind_ok by apply write_manifest_ok.
Qed.

(** * Garbage collection *)

(** A table file no live version names, and one of them in [d]. *)
Definition unreferenced (live : gset Z) (p : path) : Prop :=
  match parse_table_id p with Some i => i ∉ live | None => False end.
Definition garbage d (live : gset Z) (p : path) : Prop :=
  is_child_of p d = true ∧ unreferenced live p.
#[global] Instance unreferenced_dec live p : Decision (unreferenced live p).
Proof. unfold unreferenced. destruct (parse_table_id p); apply _. Defined.
#[global] Instance garbage_dec d live p : Decision (garbage d live p).
Proof. unfold garbage. apply _. Defined.

Lemma gc_loop_ok (live : gset Z) (ps : list path) m (deleted : bool) :
  NoDup ps → (∀ p, p ∈ ps → is_Some (m !! p)) →
  ∃ r, fold_m ps deleted (λ deleted p,
        match parse_table_id p with
        | Some id => if decide (id ∈ live) then mret deleted
                     else _ ← map_err Storage (fs_delete p); mret true
        | None => mret deleted
        end) m =
    (Ok r, filter (λ pb, ¬ (pb.1 ∈ ps ∧ unreferenced live pb.1)) m).
Proof.
  revert m deleted. induction ps as [|p ps IH]; intros m deleted Hnd Hin.
  { exists deleted. simpl. unfold mret, M_ret. f_equal. symmetry. apply map_filter_id.
    intros i x _ [?%elem_of_nil _]; done. }
  apply NoDup_cons in Hnd as [Hp Hnd]. cbn [fold_m].
  assert (Hskip : ¬ unreferenced live p →
    filter (λ pb : path * bytes, ¬ (pb.1 ∈ ps ∧ unreferenced live pb.1)) m =
    filter (λ pb : path * bytes, ¬ (pb.1 ∈ p :: ps ∧ unreferenced live pb.1)) m).
  { intros Hl. apply map_filter_ext. intros q x _. simpl. rewrite elem_of_cons. split.
    - intros Hn [[->|Hq] Hu]; [done|]. by apply Hn.
    - intros Hn [Hq Hi]. apply Hn. eauto. }
  destruct (decide (unreferenced live p)) as [Hu|Hu].
  - pose proof Hu as Hu'. unfold unreferenced in Hu'.
    destruct (parse_table_id p) as [i|] eqn:Hpi; [|done]. rewrite decide_False by done.
    destruct (Hin p ltac:(by left)) as [b Hb]. rewrite bind_assoc.
    erewrite bind_ok by (apply map_err_ok; simpl; unfold mem_delete, mem_file; by rewrite Hb).
    rewrite bind_ret. destruct (IH (delete p m) true Hnd) as [r Hr].
    { intros q Hq. rewrite lookup_delete_ne; [apply Hin; by right|]. by intros ->. }
    exists r. rewrite Hr. f_equal. apply map_eq. intros q. apply option_eq. intros x.
    rewrite !map_lookup_filter_Some, lookup_delete_Some. simpl. rewrite elem_of_cons. split.
    + intros [[Hne Hx] Hn]. split; [done|]. intros [[->|Hq] Hq']; [done|]. by apply Hn.
    + intros [Hx Hn]. split; [split; [|done]|].
      * intros ->. apply Hn. split; [by left|done].
      * intros [Hq Hq']. apply Hn. eauto.
  - rewrite <- Hskip by done. assert (E : ∀ k : M memfs ManifestError bool,
      match parse_table_id p with
      | Some id => if decide (id ∈ live) then mret deleted else k
      | None => mret deleted
      end = mret deleted).
    { intros k. unfold unreferenced in Hu. destruct (parse_table_id p) as [i|]; [|done].
      rewrite decide_True; [done|]. by destruct (decide (i ∈ live)). }
    rewrite E, bind_ret. apply IH; [done|]. intros q Hq. apply Hin. by right.
Qed.

(** The table files of a directory, as [gc] lists them. *)
Definition listed d m : list path := filter (λ p, is_child_of p d = true) (bt_keys m).
Lemma listed_in d m p : p ∈ listed d m → is_child_of p d = true ∧ is_Some (m !! p).
Proof. intros [Hc Hp%elem_of_bt_keys]%list_elem_of_filter. done. Qed.
Lemma listed_NoDup d m : NoDup (listed d m).
Proof. apply NoDup_filter, (StronglySorted_lt_NoDup olt), bt_keys_sorted. Qed.

(** The files a collection leaves. *)
Definition collected mf m : memfs :=
  filter (λ pb, ¬ garbage (dir mf) (live_ids (retain_obsolete mf)) pb.1) m.

Lemma gc_loop_collected mf m :
  ∃ r, gc_loop (live_ids (retain_obsolete mf)) (listed (dir mf) m) m = (Ok r, collected mf m).
Proof.
  set (live := live_ids (retain_obsolete mf)).
  destruct (gc_loop_ok live (listed (dir mf) m) m false) as [r Hr]; [apply listed_NoDup|intros p Hp%listed_in; apply Hp|].
  exists r. unfold gc_loop. rewrite Hr. f_equal. apply map_filter_ext. intros p x Hx. simpl. unfold garbage, listed.
  rewrite list_elem_of_filter, elem_of_bt_keys, Hx.
  split; intros Hn [Hg1 Hg2]; apply Hn; (split; [|done]); [by split|by destruct Hg1].
Qed.

Lemma gc_ok mf m : gc (mf, m) = (Ok (), (retain_obsolete mf, collected mf m)).
Proof.
  unfold gc. erewrite bind_ok by done. erewrite bind_ok by done.
  change (dir (retain_obsolete mf)) with (dir mf). erewrite bind_ok by done.
  destruct (gc_loop_collected mf m) as [r Hr]. erewrite bind_ok by (apply on_snd_run; exact Hr). by destruct r.
Qed.

Lemma install_ok v mf m :
  ∃ mf', install v (mf, m) = (Ok (), (mf',
      filter (λ pb, ¬ garbage (dir mf) (live_ids mf') pb.1)
        (<[join (dir mf) MANIFEST_NAME := encode_version v]> (delete (join (dir mf) MANIFEST_TMP) m)))) ∧
    mf' = retain_obsolete (swap_in v mf).
Proof.
  eexists. split; [|done]. unfold install. erewrite bind_ok by done.
  erewrite bind_ok by (apply on_snd_run, write_manifest_ok). erewrite bind_ok by done.
  by rewrite gc_ok.
Qed.

(** What [gc] keeps: whatever the current version names, and whatever a pinned
    superseded version names. *)
Lemma live_ids_current mf : referenced_ids (version (current mf)) ⊆ live_ids mf.
Proof. apply union_subseteq_l. Qed.
Lemma live_ids_pinned mf (r : VersionRef) :
  r ∈ obsolete mf → (0 < pin_count mf (arc_id r))%nat →
  referenced_ids (version r) ⊆ live_ids (retain_obsolete mf).
Proof.
  intros Hv Hp. unfold live_ids. simpl. intros i Hi. apply elem_of_union_r, elem_of_union_list.
  exists (referenced_ids (version r)). split; [|done].
  apply (list_elem_of_fmap_2 (λ v : VersionRef, referenced_ids (version v))). by apply list_elem_of_filter.
Qed.
End files.

(** * Transport *)

Section sims.
Context `{!Crc32} {S S2 : Type} {ST : Storage.Storage S} {ST2 : Storage.Storage S2} {SD : Deaths S S2} {SS : StorageSim S S2}.
Abbreviation V := (st_view (S:=S) (S2:=S2)).
Lemma write_manifest_sim d v : msim V (write_manifest (S:=S) d v) (write_manifest d v).
Proof. unfold write_manifest. solve_msim. Qed.
Hint Resolve write_manifest_sim : msim.
Lemma man_open_sim d : msim V (open (S:=S) d) (open d).
Proof. unfold open. solve_msim. Qed.
Lemma gc_loop_sim live ps : msim V (gc_loop (S:=S) live ps) (gc_loop live ps).
Proof. unfold gc_loop. solve_msim. Qed.
Hint Resolve gc_loop_sim : msim.
Lemma gc_sim : msim (with_same V) (gc (S:=S)) gc.
Proof. unfold gc. solve_msim. Qed.
Hint Resolve gc_sim : msim.
Lemma install_sim v : msim (with_same V) (install (S:=S) v) (install v).
Proof. unfold install. solve_msim. Qed.
End sims.
#[global] Hint Resolve write_manifest_sim man_open_sim install_sim : msim.

(** * What the manifest promises *)

Lemma name_kept d live : ¬ garbage d live (join d MANIFEST_NAME).
Proof.
  intros [_ Hu]. unfold unreferenced in Hu. by rewrite (parse_table_other d MANIFEST_NAME (byte.of_Z 84)) in Hu.
Qed.
(** Table [i] belongs to the version being installed, or to a version it
    supersedes that a reader still holds. *)
Definition named v (mf : Manifest) (i : Z) : Prop :=
  i ∈ referenced_ids v ∨
  ∃ r, r ∈ obsolete mf ++ [current mf] ∧ (0 < pin_count mf (arc_id r))%nat ∧ i ∈ referenced_ids (version r).
Lemma live_ids_installed v mf i :
  i ∈ live_ids (retain_obsolete (swap_in v mf)) ↔ named v mf i.
Proof.
  unfold live_ids, named. rewrite elem_of_union. apply or_iff_compat_l. rewrite elem_of_union_list. split.
  - intros (X & (r & -> & [Hp Hr]%list_elem_of_filter)%list_elem_of_fmap & Hi). by exists r.
  - intros (r & Hr & Hp & Hi). exists (referenced_ids (version r)). split; [|done].
    apply (list_elem_of_fmap_2 (λ v : VersionRef, referenced_ids (version v))). by apply list_elem_of_filter.
Qed.
Lemma install_lookup {CRC : Crc32} d live v (m : memfs) i :
  0 ≤ i < 2 ^ 64 →
  filter (λ pb : path * bytes, ¬ garbage d live pb.1)
    (<[join d MANIFEST_NAME := encode_version v]> (delete (join d MANIFEST_TMP) m)) !! table_path d i =
  if decide (i ∈ live) then m !! table_path d i else None.
Proof.
  intros Hi. assert (N : ∀ n c, last n = Some c → byte.unsigned c ≠ 116 → join d n ≠ table_path d i).
  { intros n c Hl Hc E. apply (f_equal parse_table_id) in E. rewrite parse_table_path in E by done.
    by rewrite (parse_table_other d n c) in E. }
  rewrite map_lookup_filter, lookup_insert_ne by by apply (N _ (byte.of_Z 84)).
  rewrite lookup_delete_ne by by apply (N _ (byte.of_Z 112)).
  assert (G : garbage d live (table_path d i) ↔ i ∉ live).
  { unfold garbage, unreferenced. rewrite parse_table_path by done. split; [by intros [_ ?]|].
    intros H. split; [apply is_child_join|done]. }
  destruct (m !! table_path d i); simpl; [|by case_decide].
  case_decide as Hl; [rewrite option_guard_True; [done|]|rewrite option_guard_False; [done|]]; rewrite G; tauto.
Qed.

Section contract.
Context {CRC : Crc32} {CRCL : Crc32Laws} {S : Type} {ST : Storage.Storage S} {STS : StorageSpec S}.
Implicit Types (s : S) (m : memfs) (mf : Manifest.Manifest) (v : Version).

(** C39: the manifest decoder accepts exactly the encodings of versions whose fields fit their
    words, followed by any bytes the checksum covers too, and returns the version encoded. *)
Theorem manifest_decode_exact b v :
  decode_version b = Ok v ↔
  version_ok v ∧ ∃ rest, b = (encode_body v ++ rest) ++ le32 (crc32_hash (encode_body v ++ rest)).
Proof.
  split.
  - intros (body & -> & E)%decode_version_inv. rewrite cursor_new_at in E.
    destruct (decode_body (cur_at [] body)) as [r c] eqn:Ed. cbn in E. subst r.
    apply decode_body_exact in Ed as (rest & -> & _ & Hv). split; [done|]. by exists rest.
  - intros (Hv & rest & ->). by rewrite decode_checked, cursor_new_at, decode_body_at.
Qed.

End contract.

#[local] Existing Instance Sample.crc.
#[local] Existing Instance Sample.crc_laws.

Definition sample_version : Version := mkVersion [[mkMeta 1 1 (lit "a") (lit "b")]; []] 5 2.
Lemma sample_version_ok : version_ok sample_version.
Proof. by repeat (split || constructor). Qed.
Lemma manifest_decode_exact_witness : decode_version (encode_version sample_version) = Ok sample_version.
Proof.
  apply (manifest_decode_exact (encode_version sample_version) sample_version). split; [apply sample_version_ok|].
  exists []. by rewrite app_nil_r.
Defined.

End ManifestSpec.
