(* ===== verification/GroupCommit.v ===== *)
(** Group commit among concurrent callers ([Wal::commit_group] of
    [src/wal/mod.rs]): every caller is a thread that enqueues its frame, then
    leads a batch or parks until a leader wakes it.  The steps are the critical
    sections of the [coord] mutex and the leader's I/O under the writer mutex;
    they interleave in any order, and a parked thread may also wake for no
    reason, as a condition variable allows. *)
From Stdlib Require Import Strings.String.
From S2P Require Export WalSpec.

Module GroupCommit.
Import Segment Wal WalSpec Recovery.

(** * The threads *)

(** Where a caller of [commit_group(frame)] is. *)
Inductive Pc : Type :=
  | Begin (frame : bytes)
  | Looping (my_seq : Z) (frame : bytes)
  | Parked (my_seq : Z) (frame : bytes)
  | Leading (my_seq : Z) (frame : bytes) (batch : list (Z * bytes))
  | Written (my_seq : Z) (frame : bytes) (batch : list (Z * bytes)) (io : () + StorageError)
  | Done (my_seq : Z) (frame : bytes) (res : () + StorageError).

Section system.
Context {CRC : Crc32} {S : Type} {ST : Storage S}.

(** The log with its coordinator, the backend, the threads; [hist] records the
    batches whose [write_batch] returned [Ok]. *)
Record Sys : Type := mkSys {
  log : Wal;
  store : S;
  threads : list Pc;
  hist : list (Z * bytes);
}.

Definition set_thread (t : nat) (p : Pc) (s : Sys) : Sys :=
  mkSys (log s) (store s) (<[t := p]> (threads s)) (hist s).
Definition set_log_coord (c : Coord) (s : Sys) : Sys :=
  mkSys (set_coord c (log s)) (store s) (threads s) (hist s).

(** [batch_done.notify_all()]. *)
Definition wake (p : Pc) : Pc :=
  match p with Parked q f => Looping q f | _ => p end.
Definition notify_all (s : Sys) : Sys :=
  mkSys (log s) (store s) (wake <$> threads s) (hist s).

(** Thread [t] runs to the end of its next critical section.  A parked or
    finished thread has none; a panic of the backend ends the process. *)
Definition gstep (t : nat) (s : Sys) : option Sys :=
  let c := coord (log s) in
  match threads s !! t with
  | Some (Begin f) =>
      let '(q, c') := enqueue f c in
      Some (set_thread t (Looping q f) (set_log_coord c' s))
  | Some (Looping q f) =>
      if decide (q ≤ synced_through c) then Some (set_thread t (Done q f (inl ())) s)
      else if leader_active c then Some (set_thread t (Parked q f) s)
      else let '(batch, c') := take_batch c in
           Some (set_thread t (Leading q f batch) (set_log_coord c' s))
  | Some (Leading q f batch) =>
      match write_batch batch (log s, store s) with
      | (Ok _, (w, st)) =>
          Some (set_thread t (Written q f batch (inl ())) (mkSys w st (threads s) (hist s ++ batch)))
      | (Err e, (w, st)) =>
          Some (set_thread t (Written q f batch (inr e)) (mkSys w st (threads s) (hist s)))
      | (Panic, _) => None
      end
  | Some (Written q f batch io) =>
      let c' := publish batch q (match io with inl _ => true | inr _ => false end) c in
      Some (set_thread t (Done q f io) (notify_all (set_log_coord c' s)))
  | Some (Parked _ _) | Some (Done _ _ _) | None => None
  end.

(** A step of the system: a thread's, or a spurious wake-up. *)
Inductive step : Sys → Sys → Prop :=
  | step_thread t s s' : gstep t s = Some s' → step s s'
  | step_wake t s q f : threads s !! t = Some (Parked q f) → step s (set_thread t (Looping q f) s).

(** A coordinator nobody is using, having given out the numbers up to [n0]. *)
Definition quiet (n0 : Z) (c : Coord) : Prop :=
  queue c = [] ∧ leader_active c = false ∧ synced_through c = n0 ∧ next_seq c = n0.

(** The callers with the frames [fs] arrive. *)
Definition start (w : Wal) (s : S) (fs : list bytes) : Sys := mkSys w s (Begin <$> fs) [].

(** * The invariant *)

Definition leads (p : Pc) : bool :=
  match p with Leading _ _ _ | Written _ _ _ _ => true | _ => false end.
Definition claimed (p : Pc) : option (Z * bytes) :=
  match p with
  | Begin _ => None
  | Looping q f | Parked q f | Leading q f _ | Written q f _ _ | Done q f _ => Some (q, f)
  end.
Definition is_begin (p : Pc) : nat := match p with Begin _ => 1%nat | _ => 0%nat end.

Definition others_follow (t : nat) (s : Sys) : Prop :=
  ∀ t' p, threads s !! t' = Some p → t' ≠ t → leads p = false.

(** The leader's batch: frames still to be written, frames already written. *)
Inductive lead_state (s : Sys) : list (Z * bytes) → list (Z * bytes) → Prop :=
  | lead_none : leader_active (coord (log s)) = false →
      (∀ t p, threads s !! t = Some p → leads p = false) → lead_state s [] []
  | lead_io t q f b : leader_active (coord (log s)) = true →
      threads s !! t = Some (Leading q f b) → others_follow t s → (q, f) ∈ b → lead_state s b []
  | lead_ok t q f b : leader_active (coord (log s)) = true →
      threads s !! t = Some (Written q f b (inl ())) → others_follow t s → (q, f) ∈ b → lead_state s [] b
  | lead_err t q f b e : leader_active (coord (log s)) = true →
      threads s !! t = Some (Written q f b (inr e)) → others_follow t s → (q, f) ∈ b → lead_state s b [].

(** [pub] are the published frames, [wri] the leader's written and [unw] its
    unwritten ones; with the queue they are all the frames in claim order. *)
Record ginv (n0 : Z) (fs : list bytes) (s : Sys) (pub wri unw : list (Z * bytes)) : Prop := {
  gi_lead : lead_state s unw wri;
  gi_hist : hist s = pub ++ wri;
  gi_all : (pub ++ wri ++ unw ++ queue (coord (log s))).*1 = seqZ (n0 + 1) (next_seq (coord (log s)) - n0);
  gi_synced : synced_through (coord (log s)) = n0 + blen pub;
  gi_seq : 0 ≤ n0 ≤ next_seq (coord (log s)) ∧
    next_seq (coord (log s)) + Z.of_nat (sum_list_with is_begin (threads s)) ≤ n0 + blen fs < 2 ^ 64;
  gi_begin t f : threads s !! t = Some (Begin f) → f ∈ fs;
  gi_frames q f : (q, f) ∈ pub ++ wri ++ unw ++ queue (coord (log s)) → f ∈ fs;
  gi_claimed t p q f : threads s !! t = Some p → claimed p = Some (q, f) →
    (q, f) ∈ pub ++ wri ++ unw ++ queue (coord (log s));
  gi_done t q f : threads s !! t = Some (Done q f (inl ())) → (q, f) ∈ hist s;
  gi_parked t q f : threads s !! t = Some (Parked q f) → leader_active (coord (log s)) = true;
}.

(** ** Lists of claimed frames *)

Lemma claimed_pub (n0 k q : Z) (f : bytes) (pub rest : list (Z * bytes)) :
  (pub ++ rest).*1 = seqZ (n0 + 1) k → (q, f) ∈ pub ++ rest → q ≤ n0 + blen pub → (q, f) ∈ pub.
Proof.
  intros E [Hp|Hr]%elem_of_app Hq; [done|]. apply list_elem_of_lookup in Hr as [i Hi].
  assert (Hk : (pub ++ rest).*1 !! (List.length pub + i)%nat = Some q).
  { rewrite list_lookup_fmap, lookup_app_r by lia. replace (_ + i - _)%nat with i by lia. by rewrite Hi. }
  rewrite E in Hk. apply lookup_seqZ in Hk as [-> _]. unfold blen in Hq. lia.
Qed.

Lemma unclaimed_pub (n0 k q : Z) (f : bytes) (pub rest : list (Z * bytes)) :
  (pub ++ rest).*1 = seqZ (n0 + 1) k → (q, f) ∈ pub ++ rest → n0 + blen pub < q → (q, f) ∈ rest.
Proof.
  intros E [Hp|Hr]%elem_of_app Hq; [|done]. apply list_elem_of_lookup in Hp as [i Hi].
  pose proof (lookup_lt_Some _ _ _ Hi).
  assert (Hk : (pub ++ rest).*1 !! i = Some q) by (by rewrite list_lookup_fmap, lookup_app_l, Hi).
  rewrite E in Hk. apply lookup_seqZ in Hk as [-> _]. unfold blen in Hq. lia.
Qed.

(** The last number of a batch is the number of frames claimed up to it. *)
Lemma highest_claimed (n0 k q : Z) (pub b rest : list (Z * bytes)) :
  (pub ++ b ++ rest).*1 = seqZ (n0 + 1) k → b ≠ [] → highest b q = n0 + blen (pub ++ b).
Proof.
  intros E Hb. unfold highest. destruct b as [|[s x] b' _] using rev_ind; [done|].
  rewrite last_snoc.
  assert (Hk : (pub ++ (b' ++ [(s, x)]) ++ rest).*1 !! (List.length pub + List.length b')%nat = Some s).
  { rewrite list_lookup_fmap, lookup_app_r by lia. rewrite <- (assoc_L (++)), lookup_app_r by lia.
    by replace (_ + _ - _ - _)%nat with 0%nat by lia. }
  rewrite E in Hk. apply lookup_seqZ in Hk as [-> _]. unfold blen. rewrite !length_app. simpl. lia.
Qed.

(** The leader's I/O does not touch the coordinator. *)
Lemma write_batch_coord b (w : Wal) (s : S) r w' s' :
  write_batch b (w, s) = (r, (w', s')) → coord w' = coord w ∧ dir w' = dir w.
Proof.
  intros E. set (I := λ x : Wal * S, coord x.1 = coord w ∧ dir x.1 = dir w).
  assert (Hz : ∀ m : M (Segment * S) StorageError (), keeps I any (zoom active set_active m)).
  { intros m [w1 s1] Hw1. unfold zoom. by destruct (m (active w1, s1)) as [r1 [g1 q1]]. }
  assert (Ho : ∀ m : M S StorageError (), keeps I any (on_snd m)).
  { intros m. apply keeps_on_snd. intros t s1 Hs1. by split. }
  assert (Hk : keeps I any (write_batch b)); [|destruct (Hk (w, s)) as [Hw _]; [done|by rewrite E in Hw]].
  unfold write_batch. apply (keeps_bind _ any); [apply keeps_for_each; auto|]. intros _ _.
  apply (keeps_bind _ any); [auto|]. intros _ _. unfold maybe_rotate.
  apply (keeps_bind _ any); [by eapply keeps_any, keeps_get_fst|]. intros w1 _.
  case_decide; [by apply keeps_ret|]. apply (keeps_bind _ any); [auto|]. intros _ _.
  apply (keeps_bind _ any); [apply keeps_on_snd; intros t s1 Hs1; by split|]. intros seg _.
  apply (keeps_bind _ any); [auto|]. intros _ _. by apply keeps_mod_fst.
Qed.

(** ** Steps of a thread that does not lead *)

Lemma gc_set_thread_lookup t p (s : Sys) t' p' :
  threads (set_thread t p s) !! t' = Some p' → (t' = t ∧ p' = p) ∨ (t' ≠ t ∧ threads s !! t' = Some p').
Proof.
  simpl. intros [(-> & -> & _)|[Hne Hl]]%list_lookup_insert_Some; [by left|]. right. split; [congruence|done].
Qed.

Lemma others_follow_set t p (s s' : Sys) t0 :
  threads s' = <[t := p]> (threads s) → leads p = false → others_follow t0 s → others_follow t0 s'.
Proof.
  intros E Hp Ho t' p' Hl Hne. rewrite E in Hl.
  apply list_lookup_insert_Some in Hl as [(-> & -> & _)|[_ Hl]]; [done|by apply (Ho t')].
Qed.

Lemma lead_state_set (s s' : Sys) t p p' unw wri :
  lead_state s unw wri → threads s !! t = Some p → threads s' = <[t := p']> (threads s) →
  leads p = false → leads p' = false → leader_active (coord (log s')) = leader_active (coord (log s)) →
  lead_state s' unw wri.
Proof.
  intros Hl Ht E Hp Hp' Ec.
  assert (Hne : ∀ t0 p0, threads s !! t0 = Some p0 → leads p0 = true → threads s' !! t0 = Some p0).
  { intros t0 p0 H0 Hp0. rewrite E, list_lookup_insert_ne; [done|]. intros ->. congruence. }
  destruct Hl as [Hc Hn|t0 q f b Hc H0 Ho Hb|t0 q f b Hc H0 Ho Hb|t0 q f b e Hc H0 Ho Hb].
  - apply lead_none; [by rewrite Ec|]. intros t1 p1 H1. rewrite E in H1.
    apply list_lookup_insert_Some in H1 as [(-> & -> & _)|[_ H1]]; [done|by apply (Hn t1)].
  - eapply lead_io; [by rewrite Ec|by apply Hne| |done]. by eapply others_follow_set.
  - eapply lead_ok; [by rewrite Ec|by apply Hne| |done]. by eapply others_follow_set.
  - eapply lead_err; [by rewrite Ec|by apply Hne| |done]. by eapply others_follow_set.
Qed.

(** A thread moves on without touching the coordinator. *)
Lemma ginv_move n0 fs (s : Sys) pub wri unw t p p' :
  ginv n0 fs s pub wri unw → threads s !! t = Some p → leads p = false → leads p' = false →
  claimed p' = claimed p → is_begin p' = is_begin p → is_begin p' = 0%nat →
  (∀ q f, p' = Done q f (inl ()) → (q, f) ∈ hist s) →
  (∀ q f, p' = Parked q f → leader_active (coord (log s)) = true) →
  ginv n0 fs (set_thread t p' s) pub wri unw.
Proof.
  intros [Hl Hh Ha Hs Hq Hbg Hfr Hc Hd Hk] Ht Hp Hp' Ecl Eb Eb0 Hdone Hpark. split; try done.
  - by eapply lead_state_set.
  - simpl. pose proof (sum_list_insert is_begin (threads s) t p p' Ht). lia.
  - intros t1 f [[-> <-]|[_ H1]]%gc_set_thread_lookup; [done|by eapply Hbg].
  - intros t1 p1 q f [[-> ->]|[_ H1]]%gc_set_thread_lookup Hq1; [|by eapply Hc].
    eapply Hc; [exact Ht|]. by rewrite <- Ecl.
  - intros t1 q f [[-> <-]|[_ H1]]%gc_set_thread_lookup; [by apply Hdone|by eapply Hd].
  - intros t1 q f [[-> <-]|[_ H1]]%gc_set_thread_lookup; [by eapply Hpark|by eapply Hk].
Qed.

Lemma ginv_enqueue n0 fs (s : Sys) pub wri unw t f :
  ginv n0 fs s pub wri unw → threads s !! t = Some (Begin f) →
  ginv n0 fs (set_thread t (Looping (enqueue f (coord (log s))).1 f) (set_log_coord (enqueue f (coord (log s))).2 s))
    pub wri unw.
Proof.
  intros [Hl Hh Ha Hs [Hn Hq] Hbg Hfr Hc Hd Hk] Ht. set (c := coord (log s)) in *.
  pose proof (sum_list_insert is_begin (threads s) t _ (Looping (enqueue f c).1 f) Ht) as Hsum. simpl in Hsum.
  assert (E : u64_add (next_seq c) 1 = next_seq c + 1).
  { apply u64_wrap_id. lia. }
  split; try done.
  - by eapply lead_state_set.
  - simpl. unfold enqueue in *. simpl. rewrite E. rewrite !app_assoc, fmap_app, <- !app_assoc, Ha. simpl.
    replace (next_seq c + 1 - n0) with (Z.of_nat (Datatypes.S (Z.to_nat (next_seq c - n0)))) by lia.
    rewrite seqZ_S. f_equal; [f_equal; lia|]. f_equal. lia.
  - simpl. rewrite E. simpl in Hsum. unfold enqueue in Hsum. simpl in Hsum. rewrite E in Hsum. lia.
  - intros t1 g [[-> [=]]|[_ H1]]%gc_set_thread_lookup. by eapply Hbg.
  - simpl. intros q g. rewrite !app_assoc, elem_of_app, <- !app_assoc.
    intros [Hin|[= -> ->]%list_elem_of_singleton]; [by eapply Hfr|by eapply Hbg].
  - simpl. intros t1 p1 q g Hin Hq1. rewrite !app_assoc, elem_of_app, <- !app_assoc.
    apply gc_set_thread_lookup in Hin as [[-> ->]|[_ H1]].
    + right. simpl in Hq1. simplify_eq. by apply list_elem_of_singleton.
    + left. by eapply Hc.
  - intros t1 q g [[-> [=]]|[_ H1]]%gc_set_thread_lookup. by eapply Hd.
  - intros t1 q g [[-> [=]]|[_ H1]]%gc_set_thread_lookup. simpl. by eapply Hk.
Qed.

(** ** Steps of the leader *)

Lemma lead_state_none (s : Sys) unw wri :
  lead_state s unw wri → leader_active (coord (log s)) = false →
  unw = [] ∧ wri = [] ∧ ∀ t p, threads s !! t = Some p → leads p = false.
Proof. intros [] ?; [done|congruence..]. Qed.

(** The leading thread's own frame is in its batch. *)
Lemma lead_state_io (s : Sys) unw wri t q f b :
  lead_state s unw wri → threads s !! t = Some (Leading q f b) →
  unw = b ∧ wri = [] ∧ leader_active (coord (log s)) = true ∧ others_follow t s ∧ (q, f) ∈ b.
Proof.
  intros [Hc Hn|t0 q0 f0 b0 Hc Ht0 Ho Hb|t0 q0 f0 b0 Hc Ht0 Ho Hb|t0 q0 f0 b0 e Hc Ht0 Ho Hb] Ht;
    [by pose proof (Hn _ _ Ht)|..];
    (destruct (decide (t = t0)) as [->|Hne]; [by simplify_eq|by pose proof (Ho _ _ Ht Hne)]).
Qed.

Lemma lead_state_written (s : Sys) unw wri t q f b io :
  lead_state s unw wri → threads s !! t = Some (Written q f b io) →
  (unw, wri) = (if io is inl _ then ([], b) else (b, [])) ∧ others_follow t s ∧ (q, f) ∈ b.
Proof.
  intros [Hc Hn|t0 q0 f0 b0 Hc Ht0 Ho Hb|t0 q0 f0 b0 Hc Ht0 Ho Hb|t0 q0 f0 b0 e Hc Ht0 Ho Hb] Ht;
    [by pose proof (Hn _ _ Ht)|..];
    (destruct (decide (t = t0)) as [->|Hne]; [by simplify_eq|by pose proof (Ho _ _ Ht Hne)]).
Qed.

Lemma ginv_take n0 fs (s : Sys) pub wri unw t q f :
  ginv n0 fs s pub wri unw → threads s !! t = Some (Looping q f) →
  synced_through (coord (log s)) < q → leader_active (coord (log s)) = false →
  ginv n0 fs (set_thread t (Leading q f (queue (coord (log s)))) (set_log_coord (take_batch (coord (log s))).2 s))
    pub [] (queue (coord (log s))).
Proof.
  intros [Hl Hh Ha Hs Hq Hbg Hfr Hc Hd Hk] Ht Hlt Hf. destruct (lead_state_none _ _ _ Hl Hf) as (-> & -> & Hn).
  simpl in *. split; simpl; rewrite ?app_nil_r in *; try done.
  - apply lead_io with t q f; simpl.
    + done.
    + apply list_lookup_insert_eq. by eapply lookup_lt_Some.
    + intros t1 p1 H1 Hne. simpl in H1. rewrite list_lookup_insert_ne in H1 by done. by eapply Hn.
    + eapply unclaimed_pub; [exact Ha|by eapply Hc|lia].
  - pose proof (sum_list_insert is_begin (threads s) t _ (Leading q f (queue (coord (log s)))) Ht). simpl in *. lia.
  - intros t1 f1 [[-> [=]]|[_ H1]]%gc_set_thread_lookup. by eapply Hbg.
  - intros t1 p1 q1 f1 [[-> ->]|[_ H1]]%gc_set_thread_lookup Hq1; [|by eapply Hc].
    simpl in Hq1. simplify_eq. by eapply (Hc t (Looping q1 f1)).
  - intros t1 q1 f1 [[-> [=]]|[_ H1]]%gc_set_thread_lookup. by eapply Hd.
Qed.

(** The leader's I/O; [ok] when [write_batch] returned [Ok]. *)
Lemma ginv_io n0 fs (s : Sys) pub wri unw t q f b w st (io : () + StorageError) :
  ginv n0 fs s pub wri unw → threads s !! t = Some (Leading q f b) → coord w = coord (log s) →
  ginv n0 fs (set_thread t (Written q f b io)
             (mkSys w st (threads s) (if io is inl _ then hist s ++ b else hist s)))
    pub (if io is inl _ then b else []) (if io is inl _ then [] else b).
Proof.
  intros [Hl Hh Ha Hs Hq Hbg Hfr Hc Hd Hk] Ht Hw. destruct (lead_state_io _ _ _ _ _ _ _ Hl Ht) as (-> & -> & Hact & Ho & Hb).
  rewrite app_nil_r in Hh. simpl in Ha, Hc.
  assert (Hlen : (t < List.length (threads s))%nat) by by eapply lookup_lt_Some.
  assert (Ho' : ∀ h, others_follow t (set_thread t (Written q f b io) (mkSys w st (threads s) h))).
  { intros h t1 p1 H1 Hne. simpl in H1. rewrite list_lookup_insert_ne in H1 by done. by eapply Ho. }
  split; simpl; rewrite ?Hw; try done.
  - destruct io as [[]|e].
    + eapply lead_ok; [simpl; by rewrite Hw|by apply list_lookup_insert_eq|apply Ho'|done].
    + eapply lead_err; [simpl; by rewrite Hw|by apply list_lookup_insert_eq|apply Ho'|done].
  - destruct io; [by rewrite Hh|by rewrite app_nil_r].
  - rewrite <- Ha. by destruct io.
  - pose proof (sum_list_insert is_begin (threads s) t _ (Written q f b io) Ht). simpl in *. lia.
  - intros t1 f1 [[-> [=]]|[_ H1]]%gc_set_thread_lookup. by eapply Hbg.
  - intros q1 f1 Hin. apply (Hfr q1). by destruct io.
  - intros t1 p1 q1 f1 H1 Hq1. assert (Hin : (q1, f1) ∈ pub ++ b ++ queue (coord (log s))); [|by destruct io].
    apply gc_set_thread_lookup in H1 as [[-> ->]|[_ H1]]; [|by eapply Hc].
    eapply Hc; [exact Ht|done].
  - intros t1 q1 f1 [[-> [=]]|[_ H1]]%gc_set_thread_lookup. specialize (Hd _ _ _ H1). destruct io; [|done].
    apply elem_of_app. by left.
Qed.

Lemma gc_wake_lookup (l : list Pc) t p : (wake <$> l) !! t = Some p → ∃ p0, l !! t = Some p0 ∧ p = wake p0.
Proof. rewrite list_lookup_fmap. intros (p0 & -> & ?)%fmap_Some. eauto. Qed.
Lemma gc_wake_facts p : leads (wake p) = leads p ∧ claimed (wake p) = claimed p ∧ is_begin (wake p) = is_begin p.
Proof. by destruct p. Qed.
Lemma gc_sum_wake l : sum_list_with is_begin (wake <$> l) = sum_list_with is_begin l.
Proof. induction l as [|p l IH]; [done|]. rewrite fmap_cons. cbn [sum_list_with]. destruct (gc_wake_facts p) as (_ & _ & ->). by rewrite IH. Qed.

Lemma ginv_publish n0 fs (s : Sys) pub wri unw t q f b (io : () + StorageError) :
  ginv n0 fs s pub wri unw → threads s !! t = Some (Written q f b io) →
  ginv n0 fs (set_thread t (Done q f io) (notify_all (set_log_coord
      (publish b q (match io with inl _ => true | inr _ => false end) (coord (log s))) s)))
    (if io is inl _ then pub ++ b else pub) [] [].
Proof.
  intros [Hl Hh Ha Hs Hq Hbg Hfr Hc Hd Hk] Ht. destruct (lead_state_written _ _ _ _ _ _ _ _ Hl Ht) as (E & Ho & Hb).
  assert (Hall : (pub ++ b ++ queue (coord (log s))).*1 = seqZ (n0 + 1) (next_seq (coord (log s)) - n0) ∧
    ∀ t p q f, threads s !! t = Some p → claimed p = Some (q, f) → (q, f) ∈ pub ++ b ++ queue (coord (log s))).
  { destruct io; by simplify_eq. }
  destruct Hall as [Hall Hclaim].
  assert (Hlk : ∀ t1 p1, <[t := Done q f io]> (wake <$> threads s) !! t1 = Some p1 →
    (t1 = t ∧ p1 = Done q f io) ∨ (t1 ≠ t ∧ ∃ p0, threads s !! t1 = Some p0 ∧ p1 = wake p0)).
  { intros t1 p1 [(-> & -> & _)|[Hne H1]]%list_lookup_insert_Some; [by left|].
    right. split; [congruence|by apply gc_wake_lookup]. }
  split; simpl; rewrite ?app_nil_r.
  - apply lead_none; [by destruct io|]. intros t1 p1 [[-> ->]|(Hne & p0 & H0 & ->)]%Hlk; [done|].
    destruct (gc_wake_facts p0) as (-> & _). by eapply Ho.
  - destruct io; simplify_eq; [done|by rewrite app_nil_r in Hh].
  - destruct io; simpl; [by rewrite <- app_assoc|done].
  - destruct io; simpl; [|done]. erewrite highest_claimed; [|exact Hall|by intros ->; apply elem_of_nil in Hb].
    rewrite Hs, blen_app. pose proof (blen_nonneg b). lia.
  - assert (Hn' : (sum_list_with is_begin (<[t:=Done q f io]> (wake <$> threads s)) ≤ sum_list_with is_begin (threads s))%nat).
    { pose proof (sum_list_insert is_begin (wake <$> threads s) t (Written q f b io) (Done q f io)) as Hsum.
      rewrite list_lookup_fmap, Ht, gc_sum_wake in Hsum. simpl in Hsum. specialize (Hsum eq_refl). lia. }
    destruct io; simpl; lia.
  - intros t1 f1 [[-> [=]]|(_ & p0 & H0 & E1)]%Hlk. destruct p0; simplify_eq/=. by eapply Hbg.
  - intros q1 f1 Hin. apply (Hfr q1). destruct io; simplify_eq; simpl in *; [by rewrite <- (assoc_L (++)) in Hin|done].
  - intros t1 p1 q1 f1 Hin Hq1. assert (Hin' : (q1, f1) ∈ pub ++ b ++ queue (coord (log s))).
    { apply Hlk in Hin as [[-> ->]|(_ & p0 & H0 & ->)].
      - simpl in Hq1. simplify_eq. apply elem_of_app. right. apply elem_of_app. by left.
      - destruct (gc_wake_facts p0) as (_ & Ecl & _). rewrite Ecl in Hq1. by eapply Hclaim. }
    destruct io; simpl; [by rewrite <- app_assoc|done].
  - intros t1 q1 f1 [[-> [= <- <- <-]]|(_ & p0 & H0 & E1)]%Hlk.
    + simplify_eq. rewrite Hh. apply elem_of_app. by right.
    + destruct p0; simplify_eq/=. by eapply Hd.
  - intros t1 q1 f1 [[-> [=]]|(_ & p0 & H0 & E1)]%Hlk. by destruct p0.
Qed.

(** ** Every step keeps the invariant *)

Definition gi (n0 : Z) (fs : list bytes) (s : Sys) : Prop := ∃ pub wri unw, ginv n0 fs s pub wri unw.

Lemma gi_gstep n0 fs t (s s' : Sys) : gi n0 fs s → gstep t s = Some s' → gi n0 fs s'.
Proof.
  intros (pub & wri & unw & Hi). pose proof Hi as [Hl Hh Ha Hs Hq Hbg Hfr Hc Hd Hk]. unfold gstep.
  destruct (threads s !! t) as [[f|q f|q f|q f b|q f b io|q f res]|] eqn:Ht; try done.
  - intros [= <-]. exists pub, wri, unw. by apply ginv_enqueue.
  - case_decide as Hle; [|destruct (leader_active (coord (log s))) eqn:Hact; [|cbn [take_batch]]]; intros [= <-].
    + exists pub, wri, unw. eapply ginv_move; [exact Hi|exact Ht|done..| |done].
      intros q1 f1 [= <- <-]. rewrite Hh. apply elem_of_app. left.
      eapply claimed_pub; [exact Ha|by eapply Hc|lia].
    + exists pub, wri, unw. by eapply ginv_move.
    + exists pub, [], (queue (coord (log s))). apply (ginv_take n0 fs s pub wri unw t q f Hi Ht); [lia|done].
  - destruct (write_batch b (log s, store s)) as [[[]|e|] [w st]] eqn:Hw; intros [= <-];
      pose proof (proj1 (write_batch_coord _ _ _ _ _ _ Hw)) as Ew.
    + exists pub, b, []. by apply (ginv_io n0 fs s pub wri unw t q f b w st (inl ())).
    + exists pub, [], b. by apply (ginv_io n0 fs s pub wri unw t q f b w st (inr e)).
  - intros [= <-]. do 3 eexists. by eapply ginv_publish.
Qed.

Lemma gi_step n0 fs (s s' : Sys) : gi n0 fs s → step s s' → gi n0 fs s'.
Proof.
  intros Hg Hst. destruct Hst as [t s s' Ht|t s q f Ht]; [by eapply gi_gstep|].
  destruct Hg as (pub & wri & unw & Hi). exists pub, wri, unw. by eapply ginv_move.
Qed.

Lemma begin_lookup (fs : list bytes) t p : (Begin <$> fs) !! t = Some p → ∃ f, p = Begin f.
Proof. rewrite list_lookup_fmap. intros (f & _ & ->)%fmap_Some. eauto. Qed.

Lemma gi_start n0 w st fs :
  quiet n0 (coord w) → 0 ≤ n0 → n0 + blen fs < 2 ^ 64 → gi n0 fs (start w st fs).
Proof.
  intros (Hq & Hl & Hs & Hn) H0 Hmax. exists [], [], []. split; simpl; rewrite ?Hq, ?Hn, ?Hs; try done.
  - apply lead_none; [done|]. by intros t p (f & ->)%begin_lookup.
  - by rewrite Z.sub_diag.
  - rewrite blen_nil. lia.
  - split; [lia|]. assert (Hb : sum_list_with is_begin (Begin <$> fs) = List.length fs); [|unfold blen in *; lia].
    clear. induction fs as [|f fs IH]; [done|]. rewrite fmap_cons. cbn [sum_list_with List.length]. by rewrite IH.
  - intros t f. rewrite list_lookup_fmap. intros (g & Hg & [= <-])%fmap_Some. by eapply list_elem_of_lookup_2.
  - by intros q f ?%elem_of_nil.
  - by intros t p q f (g & ->)%begin_lookup.
  - by intros t q f (g & [=])%begin_lookup.
  - by intros t q f (g & [=])%begin_lookup.
Qed.

Lemma gi_reach n0 fs (s s' : Sys) : gi n0 fs s → rtc step s s' → gi n0 fs s'.
Proof. induction 2; [done|]. eauto using gi_step. Qed.

(** * What the protocol promises, whatever the backend does *)

(** C14: a caller of the group commit that was told [Ok] had its frame in a batch
    whose append and sync both returned [Ok], under every interleaving of the
    callers and every failure of the backend. *)
Theorem group_commit_acked n0 w st fs s t q f :
  quiet n0 (coord w) → 0 ≤ n0 → n0 + blen fs < 2 ^ 64 → rtc step (start w st fs) s →
  threads s !! t = Some (Done q f (inl ())) → (q, f) ∈ hist s.
Proof.
  intros Hq H0 Hn Hr Ht. destruct (gi_reach n0 fs _ _ (gi_start n0 w st fs Hq H0 Hn) Hr) as (? & ? & ? & Hi).
  by eapply gi_done.
Qed.

(** C33: the batches written successfully carry the frames in the order the callers
    claimed their numbers, each frame once and none skipped, and no two callers
    lead at a time. *)
Theorem group_commit_fifo n0 w st fs s :
  quiet n0 (coord w) → 0 ≤ n0 → n0 + blen fs < 2 ^ 64 → rtc step (start w st fs) s →
  (hist s).*1 = seqZ (n0 + 1) (blen (hist s)) ∧
  ∀ t1 t2 p1 p2, threads s !! t1 = Some p1 → threads s !! t2 = Some p2 →
    leads p1 = true → leads p2 = true → t1 = t2.
Proof.
  intros Hq H0 Hn Hr. destruct (gi_reach n0 fs _ _ (gi_start n0 w st fs Hq H0 Hn) Hr) as (pub & wri & unw & Hi).
  split.
  - pose proof (gi_all _ _ _ _ _ _ Hi) as Ha. rewrite (assoc_L (++) pub), <- (gi_hist _ _ _ _ _ _ Hi) in Ha.
    assert (E : (hist s).*1 = take (List.length (hist s)) (seqZ (n0 + 1) (next_seq (coord (log s)) - n0))).
    { rewrite <- Ha, fmap_app, take_app_prefix; [done|]. by rewrite length_fmap. }
    apply list_eq. intros i. rewrite E. destruct (decide (i < List.length (hist s))%nat) as [Hlt|Hge].
    + rewrite lookup_take_lt by done. assert (Hi' : is_Some ((hist s).*1 !! i)) by (apply lookup_lt_is_Some; by rewrite length_fmap).
      rewrite E, lookup_take_lt in Hi' by done. destruct Hi' as [z Hz]. rewrite Hz.
      apply lookup_seqZ in Hz as [-> _]. symmetry. apply lookup_seqZ_lt. unfold blen. lia.
    + rewrite lookup_take_ge by lia. symmetry. apply lookup_seqZ_ge. unfold blen. lia.
  - intros t1 t2 p1 p2 H1 H2 L1 L2. destruct (gi_lead _ _ _ _ _ _ Hi) as [_ Hno|t0 ???? _ Ho|t0 ???? _ Ho|t0 ????? _ Ho];
      [by rewrite (Hno t1 p1 H1) in L1|..];
      (destruct (decide (t1 = t0)) as [->|N1]; [|by rewrite (Ho t1 p1 H1 N1) in L1]);
      (destruct (decide (t2 = t0)) as [->|N2]; [done|by rewrite (Ho t2 p2 H2 N2) in L2]).
Qed.

(** C15: no caller is stranded: when no thread can take a step, and the backend has
    not panicked under a leader, every caller has returned. *)
Theorem group_commit_no_stranded n0 w st fs s :
  quiet n0 (coord w) → 0 ≤ n0 → n0 + blen fs < 2 ^ 64 → rtc step (start w st fs) s →
  (∀ t q f b, threads s !! t = Some (Leading q f b) → (write_batch b (log s, store s)).1 ≠ Panic) →
  (∀ t, gstep t s = None) →
  ∀ t p, threads s !! t = Some p → ∃ q f res, p = Done q f res.
Proof.
  intros Hq H0 Hn Hr Hp Hstuck. destruct (gi_reach n0 fs _ _ (gi_start n0 w st fs Hq H0 Hn) Hr) as (pub & wri & unw & Hi).
  assert (Hnl : ∀ t p, threads s !! t = Some p → leads p = true → False).
  { intros t [] Ht Hl; try done; specialize (Hstuck t); unfold gstep in Hstuck; rewrite Ht in Hstuck.
    - specialize (Hp _ _ _ _ Ht). by destruct (write_batch _ _) as [[] [? ?]].
    - done. }
  intros t p Ht. specialize (Hstuck t). unfold gstep in Hstuck. rewrite Ht in Hstuck.
  destruct p as [f|q f|q f|q f b|q f b io|q f res]; [done|by repeat case_match| |by destruct (Hnl _ _ Ht)|done|eauto].
  pose proof (gi_parked _ _ _ _ _ _ Hi _ _ _ Ht) as Hact.
  destruct (gi_lead _ _ _ _ _ _ Hi) as [Hno _|t0 ???? H1|t0 ???? H1|t0 ????? H1]; [congruence| | |];
    by destruct (Hnl _ _ H1).
Qed.

(** * Termination *)

(** How far a thread is from returning, among [n]. *)
Definition weight (n : nat) (p : Pc) : nat :=
  match p with
  | Done _ _ _ => 0
  | Written _ _ _ _ => n + 1
  | Leading _ _ _ | Parked _ _ => n + 2
  | Looping _ _ => n + 3
  | Begin _ => n + 4
  end%nat.
Definition measure (s : Sys) : nat := sum_list_with (weight (List.length (threads s))) (threads s).

Lemma sum_wake_weight n (l : list Pc) :
  (sum_list_with (weight n) (wake <$> l) ≤ sum_list_with (weight n) l + List.length l)%nat.
Proof.
  induction l as [|p l IH]; [done|]. rewrite fmap_cons. cbn [sum_list_with List.length].
  assert (weight n (wake p) ≤ weight n p + 1)%nat; [|lia]. destruct p; simpl; lia.
Qed.

Lemma gstep_measure t (s s' : Sys) :
  gstep t s = Some s' → (measure s' < measure s)%nat ∧ List.length (threads s') = List.length (threads s).
Proof.
  unfold gstep, measure. set (n := List.length (threads s)).
  assert (Hset : ∀ p p' l, l !! t = Some p → (weight n p' < weight n p)%nat →
    (sum_list_with (weight n) (<[t := p']> l) < sum_list_with (weight n) l)%nat).
  { intros p p' l Hl Hw. pose proof (sum_list_insert (weight n) l t p p' Hl). lia. }
  destruct (threads s !! t) as [[f|q f|q f|q f b|q f b io|q f res]|] eqn:Ht; try done.
  - intros [= <-]. simpl. rewrite length_insert. split; [|done]. eapply Hset; [exact Ht|simpl; lia].
  - case_decide; [|destruct (leader_active _); [|cbn [take_batch]]]; intros [= <-]; simpl; rewrite length_insert;
      (split; [|done]); (eapply Hset; [exact Ht|simpl; lia]).
  - destruct (write_batch b (log s, store s)) as [[[]|e|] [w st]]; intros [= <-]; simpl; rewrite length_insert;
      (split; [|done]); (eapply Hset; [exact Ht|simpl; lia]).
  - intros [= <-]. simpl. rewrite length_insert, length_fmap. split; [|done]. fold n.
    pose proof (sum_list_insert (weight n) (wake <$> threads s) t (Written q f b io) (Done q f io)) as Hsum.
    rewrite list_lookup_fmap, Ht in Hsum. specialize (Hsum eq_refl). simpl in Hsum.
    pose proof (sum_wake_weight n (threads s)) as Hwk. fold n in Hwk. lia.
Qed.

(** The threads [ts] step in turn. *)
Fixpoint run (ts : list nat) (s : Sys) : option Sys :=
  match ts with [] => Some s | t :: ts' => s' ← gstep t s; run ts' s' end.

Lemma run_measure ts (s s' : Sys) : run ts s = Some s' → (measure s' + List.length ts ≤ measure s)%nat.
Proof.
  revert s. induction ts as [|t ts IH]; intros s; simpl; [intros [= <-]; lia|].
  intros (s1 & H1 & H2)%bind_Some. apply gstep_measure in H1 as [? _]. apply IH in H2. lia.
Qed.

Lemma gc_run_reach ts (s s' : Sys) : run ts s = Some s' → rtc step s s'.
Proof.
  revert s. induction ts as [|t ts IH]; intros s; simpl; [by intros [= <-]|].
  intros (s1 & H1 & H2)%bind_Some. eapply rtc_l; [by eapply step_thread|by apply IH].
Qed.

Lemma measure_start w st fs : measure (start w st fs) = (List.length fs * (List.length fs + 4))%nat.
Proof.
  unfold measure. simpl. rewrite length_fmap. generalize (List.length fs) at 1 3. intros n.
  induction fs as [|f fs IH]; [done|]. rewrite fmap_cons. cbn [sum_list_with List.length]. rewrite IH. simpl. lia.
Qed.


End system.

(** * On a working backend *)

Section working.
Context {CRC : Crc32} {CRCL : Crc32Laws} {S : Type} {ST : Storage S} {STS : StorageSpec S}.

Lemma append_frames_ok (b : list (Z * bytes)) w m segs ps qs :
  wal_ok w m segs ps → Forall small qs → b.*2 = Frame.encode <$> qs → blen (frames (ps ++ qs)) ≤ u64_max →
  ∃ w' m', for_each b (λ sf, zoom active set_active (Segment.append sf.2)) (w, m) = (Ok (), (w', m')) ∧
    wal_ok w' m' segs (ps ++ qs) ∧ coord w' = coord w ∧ seg_id (active w') = seg_id (active w).
Proof.
  revert w m ps qs. induction b as [|[n f] b IH]; intros w m ps [|q qs] Hw Hs E Hmax; simplify_eq/=.
  { exists w, m. by rewrite app_nil_r. }
  apply Forall_cons in Hs as [Hq Hs]. rewrite cons_middle, app_assoc in Hmax.
  destruct (segment_append_ok w m segs ps q Hw Hq) as (w1 & m1 & Ha & Hw1 & _ & Hc1 & Hi1).
  { rewrite blen_frames_app in Hmax. pose proof (blen_nonneg (frames qs)). lia. }
  destruct (IH w1 m1 (ps ++ [q]) qs Hw1 Hs) as (w2 & m2 & Hf & Hw2 & Hc2 & Hi2); [done|done|].
  exists w2, m2. erewrite bind_ok by exact Ha. rewrite <- app_assoc in Hw2. split_and!; try done; congruence.
Qed.

Lemma write_batch_ok (b : list (Z * bytes)) w m rs qs :
  log_holds w m rs → Forall small qs → b.*2 = Frame.encode <$> qs → blen (frames (rs ++ qs)) ≤ u64_max →
  seg_id (active w) + 1 < 2 ^ 64 →
  ∃ w' m', write_batch b (w, m) = (Ok (), (w', m')) ∧ log_holds w' m' (rs ++ qs) ∧
    seg_id (active w') ≤ seg_id (active w) + 1.
Proof.
  intros (segs & ps & Hw & ->) Hs E Hmax Hid.
  assert (Hps : blen (frames (ps ++ qs)) ≤ u64_max).
  { rewrite <- app_assoc, blen_frames_app in Hmax. pose proof (blen_nonneg (frames (wal_records segs))). lia. }
  destruct (append_frames_ok b w m segs ps qs Hw Hs E Hps) as (w1 & m1 & Ha & Hw1 & Hc1 & Hi1).
  destruct (maybe_rotate_ok w1 m1 (wal_records segs ++ ps ++ qs)) as (w2 & m2 & Hr & Hw2 & _ & _ & Hi2);
    [by exists segs, (ps ++ qs)|by rewrite Hi1|].
  exists w2, m2. unfold write_batch. erewrite bind_ok by exact Ha.
  erewrite bind_ok by by eapply segment_sync_ok. rewrite <- app_assoc. split_and!; [done..|lia].
Qed.

Lemma gc_write_batch_sim (b : list (Z * bytes)) :
  msim (with_same st_view) (write_batch (S:=S) b) (write_batch b).
Proof. unfold write_batch, maybe_rotate. solve_msim. Qed.
Lemma frames_small (l : list bytes) : Forall small l → blen (frames l) ≤ blen l * 2 ^ 33.
Proof.
  induction 1 as [|p l Hp Hl IH]; [done|]. rewrite frames_cons, blen_app, Frame.blen_encode, blen_cons.
  unfold small, Frame.HEADER_SZ, Frame.LEN_SZ, Frame.CRC_SZ in *. lia.
Qed.

Lemma encoded_payloads (pl : list bytes) (b : list (Z * bytes)) :
  (∀ q f, (q, f) ∈ b → f ∈ Frame.encode <$> pl) → ∃ qs, b.*2 = Frame.encode <$> qs ∧ Forall (.∈ pl) qs.
Proof.
  induction b as [|[q f] b IH]; intros Hb; [by exists []|].
  assert (Hin : f ∈ Frame.encode <$> pl) by (apply (Hb q); by left). apply list_elem_of_fmap in Hin as (p & -> & Hp).
  destruct IH as (qs & E & Hqs); [intros q' f' Hin; apply (Hb q'); by right|].
  exists (p :: qs). split; [by rewrite !fmap_cons, E|by constructor].
Qed.

(** A leader's batch fits what is left of the frames that arrived. *)
Lemma batch_room n0 fs (s : Sys (S:=S)) t q f b :
  gi n0 fs s → threads s !! t = Some (Leading q f b) →
  b ≠ [] ∧ blen (hist s ++ b) ≤ blen fs ∧ ∀ q f, (q, f) ∈ b → f ∈ fs.
Proof.
  intros (pub & wri & unw & Hi) Ht. pose proof (gi_lead _ _ _ _ _ _ Hi) as Hl.
  destruct (lead_state_io _ _ _ _ _ _ _ Hl Ht) as (-> & -> & _ & _ & Hb). split_and!.
  - intros ->. by apply elem_of_nil in Hb.
  - pose proof (gi_all _ _ _ _ _ _ Hi) as Ha. apply (f_equal List.length) in Ha.
    rewrite length_fmap, length_seqZ, !length_app in Ha. pose proof (gi_seq _ _ _ _ _ _ Hi).
    rewrite (gi_hist _ _ _ _ _ _ Hi), app_nil_r, blen_app. unfold blen in *. simpl in Ha. lia.
  - intros q' f' Hin. eapply (gi_frames _ _ _ _ _ _ Hi). rewrite !elem_of_app. eauto.
Qed.

Definition no_error (p : Pc) : Prop :=
  match p with Written _ _ _ (inr _) | Done _ _ (inr _) => False | _ => True end.

(** The log on disk holds the old records and the batches written since. *)
Record log_inv (rs0 pl : list bytes) (i0 : Z) (s : Sys (S:=S)) (m : memfs) (ps : list bytes) : Prop := {
  lv_view : st_view (store s) m;
  lv_log : log_holds (log s) m (rs0 ++ ps);
  lv_hist : (hist s).*2 = Frame.encode <$> ps;
  lv_sub : Forall (.∈ pl) ps;
  lv_id : seg_id (active (log s)) ≤ i0 + blen (hist s);
  lv_ok t p : threads s !! t = Some p → no_error p;
}.

Lemma log_inv_ext rs0 pl i0 (s s' : Sys (S:=S)) m ps :
  log_inv rs0 pl i0 s m ps → store s' = store s → (∃ c, log s' = set_coord c (log s)) → hist s' = hist s →
  (∀ t p, threads s' !! t = Some p → no_error p) → log_inv rs0 pl i0 s' m ps.
Proof.
  intros [] Es (c & El) Eh Ht. split; rewrite ?Es, ?Eh, ?El; try done. by apply log_holds_coord.
Qed.

Section run.
Context (n0 i0 : Z) (rs0 pl : list bytes).
Hypothesis Hsmall : Forall small pl.
Hypothesis Hbytes : blen (frames rs0) + blen pl * 2 ^ 33 ≤ u64_max.
Hypothesis Hids : i0 + blen pl < 2 ^ 64.

Lemma log_inv_write (s : Sys (S:=S)) m ps t q f b :
  gi n0 (Frame.encode <$> pl) s → log_inv rs0 pl i0 s m ps → threads s !! t = Some (Leading q f b) →
  ∃ w st m' ps', write_batch b (log s, store s) = (Ok (), (w, st)) ∧
    log_inv rs0 pl i0 (set_thread t (Written q f b (inl ())) (mkSys w st (threads s) (hist s ++ b))) m' ps'.
Proof using Type*.
  intros Hg [Hv Hl Hh Hs Hid Hok] Ht. destruct (batch_room _ _ _ _ _ _ _ Hg Ht) as (Hne & Hroom & Hfr).
  destruct (encoded_payloads pl b Hfr) as (qs & Eb & Hqs).
  assert (Hsm : ∀ l, Forall (.∈ pl) l → Forall small l).
  { intros l Hl'. eapply Forall_impl; [exact Hl'|]. intros p Hp. rewrite Forall_forall in Hsmall. by apply Hsmall. }
  assert (Hlen : blen ps = blen (hist s) ∧ blen qs = blen b).
  { apply (f_equal List.length) in Hh, Eb. rewrite !length_fmap in *. unfold blen. lia. }
  assert (Hpl : blen (Frame.encode <$> pl) = blen pl) by (unfold blen; by rewrite length_fmap).
  rewrite Hpl, blen_app in Hroom. assert (1 ≤ blen b) by (destruct b; [done|rewrite blen_cons; pose proof (blen_nonneg b); lia]).
  destruct (write_batch_ok b (log s) m (rs0 ++ ps) qs) as (w & m' & Hw & Hl' & Hi'); [done|by apply Hsm|done| |lia|].
  { rewrite <- app_assoc, !blen_frames_app. pose proof (frames_small ps (Hsm _ Hs)).
    pose proof (frames_small qs (Hsm _ Hqs)). lia. }
  destruct (msim_same_run st_view _ _ _ _ _ _ _ _ (gc_write_batch_sim b) Hv Hw) as (st & Hst & Hv').
  exists w, st, m', (ps ++ qs). split; [exact Hst|]. split; simpl.
  - exact Hv'.
  - by rewrite app_assoc.
  - by rewrite !fmap_app, Hh, Eb.
  - by apply Forall_app.
  - rewrite blen_app. lia.
  - intros t1 p1 [[-> ->]|[_ Hx]]%gc_set_thread_lookup; [done|by eapply Hok].
Qed.

Lemma log_inv_gstep (s s' : Sys (S:=S)) m ps t :
  gi n0 (Frame.encode <$> pl) s → log_inv rs0 pl i0 s m ps → gstep t s = Some s' →
  ∃ m' ps', log_inv rs0 pl i0 s' m' ps'.
Proof using Type*.
  intros Hg Hi Hs. pose proof (lv_ok _ _ _ _ _ _ Hi) as Hok. unfold gstep in Hs.
  assert (Hset : ∀ p (l : list Pc) t1 p1, no_error p → (∀ t0 p0, l !! t0 = Some p0 → no_error p0) →
    <[t := p]> l !! t1 = Some p1 → no_error p1).
  { intros p l t1 p1 Hp Hl [(_ & -> & _)|[_ Hx]]%list_lookup_insert_Some; [done|by eapply Hl]. }
  assert (Hself : ∃ c, log s = set_coord c (log s)) by (exists (coord (log s)); by destruct (log s)).
  destruct (threads s !! t) as [[f|q f|q f|q f b|q f b io|q f res]|] eqn:Ht; try done.
  - injection Hs as <-. exists m, ps. eapply log_inv_ext; [exact Hi|done|by eexists|done|]. intros t1 p1. by apply Hset.
  - exists m, ps. case_decide; [|destruct (leader_active _); [|cbn [take_batch] in Hs]]; injection Hs as <-;
      (eapply log_inv_ext; [exact Hi|done|first [exact Hself|by eexists]|done|]); intros t1 p1; by apply Hset.
  - destruct (log_inv_write s m ps t q f b Hg Hi Ht) as (w & st & m' & ps' & Hw & Hi').
    rewrite Hw in Hs. injection Hs as <-. by exists m', ps'.
  - injection Hs as <-. exists m, ps. eapply log_inv_ext; [exact Hi|done|by eexists|done|]. intros t1 p1. apply Hset.
    + pose proof (Hok _ _ Ht) as Hn. by destruct io.
    + intros t0 p0 (p2 & Hy & ->)%gc_wake_lookup. specialize (Hok _ _ Hy). by destruct p2.
Qed.

Lemma log_inv_reach (s s' : Sys (S:=S)) :
  gi n0 (Frame.encode <$> pl) s → (∃ m ps, log_inv rs0 pl i0 s m ps) → rtc step s s' →
  ∃ m ps, log_inv rs0 pl i0 s' m ps.
Proof using Type*.
  intros Hg Hi Hr. induction Hr as [|s s1 s2 Hst Hr IH]; [done|].
  apply IH; [by eapply gi_step|]. destruct Hi as (m & ps & Hi).
  destruct Hst as [t s s1 Ht|t s q f Ht]; [by eapply log_inv_gstep|]. exists m, ps.
  eapply log_inv_ext; [exact Hi|done|exists (coord (log s)); simpl; by destruct (log s)|done|].
  intros t1 p1 [[-> ->]|[_ Hx]]%gc_set_thread_lookup; [done|by eapply lv_ok].
Qed.
End run.

(** C13: on a backend in working order, whatever the interleaving, no caller of the
    group commit fails, and the log holds its old records followed by the written
    batches in order, so that every acknowledged frame is in it. *)
Theorem group_commit_log n0 w (st : S) m rs0 pl s :
  st_view st m → log_holds w m rs0 → quiet n0 (coord w) → 0 ≤ n0 → n0 + blen pl < 2 ^ 64 →
  Forall small pl → blen (frames rs0) + blen pl * 2 ^ 33 ≤ u64_max → seg_id (active w) + blen pl < 2 ^ 64 →
  rtc step (start w st (Frame.encode <$> pl)) s →
  ∃ m' ps, st_view (store s) m' ∧ log_holds (log s) m' (rs0 ++ ps) ∧ (hist s).*2 = Frame.encode <$> ps ∧
    ∀ t q f res, threads s !! t = Some (Done q f res) → res = inl () ∧ ∃ p, p ∈ ps ∧ f = Frame.encode p.
Proof.
  intros Hv Hl Hq Hn0 Hn Hs Hb Hid Hr.
  assert (Hg : gi n0 (Frame.encode <$> pl) (start w st (Frame.encode <$> pl))).
  { apply gi_start; [done..|]. unfold blen in *. by rewrite length_fmap. }
  destruct (log_inv_reach n0 (seg_id (active w)) rs0 pl Hs Hb Hid _ s Hg) as (m' & ps & Hi); [|done|].
  { exists m, []. split; simpl; rewrite ?app_nil_r; try done; [rewrite blen_nil; lia|].
    by intros t p (f & ->)%begin_lookup. }
  exists m', ps. destruct Hi as [Hv' Hl' Hh' Hsub Hid' Hok]. split_and!; [done..|].
  intros t q f res Ht. pose proof (Hok _ _ Ht) as He. destruct res as [[]|e]; [|done]. split; [done|].
  destruct (gi_reach _ _ _ _ Hg Hr) as (? & ? & ? & Hgi).
  pose proof (gi_done _ _ _ _ _ _ Hgi _ _ _ Ht) as Hin. apply (list_elem_of_fmap_2 snd) in Hin.
  rewrite Hh' in Hin. apply list_elem_of_fmap in Hin as (p & E & Hp). eauto.
Qed.
End working.

(** * A failed leader *)

(** The frame of a caller that was told [Err] stays queued: the next leader
    writes it, although its caller was told that it was not written. *)
Theorem group_commit_err_requeued `{!Crc32} {S} `{!Storage S} (s s' : Sys (S:=S)) t q f b e :
  threads s !! t = Some (Written q f b (inr e)) → gstep t s = Some s' →
  threads s' !! t = Some (Done q f (inr e)) ∧ queue (coord (log s')) = b ++ queue (coord (log s)) ∧
  leader_active (coord (log s')) = false.
Proof.
  intros Ht Hs. unfold gstep in Hs. rewrite Ht in Hs. injection Hs as <-. simpl. split; [|done].
  apply list_lookup_insert_eq. rewrite length_fmap. by eapply lookup_lt_Some.
Qed.

(** ** Concrete runs *)

#[local] Existing Instance Sample.crc.
#[local] Existing Instance Sample.crc_laws.

(** Two callers: the second one parks behind the first, is woken, and finds its
    frame still queued; it then leads a batch of its own. *)
Definition sample_frames : list bytes := Frame.encode <$> [lit "one"; lit "two"].
Definition sample_schedule : list nat := [0; 0; 1; 1; 0; 0; 1; 1; 1]%nat.

Definition sample_wal : Wal :=
  mkWal [lit "d"] GroupCommit 16 (mkSegment 1 (segment_path [lit "d"] 1) 0) coord_default.
Definition sample_disk : memfs := <[segment_path [lit "d"] 1 := []]> ∅.

Lemma sample_log_holds : log_holds sample_wal sample_disk [].
Proof.
  destruct (open_empty [lit "d"] ∅ sample_wal_options (no_segments _)) as (w & m & Ho & [Hw _] & ->).
  assert (E : Wal.open [lit "d"] sample_wal_options ∅ = (Ok (sample_wal, recovered_default), sample_disk)) by (vm_cast_no_check (eq_refl (Ok (E:=StorageError) (sample_wal, recovered_default), sample_disk))).
  assert (sample_disk = m) as -> by congruence. exact Hw.
Qed.

Definition sample_start : Sys (S:=memfs) := start sample_wal sample_disk sample_frames.
Lemma gc_sample_run :
  threads <$> run sample_schedule sample_start =
  Some [Done 1 (Frame.encode (lit "one")) (inl ()); Done 2 (Frame.encode (lit "two")) (inl ())].
Proof. by vm_compute. Qed.

Lemma group_commit_acked_witness :
  ∃ s : Sys (S:=memfs), rtc step sample_start s ∧ (2, Frame.encode (lit "two")) ∈ hist s.
Proof.
  pose proof gc_sample_run as Hr. apply fmap_Some in Hr as (s & Hr & Ht). exists s.
  split; [by eapply gc_run_reach|].
  apply (group_commit_acked 0 sample_wal sample_disk sample_frames s 1 2 (Frame.encode (lit "two")));
    [split_and!; reflexivity|reflexivity|reflexivity|by eapply gc_run_reach|rewrite <- Ht; reflexivity].
Defined.

Lemma group_commit_fifo_witness :
  ∃ s : Sys (S:=memfs), rtc step sample_start s ∧ (hist s).*1 = seqZ 1 (blen (hist s)).
Proof.
  pose proof gc_sample_run as Hr. apply fmap_Some in Hr as (s & Hr & Ht). exists s.
  split; [by eapply gc_run_reach|].
  apply (group_commit_fifo 0 sample_wal sample_disk sample_frames s);
    [split_and!; reflexivity|reflexivity|reflexivity|by eapply gc_run_reach].
Defined.

Lemma group_commit_no_stranded_witness :
  ∃ s : Sys (S:=memfs), rtc step sample_start s ∧
    ∀ t p, threads s !! t = Some p → ∃ q f res, p = Done q f res.
Proof.
  pose proof gc_sample_run as Hr. apply fmap_Some in Hr as (s & Hr & Ht). exists s.
  split; [by eapply gc_run_reach|].
  apply (group_commit_no_stranded 0 sample_wal sample_disk sample_frames s);
    [split_and!; reflexivity|reflexivity|reflexivity|by eapply gc_run_reach| |].
  - intros t q f b. rewrite <- Ht. intros Hb. exfalso. destruct t as [|[|t]]; discriminate Hb.
  - intros t. unfold gstep. rewrite <- Ht. destruct t as [|[|t]]; reflexivity.
Defined.


Lemma group_commit_log_witness :
  ∃ (s : Sys (S:=memfs)) m' ps, rtc step sample_start s ∧ st_view (store s) m' ∧ log_holds (log s) m' ps ∧
    (hist s).*2 = Frame.encode <$> ps.
Proof.
  pose proof gc_sample_run as Hr. apply fmap_Some in Hr as (s & Hr & Ht). exists s.
  assert (Hsm : Forall small [lit "one"; lit "two"]) by by repeat constructor.
  assert (Hb : blen (frames []) + blen [lit "one"; lit "two"] * 2 ^ 33 ≤ u64_max) by done.
  destruct (group_commit_log (S:=memfs) 0 sample_wal sample_disk sample_disk [] [lit "one"; lit "two"] s
      (mem_view sample_disk) sample_log_holds) as (m' & ps & Hv & Hl & Hh & _);
    [split_and!; reflexivity|reflexivity|reflexivity|exact Hsm|exact Hb|reflexivity|by eapply gc_run_reach|].
  exists m', ps. split; [by eapply gc_run_reach|]. split; [exact Hv|]. split; [exact Hl|exact Hh].
Defined.
End GroupCommit.
