(* ===== verification/WalFrame.v ===== *)
(** What the write-ahead log leaves alone: its operations touch segment files
    and the temporary they are rewritten through, nothing else. *)
From Stdlib Require Import Strings.String.
From S2P Require Export WalSpec Manifest.

Module WalFrame.
Import Segment Recovery Wal.

(** The files of a log. *)
Definition wal_file (d p : path) : Prop :=
  is_Some (parse_segment_id p) ∨ ∃ id, p = segment_path d id ∨ p = tmp_path d id.

Lemma wal_file_segment d id : wal_file d (segment_path d id).
Proof. right. eauto. Qed.
Lemma wal_file_tmp d id : wal_file d (tmp_path d id).
Proof. right. eauto. Qed.
Lemma wal_file_parsed d p id : parse_segment_id p = Some id → wal_file d p.
Proof. left. eauto. Qed.
Hint Resolve wal_file_segment wal_file_tmp wal_file_parsed : keeps.

Section frame.
Context {CRC : Crc32} (d : path) (m0 : memfs).
Abbreviation out := (outside (wal_file d) m0).

Lemma keeps_list_segments :
  keeps out (Forall (λ ip, wal_file d ip.2)) (list_segments d).
Proof.
  unfold list_segments. apply (keeps_bind _ any); [eauto with keeps|]. intros ps _.
  apply keeps_ret, Forall_forall. intros ip Hip.
  rewrite merge_sort_Permutation, list_elem_of_omap in Hip.
  destruct Hip as (p & _ & Hp). apply bind_Some in Hp as (id & Hid & [= <-]). by left; eauto.
Qed.

Lemma keeps_read_loop fuel p len buf : keeps out any (read_loop fuel p len buf).
Proof.
  revert buf. induction fuel as [|fuel IH]; intros buf; simpl; [by apply keeps_ret|].
  case_decide; [|by apply keeps_ret]. apply (keeps_bind _ any); [eauto with keeps|]. intros c _.
  case_decide; [by apply keeps_ret|apply IH].
Qed.
Lemma keeps_read_all p : keeps out any (read_all p).
Proof. pose proof keeps_read_loop. unfold read_all. solve_keeps. Qed.
Hint Resolve keeps_read_all : keeps.

Lemma keeps_recover : keeps out any (recover d).
Proof.
  unfold recover. eapply keeps_bind; [apply keeps_list_segments|]. intros segs _.
  generalize recovered_default. induction segs as [|[id p] segs IH]; intros r; simpl; solve_keeps.
Qed.
Lemma keeps_truncate_tail tail n : keeps out any (truncate_tail d tail n).
Proof. unfold truncate_tail. solve_keeps. Qed.
Lemma keeps_segment_create id : keeps out (λ seg, seg_path seg = segment_path d id) (Segment.create d id).
Proof. unfold Segment.create. apply (keeps_bind _ any); [eauto with keeps|]. intros _ _. by apply keeps_ret. Qed.
Lemma keeps_segment_open id : keeps out any (Segment.open d id).
Proof. unfold Segment.open. solve_keeps. Qed.
Hint Resolve keeps_recover keeps_truncate_tail keeps_segment_open : keeps.

Lemma keeps_wal_open o : keeps out any (Wal.open d o).
Proof.
  pose proof (λ id, keeps_any _ _ _ (keeps_segment_create id)).
  pose proof (keeps_any _ _ _ keeps_list_segments). unfold Wal.open. solve_keeps.
Qed.

(** The log and the files, between two of its operations. *)
Definition log_frame (x : Wal * memfs) : Prop :=
  dir x.1 = d ∧ (∃ id, seg_path (active x.1) = segment_path d id) ∧ out x.2.

Lemma log_frame_snd {A} (Q : A → Prop) (m : M memfs StorageError A) :
  keeps out Q m → keeps log_frame Q (on_snd m).
Proof.
  intros Hm. apply keeps_on_snd. intros w s (H1 & H2 & H3). destruct (Hm s H3).
  by split; [split_and!|].
Qed.

Lemma keeps_active_append data : keeps log_frame any (zoom active set_active (Segment.append data)).
Proof.
  intros [w m] (H1 & [id H2] & H3). simpl in H1, H2, H3. split; [|done]. unfold zoom, Segment.append. rewrite bind_run. simpl.
  destruct (keeps_append (wal_file d) m0 (seg_path (active w)) data) with m as [H4 _];
    [rewrite H2; apply wal_file_segment|done|]. simpl in H4.
  rewrite bind_run. simpl.
  destruct (mem_append (seg_path (active w)) data m) as [[n|e|] m']; simpl in *; (split_and!; simpl; eauto).
Qed.
Lemma keeps_active_sync : keeps log_frame any (zoom active set_active Segment.sync).
Proof.
  intros [w m] (H1 & [id H2] & H3). simpl in H1, H2, H3. split; [|done]. unfold zoom, Segment.sync. rewrite bind_run. simpl.
  destruct (keeps_sync_file (wal_file d) m0 (seg_path (active w)) m H3) as [H4 _]. simpl in H4.
  destruct (mem_sync_file (seg_path (active w)) m) as [r m']; simpl in *. split_and!; simpl; eauto.
Qed.
Lemma keeps_get_wal : keeps (E:=StorageError) log_frame (λ w, dir w = d) get_fst.
Proof.
  intros [w m] (H1 & H2 & H3). split; [by split_and!|]. by intros ? [= <-].
Qed.
Lemma keeps_set_active seg :
  (∃ id, seg_path seg = segment_path d id) → keeps (E:=StorageError) log_frame any (mod_fst (set_active seg)).
Proof. intros Hs. apply keeps_mod_fst. intros w m (H1 & H2 & H3). by split_and!. Qed.
Lemma keeps_mod_coord (f : Wal → Coord) :
  keeps (E:=StorageError) log_frame any (mod_fst (λ w, set_coord (f w) w)).
Proof. apply keeps_mod_fst. intros w m (H1 & H2 & H3). by split_and!. Qed.

Lemma keeps_maybe_rotate : keeps log_frame any maybe_rotate.
Proof.
  unfold maybe_rotate. eapply keeps_bind; [apply keeps_get_wal|]. intros w Hd.
  case_decide; [by apply keeps_ret|]. apply (keeps_bind _ any); [apply keeps_active_sync|]. intros _ _.
  rewrite Hd. eapply keeps_bind; [apply log_frame_snd, keeps_segment_create|]. intros seg Hseg.
  apply (keeps_bind _ any); [apply log_frame_snd; eauto with keeps|]. intros _ _.
  apply keeps_set_active. eexists. exact Hseg.
Qed.

Lemma keeps_wal_reset : keeps log_frame any reset.
Proof.
  unfold reset. eapply keeps_bind; [apply keeps_get_wal|]. intros w Hd. rewrite Hd.
  eapply keeps_bind; [apply log_frame_snd, keeps_list_segments|]. intros segs Hsegs.
  eapply keeps_bind; [apply log_frame_snd, keeps_segment_create|]. intros seg Hseg.
  apply (keeps_bind _ any); [apply log_frame_snd; eauto with keeps|]. intros _ _.
  apply (keeps_bind _ any).
  { apply log_frame_snd, keeps_for_each. intros ip Hip. rewrite Forall_forall in Hsegs. eauto with keeps. }
  intros _ _. apply (keeps_bind _ any); [apply log_frame_snd; eauto with keeps|]. intros _ _.
  apply keeps_set_active. eexists. exact Hseg.
Qed.

Lemma keeps_wal_append p : keeps log_frame any (Wal.append p).
Proof.
  pose proof keeps_active_append. pose proof keeps_active_sync. pose proof keeps_maybe_rotate.
  pose proof keeps_mod_coord. pose proof (keeps_any _ _ _ keeps_get_wal).
  unfold Wal.append, commit_sync_now, commit_buffered. apply (keeps_bind _ any); [done|]. intros w _.
  destruct (durability w); [solve_keeps| |solve_keeps].
  unfold commit_group. apply (keeps_bind _ any); [done|]. intros w' _.
  destruct (enqueue _ _) as [seq c]. apply (keeps_bind _ any); [apply (keeps_mod_coord (λ _, c))|]. intros _ _.
  case_decide; [by apply keeps_ret|]. destruct (leader_active c); [apply keeps_panic|].
  destruct (take_batch c) as [b c']. apply (keeps_bind _ any); [apply (keeps_mod_coord (λ _, c'))|]. intros _ _.
  apply (keeps_bind _ any); [unfold write_batch; solve_keeps|]. intros io _.
  apply (keeps_bind _ any); [apply keeps_mod_coord|]. intros _ _. destruct io; [by apply keeps_ret|apply keeps_err].
Qed.
End frame.

(** Running one of them. *)
Lemma append_outside {CRC : Crc32} (p : bytes) (w w' : Wal) (r : outcome StorageError ()) (m m' : memfs) :
  (∃ id, seg_path (active w) = segment_path (dir w) id) →
  Wal.append p (w, m) = (r, (w', m')) → outside (wal_file (dir w)) m m'.
Proof.
  intros Hp Ha. destruct (keeps_wal_append (dir w) m p (w, m)) as [(_ & _ & H) _]; [by split_and!|].
  by rewrite Ha in H.
Qed.
Lemma reset_outside {CRC : Crc32} (w w' : Wal) (r : outcome StorageError ()) (m m' : memfs) :
  (∃ id, seg_path (active w) = segment_path (dir w) id) →
  reset (w, m) = (r, (w', m')) → outside (wal_file (dir w)) m m'.
Proof.
  intros Hp Ha. destruct (keeps_wal_reset (dir w) m (w, m)) as [(_ & _ & H) _]; [by split_and!|].
  by rewrite Ha in H.
Qed.
Lemma open_outside {CRC : Crc32} (d : path) (o : WalOptions) (r : outcome StorageError (Wal * Recovered)) (m m' : memfs) :
  Wal.open d o m = (r, m') → outside (wal_file d) m m'.
Proof. intros Ha. destruct (keeps_wal_open d m o m) as [H _]; [done|]. by rewrite Ha in H. Qed.

(** Tables and the manifest are not files of the log. *)
Lemma parse_segment_other d name (b : byte) :
  last name = Some b → byte.unsigned b ≠ 108 → parse_segment_id (join d name) = None.
Proof.
  intros Hb N. unfold parse_segment_id. rewrite file_name_join. cbn [mbind option_bind].
  destruct (strip_suffix SUFFIX name) as [r|] eqn:E; [|done].
  apply strip_suffix_Some in E as ->. rewrite last_app in Hb. vm_compute in Hb. by simplify_eq.
Qed.

Lemma name_not_wal_file d name (b : byte) :
  last name = Some b → byte.unsigned b ≠ 108 → byte.unsigned b ≠ 112 → ¬ wal_file d (join d name).
Proof.
  intros Hb N1 N2 [[id Hid]|(id & [E|E])].
  - by rewrite (parse_segment_other d name b) in Hid.
  - apply join_inj in E as ->. rewrite last_app in Hb. vm_compute in Hb. by simplify_eq.
  - apply join_inj in E as ->. rewrite last_app in Hb. vm_compute in Hb. by simplify_eq.
Qed.

Lemma table_not_wal_file d i : ¬ wal_file d (Manifest.table_path d i).
Proof.
  apply (name_not_wal_file d _ (byte.of_Z 116)); [|done..]. by rewrite last_app.
Qed.
Lemma manifest_not_wal_file d : ¬ wal_file d (join d Manifest.MANIFEST_NAME).
Proof. by apply (name_not_wal_file d _ (byte.of_Z 84)). Qed.

Lemma wal_file_dir d p : wal_file d p → is_Some (parse_segment_id p) ∨ is_child_of p d = true.
Proof. intros [?|(id & [->| ->])]; [by left|right; apply is_child_join..]. Qed.
End WalFrame.
