(* ===== verification/Compaction.v ===== *)
(** Flush and compaction ([src/compaction.rs]): writing a sorted stream to a new
    table, and the size-tiered step that merges one tier into the next. *)
From S2P Require Export SsTable Manifest MergeIter.

Module Compaction.
Import SsFormat Manifest.

Inductive CompactionError : Type :=
  | Storage (e : StorageError)
  | SsTable (e : SsTableError)
  | Manifest (e : ManifestError).

(** [internal_of(seq, value)], [value_ref(v)]. *)
Definition internal_of (seq : Z) (v : Value) : Memtable.InternalValue :=
  match v with
  | Put b => Memtable.mkValue seq (Memtable.Value b)
  | Delete => Memtable.mkValue seq Memtable.Tombstone
  end.
Definition value_ref (v : Memtable.InternalValue) : Value :=
  match Memtable.kind v with
  | Memtable.Value b => Put b
  | Memtable.Tombstone => Delete
  end.

Section compaction.
Context `{!Crc32, !Xxh3} {S : Type} `{!Storage.Storage S}.

(** [read_all_entries(reader)]. *)
Definition read_all_entries (r : SsTable.SsTableReader) : M S CompactionError (list Memtable.Entry) :=
  es ← map_err SsTable (SsTable.entries r);
  mret ((λ e, (key e, internal_of (seq e) (value e))) <$> es).

(** The accumulators of [write_table]'s loop. *)
Definition table_acc : Type := option bytes * bytes * Z.

(** One turn of the loop of [write_table]. *)
Definition write_entry (acc : table_acc) (kv : Memtable.Entry)
    : M (SsTable.SsTableBuilder * S) CompactionError table_acc :=
  let '(first_key, _, num_entries) := acc in
  let '(k, v) := kv in
  _ ← map_err SsTable (SsTable.add k (Memtable.seq v) (value_ref v));
  mret (Some (match first_key with None => k | Some f => f end), k, u64_add num_entries 1).

(** [write_table(storage, path, id, expected_keys, entries)]. *)
Definition write_table (p : path) (id expected_keys : Z) (entries : list Memtable.Entry)
    : M S CompactionError (option TableMeta) :=
  builder ← map_err SsTable
    (SsTable.builder_new p (Z.max expected_keys 1) SsTable.DEFAULT_BITS_PER_KEY);
  with_local builder (
    '(first_key, last_key, num_entries) ← fold_m entries (None, [], 0) write_entry;
    match first_key with
    | None => mret None
    | Some first_key =>
        _ ← map_err SsTable SsTable.finish;
        mret (Some (mkMeta id num_entries first_key last_key))
    end).

(** [output_is_bottom(version, t)]. *)
Definition output_is_bottom (v : Version) (t : nat) : bool :=
  forallb (λ i, Nat.eqb (tier_len v i) 0) (List.seq (t + 1) (num_tiers v - (t + 1))).

(** The loop of [compact_tier] that opens the inputs. *)
Definition open_input (d : path) (acc : Z * list (list Memtable.Entry)) (meta : TableMeta)
    : M S CompactionError (Z * list (list Memtable.Entry)) :=
  let '(expected_keys, sources) := acc in
  reader ← map_err SsTable (SsTable.reader_open (table_path d (id meta)));
  entries ← read_all_entries reader;
  mret (u64_add expected_keys (SsTable.r_num_entries reader), sources ++ [entries]).

(** [.filter(|(_, v)| !(drop_tombstones && v.is_tombstone()))]. *)
Definition keep_entry (drop_tombstones : bool) (kv : Memtable.Entry) : bool :=
  negb (drop_tombstones && Memtable.is_tombstone kv.2).

(** The version without tier [t]'s tables, when the merge kept nothing. *)
Definition cleared (v : Version) (t : nat) : Version :=
  mkVersion (trim_tiers (<[t := []]> (tiers v))) (next_seq v) (next_table_id v).

(** [compact_tier(storage, manifest, version, t)]. *)
Definition compact_tier (v : Version) (t : nat) : M (Manifest.Manifest * S) CompactionError () :=
  mf ← get_fst;
  inputs ← expect (tiers v !! t);
  '(expected_keys, sources) ← on_snd (fold_m inputs (0, []) (open_input (dir mf)));
  let drop_tombstones := output_is_bottom v t in
  let out_id := next_table_id v in
  merged ← of_outcome (MergeIter.collect (MergeIter.new sources));
  output ← on_snd (write_table (table_path (dir mf) out_id) out_id expected_keys
                     (filter (λ kv, keep_entry drop_tombstones kv = true) merged));
  let new_version := match output with
                     | Some meta => compacted v t meta
                     | None => cleared v t
                     end in
  map_err Manifest (install new_version).

(** [maybe_compact(storage, manifest, tier_fanout)]. *)
Definition find_tier (v : Version) (tier_fanout : Z) : option nat :=
  fst <$> list_find (λ t, tier_fanout ≤ Z.of_nat (tier_len v t)) (List.seq 0 (num_tiers v)).
Definition maybe_compact (tier_fanout : Z) : M (Manifest.Manifest * S) CompactionError bool :=
  with_current (λ v,
    match find_tier v tier_fanout with
    | None => mret false
    | Some t => _ ← compact_tier v t; mret true
    end).

End compaction.
End Compaction.
