(* ===== verification/Db.v ===== *)
(** The engine ([src/db.rs]): recovery, the write path, point lookups, range
    scans, the flush and its cascading compaction, and the WAL record codec, as
    one caller runs them.  The interleaving of several callers' write phases is
    the subject of [WritePath.v]. *)
From S2P Require Export Compaction Wal.

Module Db.
Import SsFormat Manifest Memtable.

Inductive DbError : Type :=
  | Storage (e : StorageError)
  | SsTable (e : SsTableError)
  | Manifest (e : ManifestError)
  | Compaction (e : Compaction.CompactionError).

Definition DEFAULT_MEMTABLE_SIZE : Z := 4 * 1024 * 1024.
Definition DEFAULT_TIER_FANOUT : Z := 4.

Record Options : Type := mkOptions {
  durability : Wal.Durability;
  memtable_size : Z;
  tier_fanout : Z;
}.

(** [Options::default()]. *)
Definition options_default : Options :=
  mkOptions Wal.durability_default DEFAULT_MEMTABLE_SIZE DEFAULT_TIER_FANOUT.

Record WriteState : Type := mkWrite {
  next_seq : Z;
  in_flight : Z;
  flush_pending : bool;
}.

Record Db : Type := mkDb {
  dir : path;
  options : Options;
  wal : Wal.Wal;
  memtables : MemtableSet;
  manifest : Manifest.Manifest;
  readers : gmap Z SsTable.SsTableReader;
  write_state : WriteState;
}.
Definition set_wal (w : Wal.Wal) (db : Db) : Db :=
  mkDb (dir db) (options db) w (memtables db) (manifest db) (readers db) (write_state db).
Definition set_memtables (m : MemtableSet) (db : Db) : Db :=
  mkDb (dir db) (options db) (wal db) m (manifest db) (readers db) (write_state db).
Definition set_manifest (m : Manifest.Manifest) (db : Db) : Db :=
  mkDb (dir db) (options db) (wal db) (memtables db) m (readers db) (write_state db).
Definition set_readers (r : gmap Z SsTable.SsTableReader) (db : Db) : Db :=
  mkDb (dir db) (options db) (wal db) (memtables db) (manifest db) r (write_state db).
Definition set_write (w : WriteState) (db : Db) : Db :=
  mkDb (dir db) (options db) (wal db) (memtables db) (manifest db) (readers db) w.
Definition mod_write (f : WriteState → WriteState) (db : Db) : Db := set_write (f (write_state db)) db.

(** * The WAL record codec *)

Definition REC_TAG_DELETE : Z := 0.
Definition REC_TAG_PUT : Z := 1.

Record Rec : Type := mkRec { rec_seq : Z; rec_key : bytes; rec_value : InternalValue }.

(** [encode_record(seq, key, kind)]. *)
Definition encode_record (seq : Z) (key : bytes) (k : ValueKind) : bytes :=
  le64 seq ++
  match k with
  | Value v => byte.of_Z REC_TAG_PUT :: le32 (u32_wrap (blen key)) ++ key ++
               le32 (u32_wrap (blen v)) ++ v
  | Tombstone => byte.of_Z REC_TAG_DELETE :: le32 (u32_wrap (blen key)) ++ key
  end.

(** The [take] closure of [decode_record], over the buffer and the position. *)
Definition rec_take (n : Z) : M Cursor DbError bytes := λ c,
  if decide (blen (buf c) - pos c < n) then (Err (SsTable (SsFormat.Corrupt WalRecordTruncated)), c)
  else match slice (E:=DbError) (buf c) (pos c) (pos c + n) with
       | Ok out => (Ok out, mkCursor (buf c) (pos c + n))
       | r => (r, c)
       end.
(** [decode_record(buf)]. *)
Definition decode_record_body : M Cursor DbError Rec :=
  b ← rec_take 8;
  let seq := of_le b in
  b ← rec_take 1;
  tag ← expect (b !! 0%nat);
  b ← rec_take 4;
  key ← rec_take (of_le b);
  kind ← (if decide (byte.unsigned tag = REC_TAG_PUT) then
            b ← rec_take 4; v ← rec_take (of_le b); mret (Value v)
          else if decide (byte.unsigned tag = REC_TAG_DELETE) then mret Tombstone
          else err (SsTable (SsFormat.Corrupt (WalRecordTag (byte.unsigned tag)))));
  mret (mkRec seq key (mkValue seq kind)).
Definition decode_record (b : bytes) : outcome DbError Rec := (decode_record_body (cursor_new b)).1.

(** [internal_of(seq, value)] and [range_contains(range, key)] of [db.rs]. *)
Definition internal_of (seq : Z) (v : SsFormat.Value) : InternalValue :=
  match v with
  | Put b => mkValue seq (Value b)
  | Delete => mkValue seq Tombstone
  end.
Definition range_contains (r : KeyRange bytes) (key : bytes) : bool :=
  let after_start := match start_bound r with
                     | Unbounded => true | Included s => s ⪯? key | Excluded s => s ≺? key
                     end in
  let before_end := match end_bound r with
                    | Unbounded => true | Included e => key ⪯? e | Excluded e => key ≺? e
                    end in
  after_start && before_end.

Section db.
Context `{!Crc32, !Xxh3} {S : Type} `{!Storage.Storage S}.

(** [Db::open_on(storage, dir, options)]: the replay loop, then the whole. *)
Definition replay_record (acc : Z * MemtableSet) (record : bytes)
    : M S DbError (Z * MemtableSet) :=
  let '(next_seq, memtables) := acc in
  rec ← of_outcome (decode_record record);
  mret (Z.max next_seq (u64_add (rec_seq rec) 1),
        set_insert_if_newer (rec_key rec) (rec_value rec) memtables).

Definition open_on (d : path) (o : Options) : M S DbError Db :=
  manifest ← map_err Manifest (Manifest.open d);
  let v := version (current manifest) in
  '(wal, recovered) ← map_err Storage (Wal.open d (Wal.options_with (durability o)));
  '(next_seq, memtables) ←
    fold_m (Recovery.records recovered) (Manifest.next_seq v, set_new (memtable_size o)) replay_record;
  mret (mkDb d o wal memtables manifest ∅ (mkWrite next_seq 0 false)).

(** [Db::open_sim] hands [open_on] a fresh [SimFs::with_seed(seed)]; [Db::open]
    a [RealFs] whose directory it has created. *)

(** [reader_for(meta)]. *)
Definition reader_for (meta : TableMeta) : M (Db * S) DbError SsTable.SsTableReader :=
  db ← get_fst;
  match readers db !! id meta with
  | Some r => mret r
  | None =>
      reader ← on_snd (map_err SsTable (SsTable.reader_open (table_path (dir db) (id meta))));
      _ ← mod_fst (λ db, set_readers (<[id meta := reader]> (readers db)) db);
      mret reader
  end.

(** [let version = self.manifest.current(); ..] up to the end of the scope. *)
Definition with_version {A} (f : Version → M (Db * S) DbError A) : M (Db * S) DbError A :=
  λ '(db, s),
    let r := current (manifest db) in
    let '(res, (db', s')) := f (version r) (set_manifest (pin (Manifest.arc_id r) (manifest db)) db, s) in
    (res, (set_manifest (unpin (Manifest.arc_id r) (manifest db')) db', s')).

(** The table loop of [get]. *)
Fixpoint get_tables (key : bytes) (metas : list TableMeta) : M (Db * S) DbError (option bytes) :=
  match metas with
  | [] => mret None
  | meta :: rest =>
      if negb (key_in_range meta key) then get_tables key rest else
      reader ← reader_for meta;
      e ← on_snd (map_err SsTable (SsTable.get reader key));
      match e with
      | Some e => mret (match SsFormat.value e with Put b => Some b | Delete => None end)
      | None => get_tables key rest
      end
  end.
(** [Db::get(key)]. *)
Definition get (key : bytes) : M (Db * S) DbError (option bytes) :=
  db ← get_fst;
  match set_get key (memtables db) with
  | Some v => mret (match kind v with Value b => Some b | Tombstone => None end)
  | None => with_version (λ v, get_tables key (tables_newest_first v))
  end.

(** The table loop of [scan], and [Db::scan(range)]: the merge it returns. *)
Definition scan_table (r : KeyRange bytes) (sources : list (list Entry)) (meta : TableMeta)
    : M (Db * S) DbError (list (list Entry)) :=
  reader ← reader_for meta;
  es ← on_snd (map_err SsTable (SsTable.entries reader));
  mret (sources ++
    [(λ e, (SsFormat.key e, internal_of (SsFormat.seq e) (SsFormat.value e))) <$>
       filter (λ e, range_contains r (SsFormat.key e) = true) es]).
Definition scan (r : KeyRange bytes) : M (Db * S) DbError MergeIter.MergeIterator :=
  db ← get_fst;
  sources ← of_outcome (scan_iters r (memtables db));
  sources ← with_version (λ v, fold_m (all_tables v) sources (scan_table r));
  mret (MergeIter.new sources).

(** The frozen-table loop of [flush_quiesced]. *)
Definition flush_frozen (seq : Z) (f : Frozen) : M (Db * S) DbError () :=
  with_version (λ v,
    db ← get_fst;
    let id := next_table_id v in
    let entries := snapshot (table f) in
    table ← on_snd (map_err Compaction
              (Compaction.write_table (table_path (dir db) id) id (blen entries) entries));
    _ ← match table with
        | Some meta => zoom manifest set_manifest (map_err Manifest (install (flushed v meta seq)))
        | None => mret ()
        end;
    mod_fst (λ db, set_memtables (discard_frozen f (memtables db)) db)).

(** [while compaction::maybe_compact(..)? {}]; with a fanout of two or more each
    turn but the last leaves fewer tables. *)
Fixpoint compact_all (fuel : nat) (fanout : Z) : M (Db * S) DbError () :=
  match fuel with
  | O => panic
  | Datatypes.S fuel' =>
      again ← zoom manifest set_manifest (map_err Compaction (Compaction.maybe_compact fanout));
      if again : bool then compact_all fuel' fanout else mret ()
  end.

(** [flush_quiesced(ws)]. *)
Definition flush_quiesced : M (Db * S) DbError () :=
  _ ← mod_fst (λ db, if decide (active_bytes (memtables db) > 0)
                     then set_memtables (freeze (memtables db)).2 db else db);
  db ← get_fst;
  _ ← for_each (frozen (memtables db)) (flush_frozen (next_seq (write_state db)));
  _ ← zoom wal set_wal (map_err Storage Wal.reset);
  db ← get_fst;
  compact_all (Datatypes.S (List.length (all_tables (version (current (manifest db))))))
    (tier_fanout (options db)).

Definition set_flush_pending (b : bool) (w : WriteState) : WriteState :=
  mkWrite (next_seq w) (in_flight w) b.

(** [flush_locked(ws)] with the write mutex held: a wait for writers in flight
    never ends when there is no other caller, which is the [panic] branch. *)
Definition flush_locked : M (Db * S) DbError () :=
  _ ← mod_fst (mod_write (set_flush_pending true));
  db ← get_fst;
  if decide (in_flight (write_state db) > 0) then panic else
  result ← attempt flush_quiesced;
  _ ← mod_fst (mod_write (set_flush_pending false));
  match result with inl _ => mret () | inr e => err e end.
(** [Db::flush()]. *)
Definition flush : M (Db * S) DbError () := flush_locked.

(** Phase 1 of [write]: claim a sequence number; phase 3 and the error path both
    clear the in-flight mark. *)
Definition claim (w : WriteState) : WriteState :=
  mkWrite (u64_add (next_seq w) 1) (in_flight w + 1) (flush_pending w).
Definition settle (w : WriteState) : WriteState :=
  mkWrite (next_seq w) (in_flight w - 1) (flush_pending w).

(** [write(key, kind)], [put], [delete]. *)
Definition write (key : bytes) (k : ValueKind) : M (Db * S) DbError () :=
  db ← get_fst;
  if flush_pending (write_state db) then panic else
  let seq := next_seq (write_state db) in
  _ ← mod_fst (mod_write claim);
  logged ← attempt (zoom wal set_wal (map_err Storage (Wal.append (encode_record seq key k))));
  match logged with
  | inr e => _ ← mod_fst (mod_write settle); err e
  | inl _ =>
      _ ← mod_fst (λ db, set_memtables (set_insert_if_newer key (mkValue seq k) (memtables db)) db);
      _ ← mod_fst (mod_write settle);
      db ← get_fst;
      if is_full (memtables db) then flush_locked else mret ()
  end.
Definition put (key v : bytes) : M (Db * S) DbError () := write key (Value v).
Definition delete (key : bytes) : M (Db * S) DbError () := write key Tombstone.

End db.
End Db.
