(* ===== verification/Reads.v ===== *)
(** What only looks at the storage: reading log segments, tables and their
    entries, point lookups and scans leave the storage as it is, on any backend
    whose reading calls do. *)
From Stdlib Require Import Strings.String.
From S2P Require Export CrashLogic Db.

Module Reads.
Import CrashLogic.

Section reads.
Context {CRC : Crc32} {XXH : Xxh3} {S : Type} {ST : Storage S} (I : S → Prop) (HI : looks I).

Lemma keeps_lk_open p : keeps I any (fs_open p).
Proof. apply HI. Qed.
Lemma keeps_lk_read p o n : keeps I any (fs_read_at p o n).
Proof. apply HI. Qed.
Lemma keeps_lk_list p : keeps I any (fs_list p).
Proof. apply HI. Qed.
Lemma keeps_lk_len p : keeps I any (fs_len p).
Proof. apply HI. Qed.
Hint Resolve keeps_lk_open keeps_lk_read keeps_lk_list keeps_lk_len : keeps.

(** ** Segments *)

Lemma looks_list_segments d : keeps I any (Segment.list_segments d).
Proof. unfold Segment.list_segments. solve_keeps. Qed.
Lemma looks_seg_open d i : keeps I any (Segment.open d i).
Proof. unfold Segment.open. solve_keeps. Qed.
Lemma looks_read_all p : keeps I any (Segment.read_all p).
Proof.
  assert (H : ∀ n len b, keeps I any (Segment.read_loop n p len b)).
  { intros n len. induction n as [|n IH]; intros b; simpl; solve_keeps. }
  unfold Segment.read_all. solve_keeps.
Qed.
Hint Resolve looks_list_segments looks_read_all : keeps.
Lemma looks_recover d : keeps I any (Recovery.recover d).
Proof.
  unfold Recovery.recover. apply (keeps_bind _ any); [eauto with keeps|]. intros segs _.
  generalize Recovery.recovered_default. induction segs as [|[i p] segs IH]; intros r; simpl; solve_keeps.
Qed.

(** ** Tables *)

Lemma looks_read_exact p o n : keeps I any (SsTable.read_exact p o n).
Proof. unfold SsTable.read_exact. solve_keeps. Qed.
Hint Resolve looks_read_exact : keeps.
Lemma looks_reader_open p : keeps I any (SsTable.reader_open p).
Proof. unfold SsTable.reader_open. solve_keeps. Qed.
Lemma looks_load_block r i : keeps I any (SsTable.load_block r i).
Proof. unfold SsTable.load_block. solve_keeps. Qed.
Hint Resolve looks_reader_open looks_load_block : keeps.
Lemma looks_table_get r k : keeps I any (SsTable.get r k).
Proof. unfold SsTable.get. solve_keeps. Qed.

Lemma looks_snd {X E A} (m : M S E A) : keeps I any m → keeps (λ x : X * S, I x.2) any (on_snd m).
Proof. intros Hm. by apply keeps_on_snd. Qed.
Lemma looks_mod {X E} (f : X → X) : keeps (E:=E) (λ x : X * S, I x.2) any (mod_fst f).
Proof. by apply keeps_mod_fst. Qed.
Lemma looks_get {X E} : keeps (E:=E) (λ x : X * S, I x.2) any get_fst.
Proof. eapply keeps_any, keeps_get_fst. Qed.
Hint Resolve looks_snd looks_mod looks_get keeps_map_err : keeps.

Lemma looks_entries r : keeps I any (SsTable.entries r).
Proof.
  assert (Hn : ∀ n, keeps (λ x : SsTable.SsTableIter * S, I x.2) any (SsTable.iter_next n r)).
  { induction n as [|n IH]; simpl; [apply keeps_panic|]. pose proof (@looks_mod SsTable.SsTableIter SsFormat.SsTableError).
    solve_keeps. }
  assert (Hd : ∀ n, keeps (λ x : SsTable.SsTableIter * S, I x.2) any (SsTable.drain n r)).
  { induction n as [|n IH]; simpl; solve_keeps. }
  apply keeps_with_local, Hd.
Qed.
Hint Resolve looks_entries looks_table_get : keeps.
Lemma looks_read_all_entries r : keeps I any (Compaction.read_all_entries r).
Proof. unfold Compaction.read_all_entries. solve_keeps. Qed.
Hint Resolve looks_read_all_entries : keeps.
Lemma looks_open_inputs d metas acc : keeps I any (fold_m metas acc (Compaction.open_input d)).
Proof.
  apply keeps_fold_m; [|by left]. intros [n srcs] meta. unfold Compaction.open_input. solve_keeps.
Qed.

(** ** The engine's reads *)

(** Beside the storage, what reads do not touch: all but pins and cached readers. *)
Context (P : Db.Db → Prop) (P_readers : ∀ rs db, P (Db.set_readers rs db) ↔ P db)
  (P_pins : ∀ mf db, P (Db.set_manifest mf db) ↔ P db).
Abbreviation J := (λ x : Db.Db * S, P x.1 ∧ I x.2).

Lemma looks_get_db {E} : keeps (E:=E) J any get_fst.
Proof. eapply keeps_any, keeps_get_fst. Qed.
Lemma looks_on_snd {E A} (m : M S E A) : keeps I any m → keeps J any (on_snd m).
Proof. intros Hm. apply keeps_on_snd. intros db s [Hp Hs]. destruct (Hm s Hs) as [H _]. by split. Qed.
Hint Resolve looks_get_db looks_on_snd : keeps.
Lemma looks_reader_for meta : keeps J any (Db.reader_for meta).
Proof.
  unfold Db.reader_for. apply (keeps_bind _ any); [apply looks_get_db|]. intros db _. case_match; [by apply keeps_ret|].
  apply (keeps_bind _ any); [apply looks_on_snd; solve_keeps|]. intros r _.
  apply (keeps_bind _ any); [|intros _ _; by apply keeps_ret].
  apply keeps_mod_fst. cbn. intros db' s. by rewrite P_readers.
Qed.
Hint Resolve looks_reader_for : keeps.
Lemma looks_with_version {A} (f : Manifest.Version → M (Db.Db * S) Db.DbError A) :
  (∀ v, keeps J any (f v)) → keeps J any (Db.with_version f).
Proof.
  intros Hf [db s] Hs. split; [|done]. unfold Db.with_version. cbn zeta.
  match goal with |- context [f ?v ?x] => destruct (Hf v x) as [H _]; [cbn; by rewrite P_pins|];
    destruct (f v x) as [r [db' s']] end.
  cbn in *. by rewrite P_pins.
Qed.
Lemma looks_get_tables k metas : keeps J any (Db.get_tables k metas).
Proof. induction metas as [|meta metas IH]; simpl; solve_keeps. Qed.
Lemma looks_db_get k : keeps J any (Db.get k).
Proof.
  pose proof looks_get_tables. unfold Db.get. apply (keeps_bind _ any); [apply looks_get_db|]. intros db _.
  case_match; [by apply keeps_ret|]. by apply looks_with_version.
Qed.
Lemma looks_db_scan r : keeps J any (Db.scan r).
Proof.
  unfold Db.scan. apply (keeps_bind _ any); [apply looks_get_db|]. intros db _.
  apply (keeps_bind _ any); [apply keeps_of_outcome|]. intros srcs _.
  apply (keeps_bind _ any); [|intros; by apply keeps_ret]. apply looks_with_version. intros v.
  apply keeps_fold_m; [|by left]. intros l meta. unfold Db.scan_table. solve_keeps.
Qed.
End reads.
End Reads.
