(* ===== verification/Tables.v ===== *)
(** Tables on disk as the engine sees them: what it means for a table file to
    hold a list of versions, writing one, reading one back, and the age order of
    a list of tables under which the first hit is the newest version. *)
From Stdlib Require Import Strings.String.
From S2P Require Export Compaction SsTableBuild ManifestSpec MergeSpec.

Module Tables.
Import SsFormat Manifest Compaction Newest.
Abbreviation Entry := Memtable.Entry.

(** * Versions of keys and table entries *)

Definition sst_of (kv : Entry) : SsFormat.Entry :=
  mkEntry kv.1 (Memtable.seq kv.2) (value_ref kv.2).
Definition entry_of (e : SsFormat.Entry) : Entry := (key e, internal_of (seq e) (value e)).

Lemma entry_of_sst kv : entry_of (sst_of kv) = kv.
Proof. by destruct kv as [k [s [v|]]]. Qed.
Lemma sst_of_entry e : sst_of (entry_of e) = e.
Proof. by destruct e as [k s [v|]]. Qed.
Lemma entry_of_sst_list (l : list Entry) : entry_of <$> (sst_of <$> l) = l.
Proof.
  induction l as [|kv l IH]; [done|]. cbn [fmap list_fmap].
  f_equal; [apply entry_of_sst|exact IH].
Qed.
Lemma sst_keys (l : list Entry) : key <$> (sst_of <$> l) = l.*1.
Proof. by rewrite <- list_fmap_compose. Qed.

(** What an entry weighs in a table file. *)
Definition weight (kv : Entry) : Z := SsTableBuild.tweight (sst_of kv).
Definition weights (l : list Entry) : Z := foldr (λ kv z, weight kv + z) 0 l.

Lemma weights_sst l : SsTableBuild.tweights (sst_of <$> l) = weights l.
Proof. induction l as [|kv l IH]; simpl; [done|]. by rewrite <- IH. Qed.
Lemma weights_app l1 l2 : weights (l1 ++ l2) = weights l1 + weights l2.
Proof. rewrite <- !weights_sst, fmap_app. apply SsTableBuild.tweights_app. Qed.
Lemma weight_alt kv :
  weight kv = 33 + 2 * blen kv.1 + match Memtable.kind kv.2 with Memtable.Value v => 4 + blen v | Memtable.Tombstone => 0 end.
Proof.
  unfold weight, SsTableBuild.tweight. rewrite SsTableSpec.blen_enc. unfold sst_of, value_ref. simpl.
  destruct kv as [k [s [v|]]]; simpl; lia.
Qed.
Lemma weight_pos kv : 33 ≤ weight kv.
Proof.
  rewrite weight_alt. pose proof (blen_nonneg kv.1).
  destruct (Memtable.kind kv.2) as [v|]; [pose proof (blen_nonneg v)|]; lia.
Qed.
Lemma weights_nonneg l : 0 ≤ weights l.
Proof. induction l as [|kv l IH]; simpl; [done|]. pose proof (weight_pos kv). lia. Qed.
Lemma weights_length l : 33 * blen l ≤ weights l.
Proof. induction l as [|kv l IH]; simpl; [done|]. rewrite blen_cons. pose proof (weight_pos kv). lia. Qed.
Lemma weights_sub l1 l2 : l1 ⊆+ l2 → weights l1 ≤ weights l2.
Proof.
  induction 1 as [|x l1 l2 _ IH|x y l|x l1 l2 _ IH|l1 l2 l3 _ IH1 _ IH2]; simpl; try lia.
  pose proof (weight_pos x). lia.
Qed.
Lemma weights_elem l kv : kv ∈ l → weight kv ≤ weights l.
Proof.
  intros Hin. assert (H : weights [kv] ≤ weights l) by by apply weights_sub, singleton_submseteq_l.
  simpl in H. lia.
Qed.

(** Entries that fit the budget fit their fields. *)
Definition seq_ok (kv : Entry) : Prop := 0 ≤ Memtable.seq kv.2 < 2 ^ 64.

Lemma entry_ok_weight kv : weight kv < 2 ^ 32 → seq_ok kv → SsTableSpec.entry_ok (sst_of kv).
Proof.
  rewrite weight_alt. intros Hw Hs. destruct kv as [k [s [v|]]]; simpl in *.
  - pose proof (blen_nonneg k). pose proof (blen_nonneg v). split_and!; simpl; try lia; apply Hs.
  - pose proof (blen_nonneg k). split_and!; simpl; try done; try lia; apply Hs.
Qed.

Lemma entries_ok_weights l :
  weights l < 2 ^ 32 → Forall seq_ok l → Forall SsTableSpec.entry_ok (sst_of <$> l).
Proof.
  intros Hw Hs. apply Forall_fmap, Forall_forall. intros kv Hin.
  rewrite Forall_forall in Hs. apply entry_ok_weight; [|by apply Hs].
  pose proof (weights_elem l kv Hin). lia.
Qed.

(** * A table file *)

Section tables.
Context {CRC : Crc32} {CRCL : Crc32Laws} {XXH : Xxh3}.
Implicit Types (d p : path) (m : memfs) (l : list Entry).

(** The metadata of a table of these entries. *)
Definition meta_of (id : Z) l : TableMeta :=
  mkMeta id (blen l) (default [] (fst <$> head l)) (default [] (fst <$> last l)).

(** [p] is a table file that holds [l]. *)
Definition holds_table m p l : Prop :=
  ∃ bs blks bl, m !! p = Some bs ∧ SsTableSpec.table_file bs (sst_of <$> l) blks bl ∧ sorted_keys l.

Definition table_at d m (meta : TableMeta) l : Prop :=
  holds_table m (table_path d (id meta)) l ∧ l ≠ [] ∧ meta = meta_of (id meta) l.

Lemma holds_table_ext m m' p l : m' !! p = m !! p → holds_table m p l → holds_table m' p l.
Proof. intros E (bs & blks & bl & Hm & H). exists bs, blks, bl. by rewrite E. Qed.

(** ** Writing *)

Lemma write_entries_ok (l : list Entry) acc b m b' m' :
  SsTableBuild.add_all (sst_of <$> l) (b, m) = (Ok (), (b', m')) →
  fold_m l acc write_entry (b, m) =
  (Ok (foldl (λ acc kv, (Some (match acc.1.1 with None => kv.1 | Some f => f end), kv.1, u64_add acc.2 1))
         acc l), (b', m')).
Proof.
  revert acc b m. induction l as [|[k v] l IH]; intros acc b m; simpl.
  { by intros [= -> ->]. }
  unfold SsTableBuild.add_all. simpl. intros Ha. apply bind_ok_inv in Ha as ([] & [b1 m1] & Ha & Hl).
  destruct acc as [[fk lk] n]. erewrite bind_ok.
  2:{ simpl. by erewrite bind_ok by (apply map_err_ok; exact Ha). }
  apply (IH _ b1 m1). exact Hl.
Qed.

Lemma write_acc_ok (l : list Entry) :
  l ≠ [] → blen l < 2 ^ 64 →
  foldl (λ acc kv, (Some (match acc.1.1 with None => kv.1 | Some f => f end), kv.1, u64_add acc.2 1))
    (None, [], 0) l
  = (fst <$> head l, default [] (fst <$> last l), blen l).
Proof.
  induction l as [|kv l IH] using rev_ind; [done|]. intros _. rewrite blen_app.
  change (blen [kv]) with 1. intros Hlen. rewrite foldl_app, last_snoc. simpl.
  destruct l as [|x l]; [done|]. pose proof (blen_nonneg (x :: l)).
  rewrite IH by (done || lia). simpl. unfold u64_add. rewrite u64_wrap_id by lia. done.
Qed.

Lemma write_table_empty p id n m :
  m !! p = None → n ≤ 2 ^ 27 → write_table p id n [] m = (Ok None, <[p := []]> m).
Proof.
  intros Hm Hn. unfold write_table.
  destruct (SsTableBuild.builder_new_ok p m (Z.max n 1)) as (b & Hb & _); [done| |].
  { unfold SsTable.DEFAULT_BITS_PER_KEY. lia. }
  by erewrite bind_ok by (apply map_err_ok; exact Hb).
Qed.

Lemma write_table_ok p id n l m :
  m !! p = None → l ≠ [] → sorted_keys l → Forall seq_ok l →
  weights l ≤ 2 ^ 30 → n ≤ 2 ^ 27 →
  ∃ bs, write_table p id n l m = (Ok (Some (meta_of id l)), <[p := bs]> m) ∧
    holds_table (<[p := bs]> m) p l.
Proof.
  intros Hm Hne Hs Hseq Hw Hn. unfold write_table.
  destruct (SsTableBuild.builder_new_ok p m (Z.max n 1)) as (b & Hb & Hb0 & Hbits); [done| |].
  { unfold SsTable.DEFAULT_BITS_PER_KEY. lia. }
  erewrite bind_ok by (apply map_err_ok; exact Hb).
  pose proof (entries_ok_weights l ltac:(lia) Hseq) as Hok.
  destruct (SsTableBuild.add_all_ok p m b (<[p := []]> m) [] [] (sst_of <$> l) Hb0 Hok)
    as (b1 & m1 & blks1 & cur1 & Ha & Hb1 & Hcat & Hcur & Hn1).
  { unfold SsTableSpec.sorted_entries. simpl. by rewrite sst_keys. }
  { simpl. rewrite weights_sst. lia. }
  simpl in Hcat.
  destruct (SsTableBuild.finish_ok p m b1 m1 blks1 cur1 Hb1) as (bs & b2 & m2 & blks2 & bl & sum & Hf & -> & Ht & _).
  { by rewrite Hcat. }
  { rewrite Hcat, weights_sst, Hn1. lia. }
  exists bs. split.
  - eapply with_local_run. erewrite bind_ok by (apply write_entries_ok; exact Ha).
    pose proof (weights_length l). rewrite write_acc_ok by (done || lia).
    destruct l as [|kv l']; [done|]. simpl.
    erewrite bind_ok by (apply map_err_ok; exact Hf). done.
  - exists bs, blks2, bl. rewrite lookup_insert_eq. by rewrite <- Hcat.
Qed.

(** ** Reading *)

Lemma read_table_ok m p l :
  holds_table m p l →
  ∃ r, SsTable.reader_open p m = (Ok r, m) ∧ SsTable.r_num_entries r = blen l ∧
    SsTable.entries r m = (Ok (sst_of <$> l), m) ∧
    read_all_entries r m = (Ok l, m) ∧
    ∀ k, SsTable.get r k m = (Ok (SsTableSpec.find_entry k (sst_of <$> l)), m).
Proof.
  intros (bs & blks & bl & Hm & Ht & Hs).
  exists (SsTableSpec.reader_of p (sst_of <$> l) blks bl).
  pose proof (SsTableSpec.entries_ok p m bs _ blks bl Hm Ht) as He. split_and!.
  - by apply (SsTableSpec.reader_open_ok p m bs).
  - simpl. unfold blen. by rewrite length_fmap.
  - done.
  - unfold read_all_entries. erewrite bind_ok by (apply map_err_ok; exact He).
    change (λ e, (key e, internal_of (seq e) (value e))) with entry_of.
    by rewrite entry_of_sst_list.
  - intros k. apply (SsTableSpec.table_get_ok p m bs); [done..|].
    unfold SsTableSpec.sorted_entries. by rewrite sst_keys.
Qed.

Lemma find_entry_lookup l k :
  sorted_keys l →
  SsTableSpec.find_entry k (sst_of <$> l) =
  (λ v, sst_of (k, v)) <$> (list_to_map l : kvmap) !! k.
Proof.
  intros Hs. assert (Hse : SsTableSpec.sorted_entries (sst_of <$> l)).
  { unfold SsTableSpec.sorted_entries. by rewrite sst_keys. }
  destruct ((list_to_map l : kvmap) !! k) as [v|] eqn:E; simpl.
  - apply elem_of_list_to_map_2 in E. apply SsTableSpec.find_entry_Some; [done|]. split; [|done].
    by apply list_elem_of_fmap_2.
  - apply not_elem_of_list_to_map in E. apply SsTableSpec.find_entry_None.
    intros e (kv & -> & Hin)%list_elem_of_fmap <-. apply E. by apply (list_elem_of_fmap_2 fst).
Qed.
End tables.

(** * Age order *)

(** Every version in [l1] is newer than any version of its key in [l2], or the
    same version: a log that was not reset yet holds what a table holds. *)
Definition newer_than (l1 l2 : list Entry) : Prop :=
  ∀ k v w, (k, v) ∈ l1 → (k, w) ∈ l2 → Memtable.seq w < Memtable.seq v ∨ w = v.
(** Newest first. *)
Definition aged (ls : list (list Entry)) : Prop := StronglySorted newer_than ls.

(** What a first-hit search through [ls] finds. *)
Definition first_hit (ls : list (list Entry)) : kvmap :=
  foldr (λ l acc, list_to_map l ∪ acc) ∅ ls.

Lemma nunion_newer (m1 m2 : kvmap) :
  (∀ k v w, m1 !! k = Some v → m2 !! k = Some w → Memtable.seq w < Memtable.seq v ∨ w = v) →
  nunion m1 m2 = m1 ∪ m2.
Proof.
  intros Hn. apply map_eq. intros k. rewrite lookup_nunion, lookup_union.
  destruct (m1 !! k) as [v|] eqn:E1, (m2 !! k) as [w|] eqn:E2; simpl; try done.
  change (Some (newer v w) = Some v). f_equal. unfold newer. case_decide; [|done]. destruct (Hn k v w E1 E2); [lia|done].
Qed.

(** One more version, newer than what is below. *)
Lemma newer_snoc es (e : Entry) l :
  newer_than (bt_iter (newest es)) l → (∀ w, (e.1, w) ∈ l → Memtable.seq w < Memtable.seq e.2) →
  newer_than (bt_iter (newest (es ++ [e]))) l.
Proof.
  intros Hn He k v w Hv%elem_of_bt_iter Hw. destruct e as [k' v']. rewrite newest_app, lookup_nunion in Hv.
  assert (E1 : newest [(k', v')] = {[k' := v']}) by apply (right_id_L ∅ nunion).
  rewrite E1, lookup_singleton in Hv. destruct (decide (k' = k)) as [->|Hne].
  - left. specialize (He w Hw). cbn in He. destruct (newest es !! k) as [x|] eqn:E; cbn in Hv; injection Hv as <-; [|done].
    unfold newer. case_decide; lia.
  - apply (Hn k); [|done]. apply elem_of_bt_iter. by destruct (newest es !! k).
Qed.

Lemma newer_than_concat l ls :
  Forall (newer_than l) ls → newer_than l (concat ls).
Proof.
  intros Hf k v w Hv (l' & Hl' & Hw)%elem_of_concat. rewrite Forall_forall in Hf. by eapply (Hf l').
Qed.

(** In age order the first hit is the newest version. *)
Lemma first_hit_newest ls :
  aged ls → Forall (λ l, NoDup l.*1) ls → first_hit ls = newest (concat ls).
Proof.
  induction 1 as [|l ls Ha IH Hl]; intros Hnd; [done|]. apply Forall_cons in Hnd as [Hnl Hnd].
  simpl. rewrite newest_app, IH by done. rewrite nunion_newer.
  - by rewrite (newest_NoDup l).
  - intros k v w Hv%newest_lookup Hw%newest_lookup.
    by apply (newer_than_concat l ls Hl k v w).
Qed.

Lemma aged_app ls1 ls2 :
  aged (ls1 ++ ls2) ↔ aged ls1 ∧ aged ls2 ∧ ∀ l1 l2, l1 ∈ ls1 → l2 ∈ ls2 → newer_than l1 l2.
Proof.
  unfold aged. rewrite StronglySorted_app. tauto.
Qed.

Lemma newer_than_sub l1 l2 l1' l2' :
  l1' ⊆ l1 → l2' ⊆ l2 → newer_than l1 l2 → newer_than l1' l2'.
Proof. intros H1 H2 Hn k v w Hv Hw. eapply Hn; [by apply H1|by apply H2]. Qed.

(** Aged lists with one version per key only tie on equal versions. *)
Lemma aged_coherent ls :
  aged ls → Forall (λ l, NoDup l.*1) ls → coherent (concat ls).
Proof.
  induction 1 as [|l ls Ha IH Hl]; intros Hnd; [by intros k v w ?%elem_of_nil|].
  apply Forall_cons in Hnd as [Hnl Hnd]. pose proof (newer_than_concat l ls Hl) as Hn.
  intros k v w [Hv|Hv]%elem_of_app [Hw|Hw]%elem_of_app E.
  - by eapply fst_snd_unique.
  - destruct (Hn k v w Hv Hw); [lia|done].
  - destruct (Hn k w v Hw Hv); [lia|done].
  - by apply (IH Hnd k).
Qed.

(** * The contract of a table file *)

Section contract.
Context {CRC : Crc32} {CRCL : Crc32Laws} {XXH : Xxh3} {S : Type} {ST : Storage.Storage S} {STS : StorageSpec S}.

(** C24: on every backend, a sorted list of versions written by [write_table] is
    what the file's reader iterates over, in order, and what its lookups answer
    from, for every key, absent ones included. *)
Theorem table_roundtrip s (m : memfs) (p : path) id n (l : list Entry) :
  st_view s m → m !! p = None → l ≠ [] → sorted_keys l → Forall seq_ok l →
  weights l ≤ 2 ^ 30 → n ≤ 2 ^ 27 →
  ∃ s1 r s2 s3, write_table p id n l s = (Ok (Some (meta_of id l)), s1) ∧
    SsTable.reader_open p s1 = (Ok r, s2) ∧
    SsTable.entries r s2 = (Ok (sst_of <$> l), s3) ∧
    ∀ k, ∃ s4, SsTable.get r k s2 = (Ok ((λ v, sst_of (k, v)) <$> (list_to_map l : kvmap) !! k), s4).
Proof.
  intros Hv Hm Hne Hs Hq Hw Hn. destruct (write_table_ok p id n l m Hm Hne Hs Hq Hw Hn) as (bs & Hwt & Hh).
  destruct (read_table_ok _ _ _ Hh) as (r & Ho & _ & He & _ & Hg).
  assert (Hsim : msim st_view (write_table (S:=S) p id n l) (write_table p id n l))
    by (unfold write_table, write_entry; solve_msim).
  destruct (msim_run st_view _ _ s m _ _ Hsim Hv Hwt) as (s1 & H1 & V1).
  destruct (msim_run st_view _ _ s1 _ _ _ (SsTableBuild.reader_open_sim p) V1 Ho) as (s2 & H2 & V2).
  destruct (msim_run st_view _ _ s2 _ _ _ (SsTableBuild.entries_sim r) V2 He) as (s3 & H3 & _).
  exists s1, r, s2, s3. split_and!; [done..|]. intros k.
  destruct (msim_run st_view _ _ s2 _ _ _ (SsTableBuild.get_sim r k) V2 (Hg k)) as (s4 & H4 & _).
  exists s4. by rewrite H4, find_entry_lookup.
Qed.
End contract.

Definition sample_table : list Entry :=
  [(lit "a", Memtable.mkValue 1 (Memtable.Value (lit "x"))); (lit "b", Memtable.mkValue 2 Memtable.Tombstone)].

#[local] Existing Instance Sample.crc.
#[local] Existing Instance Sample.crc_laws.
#[local] Existing Instance Sample.xxh3.

Lemma table_roundtrip_witness :
  ∃ (s1 : memfs) r s2 s3, write_table [lit "t"] 1 2 sample_table ∅ = (Ok (Some (meta_of 1 sample_table)), s1) ∧
    SsTable.reader_open [lit "t"] s1 = (Ok r, s2) ∧
    SsTable.entries r s2 = (Ok (sst_of <$> sample_table), s3).
Proof.
  destruct (table_roundtrip (S:=memfs) ∅ ∅ [lit "t"] 1 2 sample_table) as (s1 & r & s2 & s3 & H1 & H2 & H3 & _);
    [apply mem_view|done|done|by repeat constructor|by repeat constructor|done|done|].
  exists s1, r, s2, s3. split; [exact H1|split; [exact H2|exact H3]].
Defined.

End Tables.
