(* ===== verification/CompactionSpec.v ===== *)
(** What installing a version and compacting a tier preserve: every table of the
    current version is on disk and readable, the tables are in age order, the
    live contents do not change, and the number of tables goes down. *)
From Stdlib Require Import Strings.String.
From S2P Require Export Tables.

Module CompactionSpec.
Import SsFormat Manifest ManifestSpec Compaction Newest Tables MergeSpec.

Section spec.
Context {CRC : Crc32} {CRCL : Crc32Laws} {XXH : Xxh3}.
Implicit Types (d p : path) (m : memfs) (v : Version) (mf : Manifest.Manifest) (meta : TableMeta)
  (c : Z → list Entry) (ts : list (list TableMeta)).

(** The contents [c] of the tables of [ts], newest table first. *)
Definition tlists c ts : list (list Entry) := (λ meta, c (id meta)) <$> newest_first ts.

(** The newest version of each key across the tables. *)
Definition tview c ts : kvmap := newest (concat (tlists c ts)).
Definition tweight c ts : Z := weights (concat (tlists c ts)).

Lemma tlists_app c ts1 ts2 : tlists c (ts1 ++ ts2) = tlists c ts1 ++ tlists c ts2.
Proof. unfold tlists. by rewrite newest_first_app, fmap_app. Qed.

Lemma elem_of_newest_first ts meta : meta ∈ newest_first ts ↔ meta ∈ concat ts.
Proof.
  unfold newest_first. rewrite !elem_of_concat. split.
  - intros (l & (l' & -> & Hl)%list_elem_of_fmap & Hm). exists l'. split; [done|].
    by rewrite elem_of_reverse in Hm.
  - intros (l & Hl & Hm). exists (reverse l). split; [by apply list_elem_of_fmap_2|].
    by apply elem_of_reverse.
Qed.

Lemma newest_first_perm ts : newest_first ts ≡ₚ concat ts.
Proof.
  unfold newest_first. induction ts as [|t ts IH]; simpl; [done|]. by rewrite reverse_Permutation, IH.
Qed.

(** ** The invariant of a version on disk *)

Record version_inv d m v c : Prop := {
  vi_tables meta : meta ∈ all_tables v → table_at d m meta (c (id meta));
  vi_ids : NoDup (id <$> all_tables v);
  vi_bound meta : meta ∈ all_tables v → 0 ≤ id meta < next_table_id v;
  vi_aged : aged (tlists c (tiers v));
  vi_seq meta kv : meta ∈ all_tables v → kv ∈ c (id meta) → 0 ≤ Memtable.seq kv.2 < next_seq v;
  vi_tiers : blen (tiers v) ≤ next_table_id v;
}.

(** Ids a version may still allocate have no file. *)
Definition ids_free d m v : Prop :=
  ∀ i, next_table_id v ≤ i < 2 ^ 64 → m !! table_path d i = None.

(** What reading needs of the manifest, and what installing needs as well. *)
Record manifest_core mf m c : Prop := {
  mi_file : manifest_at (dir mf) (version (current mf)) m;
  mi_version : version_inv (dir mf) m (version (current mf)) c;
  mi_obsolete r i : r ∈ obsolete mf → i ∈ referenced_ids (version r) →
    i < next_table_id (version (current mf));
}.
Record manifest_inv mf m c : Prop := {
  mi_core :> manifest_core mf m c;
  mi_free : ids_free (dir mf) m (version (current mf));
}.

(** Everything fits its field: the budget the sizes are measured against. *)
Definition version_fits v c : Prop :=
  tweight c (tiers v) ≤ 2 ^ 30 ∧ 1 ≤ next_table_id v ∧ next_table_id v + blen (all_tables v) ≤ 2 ^ 31 ∧
  0 ≤ next_seq v < 2 ^ 63.

Lemma elem_of_referenced v i : i ∈ referenced_ids v ↔ ∃ meta, meta ∈ all_tables v ∧ id meta = i.
Proof.
  unfold referenced_ids. rewrite elem_of_list_to_set, list_elem_of_fmap. split; intros (x & Hx1 & Hx2); exists x; by split.
Qed.

Lemma elem_of_tlists c ts l : l ∈ tlists c ts ↔ ∃ meta, meta ∈ concat ts ∧ l = c (id meta).
Proof.
  unfold tlists. rewrite list_elem_of_fmap. setoid_rewrite elem_of_newest_first. split; intros (x & Hx1 & Hx2); exists x; by split.
Qed.

Lemma tweight_table c ts meta : meta ∈ concat ts → weights (c (id meta)) ≤ tweight c ts.
Proof.
  intros Hm. unfold tweight. assert (Hl : c (id meta) ∈ tlists c ts) by (apply elem_of_tlists; eauto).
  apply list_elem_of_lookup in Hl as [i Hi]. rewrite (concat_split _ _ _ Hi), !weights_app.
  pose proof (weights_nonneg (concat (take i (tlists c ts)))).
  pose proof (weights_nonneg (concat (drop (S i) (tlists c ts)))). lia.
Qed.

(** A version that satisfies the invariant and fits is one the codec can write. *)
Lemma version_inv_ok d m v c : version_inv d m v c → version_fits v c → version_ok v.
Proof.
  intros Hv (Hw & H1 & Hid & Hseq). pose proof (vi_tiers _ _ _ _ Hv).
  pose proof (blen_nonneg (all_tables v)).
  split_and!; [|lia..]. apply Forall_forall. intros tier Htier. split.
  - apply Forall_forall. intros meta Hm.
    assert (Ha : meta ∈ all_tables v) by (apply elem_of_concat; eauto).
    destruct (vi_tables _ _ _ _ Hv meta Ha) as (_ & Hne & E).
    pose proof (tweight_table c (tiers v) meta Ha) as Hwt. pose proof (vi_bound _ _ _ _ Hv meta Ha).
    pose proof (weights_length (c (id meta))) as Hlen.
    assert (Hkey : ∀ kv, kv ∈ c (id meta) → blen kv.1 < 2 ^ 32).
    { intros kv Hin. pose proof (weights_elem _ _ Hin) as Hk. rewrite weight_alt in Hk.
      destruct (Memtable.kind kv.2) as [x|]; [pose proof (blen_nonneg x)|]; lia. }
    rewrite E. unfold meta_of. set (l := c (id meta)) in *. split_and!; simpl; try lia.
    + apply blen_nonneg.
    + destruct l as [|kv l']; [done|]. apply Hkey. by left.
    + destruct (last l) as [kv|] eqn:El; [|by apply last_None in El]. simpl. apply Hkey.
      by apply last_Some_elem_of.
  - assert (blen tier ≤ blen (all_tables v)); [|lia].
    apply list_elem_of_lookup in Htier as [i Hi]. unfold all_tables.
    rewrite (concat_split _ _ _ Hi), !blen_app.
    pose proof (blen_nonneg (concat (take i (tiers v)))).
    pose proof (blen_nonneg (concat (drop (S i) (tiers v)))). lia.
Qed.

(** * Installing *)

(** Files the manifest never touches. *)
Definition foreign d p : Prop :=
  parse_table_id p = None ∧ p ≠ Storage.join d MANIFEST_NAME ∧ p ≠ Storage.join d MANIFEST_TMP.

Lemma table_path_foreign d i :
  0 ≤ i < 2 ^ 64 → table_path d i ≠ Storage.join d MANIFEST_NAME ∧ table_path d i ≠ Storage.join d MANIFEST_TMP.
Proof.
  intros Hi. split; intros E; apply (f_equal parse_table_id) in E;
    rewrite parse_table_path in E by done.
  - by rewrite (parse_table_other d MANIFEST_NAME (byte.of_Z 84)) in E.
  - by rewrite (parse_table_other d MANIFEST_TMP (byte.of_Z 112)) in E.
Qed.

Lemma version_inv_ext d m m' v c :
  version_inv d m v c → next_table_id v < 2 ^ 64 →
  (∀ i, i ∈ referenced_ids v → m' !! table_path d i = m !! table_path d i) →
  version_inv d m' v c.
Proof.
  intros [H1 H2 H3 H4 H5 H6] Hmax E. split; try done. intros meta Hm.
  destruct (H1 meta Hm) as (Ht & Hne & Eq). split; [|done].
  eapply holds_table_ext; [|exact Ht]. apply E, elem_of_referenced. eauto.
Qed.

Lemma install_inv mf m c v :
  version_inv (dir mf) m v c → version_ok v →
  (∀ r i, r ∈ current mf :: obsolete mf → i ∈ referenced_ids (version r) → i < next_table_id v) →
  ∃ mf' m', install v (mf, m) = (Ok (), (mf', m')) ∧ manifest_inv mf' m' c ∧
    dir mf' = dir mf ∧ version (current mf') = v ∧ pins mf' = pins mf ∧
    (∀ p, foreign (dir mf) p → m' !! p = m !! p) ∧
    (∀ i, i ∈ referenced_ids v → m' !! table_path (dir mf) i = m !! table_path (dir mf) i).
Proof.
  intros Hv Hok Hold. pose proof Hok as (_ & _ & _ & Hid).
  destruct (install_ok v mf m) as (mf' & Hi & Emf). do 2 eexists. split; [exact Hi|].
  set (live := live_ids mf') in *. set (d := dir mf) in *.
  assert (Hcur : version (current mf') = v) by by rewrite Emf.
  assert (Hdir : dir mf' = d) by by rewrite Emf.
  assert (Hobs : ∀ r i, r ∈ obsolete mf' → i ∈ referenced_ids (version r) → i < next_table_id v).
  { intros r i. rewrite Emf. simpl. intros [_ Hr]%list_elem_of_filter. apply Hold.
    apply elem_of_app in Hr as [Hr| ->%list_elem_of_singleton]; [by right|by left]. }
  assert (Hlive : ∀ i, i ∈ live → i < next_table_id v).
  { intros i. unfold live, live_ids. rewrite Hcur. rewrite elem_of_union, elem_of_union_list.
    intros [Hr|(X & (r & -> & Hr)%list_elem_of_fmap & Hi')]; [|by eapply Hobs].
    apply elem_of_referenced in Hr as (meta & Hm & <-). by apply (vi_bound _ _ _ _ Hv). }
  assert (Hkeep : ∀ p, parse_table_id p = None → ¬ garbage d live p).
  { intros p Hp [_ Hu]. unfold unreferenced in Hu. by rewrite Hp in Hu. }
  assert (Hname : parse_table_id (Storage.join d MANIFEST_NAME) = None).
  { by apply (parse_table_other d MANIFEST_NAME (byte.of_Z 84)). }
  assert (Hsame : ∀ i, i ∈ referenced_ids v →
    filter (λ pb : path * bytes, ¬ garbage d live pb.1)
      (<[Storage.join d MANIFEST_NAME := encode_version v]> (delete (Storage.join d MANIFEST_TMP) m))
      !! table_path d i = m !! table_path d i).
  { intros i Hr. pose proof Hr as (meta & Hm & <-)%elem_of_referenced.
    pose proof (vi_bound _ _ _ _ Hv meta Hm).
    destruct (table_path_foreign d (id meta)) as [N1 N2]; [lia|].
    rewrite map_lookup_filter. rewrite lookup_insert_ne, lookup_delete_ne by done.
    destruct (m !! table_path d (id meta)); simpl; [|done]. rewrite option_guard_True; [done|].
    intros [_ Hu]. unfold unreferenced in Hu. rewrite parse_table_path in Hu by lia.
    apply Hu. apply live_ids_current. by rewrite Hcur. }
  split_and!; [|done|done|by rewrite Emf| |exact Hsame].
  - split; [split; rewrite ?Hcur, ?Hdir; [| |exact Hobs]|rewrite ?Hcur, ?Hdir].
    + split; [|done]. apply map_lookup_filter_Some_2; [by rewrite lookup_insert_eq|by apply Hkeep].
    + apply (version_inv_ext d m); [done|lia|exact Hsame].
    + intros i Hi'. apply map_lookup_filter_None_2. right. intros x _ Hn. apply Hn.
      split; [apply is_child_join|]. unfold unreferenced. cbn [fst]. rewrite parse_table_path by lia.
      intros Hin%Hlive. lia.
  - intros p (Hp & N1 & N2). rewrite map_lookup_filter, lookup_insert_ne, lookup_delete_ne by done.
    destruct (m !! p); simpl; [|done]. rewrite option_guard_True; [done|]. by apply Hkeep.
Qed.
(** * Compacting *)

Lemma open_inputs_ok d m c (inputs : list TableMeta) n srcs :
  (∀ meta, meta ∈ inputs → holds_table m (table_path d (id meta)) (c (id meta))) →
  0 ≤ n → n + blen (concat ((λ meta, c (id meta)) <$> inputs)) < 2 ^ 64 →
  fold_m inputs (n, srcs) (open_input d) m =
  (Ok (n + blen (concat ((λ meta, c (id meta)) <$> inputs)),
       srcs ++ ((λ meta, c (id meta)) <$> inputs)), m).
Proof.
  revert n srcs. induction inputs as [|meta inputs IH]; intros n srcs Hm H0 Hmax.
  { simpl. by rewrite Z.add_0_r, app_nil_r. }
  rewrite fmap_cons in *. cbn [fold_m concat] in *. rewrite blen_app in *.
  pose proof (blen_nonneg (c (id meta))).
  pose proof (blen_nonneg (concat ((λ meta, c (id meta)) <$> inputs))).
  destruct (read_table_ok m _ _ (Hm meta ltac:(by left))) as (r & Ho & Hn & _ & Hr & _).
  erewrite bind_ok.
  2:{ unfold open_input. erewrite bind_ok by (apply map_err_ok; exact Ho).
      by erewrite bind_ok by exact Hr. }
  rewrite Hn. unfold u64_add. rewrite u64_wrap_id by lia.
  rewrite IH; [|by intros; apply Hm; right|lia|lia].
  f_equal. f_equal. f_equal; [lia|]. by rewrite <- (assoc_L (++)).
Qed.

(** The merge's output as a list, and what dropping tombstones does to it. *)
Definition output (drop : bool) (srcs : list (list Entry)) : list Entry :=
  filter (λ kv, keep_entry drop kv = true) (merged srcs).

Lemma elem_of_merged srcs k (w : Memtable.InternalValue) :
  (k, w) ∈ merged srcs ↔ newest (concat srcs) !! k = Some w.
Proof. apply elem_of_bt_iter. Qed.

Lemma output_sorted drop srcs : sorted_keys (output drop srcs).
Proof. apply sorted_keys_filter, bt_iter_sorted. Qed.

Lemma output_sub drop srcs kv : kv ∈ output drop srcs → kv ∈ concat srcs.
Proof.
  destruct kv as [k v]. intros [_ Hin]%list_elem_of_filter.
  by apply elem_of_merged, newest_lookup in Hin.
Qed.

Lemma output_weights drop srcs : weights (output drop srcs) ≤ weights (concat srcs).
Proof.
  apply weights_sub, NoDup_submseteq.
  - apply (NoDup_fmap_1 fst), sorted_keys_NoDup, output_sorted.
  - intros kv. apply output_sub.
Qed.

Lemma newest_sorted (l : list Entry) : sorted_keys l → bt_iter (newest l) = l.
Proof.
  intros Hs. rewrite newest_NoDup by by apply sorted_keys_NoDup. by apply bt_iter_list_to_map.
Qed.

Lemma newest_output_lookup drop srcs k :
  newest (output drop srcs) !! k =
  match newest (concat srcs) !! k with
  | Some v => if keep_entry drop (k, v) then Some v else None
  | None => None
  end.
Proof.
  rewrite newest_NoDup by apply sorted_keys_NoDup, output_sorted.
  apply option_eq. intros v.
  rewrite <- elem_of_list_to_map by apply sorted_keys_NoDup, output_sorted.
  unfold output. rewrite list_elem_of_filter, elem_of_merged.
  destruct (newest (concat srcs) !! k) as [w|]; [|by split; [intros [_ ?]|]].
  split.
  - intros [Hk [= ->]]. by rewrite Hk.
  - destruct (keep_entry drop (k, w)) eqn:Hk; [|done]. intros [= ->]. done.
Qed.

(** The live contents of two maps agree: they differ only by tombstones with
    nothing to shadow. *)
Definition same_live (m1 m2 : kvmap) : Prop :=
  ∀ k, m2 !! k = m1 !! k ∨
       (m2 !! k = None ∧ ∃ w, m1 !! k = Some w ∧ Memtable.is_tombstone w = true).

Lemma same_live_refl (m1 : kvmap) : same_live m1 m1.
Proof. by left. Qed.
Lemma same_live_trans (m1 m2 m3 : kvmap) : same_live m1 m2 → same_live m2 m3 → same_live m1 m3.
Proof.
  intros H1 H2 k. destruct (H2 k) as [E2|(E2 & v & Ev & Ht)], (H1 k) as [E1|(E1 & v' & Ev' & Ht')].
  - left. congruence.
  - right. split; [congruence|eauto].
  - right. split; [done|]. exists v. split; [congruence|done].
  - congruence.
Qed.

Lemma aged_tables_coherent d m v c :
  version_inv d m v c → ∀ ts1 ts2 ts3, tiers v = ts1 ++ ts2 ++ ts3 → coherent (concat (tlists c ts2)).
Proof.
  intros Hv ts1 ts2 ts3 E. pose proof (vi_aged _ _ _ _ Hv) as Ha.
  rewrite E, !tlists_app in Ha. apply aged_app in Ha as (_ & Ha & _).
  apply aged_app in Ha as (Ha & _ & _). apply aged_coherent; [done|].
  apply Forall_forall. intros l (meta & Hm & ->)%elem_of_tlists.
  destruct (vi_tables _ _ _ _ Hv meta) as ((bs & blks & bl & _ & _ & Hs) & _).
  { unfold all_tables. rewrite E, !concat_app, !elem_of_app. auto. }
  by apply sorted_keys_NoDup.
Qed.

(** Merging a tier's tables in any order gives the newest versions. *)
Lemma tier_newest d m v c pre inputs post :
  version_inv d m v c → tiers v = pre ++ inputs :: post →
  newest (concat ((λ meta, c (id meta)) <$> inputs)) = newest (concat (tlists c [inputs])).
Proof.
  intros Hv E. symmetry. apply newest_ext.
  - by apply (aged_tables_coherent d m v c Hv pre [inputs] post).
  - intros kv. unfold tlists, newest_first. simpl. rewrite app_nil_r.
    rewrite !elem_of_concat. setoid_rewrite list_elem_of_fmap. setoid_rewrite elem_of_reverse. done.
Qed.

Lemma output_is_bottom_spec v t :
  output_is_bottom v t = true → ∀ i tier, (t < i)%nat → tiers v !! i = Some tier → tier = [].
Proof.
  intros Hb i tier Hi Ht. unfold output_is_bottom in Hb. rewrite forallb_forall in Hb.
  specialize (Hb i). unfold tier_len in Hb. rewrite Ht in Hb.
  assert (Hin : In i (List.seq (t + 1) (num_tiers v - (t + 1)))).
  { apply in_seq. unfold num_tiers. apply lookup_lt_Some in Ht. lia. }
  specialize (Hb Hin). apply Nat.eqb_eq in Hb. by destruct tier.
Qed.
(** The contents after a table [i] was written. *)
Definition upd c (i : Z) (l : list Entry) : Z → list Entry := λ j, if decide (j = i) then l else c j.

Lemma upd_same c i l : upd c i l i = l.
Proof. unfold upd. by rewrite decide_True. Qed.
Lemma upd_other c i l j : j ≠ i → upd c i l j = c j.
Proof. intros Hj. unfold upd. by rewrite decide_False. Qed.
Lemma tlists_upd c i l ts :
  (∀ meta, meta ∈ concat ts → id meta ≠ i) → tlists (upd c i l) ts = tlists c ts.
Proof.
  intros Hi. unfold tlists. apply list_fmap_ext. intros j meta Hm.
  apply upd_other, Hi, elem_of_newest_first. by eapply list_elem_of_lookup_2.
Qed.

(** Replacing the tables of one tier by one table [l] further down. *)
Definition replaced c (pre : list (list TableMeta)) (l : option (list Entry)) post : list (list Entry) :=
  tlists c pre ++ option_list l ++ tlists c post.

Lemma aged_replaced c pre inputs l post :
  aged (tlists c (pre ++ inputs :: post)) →
  (∀ kv l', l = Some l' → kv ∈ l' → kv ∈ concat (tlists c [inputs])) →
  aged (replaced c pre l post).
Proof.
  intros Ha Hl. change (inputs :: post) with ([inputs] ++ post) in Ha.
  rewrite !tlists_app, !aged_app in Ha. destruct Ha as (Hpre & (_ & Hpost & Hip) & Hx).
  unfold replaced. rewrite !aged_app. split_and!; [done|destruct l; repeat constructor|done|..].
  - intros l1 l2 Hl1 Hl2 k v w Hv Hw. destruct l as [l'|]; [|by apply elem_of_nil in Hl1].
    apply list_elem_of_singleton in Hl1 as ->.
    apply Hl in Hv as (l0 & Hl0 & Hv)%elem_of_concat; [|done]. by apply (Hip l0 l2 Hl0 Hl2 k).
  - intros l1 l2 Hl1 [Hl2|Hl2]%elem_of_app k v w Hv Hw.
    + destruct l as [l'|]; [|by apply elem_of_nil in Hl2].
      apply list_elem_of_singleton in Hl2 as ->.
      apply Hl in Hw as (l0 & Hl0 & Hw)%elem_of_concat; [|done].
      assert (Hn : newer_than l1 l0) by (apply Hx; [done|apply elem_of_app; by left]). by apply (Hn k).
    + assert (Hn : newer_than l1 l2) by (apply Hx; [done|apply elem_of_app; by right]). by apply (Hn k).
Qed.

(** The contents across the tables before and after a compaction. *)
Lemma replaced_same_live d m v c pre inputs post drop :
  version_inv d m v c → tiers v = pre ++ inputs :: post →
  (drop = true → concat post = []) →
  let out := output drop ((λ meta, c (id meta)) <$> inputs) in
  same_live (tview c (tiers v)) (newest (concat (replaced c pre (Some out) post))).
Proof.
  intros Hv E Hdrop out. unfold tview, replaced. rewrite E.
  change (inputs :: post) with ([inputs] ++ post).
  rewrite !tlists_app, !concat_app, !newest_app. simpl. rewrite app_nil_r.
  pose proof (tier_newest d m v c pre inputs post Hv E) as Hti.
  pose proof (vi_aged _ _ _ _ Hv) as Ha. rewrite E in Ha.
  change (inputs :: post) with ([inputs] ++ post) in Ha. rewrite !tlists_app, !aged_app in Ha.
  destruct Ha as (_ & _ & Hx).
  intros k. unfold out. rewrite !lookup_nunion, newest_output_lookup, Hti.
  set (T := newest (concat (tlists c [inputs]))).
  destruct (T !! k) as [w|] eqn:Hw; [|by left].
  destruct (keep_entry drop (k, w)) eqn:Hk; [by left|].
  unfold keep_entry in Hk. apply negb_false_iff, andb_true_iff in Hk as [-> Ht]. simpl in Ht.
  assert (Hp : tlists c post = []).
  { unfold tlists. pose proof (newest_first_perm post) as Hpp. rewrite (Hdrop eq_refl) in Hpp.
    apply Permutation_nil_r in Hpp. by rewrite Hpp. }
  rewrite Hp. change (newest (concat [])) with (∅ : kvmap). rewrite lookup_empty. simpl.
  destruct (newest (concat (tlists c pre)) !! k) as [u|] eqn:Hu; simpl.
  - left. f_equal. unfold newer. case_decide; [|done].
    apply newest_lookup, elem_of_concat in Hu as (l1 & Hl1 & Hu).
    apply newest_lookup, elem_of_concat in Hw as (l2 & Hl2 & Hw).
    assert (Hn : newer_than l1 l2) by (apply Hx; [done|apply elem_of_app; by left]).
    destruct (Hn k u w Hu Hw); [lia|done].
  - right. split; [done|]. eauto.
Qed.
Lemma all_tables_newest v meta : meta ∈ all_tables v ↔ meta ∈ newest_first (tiers v).
Proof. by rewrite elem_of_newest_first. Qed.

(** Writing a file under a fresh id disturbs no table. *)
Lemma version_inv_fresh d m v c bs :
  version_inv d m v c → next_table_id v < 2 ^ 64 →
  version_inv d (<[table_path d (next_table_id v) := bs]> m) v c.
Proof.
  intros Hv Hid. apply (version_inv_ext d m); [done..|].
  intros i (meta & Hm & <-)%elem_of_referenced. pose proof (vi_bound _ _ _ _ Hv meta Hm).
  rewrite lookup_insert_ne; [done|]. intros E. apply table_path_inj in E; lia.
Qed.

(** ** The version that replaces [inputs] by at most one fresh table *)

Section replaced.
Context (d : path) (m : memfs) (v : Version) (c : Z → list Entry) (pre : list (list TableMeta)) (inputs : list TableMeta)
  (post : list (list TableMeta)) (l : option (list Entry)) (v' : Version).
Abbreviation oid := (next_table_id v).
Abbreviation c' := (upd c oid (default [] l)).
Context (Hv : version_inv d m v c) (E : tiers v = pre ++ inputs :: post).
Context (Hnf : newest_first (tiers v') = newest_first pre ++ option_list (meta_of oid <$> l) ++ newest_first post).

Lemma replaced_kept meta : meta ∈ newest_first pre ∨ meta ∈ newest_first post →
  meta ∈ all_tables v ∧ c' (id meta) = c (id meta) ∧ 0 ≤ id meta < oid.
Proof.
  intros Hm. assert (Ha : meta ∈ all_tables v).
  { unfold all_tables. rewrite E, concat_app, elem_of_app. simpl. rewrite elem_of_app. rewrite <- !elem_of_newest_first. tauto. }
  pose proof (vi_bound _ _ _ _ Hv meta Ha). split_and!; [done| |lia|lia]. apply upd_other. lia.
Qed.
Lemma replaced_tables meta : meta ∈ all_tables v' →
  (meta ∈ newest_first pre ∨ meta ∈ newest_first post) ∨ ∃ out, l = Some out ∧ meta = meta_of oid out.
Proof.
  rewrite all_tables_newest, Hnf, !elem_of_app. intros [?|[Hm|?]]; [by left; left| |by left; right].
  right. destruct l as [out|]; [|by apply elem_of_nil in Hm]. apply list_elem_of_singleton in Hm. eauto.
Qed.
Lemma replaced_contents out : l = Some out → c' oid = out.
Proof. intros ->. apply upd_same. Qed.
Lemma replaced_tlists : tlists c' (tiers v') = replaced c pre l post.
Proof.
  unfold tlists at 1. rewrite Hnf, !fmap_app. unfold replaced, tlists. f_equal; [|f_equal].
  - apply list_fmap_ext. intros j meta Hm. apply replaced_kept. left. by eapply list_elem_of_lookup_2.
  - destruct l as [out|] eqn:El; [|done]. simpl. f_equal. apply upd_same.
  - apply list_fmap_ext. intros j meta Hm. apply replaced_kept. right. by eapply list_elem_of_lookup_2.
Qed.
Lemma replaced_ids : NoDup (id <$> all_tables v').
Proof.
  unfold all_tables. rewrite <- newest_first_perm, Hnf.
  pose proof (vi_ids _ _ _ _ Hv) as Hnd. unfold all_tables in Hnd. rewrite <- newest_first_perm, E in Hnd.
  change (inputs :: post) with ([inputs] ++ post) in Hnd. rewrite !newest_first_app, !fmap_app in Hnd. rewrite !fmap_app.
  apply NoDup_app in Hnd as (N1 & N2 & (N3 & N4 & N5)%NoDup_app).
  assert (Hnew : ∀ i, i ∈ id <$> option_list (meta_of oid <$> l) → i = oid).
  { intros i. destruct l; simpl; [by intros ?%list_elem_of_singleton|by intros ?%elem_of_nil]. }
  assert (Hfresh : ∀ i meta, meta ∈ newest_first pre ∨ meta ∈ newest_first post → i = id meta → i ≠ oid).
  { intros i meta Hm -> Ei. destruct (replaced_kept meta Hm) as (_ & _ & ?). lia. }
  apply NoDup_app. split; [done|]. split.
  - intros i Hi [Hx%Hnew|Hx]%elem_of_app; [|by apply (N2 i Hi), elem_of_app; right].
    apply list_elem_of_fmap in Hi as (meta & Ei & Hm). by apply (Hfresh i meta (or_introl Hm)).
  - apply NoDup_app. split; [destruct l; repeat constructor; apply not_elem_of_nil|]. split; [|done].
    intros i Hx%Hnew Hi. apply list_elem_of_fmap in Hi as (meta & Ei & Hm). by apply (Hfresh i meta (or_intror Hm)).
Qed.

Lemma version_inv_replaced :
  (∀ out, l = Some out → holds_table m (table_path d oid) out ∧ out ≠ [] ∧
     ∀ kv, kv ∈ out → kv ∈ concat (tlists c [inputs])) →
  next_seq v' = next_seq v → 0 ≤ oid →
  next_table_id v' = (match l with Some _ => oid + 1 | None => oid end) →
  blen (tiers v') ≤ next_table_id v' →
  version_inv d m v' c'.
Proof.
  intros Hl Hseq Hoid Hid Htiers. split.
  - intros meta [Hm|(out & El & ->)]%replaced_tables.
    + destruct (replaced_kept meta Hm) as (Ha & -> & _). by apply (vi_tables _ _ _ _ Hv).
    + destruct (Hl out El) as (Ht & Hne & _). cbn [id meta_of]. rewrite (replaced_contents out El). by split.
  - apply replaced_ids.
  - intros meta [Hm|(out & El & ->)]%replaced_tables.
    + destruct (replaced_kept meta Hm) as (_ & _ & ?). rewrite Hid. destruct l; lia.
    + rewrite Hid, El. cbn. lia.
  - rewrite replaced_tlists. eapply aged_replaced.
    + rewrite <- E. apply (vi_aged _ _ _ _ Hv).
    + intros kv l' El Hkv. by apply (Hl l' El).
  - rewrite Hseq. intros meta kv [Hm|(out & El & ->)]%replaced_tables.
    + destruct (replaced_kept meta Hm) as (Ha & -> & _). by apply (vi_seq _ _ _ _ Hv).
    + cbn [id meta_of]. rewrite (replaced_contents out El). intros Hkv. apply (Hl out El) in Hkv.
      apply elem_of_concat in Hkv as (l0 & (m0 & Hm0 & ->)%elem_of_tlists & Hkv).
      apply (vi_seq _ _ _ _ Hv m0); [|done]. unfold all_tables. rewrite E, concat_app. simpl.
      simpl in Hm0. rewrite app_nil_r in Hm0. rewrite !elem_of_app. auto.
  - done.
Qed.
End replaced.

Lemma trim_tiers_length ts : (length (trim_tiers ts) ≤ length ts)%nat.
Proof.
  unfold trim_tiers. generalize (length ts) at 1 as n. intros n. revert ts.
  induction n as [|n IH]; intros ts; simpl; [done|].
  destruct (last ts) as [[|x tier]|] eqn:El; [|done..]. specialize (IH (removelast ts)).
  rewrite (last_removelast _ _ El) at 2. rewrite length_app. simpl. lia.
Qed.

Lemma cleared_newest_first v pre inputs post :
  tiers v = pre ++ inputs :: post →
  newest_first (tiers (cleared v (length pre))) = newest_first pre ++ newest_first post.
Proof.
  intros E. unfold cleared, newest_first. cbn [tiers]. rewrite trim_tiers_concat by done.
  rewrite E, insert_app_r_alt, Nat.sub_diag by lia. simpl.
  by rewrite fmap_app, concat_app.
Qed.
(** What a compaction step keeps and what it changes. *)
Record compacted_to mf m c mf' m' c' : Prop := {
  ct_inv : manifest_inv mf' m' c';
  ct_dir : dir mf' = dir mf;
  ct_pins a : pin_count mf' a = pin_count mf a;
  ct_live : same_live (tview c (tiers (version (current mf)))) (tview c' (tiers (version (current mf'))));
  ct_sub kv : kv ∈ concat (tlists c' (tiers (version (current mf')))) →
              kv ∈ concat (tlists c (tiers (version (current mf))));
  ct_weight : tweight c' (tiers (version (current mf'))) ≤ tweight c (tiers (version (current mf)));
  ct_seq : next_seq (version (current mf')) = next_seq (version (current mf));
  ct_ids : next_table_id (version (current mf)) ≤ next_table_id (version (current mf'));
  ct_room : next_table_id (version (current mf')) + blen (all_tables (version (current mf'))) ≤
            next_table_id (version (current mf)) + blen (all_tables (version (current mf)));
  ct_foreign p : foreign (dir mf) p → m' !! p = m !! p;
  ct_old i : i ∈ referenced_ids (version (current mf')) → i < next_table_id (version (current mf)) →
    m' !! table_path (dir mf) i = m !! table_path (dir mf) i ∧ c' i = c i;
}.

Lemma compacted_to_refl mf m c : manifest_inv mf m c → compacted_to mf m c mf m c.
Proof. intros Hi. split; try done. apply same_live_refl. Qed.

Lemma compacted_to_trans mf1 m1 c1 mf2 m2 c2 mf3 m3 c3 :
  compacted_to mf1 m1 c1 mf2 m2 c2 → compacted_to mf2 m2 c2 mf3 m3 c3 →
  (∀ i, i ∈ referenced_ids (version (current mf3)) → i < next_table_id (version (current mf2)) →
        i ∈ referenced_ids (version (current mf2))) →
  compacted_to mf1 m1 c1 mf3 m3 c3.
Proof.
  intros [] [] Href. split; try congruence; try lia.
  - by eapply same_live_trans.
  - intros kv Hkv. auto.
  - intros p Hp. rewrite ct_foreign1 by by rewrite ct_dir0. auto.
  - intros i Hi Hlt. destruct (ct_old1 i Hi) as [E1 E2]; [lia|].
    destruct (ct_old0 i) as [E3 E4]; [apply Href; [done|lia]|done|]. rewrite ct_dir0 in E1.
    split; congruence.
Qed.

Lemma blen_perm {A} (l1 l2 : list A) : l1 ≡ₚ l2 → blen l1 = blen l2.
Proof. intros Hp. unfold blen. by rewrite Hp. Qed.

Lemma all_tables_length v pre l post :
  newest_first (tiers v) = newest_first pre ++ l ++ newest_first post →
  blen (all_tables v) = blen (concat pre) + blen l + blen (concat post).
Proof.
  intros E. unfold all_tables. rewrite <- (blen_perm _ _ (newest_first_perm (tiers v))), E, !blen_app.
  rewrite !(blen_perm _ _ (newest_first_perm _)). lia.
Qed.

Lemma foreign_not_table d p i : foreign d p → 0 ≤ i < 2 ^ 64 → p ≠ table_path d i.
Proof. intros (Hp & _) Hi ->. by rewrite parse_table_path in Hp. Qed.

(** A new table is written and a version [v'] that may name it is ready to be
    installed over [v]. *)
Record staged d m v c m1 v' c' : Prop := {
  sg_version : version_inv d m1 v' c';
  sg_fits : version_fits v' c';
  sg_next : next_table_id v ≤ next_table_id v';
  sg_files p : p ≠ table_path d (next_table_id v) → m1 !! p = m !! p;
  sg_refs i : i ∈ referenced_ids v' → i < next_table_id v → i ∈ referenced_ids v ∧ c' i = c i ∧ 0 ≤ i;
  sg_free : next_table_id v' = next_table_id v + 1 → ids_free d m v → ids_free d m1 v';
}.

(** The merge of tier [t], up to the installation: the version to install. *)
Definition compact_prepare {S} `{!Storage.Storage S} d v (t : nat) : M S CompactionError Version :=
  inputs ← expect (tiers v !! t);
  '(expected_keys, sources) ← fold_m inputs (0, []) (open_input d);
  merged ← of_outcome (MergeIter.collect (MergeIter.new sources));
  output ← write_table (table_path d (next_table_id v)) (next_table_id v) expected_keys
             (filter (λ kv, keep_entry (output_is_bottom v t) kv = true) merged);
  mret (match output with Some meta => compacted v t meta | None => cleared v t end).

Lemma compact_tier_split {S} `{!Storage.Storage S} mf v (t : nat) (s : S) :
  compact_tier v t (mf, s) =
  (v' ← on_snd (compact_prepare (dir mf) v t); map_err Manifest (install v')) (mf, s).
Proof.
  unfold compact_tier, compact_prepare. rewrite (bind_ok get_fst _ (mf, s) mf (mf, s)) by done.
  destruct (tiers v !! t) as [inputs|]; [|done]. cbn [expect]. rewrite !bind_ret, !bind_run. cbn [on_snd].
  rewrite bind_run. destruct (fold_m inputs _ _ s) as [[[n srcs]|e|] s1]; [|done..]. rewrite !bind_run.
  unfold of_outcome. destruct (MergeIter.collect (MergeIter.new srcs)) as [l|e|]; [|done..]. rewrite !bind_run. cbn [on_snd].
  by destruct (write_table _ _ _ _ s1) as [[o|e|] s2].
Qed.

(** A tier's share of the weight. *)
Lemma tier_weights c v t inputs : tiers v !! t = Some inputs →
  weights (concat ((λ meta, c (id meta)) <$> inputs)) = tweight c [inputs] ∧
  tweight c (tiers v) = tweight c (take t (tiers v)) + tweight c [inputs] + tweight c (drop (S t) (tiers v)).
Proof.
  intros Ht. split.
  - unfold tweight, tlists, newest_first. simpl. rewrite app_nil_r.
    clear. induction inputs as [|meta inputs IH]; [done|]. rewrite reverse_cons, fmap_app, concat_app, weights_app.
    rewrite fmap_cons. simpl. rewrite weights_app, IH, app_nil_r. lia.
  - unfold tweight. rewrite <- (take_drop_middle (tiers v) t inputs Ht) at 1.
    change (inputs :: drop (S t) (tiers v)) with ([inputs] ++ drop (S t) (tiers v)).
    rewrite !tlists_app, !concat_app, !weights_app. lia.
Qed.
Lemma tier_tables v t inputs meta : tiers v !! t = Some inputs → meta ∈ inputs → meta ∈ all_tables v.
Proof. intros Ht Hm. apply elem_of_concat. exists inputs. split; [by eapply list_elem_of_lookup_2|done]. Qed.

(** Reading the inputs of a merge, and merging them. *)
Lemma compact_inputs_ok d v m c t inputs :
  let srcs := (λ meta, c (id meta)) <$> inputs in
  version_inv d m v c → version_fits v c → tiers v !! t = Some inputs →
  fold_m inputs (0, []) (open_input d) m = (Ok (0 + blen (concat srcs), srcs), m) ∧
  MergeIter.collect (E:=CompactionError) (MergeIter.new srcs) = Ok (merged srcs).
Proof.
  intros srcs Hv (Hw & _) Ht. destruct (tier_weights c v t inputs Ht) as [Hs Hsplit].
  pose proof (weights_nonneg (concat (tlists c (take t (tiers v))))) as H1.
  pose proof (weights_nonneg (concat (tlists c (drop (S t) (tiers v))))) as H2.
  fold (tweight c (take t (tiers v))) (tweight c (drop (S t) (tiers v))) in H1, H2.
  pose proof (weights_length (concat srcs)) as Hl. fold srcs in Hs. split.
  - apply (open_inputs_ok d m c inputs 0 []); [|lia|fold srcs; lia].
    intros meta Hm. by destruct (vi_tables _ _ _ _ Hv meta (tier_tables v t inputs meta Ht Hm)).
  - apply MergeSpec.collect_ok, Forall_forall. intros l (meta & -> & Hm)%list_elem_of_fmap.
    by destruct (vi_tables _ _ _ _ Hv meta (tier_tables v t inputs meta Ht Hm)) as ((? & ? & ? & _ & _ & ?) & _).
Qed.

(** ** One merge *)

Section merge.
Context (d : path) (v : Version) (m : memfs) (c : Z → list Entry) (t : nat) (inputs : list TableMeta).
Context (Hv : version_inv d m v c) (Hfit : version_fits v c) (Ht : tiers v !! t = Some inputs).

Abbreviation pre := (take t (tiers v)).
Abbreviation post := (drop (S t) (tiers v)).
Abbreviation oid := (next_table_id v).
(** What the merge writes, if anything, and the version it makes. *)
Definition merge_out : list Entry := output (output_is_bottom v t) ((λ meta, c (id meta)) <$> inputs).
Definition merge_table : option (list Entry) := match merge_out with [] => None | _ => Some merge_out end.
Definition merge_version : Version :=
  match meta_of oid <$> merge_table with Some meta => compacted v t meta | None => cleared v t end.
Definition merge_contents : Z → list Entry := upd c oid (default [] merge_table).

Lemma tier_split : tiers v = pre ++ inputs :: post.
Proof. symmetry. by apply take_drop_middle. Qed.
Lemma merge_id_room : 1 ≤ oid ≤ 2 ^ 31.
Proof. destruct Hfit as (_ & ? & ? & _). pose proof (blen_nonneg (all_tables v)). lia. Qed.
Lemma merge_table_Some o : merge_table = Some o → o = merge_out ∧ o ≠ [].
Proof. unfold merge_table. destruct merge_out; [done|]. by intros [= <-]. Qed.

Lemma merge_out_sub kv : kv ∈ merge_out → kv ∈ concat (tlists c [inputs]).
Proof.
  intros Hkv%output_sub. unfold tlists, newest_first. simpl. rewrite app_nil_r.
  apply elem_of_concat in Hkv as (l & (meta & -> & Hm)%list_elem_of_fmap & Hkv).
  apply elem_of_concat. exists (c (id meta)). split; [|done].
  apply (list_elem_of_fmap_2 (λ meta, c (id meta))). by apply elem_of_reverse.
Qed.
Lemma merge_out_seqs : Forall seq_ok merge_out.
Proof.
  destruct Hfit as (_ & _ & _ & Hseq).
  apply Forall_forall. intros kv Hkv%merge_out_sub. apply elem_of_concat in Hkv as (l & (meta & Hm & ->)%elem_of_tlists & Hkv).
  simpl in Hm. rewrite app_nil_r in Hm.
  pose proof (vi_seq _ _ _ _ Hv meta kv (tier_tables v t inputs meta Ht Hm) Hkv). unfold seq_ok. lia.
Qed.
Lemma merge_out_weights : weights merge_out ≤ tweight c [inputs].
Proof. destruct (tier_weights c v t inputs Ht) as [<- _]. apply output_weights. Qed.
(** Tombstones go only where nothing is below. *)
Lemma merge_bottom : output_is_bottom v t = true → concat post = [].
Proof.
  intros Hd. pose proof (output_is_bottom_spec v t Hd) as Hb.
  assert (Hn : ∀ x, x ∉ concat post); [|by destruct (concat post) as [|x l]; [|destruct (Hn x); left]].
  intros x (tier & Htier & Hx)%elem_of_concat. apply list_elem_of_lookup in Htier as [i Hi]. rewrite lookup_drop in Hi.
  rewrite (Hb (S t + i)%nat tier) in Hx; [by apply elem_of_nil in Hx|lia|done].
Qed.

Lemma compact_prepare_run : m !! table_path d oid = None →
  ∃ bs, let m1 := <[table_path d oid := bs]> m in
    compact_prepare d v t m = (Ok merge_version, m1) ∧ ∀ o, merge_table = Some o → holds_table m1 (table_path d oid) o.
Proof.
  intros Hfree. destruct (compact_inputs_ok d v m c t inputs Hv Hfit Ht) as [Hread Hmerge].
  set (srcs := (λ meta, c (id meta)) <$> inputs) in *. set (n := 0 + blen (concat srcs)) in *.
  assert (Hn : 0 ≤ n ≤ 2 ^ 27 ∧ weights merge_out ≤ 2 ^ 30).
  { destruct Hfit as (Hw & _). destruct (tier_weights c v t inputs Ht) as [Hs Hsplit]. fold srcs in Hs.
    pose proof (weights_nonneg (concat (tlists c pre))) as H1. pose proof (weights_nonneg (concat (tlists c post))) as H2.
    fold (tweight c pre) in H1. fold (tweight c post) in H2. pose proof merge_out_weights.
    pose proof (weights_length (concat srcs)). pose proof (blen_nonneg (concat srcs)). lia. }
  assert (Hwrite : ∃ bs, write_table (table_path d oid) oid n merge_out m =
      (Ok (meta_of oid <$> merge_table), <[table_path d oid := bs]> m) ∧
      ∀ o, merge_table = Some o → holds_table (<[table_path d oid := bs]> m) (table_path d oid) o).
  { unfold merge_table. destruct (decide (merge_out = [])) as [->|Hne].
    - exists []. split; [by apply write_table_empty; [|lia]|done].
    - destruct (write_table_ok (table_path d oid) oid n merge_out m) as (bs & Hwt & Hh);
        [done|done|apply output_sorted|apply merge_out_seqs|lia|lia|].
      exists bs. destruct merge_out; [done|]. split; [exact Hwt|]. by intros o [= <-]. }
  destruct Hwrite as (bs & Hwt & Hh). exists bs. split; [|done].
  unfold compact_prepare. rewrite Ht. cbn [expect]. rewrite bind_ret.
  erewrite bind_ok by exact Hread. cbn beta iota. erewrite bind_ok by (unfold of_outcome; by rewrite Hmerge).
  by erewrite bind_ok by exact Hwt.
Qed.

(** ** The version it makes *)

Lemma merge_newest_first :
  newest_first (tiers merge_version) = newest_first pre ++ option_list (meta_of oid <$> merge_table) ++ newest_first post.
Proof.
  assert (Hpre : length pre = t) by (apply length_take_le; apply lookup_lt_Some in Ht; lia).
  pose proof (λ out, compacted_newest_first v pre inputs post out tier_split) as H1.
  pose proof (cleared_newest_first v pre inputs post tier_split) as H2. rewrite Hpre in H1, H2.
  unfold merge_version. destruct merge_table as [o|]; [apply H1|exact H2].
Qed.
Lemma merge_version_id : next_table_id merge_version = match merge_table with Some _ => oid + 1 | None => oid end.
Proof.
  pose proof merge_id_room. unfold merge_version. destruct merge_table; simpl; [|done].
  unfold u64_add. rewrite u64_wrap_id by lia. lia.
Qed.
Lemma merge_version_tiers : blen (tiers merge_version) ≤ next_table_id merge_version.
Proof.
  pose proof (vi_tiers _ _ _ _ Hv) as Hvt. rewrite merge_version_id. unfold merge_version. pose proof (lookup_lt_Some _ _ _ Ht).
  destruct merge_table as [l|]; simpl.
  - pose proof (trim_tiers_length (alter (λ tier, tier ++ [meta_of oid l]) (t + 1)%nat
      (<[t:=[]]> (pad_tiers (t + 2) (tiers v))))) as Hl.
    rewrite length_alter, length_insert in Hl. unfold pad_tiers in Hl at 2.
    rewrite length_app, length_replicate in Hl. unfold blen in *. lia.
  - pose proof (trim_tiers_length (<[t:=[]]> (tiers v))) as Hl. rewrite length_insert in Hl. unfold blen in *. lia.
Qed.
Lemma merge_version_seq : next_seq merge_version = next_seq v.
Proof. unfold merge_version. by destruct merge_table. Qed.
Lemma merge_version_ok bs :
  let m1 := <[table_path d oid := bs]> m in
  (∀ o, merge_table = Some o → holds_table m1 (table_path d oid) o) →
  version_inv d m1 merge_version merge_contents ∧
  tlists merge_contents (tiers merge_version) = replaced c pre merge_table post.
Proof.
  intros m1 Hh. pose proof merge_id_room.
  assert (Hv1 : version_inv d m1 v c) by (by apply version_inv_fresh; [|lia]). split.
  - apply (version_inv_replaced d m1 v c pre inputs post merge_table merge_version Hv1 tier_split merge_newest_first);
      [|apply merge_version_seq|lia|apply merge_version_id|apply merge_version_tiers].
    intros o Ho. destruct (merge_table_Some o Ho) as [-> ?]. split_and!; [by apply Hh|done|apply merge_out_sub].
  - apply (replaced_tlists d m1 v c pre inputs post merge_table merge_version Hv1 tier_split merge_newest_first).
Qed.

(** ** What it holds *)

Section held.
Context (Htl : tlists merge_contents (tiers merge_version) = replaced c pre merge_table post).

Lemma merge_sub kv : kv ∈ concat (tlists merge_contents (tiers merge_version)) → kv ∈ concat (tlists c (tiers v)).
Proof.
  rewrite Htl. unfold replaced. rewrite tier_split at 3.
  change (inputs :: post) with ([inputs] ++ post). rewrite !tlists_app, !concat_app, !elem_of_app.
  intros [?|[Hkv|?]]; [by left| |by right; right]. right. left. apply merge_out_sub.
  unfold merge_table in Hkv. destruct merge_out as [|kv' o]; [done|]. simpl in Hkv. by rewrite app_nil_r in Hkv.
Qed.
Lemma merge_live_over : same_live (tview c (tiers v)) (tview merge_contents (tiers merge_version)).
Proof.
  unfold tview at 2. rewrite Htl.
  pose proof (replaced_same_live d m v c pre inputs post (output_is_bottom v t) Hv tier_split merge_bottom) as Hs. cbv zeta in Hs.
  fold merge_out in Hs. unfold merge_table. destruct merge_out as [|kv o]; [|done].
  unfold replaced in *. by rewrite !concat_app in *.
Qed.
Lemma merge_weight : tweight merge_contents (tiers merge_version) ≤ tweight c (tiers v).
Proof.
  destruct (tier_weights c v t inputs Ht) as [_ ->]. unfold tweight at 1. rewrite Htl. unfold replaced.
  rewrite !concat_app, !weights_app. fold (tweight c pre) (tweight c post).
  enough (weights (concat (option_list merge_table)) ≤ tweight c [inputs]) by lia.
  pose proof merge_out_weights as Hw. unfold merge_table. destruct merge_out as [|kv o]; simpl; [apply weights_nonneg|].
  by rewrite app_nil_r.
Qed.
End held.

Lemma merge_count : blen (all_tables merge_version) + blen inputs ≤ blen (all_tables v) + 1 ∧
  next_table_id merge_version + blen (all_tables merge_version) + blen inputs ≤ oid + blen (all_tables v) + 2.
Proof.
  rewrite merge_version_id, (all_tables_length merge_version pre (option_list (meta_of oid <$> merge_table)) post) by apply merge_newest_first.
  assert (Hc : blen (all_tables v) = blen (concat pre) + blen inputs + blen (concat post)).
  { unfold all_tables. rewrite tier_split at 1. rewrite concat_app. simpl. rewrite !blen_app. lia. }
  assert (Hone : blen (option_list (meta_of oid <$> merge_table)) ≤ match merge_table with Some _ => 1 | None => 0 end) by by destruct merge_table.
  destruct merge_table; lia.
Qed.
Lemma merge_refs i : i ∈ referenced_ids merge_version → i < oid →
  i ∈ referenced_ids v ∧ merge_contents i = c i ∧ 0 ≤ i.
Proof.
  intros (meta & Hm & <-)%elem_of_referenced Hlt.
  assert (Hin : meta ∈ all_tables v).
  { rewrite all_tables_newest, merge_newest_first, !elem_of_app in Hm. unfold all_tables.
    rewrite tier_split, concat_app, elem_of_app. simpl. rewrite elem_of_app, <- !elem_of_newest_first.
    destruct Hm as [?|[Hm|?]]; [by left| |by right; right].
    destruct merge_table as [o|]; [|by apply elem_of_nil in Hm]. apply list_elem_of_singleton in Hm as ->. cbn in Hlt. lia. }
  pose proof (vi_bound _ _ _ _ Hv meta Hin). split_and!; [|apply upd_other; lia|lia]. apply elem_of_referenced. by exists meta.
Qed.
End merge.

Lemma compact_prepare_ok d v m c t inputs :
  version_inv d m v c → version_fits v c → tiers v !! t = Some inputs → (2 ≤ length inputs)%nat →
  m !! table_path d (next_table_id v) = None →
  ∃ m1 v' c', compact_prepare d v t m = (Ok v', m1) ∧
    staged d m v c m1 v' c' ∧
    same_live (tview c (tiers v)) (tview c' (tiers v')) ∧
    (∀ kv, kv ∈ concat (tlists c' (tiers v')) → kv ∈ concat (tlists c (tiers v))) ∧
    tweight c' (tiers v') ≤ tweight c (tiers v) ∧ next_seq v' = next_seq v ∧
    next_table_id v' + blen (all_tables v') ≤ next_table_id v + blen (all_tables v) ∧
    blen (all_tables v') + blen inputs ≤ blen (all_tables v) + 1.
Proof.
  intros Hv Hfit Ht Hlen Hfree. pose proof Hfit as (Hw & Hid1 & Hid & Hseq). pose proof (merge_id_room v c Hfit).
  destruct (compact_prepare_run d v m c t inputs Hv Hfit Ht Hfree) as (bs & Hrun & Hh).
  destruct (merge_version_ok d v m c t inputs Hv Hfit Ht bs Hh) as [Hv' Htl].
  set (m1 := <[table_path d (next_table_id v) := bs]> m) in *.
  pose proof (merge_weight v c t inputs Ht Htl) as Hw'. pose proof (merge_version_seq v c t inputs) as Hseq'.
  destruct (merge_count v c t inputs Hfit Ht) as [Hcount Hroom]. pose proof (merge_version_id v c t inputs Hfit) as Hid'.
  assert (2 ≤ blen inputs) by (unfold blen; lia).
  exists m1, (merge_version v c t inputs), (merge_contents v c t inputs). split; [exact Hrun|].
  split_and!; [|by eapply merge_live_over|by apply merge_sub|exact Hw'|done|lia|done].
  split; [done|split_and!; [lia|destruct (merge_table _ _ _ _); lia|lia|lia|lia]|destruct (merge_table _ _ _ _); lia|..].
  - intros p Hp. unfold m1. by rewrite lookup_insert_ne.
  - intros i. by eapply merge_refs.
  - intros Hnext Hids i Hi. unfold m1. rewrite lookup_insert_ne; [apply Hids; lia|].
    intros Eq. apply table_path_inj in Eq; lia.
Qed.
Lemma compact_tier_plan mf m c t inputs :
  manifest_inv mf m c → version_fits (version (current mf)) c →
  tiers (version (current mf)) !! t = Some inputs → (2 ≤ length inputs)%nat →
  let v := version (current mf) in
  ∃ m1 v' c', compact_prepare (dir mf) v t m = (Ok v', m1) ∧
    staged (dir mf) m v c m1 v' c' ∧
    same_live (tview c (tiers v)) (tview c' (tiers v')) ∧
    (∀ kv, kv ∈ concat (tlists c' (tiers v')) → kv ∈ concat (tlists c (tiers v))) ∧
    tweight c' (tiers v') ≤ tweight c (tiers v) ∧ next_seq v' = next_seq v ∧
    next_table_id v' + blen (all_tables v') ≤ next_table_id v + blen (all_tables v) ∧
    blen (all_tables v') + blen inputs ≤ blen (all_tables v) + 1.
Proof.
  intros [Hc Hfree] Hfit Ht Hlen v. pose proof Hfit as (_ & ? & ? & _). pose proof (blen_nonneg (all_tables (version (current mf)))).
  apply (compact_prepare_ok _ _ _ _ _ inputs); [apply (mi_version _ _ _ Hc)|done..|]. apply Hfree. unfold v. lia.
Qed.

(** Installing what was staged. *)
Lemma install_staged mf m c m1 v' c' :
  manifest_core mf m c → 1 ≤ next_table_id (version (current mf)) < 2 ^ 64 →
  staged (dir mf) m (version (current mf)) c m1 v' c' →
  ∃ mf' m', install v' (mf, m1) = (Ok (), (mf', m')) ∧ manifest_inv mf' m' c' ∧
    dir mf' = dir mf ∧ version (current mf') = v' ∧ pins mf' = pins mf ∧
    (∀ p, foreign (dir mf) p → m' !! p = m !! p) ∧
    (∀ i, i ∈ referenced_ids v' → m' !! table_path (dir mf) i = m1 !! table_path (dir mf) i) ∧
    (∀ i, i ∈ referenced_ids v' → i < next_table_id (version (current mf)) →
       m' !! table_path (dir mf) i = m !! table_path (dir mf) i).
Proof.
  intros Hmi Hid []. set (v := version (current mf)) in *. pose proof (mi_version _ _ _ Hmi) as Hv. fold v in Hv.
  destruct (install_inv mf m1 c' v' sg_version0) as (mf' & m' & Hi & Hmi' & Hdir' & Hcur' & Hpins' & Hfor & Href).
  { by apply (version_inv_ok (dir mf) m1 v' c'). }
  { intros r i Hr Hi. assert (i < next_table_id v); [|lia].
    apply elem_of_cons in Hr as [->|Hr]; [|by apply (mi_obsolete _ _ _ Hmi r)].
    apply elem_of_referenced in Hi as (meta & Hm & <-). by apply (vi_bound _ _ _ _ Hv). }
  exists mf', m'. split_and!; try done.
  - intros p Hp. rewrite Hfor by done. apply sg_files0. apply (foreign_not_table _ _ _ Hp). lia.
  - intros i Hi' Hlt. rewrite Href by done. apply sg_files0. destruct (sg_refs0 i Hi' Hlt) as (_ & _ & H0).
    intros Eq. apply table_path_inj in Eq; lia.
Qed.

Lemma compact_tier_ok mf m c t inputs :
  manifest_inv mf m c → version_fits (version (current mf)) c →
  tiers (version (current mf)) !! t = Some inputs → (2 ≤ length inputs)%nat →
  ∃ mf' m' c', compact_tier (version (current mf)) t (mf, m) = (Ok (), (mf', m')) ∧
    compacted_to mf m c mf' m' c' ∧
    blen (all_tables (version (current mf'))) + blen inputs ≤ blen (all_tables (version (current mf))) + 1 ∧
    (∀ i, i ∈ referenced_ids (version (current mf')) → i < next_table_id (version (current mf)) →
          i ∈ referenced_ids (version (current mf))).
Proof.
  intros Hmi Hfit Ht Hlen. pose proof Hfit as (_ & Hid1 & Hid & _). pose proof (blen_nonneg (all_tables (version (current mf)))).
  destruct (compact_tier_plan mf m c t inputs Hmi Hfit Ht Hlen)
    as (m1 & v' & c' & Hrun & Hsg & Hlive & Hsub & Hw & Hseq & Hroom & Hcount).
  destruct (install_staged mf m c m1 v' c') as (mf' & m' & Hi & Hmi' & Hdir' & Hcur' & Hpins' & Hfor & _ & Hold);
    [by destruct Hmi|lia|done|].
  exists mf', m', c'. split.
  { rewrite compact_tier_split. erewrite bind_ok by by apply on_snd_run. by apply map_err_ok. }
  destruct Hsg.
  split; [|split; [by rewrite Hcur'|rewrite Hcur'; intros i Hi' Hlt; by apply (sg_refs0 i)]].
  split; rewrite ?Hcur'; try done.
  - intros a. unfold pin_count. by rewrite Hpins'.
  - intros i Hi' Hlt. destruct (sg_refs0 i Hi' Hlt) as (_ & ? & _). split; [by apply Hold|done].
Qed.

(** ** Taking a step, if one is due *)

Lemma find_tier_Some v fanout t :
  find_tier v fanout = Some t → 1 ≤ fanout →
  ∃ inputs, tiers v !! t = Some inputs ∧ fanout ≤ blen inputs.
Proof.
  unfold find_tier. intros ([i x] & (E & Hf & _)%list_find_Some & Ht)%fmap_Some Hpos. simpl in Ht. subst i.
  apply lookup_seq in E as [-> _]. simpl in Hf. unfold tier_len in Hf.
  destruct (tiers v !! t) as [tier|]; [|lia]. by exists tier.
Qed.

Lemma find_tier_None v fanout t inputs :
  find_tier v fanout = None → tiers v !! t = Some inputs → blen inputs < fanout.
Proof.
  unfold find_tier. intros E%fmap_None Ht. rewrite list_find_None, Forall_forall in E.
  pose proof (lookup_lt_Some _ _ _ Ht). specialize (E t). unfold tier_len, num_tiers in E. rewrite Ht in E.
  unfold blen. assert (t ∈ List.seq 0 (length (tiers v))) as Hin%E by (apply list_elem_of_In, in_seq; lia). lia.
Qed.

(** Pinning a version does not touch what the invariant is about. *)
Lemma manifest_inv_pin a mf m c : manifest_inv (pin a mf) m c ↔ manifest_inv mf m c.
Proof. split; by intros [[? ? ?] ?]. Qed.
Lemma manifest_inv_unpin a mf m c : manifest_inv (unpin a mf) m c ↔ manifest_inv mf m c.
Proof. split; by intros [[? ? ?] ?]. Qed.
Lemma pin_count_pin a b mf : pin_count (pin a mf) b = (if decide (a = b) then S (pin_count mf a) else pin_count mf b).
Proof. unfold pin_count. simpl. rewrite lookup_insert. by case_decide. Qed.
Lemma pin_count_unpin a b mf : pin_count (unpin a mf) b = (if decide (a = b) then pred (pin_count mf a) else pin_count mf b).
Proof. unfold pin_count. simpl. rewrite lookup_insert. by case_decide. Qed.

(** What the caller that pins around a step sees of it. *)
Lemma compacted_to_pinned a mf m c mf' m' c' :
  compacted_to (pin a mf) m c mf' m' c' → compacted_to mf m c (unpin a mf') m' c'.
Proof.
  intros []. split; try done; [by apply manifest_inv_unpin|]. intros b.
  rewrite pin_count_unpin, !ct_pins0, !pin_count_pin. repeat case_decide; try done. by subst.
Qed.

Lemma maybe_compact_ok mf m c fanout :
  2 ≤ fanout → manifest_inv mf m c → version_fits (version (current mf)) c →
  ∃ b mf' m' c', maybe_compact fanout (mf, m) = (Ok b, (mf', m')) ∧ compacted_to mf m c mf' m' c' ∧
    (∀ i, i ∈ referenced_ids (version (current mf')) → i < next_table_id (version (current mf)) →
          i ∈ referenced_ids (version (current mf))) ∧
    if b : bool then blen (all_tables (version (current mf'))) < blen (all_tables (version (current mf)))
    else ∀ t inputs, tiers (version (current mf')) !! t = Some inputs → blen inputs < fanout.
Proof.
  intros Hf Hmi Hfit. unfold maybe_compact, with_current. set (a := arc_id (current mf)).
  destruct (find_tier (version (current mf)) fanout) as [t|] eqn:Ht.
  - apply find_tier_Some in Ht as (inputs & Ht & Hlen); [|lia].
    destruct (compact_tier_ok (pin a mf) m c t inputs) as (mf' & m' & c' & Hc & Hct & Hcount & Href);
      [by apply manifest_inv_pin|done|done|unfold blen in Hlen; lia|].
    erewrite bind_ok by exact Hc. exists true, (unpin a mf'), m', c'. split; [done|].
    split; [by apply compacted_to_pinned|]. split; [done|].
    change (version (current (unpin a mf'))) with (version (current mf')).
    change (version (current (pin a mf))) with (version (current mf)) in Hcount. lia.
  - exists false, (unpin a (pin a mf)), m, c. split; [done|].
    split; [by apply compacted_to_pinned, compacted_to_refl, manifest_inv_pin|]. split; [done|].
    intros t inputs. by apply find_tier_None.
Qed.

Lemma compacted_to_fits mf m c mf' m' c' :
  compacted_to mf m c mf' m' c' → version_fits (version (current mf)) c →
  version_fits (version (current mf')) c'.
Proof.
  intros [] (H1 & H2 & H3 & H4). split_and!; [lia..| |]; rewrite ct_seq0; lia.
Qed.

(** The cascade ends, with no tier left to merge. *)
Fixpoint cascade {S} `{!Storage.Storage S} (fuel : nat) (fanout : Z) : M (Manifest.Manifest * S) CompactionError () :=
  match fuel with
  | O => panic
  | Datatypes.S fuel' => again ← maybe_compact fanout; if again : bool then cascade fuel' fanout else mret ()
  end.

Lemma cascade_ok fuel mf m c fanout :
  2 ≤ fanout → manifest_inv mf m c → version_fits (version (current mf)) c →
  blen (all_tables (version (current mf))) < Z.of_nat fuel →
  ∃ mf' m' c', cascade fuel fanout (mf, m) = (Ok (), (mf', m')) ∧ compacted_to mf m c mf' m' c' ∧
    (∀ i, i ∈ referenced_ids (version (current mf')) → i < next_table_id (version (current mf)) →
          i ∈ referenced_ids (version (current mf))) ∧
    ∀ t inputs, tiers (version (current mf')) !! t = Some inputs → blen inputs < fanout.
Proof.
  intros Hf. revert mf m c. induction fuel as [|fuel IH]; intros mf m c Hmi Hfit Hfuel.
  { pose proof (blen_nonneg (all_tables (version (current mf)))). lia. }
  destruct (maybe_compact_ok mf m c fanout Hf Hmi Hfit) as (b & mf1 & m1 & c1 & Hm & Hct & Href & Hb).
  simpl. erewrite bind_ok by exact Hm. destruct b; [|by exists mf1, m1, c1].
  destruct (IH mf1 m1 c1) as (mf2 & m2 & c2 & Hc & Hct2 & Href2 & Hend);
    [by destruct Hct|by eapply compacted_to_fits|lia|].
  pose proof (ct_ids _ _ _ _ _ _ Hct). pose proof (ct_ids _ _ _ _ _ _ Hct2).
  exists mf2, m2, c2. split; [done|]. split; [|split; [|done]].
  - by eapply compacted_to_trans.
  - intros i Hi Hlt. apply Href; [|done]. apply Href2; [done|lia].
Qed.
End spec.

(** * Transport *)

Section sims.
Context `{!Crc32, !Xxh3} {S S2 : Type} {ST : Storage.Storage S} {ST2 : Storage.Storage S2} {SD : Deaths S S2} {SS : StorageSim S S2}.
Abbreviation V := (st_view (S:=S) (S2:=S2)).
Lemma write_table_sim p i n l : msim V (write_table (S:=S) p i n l) (write_table p i n l).
Proof. unfold write_table, write_entry. solve_msim. Qed.
Lemma read_all_entries_sim r : msim V (read_all_entries (S:=S) r) (read_all_entries r).
Proof. unfold read_all_entries. solve_msim. Qed.
Hint Resolve write_table_sim read_all_entries_sim : msim.
Lemma open_inputs_sim d metas acc :
  msim V (fold_m metas acc (open_input (S:=S) d)) (fold_m metas acc (open_input d)).
Proof. unfold open_input. solve_msim. Qed.
Lemma compact_prepare_sim d v t : msim V (compact_prepare (S:=S) d v t) (compact_prepare d v t).
Proof. unfold compact_prepare, open_input. solve_msim. Qed.
Lemma compact_tier_sim v t : msim (with_same V) (compact_tier (S:=S) v t) (compact_tier v t).
Proof. unfold compact_tier, open_input. solve_msim. Qed.
Lemma with_current_sim {E A} (f1 : Version → M (Manifest.Manifest * S) E A) f2 :
  (∀ v, msim (with_same V) (f1 v) (f2 v)) →
  msim (with_same V) (with_current f1) (with_current f2).
Proof.
  intros Hf. apply (msim_wrapped _ (λ mf, pin (arc_id (current mf)) mf) (λ mf, unpin (arc_id (current mf)))
    (λ mf, f1 (version (current mf))) (λ mf, f2 (version (current mf)))). intros mf. apply Hf.
Qed.
Hint Resolve compact_tier_sim : msim.
Lemma maybe_compact_sim n : msim (with_same V) (maybe_compact (S:=S) n) (maybe_compact n).
Proof. apply with_current_sim. intros v. solve_msim. Qed.
End sims.
#[global] Hint Resolve write_table_sim maybe_compact_sim : msim.

End CompactionSpec.
