(* ===== verification/RecordSpec.v ===== *)
(** The WAL record codec of [src/db.rs]: what [encode_record] writes,
    [decode_record] reads back, and no input makes the decoder panic. *)
From Stdlib Require Import Strings.String.
From S2P Require Export Db ManifestSpec.

Module RecordSpec.
Import SsFormat Manifest ManifestSpec Memtable Db.

(** A record whose fields fit their widths. *)
Definition record_ok (seq : Z) (kv : bytes * ValueKind) : Prop :=
  0 ≤ seq < 2 ^ 64 ∧ blen kv.1 < 2 ^ 32 ∧
  match kv.2 with Value v => blen v < 2 ^ 32 | Tombstone => True end.

Lemma rec_take_at n pre mid post :
  n = blen mid → rec_take n (cur_at pre (mid ++ post)) = (Ok mid, cur_at (pre ++ mid) post).
Proof.
  intros ->. unfold rec_take. fold (remaining (cur_at pre (mid ++ post))).
  rewrite remaining_at, blen_app. pose proof (blen_nonneg post).
  rewrite decide_False by lia. unfold cur_at. simpl. rewrite slice_app by done.
  by rewrite <- (assoc_L (++)), blen_app.
Qed.

(** A length-prefixed field, the prefix and then the bytes. *)
Lemma rec_field_at {A} b pre post (f : bytes → M Cursor DbError A) :
  blen b < 2 ^ 32 →
  (n ← rec_take 4; x ← rec_take (of_le n); f x) (cur_at pre (le32 (u32_wrap (blen b)) ++ b ++ post)) =
  f b (cur_at (pre ++ le32 (u32_wrap (blen b)) ++ b) post).
Proof.
  intros Hb. pose proof (blen_nonneg b).
  erewrite bind_ok by (apply rec_take_at; by rewrite blen_le32).
  erewrite bind_ok.
  2:{ apply rec_take_at. rewrite of_le_le32, !u32_wrap_id by (rewrite ?u32_wrap_id; lia). done. }
  by rewrite <- (assoc_L (++)).
Qed.

Lemma decode_encode_record_app q k kind rest :
  record_ok q (k, kind) →
  decode_record (encode_record q k kind ++ rest) = Ok (mkRec q k (mkValue q kind)).
Proof.
  intros (Hq & Hk & Hv). cbn [fst snd] in Hk, Hv. unfold decode_record, decode_record_body.
  change (cursor_new ?b) with (cur_at [] b). unfold encode_record.
  rewrite <- (assoc_L (++)). erewrite bind_ok by (apply rec_take_at; by rewrite blen_le64).
  rewrite of_le_le64, u64_wrap_id by done.
  destruct kind as [v|].
  - rewrite <- app_comm_cons. change (?t :: ?l) with ([t] ++ l) at 1.
    erewrite bind_ok by by apply rec_take_at. erewrite bind_ok by done.
    rewrite <- !(assoc_L (++)), rec_field_at by done. cbn beta.
    rewrite decide_True by done.
    erewrite bind_ok; [done|]. rewrite rec_field_at by done. done.
  - rewrite <- app_comm_cons. change (?t :: ?l) with ([t] ++ l) at 1.
    erewrite bind_ok by by apply rec_take_at. erewrite bind_ok by done.
    rewrite <- !(assoc_L (++)), rec_field_at by done. cbn beta.
    by rewrite decide_False, decide_True by done.
Qed.

Lemma decode_encode_record q k kind :
  record_ok q (k, kind) → decode_record (encode_record q k kind) = Ok (mkRec q k (mkValue q kind)).
Proof. rewrite <- (app_nil_r (encode_record q k kind)). apply decode_encode_record_app. Qed.

Lemma blen_record q k kind :
  blen (encode_record q k kind) =
  13 + blen k + match kind with Value v => 4 + blen v | Tombstone => 0 end.
Proof.
  unfold encode_record. destruct kind; rewrite !blen_app, ?blen_cons, !blen_app, blen_le64, !blen_le32; lia.
Qed.

(** ** What the decoder accepts *)

Lemma rec_take_exact n : 0 ≤ n → exactly (rec_take n) (λ b, b) (λ b, blen b = n).
Proof.
  intros Hn pre rest b c E. destruct (decide (blen rest < n)) as [Hlt|Hge].
  { unfold rec_take in E. fold (remaining (cur_at pre rest)) in E. by rewrite remaining_at, decide_True in E. }
  rewrite <- (take_drop (Z.to_nat n) rest) in E |- *. set (mid := take _ rest) in *.
  assert (Hlen : blen mid = n) by (subst mid; unfold blen in *; rewrite length_take; lia).
  rewrite rec_take_at in E by done. injection E as <- <-. by eexists.
Qed.
Lemma rec_field_exact : exactly (n ← rec_take 4; rec_take (of_le n)) put_bytes (λ b, blen b < 2 ^ 32).
Proof.
  intros pre rest b c (n & c1 & E & E2)%bind_ok_inv. apply rec_take_exact in E as (post & -> & -> & Hn); [|done].
  pose proof (of_le_range n) as Hr. rewrite Hn in Hr. apply rec_take_exact in E2 as (post2 & -> & -> & Hb); [|lia].
  exists post2. unfold put_bytes. rewrite Hb, u32_wrap_id by done. unfold blen in Hn.
  assert (En : le32 (of_le n) = n) by (apply (of_le_inj 4); lia). rewrite En, <- !(assoc_L (++)). split_and!; [done|done|lia].
Qed.
Lemma encode_record_alt q k kind :
  encode_record q k kind =
  le64 q ++ [byte.of_Z (match kind with Value _ => REC_TAG_PUT | Tombstone => REC_TAG_DELETE end)] ++ put_bytes k ++
    match kind with Value v => put_bytes v | Tombstone => [] end.
Proof. unfold encode_record, put_bytes. destruct kind; cbn [app]; rewrite <- ?(assoc_L (++)), ?app_nil_r; done. Qed.

(** the record decoder accepts exactly the buffers that start with the encoding of a sequence
    number, key and value that fit their fields, and returns those. *)
Theorem record_decode_exact b r :
  decode_record b = Ok r ↔
  ∃ q k kind rest, record_ok q (k, kind) ∧ b = encode_record q k kind ++ rest ∧ r = mkRec q k (mkValue q kind).
Proof.
  split; [|by intros (q & k & kind & rest & Hok & -> & ->); apply decode_encode_record_app].
  unfold decode_record. rewrite cursor_new_at. destruct (decode_record_body (cur_at [] b)) as [res c] eqn:E. cbn. intros ->.
  unfold decode_record_body in E. apply bind_ok_inv in E as (bq & c1 & E1 & E). apply bind_ok_inv in E as (bt & c2 & E2 & E).
  apply bind_ok_inv in E as (tag & c3 & E3 & E). rewrite <- bind_assoc in E. apply bind_ok_inv in E as (k & c4 & E4 & E).
  apply bind_ok_inv in E as (kind & c5 & E5 & [= <- <-]).
  apply rec_take_exact in E1 as (p1 & -> & -> & Hq); [|done]. apply rec_take_exact in E2 as (p2 & -> & -> & Ht); [|done].
  destruct bt as [|t [|t' bt]]; [done| |unfold blen in Ht; cbn in Ht; lia]. cbn in E3. injection E3 as <- <-.
  apply rec_field_exact in E4 as (p3 & -> & -> & Hk).
  pose proof (of_le_range bq) as Hr. rewrite Hq in Hr. unfold blen in Hq.
  assert (Eq : le64 (of_le bq) = bq) by (apply (of_le_inj 8); lia).
  assert (Hkind : ∃ p4, p3 = match kind with Value v => put_bytes v | Tombstone => [] end ++ p4 ∧
    t = byte.of_Z (match kind with Value _ => REC_TAG_PUT | Tombstone => REC_TAG_DELETE end) ∧
    match kind with Value v => blen v < 2 ^ 32 | Tombstone => True end).
  { case_decide as Hput; [|case_decide as Hdel; [|done]].
    - rewrite <- bind_assoc in E5. apply bind_ok_inv in E5 as (v & c6 & E6 & [= <- <-]).
      apply rec_field_exact in E6 as (p4 & -> & _ & Hv). exists p4. rewrite <- Hput, byte.of_Z_unsigned. done.
    - injection E5 as <- <-. exists p3. rewrite <- Hdel, byte.of_Z_unsigned. done. }
  destruct Hkind as (p4 & -> & -> & Hv). exists (of_le bq), k, kind, p4. split_and!; [|by rewrite encode_record_alt, Eq, <- !(assoc_L (++))|done].
  split; [exact Hr|]. by split.
Qed.
End RecordSpec.
