(* ===== verification/Robust.v ===== *)
(** Decoding untrusted bytes: on any file contents the readers of the table
    footer, index, filter and blocks, of the manifest and of the log's records
    return a value or an error, and never panic; a reader that did open never
    panics on a lookup either. *)
From Stdlib Require Import Strings.String.
From S2P Require Export SsTableBuild RecordSpec.

Module Robust.
Import SsFormat.

(** * Cursors *)

(** In bounds, with at most [R] bytes left. *)
Definition cursor_ok (R : Z) (c : Cursor) : Prop := 0 ≤ pos c ≤ blen (buf c) ∧ remaining c ≤ R.

Lemma slice_take {E} (b : bytes) lo n :
  0 ≤ lo → 0 ≤ n → lo + n ≤ blen b → ∃ out, slice (E:=E) b lo (lo + n) = Ok out ∧ blen out = n.
Proof.
  intros H1 H2 H3. destruct (slice_ok (E:=E) b lo (lo + n)) as (pre & mid & post & Hs & Hb & Hl & Hm); [lia..|].
  exists mid. split; [done|]. lia.
Qed.

(** The shape all three bounds-checked reads share. *)
Lemma bounded_take_ok {E} R n (e : E) (c : Cursor) :
  0 ≤ n → cursor_ok R c →
  let r := if decide (blen (buf c) - pos c < n) then (Err e, c)
           else match slice (E:=E) (buf c) (pos c) (pos c + n) with
                | Ok out => (Ok out, mkCursor (buf c) (pos c + n))
                | r => (r, c)
                end in
  cursor_ok R r.2 ∧ match r.1 with Ok b => blen b = n ∧ cursor_ok (R - n) r.2 | Err _ => True | Panic => False end.
Proof.
  intros Hn [[H1 H2] H3]. unfold remaining in H3. case_decide as Hd; [done|].
  destruct (slice_take (E:=E) (buf c) (pos c) n) as (out & -> & Hl); [lia..|].
  split; [|split; [done|]]; (split; [split|]); unfold remaining; simpl; lia.
Qed.

Lemma of_le_nonneg b : 0 ≤ of_le b.
Proof. apply of_le_range. Qed.
Hint Resolve of_le_nonneg : core.

Abbreviation bytes_of n := (λ b : bytes, blen b = n).

Section cursors.
Context (R : Z).

Lemma cur_take_safe n : 0 ≤ n → calm (cursor_ok R) (bytes_of n) (cur_take n).
Proof.
  intros Hn c Hc. destruct (bounded_take_ok R n (Corrupt (UnexpectedEnd n (remaining c))) c Hn Hc) as [H1 H2].
  split; [exact H1|]. unfold cur_take, remaining in *. case_decide; [done|].
  destruct (slice _ _ _); [apply H2|done..].
Qed.
Lemma cur_u32_safe : calm (cursor_ok R) (λ z, 0 ≤ z < 2 ^ 32) cur_u32.
Proof.
  apply (calm_bind _ (bytes_of 4)); [by apply cur_take_safe|]. intros b Hb. apply calm_ret.
  pose proof (of_le_range b) as H. by rewrite Hb in H.
Qed.
Lemma cur_u64_safe : calm (cursor_ok R) (λ z, 0 ≤ z < 2 ^ 64) cur_u64.
Proof.
  apply (calm_bind _ (bytes_of 8)); [by apply cur_take_safe|]. intros b Hb. apply calm_ret.
  pose proof (of_le_range b) as H. by rewrite Hb in H.
Qed.
Lemma first_byte (b : bytes) : blen b = 1 → ∃ x, b !! 0%nat = Some x.
Proof. destruct b; [done|]. by eexists. Qed.
Lemma cur_u8_safe : calm (cursor_ok R) any cur_u8.
Proof.
  apply (calm_bind _ (bytes_of 1)); [by apply cur_take_safe|]. intros b Hb.
  apply (calm_bind _ any); [|intros x _; by apply calm_ret].
  apply calm_expect. destruct (first_byte b Hb) as [x Hx]. eauto.
Qed.
End cursors.

Lemma cursor_new_ok b : cursor_ok (blen b) (cursor_new b).
Proof. pose proof (blen_nonneg b). unfold cursor_ok, remaining. simpl. lia. Qed.
(** Running a decoder on a buffer. *)
Lemma calm_run {E A} (Q : A → Prop) (m : M Cursor E A) b :
  (∀ R, calm (cursor_ok R) Q m) →
  match (m (cursor_new b)).1 with Ok a => Q a | Err _ => True | Panic => False end.
Proof. intros Hm. apply (Hm _ _ (cursor_new_ok b)). Qed.

(** * Log records *)

Lemma rec_take_safe R n : 0 ≤ n → calm (cursor_ok R) (bytes_of n) (Db.rec_take n).
Proof.
  intros Hn c Hc. destruct (bounded_take_ok R n (Db.SsTable (SsFormat.Corrupt WalRecordTruncated)) c Hn Hc) as [H1 H2].
  split; [exact H1|]. unfold Db.rec_take in *. case_decide; [done|]. destruct (slice _ _ _); [apply H2|done..].
Qed.
Lemma decode_record_calm b : Db.decode_record b ≠ Panic.
Proof.
  assert (H : ∀ R, calm (cursor_ok R) any Db.decode_record_body).
  { intros R. unfold Db.decode_record_body. apply (calm_bind _ (bytes_of 8)); [by apply rec_take_safe|]. intros b8 _.
    apply (calm_bind _ (bytes_of 1)); [by apply rec_take_safe|]. intros b1 Hb1.
    apply (calm_bind _ any); [apply calm_expect; destruct (first_byte b1 Hb1); eauto|]. intros tag _.
    apply (calm_bind _ (bytes_of 4)); [by apply rec_take_safe|]. intros b4 _.
    eapply calm_bind; [by apply rec_take_safe|]. intros k _.
    apply (calm_bind _ any); [|intros kd _; by apply calm_ret].
    case_decide; [|case_decide; [by apply calm_ret|apply calm_err]].
    apply (calm_bind _ (bytes_of 4)); [by apply rec_take_safe|]. intros b4' _.
    eapply calm_bind; [by apply rec_take_safe|]. intros v _. by apply calm_ret. }
  pose proof (calm_run any _ b H) as Hr. unfold Db.decode_record. by destruct (_ (cursor_new b)).1.
Qed.

(** * The manifest *)

Section manifest.
Context {CRC : Crc32}.
Import Manifest.

Lemma r_take_safe R n : 0 ≤ n → calm (cursor_ok R) (bytes_of n) (r_take n).
Proof.
  intros Hn c Hc. destruct (bounded_take_ok R n (Corrupt (UnexpectedEnd n (blen (buf c) - pos c))) c Hn Hc) as [H1 H2].
  split; [exact H1|]. unfold r_take in *. case_decide; [done|]. destruct (slice _ _ _); [apply H2|done..].
Qed.
Lemma r_u32_safe R : calm (cursor_ok R) (λ z, 0 ≤ z) r_u32.
Proof. apply (calm_bind _ (bytes_of 4)); [by apply r_take_safe|]. intros b _. by apply calm_ret. Qed.
Lemma r_u64_safe R : calm (cursor_ok R) any r_u64.
Proof. apply (calm_bind _ (bytes_of 8)); [by apply r_take_safe|]. intros b _. by apply calm_ret. Qed.
Lemma r_bytes_safe R : calm (cursor_ok R) any r_bytes.
Proof.
  eapply calm_bind; [apply r_u32_safe|]. intros n Hn. eapply calm_weaken; [|by apply r_take_safe]. done.
Qed.
Lemma decode_version_calm b : decode_version b ≠ Panic.
Proof.
  assert (H32 : ∀ R, calm (cursor_ok R) any r_u32) by (intros R; eapply calm_weaken; [|apply r_u32_safe]; done).
  pose proof r_u64_safe. pose proof r_bytes_safe.
  assert (Hm : ∀ R, calm (cursor_ok R) any decode_meta) by (intros R; unfold decode_meta; solve_calm).
  assert (Ht : ∀ R, calm (cursor_ok R) any decode_tier).
  { intros R. unfold decode_tier. apply (calm_bind _ any); [done|]. intros n _.
    eapply calm_weaken; [|by apply (calm_repeat _ any)]. done. }
  assert (Hb : ∀ R, calm (cursor_ok R) any decode_body).
  { intros R. unfold decode_body. apply (calm_bind _ any); [done|]. intros magic _.
    apply (calm_bind _ any); [apply calm_guard|]. intros _ _.
    apply (calm_bind _ any); [done|]. intros fmt _. apply (calm_bind _ any); [apply calm_guard|]. intros _ _.
    do 3 (apply (calm_bind _ any); [done|]; intros ? _).
    apply (calm_bind _ (Forall any)); [by apply calm_repeat|]. intros ts _. by apply calm_ret. }
  unfold decode_version. case_decide; [done|]. pose proof (blen_nonneg b).
  destruct (slice_take (E:=ManifestError) b 0 (blen b - 4)) as (body & Hs & _); [lia..|].
  rewrite Z.add_0_l in Hs. rewrite Hs. cbn [mbind outcome_bind].
  destruct (slice_take (E:=ManifestError) b (blen b - 4) 4) as (crc & Hc & _); [lia..|].
  replace (blen b - 4 + 4) with (blen b) in Hc by lia. rewrite Hc. cbn [mbind outcome_bind].
  case_decide; [done|]. pose proof (calm_run any _ body Hb) as Hr. by destruct (decode_body _).1.
Qed.
End manifest.

(** * Tables *)

Section tables.
Context {CRC : Crc32} {XXH : Xxh3}.
Import SsTable.

(** What [Bloom.decode] lets through is a filter its probes cannot leave. *)
Lemma bloom_decode_safe R : calm (cursor_ok R) Bloom.wf Bloom.decode.
Proof.
  unfold Bloom.decode. eapply calm_bind; [apply cur_u32_safe|]. intros nb Hnb.
  eapply calm_bind; [apply cur_u32_safe|]. intros nh Hnh.
  eapply calm_bind; [apply cur_u64_safe|]. intros len Hlen.
  eapply calm_bind; [apply cur_take_safe; cbn beta in *; lia|]. intros bits Hbits.
  eapply calm_bind; [apply calm_guard_false|]. intros _ H1%bool_decide_eq_false.
  eapply calm_bind; [apply calm_guard_false|]. intros _ H2%bool_decide_eq_false.
  eapply calm_bind; [apply calm_guard_false|]. intros _ H3%bool_decide_eq_false.
  apply calm_ret. cbn beta in *. apply Decidable.not_or in H1 as [H1 H1']. apply dec_stable in H3.
  pose proof (Z.div_mod nb 8 ltac:(done)). pose proof (blen_nonneg bits).
  split; cbn [Bloom.num_bits Bloom.bits Bloom.num_hashes]; lia.
Qed.

Lemma verify_crc_calm b what :
  match verify_crc b what with Ok _ => 4 ≤ blen b | Err _ => True | Panic => False end.
Proof.
  unfold verify_crc. case_decide; [done|]. pose proof (blen_nonneg b).
  destruct (slice_take (E:=SsTableError) b 0 (blen b - 4)) as (body & Hs & _); [lia..|].
  rewrite Z.add_0_l in Hs. rewrite Hs. cbn [mbind outcome_bind].
  destruct (slice_take (E:=SsTableError) b (blen b - 4) 4) as (crc & Hc & _); [lia..|].
  replace (blen b - 4 + 4) with (blen b) in Hc by lia. rewrite Hc. cbn [mbind outcome_bind].
  case_decide; [done|lia].
Qed.
Lemma body_calm (b : bytes) : 4 ≤ blen b → match slice (E:=SsTableError) b 0 (blen b - 4) with Ok _ => True | _ => False end.
Proof.
  intros Hb. destruct (slice_take (E:=SsTableError) b 0 (blen b - 4)) as (body & Hs & _); [lia..|].
  rewrite Z.add_0_l in Hs. by rewrite Hs.
Qed.

Lemma decode_handle_safe R : calm (cursor_ok R) any decode_handle.
Proof.
  unfold decode_handle. eapply calm_bind; [apply cur_u32_safe|]. intros n Hn.
  eapply calm_bind; [apply cur_take_safe; cbn beta in *; lia|]. intros k _.
  eapply calm_bind; [apply cur_u64_safe|]. intros o _.
  eapply calm_bind; [apply cur_u32_safe|]. intros l _. by apply calm_ret.
Qed.
Lemma decode_index_calm (b : bytes) : 4 ≤ blen b → decode_index b ≠ Panic.
Proof.
  intros Hb. pose proof (body_calm b Hb) as Hs. unfold decode_index.
  destruct (slice b 0 (blen b - 4)) as [body| |]; [|done..]. cbn [mbind outcome_bind].
  assert (H : ∀ R, calm (cursor_ok R) (Forall any) (count ← cur_u32; repeat_m (Z.to_nat count) decode_handle)).
  { intros R. eapply calm_bind; [apply cur_u32_safe|]. intros n _. apply calm_repeat, decode_handle_safe. }
  pose proof (calm_run _ _ body H) as Hr. by destruct (_ (cursor_new body)).1.
Qed.

Lemma calm_out {S E A} (I : S → Prop) (m : M S E A) c :
  calm I any m → I c → match m c with (Ok _, c') => I c' | (Err _, _) => True | (Panic, _) => False end.
Proof. intros Hm Hc. destruct (Hm c Hc) as [H1 H2]. by destruct (m c) as [[] c']. Qed.

(** A decoded entry consumed bytes, so the block loop's fuel suffices. *)
Lemma decode_entry_safe R c :
  cursor_ok R c →
  match decode_entry c with (Ok _, c') => cursor_ok (R - 4) c' | (Err _, _) => True | (Panic, _) => False end.
Proof.
  intros Hc. unfold decode_entry, cur_u32 at 2. rewrite bind_assoc, bind_run.
  destruct (bounded_take_ok R 4 (Corrupt (UnexpectedEnd 4 (remaining c))) c ltac:(done) Hc) as [_ H2].
  unfold cur_take at 1. unfold remaining in *. case_decide; [done|].
  destruct (slice (buf c) (pos c) (pos c + 4)) as [b| |]; [|done..]. destruct H2 as [Hb Hc'].
  rewrite bind_ret. set (c1 := mkCursor _ _) in *. clearbody c1. clear Hb.
  assert (Hrest : calm (cursor_ok (R - 4)) any (
    key ← cur_take (of_le b); q ← cur_u64; tag ← cur_u8;
    value ← (if decide (tag = TAG_PUT) then vlen ← cur_u32; v ← cur_take vlen; mret (Put v)
             else if decide (tag = TAG_DELETE) then mret Delete
             else err (Corrupt (UnknownValueTag tag)));
    mret (mkEntry key q value))).
  { eapply calm_bind; [by apply cur_take_safe|]. intros k _.
    eapply calm_bind; [apply cur_u64_safe|]. intros q _. eapply calm_bind; [apply cur_u8_safe|]. intros tag _.
    apply (calm_bind _ any); [|intros v _; by apply calm_ret].
    case_decide; [|case_decide; [by apply calm_ret|apply calm_err]].
    eapply calm_bind; [apply cur_u32_safe|]. intros n Hn.
    eapply calm_bind; [apply cur_take_safe; cbn beta in *; lia|]. intros v _. by apply calm_ret. }
  exact (calm_out _ _ _ Hrest Hc').
Qed.

Lemma decode_block_calm b : decode_block b ≠ Panic.
Proof.
  unfold decode_block.
  assert (H : ∀ fuel R c, cursor_ok R c → R < Z.of_nat fuel → (decode_block_loop fuel c).1 ≠ Panic).
  { intros fuel. induction fuel as [|fuel IH]; intros R c Hc Hf.
    { destruct Hc as [[? ?] Hr]. unfold remaining in Hr. lia. }
    simpl. rewrite bind_run. cbn [get_state]. case_decide; [|done]. rewrite bind_run.
    pose proof (decode_entry_safe R c Hc) as He. destruct (decode_entry c) as [[e|e|] c']; [|done..].
    rewrite bind_run. specialize (IH (R - 4) c' He ltac:(lia)).
    by destruct (decode_block_loop fuel c') as [[] ?]. }
  apply (H _ (blen b)); [apply cursor_new_ok|unfold blen; lia].
Qed.

(** ** Opening and looking up *)

Abbreviation calmly := (calm (S:=memfs) (λ _, True)).

Lemma mem_file_calm {A} (Q : A → Prop) (p : path) (f : bytes → M memfs StorageError A) :
  (∀ b, calmly Q (f b)) → calmly Q (mem_file p f).
Proof. intros Hf m _. unfold mem_file. destruct (m !! p); [by apply Hf|done]. Qed.

Lemma read_exact_calm p o n : calmly (bytes_of n) (read_exact p o n).
Proof.
  unfold read_exact. apply (calm_bind _ any).
  - apply calm_map_err, mem_file_calm. intros b. case_decide; [apply calm_err|by apply calm_ret].
  - intros b _. case_decide; [apply calm_err|]. apply calm_ret. lia.
Qed.

Definition reader_ok (r : SsTableReader) : Prop := Bloom.wf (r_bloom r).

Lemma reader_open_calm p : calmly reader_ok (reader_open p).
Proof.
  unfold reader_open. apply (calm_bind _ any).
  { apply calm_map_err, mem_file_calm. intros b. by apply calm_ret. }
  intros len _. apply (calm_bind _ any); [apply calm_guard|]. intros _ _.
  eapply calm_bind; [apply read_exact_calm|]. intros footer _.
  eapply (calm_bind _ any); [apply calm_of_outcome; pose proof (verify_crc_calm footer "footer"); by destruct (verify_crc footer _)|].
  intros _ _. apply (calm_bind _ any).
  { apply calm_of_outcome. apply (calm_run any _ footer). intros R.
    eapply calm_bind; [apply cur_u64_safe|]. intros mg _. apply (calm_bind _ any); [apply calm_guard|]. intros _ _.
    eapply calm_bind; [apply cur_u32_safe|]. intros vs _. apply (calm_bind _ any); [apply calm_guard|]. intros _ _.
    eapply calm_bind; [apply cur_u64_safe|]. intros io _. eapply calm_bind; [apply cur_u32_safe|]. intros il _.
    eapply calm_bind; [apply cur_u64_safe|]. intros bo _. eapply calm_bind; [apply cur_u32_safe|]. intros bn _.
    eapply calm_bind; [apply cur_u64_safe|]. intros ne _. by apply calm_ret. }
  intros [[[[io il] bo] bn] ne] _.
  assert (Hreg : ∀ o n l w, calmly any (of_outcome (check_region o n l w))).
  { intros o n l w. apply calm_of_outcome. unfold check_region. by case_decide. }
  apply (calm_bind _ any); [apply Hreg|]. intros _ _. apply (calm_bind _ any); [apply Hreg|]. intros _ _.
  eapply calm_bind; [apply read_exact_calm|]. intros ib _.
  eapply (calm_bind _ (λ _, 4 ≤ blen ib)); [apply calm_of_outcome, verify_crc_calm|]. intros _ Hib.
  apply (calm_bind _ any).
  { apply calm_of_outcome. pose proof (decode_index_calm ib Hib). by destruct (decode_index ib). }
  intros index _. eapply calm_bind; [apply read_exact_calm|]. intros bb _.
  eapply (calm_bind _ (λ _, 4 ≤ blen bb)); [apply calm_of_outcome, verify_crc_calm|]. intros _ Hbb.
  apply (calm_bind _ any); [apply calm_of_outcome; pose proof (body_calm bb Hbb); by destruct (slice bb _ _)|]. intros body _.
  eapply calm_bind; [apply calm_of_outcome, (calm_run Bloom.wf _ body), bloom_decode_safe|]. intros bl Hbl.
  by apply calm_ret.
Qed.

Lemma load_block_calm r i : (i < length (r_index r))%nat → calmly any (load_block r i).
Proof.
  intros Hi. unfold load_block. apply (calm_bind _ any).
  { apply calm_expect. apply lookup_lt_is_Some_2 in Hi as [h Hh]. eauto. }
  intros h _. eapply calm_bind; [apply read_exact_calm|]. intros raw _.
  eapply (calm_bind _ (λ _, 4 ≤ blen raw)); [apply calm_of_outcome, verify_crc_calm|]. intros _ Hraw.
  apply (calm_bind _ any); [apply calm_of_outcome; pose proof (body_calm raw Hraw); by destruct (slice raw _ _)|]. intros body _.
  apply calm_of_outcome. pose proof (decode_block_calm body). by destruct (decode_block body).
Qed.

Lemma binary_search_bound {A} (f : A → comparison) (l : list A) :
  match binary_search_by f l with inl i => is_Some (l !! i) | inr i => (i ≤ length l)%nat end.
Proof.
  unfold binary_search_by. set (base := bsearch_loop _ _ _ _ _). clearbody base.
  destruct (l !! base) as [x|] eqn:E; [|lia]. pose proof (lookup_lt_Some _ _ _ E).
  destruct (f x); [eauto|lia..].
Qed.

Lemma find_block_bound r k i : find_block r k = Some i → (i < length (r_index r))%nat.
Proof.
  unfold find_block. destruct (r_index r) as [|h0 l] eqn:E; [done|]. case_match; [done|]. intros [= <-].
  unfold partition_point. pose proof (binary_search_bound (λ x, if h_first_key x ⪯? k then Lt else Gt) (h0 :: l)) as Hb.
  destruct (binary_search_by _ _) as [j|j]; [apply lookup_lt_is_Some_1 in Hb|]; simpl in *; lia.
Qed.

Lemma get_calm r k : reader_ok r → calmly any (SsTable.get r k).
Proof.
  intros Hr. unfold SsTable.get. destruct (Bloom.contains_ok (E:=SsTableError) (r_bloom r) k Hr) as [present Hp].
  apply (calm_bind _ any); [apply calm_of_outcome; by rewrite Hp|]. intros b _.
  destruct (negb b); [by apply calm_ret|]. destruct (find_block r k) as [i|] eqn:Hf; [|by apply calm_ret].
  apply (calm_bind _ any); [by eapply load_block_calm, find_block_bound|]. intros es _.
  pose proof (binary_search_bound (λ e, cmp (key e) k) es) as Hb.
  destruct (binary_search_by _ es) as [j|]; [|by apply calm_ret].
  apply (calm_bind _ any); [apply calm_expect; destruct Hb; eauto|]. intros e _. by apply calm_ret.
Qed.
End tables.

(** * On every backend *)

Section contract.
Context {CRC : Crc32} {XXH : Xxh3} {S : Type} {ST : Storage.Storage S} {STS : StorageSpec S}.

(** C29: whatever a file holds, opening it as a table returns a reader or an error
    and a lookup through that reader a result or an error; no input makes either
    panic. *)
Theorem table_reader_total s (m : memfs) (p : path) :
  st_view s m →
  match SsTable.reader_open p s with
  | (Ok r, s') => ∀ k, (SsTable.get r k s').1 ≠ Panic
  | (Err _, _) => True
  | (Panic, _) => False
  end.
Proof.
  intros Hv. destruct (msim_at (SsTableBuild.reader_open_sim p) s m Hv) as [H1 H2].
  destruct (reader_open_calm p m Logic.I) as [_ Hc].
  destruct (SsTable.reader_open p s) as [r s'], (SsTable.reader_open p m) as [r2 m']. simpl in *. subst r2.
  destruct r as [r|e|]; [|done..]. intros k. destruct (msim_at (SsTableBuild.get_sim r k) s' m' H2) as [-> _].
  destruct (get_calm r k Hc m' Logic.I) as [_ Hg]. by destruct (SsTable.get r k m').1.
Qed.
End contract.

(** C30: no bytes make the manifest decoder or the record decoder panic. *)
Theorem decoders_total {CRC : Crc32} (b : bytes) :
  Manifest.decode_version b ≠ Panic ∧ Db.decode_record b ≠ Panic.
Proof. split; [apply decode_version_calm|apply decode_record_calm]. Qed.

#[local] Existing Instance Sample.crc.
#[local] Existing Instance Sample.xxh3.

(** A file too short to hold a footer. *)
Lemma table_reader_total_witness :
  match SsTable.reader_open [lit "t"] ({[ [lit "t"] := lit "junk" ]} : memfs) with
  | (Ok r, s') => ∀ k, (SsTable.get r k s').1 ≠ Panic
  | (Err _, _) => True
  | (Panic, _) => False
  end.
Proof. apply (table_reader_total (S:=memfs) {[ [lit "t"] := lit "junk" ]} {[ [lit "t"] := lit "junk" ]}). apply mem_view. Defined.

End Robust.
