(* ===== verification/DbSpec.v ===== *)
(** The engine's invariant: what the log, the write buffer, the tables and the
    manifest of an open database hold, relative to the key-value map it stands
    for, and that every operation keeps it. *)
From Stdlib Require Import Strings.String.
From S2P Require Export CompactionSpec RecordSpec WalFrame MemtableSpec.

Module DbSpec.
Import SsFormat Manifest ManifestSpec Compaction Newest Tables MergeSpec CompactionSpec.
Import Memtable MemtableSpec Recovery WalSpec WalFrame RecordSpec Db.

(** The version of the manifest an engine reads from. *)
Abbreviation ver db := (Manifest.version (current (manifest db))).

(** The log record of a write, and its width conditions. *)
Definition ent (e : Entry) : bytes := encode_record (seq e.2) e.1 (kind e.2).
Definition rec_of (e : Entry) : Rec := mkRec (seq e.2) e.1 e.2.

(** The client's view of a version map: tombstones are absence. *)
Definition live_map (m : kvmap) : gmap bytes bytes := omap as_value m.

Section spec.
Context {CRC : Crc32} {CRCL : Crc32Laws} {XXH : Xxh3}.
Implicit Types (d p : path) (m : memfs) (v : Version) (meta : TableMeta) (c : Z → list Entry)
  (es : list Entry) (db : Db).

(** * The cached readers *)

(** A cached reader is what opening its table now would return. *)
Definition cache_ok d m v (rs : gmap Z SsTable.SsTableReader) : Prop :=
  ∀ i r, rs !! i = Some r → i < next_table_id v ∧
    (i ∈ referenced_ids v → SsTable.reader_open (table_path d i) m = (Ok r, m)).

Lemma reader_open_ext m m' p l r :
  holds_table m p l → m' !! p = m !! p →
  SsTable.reader_open p m = (Ok r, m) → SsTable.reader_open p m' = (Ok r, m').
Proof.
  intros (bs & blks & bl & Hm & Ht & _) E Hr.
  rewrite (SsTableSpec.reader_open_ok p m bs _ blks bl Hm Ht) in Hr.
  rewrite (SsTableSpec.reader_open_ok p m' bs (sst_of <$> l) blks bl); [by simplify_eq|congruence|done].
Qed.

Lemma cache_ok_ext d m m' v c rs :
  version_inv d m v c → (∀ i, i ∈ referenced_ids v → m' !! table_path d i = m !! table_path d i) →
  cache_ok d m v rs → cache_ok d m' v rs.
Proof.
  intros Hv E Hc i r Hi. destruct (Hc i r Hi) as [H1 H2]. split; [done|]. intros Hr.
  pose proof Hr as (meta & Hm & <-)%elem_of_referenced.
  destruct (vi_tables _ _ _ _ Hv meta Hm) as [Ht _].
  eapply reader_open_ext; [exact Ht|by apply E|by apply H2].
Qed.

(** * The invariant *)

(** What the engine needs to read. *)
Record db_core db m c es (u : Z) : Prop := {
  di_wal_dir : Wal.dir (wal db) = dir db;
  di_mf_dir : Manifest.dir (manifest db) = dir db;
  di_durability : Wal.durability (wal db) = durability (options db);
  di_wal : wal_holds (wal db) m (ent <$> es);
  di_mem : map (active (memtables db)) = newest es;
  di_memwf : wf (active (memtables db));
  di_frozen : frozen (memtables db) = [];
  di_manifest : manifest_core (manifest db) m c;
  di_cache : cache_ok (dir db) m (ver db) (readers db);
  di_seqs e : e ∈ es → 0 ≤ seq e.2 < next_seq (write_state db);
  di_newer : newer_than (bt_iter (newest es)) (concat (tlists c (tiers (ver db))));
  di_next_seq : 0 ≤ Manifest.next_seq (ver db) ≤ next_seq (write_state db);
  di_idle : in_flight (write_state db) = 0;
  di_fanout : 2 ≤ tier_fanout (options db);
  (* the budget [u] bounds everything that grows *)
  di_budget : 1 ≤ u ≤ 2 ^ 30;
  di_bytes : weights es + tweight c (tiers (ver db)) ≤ u;
  di_ids : 1 ≤ next_table_id (ver db) ∧ next_table_id (ver db) + blen (all_tables (ver db)) ≤ u;
  di_seq_max : next_seq (write_state db) ≤ u;
  di_seg_max : Segment.seg_id (Wal.active (wal db)) ≤ u;
  di_coord_max : Wal.next_seq (Wal.coord (wal db)) ≤ u;
}.

(** And what it needs to write tables: room for their ids. *)
Record db_inv db m c es (u : Z) : Prop := {
  di_core :> db_core db m c es u;
  di_free : ids_free (dir db) m (ver db);
}.

Lemma db_inv_intro db m c es u : db_core db m c es u → manifest_inv (manifest db) m c → db_inv db m c es u.
Proof. intros Hc Hm. split; [done|]. rewrite <- (di_mf_dir _ _ _ _ _ Hc). by destruct Hm. Qed.
Lemma db_inv_mf db m c es u : db_inv db m c es u → manifest_inv (manifest db) m c.
Proof. intros [Hc Hf]. split; [apply (di_manifest _ _ _ _ _ Hc)|]. by rewrite (di_mf_dir _ _ _ _ _ Hc). Qed.

(** The newest version of each key, wherever it is held. *)
Definition db_view db c es : kvmap := newest (es ++ concat (tlists c (tiers (ver db)))).

Lemma tweight_nonneg c ts : 0 ≤ tweight c ts.
Proof. apply weights_nonneg. Qed.

Lemma di_fits db m c es u : db_core db m c es u → version_fits (ver db) c.
Proof.
  intros []. pose proof (weights_nonneg es). destruct di_ids0, di_next_seq0. split_and!; lia.
Qed.

Lemma seq_ok_entries db m c es u : db_core db m c es u → Forall seq_ok es.
Proof.
  intros Hi. apply Forall_forall. intros e He. pose proof (di_seqs _ _ _ _ _ Hi e He).
  pose proof (di_next_seq _ _ _ _ _ Hi). pose proof (di_seq_max _ _ _ _ _ Hi).
  pose proof (di_budget _ _ _ _ _ Hi). unfold seq_ok. lia.
Qed.

Lemma db_view_union db m c es u :
  db_core db m c es u → db_view db c es = newest es ∪ tview c (tiers (ver db)).
Proof.
  intros Hi. unfold db_view. rewrite newest_app. apply nunion_newer.
  intros k v w Hv%elem_of_bt_iter Hw%newest_lookup. by apply (di_newer _ _ _ _ _ Hi k).
Qed.

Lemma tables_sorted d m v c :
  version_inv d m v c → Forall sorted_keys (tlists c (tiers v)).
Proof.
  intros Hv. apply Forall_forall. intros l (meta & Hm & ->)%elem_of_tlists.
  by destruct (vi_tables _ _ _ _ Hv meta Hm) as ((? & ? & ? & _ & _ & Hs) & _).
Qed.
Lemma tview_first_hit d m v c :
  version_inv d m v c → tview c (tiers v) = first_hit (tlists c (tiers v)).
Proof.
  intros Hv. symmetry. apply first_hit_newest; [apply (vi_aged _ _ _ _ Hv)|].
  eapply Forall_impl; [by eapply tables_sorted|]. intros l. apply sorted_keys_NoDup.
Qed.

(** * Reading tables through the cache *)

(** What [reader_for] may change. *)
Definition reader_step db m db' : Prop :=
  ∃ rs, db' = set_readers rs db ∧ cache_ok (dir db) m (ver db) rs.

Lemma reader_step_refl db m : cache_ok (dir db) m (ver db) (readers db) → reader_step db m db.
Proof. intros Hc. exists (readers db). by destruct db. Qed.

Lemma reader_for_ok db m c meta :
  Manifest.dir (manifest db) = dir db →
  version_inv (dir db) m (ver db) c → cache_ok (dir db) m (ver db) (readers db) →
  meta ∈ all_tables (ver db) →
  ∃ db' r, reader_for meta (db, m) = (Ok r, (db', m)) ∧ reader_step db m db' ∧
    SsTable.entries r m = (Ok (sst_of <$> c (id meta)), m) ∧
    ∀ k, SsTable.get r k m = (Ok (SsTableSpec.find_entry k (sst_of <$> c (id meta))), m).
Proof.
  intros Hd Hv Hc Hm. destruct (vi_tables _ _ _ _ Hv meta Hm) as [Ht _].
  destruct (read_table_ok m _ _ Ht) as (r & Ho & _ & He & _ & Hg).
  assert (Href : id meta ∈ referenced_ids (ver db)) by (apply elem_of_referenced; eauto).
  unfold reader_for. erewrite bind_ok by done.
  destruct (readers db !! id meta) as [r'|] eqn:Er.
  - destruct (Hc _ _ Er) as [_ Ho']. specialize (Ho' Href). rewrite Ho in Ho'. simplify_eq.
    exists db, r'. split; [done|]. split; [by apply reader_step_refl|done].
  - erewrite bind_ok by (apply on_snd_run, map_err_ok; exact Ho).
    eexists _, r. split; [done|]. split; [|done]. eexists. split; [done|].
    intros i r' [[<- <-]|[Hi Hr]]%lookup_insert_Some; [|by apply Hc].
    split; [|done]. by apply (vi_bound _ _ _ _ Hv).
Qed.

(** * Pinning *)

Lemma db_core_manifest mf' db m c es u :
  Manifest.dir mf' = Manifest.dir (manifest db) → current mf' = current (manifest db) →
  obsolete mf' = obsolete (manifest db) →
  db_core db m c es u → db_core (set_manifest mf' db) m c es u.
Proof.
  intros E1 E2 E3 []. split; cbn [manifest set_manifest]; rewrite ?E2, ?E1; try done.
  destruct di_manifest0. split; rewrite ?E1, ?E2, ?E3; done.
Qed.
Lemma db_core_readers rs db m c es u :
  cache_ok (dir db) m (ver db) rs → db_core db m c es u → db_core (set_readers rs db) m c es u.
Proof. intros Hc []. by split. Qed.

Lemma with_version_ok {A} (f : Version → M (Db * memfs) DbError A) db m x db' m' :
  f (ver db) (set_manifest (pin (Manifest.arc_id (current (manifest db))) (manifest db)) db, m) = (Ok x, (db', m')) →
  with_version f (db, m) =
  (Ok x, (set_manifest (unpin (Manifest.arc_id (current (manifest db))) (manifest db')) db', m')).
Proof. unfold with_version. by intros ->. Qed.

(** What a read may change: cached readers and pin counts. *)
Definition read_step db db' : Prop :=
  dir db' = dir db ∧ options db' = options db ∧ wal db' = wal db ∧ memtables db' = memtables db ∧
  write_state db' = write_state db ∧ current (manifest db') = current (manifest db) ∧
  obsolete (manifest db') = obsolete (manifest db) ∧ Manifest.dir (manifest db') = Manifest.dir (manifest db).

#[local] Instance read_step_preorder : PreOrder read_step.
Proof.
  split; [done|]. intros ? ? ? (?&?&?&?&?&?&?&?) (?&?&?&?&?&?&?&?). split_and!; congruence.
Qed.

(** A read keeps the invariant. *)
Definition reads_to db m db' : Prop :=
  read_step db db' ∧ cache_ok (dir db) m (ver db) (readers db').

Lemma reads_to_core db m db' c es u : db_core db m c es u → reads_to db m db' → db_core db' m c es u.
Proof.
  intros Hi [(E1 & E2 & E3 & E4 & E5 & E6 & E7 & E8) Hc]. destruct Hi.
  split; rewrite ?E1, ?E2, ?E3, ?E4, ?E5, ?E6, ?E8; try done.
  destruct di_manifest0. split; rewrite ?E6, ?E7, ?E8; done.
Qed.

Lemma reads_to_inv db m db' c es u : db_inv db m c es u → reads_to db m db' → db_inv db' m c es u.
Proof.
  intros [Hc Hf] Hr. split; [by eapply reads_to_core|]. destruct Hr as [(E1 & _ & _ & _ & _ & E6 & _ & _) _].
  by rewrite E1, E6.
Qed.

Lemma reads_to_step db m db1 db2 : reads_to db m db1 → reads_to db1 m db2 → reads_to db m db2.
Proof.
  intros [H1 _] [H2 Hc]. split; [by etrans|].
  destruct H1 as (E1 & _ & _ & _ & _ & E6 & _). by rewrite E1, E6 in Hc.
Qed.

Lemma reader_step_reads db m db' : reader_step db m db' → reads_to db m db'.
Proof. intros (rs & -> & Hc). by split. Qed.

(** ** Point lookups *)

Lemma key_in_range_meta i (l : list Entry) k (w : InternalValue) :
  sorted_keys l → (k, w) ∈ l → key_in_range (meta_of i l) k = true.
Proof.
  intros Hs Hin. unfold key_in_range, meta_of. cbn [first_key last_key].
  apply andb_true_iff. split; apply oleb_ole.
  - destruct l as [|[k1 v1] l]; [by apply elem_of_nil in Hin|]. simpl.
    apply elem_of_cons in Hin as [[= -> ->]|Hin]; [done|].
    apply sorted_keys_cons in Hs as [Hk _]. apply olt_ole. by apply (Hk (k, w)).
  - destruct l as [|[k1 v1] l _] using rev_ind; [by apply elem_of_nil in Hin|].
    rewrite last_snoc. simpl. apply elem_of_app in Hin as [Hin|[= -> ->]%list_elem_of_singleton]; [|done].
    unfold sorted_keys in Hs. rewrite fmap_app in Hs. apply StronglySorted_app in Hs as (Hx & _).
    apply olt_ole, Hx; [by apply (list_elem_of_fmap_2 fst) in Hin|in_list].
Qed.

(** A table whose key range does not hold the key does not hold it either. *)
Lemma lookup_skipped meta c k :
  sorted_keys (c (id meta)) → meta = meta_of (id meta) (c (id meta)) → key_in_range meta k = false →
  (list_to_map (c (id meta)) : kvmap) !! k = None.
Proof.
  intros Hs Emeta Hk. apply eq_None_not_Some. intros [w Ew]. apply elem_of_list_to_map_2 in Ew.
  pose proof (key_in_range_meta (id meta) _ k w Hs Ew) as Hk'. rewrite <- Emeta in Hk'. congruence.
Qed.

Lemma get_tables_ok k metas db m c :
  Manifest.dir (manifest db) = dir db →
  version_inv (dir db) m (ver db) c → cache_ok (dir db) m (ver db) (readers db) →
  (∀ meta, meta ∈ metas → meta ∈ all_tables (ver db)) →
  ∃ db', get_tables k metas (db, m) =
    (Ok (w ← first_hit ((λ meta, c (id meta)) <$> metas) !! k; as_value w), (db', m)) ∧
    reads_to db m db'.
Proof.
  revert db. induction metas as [|meta metas IH]; intros db Hd Hv Hc Hin.
  { exists db. split; [done|]. by split. }
  assert (Hm : meta ∈ all_tables (ver db)) by (apply Hin; by left).
  assert (Hin' : ∀ meta, meta ∈ metas → meta ∈ all_tables (ver db)) by (intros; apply Hin; by right).
  destruct (vi_tables _ _ _ _ Hv meta Hm) as ((bs & blks & bl & _ & _ & Hs) & _ & Emeta).
  cbn [fmap list_fmap first_hit foldr get_tables].
  fold (first_hit ((λ meta, c (id meta)) <$> metas)). rewrite lookup_union.
  destruct (key_in_range meta k) eqn:Hk; cbn [negb].
  2:{ rewrite lookup_skipped, union_None_l by done. by apply IH. }
  destruct (reader_for_ok db m c meta Hd Hv Hc Hm) as (db1 & r & Hr & Hst & _ & Hg).
  erewrite bind_ok by exact Hr. erewrite bind_ok by (apply on_snd_run, map_err_ok, Hg).
  rewrite find_entry_lookup by done. apply reader_step_reads in Hst.
  destruct ((list_to_map (c (id meta)) : kvmap) !! k) as [w|] eqn:Ew.
  - exists db1. rewrite union_Some_l. split; [|done]. simpl. by destruct w as [q [b|]].
  - rewrite union_None_l. pose proof Hst as [(E1 & _ & _ & _ & _ & E6 & _ & E8) Hc1].
    destruct (IH db1) as (db2 & Hg2 & Hst2); rewrite ?E8, ?E1, ?E6; try done.
    exists db2. split; [exact Hg2|]. by eapply reads_to_step.
Qed.

Lemma lookup_live_map (mp : kvmap) k : live_map mp !! k = (w ← mp !! k; as_value w).
Proof. unfold live_map. apply lookup_omap. Qed.

Lemma set_view_active (ms : MemtableSet) : frozen ms = [] → set_view ms = map (active ms).
Proof. intros E. unfold set_view. rewrite E. apply (right_id_L ∅ (∪)). Qed.

Lemma get_ok db m c es u k :
  db_core db m c es u →
  ∃ db', Db.get k (db, m) = (Ok (live_map (db_view db c es) !! k), (db', m)) ∧ reads_to db m db'.
Proof.
  intros Hi. pose proof Hi as []. unfold Db.get. erewrite bind_ok by done.
  rewrite set_get_lookup, set_view_active, di_mem0 by done.
  rewrite lookup_live_map, (db_view_union _ _ _ _ _ Hi), lookup_union.
  destruct (newest es !! k) as [w|].
  { exists db. rewrite union_Some_l. split; [by destruct w as [q [b|]]|]. by split. }
  rewrite union_None_l. pose proof (mi_version _ _ _ di_manifest0) as Hv. rewrite di_mf_dir0 in Hv.
  set (a := Manifest.arc_id (current (manifest db))).
  destruct (get_tables_ok k (tables_newest_first (ver db)) (set_manifest (pin a (manifest db)) db) m c)
    as (db1 & Hg & Hst & Hc1); [done..| |].
  { intros meta Hm. by rewrite all_tables_newest. }
  eexists. split.
  - erewrite with_version_ok by exact Hg. do 2 f_equal. unfold tview.
    fold (tview c (tiers (ver db))). by rewrite (tview_first_hit _ _ _ _ Hv).
  - split; [|done]. destruct Hst as (?&?&?&?&?&?&?&?). by split_and!.
Qed.

(** ** Range scans *)

Lemma newest_sorted_map (mp : kvmap) : newest (bt_iter mp) = mp.
Proof.
  rewrite newest_NoDup by apply sorted_keys_NoDup, bt_iter_sorted.
  apply map_eq. intros k. apply option_eq. intros w.
  by rewrite <- elem_of_list_to_map, elem_of_bt_iter by apply sorted_keys_NoDup, bt_iter_sorted.
Qed.

Definition in_scan (r : KeyRange bytes) (e : Entry) : Prop := in_range r e.1 = true.
#[local] Instance in_scan_dec r e : Decision (in_scan r e).
Proof. unfold in_scan. apply _. Defined.

(** What the scan keeps of a table's entries. *)
Lemma scanned_entries r (l : list Entry) :
  (λ e, (key e, internal_of (SsFormat.seq e) (SsFormat.value e))) <$>
    filter (λ e, range_contains r (SsFormat.key e) = true) (sst_of <$> l) = filter (in_scan r) l.
Proof.
  change (λ e, (key e, internal_of (SsFormat.seq e) (SsFormat.value e))) with entry_of.
  induction l as [|kv l IH]; [done|]. cbn [fmap list_fmap].
  rewrite !filter_cons. unfold in_scan at 1. change (key (sst_of kv)) with kv.1.
  destruct (decide (in_range r kv.1 = true)) as [Hin|Hin].
  - rewrite decide_True by exact Hin. rewrite fmap_cons, entry_of_sst. f_equal. exact IH.
  - rewrite decide_False by exact Hin. exact IH.
Qed.

Lemma scan_table_ok r db m c srcs meta :
  Manifest.dir (manifest db) = dir db →
  version_inv (dir db) m (ver db) c → cache_ok (dir db) m (ver db) (readers db) →
  meta ∈ all_tables (ver db) →
  ∃ db', scan_table r srcs meta (db, m) = (Ok (srcs ++ [filter (in_scan r) (c (id meta))]), (db', m)) ∧
    reads_to db m db'.
Proof.
  intros Hd Hv Hc Hm. destruct (reader_for_ok db m c meta Hd Hv Hc Hm) as (db1 & rd & Hr & Hst & He & _).
  exists db1. split; [|by apply reader_step_reads]. unfold scan_table.
  erewrite bind_ok by exact Hr. erewrite bind_ok by (apply on_snd_run, map_err_ok, He).
  cbv [mret M_ret]. do 4 f_equal. apply scanned_entries.
Qed.

Lemma scan_tables_ok r metas db m c srcs :
  Manifest.dir (manifest db) = dir db →
  version_inv (dir db) m (ver db) c → cache_ok (dir db) m (ver db) (readers db) →
  (∀ meta, meta ∈ metas → meta ∈ all_tables (ver db)) →
  ∃ db', fold_m metas srcs (scan_table r) (db, m) =
      (Ok (srcs ++ ((λ meta, filter (in_scan r) (c (id meta))) <$> metas)), (db', m)) ∧
    reads_to db m db'.
Proof.
  revert db srcs. induction metas as [|meta metas IH]; intros db srcs Hd Hv Hc Hin.
  { exists db. cbn. rewrite app_nil_r. split; [done|]. by split. }
  destruct (scan_table_ok r db m c srcs meta Hd Hv Hc) as (db1 & H1 & Hst); [apply Hin; by left|].
  pose proof Hst as [(E1 & _ & _ & _ & _ & E6 & _ & E8) Hc1].
  destruct (IH db1 (srcs ++ [filter (in_scan r) (c (id meta))])) as (db2 & H2 & Hst2);
    rewrite ?E8, ?E1, ?E6; try done.
  { intros x Hx. apply Hin. by right. }
  exists db2. split; [|by eapply reads_to_step]. cbn [fold_m]. erewrite bind_ok by exact H1.
  rewrite H2, fmap_cons, <- (assoc_L (++)). done.
Qed.

(** Restricting every source to a range restricts the merge to it. *)
Lemma newest_filter r (l : list Entry) k :
  newest (filter (in_scan r) l) !! k = if in_range r k then newest l !! k else None.
Proof.
  induction l as [|[k' w] l IH]; [by destruct (in_range r k)|]. rewrite filter_cons. unfold in_scan at 1.
  cbn [fst newest foldr]. case_decide as Hk; cbn [newest foldr fst snd]; fold (newest l);
    fold (newest (filter (in_scan r) l)); rewrite ?lookup_nunion, IH, lookup_singleton.
  - by destruct (decide (k' = k)) as [->|]; [rewrite Hk|destruct (in_range r k)].
  - destruct (decide (k' = k)) as [->|].
    + by apply not_true_is_false in Hk as ->.
    + destruct (in_range r k); [|done]. by destruct (newest l !! k).
Qed.

Lemma concat_filter {A} (P : A → Prop) `{!∀ x, Decision (P x)} (ls : list (list A)) :
  concat (filter P <$> ls) = filter P (concat ls).
Proof. induction ls as [|l ls IH]; [done|]. rewrite fmap_cons. cbn [concat]. by rewrite IH, filter_app. Qed.

Lemma live_of_iter (mp vw : kvmap) r :
  (∀ k, mp !! k = if in_range r k then vw !! k else None) →
  live_of (bt_iter mp) = bt_range (in_range r) (live_map vw).
Proof.
  intros E. apply sorted_keys_unique; [apply live_of_sorted, bt_iter_sorted|apply bt_range_sorted|].
  intros [k b]. rewrite elem_of_live_of, elem_of_bt_range, lookup_live_map.
  setoid_rewrite elem_of_bt_iter. rewrite E. split.
  - intros (w & Hw & Hb). destruct (in_range r k); [|done]. by rewrite Hw.
  - intros [Hb Hr]. rewrite Hr. by apply bind_Some in Hb.
Qed.

Lemma all_tables_newest_map d m v c :
  version_inv d m v c → newest (concat ((λ meta, c (id meta)) <$> all_tables v)) = tview c (tiers v).
Proof.
  intros Hv. symmetry. apply newest_ext.
  - apply (aged_tables_coherent d m v c Hv [] (tiers v) []). by rewrite app_nil_r.
  - intros kv. rewrite !elem_of_concat. unfold tlists. setoid_rewrite list_elem_of_fmap.
    setoid_rewrite elem_of_newest_first. done.
Qed.

Lemma scan_ok db m c es u r :
  db_core db m c es u → bad_range r = false →
  ∃ db' it, Db.scan r (db, m) = (Ok it, (db', m)) ∧ reads_to db m db' ∧
    MergeIter.live_collect (E:=DbError) it = Ok (bt_range (in_range r) (live_map (db_view db c es))).
Proof.
  intros Hi Hr. pose proof Hi as []. unfold Db.scan. erewrite bind_ok by done.
  erewrite bind_ok.
  2:{ unfold of_outcome, scan_iters, range_snapshot, bt_range_checked. rewrite Hr, di_frozen0. done. }
  rewrite di_mem0. pose proof (mi_version _ _ _ di_manifest0) as Hv. rewrite di_mf_dir0 in Hv.
  set (a := Manifest.arc_id (current (manifest db))).
  destruct (scan_tables_ok r (all_tables (ver db)) (set_manifest (pin a (manifest db)) db) m c
    [bt_range (in_range r) (newest es)]) as (db1 & Hg & Hst & Hc1); [done..|].
  erewrite bind_ok by (erewrite with_version_ok by exact Hg; done).
  set (srcs := [_] ++ _). do 2 eexists. split; [done|]. split.
  { split; [|done]. destruct Hst as (?&?&?&?&?&?&?&?). by split_and!. }
  rewrite live_collect_ok.
  2:{ unfold srcs. constructor; [apply bt_range_sorted|]. apply Forall_fmap, Forall_forall.
      intros meta Hm. apply sorted_keys_filter.
      by destruct (vi_tables _ _ _ _ Hv meta Hm) as ((? & ? & ? & _ & _ & Hs) & _). }
  f_equal. apply live_of_iter. intros k.
  assert (E : concat srcs = filter (in_scan r) (bt_iter (newest es)) ++
     filter (in_scan r) (concat ((λ meta, c (id meta)) <$> all_tables (ver db)))).
  { unfold srcs. simpl. f_equal. by rewrite <- concat_filter, <- list_fmap_compose. }
  rewrite E, <- filter_app, newest_filter. destruct (in_range r k); [|done].
  unfold db_view. by rewrite !newest_app, (all_tables_newest_map _ _ _ _ Hv), newest_sorted_map.
Qed.

(** * The log next to the tables *)

Lemma frames_weights es : blen (frames (ent <$> es)) ≤ weights es.
Proof.
  induction es as [|e es IH]; [done|]. rewrite fmap_cons, frames_cons, blen_app, Frame.blen_encode.
  cbn [weights foldr]. fold (weights es). rewrite weight_alt. change (ent e) with (encode_record (seq e.2) e.1 (kind e.2)). rewrite blen_record.
  unfold Frame.HEADER_SZ, Frame.LEN_SZ, Frame.CRC_SZ. pose proof (blen_nonneg e.1).
  destruct (kind e.2); lia.
Qed.
Lemma ent_small e : weight e < 2 ^ 32 → small (ent e).
Proof.
  rewrite weight_alt. intros Hw. unfold small, ent. rewrite blen_record. pose proof (blen_nonneg e.1).
  destruct (kind e.2) as [b|]; [pose proof (blen_nonneg b)|]; lia.
Qed.

(** Log operations leave the tables alone. *)
Lemma manifest_core_outside mf m m' c :
  version_fits (version (current mf)) c → outside (wal_file (Manifest.dir mf)) m m' →
  manifest_core mf m c → manifest_core mf m' c.
Proof.
  intros (_ & H1 & Hid & _) Ho [Hf Hv Hobs]. pose proof (blen_nonneg (all_tables (version (current mf)))).
  assert (E : ∀ i, m' !! table_path (Manifest.dir mf) i = m !! table_path (Manifest.dir mf) i)
    by (intros i; apply Ho, table_not_wal_file).
  split; [|apply (version_inv_ext (Manifest.dir mf) m); [done|lia|done]|done].
  destruct Hf as [Hf Hok]. split; [|done]. rewrite Ho; [done|apply manifest_not_wal_file].
Qed.
Lemma ids_free_outside d m m' v : outside (wal_file d) m m' → ids_free d m v → ids_free d m' v.
Proof. intros Ho Hf i Hi. rewrite Ho; [by apply Hf|apply table_not_wal_file]. Qed.
Lemma manifest_inv_outside mf m m' c :
  version_fits (version (current mf)) c → outside (wal_file (Manifest.dir mf)) m m' →
  manifest_inv mf m c → manifest_inv mf m' c.
Proof. intros Hf Ho [Hc Hi]. split; [by eapply manifest_core_outside|by eapply ids_free_outside]. Qed.

Lemma cache_ok_outside d m m' v c rs :
  version_inv d m v c → outside (wal_file d) m m' → cache_ok d m v rs → cache_ok d m' v rs.
Proof. intros Hv Ho. apply cache_ok_ext with c; [done|]. intros i _. apply Ho, table_not_wal_file. Qed.

(** Table operations leave the log alone. *)
Lemma segment_foreign d p i : Segment.parse_segment_id p = Some i → foreign d p.
Proof.
  intros Hp. assert (Hn : ∀ n b, last n = Some b → byte.unsigned b ≠ 108 → p ≠ Storage.join d n).
  { intros n b Hl Hb ->. by rewrite (parse_segment_other d n b) in Hp. }
  split_and!; [|by apply (Hn _ (byte.of_Z 84))|by apply (Hn _ (byte.of_Z 112))].
  unfold Segment.parse_segment_id in Hp. unfold parse_table_id. destruct (file_name p) as [name|]; [|done].
  cbn [mbind option_bind] in *. destruct (strip_suffix Segment.SUFFIX name) as [r|] eqn:E; [|done].
  apply strip_suffix_Some in E as ->. destruct (strip_suffix (lit ".sst") _) as [r'|] eqn:E'; [|done].
  apply strip_suffix_Some in E'. apply (f_equal last) in E'. rewrite !last_app in E'. by vm_compute in E'.
Qed.

Lemma wal_holds_foreign w m m' rs :
  (∀ p, foreign (Wal.dir w) p → m' !! p = m !! p) → wal_holds w m rs → wal_holds w m' rs.
Proof.
  intros E [(segs & ps & [] & ->) Hco]. split; [|done]. exists segs, ps. split; [|done]. split; try done.
  apply (seg_files_ext _ m); [|done]. intros p _ [i Hi]. apply E. by apply (segment_foreign _ _ i).
Qed.

Lemma wal_holds_path w m rs : wal_holds w m rs → ∃ i, Segment.seg_path (Wal.active w) = Segment.segment_path (Wal.dir w) i.
Proof. intros [(segs & ps & Hw & _) _]. eexists. apply (wo_path _ _ _ _ Hw). Qed.

Lemma db_inv_outside db m m' c es u :
  db_inv db m c es u → outside (wal_file (dir db)) m m' →
  manifest_core (manifest db) m' c ∧ cache_ok (dir db) m' (ver db) (readers db) ∧ ids_free (dir db) m' (ver db).
Proof.
  intros Hi Ho. pose proof (di_mf_dir _ _ _ _ _ Hi) as Hd. split_and!.
  - apply manifest_core_outside with m; [apply (di_fits _ _ _ _ _ Hi)|by rewrite Hd|apply (di_manifest _ _ _ _ _ Hi)].
  - pose proof (mi_version _ _ _ (di_manifest _ _ _ _ _ Hi)) as Hv. rewrite Hd in Hv.
    eapply cache_ok_outside; [exact Hv|done|apply (di_cache _ _ _ _ _ Hi)].
  - eapply ids_free_outside; [done|by destruct Hi].
Qed.

(** * Writing *)

(** The write path up to the flush it may trigger. *)
Definition write_mem {S} `{!Storage.Storage S} (k : bytes) (kd : ValueKind) : M (Db * S) DbError () :=
  db ← get_fst;
  let seq := next_seq (write_state db) in
  _ ← mod_fst (mod_write claim);
  logged ← attempt (zoom wal set_wal (map_err Storage (Wal.append (encode_record seq k kd))));
  match logged with
  | inr e => _ ← mod_fst (mod_write settle); err e
  | inl _ =>
      _ ← mod_fst (λ db, set_memtables (set_insert_if_newer k (mkValue seq kd) (memtables db)) db);
      mod_fst (mod_write settle)
  end.

(** A sequence number is claimed. *)
Lemma db_inv_claim db m c es u :
  db_inv db m c es u → u + 1 ≤ 2 ^ 30 →
  u64_add (next_seq (write_state db)) 1 = next_seq (write_state db) + 1 ∧
  db_inv (mod_write (λ w, mkWrite (u64_add (next_seq w) 1) 0 (flush_pending w)) db) m c es (u + 1).
Proof.
  intros [Hi Hfree] Hu. pose proof Hi as [].
  assert (E : u64_add (next_seq (write_state db)) 1 = next_seq (write_state db) + 1) by (apply u64_wrap_id; lia).
  split; [done|]. split; [|done]. split; cbn [Db.dir options wal memtables manifest readers write_state set_write mod_write
    next_seq in_flight flush_pending]; rewrite ?E; try done; try lia.
  intros e He. specialize (di_seqs0 e He). lia.
Qed.

(** A record with a claimed number reaches the log; the write buffer follows. *)
Lemma db_inv_log db m c es u q k kd :
  let e := (k, mkValue q kd) in
  db_inv db m c es u → Manifest.next_seq (ver db) ≤ q < next_seq (write_state db) → u + weight e ≤ 2 ^ 30 →
  ∃ w' m', Wal.append (encode_record q k kd) (wal db, m) = (Ok (), (w', m')) ∧
    ∀ ms, map (active ms) = newest (es ++ [e]) → wf (active ms) → frozen ms = [] →
      db_inv (set_memtables ms (set_wal w' db)) m' c (es ++ [e]) (u + weight e).
Proof.
  intros e Hi Hq Hu. pose proof (di_core _ _ _ _ _ Hi) as []. pose proof (weight_pos e) as Hw.
  pose proof (weights_nonneg es). pose proof (tweight_nonneg c (tiers (ver db))).
  destruct (append_ok (wal db) m (ent <$> es) (ent e)) as (w' & m' & Ha & Hwal & (Hc1 & Hc2 & _) & Hs1 & Hs2).
  { done. }
  { split_and!; [apply ent_small; lia| |lia|lia].
    change [ent e] with (ent <$> [e]). rewrite <- fmap_app.
    pose proof (frames_weights (es ++ [e])) as Hf. rewrite weights_app in Hf. cbn [weights foldr] in Hf.
    unfold u64_max. lia. }
  pose proof (append_outside _ _ _ _ _ _ (wal_holds_path _ _ _ di_wal0) Ha) as Ho. rewrite di_wal_dir0 in Ho.
  destruct (db_inv_outside _ _ _ _ _ _ Hi Ho) as (Hmf & Hca & Hfree).
  exists w', m'. split; [exact Ha|]. intros ms Hm Hwf Hfz.
  split; [|done]. split; cbn [Db.dir options wal memtables manifest readers write_state set_wal set_memtables]; try done.
  - congruence.
  - congruence.
  - by rewrite fmap_app.
  - intros e' [He'|He'%list_elem_of_singleton]%elem_of_app; [by apply di_seqs0|subst e'; cbn; lia].
  - apply newer_snoc; [done|]. intros w Hw'. apply elem_of_concat in Hw' as (l & (meta & Hm' & ->)%elem_of_tlists & Hw').
    pose proof (vi_seq _ _ _ _ (mi_version _ _ _ di_manifest0) meta _ Hm' Hw'). cbn in *. lia.
  - lia.
  - rewrite weights_app. cbn [weights foldr]. lia.
  - lia.
  - lia.
  - lia.
  - lia.
Qed.

(** The write buffer after an insert. *)
Lemma buffer_insert (ms : MemtableSet) es k (v : InternalValue) :
  map (active ms) = newest es → wf (active ms) → frozen ms = [] →
  let ms' := set_insert_if_newer k v ms in
  map (active ms') = newest (es ++ [(k, v)]) ∧ wf (active ms') ∧ frozen ms' = [].
Proof.
  intros Hm Hw Hf. unfold set_insert_if_newer. cbn [active frozen]. split_and!; [|by apply wf_insert_if_newer|done].
  rewrite insert_if_newer_map, Hm, newest_app. f_equal. simpl. by rewrite (right_id_L ∅ nunion).
Qed.

Lemma write_mem_ok db m c es u k kd :
  let e := (k, mkValue (next_seq (write_state db)) kd) in
  db_inv db m c es u → u + (weight e + 1) ≤ 2 ^ 30 →
  ∃ db' m', write_mem k kd (db, m) = (Ok (), (db', m')) ∧ db_inv db' m' c (es ++ [e]) (u + (weight e + 1)) ∧
    dir db' = dir db ∧ options db' = options db ∧ current (manifest db') = current (manifest db).
Proof.
  intros e Hi Hu. pose proof (weight_pos e) as Hw. set (q := next_seq (write_state db)) in *.
  destruct (db_inv_claim _ _ _ _ _ Hi) as [E Hi1]; [lia|]. fold q in E.
  destruct (db_inv_log _ _ _ _ _ q k kd Hi1) as (w' & m' & Ha & Hlog).
  { cbn [mod_write set_write write_state next_seq manifest]. fold q. rewrite E.
    pose proof (di_next_seq _ _ _ _ _ Hi). fold q in H. lia. }
  { fold e. lia. }
  change (wal (mod_write _ db)) with (wal db) in Ha.
  assert (Hz : zoom wal set_wal (map_err Storage (Wal.append (encode_record q k kd)))
    (mod_write claim db, m) = (Ok (), (set_wal w' (mod_write claim db), m'))).
  { unfold zoom, map_err. cbn [wal mod_write set_write]. by rewrite Ha. }
  destruct (buffer_insert (memtables db) es k (mkValue q kd)) as (Hm & Hwf & Hf); [by destruct Hi as [[]]..|].
  specialize (Hlog _ Hm Hwf Hf). do 2 eexists. split.
  { unfold write_mem. erewrite bind_ok by done. erewrite bind_ok by done.
    erewrite bind_ok by (unfold attempt; fold q; by rewrite Hz). reflexivity. }
  split; [|done]. fold e in Hlog. destruct Hlog as [[] Hfree].
  split; [|exact Hfree]. split; cbn [Db.dir options wal memtables manifest readers write_state set_wal set_memtables
    set_write mod_write claim settle next_seq in_flight flush_pending] in *; try done; try lia.
  rewrite (di_idle _ _ _ _ _ Hi). lia.
Qed.

(** * Flushing *)

Lemma version_inv_flushed d m v c out q :
  let oid := Manifest.next_table_id v in
  let v' := flushed v (meta_of oid out) q in
  let c' := upd c oid out in
  version_inv d m v c → 1 ≤ oid → oid + 1 < 2 ^ 64 → out ≠ [] →
  holds_table m (table_path d oid) out → Manifest.next_seq v ≤ q → 0 ≤ Manifest.next_seq v →
  (∀ kv, kv ∈ out → 0 ≤ seq kv.2 < q) → newer_than out (concat (tlists c (tiers v))) →
  version_inv d m v' c' ∧ tlists c' (tiers v') = out :: tlists c (tiers v) ∧
  next_table_id v' = oid + 1 ∧ Manifest.next_seq v' = q ∧ blen (all_tables v') = blen (all_tables v) + 1.
Proof.
  intros oid v' c' Hv H1 H2 Hne Ht Hq Hq0 Hout Hnewer.
  assert (Hid : next_table_id v' = oid + 1).
  { unfold v'. simpl. unfold u64_add. rewrite u64_wrap_id by lia. unfold oid in *. lia. }
  assert (Hperm : all_tables v' ≡ₚ meta_of oid out :: all_tables v) by apply flushed_all_tables.
  assert (Hlt : ∀ meta, meta ∈ all_tables v → 0 ≤ id meta < oid) by apply (vi_bound _ _ _ _ Hv).
  assert (Hold : ∀ meta, meta ∈ all_tables v → c' (id meta) = c (id meta)).
  { intros meta Hm. apply upd_other. pose proof (Hlt meta Hm). lia. }
  assert (Hnew : c' oid = out) by apply upd_same.
  assert (Hin : ∀ meta, meta ∈ all_tables v' → meta = meta_of oid out ∨ meta ∈ all_tables v).
  { intros meta Hm. rewrite Hperm in Hm. by apply elem_of_cons in Hm. }
  assert (Htl : tlists c' (tiers v') = out :: tlists c (tiers v)).
  { unfold tlists at 1. change (newest_first (tiers v')) with (tables_newest_first v').
    unfold v'. rewrite flushed_newest_first, fmap_cons. cbn [id meta_of]. rewrite Hnew. f_equal.
    apply list_fmap_ext. intros i meta Hm. apply Hold. rewrite all_tables_newest. by eapply list_elem_of_lookup_2. }
  split_and!; [|done|done|unfold v'; simpl; lia|by rewrite (blen_perm _ _ Hperm), blen_cons, Z.add_comm]. split.
  - intros meta [->|Hm]%Hin; [|rewrite Hold by done; by apply (vi_tables _ _ _ _ Hv)].
    cbn [id meta_of]. rewrite Hnew. by split.
  - rewrite Hperm, fmap_cons. cbn [id meta_of]. apply NoDup_cons. split; [|apply (vi_ids _ _ _ _ Hv)].
    intros (meta & E & Hm)%list_elem_of_fmap. pose proof (Hlt meta Hm). lia.
  - rewrite Hid. intros meta [->|Hm]%Hin; [cbn; lia|]. pose proof (Hlt meta Hm). lia.
  - rewrite Htl. constructor; [apply (vi_aged _ _ _ _ Hv)|]. apply Forall_forall.
    intros l Hl k x y Hx Hy. apply (Hnewer k); [done|]. apply elem_of_concat. eauto.
  - assert (Eq : Manifest.next_seq v' = q) by (unfold v'; simpl; lia). rewrite Eq.
    intros meta kv [->|Hm]%Hin Hkv.
    + cbn [id meta_of] in Hkv. rewrite Hnew in Hkv. specialize (Hout kv Hkv). lia.
    + rewrite Hold in Hkv by done. pose proof (vi_seq _ _ _ _ Hv meta kv Hm Hkv). lia.
  - rewrite Hid. pose proof (vi_tiers _ _ _ _ Hv) as Hvt. unfold v', flushed, blen in *. cbn [tiers].
    rewrite length_alter. destruct (tiers v); simpl in *; unfold oid in *; lia.
Qed.

Lemma newest_weights es : weights (bt_iter (newest es)) ≤ weights es.
Proof.
  apply weights_sub, NoDup_submseteq.
  - apply (NoDup_fmap_1 fst), sorted_keys_NoDup, bt_iter_sorted.
  - intros [k w]. rewrite elem_of_bt_iter. apply newest_lookup.
Qed.

Lemma footprint_weights (mp : kvmap) : footprint mp ≤ weights (bt_iter mp).
Proof.
  assert (H : footprint mp ≤ weights (map_to_list mp)).
  { unfold footprint. rewrite map_fold_foldr. induction (map_to_list mp) as [|[k w] l IH]; [done|].
    cbn [foldr weights]. fold (weights l). cbn [uncurry]. rewrite weight_alt. cbn [fst snd].
    assert (payload_bytes w ≤ match kind w with Value b => 4 + blen b | Tombstone => 0 end)
      by (unfold payload_bytes; destruct (kind w); lia).
    pose proof (blen_nonneg k). unfold ENTRY_OVERHEAD at 1. lia. }
  etrans; [exact H|]. apply weights_sub, NoDup_submseteq; [apply NoDup_map_to_list|].
  intros [k w]. by rewrite elem_of_map_to_list, elem_of_bt_iter.
Qed.

(** The engine at the moment the write buffer has been frozen. *)
Definition frozen_db db (f : Frozen) : Db :=
  set_memtables (mkSet new [f] (max_bytes (memtables db)) (next_arc (memtables db) + 1)) db.
Definition frozen_now db : Frozen := mkFrozen (next_arc (memtables db)) (active (memtables db)).
Definition flush_pin db : Manifest.Manifest := pin (Manifest.arc_id (current (manifest db))) (manifest db).
Definition flush_unpin db mf : Manifest.Manifest := unpin (Manifest.arc_id (current (manifest db))) mf.

(** What is staged when the table of the frozen buffer has been written. *)
Record flush_staged db m c es m1 v' c' : Prop := {
  fs_staged : staged (dir db) m (ver db) c m1 v' c';
  fs_lists : tlists c' (tiers v') = bt_iter (newest es) :: tlists c (tiers (ver db));
  fs_seq : Manifest.next_seq v' = next_seq (write_state db);
  fs_id : next_table_id v' = next_table_id (ver db) + 1;
  fs_count : blen (all_tables v') = blen (all_tables (ver db)) + 1;
}.

(** Writing a table of the versions [out], newer than every table of [v], readies the
    version that names it. *)
Lemma flush_table_ok d v c m (out : list Entry) q :
  let oid := next_table_id v in
  let v' := flushed v (meta_of oid out) q in
  version_inv d m v c → weights out + tweight c (tiers v) ≤ 2 ^ 30 →
  1 ≤ oid → oid + 1 + (blen (all_tables v) + 1) ≤ 2 ^ 31 → 0 ≤ Manifest.next_seq v ≤ q → q < 2 ^ 63 →
  out ≠ [] → sorted_keys out →
  (∀ kv, kv ∈ out → 0 ≤ seq kv.2 < q) → newer_than out (concat (tlists c (tiers v))) →
  m !! table_path d oid = None →
  ∃ m1, Compaction.write_table (table_path d oid) oid (blen out) out m = (Ok (Some (meta_of oid out)), m1) ∧
    staged d m v c m1 v' (upd c oid out) ∧
    tlists (upd c oid out) (tiers v') = out :: tlists c (tiers v) ∧
    next_table_id v' = oid + 1 ∧ Manifest.next_seq v' = q ∧ blen (all_tables v') = blen (all_tables v) + 1.
Proof.
  intros oid v' Hv Hw Hoid Hroom Hq Hq2 Hne Hs Hout Hnewer Hfree. pose proof (weights_length out) as Hl.
  pose proof (tweight_nonneg c (tiers v)). pose proof (blen_nonneg (all_tables v)).
  destruct (write_table_ok (table_path d oid) oid (blen out) out m) as (bs & Hwt & Hh); [done..| |lia|lia|].
  { apply Forall_forall. intros kv Hkv. specialize (Hout kv Hkv). unfold seq_ok. lia. }
  set (m1 := <[table_path d oid := bs]> m) in *.
  assert (Hv1 : version_inv d m1 v c) by (apply version_inv_fresh; [done|fold oid; lia]).
  destruct (version_inv_flushed d m1 v c out q) as (Hv' & Htl & Hid' & Hseq' & Hcount); [by try lia..|].
  fold oid v' in Hv', Htl, Hid', Hseq', Hcount. exists m1. split_and!; try done. split; try done; fold oid.
  - split_and!; [|lia..]. unfold tweight. rewrite Htl. cbn [concat]. by rewrite weights_app.
  - lia.
  - intros p Hp. unfold m1. by rewrite lookup_insert_ne.
  - intros i (meta & Hm & <-)%elem_of_referenced Hlt. unfold v' in Hm. rewrite flushed_all_tables in Hm.
    apply elem_of_cons in Hm as [->|Hm]; [cbn in Hlt; lia|]. pose proof (vi_bound _ _ _ _ Hv meta Hm).
    split_and!; [apply elem_of_referenced; eauto|apply upd_other; unfold oid; lia|lia].
  - intros _ Hids i Hii. unfold m1. rewrite lookup_insert_ne; [apply Hids; fold oid; lia|].
    intros Eq. apply table_path_inj in Eq; unfold oid in *; lia.
Qed.

(** The run of [flush_frozen] around what it calls. *)
Lemma flush_frozen_run (q : Z) (f : Frozen) db m (meta : TableMeta) m1 mf' m' :
  let oid := next_table_id (ver db) in let out := bt_iter (map (table f)) in
  Compaction.write_table (table_path (dir db) oid) oid (blen out) out m = (Ok (Some meta), m1) →
  install (flushed (ver db) meta q) (flush_pin db, m1) = (Ok (), (mf', m')) →
  flush_frozen q f (db, m) =
    (Ok (), (set_manifest (flush_unpin db mf') (set_memtables (discard_frozen f (memtables db)) db), m')).
Proof.
  intros oid out Hwt Hin.
  assert (Esnap : snapshot (table f) = out).
  { unfold snapshot. fold out. clear. induction out as [|[k w] l IH]; [done|]. rewrite fmap_cons. by f_equal. }
  unfold flush_frozen. erewrite with_version_ok; last first.
  { erewrite bind_ok by done. fold oid. cbn zeta. rewrite Esnap.
    erewrite bind_ok by (apply on_snd_run, map_err_ok; exact Hwt). cbn beta iota.
    erewrite bind_ok; last first.
    { unfold zoom. cbn [manifest set_manifest]. fold (flush_pin db). erewrite map_err_ok by exact Hin. reflexivity. }
    reflexivity. }
  reflexivity.
Qed.

(** A flush of the table frozen just before it, up to the installation. *)
Lemma flush_frozen_plan db m c es u :
  db_inv db m c es u → newest es ≠ ∅ → u + 2 ≤ 2 ^ 30 →
  let f := frozen_now db in let db0 := frozen_db db f in
  ∃ m1 v' c', flush_staged db m c es m1 v' c' ∧
    Compaction.write_table (table_path (dir db) (next_table_id (ver db))) (next_table_id (ver db))
      (blen (bt_iter (newest es))) (bt_iter (newest es)) m =
      (Ok (Some (meta_of (next_table_id (ver db)) (bt_iter (newest es)))), m1) ∧
    v' = flushed (ver db) (meta_of (next_table_id (ver db)) (bt_iter (newest es))) (next_seq (write_state db)) ∧
    ∀ mf' m', install v' (flush_pin db, m1) = (Ok (), (mf', m')) →
      flush_frozen (next_seq (write_state db)) f (db0, m) =
        (Ok (), (set_manifest (flush_unpin db mf') (set_memtables (discard_frozen f (memtables db0)) db0), m')).
Proof.
  intros Hi Hne Hu f db0. pose proof (di_core _ _ _ _ _ Hi) as []. pose proof (di_free _ _ _ _ _ Hi) as Mfree.
  set (v := ver db) in *. set (oid := next_table_id v) in *.
  set (out := bt_iter (newest es)). pose proof (blen_nonneg (all_tables v)) as Hat.
  pose proof (newest_weights es) as Hw. fold out in Hw. pose proof (tweight_nonneg c (tiers v)).
  assert (Hsub : ∀ kv, kv ∈ out → kv ∈ es) by (intros [k w] Hkv%elem_of_bt_iter%newest_lookup; done).
  destruct di_manifest0 as [Mf Mv Mobs]. fold v in Mf, Mv, Mobs. rewrite di_mf_dir0 in Mf, Mv.
  assert (Hone : out ≠ []) by by unfold out; rewrite bt_iter_nil.
  destruct (flush_table_ok (dir db) v c m out (next_seq (write_state db))) as (m1 & Hwt & Hsg & Htl' & Hid' & Hseq' & Hcount);
    [done|lia|fold oid; lia|fold oid; lia|lia|lia|done|apply bt_iter_sorted|by intros kv Hkv%Hsub; apply di_seqs0|done|
     apply Mfree; fold oid; lia|].
  fold oid in Hwt, Hsg, Htl', Hid', Hseq', Hcount.
  exists m1, (flushed v (meta_of oid out) (next_seq (write_state db))), (upd c oid out). split_and!; [by split|done|done|].
  intros mf' m' Hin. change (flush_pin db) with (flush_pin db0) in Hin. change (flush_unpin db mf') with (flush_unpin db0 mf').
  eapply flush_frozen_run.
  - change (map (table f)) with (map (active (memtables db))). rewrite di_mem0. exact Hwt.
  - exact Hin.
Qed.

Lemma flush_frozen_ok db m c es u :
  db_inv db m c es u → newest es ≠ ∅ → u + 2 ≤ 2 ^ 30 →
  let f := frozen_now db in let db0 := frozen_db db f in
  ∃ mf' m' c', flush_frozen (next_seq (write_state db)) f (db0, m) =
      (Ok (), (set_manifest mf' (set_memtables (discard_frozen f (memtables db0)) db0), m')) ∧
    manifest_inv mf' m' c' ∧ Manifest.dir mf' = dir db ∧
    tlists c' (tiers (Manifest.version (current mf'))) = bt_iter (newest es) :: tlists c (tiers (ver db)) ∧
    Manifest.next_seq (Manifest.version (current mf')) = next_seq (write_state db) ∧
    next_table_id (Manifest.version (current mf')) = next_table_id (ver db) + 1 ∧
    blen (all_tables (Manifest.version (current mf'))) = blen (all_tables (ver db)) + 1 ∧
    (∀ p, foreign (dir db) p → m' !! p = m !! p) ∧
    cache_ok (dir db) m' (Manifest.version (current mf')) (readers db).
Proof.
  intros Hi Hne Hu f db0. destruct (flush_frozen_plan db m c es u Hi Hne Hu) as (m1 & v' & c' & Hfs & _ & _ & Hrun).
  pose proof (di_core _ _ _ _ _ Hi) as []. destruct Hfs as [Hsg Htl Hseq Hid Hcount].
  pose proof (blen_nonneg (all_tables (ver db))).
  destruct (install_staged (flush_pin db) m c m1 v' c') as (mf' & m' & Hin & Hmi & Hd' & Hcur & _ & Hfor & _ & Hold).
  { by destruct di_manifest0. }
  { cbn. lia. }
  { change (Manifest.dir (flush_pin db)) with (Manifest.dir (manifest db)). by rewrite di_mf_dir0. }
  change (Manifest.dir (flush_pin db)) with (Manifest.dir (manifest db)) in *. rewrite di_mf_dir0 in *.
  change (ver db) with (Manifest.version (current (flush_pin db))) in Hold.
  exists (flush_unpin db mf'), m', c'. split; [by apply Hrun|].
  split; [by apply manifest_inv_unpin|]. split; [done|]. cbn [current unpin flush_unpin]. rewrite Hcur.
  split_and!; try done. intros i r Hir. destruct (di_cache0 i r Hir) as [Hlt Ho]. split; [lia|]. intros Hr.
  destruct (sg_refs _ _ _ _ _ _ _ Hsg i Hr Hlt) as (Hrv & _). pose proof Hrv as (meta & Hm & Eid)%elem_of_referenced.
  eapply reader_open_ext; [|by apply Hold|by apply Ho].
  destruct (vi_tables _ _ _ _ (mi_version _ _ _ di_manifest0) meta Hm) as [Hx _]. by rewrite Eid, di_mf_dir0 in Hx.
Qed.

(** ** The log reset *)

Lemma reset_inv db m c es u :
  db_inv db m c es u → newest es = ∅ → u + 1 ≤ 2 ^ 30 →
  ∃ w' m', Wal.reset (wal db, m) = (Ok (), (w', m')) ∧ db_inv (set_wal w' db) m' c [] (u + 1).
Proof.
  intros Hi He Hu. pose proof (di_core _ _ _ _ _ Hi) as [].
  destruct (reset_ok _ _ _ di_wal0) as (w' & m' & Hr & Hw & (Hc1 & Hc2 & _) & Hseg & Hco); [lia|].
  pose proof (reset_outside _ _ _ _ _ (wal_holds_path _ _ _ di_wal0) Hr) as Ho. rewrite di_wal_dir0 in Ho.
  destruct (db_inv_outside _ _ _ _ _ _ Hi Ho) as (Hmf & Hca & Hfree).
  pose proof (weights_nonneg es).
  exists w', m'. split; [done|]. split; [|done]. split; cbn [Db.dir options wal memtables manifest readers write_state set_wal];
    try done; try lia.
  - congruence.
  - congruence.
  - by rewrite di_mem0, He.
  - by intros e ?%elem_of_nil.
  - by intros k v w ?%elem_of_nil.
  - simpl. lia.
  - by rewrite Hco; lia.
Qed.

(** What a flush does to the invariant before the log is reset: the log still
    names the records the new table holds. *)
Lemma newest_empty es : newest es = ∅ → es = [].
Proof.
  intros E. destruct es as [|[k w] es]; [done|].
  destruct (newest_max ((k, w) :: es) k w) as (w' & Hw' & _); [by left|]. by rewrite E in Hw'.
Qed.

Lemma reset_flushed_inv db m c es u mf' m1 c' ms :
  db_inv db m c es u → u + 2 ≤ 2 ^ 30 →
  manifest_inv mf' m1 c' → Manifest.dir mf' = dir db →
  tlists c' (tiers (Manifest.version (current mf'))) = bt_iter (newest es) :: tlists c (tiers (ver db)) →
  Manifest.next_seq (Manifest.version (current mf')) = next_seq (write_state db) →
  next_table_id (Manifest.version (current mf')) = next_table_id (ver db) + 1 →
  blen (all_tables (Manifest.version (current mf'))) = blen (all_tables (ver db)) + 1 →
  (∀ p, foreign (dir db) p → m1 !! p = m !! p) →
  cache_ok (dir db) m1 (Manifest.version (current mf')) (readers db) →
  active ms = new → frozen ms = [] →
  let db1 := set_manifest mf' (set_memtables ms db) in
  ∃ w' m2, Wal.reset (wal db1, m1) = (Ok (), (w', m2)) ∧ db_inv (set_wal w' db1) m2 c' [] (u + 2).
Proof.
  intros Hi Hu Hmf Hd Htl Hq Hid Hn Hfor Hca Hact Hfro db1. pose proof (di_core _ _ _ _ _ Hi) as [].
  assert (Hw1 : wal_holds (wal db) m1 (ent <$> es)).
  { eapply wal_holds_foreign; [|exact di_wal0]. by rewrite di_wal_dir0. }
  destruct (reset_ok _ _ _ Hw1) as (w' & m2 & Hr & Hw & (Hc1 & Hc2 & _) & Hseg & Hco); [lia|].
  pose proof (reset_outside _ _ _ _ _ (wal_holds_path _ _ _ Hw1) Hr) as Ho. rewrite di_wal_dir0 in Ho.
  set (v' := Manifest.version (current mf')) in *.
  pose proof (newest_weights es) as Hne. pose proof (tweight_nonneg c (tiers (ver db))).
  pose proof (weights_nonneg es). pose proof (blen_nonneg (all_tables (ver db))).
  assert (Htw : tweight c' (tiers v') ≤ u).
  { unfold tweight. rewrite Htl. cbn [concat]. rewrite weights_app. fold (tweight c (tiers (ver db))). lia. }
  assert (Hfit : version_fits v' c') by (split_and!; lia).
  assert (Hmf2 : manifest_inv mf' m2 c') by (apply (manifest_inv_outside mf' m1); [exact Hfit|by rewrite Hd|done]).
  exists w', m2. split; [done|]. apply db_inv_intro; [|done]. split; cbn [Db.dir options wal memtables manifest readers write_state set_wal
    set_manifest set_memtables db1]; fold v'; try done; try lia.
  - congruence.
  - congruence.
  - by rewrite Hact.
  - by rewrite Hact.
  - by destruct Hmf2.
  - apply (cache_ok_outside _ m1 _ _ c'); [|done..]. rewrite <- Hd. apply (mi_version _ _ _ Hmf).
  - by intros e ?%elem_of_nil.
  - by intros k v w ?%elem_of_nil.
  - simpl. lia.
  - by rewrite Hco; lia.
Qed.

(** ** The cascade *)

Lemma compact_all_cascade {S} `{!Storage.Storage S} (fuel : nat) (fanout : Z) db (m : S) mf' (m' : S) :
  cascade fuel fanout (manifest db, m) = (Ok (), (mf', m')) →
  compact_all fuel fanout (db, m) = (Ok (), (set_manifest mf' db, m')).
Proof.
  revert db m. induction fuel as [|fuel IH]; intros db m; [done|]. cbn [cascade compact_all].
  intros (b & [mf1 m1] & Hb & Hrest)%bind_ok_inv.
  erewrite bind_ok; last first.
  { unfold zoom. erewrite map_err_ok by exact Hb. reflexivity. }
  destruct b; [|by injection Hrest as -> ->].
  by rewrite (IH (set_manifest mf1 db) m1).
Qed.

Lemma db_inv_compacted db m c es u mf' m' c' :
  db_inv db m c es u → compacted_to (manifest db) m c mf' m' c' →
  (∀ i, i ∈ referenced_ids (Manifest.version (current mf')) → i < next_table_id (ver db) →
        i ∈ referenced_ids (ver db)) →
  db_inv (set_manifest mf' db) m' c' es u.
Proof.
  intros Hi Hct Href. pose proof (di_core _ _ _ _ _ Hi) as []. pose proof Hct as [].
  pose proof (mi_version _ _ _ di_manifest0) as Hv. rewrite di_mf_dir0 in *.
  apply db_inv_intro; [|done]. split; cbn [Db.dir options wal memtables manifest readers write_state set_manifest]; try done; try lia.
  - eapply wal_holds_foreign; [|exact di_wal0]. by rewrite di_wal_dir0.
  - by destruct ct_inv0.
  - intros i r Hir. destruct (di_cache0 i r Hir) as [Hlt Ho]. split; [lia|]. intros Hr.
    pose proof (Href i Hr Hlt) as Hold. pose proof Hold as (meta & Hm & <-)%elem_of_referenced.
    destruct (vi_tables _ _ _ _ Hv meta Hm) as [Ht _]. destruct (ct_old0 _ Hr Hlt) as [E _].
    eapply reader_open_ext; [exact Ht|exact E|by apply Ho].
  - intros k x y Hx Hy. apply (di_newer0 k x y Hx). by apply ct_sub0.
Qed.

Lemma live_map_ext (m1 m2 : kvmap) :
  (∀ k, (w ← m1 !! k; as_value w) = (w ← m2 !! k; as_value w)) → live_map m1 = live_map m2.
Proof. intros E. apply map_eq. intros k. by rewrite !lookup_live_map. Qed.

Lemma same_live_union (n t1 t2 : kvmap) : same_live t1 t2 → live_map (n ∪ t2) = live_map (n ∪ t1).
Proof.
  intros Hs. apply live_map_ext. intros k. rewrite !lookup_union.
  destruct (n !! k); [by rewrite !union_Some_l|]. rewrite !union_None_l.
  destruct (Hs k) as [->|(-> & w & -> & Ht)]; [done|]. simpl. by destruct w as [q [b|]].
Qed.

Lemma compact_all_ok db m c es u :
  db_inv db m c es u →
  ∃ mf' m' c', compact_all (Datatypes.S (List.length (all_tables (ver db)))) (tier_fanout (options db)) (db, m) =
      (Ok (), (set_manifest mf' db, m')) ∧
    db_inv (set_manifest mf' db) m' c' es u ∧
    live_map (db_view (set_manifest mf' db) c' es) = live_map (db_view db c es) ∧
    ∀ t inputs, tiers (Manifest.version (current mf')) !! t = Some inputs → blen inputs < tier_fanout (options db).
Proof.
  intros Hi. pose proof (di_core _ _ _ _ _ Hi) as []. pose proof (db_inv_mf _ _ _ _ _ Hi) as Hmf.
  destruct (cascade_ok (Datatypes.S (List.length (all_tables (ver db)))) (manifest db) m c (tier_fanout (options db)))
    as (mf' & m' & c' & Hc & Hct & Href & Hend); [done|done|apply (di_fits _ _ _ _ _ Hi)|unfold blen; lia|].
  pose proof (db_inv_compacted _ _ _ _ _ _ _ _ Hi Hct Href) as Hi'.
  exists mf', m', c'. split; [by apply compact_all_cascade|]. split; [done|]. split; [|done].
  rewrite (db_view_union _ _ _ _ _ Hi'), (db_view_union _ _ _ _ _ Hi).
  apply same_live_union, (ct_live _ _ _ _ _ _ Hct).
Qed.

(** ** The flush *)

Lemma db_core_budget db m c es u u' :
  u ≤ u' ≤ 2 ^ 30 → db_core db m c es u → db_core db m c es u'.
Proof. intros Hu []. split; try done; lia. Qed.
Lemma db_inv_budget db m c es u u' :
  u ≤ u' ≤ 2 ^ 30 → db_inv db m c es u → db_inv db m c es u'.
Proof. intros Hu [Hc Hf]. split; [by eapply db_core_budget|done]. Qed.

Lemma flush_quiesced_ok db m c es u :
  db_inv db m c es u → u + 2 ≤ 2 ^ 30 →
  ∃ db' m' c', flush_quiesced (db, m) = (Ok (), (db', m')) ∧ db_inv db' m' c' [] (u + 2) ∧
    live_map (db_view db' c' []) = live_map (db_view db c es) ∧
    dir db' = dir db ∧ options db' = options db ∧ write_state db' = write_state db ∧
    ∀ t inputs, tiers (ver db') !! t = Some inputs → blen inputs < tier_fanout (options db).
Proof.
  intros Hi Hu. pose proof (di_core _ _ _ _ _ Hi) as []. unfold flush_quiesced. erewrite bind_ok by done. cbn beta.
  pose proof (newest_weights es) as Hnw. pose proof (footprint_weights (newest es)) as Hfw.
  pose proof (tweight_nonneg c (tiers (ver db))).
  pose proof (active_bytes_zero (active (memtables db)) di_memwf0) as Hz. rewrite di_mem0 in Hz.
  specialize (Hz ltac:(lia)). fold (active_bytes (memtables db)) in Hz.
  (* the state when the log has been reset *)
  assert (Hmid : ∃ db1 m1 c1,
    (db0 ← get_fst; _ ← for_each (frozen (memtables db0)) (flush_frozen (next_seq (write_state db0)));
     zoom wal set_wal (map_err Storage Wal.reset))
      ((if decide (active_bytes (memtables db) > 0) then set_memtables (freeze (memtables db)).2 db else db), m)
      = (Ok (), (db1, m1)) ∧ db_inv db1 m1 c1 [] (u + 2) ∧
    db_view db1 c1 [] = db_view db c es ∧ dir db1 = dir db ∧ options db1 = options db ∧
    write_state db1 = write_state db).
  { case_decide as Hab.
    - apply Hz in Hab as Hne. set (f := frozen_now db).
      destruct (flush_frozen_ok db m c es u Hi Hne Hu)
        as (mf' & m1 & c' & Hff & Hmf & Hd & Htl & Hq & Hid & Hn & Hfor & Hca).
      set (ms0 := mkSet new [f] (max_bytes (memtables db)) (next_arc (memtables db) + 1)) in *.
      destruct (reset_flushed_inv db m c es u mf' m1 c' (discard_frozen f ms0))
        as (w' & m2 & Hr & Hi'); try done.
      { simpl. rewrite filter_cons, decide_False by by intros []. done. }
      do 3 eexists. split.
      { erewrite bind_ok by done. unfold freeze. cbn [snd memtables set_memtables frozen]. rewrite di_frozen0. fold f.
        cbn [app for_each write_state set_memtables]. fold ms0.
        erewrite bind_ok; last first.
        { erewrite bind_ok by exact Hff. reflexivity. }
        unfold zoom. cbn [memtables set_memtables] in Hr. erewrite map_err_ok by exact Hr. reflexivity. }
      split; [exact Hi'|]. split_and!; [|done..].
      unfold db_view. cbn [manifest set_manifest set_wal]. rewrite Htl, app_nil_l. cbn [concat].
      by rewrite !newest_app, newest_sorted_map.
    - assert (He : newest es = ∅) by (destruct (decide (newest es = ∅)); [done|by destruct Hab; apply Hz]).
      pose proof (newest_empty es He) as Ees.
      destruct (reset_inv db m c es u Hi He) as (w' & m2 & Hr & Hi'); [lia|].
      exists (set_wal w' db), m2, c. split.
      { erewrite bind_ok by done. rewrite di_frozen0. cbn [for_each].
        erewrite bind_ok by done. unfold zoom. by erewrite map_err_ok by exact Hr. }
      split; [eapply db_inv_budget; [|exact Hi']; lia|]. by rewrite Ees. }
  destruct Hmid as (db1 & m1 & c1 & Hrun & Hi1 & Hview & Hd1 & Ho1 & Hw1).
  apply bind_ok_inv in Hrun as (db0 & s0 & H0' & Hrun). apply bind_ok_inv in Hrun as ([] & s1 & Hfe & Hrst).
  erewrite bind_ok by exact H0'. erewrite bind_ok by exact Hfe. erewrite bind_ok by exact Hrst.
  erewrite bind_ok by done.
  destruct (compact_all_ok db1 m1 c1 [] (u + 2) Hi1) as (mf' & m' & c' & Hc & Hi' & Hv' & Hend).
  do 3 eexists. split; [exact Hc|]. split; [exact Hi'|]. split_and!; [by rewrite Hv', Hview|done..|].
  by rewrite <- Ho1.
Qed.

Lemma db_inv_pending b db m c es u :
  db_inv db m c es u → db_inv (mod_write (set_flush_pending b) db) m c es u.
Proof. intros [[] Hf]. split; [by split|done]. Qed.

Lemma flush_locked_ok db m c es u :
  db_inv db m c es u → u + 2 ≤ 2 ^ 30 →
  ∃ db' m' c', flush_locked (db, m) = (Ok (), (db', m')) ∧ db_inv db' m' c' [] (u + 2) ∧
    live_map (db_view db' c' []) = live_map (db_view db c es) ∧
    dir db' = dir db ∧ options db' = options db ∧ flush_pending (write_state db') = false ∧
    ∀ t inputs, tiers (ver db') !! t = Some inputs → blen inputs < tier_fanout (options db).
Proof.
  intros Hi Hu. apply (db_inv_pending true) in Hi as Hi0.
  destruct (flush_quiesced_ok _ _ _ _ _ Hi0 Hu) as (db1 & m1 & c1 & Hf & Hi1 & Hv & Hd & Ho & Hw & Hend).
  exists (mod_write (set_flush_pending false) db1), m1, c1. split.
  - unfold flush_locked. erewrite bind_ok by done. erewrite bind_ok by done.
    rewrite decide_False by (rewrite (di_idle _ _ _ _ _ Hi0); lia).
    erewrite bind_ok by (unfold attempt; by rewrite Hf). by erewrite bind_ok by done.
  - by split; [apply db_inv_pending|].
Qed.

(** ** A whole write *)

Lemma write_mem_pending db m k kd db1 m1 :
  flush_pending (write_state db) = false → write_mem k kd (db, m) = (Ok (), (db1, m1)) →
  flush_pending (write_state db1) = false.
Proof.
  intros Hp Hw. unfold write_mem in Hw. apply bind_ok_inv in Hw as (db0 & s0 & [= <- <-] & Hw).
  apply bind_ok_inv in Hw as ([] & s1 & [= <-] & Hw). apply bind_ok_inv in Hw as (r & [db2 m2] & Ha & Hw).
  assert (Hp2 : flush_pending (write_state db2) = false).
  { revert Ha. unfold attempt, zoom, map_err. destruct (Wal.append _ _) as [[] [w' m']]; by intros [= <- <- <-]. }
  destruct r as [[]|e]; [|by apply bind_ok_inv in Hw as (? & ? & ? & ?)].
  apply bind_ok_inv in Hw as ([] & s3 & [= <-] & Hw). by injection Hw as <- <-.
Qed.

Lemma write_split {S} `{!Storage.Storage S} db (s : S) k kd :
  flush_pending (write_state db) = false →
  Db.write k kd (db, s) =
  (_ ← write_mem k kd; db ← get_fst; if is_full (memtables db) then flush_locked else mret ()) (db, s).
Proof.
  intros Hp. unfold write_mem, Db.write. rewrite (bind_assoc get_fst).
  rewrite !(bind_ok get_fst _ (db, s) db (db, s)) by done. cbn beta zeta. rewrite Hp.
  rewrite (bind_assoc (mod_fst (mod_write claim))).
  rewrite !(bind_ok (mod_fst (mod_write claim)) _ (db, s) () (mod_write claim db, s)) by done.
  rewrite bind_assoc, !bind_run. destruct (attempt _ _) as [[[[]|e]|e|] [db2 s2]]; [|done..].
  by rewrite !bind_run.
Qed.
Lemma write_run db m k kd db1 m1 :
  flush_pending (write_state db) = false → write_mem k kd (db, m) = (Ok (), (db1, m1)) →
  Db.write k kd (db, m) = (if is_full (memtables db1) then flush_locked else mret ()) (db1, m1).
Proof. intros Hp Hw. rewrite write_split by done. erewrite bind_ok by exact Hw. by erewrite bind_ok by done. Qed.

(** What a write does to the client's map. *)
Definition apply_kind (k : bytes) (kd : ValueKind) (kv : gmap bytes bytes) : gmap bytes bytes :=
  match kd with Value b => <[k := b]> kv | Tombstone => base.delete k kv end.

(** A version newer than everything below and before it takes effect. *)
Lemma live_snoc (l base : list Entry) k kd q :
  (∀ w, (k, w) ∈ l → seq w < q) → (∀ w, (k, w) ∈ base → seq w < q) →
  live_map (newest ((l ++ [(k, mkValue q kd)]) ++ base)) = apply_kind k kd (live_map (newest (l ++ base))).
Proof.
  intros Hl Hb. rewrite <- (assoc_L (++)). cbn [app].
  assert (Hk : newest (l ++ (k, mkValue q kd) :: base) !! k = Some (mkValue q kd)).
  { apply first_newest; cbn [seq]; [intros w Hw; pose proof (Hl w Hw)|intros w Hw; pose proof (Hb w Hw)]; lia. }
  apply map_eq. intros k'. rewrite lookup_live_map. destruct (decide (k = k')) as [<-|Hne].
  - rewrite Hk. unfold apply_kind. destruct kd as [b|]; simpl; by rewrite ?lookup_insert_eq, ?lookup_delete_eq.
  - assert (E : newest (l ++ (k, mkValue q kd) :: base) !! k' = newest (l ++ base) !! k').
    { rewrite !newest_app. simpl. rewrite !lookup_nunion, lookup_singleton_ne by done.
      f_equal. by destruct (newest base !! k'). }
    rewrite E, <- lookup_live_map. unfold apply_kind.
    destruct kd; by rewrite ?lookup_insert_ne, ?lookup_delete_ne by done.
Qed.

Lemma write_live db m c es u k kd :
  db_inv db m c es u →
  let e := (k, mkValue (next_seq (write_state db)) kd) in
  live_map (newest ((es ++ [e]) ++ concat (tlists c (tiers (ver db))))) =
  apply_kind k kd (live_map (db_view db c es)).
Proof.
  intros Hi e. apply live_snoc.
  - intros w Hw. by pose proof (di_seqs _ _ _ _ _ Hi _ Hw) as [_ Hlt].
  - intros w Hw. apply elem_of_concat in Hw as (l & (meta & Hm & ->)%elem_of_tlists & Hw).
    pose proof (vi_seq _ _ _ _ (mi_version _ _ _ (di_manifest _ _ _ _ _ Hi)) meta _ Hm Hw).
    pose proof (di_next_seq _ _ _ _ _ Hi). simpl in *. lia.
Qed.

Definition write_cost (k : bytes) (kd : ValueKind) : Z := weight (k, mkValue 0 kd) + 3.

Lemma write_ok db m c es u k kd :
  db_inv db m c es u → flush_pending (write_state db) = false → u + write_cost k kd ≤ 2 ^ 30 →
  ∃ db' m' c' es', Db.write k kd (db, m) = (Ok (), (db', m')) ∧ db_inv db' m' c' es' (u + write_cost k kd) ∧
    live_map (db_view db' c' es') = apply_kind k kd (live_map (db_view db c es)) ∧
    dir db' = dir db ∧ options db' = options db ∧ flush_pending (write_state db') = false.
Proof.
  intros Hi Hp Hu. unfold write_cost in *.
  set (e := (k, mkValue (next_seq (write_state db)) kd)).
  assert (We : weight (k, mkValue 0 kd) = weight e) by by rewrite !weight_alt. rewrite We in *.
  pose proof (weight_pos e).
  destruct (write_mem_ok db m c es u k kd Hi) as (db1 & m1 & Hw & Hi1 & Hd & Ho & Hcur); [fold e; lia|]. fold e in Hi1.
  assert (Hp1 : flush_pending (write_state db1) = false) by by eapply write_mem_pending.
  assert (Hview : live_map (db_view db1 c (es ++ [e])) = apply_kind k kd (live_map (db_view db c es))).
  { unfold db_view. rewrite Hcur. by apply (write_live _ _ _ _ _ _ _ Hi). }
  rewrite (write_run _ _ _ _ _ _ Hp Hw). destruct (is_full (memtables db1)).
  - destruct (flush_locked_ok _ _ _ _ _ Hi1) as (db2 & m2 & c2 & Hf & Hi2 & Hv2 & Hd2 & Ho2 & Hp2 & _); [lia|].
    exists db2, m2, c2, []. split; [done|]. split; [by replace (u + (weight e + 3)) with (u + (weight e + 1) + 2) by lia|]. split_and!; congruence.
  - exists db1, m1, c, (es ++ [e]). split; [done|]. split; [|by split_and!].
    eapply db_inv_budget; [|exact Hi1]. lia.
Qed.

End spec.
End DbSpec.
