(* ===== verification/DbOpen.v ===== *)
(** Opening an engine: what a directory must hold for [open_on] to rebuild an
    engine with the same contents, and that an open engine, a killed one, one
    killed inside an append and an empty directory all leave that. *)
From Stdlib Require Import Strings.String.
From S2P Require Export DbSpec.

Module DbOpen.
Import SsFormat Manifest ManifestSpec Compaction Newest Tables MergeSpec CompactionSpec.
Import Memtable MemtableSpec Recovery WalSpec WalFrame RecordSpec Db DbSpec.

Section spec.
Context {CRC : Crc32} {CRCL : Crc32Laws} {XXH : Xxh3}.
Implicit Types (d p : path) (m : memfs) (v : Version) (meta : TableMeta) (c : Z → list Entry)
  (es : list Entry) (db : Db).

(** * Replay *)

Definition replay_seq (n : Z) es : Z := foldl (λ n e, Z.max n (u64_add (seq e.2) 1)) n es.

Definition ent_ok (e : Entry) : Prop := record_ok (seq e.2) (e.1, kind e.2).

Lemma decode_ent e : ent_ok e → decode_record (ent e) = Ok (rec_of e).
Proof.
  intros He. unfold ent. rewrite decode_encode_record by exact He. by destruct e as [k [q kd]].
Qed.

Lemma replay_ok (es : list Entry) n ms m :
  Forall ent_ok es →
  fold_m (ent <$> es) (n, ms) replay_record m =
  (Ok (replay_seq n es, mkSet (apply_writes es (active ms)) (frozen ms) (max_bytes ms) (next_arc ms)), m).
Proof.
  revert n ms. induction es as [|e es IH]; intros n ms He; [by destruct ms|].
  apply Forall_cons in He as [He Hes]. rewrite fmap_cons. cbn [fold_m].
  erewrite bind_ok; last first.
  { unfold replay_record. erewrite bind_ok by (unfold of_outcome; by rewrite decode_ent). reflexivity. }
  by rewrite IH.
Qed.

Lemma replay_seq_bounds n es u :
  n ≤ u → u < 2 ^ 64 → (∀ e, e ∈ es → 0 ≤ seq e.2 < u) →
  n ≤ replay_seq n es ≤ u ∧ ∀ e, e ∈ es → seq e.2 < replay_seq n es.
Proof.
  revert n. induction es as [|e es IH]; intros n Hn Hu He.
  { split; [done|]. by intros ? ?%elem_of_nil. }
  unfold replay_seq. cbn [foldl]. fold (replay_seq (Z.max n (u64_add (seq e.2) 1)) es).
  pose proof (He e ltac:(by left)). unfold u64_add. rewrite u64_wrap_id by lia.
  destruct (IH (Z.max n (seq e.2 + 1))) as [H1 H2]; [lia|done|intros; apply He; by right|].
  split; [lia|]. intros x [->|Hx]%elem_of_cons; [lia|by apply H2].
Qed.

Lemma weight_ent_ok e : weight e < 2 ^ 32 → 0 ≤ seq e.2 < 2 ^ 64 → ent_ok e.
Proof.
  rewrite weight_alt. intros Hw Hq. pose proof (blen_nonneg e.1). unfold ent_ok, record_ok. cbn [fst snd].
  destruct (kind e.2) as [b|]; [pose proof (blen_nonneg b)|]; split_and!; try done; lia.
Qed.

(** * What a directory holds *)

(** To be read; the log may still name what the tables hold. *)
Record disk_core d m v c es (u : Z) : Prop := {
  dk_log : ∃ i, log_on_disk d m (ent <$> es) i ∧ i ≤ u;
  dk_manifest : manifest_at d v m;
  dk_version : version_inv d m v c;
  dk_seqs e : e ∈ es → 0 ≤ seq e.2 < u;
  dk_newer : newer_than (bt_iter (newest es)) (concat (tlists c (tiers v)));
  dk_next_seq : 0 ≤ Manifest.next_seq v ≤ u;
  dk_budget : 1 ≤ u ≤ 2 ^ 30;
  dk_bytes : weights es + tweight c (tiers v) ≤ u;
  dk_ids : 1 ≤ next_table_id v ∧ next_table_id v + blen (all_tables v) ≤ u;
}.
(** And to be written to. *)
Record disk_inv d m v c es (u : Z) : Prop := {
  dk_core :> disk_core d m v c es u;
  dk_free : ids_free d m v;
}.

(** Another log next to the same tables. *)
Lemma disk_core_log d m v c es u m' es' u' :
  disk_core d m v c es u → outside (wal_file d) m m' → (∃ i, log_on_disk d m' (ent <$> es') i ∧ i ≤ u') →
  u ≤ u' ≤ 2 ^ 30 → (∀ e, e ∈ es' → 0 ≤ seq e.2 < u') →
  newer_than (bt_iter (newest es')) (concat (tlists c (tiers v))) → weights es' + tweight c (tiers v) ≤ u' →
  disk_core d m' v c es' u'.
Proof.
  intros [] Ho Hlog Hu Hs Hn Hw. pose proof (blen_nonneg (all_tables v)). split; try done; try lia.
  - destruct dk_manifest0 as [Hf Hok]. split; [|done]. rewrite Ho; [done|apply manifest_not_wal_file].
  - apply (version_inv_ext d m); [done|lia|]. intros i _. apply Ho, table_not_wal_file.
Qed.

Definition disk_view c v es : kvmap := newest (es ++ concat (tlists c (tiers v))).

(** [open_on] after the manifest was read. *)
Lemma open_rest_ok d m v c es u o :
  disk_core d m v c es u → 2 ≤ tier_fanout o →
  ∃ w r m' q ms, Wal.open d (Wal.options_with (durability o)) m = (Ok (w, r), m') ∧
    fold_m (records r) (Manifest.next_seq v, set_new (memtable_size o)) replay_record m' = (Ok (q, ms), m') ∧
    outside (wal_file d) m m' ∧
    db_core (mkDb d o w ms (mkManifest d (mkRef 0 v) [] ∅ 1) ∅ (mkWrite q 0 false)) m' c es u.
Proof.
  intros [(i & Hlog & Hi) Hmf Hv Hseqs Hnew Hq Hu Hb Hid] Hf.
  destruct (open_log_ok d m _ i (Wal.options_with (durability o)) Hlog) as (w & r & m' & Ho & Hr & Hw & Hwd & Hco & Hseg & Hdur).
  pose proof (open_outside _ _ _ _ _ Ho) as Hout. pose proof (blen_nonneg (all_tables v)).
  pose proof (tweight_nonneg c (tiers v)). pose proof (weights_nonneg es).
  assert (Hes : Forall ent_ok es).
  { apply Forall_forall. intros e He. apply weight_ent_ok; [pose proof (weights_elem es e He); lia|].
    specialize (Hseqs e He). lia. }
  destruct (replay_seq_bounds (Manifest.next_seq v) es u) as [Hq1 Hq2]; [lia|lia|intros e He; specialize (Hseqs e He); lia|].
  do 5 eexists. split; [exact Ho|]. split; [rewrite Hr; by apply replay_ok|]. split; [done|].
  assert (Hinv : manifest_core (mkManifest d (mkRef 0 v) [] ∅ 1) m' c).
  { apply manifest_core_outside with m; [split_and!; cbn; lia|done|]. split; try done. intros r' j Hr'. by apply elem_of_nil in Hr'. }
  split; cbn [Db.dir options wal memtables manifest readers write_state next_seq in_flight Manifest.version current];
    try done; try lia.
  - cbn [active]. rewrite apply_writes_map. apply (left_id_L ∅ nunion).
  - by apply apply_writes_wf.
  - intros e He. specialize (Hseqs e He). split; [lia|by apply Hq2].
  - by rewrite Hco; simpl; lia.
Qed.

Lemma open_on_core d m v c es u o :
  disk_core d m v c es u → 2 ≤ tier_fanout o →
  ∃ db m', open_on d o m = (Ok db, m') ∧ db_core db m' c es u ∧ db_view db c es = disk_view c v es ∧
    dir db = d ∧ options db = o ∧ flush_pending (write_state db) = false ∧
    (ids_free d m v → ids_free d m' (ver db)).
Proof.
  intros Hk Hf. destruct (open_rest_ok d m v c es u o Hk Hf) as (w & r & m' & q & ms & Ho & Hfold & Hout & Hi).
  do 2 eexists. split.
  - unfold open_on. erewrite bind_ok by (apply map_err_ok, open_existing, Hk). cbn zeta.
    erewrite bind_ok by (apply map_err_ok; exact Ho). cbn beta iota.
    erewrite bind_ok by exact Hfold. reflexivity.
  - split; [exact Hi|]. split_and!; try done. by apply ids_free_outside.
Qed.

Lemma open_on_ok d m v c es u o :
  disk_inv d m v c es u → 2 ≤ tier_fanout o →
  ∃ db m', open_on d o m = (Ok db, m') ∧ db_inv db m' c es u ∧ db_view db c es = disk_view c v es ∧
    dir db = d ∧ options db = o ∧ flush_pending (write_state db) = false.
Proof.
  intros [Hk Hfree] Hf. destruct (open_on_core d m v c es u o Hk Hf) as (db & m' & Ho & Hi & Hv & Hd & Hop & Hp & Hfr).
  exists db, m'. split_and!; try done. split; [done|]. rewrite Hd. by apply Hfr.
Qed.

(** An empty directory: no manifest, no segment, no table. *)
Definition fresh_dir d m : Prop :=
  m !! Storage.join d MANIFEST_NAME = None ∧ seg_files d m [] ∧ ids_free d m version_empty.

(** The disk once the first manifest is written. *)
Definition fresh_manifest d m : memfs :=
  <[Storage.join d MANIFEST_NAME := encode_version version_empty]> (base.delete (Storage.join d MANIFEST_TMP) m).

Lemma fresh_disk d m : fresh_dir d m → disk_inv d (fresh_manifest d m) version_empty (λ _, []) [] 1.
Proof.
  intros (Hm & Hs & Hfree). set (m1 := fresh_manifest d m). split.
  - split; try done; try lia.
    + exists 1. split; [|done]. apply log_none. apply (seg_files_ext d m); [|done].
      intros p _ [i Hp]. destruct (segment_foreign d p i Hp) as (_ & N1 & N2). unfold m1, fresh_manifest.
      by rewrite lookup_insert_ne, lookup_delete_ne by done.
    + split; [apply lookup_insert_eq|]. split_and!; [apply Forall_nil_2|done..].
    + split; try done.
      * intros meta Hmt. by apply elem_of_nil in Hmt.
      * constructor.
      * intros meta Hmt. by apply elem_of_nil in Hmt.
      * constructor.
      * intros meta kv Hmt. by apply elem_of_nil in Hmt.
    + by intros e ?%elem_of_nil.
    + by intros k v w ?%elem_of_nil.
  - intros i Hi. destruct (table_path_foreign d i) as [N1 N2]; [cbn in Hi; lia|]. unfold m1, fresh_manifest.
    rewrite lookup_insert_ne, lookup_delete_ne by done. by apply Hfree.
Qed.

Lemma open_on_fresh d m o :
  fresh_dir d m → 2 ≤ tier_fanout o →
  ∃ db m' c, open_on d o m = (Ok db, m') ∧ db_inv db m' c [] 1 ∧ live_map (db_view db c []) = ∅ ∧
    dir db = d ∧ options db = o ∧ flush_pending (write_state db) = false.
Proof.
  intros Hfr Hf. pose proof Hfr as (Hm & _). destruct (fresh_disk d m Hfr) as [Hk Hfree].
  set (m1 := fresh_manifest d m) in *.
  destruct (open_rest_ok d m1 _ _ _ _ o Hk Hf) as (w & r & m' & q & ms & Ho & Hfold & Hout & Hi).
  do 3 eexists. split.
  - unfold open_on. erewrite bind_ok by (apply map_err_ok, open_fresh, Hm). cbn zeta. fold (fresh_manifest d m). fold m1.
    erewrite bind_ok by (apply map_err_ok; exact Ho). cbn beta iota.
    erewrite bind_ok by exact Hfold. reflexivity.
  - split; [|by split_and!]. split; [exact Hi|]. by eapply ids_free_outside.
Qed.

(** * What an open engine leaves on disk *)

Lemma db_core_disk db m c es u : db_core db m c es u → disk_core (dir db) m (ver db) c es u.
Proof.
  intros []. destruct di_manifest0. rewrite di_mf_dir0 in *. split; try done; try lia.
  - exists (Segment.seg_id (Wal.active (wal db))). split; [|done].
    rewrite <- di_wal_dir0. by apply wal_holds_disk.
  - intros e He. specialize (di_seqs0 e He). lia.
Qed.
Lemma db_inv_disk db m c es u : db_inv db m c es u → disk_inv (dir db) m (ver db) c es u.
Proof. intros [Hc Hf]. split; [by apply db_core_disk|done]. Qed.

(** A write killed after the first [n] bytes of its record reached the log. *)
Definition torn_write (n : nat) (k : bytes) (kd : ValueKind) db m : memfs :=
  let p := Segment.seg_path (Wal.active (wal db)) in
  match m !! p with
  | Some b => <[p := b ++ take n (Frame.encode (encode_record (next_seq (write_state db)) k kd))]> m
  | None => m
  end.

Lemma torn_write_disk n k kd db m c es u :
  let e := (k, mkValue (next_seq (write_state db)) kd) in
  db_inv db m c es u → u + weight e ≤ 2 ^ 30 →
  disk_inv (dir db) (torn_write n k kd db m) (ver db) c
    (if decide (n < length (Frame.encode (ent e)))%nat then es else es ++ [e]) (u + weight e).
Proof.
  intros e Hi Hu. pose proof (db_core_disk _ _ _ _ _ Hi) as []. pose proof (di_core _ _ _ _ _ Hi) as [].
  pose proof (weight_pos e) as Hw. pose proof (weights_nonneg es). pose proof (tweight_nonneg c (tiers (ver db))).
  destruct (torn_append (wal db) m (ent <$> es) (ent e) n (proj1 di_wal0)) as (b & Hb & Hlog).
  { apply ent_small. lia. }
  { change [ent e] with (ent <$> [e]). rewrite <- fmap_app.
    pose proof (frames_weights (es ++ [e])) as Hf. rewrite weights_app in Hf. cbn [weights foldr] in Hf.
    unfold u64_max. lia. }
  unfold torn_write. rewrite Hb. change (encode_record (next_seq (write_state db)) k kd) with (ent e).
  set (m' := <[_ := _]> m) in *. rewrite di_wal_dir0 in Hlog.
  assert (Hout : outside (wal_file (dir db)) m m').
  { apply outside_insert; [|done]. destruct (wal_holds_path _ _ _ di_wal0) as [i ->].
    rewrite di_wal_dir0. apply wal_file_segment. }
  destruct (db_inv_outside _ _ _ _ _ _ Hi Hout) as (_ & _ & Hfree). split; [|done].
  apply (disk_core_log (dir db) m _ _ es u); [by apply db_core_disk|done| |lia|..].
  - exists (Segment.seg_id (Wal.active (wal db))). split; [|lia].
    case_decide; [done|]. by rewrite fmap_app.
  - intros x Hx. assert (x ∈ es ∨ x = e) as [Hxe| ->].
    { case_decide; [by left|]. apply elem_of_app in Hx as [|Hx%list_elem_of_singleton]; auto. }
    + specialize (di_seqs0 x Hxe). lia.
    + cbn [e snd seq]. lia.
  - case_decide; [done|]. apply newer_snoc; [done|]. intros w Hw'.
    apply elem_of_concat in Hw' as (l & (meta & Hm' & ->)%elem_of_tlists & Hw').
    pose proof (vi_seq _ _ _ _ (mi_version _ _ _ di_manifest0) meta _ Hm' Hw'). cbn in *. lia.
  - case_decide; rewrite ?weights_app; cbn [weights foldr]; lia.
Qed.
End spec.
End DbOpen.
