(* ===== verification/DbRefine.v ===== *)
(** What a client of the engine may rely on: on every backend that meets the
    storage contract, an open database behaves as the key-value map of its live
    entries under any sequence of operations, and so does the database opened
    again after the process ended, or died inside an append. *)
From Stdlib Require Import Strings.String.
From S2P Require Export DbOpen SimFsSpec.

Module DbRefine.
Import Memtable WalSpec RecordSpec Db DbSpec DbOpen.

(** * Transport *)

Section sims.
Context `{!Crc32, !Xxh3} {S S2 : Type} {ST : Storage.Storage S} {ST2 : Storage.Storage S2} {SD : Deaths S S2} {SS : StorageSim S S2}.
Abbreviation V := (st_view (S:=S) (S2:=S2)).

Lemma with_version_sim {A} (f1 : Manifest.Version → M (Db * S) DbError A) f2 :
  (∀ v, msim (with_same V) (f1 v) (f2 v)) →
  msim (with_same V) (with_version f1) (with_version f2).
Proof.
  intros Hf. apply (msim_wrapped _ (λ db, set_manifest (Manifest.pin (Manifest.arc_id (Manifest.current (manifest db))) (manifest db)) db)
    (λ db db', set_manifest (Manifest.unpin (Manifest.arc_id (Manifest.current (manifest db))) (manifest db')) db')
    (λ db, f1 (ver db)) (λ db, f2 (ver db))). intros db. apply Hf.
Qed.

Lemma open_on_sim d o : msim V (open_on (S:=S) d o) (open_on d o).
Proof. unfold open_on, replay_record. solve_msim. Qed.
Lemma reader_for_sim meta : msim (with_same V) (reader_for (S:=S) meta) (reader_for meta).
Proof. unfold reader_for. solve_msim. Qed.
Hint Resolve reader_for_sim : msim.
Lemma get_tables_sim k metas : msim (with_same V) (get_tables (S:=S) k metas) (get_tables k metas).
Proof. induction metas as [|meta metas IH]; simpl; solve_msim. Qed.
Hint Resolve get_tables_sim : msim.
Lemma Db_get_sim k : msim (with_same V) (Db.get (S:=S) k) (Db.get k).
Proof.
  unfold Db.get. apply msim_bind; [eauto with msim|]. intros db. case_match; [eauto with msim|].
  apply with_version_sim. eauto with msim.
Qed.
Lemma scan_sim r : msim (with_same V) (Db.scan (S:=S) r) (Db.scan r).
Proof.
  unfold Db.scan. apply msim_bind; [eauto with msim|]. intros db. apply msim_bind; [eauto with msim|]. intros srcs.
  apply msim_bind; [|eauto with msim]. apply with_version_sim. intros v. unfold scan_table. solve_msim.
Qed.
Lemma flush_frozen_sim q f : msim (with_same V) (flush_frozen (S:=S) q f) (flush_frozen q f).
Proof. apply with_version_sim. intros v. solve_msim. Qed.
Lemma compact_all_sim n fanout : msim (with_same V) (compact_all (S:=S) n fanout) (compact_all n fanout).
Proof. induction n as [|n IH]; simpl; solve_msim. Qed.
Hint Resolve flush_frozen_sim compact_all_sim : msim.
Lemma flush_quiesced_sim : msim (with_same V) (flush_quiesced (S:=S)) flush_quiesced.
Proof. unfold flush_quiesced. solve_msim. Qed.
Lemma flush_sim : msim (with_same V) (Db.flush (S:=S)) Db.flush.
Proof. unfold Db.flush, flush_locked, flush_quiesced. solve_msim. Qed.
Lemma write_sim k kd : msim (with_same V) (Db.write (S:=S) k kd) (Db.write k kd).
Proof. pose proof flush_sim as Hf. unfold Db.flush in Hf. unfold Db.write. solve_msim. Qed.
End sims.

(** * The specification *)

(** A client's calls, and what it sees of them. *)
Inductive op : Type :=
  | OpPut (k v : bytes) | OpDelete (k : bytes) | OpGet (k : bytes)
  | OpScan (r : KeyRange bytes) | OpFlush.
Inductive resp : Type := Done | Found (v : option bytes) | Rows (l : list (bytes * bytes)).

(** The key-value map the database stands for. *)
Definition spec_step (kv : gmap bytes bytes) (o : op) : resp * gmap bytes bytes :=
  match o with
  | OpPut k v => (Done, <[k := v]> kv)
  | OpDelete k => (Done, base.delete k kv)
  | OpGet k => (Found (kv !! k), kv)
  | OpScan r => (Rows (bt_range (in_range r) kv), kv)
  | OpFlush => (Done, kv)
  end.
Fixpoint spec_run (kv : gmap bytes bytes) (ops : list op) : list resp * gmap bytes bytes :=
  match ops with
  | [] => ([], kv)
  | o :: ops' =>
      let '(r, kv1) := spec_step kv o in
      let '(rs, kv2) := spec_run kv1 ops' in
      (r :: rs, kv2)
  end.

(** The engine's side of a call; a scan is drained. *)
Definition run_op `{!Crc32, !Xxh3} {S} `{!Storage.Storage S} (o : op) : M (Db * S) DbError resp :=
  match o with
  | OpPut k v => _ ← put k v; mret Done
  | OpDelete k => _ ← Db.delete k; mret Done
  | OpGet k => v ← Db.get k; mret (Found v)
  | OpScan r => it ← Db.scan r; l ← of_outcome (MergeIter.live_collect it); mret (Rows l)
  | OpFlush => _ ← Db.flush; mret Done
  end.
Fixpoint run_ops `{!Crc32, !Xxh3} {S} `{!Storage.Storage S} (ops : list op) : M (Db * S) DbError (list resp) :=
  match ops with
  | [] => mret []
  | o :: ops' => r ← run_op o; rs ← run_ops ops'; mret (r :: rs)
  end.

(** What a call adds to the budget, and the ranges a scan accepts. *)
Definition op_cost (o : op) : Z :=
  match o with
  | OpPut k v => write_cost k (Value v)
  | OpDelete k => write_cost k Tombstone
  | OpFlush => 2
  | OpGet _ | OpScan _ => 0
  end.
Definition op_ok (o : op) : Prop :=
  match o with OpScan r => bad_range r = false | _ => True end.
Definition total_cost (ops : list op) : Z := foldr (λ o z, op_cost o + z) 0 ops.

Lemma write_cost_pos k kd : 3 ≤ write_cost k kd.
Proof. unfold write_cost. pose proof (Tables.weight_pos (k, mkValue 0 kd)). lia. Qed.
Lemma op_cost_nonneg o : 0 ≤ op_cost o.
Proof. destruct o as [k v|k| | |]; simpl; [pose proof (write_cost_pos k (Value v))|pose proof (write_cost_pos k Tombstone)|..]; lia. Qed.
Lemma total_cost_nonneg ops : 0 ≤ total_cost ops.
Proof. induction ops as [|o ops IH]; simpl; [done|]. pose proof (op_cost_nonneg o). lia. Qed.

Section sims.
Context `{!Crc32, !Xxh3} {S S2 : Type} {ST : Storage.Storage S} {ST2 : Storage.Storage S2} {SD : Deaths S S2} {SS : StorageSim S S2}.
Abbreviation V := (st_view (S:=S) (S2:=S2)).
Lemma run_op_sim o : msim (with_same V) (run_op (S:=S) o) (run_op o).
Proof.
  pose proof (write_sim (S:=S)). pose proof (Db_get_sim (S:=S)). pose proof (scan_sim (S:=S)). pose proof (flush_sim (S:=S)).
  destruct o; unfold run_op, put, Db.delete; solve_msim.
Qed.
Lemma run_ops_sim ops : msim (with_same V) (run_ops (S:=S) ops) (run_ops ops).
Proof. pose proof run_op_sim. induction ops as [|o ops IH]; simpl; solve_msim. Qed.
End sims.

Section refine.
Context {CRC : Crc32} {CRCL : Crc32Laws} {XXH : Xxh3}.

(** ** On the abstract file system *)

(** The engine [db] over the files [m] stands for the map [kv]; [u] bounds what
    it has used so far. *)
Definition mem_rep (d : path) (o : Options) (kv : gmap bytes bytes) (u : Z) (db : Db) (m : memfs) : Prop :=
  ∃ c es, db_inv db m c es u ∧ live_map (db_view db c es) = kv ∧
    dir db = d ∧ options db = o ∧ flush_pending (write_state db) = false.

Lemma reads_rep d o kv u db m db' : mem_rep d o kv u db m → reads_to db m db' → mem_rep d o kv u db' m.
Proof.
  intros (c & es & Hi & Hv & Hd & Ho & Hp) Hr. exists c, es.
  pose proof (reads_to_inv _ _ _ _ _ _ Hi Hr) as Hi'. destruct Hr as [(E1 & E2 & _ & _ & E5 & E6 & _ & _) _].
  split; [done|]. unfold db_view in *. rewrite E1, E2, E5, E6. done.
Qed.

Lemma run_op_mem d o kv u db m (p : op) :
  mem_rep d o kv u db m → op_ok p → u + op_cost p ≤ 2 ^ 30 →
  ∃ db' m', run_op p (db, m) = (Ok (spec_step kv p).1, (db', m')) ∧
    mem_rep d o (spec_step kv p).2 (u + op_cost p) db' m'.
Proof.
  intros Hrep Hok Hu. pose proof Hrep as (c & es & Hi & Hv & Hd & Ho & Hp).
  assert (Hwrite : ∀ k kd, u + write_cost k kd ≤ 2 ^ 30 →
    ∃ db' m', Db.write k kd (db, m) = (Ok (), (db', m')) ∧
      mem_rep d o (apply_kind k kd kv) (u + write_cost k kd) db' m').
  { intros k kd Hc. destruct (write_ok db m c es u k kd Hi Hp Hc)
      as (db' & m' & c' & es' & Hw & Hi' & Hv' & Hd' & Ho' & Hp').
    exists db', m'. split; [done|]. exists c', es'. split; [done|]. split_and!; congruence. }
  destruct p as [k v|k|k|r|]; cbn [run_op spec_step fst snd op_cost op_ok] in *.
  - destruct (Hwrite k (Value v) Hu) as (db' & m' & Hw & Hr). exists db', m'. split; [|exact Hr].
    unfold put. by erewrite bind_ok by exact Hw.
  - destruct (Hwrite k Tombstone Hu) as (db' & m' & Hw & Hr). exists db', m'. split; [|exact Hr].
    unfold Db.delete. by erewrite bind_ok by exact Hw.
  - destruct (get_ok db m c es u k Hi) as (db' & Hg & Hr). exists db', m. rewrite Z.add_0_r.
    split; [|by eapply reads_rep]. erewrite bind_ok by exact Hg. by rewrite Hv.
  - destruct (scan_ok db m c es u r Hi Hok) as (db' & it & Hs & Hr & Hl). exists db', m. rewrite Z.add_0_r.
    split; [|by eapply reads_rep]. erewrite bind_ok by exact Hs.
    erewrite bind_ok by (unfold of_outcome; by rewrite Hl). by rewrite Hv.
  - destruct (flush_locked_ok db m c es u Hi Hu) as (db' & m' & c' & Hf & Hi' & Hv' & Hd' & Ho' & Hp' & _).
    exists db', m'. split; [by erewrite bind_ok by exact Hf|].
    exists c', []. split; [done|]. split_and!; congruence.
Qed.

Lemma run_ops_mem d o kv u db m (ops : list op) :
  mem_rep d o kv u db m → Forall op_ok ops → u + total_cost ops ≤ 2 ^ 30 →
  ∃ db' m', run_ops ops (db, m) = (Ok (spec_run kv ops).1, (db', m')) ∧
    mem_rep d o (spec_run kv ops).2 (u + total_cost ops) db' m'.
Proof.
  revert kv u db m. induction ops as [|p ops IH]; intros kv u db m Hrep Hok Hu; cbn [total_cost foldr] in *.
  { exists db, m. by rewrite Z.add_0_r. }
  apply Forall_cons in Hok as [Hp Hok]. pose proof (total_cost_nonneg ops) as Hn. unfold total_cost in Hn.
  destruct (run_op_mem d o kv u db m p Hrep Hp) as (db1 & m1 & H1 & Hrep1); [lia|].
  destruct (IH (spec_step kv p).2 (u + op_cost p) db1 m1 Hrep1 Hok) as (db2 & m2 & H2 & Hrep2); [unfold total_cost; lia|].
  exists db2, m2. cbn [run_ops spec_run]. destruct (spec_step kv p) as [r kv1]. cbn [fst snd] in *.
  destruct (spec_run kv1 ops) as [rs kv2]. cbn [fst snd] in *.
  split; [|by rewrite Z.add_assoc]. erewrite bind_ok by exact H1. by erewrite bind_ok by exact H2.
Qed.

Lemma reopen_mem d o o' kv u db m :
  mem_rep d o kv u db m → 2 ≤ tier_fanout o' →
  ∃ db' m', open_on d o' m = (Ok db', m') ∧ mem_rep d o' kv u db' m'.
Proof.
  intros (c & es & Hi & Hv & Hd & _ & _) Hf. pose proof (db_inv_disk _ _ _ _ _ Hi) as Hk. rewrite Hd in Hk.
  destruct (open_on_ok d m (ver db) c es u o' Hk Hf) as (db' & m' & Ho & Hi' & Hv' & Hd' & Ho' & Hp').
  exists db', m'. split; [done|]. exists c, es. split; [done|]. split_and!; try done. by rewrite Hv'.
Qed.

(** A directory whose last operation was killed inside an append. *)
Lemma torn_mem d o o' kv u db m n k kd :
  mem_rep d o kv u db m → u + write_cost k kd ≤ 2 ^ 30 → 2 ≤ tier_fanout o' →
  ∃ db' m', open_on d o' (torn_write n k kd db m) = (Ok db', m') ∧
    mem_rep d o' (if decide (Z.of_nat n < 8 + blen (encode_record (next_seq (write_state db)) k kd))
                  then kv else apply_kind k kd kv) (u + write_cost k kd) db' m'.
Proof.
  intros (c & es & Hi & Hv & Hd & _ & _) Hu Hf. unfold write_cost in *.
  set (e := (k, mkValue (next_seq (write_state db)) kd)).
  assert (We : Tables.weight (k, mkValue 0 kd) = Tables.weight e) by by rewrite !Tables.weight_alt.
  rewrite We in *. pose proof (Tables.weight_pos e).
  pose proof (torn_write_disk n k kd db m c es u Hi ltac:(fold e; lia)) as Hk. fold e in Hk. rewrite Hd in Hk.
  destruct (open_on_ok d _ (ver db) c _ _ o' Hk Hf) as (db' & m' & Ho & Hi' & Hv' & Hd' & Ho' & Hp').
  exists db', m'. split; [done|]. eexists c, _. split; [eapply db_inv_budget; [|exact Hi']; lia|].
  split_and!; try done. rewrite Hv'. pose proof (Frame.blen_encode (ent e)) as Hl.
  unfold Frame.HEADER_SZ, Frame.LEN_SZ, Frame.CRC_SZ, blen in Hl. change (ent e) with (encode_record (next_seq (write_state db)) k kd) in *.
  unfold blen. case_decide as H1; case_decide as H2; try lia.
  - exact Hv.
  - rewrite <- Hv. apply (write_live _ _ _ _ _ _ _ Hi).
Qed.
End refine.

(** * The contract of the engine *)

Section contract.
Context {CRC : Crc32} {CRCL : Crc32Laws} {XXH : Xxh3}.
Context {S : Type} {ST : Storage.Storage S} {STS : StorageSpec S}.
Implicit Types (s : S) (d : path) (o : Options) (kv : gmap bytes bytes) (u : Z) (db : Db).

(** The open engine [db] on the backend [s] stands for [kv]. *)
Definition db_rep d o kv u db s : Prop := ∃ m, st_view s m ∧ mem_rep d o kv u db m.

Lemma db_open_fresh_ok d o s m :
  st_view s m → fresh_dir d m → 2 ≤ tier_fanout o →
  ∃ db s', open_on d o s = (Ok db, s') ∧ db_rep d o ∅ 1 db s'.
Proof.
  intros Hm Hfresh Hf.
  destruct (open_on_fresh d m o Hfresh Hf) as (db1 & m1 & c & Ho1 & Hi & Hv & Hd & Ho & Hp).
  destruct (msim_run st_view (open_on d o) _ s m _ _ (open_on_sim d o) Hm Ho1) as (s1 & Hs1 & Hm1).
  exists db1, s1. split; [done|]. exists m1. split; [done|]. by exists c, [].
Qed.

Lemma run_op_rep d o kv u db s (p : op) :
  db_rep d o kv u db s → op_ok p → u + op_cost p ≤ 2 ^ 30 →
  ∃ db' s', run_op p (db, s) = (Ok (spec_step kv p).1, (db', s')) ∧
    db_rep d o (spec_step kv p).2 (u + op_cost p) db' s'.
Proof.
  intros (m & Hm & Hrep) Hok Hu. destruct (run_op_mem d o kv u db m p Hrep Hok Hu) as (db' & m' & Hr & Hrep').
  destruct (msim_same_run st_view (run_op p) (run_op p) db s m _ _ _ (run_op_sim p) Hm Hr) as (s' & Hr' & Hm').
  exists db', s'. split; [done|]. by exists m'.
Qed.

(** C1: every call of the engine does what it does on the key-value map the
    engine stands for, returns the same response, and leaves the engine standing
    for the resulting map: puts, deletes, lookups, range scans and flushes with
    their compactions, on any backend. *)
Theorem db_refines d o kv u db s (p : op) :
  db_rep d o kv u db s → op_ok p → u + op_cost p ≤ 2 ^ 30 →
  ∃ db' s', run_op p (db, s) = (Ok (spec_step kv p).1, (db', s')) ∧
    db_rep d o (spec_step kv p).2 (u + op_cost p) db' s'.
Proof. apply run_op_rep. Qed.

(** C2: a database opened on an empty directory, given any calls, answers them as
    an initially empty key-value map does; opened again, under whatever options,
    it stands for the map those calls left. *)
Theorem db_lifetime d o o' s m (ops : list op) :
  st_view s m → fresh_dir d m → 2 ≤ tier_fanout o → 2 ≤ tier_fanout o' →
  Forall op_ok ops → 1 + total_cost ops ≤ 2 ^ 30 →
  ∃ db1 s1 db2 s2 db3 s3,
    open_on d o s = (Ok db1, s1) ∧
    run_ops ops (db1, s1) = (Ok (spec_run ∅ ops).1, (db2, s2)) ∧
    open_on d o' s2 = (Ok db3, s3) ∧
    db_rep d o' (spec_run ∅ ops).2 (1 + total_cost ops) db3 s3.
Proof.
  intros Hm Hfresh Hf Hf' Hok Hu.
  destruct (open_on_fresh d m o Hfresh Hf) as (db1 & m1 & c & Ho1 & Hi & Hv & Hd & Ho & Hp).
  destruct (run_ops_mem d o ∅ 1 db1 m1 ops) as (db2 & m2 & Hr & Hrep2); [by exists c, []|done|done|].
  destruct (reopen_mem d o o' _ _ db2 m2 Hrep2 Hf') as (db3 & m3 & Ho3 & Hrep3).
  destruct (msim_run st_view (open_on d o) _ s m _ _ (open_on_sim d o) Hm Ho1) as (s1 & Hs1 & Hm1).
  destruct (msim_same_run st_view (run_ops ops) (run_ops ops) db1 s1 m1 _ _ _ (run_ops_sim ops) Hm1 Hr) as (s2 & Hs2 & Hm2).
  destruct (msim_run st_view (open_on d o') _ s2 m2 _ _ (open_on_sim d o') Hm2 Ho3) as (s3 & Hs3 & Hm3).
  exists db1, s1, db2, s2, db3, s3. split_and!; [done..|]. by exists m3.
Qed.

(** C8: a process killed inside the append of a write loses nothing written
    before: opened again, the database holds the old map, or, once all of the
    record's frame is in the file, the map with the write in it. *)
Theorem db_torn_write d o o' kv u db s k kd :
  db_rep d o kv u db s → u + write_cost k kd ≤ 2 ^ 30 → 2 ≤ tier_fanout o' →
  ∃ m, st_view s m ∧ ∀ n s1, st_view s1 (torn_write n k kd db m) →
    ∃ db' s', open_on d o' s1 = (Ok db', s') ∧
      db_rep d o' (if decide (Z.of_nat n < 8 + blen (encode_record (next_seq (write_state db)) k kd))
                   then kv else apply_kind k kd kv) (u + write_cost k kd) db' s'.
Proof.
  intros (m & Hm & Hrep) Hu Hf. exists m. split; [done|]. intros n s1 Hs1.
  destruct (torn_mem d o o' kv u db m n k kd Hrep Hu Hf) as (db' & m' & Ho & Hrep').
  destruct (msim_run st_view (open_on d o') _ s1 _ _ _ (open_on_sim d o') Hs1 Ho) as (s' & Hs' & Hm').
  exists db', s'. split; [done|]. by exists m'.
Qed.
End contract.

(** ** Concrete runs *)

Lemma fresh_empty d : fresh_dir d ∅.
Proof.
  split_and!; [done| |done]. split; [constructor|by intros ? ? ?%elem_of_nil..|].
  intros p id [b Hb]. done.
Qed.

Definition sample_options : Options := mkOptions Wal.GroupCommit 64 2.
Definition sample_ops : list op :=
  [OpPut (lit "a") (lit "1"); OpPut (lit "b") (lit "2"); OpDelete (lit "a"); OpFlush;
   OpGet (lit "a"); OpScan full_range].

#[local] Existing Instance Sample.crc.
#[local] Existing Instance Sample.crc_laws.
#[local] Existing Instance Sample.xxh3.
#[local] Existing Instance Sample.rng.

(** Just after opening, on the simulator. *)
Lemma sample_open :
  ∃ db s, open_on [] sample_options (SimFs.with_seed (R:=Z) 7) = (Ok db, s) ∧
    db_rep [] sample_options ∅ 1 db s.
Proof. by apply (db_open_fresh_ok _ _ _ ∅); [apply SimSpec.st_view_with_seed|apply fresh_empty|]. Qed.

Lemma db_refines_witness :
  ∃ db s db' s', open_on [] sample_options (SimFs.with_seed (R:=Z) 7) = (Ok db, s) ∧
    run_op (OpPut (lit "a") (lit "1")) (db, s) = (Ok Done, (db', s')) ∧
    db_rep [] sample_options {[ lit "a" := lit "1" ]} 44 db' s'.
Proof.
  destruct sample_open as (db & s & Ho & Hrep).
  destruct (db_refines [] sample_options ∅ 1 db s (OpPut (lit "a") (lit "1")) Hrep Logic.I) as (db' & s' & Hr & Hrep');
    [by vm_compute|].
  exists db, s, db', s'. split; [exact Ho|]. split; [exact Hr|]. exact Hrep'.
Defined.

Lemma db_lifetime_witness :
  ∃ db1 s1 db2 s2 db3 s3,
    open_on [] sample_options (SimFs.with_seed (R:=Z) 7) = (Ok db1, s1) ∧
    run_ops sample_ops (db1, s1) = (Ok (spec_run ∅ sample_ops).1, (db2, s2)) ∧
    open_on [] sample_options s2 = (Ok db3, s3) ∧
    db_rep [] sample_options (spec_run ∅ sample_ops).2 (1 + total_cost sample_ops) db3 s3.
Proof.
  apply (db_lifetime [] sample_options sample_options (SimFs.with_seed (R:=Z) 7) ∅ sample_ops).
  - apply SimSpec.st_view_with_seed.
  - apply fresh_empty.
  - done.
  - done.
  - by repeat constructor.
  - by vm_compute.
Defined.

Lemma db_torn_write_witness :
  ∃ db s m, open_on [] sample_options (SimFs.with_seed (R:=Z) 7) = (Ok db, s) ∧ st_view s m ∧
    ∀ n s1, st_view (S:=SimFs.SimState Z) s1 (torn_write n (lit "a") Tombstone db m) →
    ∃ db' s', open_on [] sample_options s1 = (Ok db', s').
Proof.
  destruct sample_open as (db & s & Ho & Hrep).
  destruct (db_torn_write [] sample_options sample_options ∅ 1 db s (lit "a") Tombstone Hrep) as (m & Hm & Ht);
    [by vm_compute|done|].
  exists db, s, m. split; [done|]. split; [done|]. intros n s1 Hs1.
  destruct (Ht n s1 Hs1) as (db' & s' & Hopen & _). eauto.
Defined.
End DbRefine.
