(* ===== verification/CrashTables.v ===== *)
(** Power loss while tables and manifests are written: a table under construction
    is never durable before the manifest that may name it, the manifest is
    switched whole, and collecting garbage only removes what no version names. *)
From Stdlib Require Import Strings.String.
From S2P Require Export Reads CompactionSpec.

Module CrashTables.
Import Durable CrashLogic Reads SsFormat Manifest ManifestSpec Compaction Tables CompactionSpec.

Section tables.
Context {CRC : Crc32} {XXH : Xxh3} {R : Type} {RNG : Rng R} {RL : RngLaws R}.
Abbreviation T := (Traced (SimFs.SimState R)).
Implicit Types (d p : path) (m : memfs) (D : path → Prop).

(** ** The builder *)

(** The builder of the file [p], which is new. *)
Definition building d m0 p (t0 : T) (x : SsTable.SsTableBuilder * T) : Prop :=
  SsTable.b_path x.1 = p ∧ tracks (quiet d m0 (only p)) t0 x.2.

Lemma keeps_build_append d m0 p t0 data (b : SsTable.SsTableBuilder) :
  SsTable.b_path b = p →
  keeps (building d m0 p t0) any (on_snd (map_err SsFormat.Storage (fs_append (SsTable.b_path b) data))).
Proof.
  intros Hb. apply keeps_on_snd. intros b' t [H1 H2]. pose proof (keeps_map_err _ SsFormat.Storage _ _
    (keeps_tr_append d m0 (only p) t0 (SsTable.b_path b) data Hb)) as Hk.
  destruct (Hk t H2) as [H3 _]. by split; [split|].
Qed.

Lemma keeps_build_mod d m0 p t0 (f : SsTable.SsTableBuilder → SsTable.SsTableBuilder) :
  (∀ b, SsTable.b_path (f b) = SsTable.b_path b) → keeps (E:=SsTableError) (building d m0 p t0) any (mod_fst f).
Proof. intros Hf. apply keeps_mod_fst. intros b t [H1 H2]. split; [by rewrite <- H1; apply Hf|done]. Qed.

Lemma keeps_build_get d m0 p t0 :
  keeps (E:=SsTableError) (building d m0 p t0) (λ b, SsTable.b_path b = p) get_fst.
Proof. intros [b t] [H1 H2]. split; [by split|]. by intros ? [= <-]. Qed.

Lemma keeps_seal d m0 p t0 : keeps (building d m0 p t0) any SsTable.seal_block.
Proof.
  unfold SsTable.seal_block. eapply keeps_bind; [apply keeps_build_get|]. intros b Hb. case_decide; [by apply keeps_ret|].
  cbv zeta. apply (keeps_bind _ any); [by apply keeps_build_mod|]. intros _ _.
  apply (keeps_bind _ any); [by apply keeps_build_append|]. intros _ _.
  apply (keeps_bind _ any); [by apply keeps_build_mod|]. intros _ _.
  apply (keeps_bind _ any); [apply keeps_expect|]. intros k _. by apply keeps_build_mod.
Qed.

Lemma keeps_put_section d m0 p t0 data len : keeps (building d m0 p t0) any (SsTable.put_section data len).
Proof.
  unfold SsTable.put_section. eapply keeps_bind; [apply keeps_build_get|]. intros b Hb.
  apply (keeps_bind _ any); [by apply keeps_build_append|]. intros _ _. by apply keeps_build_mod.
Qed.

Lemma keeps_add d m0 p t0 k q v : keeps (building d m0 p t0) any (SsTable.add k q v).
Proof.
  unfold SsTable.add. eapply keeps_bind; [apply keeps_build_get|]. intros b Hb.
  apply (keeps_bind _ any); [apply keeps_guard|]. intros _ _. cbv zeta.
  apply (keeps_bind _ any); [case_decide; [apply keeps_seal|by apply keeps_ret]|]. intros _ _.
  eapply keeps_bind; [apply keeps_build_get|]. intros b' Hb'.
  apply (keeps_bind _ any); [apply keeps_of_outcome|]. intros bl _. by apply keeps_build_mod.
Qed.

(** The builder's last call makes the file's bytes durable. *)
Definition sealed d m0 p (t0 : T) {E A} (r : outcome E A) (x : SsTable.SsTableBuilder * T) : Prop :=
  building d m0 p t0 x ∧ ∀ a, r = Ok a → quiet d m0 nowhere (now x.2).

Lemma sealed_bind {E A B} d m0 p t0 Q (m : M (SsTable.SsTableBuilder * T) E A) (f : A → M _ E B) x :
  keeps (building d m0 p t0) Q m → building d m0 p t0 x →
  (∀ a x, Q a → building d m0 p t0 x → sealed d m0 p t0 (f a x).1 (f a x).2) →
  sealed d m0 p t0 ((m ≫= f) x).1 ((m ≫= f) x).2.
Proof.
  intros Hm Hx Hf. rewrite bind_run. destruct (Hm x Hx) as [H1 H2]. destruct (m x) as [[a|e|] x']; [|by split..].
  apply Hf; [by apply H2|done].
Qed.

Lemma c_finish_sealed d m0 p t0 x :
  building d m0 p t0 x → sealed d m0 p t0 (SsTable.finish x).1 (SsTable.finish x).2.
Proof.
  intros Hx. unfold SsTable.finish. eapply sealed_bind; [apply keeps_seal|done|]. clear Hx x. intros _ x _ Hx.
  eapply sealed_bind; [apply keeps_build_get|done|]. clear Hx x. intros b x Hb Hx. cbv zeta.
  eapply sealed_bind; [apply keeps_put_section|done|]. clear Hx x. intros _ x _ Hx.
  eapply sealed_bind; [apply keeps_build_get|done|]. clear Hx x. intros b2 x Hb2 Hx.
  eapply sealed_bind; [apply keeps_put_section|done|]. clear Hx x. intros _ x _ Hx.
  eapply sealed_bind; [apply keeps_put_section|done|]. clear Hx x. intros _ x _ Hx.
  destruct x as [b3 t]. destruct Hx as [H1 H2]. rewrite bind_run. rewrite Hb2.
  destruct (keeps_tr_sync_file d m0 (only p) t0 p t H2) as [H3 _].
  assert (Hs : ∀ a, (fs_sync_file p t).1 = Ok a → quiet d m0 nowhere (now (fs_sync_file p t).2)).
  { intros [] E. change (fs_sync_file p t) with (recorded (SimFs.sync_file p) t) in *.
    rewrite recorded_now. apply quiet_synced; [apply H2|]. by rewrite <- recorded_res. }
  unfold on_snd, map_err. destruct (fs_sync_file p t) as [[[]|e|] t']; cbn in *; [|by split; [split|]..].
  rewrite bind_run. cbn. split; [by split|]. intros a _. by apply (Hs ()).
Qed.

(** ** Writing a table *)

(** While a table is written the disk stays what it was; when it has been
    written its bytes are durable, but its name is not. *)
Lemma write_table_quiet d m0 p id n l (t : T) :
  is_child_of p d = true → SimFs.live_id (now t) p = None → quiet d m0 nowhere (now t) →
  let '(r, t') := write_table p id n l t in
  steps (quiet d m0 (only p)) t t' ∧ ∀ a, r = Ok a → quiet d m0 nowhere (now t').
Proof.
  intros Hp Hnew Hq.
  assert (Hq1 : quiet d m0 (only p) (now t)).
  { destruct Hq. split; try done; [intros q i ino _; by apply (q_synced0 q i ino (λ H, H))|].
    intros q q' i -> Hi. congruence. }
  unfold write_table. rewrite bind_run. unfold SsTable.builder_new.
  destruct (keeps_tr_create d m0 nowhere t p Hp t (tracks_refl _ _ Hq)) as [[Hc0 _] _].
  destruct (keeps_tr_create d m0 (only p) t p Hp t (tracks_refl _ _ Hq1)) as [[Hc1 Hs1] _].
  unfold map_err at 1. rewrite bind_run. unfold map_err at 1.
  destruct (fs_create p t) as [[[]|e|] t1]; [|by split..]. cbn in Hc0, Hc1, Hs1.
  cbn [mret M_ret outcome_map_err]. set (b := SsTable.mkBuilder p _ _ _ _ _ _ _ _).
  assert (Hb : building d m0 p t (b, t1)) by (by split; [|split]).
  assert (Hfold : ∀ l' acc, l' ≠ [] →
    keeps (building d m0 p t) (λ a : table_acc, is_Some a.1.1) (fold_m l' acc (write_entry (S:=T)))).
  { intros l' acc Hl'. apply keeps_fold_m; [|by right]. intros [[fk lk] ne] [k v]. unfold write_entry.
    apply (keeps_bind _ any); [apply keeps_map_err, keeps_add|]. intros _ _. apply keeps_ret. by eexists. }
  match goal with |- context [with_local b ?m t1] => set (body := m) end.
  assert (Hseal : l ≠ [] → sealed d m0 p t (body (b, t1)).1 (body (b, t1)).2).
  { intros Hl. apply (sealed_bind _ _ _ _ _ _ _ _ (Hfold l _ Hl)); [done|]. intros [[fk lk] ne] x [f Hf] Hx. cbn in Hf. subst fk.
    pose proof (c_finish_sealed d m0 p t x Hx) as [H1 H2]. rewrite bind_run. unfold map_err.
    destruct (SsTable.finish x) as [[a|e|] x']; [|by split..]. split; [done|]. intros ? _. by apply (H2 a). }
  unfold with_local. destruct l as [|kv l]; [split; [done|by intros a _]|]. destruct (Hseal ltac:(done)) as [[_ H1] H2].
  destruct (body (b, t1)) as [r [b' t']]. split; [apply H1|done].
Qed.

(** The same, of a run whose result is known. *)
Lemma c_write_table d Q m0 m p i n l r m' (t : T) :
  is_child_of p d = true → m !! p = None → pending d m0 m (now t) → Q m0 →
  write_table p i n l m = (Ok r, m') →
  cruns d alone Q (write_table p i n l) (λ a t', a = r ∧ pending d m0 m' (now t')) t.
Proof.
  intros Hp Hn [Hv Hq] HQ Hw.
  assert (Hv0 : st_view t m) by exact Hv.
  destruct (msim_run _ _ _ t m _ _ (write_table_sim p i n l) Hv0 Hw) as (t' & Ht & Hv').
  pose proof (write_table_quiet d m0 p i n l t Hp (view_no_live _ _ _ Hv Hn) Hq) as H. rewrite Ht in H.
  destruct H as [Hst Hq']. apply (cruns_step _ _ _ _ _ _ _ _ Ht).
  - split; [done|]. split; [exact Hv'|by apply (Hq' r)].
  - eapply steps_mono; [|exact Hst]. intros x Hx. by eapply quiet_lost.
Qed.

(** ** The manifest *)

Lemma map_err_replace {S} `{!Storage.Storage S} (d tmp p : path) b (s : S) :
  (_ ← ignore_err (fs_delete tmp); _ ← map_err Manifest.Storage (fs_create tmp); _ ← map_err Manifest.Storage (fs_append tmp b);
   _ ← map_err Manifest.Storage (fs_sync_file tmp); _ ← map_err Manifest.Storage (fs_rename tmp p); map_err Manifest.Storage (fs_sync_dir d)) s
  = map_err Manifest.Storage (replace d tmp p b) s.
Proof.
  unfold replace, map_err, ignore_err. rewrite !bind_run. destruct (fs_delete tmp s) as [r s1].
  destruct r; cbn; rewrite ?bind_run; try done.
  all: destruct (fs_create tmp s1) as [[a1|e1|] s2]; cbn; rewrite ?bind_run; try done.
  all: destruct (fs_append tmp b s2) as [[a2|e2|] s3]; cbn; rewrite ?bind_run; try done.
  all: destruct (fs_sync_file tmp s3) as [[a3|e3|] s4]; cbn; rewrite ?bind_run; try done.
  all: destruct (fs_rename tmp p s4) as [[a4|e4|] s5]; cbn; try done.
Qed.

(** The files once the manifest names [v]. *)
Definition switched d (v : Version) m : memfs := swapped (Storage.join d MANIFEST_TMP) (Storage.join d MANIFEST_NAME) (encode_version v) m.

Lemma c_write_manifest d Q m0 m v (t : T) :
  pending d m0 m (now t) → Q m0 → Q (switched d v m) →
  cruns d alone Q (write_manifest d v) (λ _ t', settled d (switched d v m) (now t')) t.
Proof.
  intros Hs H0 HQ. eapply cruns_eq; [apply map_err_replace|]. apply cruns_map_err.
  apply (c_replace _ _ m0); try done; [apply is_child_join..|apply manifest_names_differ].
Qed.

(** The deletions of a collection; one that deletes nothing leaves the disk as it is. *)
Lemma c_gc_loop d Q m0 m (live : gset Z) ps (deleted : bool) (t : T) :
  (∀ p, p ∈ ps → is_child_of p d = true ∧ is_Some (m !! p)) → NoDup ps →
  pending d m0 m (now t) → (deleted = false → settled d m (now t)) → Q m0 →
  cruns d alone Q (fold_m ps deleted (λ deleted p,
        match parse_table_id p with
        | Some id => if decide (id ∈ live) then mret deleted
                     else _ ← map_err Manifest.Storage (fs_delete p); mret true
        | None => mret deleted
        end))
    (λ r t', ∃ m', pending d m0 m' (now t') ∧ (r = false → settled d m' (now t'))) t.
Proof.
  intros Hin Hnd Hp Hs HQ. revert m deleted t Hin Hp Hs.
  induction ps as [|p ps IH]; intros m deleted t Hin Hp Hs; cbn [fold_m]; [apply cruns_ret; by exists m|].
  apply NoDup_cons in Hnd as [Hni Hnd].
  assert (Hskip : ∀ p', p' ∈ ps → is_child_of p' d = true ∧ is_Some (m !! p')) by (intros; apply Hin; by right).
  destruct (parse_table_id p) as [i|]; [case_decide|]; [rewrite bind_ret; by eapply IH| |rewrite bind_ret; by eapply IH].
  destruct (Hin p ltac:(by left)) as [Hc Hb].
  apply (cruns_bind _ _ _ _ _ (λ b t', b = true ∧ pending d m0 (base.delete p m) (now t'))).
  { eapply cruns_bind; [apply cruns_map_err; by eapply c_delete|]. cbn beta. intros _ t1 Ht1. by apply cruns_ret. }
  cbn beta. intros b t1 [-> Ht1]. eapply (IH Hnd); [|exact Ht1|done]. intros p' Hp'. destruct (Hskip p' Hp') as [? ?].
  rewrite lookup_delete_ne by by intros ->. done.
Qed.

Lemma c_gc d Q m mf (t : T) :
  dir mf = d → settled d m (now t) → Q m → Q (collected mf m) →
  cruns d snd Q gc (λ _ x, x.1 = retain_obsolete mf ∧ settled d (collected mf m) (now x.2)) (mf, t).
Proof.
  intros Hd Hs HQ HQ'. assert (Hv : st_view t m) by apply Hs. unfold gc.
  eapply cruns_first; [done..|]. eapply cruns_first; [done..|]. change (dir (retain_obsolete mf)) with (dir mf).
  eapply cruns_first.
  { apply on_snd_run, map_err_ok, (looks_run (fs_list (dir mf)) (fs_list (dir mf)) m t (Ok (listed (dir mf) m)) m); try done.
    - intros t0. apply looks_same.
    - apply sim_list. }
  { done. }
  destruct (gc_loop_collected mf m) as [r Hr].
  destruct (msim_run _ _ _ t m _ _ (gc_loop_sim (live_ids (retain_obsolete mf)) (listed (dir mf) m)) Hv Hr) as (t1 & Hrun & Hv1).
  eapply (cruns_then _ _ _ _ _ (λ b x, ∃ m', pending d m m' (now x.2) ∧ (b = false → settled d m' (now x.2))));
    [by apply on_snd_run| |].
  { apply cruns_on_snd, (c_gc_loop d Q m m); [|apply listed_NoDup|by apply settled_pending|done|done].
    intros p Hp%listed_in. by rewrite <- Hd. }
  cbn beta. intros (m' & [Hv' Hq'] & Hs').
  assert (m' = collected mf m) as -> by by eapply view_unique.
  destruct r; [|apply cruns_ret; split; [done|by apply Hs']].
  rewrite Hd. apply cruns_on_snd, cruns_map_err. eapply cruns_post; [|by apply (c_sync_dir d Q m)]. by intros.
Qed.

(** The installation of a version, whose table is written. *)
Lemma c_install d Q m0 m mf v (t : T) :
  dir mf = d → pending d m0 m (now t) → Q m0 → Q (switched d v m) →
  Q (collected (swap_in v mf) (switched d v m)) →
  cruns d snd Q (install v) (λ _ x, x.1 = retain_obsolete (swap_in v mf) ∧
    settled d (collected (swap_in v mf) (switched d v m)) (now x.2)) (mf, t).
Proof.
  intros Hd Hs H0 H1 H2. unfold install. eapply cruns_first; [done..|]. rewrite Hd.
  apply (cruns_bind _ _ _ _ _ (λ _ x, x.1 = mf ∧ settled d (switched d v m) (now x.2))).
  { apply cruns_on_snd. eapply cruns_post; [|by eapply c_write_manifest]. by intros. }
  cbn beta. intros _ [mf' t1] [E1 Hs1]. cbn in E1, Hs1. subst mf'. eapply cruns_first; [done..|]. by apply c_gc.
Qed.
End tables.
End CrashTables.
