(* ===== verification/CrashCompaction.v ===== *)
(** Power loss during a compaction: the disk names the tier's old tables or the
    table they were merged into, and the live entries are the same either way. *)
From Stdlib Require Import Strings.String.
From S2P Require Export CrashTables.

Module CrashCompaction.
Import Durable CrashLogic Reads CrashTables Manifest ManifestSpec Compaction Newest Tables CompactionSpec.

Section compaction.
Context {CRC : Crc32} {CRCL : Crc32Laws} {XXH : Xxh3} {R : Type} {RNG : Rng R} {RL : RngLaws R}.
Abbreviation T := (Traced (SimFs.SimState R)).
Implicit Types (d p : path) (m x : memfs) (v : Version) (c : Z → list Entry) (Q : memfs → Prop).

(** The disk [x] names the tables of [v'], which stand for what those of [v] did;
    the log is where it was. *)
Record recast d m v c x v' c' : Prop := {
  rc_file : manifest_at d v' x;
  rc_version : version_inv d x v' c';
  rc_foreign p : foreign d p → x !! p = m !! p;
  rc_live : same_live (tview c (tiers v)) (tview c' (tiers v'));
  rc_sub kv : kv ∈ concat (tlists c' (tiers v')) → kv ∈ concat (tlists c (tiers v));
  rc_weight : tweight c' (tiers v') ≤ tweight c (tiers v);
  rc_seq : next_seq v' = next_seq v;
  rc_ids : next_table_id v ≤ next_table_id v';
  rc_room : next_table_id v' + blen (all_tables v') ≤ next_table_id v + blen (all_tables v);
}.

Lemma recast_refl mf m c : manifest_inv mf m c → recast (dir mf) m (version (current mf)) c m (version (current mf)) c.
Proof. intros [[] _]. split; try done. apply same_live_refl. Qed.
Lemma recast_trans d m1 v1 c1 m2 v2 c2 m3 v3 c3 :
  recast d m1 v1 c1 m2 v2 c2 → recast d m2 v2 c2 m3 v3 c3 → recast d m1 v1 c1 m3 v3 c3.
Proof.
  intros [] []. split; try congruence; try lia; [| |by intros kv Hkv; auto].
  - intros p Hp. rewrite rc_foreign1 by done. auto.
  - by eapply same_live_trans.
Qed.
Lemma recast_compacted mf m c mf' m' c' :
  compacted_to mf m c mf' m' c' → recast (dir mf) m (version (current mf)) c m' (version (current mf')) c'.
Proof. intros []. pose proof ct_inv0 as [[] _]. rewrite ct_dir0 in *. by split. Qed.

(** ** The switch *)

Lemma switched_lookup d v m p :
  p ≠ Storage.join d MANIFEST_NAME → p ≠ Storage.join d MANIFEST_TMP → switched d v m !! p = m !! p.
Proof. intros N1 N2. unfold switched, swapped. by rewrite lookup_insert_ne, lookup_delete_ne by done. Qed.

Lemma staged_switched d m v c m1 v' c' :
  staged d m v c m1 v' c' → 0 ≤ next_table_id v < 2 ^ 64 →
  manifest_at d v' (switched d v' m1) ∧ version_inv d (switched d v' m1) v' c' ∧
  ∀ p, foreign d p → switched d v' m1 !! p = m !! p.
Proof.
  intros [Hv Hfit _ Hfiles _ _] Hid. split_and!.
  - split; [apply lookup_insert_eq|by eapply version_inv_ok].
  - pose proof Hfit as (_ & ? & ? & _). pose proof (blen_nonneg (all_tables v')).
    apply (version_inv_ext d m1); [done|lia|]. intros i (meta & Hm & <-)%elem_of_referenced.
    pose proof (vi_bound _ _ _ _ Hv meta Hm). destruct (table_path_foreign d (id meta)) as [N1 N2]; [lia|].
    by apply switched_lookup.
  - intros p Hp. pose proof Hp as (_ & N1 & N2). rewrite switched_lookup by done.
    apply Hfiles. by apply (foreign_not_table _ _ _ Hp).
Qed.

(** What a run of [install] leaves, in closed form. *)
Lemma install_collected mf v m mf' m' :
  install v (mf, m) = (Ok (), (mf', m')) → m' = collected (swap_in v mf) (switched (dir mf) v m).
Proof.
  intros Hi. destruct (install_ok v mf m) as (mf2 & Hi2 & E2). rewrite Hi in Hi2. injection Hi2 as <- ->.
  by subst mf'.
Qed.

(** ** One step *)

Lemma c_prepare d Q m0 m v t v' m1 (τ : T) :
  pending d m0 m (now τ) → m !! table_path d (next_table_id v) = None → Q m0 →
  compact_prepare d v t m = (Ok v', m1) →
  cruns d alone Q (compact_prepare d v t) (λ r τ', r = v' ∧ pending d m0 m1 (now τ')) τ.
Proof.
  intros Hp Hn HQ Hrun. pose proof Hp as [Hv _].
  unfold compact_prepare in Hrun |- *. destruct (tiers v !! t) as [inputs|]; [|done]. cbn [expect] in Hrun |- *. rewrite bind_ret in Hrun. rewrite bind_ret.
  apply bind_ok_inv in Hrun as ([n srcs] & m2 & Hin & Hrun).
  assert (m2 = m) as ->.
  { destruct (looks_open_inputs (S:=memfs) (λ x, x = m)) with (d:=d) (metas:=inputs) (acc:=(0, []:list (list Entry))) (s:=m) as [H _]; [|done|].
    - split; intros; intros s ->; (split; [|done]); cbn; unfold mem_open, mem_read_at, mem_list, mem_len, mem_file, gets; by repeat case_match.
    - by rewrite Hin in H. }
  eapply cruns_first.
  { eapply (looks_run _ (fold_m inputs (0, []) (open_input d)) m); [| |exact Hv|exact Hin].
    - intros t0. apply looks_open_inputs, looks_same.
    - apply open_inputs_sim. }
  { done. }
  cbn beta iota in *. apply bind_ok_inv in Hrun as (merged & m3 & Hm & Hrun). unfold of_outcome in Hm. injection Hm as Hm <-.
  eapply cruns_first; [unfold of_outcome; by rewrite Hm|done|].
  apply bind_ok_inv in Hrun as (o & m4 & Hw & Hrun). injection Hrun as <- <-.
  eapply cruns_bind; [eapply c_write_table; [apply is_child_join|exact Hn|exact Hp|exact HQ|exact Hw]|].
  cbn beta. intros a τ' [-> Hp']. by apply cruns_ret.
Qed.

Lemma c_compact_tier Q mf m c t inputs (τ : T) :
  manifest_inv mf m c → version_fits (version (current mf)) c →
  tiers (version (current mf)) !! t = Some inputs → (2 ≤ length inputs)%nat →
  settled (dir mf) m (now τ) →
  (∀ x v' c', recast (dir mf) m (version (current mf)) c x v' c' → Q x) →
  cruns (dir mf) snd Q (compact_tier (version (current mf)) t) (λ _ y, ∃ m', settled (dir mf) m' (now y.2)) (mf, τ).
Proof.
  intros Hmi Hfit Ht Hlen Hs HQ. pose proof Hfit as (_ & Hid1 & Hid & _). set (v := version (current mf)) in *.
  pose proof (blen_nonneg (all_tables v)).
  destruct (compact_tier_plan mf m c t inputs Hmi Hfit Ht Hlen)
    as (m1 & v' & c' & Hrun & Hsg & Hlive & Hsub & Hw & Hseq & Hroom & Hcount). fold v in Hrun, Hsg, Hlive, Hsub, Hw, Hseq, Hroom.
  destruct (install_staged mf m c m1 v' c') as (mf' & m' & Hi & Hmi' & Hdir' & Hcur' & Hpins' & Hfor & _ & Hold);
    [by destruct Hmi|fold v; lia|done|].
  destruct (staged_switched _ _ _ _ _ _ _ Hsg) as (Hf1 & Hv1 & Hfor1); [lia|].
  assert (Hr : ∀ x, manifest_at (dir mf) v' x → version_inv (dir mf) x v' c' → (∀ p, foreign (dir mf) p → x !! p = m !! p) → Q x).
  { intros x H1 H2 H3. apply (HQ x v' c'). split; try done. apply (sg_next _ _ _ _ _ _ _ Hsg). }
  eapply cruns_eq; [apply compact_tier_split|].
  apply (cruns_bind _ _ _ _ _ (λ r y, r = v' ∧ y.1 = mf ∧ pending (dir mf) m m1 (now y.2))).
  { apply cruns_on_snd. eapply cruns_post; [|eapply c_prepare; [by apply settled_pending| | |exact Hrun]].
    - intros a τ' [-> ?]. done.
    - apply (mi_free _ _ _ Hmi). fold v. lia.
    - by apply (HQ m v c), recast_refl. }
  cbn beta. intros r [mf1 τ1] (-> & E1 & Hp1). cbn in E1, Hp1. subst mf1.
  apply cruns_map_err. eapply cruns_post; [|apply (c_install _ _ m m1); [done|exact Hp1|..]].
  - cbn beta. intros a [mf2 τ2] [_ H2]. by eexists.
  - by apply (HQ m v c), recast_refl.
  - by apply Hr.
  - rewrite <- (install_collected mf v' m1 mf' m' Hi). destruct Hmi' as [[H1 H2 _] _]. rewrite Hdir', Hcur' in *. by apply Hr.
Qed.

(** ** Steps until none is due *)

Lemma cruns_with_current {E A} d Q (f : Version → M (Manifest.Manifest * T) E A) Post mf (τ : T) :
  cruns d snd Q (f (version (current mf))) (λ a y, Post a (unpin (arc_id (current mf)) y.1, y.2))
    (pin (arc_id (current mf)) mf, τ) →
  cruns d snd Q (with_current f) Post (mf, τ).
Proof.
  intros (a & [mf' τ'] & H1 & H2). exists a, (unpin (arc_id (current mf)) mf', τ'). split; [|done].
  unfold with_current. by rewrite H1.
Qed.

Lemma c_maybe_compact Q mf m c fanout (τ : T) :
  2 ≤ fanout → manifest_inv mf m c → version_fits (version (current mf)) c → settled (dir mf) m (now τ) →
  (∀ x v' c', recast (dir mf) m (version (current mf)) c x v' c' → Q x) →
  cruns (dir mf) snd Q (maybe_compact fanout) (λ _ y, ∃ m', settled (dir mf) m' (now y.2)) (mf, τ).
Proof.
  intros Hf Hmi Hfit Hs HQ. apply cruns_with_current. destruct (find_tier _ fanout) as [t|] eqn:Ht.
  - apply find_tier_Some in Ht as (inputs & Ht & Hlen); [|lia].
    apply (cruns_bind _ _ _ _ _ (λ _ y, ∃ m', settled (dir mf) m' (now y.2))).
    + apply (c_compact_tier Q (pin (arc_id (current mf)) mf) m c t inputs); try done; [by apply manifest_inv_pin|].
      unfold blen in Hlen. lia.
    + intros _ y Hy. by apply cruns_ret.
  - apply cruns_ret. by exists m.
Qed.

Lemma c_cascade fuel Q mf m c fanout (τ : T) :
  2 ≤ fanout → manifest_inv mf m c → version_fits (version (current mf)) c →
  blen (all_tables (version (current mf))) < Z.of_nat fuel → settled (dir mf) m (now τ) →
  (∀ x v' c', recast (dir mf) m (version (current mf)) c x v' c' → Q x) →
  cruns (dir mf) snd Q (cascade fuel fanout) (λ _ y, ∃ m', settled (dir mf) m' (now y.2)) (mf, τ).
Proof.
  intros Hf. revert mf m c τ. induction fuel as [|fuel IH]; intros mf m c τ Hmi Hfit Hfuel Hs HQ.
  { pose proof (blen_nonneg (all_tables (version (current mf)))). lia. }
  destruct (maybe_compact_ok mf m c fanout Hf Hmi Hfit) as (b & mf1 & m1 & c1 & Hm & Hct & _ & Hb).
  assert (Hv : st_view τ m) by apply Hs.
  destruct (msim_same_run _ _ _ mf τ m _ _ _ (maybe_compact_sim fanout) Hv Hm) as (τ1 & Hm1 & Hv1).
  cbn [cascade]. eapply cruns_then; [exact Hm1|by eapply c_maybe_compact|]. cbn beta. intros (m' & Hs1).
  apply (settled_view _ _ m1) in Hs1; [|exact Hv1]. cbn [snd] in Hs1. pose proof (ct_dir _ _ _ _ _ _ Hct) as Hd.
  destruct b; [|apply cruns_ret; by exists m1]. rewrite <- Hd in *.
  apply (IH mf1 m1 c1); [by destruct Hct|by eapply compacted_to_fits|lia|done|].
  intros x v' c' Hr. rewrite Hd in Hr. apply (HQ x v' c'). rewrite Hd. eapply recast_trans; [by apply recast_compacted|done].
Qed.
End compaction.
End CrashCompaction.
