(* ===== verification/CrashWal.v ===== *)
(** Power loss while the log is written, rotated, reset, truncated and opened:
    what is durable is always a log of the records appended so far, the last one
    perhaps missing; a torn or flipped tail is what recovery cuts off. *)
From Stdlib Require Import Strings.String.
From S2P Require Export CrashLogic Reads WalFrame.

Module CrashWal.
Import SimFs SimSpec Durable CrashLogic Reads Segment Recovery WalSpec WalFrame Wal.

(** * Torn appends *)

Section torn.
Context {CRC : Crc32} {CRCL : Crc32Laws}.
Implicit Types (d : path) (m : memfs) (p : bytes) (rs : list bytes).

(** No single flipped bit turns the frame of [p] into another frame.  The CRC
    covers the payload only: a flip in the length field is caught when the shorter
    payload it announces has another CRC. *)
Definition flips_detected p : Prop :=
  ∀ byte bit g, 0 ≤ byte < blen (Frame.encode p) → 0 ≤ bit →
    Frame.decode (flip_bit (Frame.encode p) byte bit) 0 ≠ Ok g.

(** The same, by trying every bit. *)
Definition flips_detectedb p : bool :=
  let frame := Frame.encode p in
  forallb (λ byte, forallb (λ bit,
      match Frame.decode (flip_bit frame (Z.of_nat byte) (Z.of_nat bit)) 0 with Ok _ => false | _ => true end)
    (List.seq 0 8)) (List.seq 0 (length frame)).

Lemma flips_detectedb_ok p : flips_detectedb p = true → flips_detected p.
Proof.
  intros H byte bit g Hb Hbit E. unfold flips_detectedb in H. cbv zeta in H. rewrite forallb_forall in H.
  specialize (H (Z.to_nat byte)). rewrite in_seq in H. unfold blen in Hb. specialize (H ltac:(lia)).
  rewrite forallb_forall in H. specialize (H (Z.to_nat (bit mod 8))). rewrite in_seq in H.
  pose proof (Z.mod_pos_bound bit 8 ltac:(lia)). specialize (H ltac:(lia)). rewrite !Z2Nat.id in H by lia.
  assert (Ef : flip_bit (Frame.encode p) byte (bit mod 8) = flip_bit (Frame.encode p) byte bit)
    by (unfold flip_bit; by rewrite Zmod_mod).
  by rewrite Ef, E in H.
Qed.

Lemma flip_bit_app (a b : bytes) byte bit :
  blen a ≤ byte → flip_bit (a ++ b) byte bit = a ++ flip_bit b (byte - blen a) bit.
Proof.
  intros Hb. unfold flip_bit, blen in *. rewrite lookup_app_r by lia.
  replace (Z.to_nat (byte - Z.of_nat (length a))) with (Z.to_nat byte - length a)%nat by lia.
  destruct (b !! _) as [x|]; [|done]. by rewrite insert_app_r_alt by lia.
Qed.
Lemma blen_flip_bit (b : bytes) byte bit : blen (flip_bit b byte bit) = blen b.
Proof. unfold flip_bit, blen. destruct (b !! _); [by rewrite length_insert|done]. Qed.

(** A flipped last frame is where the scan stops. *)
Lemma scan_flipped ps p byte bit :
  Forall small ps → flips_detected p → blen (frames ps ++ Frame.encode p) ≤ u64_max →
  0 ≤ byte < blen (Frame.encode p) → 0 ≤ bit →
  ∃ reason, scan_buffer (E:=StorageError) (frames ps ++ flip_bit (Frame.encode p) byte bit) [] =
    Ok (ps, (blen (frames ps), reason)).
Proof.
  intros Hs Hdet Hmax Hb Hbit. set (f := flip_bit _ _ _).
  assert (Hf : blen f = blen (Frame.encode p)) by apply blen_flip_bit.
  destruct (scan_frames (E:=StorageError) (Datatypes.S (length (frames ps ++ f))) [] ps f []) as (fuel & Hfu & E);
    [done|by rewrite app_nil_l, blen_app, Hf, <- blen_app|lia|].
  rewrite !app_nil_l in E. change (blen (A:=u8) []) with 0 in E. unfold scan_buffer. rewrite E.
  assert (∃ e, Frame.decode (frames ps ++ f) (blen (frames ps)) = Err e) as [e He].
  { destruct (Frame.decode (frames ps ++ f) (blen (frames ps))) as [g|e|] eqn:Hd; [|eauto|].
    - exfalso. apply Frame.decode_sound in Hd as (pre & post & Eq & Hpre & _ & Hsm); [|apply blen_nonneg].
      apply app_inj_1 in Eq as [_ Eq]; [|unfold blen in Hpre; lia].
      apply (Hdet byte bit (Frame.mkFrame (Frame.payload g) (blen (Frame.encode (Frame.payload g)))) Hb Hbit).
      fold f. rewrite Eq. apply (Frame.decode_encode_at [] _ post); [done|]. rewrite app_nil_l, <- Eq, Hf.
      rewrite blen_app in Hmax. pose proof (blen_nonneg (frames ps)). lia.
    - by destruct (Frame.decode_no_panic _ _ (blen_nonneg _) Hd). }
  rewrite (scan_loop_stop fuel _ _ _ e); [by eexists| |lia|done].
  rewrite blen_app. lia.
Qed.

(** What a power loss may leave of an append is a log without the new record, or
    with it. *)
Lemma torn_log w m rs p old b mode :
  log_holds w m rs → small p → blen (frames (rs ++ [p])) ≤ u64_max → flips_detected p →
  m !! seg_path (active w) = Some old → torn old (Frame.encode p) mode b →
  let x := <[seg_path (active w) := b]> m in
  log_on_disk (dir w) x rs (seg_id (active w)) ∨ log_on_disk (dir w) x (rs ++ [p]) (seg_id (active w)).
Proof.
  intros Hw Hp Hmax Hdet Hold Ht x. destruct mode; cbn in Ht.
  - left. subst b. unfold x. rewrite insert_id by done. by apply log_holds_disk.
  - destruct Ht as [k ->]. destruct (torn_append w m rs p k Hw Hp Hmax) as (b & Hb & Hlog).
    rewrite Hold in Hb. injection Hb as <-. fold x in Hlog. case_decide; auto.
  - left. destruct Ht as (byte & bit & Hbyte & Hbit & ->).
    destruct Hw as (segs & ps & Hw & ->). assert (old = frames ps) as ->.
    { rewrite (wo_active _ _ _ _ Hw) in Hold. by injection Hold. }
    unfold x. rewrite flip_bit_app by lia. rewrite (wo_path _ _ _ _ Hw).
    pose proof (wo_files _ _ _ _ Hw) as Hf. rewrite seg_bytes_snoc in Hf.
    destruct (wo_fits _ _ _ _ Hw (seg_id (active w)) ps) as [Hs _]; [in_list|].
    rewrite <- (assoc_L (++)), blen_frames_app, frames_snoc in Hmax.
    pose proof (blen_nonneg (frames (wal_records segs))).
    destruct (scan_flipped ps p (byte - blen (frames ps)) bit Hs Hdet) as [reason Hsc]; [lia|lia|done|].
    eapply log_some; [by eapply seg_files_update| | |exact Hsc].
    + intros j qs Hin. apply (wo_fits _ _ _ _ Hw j qs). in_list.
    + rewrite blen_app, blen_flip_bit, <- blen_app. lia.
Qed.
End torn.

(** * The log's operations *)

Section wal.
Context {CRC : Crc32} {CRCL : Crc32Laws} {R : Type} {RNG : Rng R} {RL : RngLaws R}.
Abbreviation T := (Traced (SimState R)).
Implicit Types (d : path) (m : memfs) (p : bytes) (rs : list bytes) (w : Wal) (Q : memfs → Prop).


Lemma c_segment_create d Q m0 m i (τ : T) :
  m !! segment_path d i = None → pending d m0 m (now τ) → Q m0 →
  cruns d alone Q (Segment.create d i)
    (λ seg τ', seg = mkSegment i (segment_path d i) 0 ∧ pending d m0 (<[segment_path d i := []]> m) (now τ')) τ.
Proof.
  intros Hn Hp H0. unfold Segment.create.
  eapply cruns_bind; [eapply c_create_empty; [apply is_child_join|exact Hn|exact Hp|exact H0]|].
  cbn beta. intros _ τ1 H1. by apply cruns_ret.
Qed.

(** The active segment's two calls. *)
Lemma c_active_append Q w m segs ps p (τ : T) :
  wal_ok w m segs ps → settled (dir w) m (now τ) →
  (∀ b mode, torn (frames ps) (Frame.encode p) mode b → Q (<[seg_path (active w) := b]> m)) →
  cruns (dir w) snd Q (zoom active set_active (Segment.append (Frame.encode p)))
    (λ _ y, appended (dir w) m (seg_path (active w)) (frames ps) (Frame.encode p) (now y.2)) (w, τ).
Proof.
  intros Hw Hs HQ. apply cruns_zoom. unfold Segment.append. eapply cruns_first; [done..|].
  eapply cruns_on_snd_bind; [eapply c_append_durable; [exact Hs|by eapply wo_active|exact HQ]|].
  cbn beta. intros _ τ1 H1. by apply cruns_mod_fst.
Qed.
Lemma c_active_sync d Q w m old b (τ : T) :
  appended d m (seg_path (active w)) old b (now τ) → Q (<[seg_path (active w) := old ++ b]> m) →
  cruns d snd Q (zoom active set_active Segment.sync)
    (λ _ y, y.1 = w ∧ settled d (<[seg_path (active w) := old ++ b]> m) (now y.2)) (w, τ).
Proof.
  intros Ha HQ. apply cruns_zoom. unfold Segment.sync. eapply cruns_first; [done..|]. apply cruns_on_snd.
  eapply cruns_post; [|by eapply c_sync_appended]. cbn. intros _ τ' H'. split; [by destruct w|done].
Qed.

Lemma c_maybe_rotate Q w m segs ps (τ : T) :
  wal_ok w m segs ps → seg_id (active w) + 1 < 2 ^ 64 → settled (dir w) m (now τ) →
  Q m → Q (<[segment_path (dir w) (seg_id (active w) + 1) := []]> m) →
  cruns (dir w) snd Q maybe_rotate (rests (dir w)) (w, τ).
Proof.
  intros Hw Hid Hs H0 HQ. pose proof (wo_id _ _ _ _ Hw). unfold maybe_rotate. eapply cruns_first; [done..|].
  case_decide; [apply cruns_ret; by exists m|]. unfold u64_add. rewrite u64_wrap_id by lia.
  apply (cruns_bind _ _ _ _ _ (λ _ y, y.1 = w ∧ pending (dir w) m m (now y.2))).
  { apply cruns_zoom. unfold Segment.sync. eapply cruns_first; [done..|]. apply cruns_on_snd.
    eapply cruns_post; [|eapply c_sync_again; [by rewrite (wo_active _ _ _ _ Hw)|by apply settled_pending|done]].
    cbn. intros _ τ' H'. split; [by destruct w|done]. }
  cbn beta. intros _ [w1 τ1] [E1 Hp]. cbn in E1, Hp. subst w1.
  eapply cruns_on_snd_bind.
  { eapply c_segment_create; [|exact Hp|done]. eapply (seg_files_fresh _ _ _ _ (wo_files _ _ _ _ Hw)); [|lia].
    intros j Hj. pose proof (wo_lt _ _ _ _ _ Hw Hj). lia. }
  cbn beta. intros seg τ2 [-> H2]. eapply cruns_on_snd_bind; [by eapply c_sync_dir|].
  cbn beta. intros _ τ3 H3. apply cruns_mod_fst. by eexists.
Qed.

(** What a power loss during the append of [p] may leave: the active segment with a
    torn tail, or the log with the record, in one more segment perhaps. *)
Definition append_image w m rs p (x : memfs) : Prop :=
  (∃ old b mode, m !! seg_path (active w) = Some old ∧ torn old (Frame.encode p) mode b ∧
     x = <[seg_path (active w) := b]> m) ∨
  (outside (wal_file (dir w)) m x ∧ ∃ i, i ≤ seg_id (active w) + 1 ∧ log_on_disk (dir w) x (rs ++ [p]) i).

(** When no flip goes unnoticed, that is a log without the record or with it. *)
Lemma append_image_log w m rs p x :
  log_holds w m rs → small p → blen (frames (rs ++ [p])) ≤ u64_max → flips_detected p → append_image w m rs p x →
  outside (wal_file (dir w)) m x ∧ ∃ i, i ≤ seg_id (active w) + 1 ∧
    (log_on_disk (dir w) x rs i ∨ log_on_disk (dir w) x (rs ++ [p]) i).
Proof.
  intros Hw Hp Hmax Hdet [(old & b & mode & Hold & Ht & ->)|(Ho & i & Hi & Hl)]; [|by eauto].
  split.
  - apply outside_insert; [|done]. destruct Hw as (segs & ps & Hw & _). rewrite (wo_path _ _ _ _ Hw). apply wal_file_segment.
  - exists (seg_id (active w)). split; [lia|]. by apply (torn_log w m rs p old b mode).
Qed.

(** Append, sync, rotate: the three calls of a commit. *)
Lemma c_commit Q w m rs p (τ : T) :
  log_holds w m rs → small p → blen (frames (rs ++ [p])) ≤ u64_max →
  seg_id (active w) + 1 < 2 ^ 64 → settled (dir w) m (now τ) → (∀ x, append_image w m rs p x → Q x) →
  cruns (dir w) snd Q (_ ← zoom active set_active (Segment.append (Frame.encode p));
    _ ← zoom active set_active Segment.sync; maybe_rotate) (rests (dir w)) (w, τ).
Proof.
  intros Hwh Hp Hmax Hid Hs HQ. pose proof Hwh as (segs & ps & Hw & ->).
  set (path := seg_path (active w)) in *. pose proof (wo_active _ _ _ _ Hw) as Hact. fold path in Hact.
  assert (Hpw : wal_file (dir w) path) by (unfold path; rewrite (wo_path _ _ _ _ Hw); apply wal_file_segment).
  assert (Htorn : ∀ b mode, torn (frames ps) (Frame.encode p) mode b → Q (<[path := b]> m)).
  { intros b mode Hb. apply HQ. left. by exists (frames ps), b, mode. }
  destruct (segment_append_ok w m segs ps p Hw Hp) as (w1 & m1 & Ha & Hw1 & (Hd1 & _) & Hco1 & Hi1).
  { rewrite <- (assoc_L (++)), blen_frames_app in Hmax. pose proof (blen_nonneg (frames (wal_records segs))). lia. }
  assert (Hv : st_view τ m) by apply Hs.
  destruct (msim_same_run _ (zoom active set_active (Segment.append (Frame.encode p))) _ w τ m _ _ _
    (msim_zoom _ _ _ _ _ (seg_append_sim _)) Hv Ha) as (τ1 & Ha1 & Hv1).
  eapply cruns_then; [exact Ha1|by eapply c_active_append|]. cbn beta. cbn [snd]. fold path. intros Happ.
  assert (Em1 : m1 = <[path := frames ps ++ Frame.encode p]> m)
    by (apply (view_unique (now τ1)); [exact Hv1|apply Happ]).
  assert (Hpath1 : seg_path (active w1) = path).
  { unfold path. by rewrite (wo_path _ _ _ _ Hw1), (wo_path _ _ _ _ Hw), Hd1, Hi1. }
  assert (Hw1h : log_holds w1 m1 (wal_records segs ++ ps ++ [p])) by by exists segs, (ps ++ [p]).
  assert (Hq1 : Q m1).
  { apply HQ. right. split; [rewrite Em1; by apply outside_insert|]. exists (seg_id (active w)). split; [lia|].
    apply log_holds_disk in Hw1h. by rewrite Hd1, Hi1, (assoc_L (++)) in Hw1h. }
  rewrite <- Hpath1 in Happ. eapply cruns_bind.
  { eapply c_active_sync; [exact Happ|]. by rewrite Hpath1, <- Em1. }
  cbn beta. intros _ [w2 τ2] [E2 Hs2]. cbn in E2, Hs2. subst w2. rewrite Hpath1, <- Em1 in Hs2. rewrite <- Hd1 in Hs2 |- *.
  apply (c_maybe_rotate Q w1 m1 segs (ps ++ [p])); [done|lia|done|done|].
  destruct (fresh_wal_ok w1 m1 segs (ps ++ [p]) (seg_id (active w1) + 1) Hw1) as [_ Hw2].
  { pose proof (wo_id _ _ _ _ Hw1). lia. }
  apply HQ. right. rewrite <- Hd1 in Hpw |- *. split.
  - apply outside_insert; [apply wal_file_segment|]. rewrite Em1. by apply outside_insert.
  - exists (seg_id (active w1) + 1). split; [lia|].
    assert (Hw2h : log_holds (set_active (mkSegment (seg_id (active w1) + 1) (segment_path (dir w1) (seg_id (active w1) + 1)) 0) w1)
      (<[segment_path (dir w1) (seg_id (active w1) + 1) := []]> m1) ((wal_records segs ++ ps) ++ [p])).
    { eexists _, []. split; [exact Hw2|].
      rewrite wal_records_app. unfold wal_records at 3. simpl. by rewrite !app_nil_r, (assoc_L (++)). }
    by apply log_holds_disk in Hw2h.
Qed.

(** The two durable contracts of [append]. *)
Lemma c_wal_append Q w m rs p (τ : T) :
  wal_holds w m rs → room w rs p → durability w ≠ OsBuffered →
  settled (dir w) m (now τ) → (∀ x, append_image w m rs p x → Q x) →
  cruns (dir w) snd Q (Wal.append p) (rests (dir w)) (w, τ).
Proof.
  intros (Hw & Hq & Hl & Hsy) (Hp & Hmax & Hid & Hn) Hdur Hs HQ.
  unfold Wal.append. eapply cruns_first; [done..|]. cbn beta zeta. destruct (durability w); [by eapply c_commit| |done].
  unfold commit_group. eapply cruns_first; [done..|]. unfold enqueue. rewrite Hq, Hl. cbn [app].
  unfold u64_add. rewrite u64_wrap_id by lia. cbn beta iota. eapply cruns_first; [done..|].
  cbn [synced_through leader_active set_coord coord]. rewrite decide_False by lia. unfold take_batch. cbn [queue].
  eapply cruns_first; [done..|]. set (w0 := set_coord _ (set_coord _ w)).
  eapply cruns_bind.
  { apply (cruns_attempt _ _ _ _ (λ r y, (∃ a, r = inl a) ∧ ∃ m', settled (dir w) m' (now y.2))).
    eapply cruns_eq; [apply write_batch_one|]. change (dir w) with (dir w0).
    eapply cruns_post; [|apply (c_commit Q w0 m rs p); [by do 2 apply log_holds_coord|done..]].
    intros a y [m' Hy]. split; [by eexists|by eexists]. }
  cbn beta. intros r [w1 τ1] [[a ->] Hr]. eapply cruns_first; [done..|]. by apply cruns_ret.
Qed.

(** ** Reset *)

Lemma c_delete_segments Q d m0 fs rest m (τ : T) :
  seg_files d m (fs ++ rest) → pending d m0 m (now τ) → Q m0 →
  cruns d alone Q (for_each (seg_entry d <$> fs.*1) (λ ip, fs_delete ip.2)) (λ _ τ', ∃ m', pending d m0 m' (now τ')) τ.
Proof.
  intros Hf Hp HQ. assert (Hin : ∀ i, i ∈ fs.*1 → is_Some (m !! segment_path d i) ∧ 0 ≤ i < 2 ^ 64).
  { intros i ([j b] & -> & Hi)%list_elem_of_fmap. split.
    - exists b. apply (sf_file _ _ _ Hf). apply elem_of_app. by left.
    - apply (sf_range _ _ _ Hf j b). apply elem_of_app. by left. }
  assert (Hnd : NoDup fs.*1).
  { pose proof (sf_sorted _ _ _ Hf) as Hs. apply sorted_keys_NoDup in Hs. rewrite fmap_app in Hs. by apply NoDup_app in Hs as [? _]. }
  clear Hf. revert m τ Hin Hp. induction fs as [|[i b] fs IH]; intros m τ Hin Hp; [apply cruns_ret; by exists m|].
  cbn [fmap list_fmap fst for_each seg_entry snd] in *. apply NoDup_cons in Hnd as [Hi Hnd].
  destruct (Hin i ltac:(by left)) as [Hb Hr].
  eapply cruns_bind; [eapply c_delete; [apply is_child_join|exact Hb|exact Hp|done]|]. cbn beta. intros _ τ1 H1.
  eapply (IH Hnd); [|exact H1]. intros j Hj. split; [|by apply Hin; right]. rewrite lookup_delete_ne; [by apply Hin; right|]. intros E. apply segment_path_inj in E; [by subst|done|by apply Hin; right].
Qed.

(** What a power loss during a reset may leave: the records, in one more segment
    perhaps, or none. *)
Definition reset_image w m rs (x : memfs) : Prop :=
  outside (wal_file (dir w)) m x ∧ ∃ i, i ≤ seg_id (active w) + 1 ∧
    (log_on_disk (dir w) x rs i ∨ log_on_disk (dir w) x [] i).

Lemma c_reset Q w m rs (τ : T) :
  wal_holds w m rs → seg_id (active w) + 1 < 2 ^ 64 → settled (dir w) m (now τ) →
  (∀ x, reset_image w m rs x → Q x) → cruns (dir w) snd Q reset (rests (dir w)) (w, τ).
Proof.
  intros Hwh Hid Hs HQ. pose proof Hwh as [(segs & ps & Hw & Ers) Hco]. assert (Hv : st_view τ m) by apply Hs.
  pose proof (wo_id _ _ _ _ Hw). destruct (reset_run w m segs ps Hw Hid) as (m2 & Hdel & Hf1 & Hw2 & Hrun).
  set (m1 := <[_ := []]> m) in *. destruct (fresh_wal_ok w m segs ps (seg_id (active w) + 1) Hw) as [Hn Hw1]; [lia|].
  assert (Hq0 : Q m).
  { apply HQ. split; [done|]. exists (seg_id (active w)). split; [lia|]. left. by apply wal_holds_disk. }
  assert (Hq1 : Q m1).
  { apply HQ. split; [apply outside_insert; [apply wal_file_segment|done]|]. eexists. split; [reflexivity|]. left.
    apply (log_holds_disk (set_active (next_active w) w)). exists (segs ++ [(seg_id (active w), ps)]), [].
    split; [exact Hw1|]. rewrite Ers, wal_records_app. unfold wal_records at 3. simpl. by rewrite !app_nil_r. }
  assert (Hq2 : Q m2).
  { apply HQ. split; [by apply (reset_outside _ _ _ _ _ (ex_intro _ _ (wo_path _ _ _ _ Hw)) Hrun)|]. eexists. split; [reflexivity|].
    right. apply (log_holds_disk (set_active (next_active w) w)). by exists [], []. }
  unfold reset. eapply cruns_first; [done..|]. eapply cruns_first.
  { apply on_snd_run. eapply (looks_run _ (list_segments (dir w)) m); [|apply list_segments_sim|exact Hv|apply list_segments_mem, (wo_files _ _ _ _ Hw)].
    intros t0. apply looks_list_segments, looks_same. }
  { done. }
  rewrite (next_segment_id_ok _ _ _ _ Hw Hid). eapply cruns_on_snd_bind; [by eapply c_segment_create; [|by apply settled_pending|]|].
  cbn beta. intros seg τ1 [-> Hp1]. eapply cruns_on_snd_bind; [by eapply c_sync_dir|]. cbn beta. intros _ τ2 Hs2.
  fold (next_active w). change (<[_ := []]> m) with m1 in Hs2.
  assert (Hv2 : st_view τ2 m1) by apply Hs2. fold (open_segments w segs ps).
  destruct (msim_run _ _ _ τ2 m1 _ _ (msim_for_each _ _ (λ ip : Z * path, fs_delete ip.2) (λ ip, fs_delete ip.2)
    (λ ip, sim_delete ip.2)) Hv2 Hdel) as (τ3 & Hrun3 & Hv3).
  eapply (cruns_then _ _ _ _ _ (λ _ y, ∃ m', pending (dir w) m1 m' (now y.2))); [apply on_snd_run; exact Hrun3| |].
  { apply cruns_on_snd. eapply cruns_post; [|eapply c_delete_segments; [exact Hf1|by apply settled_pending|done]].
    intros a τ' H'. exact H'. }
  cbn beta. cbn [snd]. intros (m' & Hv' & Hq').
  assert (m' = m2) as -> by (apply (view_unique (now τ3)); [exact Hv'|exact Hv3]).
  eapply cruns_on_snd_bind; [by eapply (c_sync_dir _ Q m1 m2)|]. cbn beta. intros _ τ4 Hs4.
  apply cruns_mod_fst. by exists m2.
Qed.

(** ** Opening *)

Lemma swapped_seg_files d m fs i b keep :
  seg_files d m (fs ++ [(i, b)]) →
  seg_files d (swapped (tmp_path d i) (segment_path d i) keep m) (fs ++ [(i, keep)]).
Proof.
  intros Hf. unfold swapped. eapply (seg_files_update _ _ _ _ b). eapply seg_files_ext; [|exact Hf].
  intros q _ Hq. rewrite lookup_delete_ne; [done|]. intros <-. rewrite parse_tmp_path in Hq. by destruct Hq.
Qed.
Lemma swapped_outside d m i keep : outside (wal_file d) m (swapped (tmp_path d i) (segment_path d i) keep m).
Proof. apply outside_insert; [apply wal_file_segment|]. apply outside_delete; [apply wal_file_tmp|done]. Qed.

Lemma c_truncate_tail Q d m fs i b n (τ : T) :
  seg_files d m (fs ++ [(i, b)]) → 0 ≤ n < blen b → settled d m (now τ) → Q m →
  let m' := swapped (tmp_path d i) (segment_path d i) (take (Z.to_nat n) b) m in
  Q m' → cruns d alone Q (truncate_tail d i n) (λ _ τ', settled d m' (now τ')) τ.
Proof.
  intros Hf Hn Hs H0 m' HQ. pose proof (seg_files_snoc_inv _ _ _ _ _ Hf) as (Hb & Hi & _).
  assert (Hv : st_view τ m) by apply Hs. unfold truncate_tail. cbv zeta.
  eapply cruns_first; [|done|].
  { apply (looks_run (fs_len (segment_path d i)) (fs_len (segment_path d i)) m τ (Ok (blen b)) m).
    - intros t0. apply looks_same.
    - apply sim_len.
    - exact Hv.
    - simpl. unfold mem_len, mem_file. by rewrite Hb. }
  rewrite decide_False by lia. eapply cruns_first; [|done|].
  { eapply (looks_run _ (read_all (segment_path d i)) m); [|apply read_all_sim|exact Hv|apply read_all_mem].
    intros t0. apply looks_read_all, looks_same. }
  rewrite Hb. cbn [default id]. eapply cruns_first; [|done|].
  { unfold of_outcome, slice. by rewrite decide_True by lia. }
  rewrite Z.sub_0_r, drop_0. apply (c_replace d Q m m); try done; [apply is_child_join..| |by apply settled_pending].
  intros E. pose proof (parse_tmp_path d i) as Ht. rewrite E in Ht. by rewrite parse_segment_path in Ht.
Qed.

(** What a power loss while the log is opened may leave: the same records. *)
Definition open_image d m rs (i : Z) (x : memfs) : Prop :=
  outside (wal_file d) m x ∧ log_on_disk d x rs i.

Lemma c_wal_open Q d m rs i o (τ : T) :
  log_on_disk d m rs i → settled d m (now τ) → (∀ x, open_image d m rs i x → Q x) →
  cruns d alone Q (Wal.open d o) (λ _ τ', ∃ m', settled d m' (now τ')) τ.
Proof.
  intros Hlog Hs HQ. assert (Hv : st_view τ m) by apply Hs. assert (Hq0 : Q m) by by apply HQ.
  assert (Hlook : ∀ t0 : T, keeps (λ t, t = t0) any (recover d)) by (intros t0; apply looks_recover, looks_same).
  assert (Hlist : ∀ t0 : T, keeps (λ t, t = t0) any (list_segments d)) by (intros t0; apply looks_list_segments, looks_same).
  unfold Wal.open. destruct Hlog as [Hf|segs i b ps n reason Hf Hfit Hb Hsc].
  - pose proof (list_segments_mem _ _ _ Hf) as Hl. cbn [fmap list_fmap] in Hl.
    eapply cruns_first; [|done|].
    { eapply (looks_run _ (recover d) m); [exact Hlook|apply recover_sim|exact Hv|].
      unfold recover. erewrite bind_ok by exact Hl. reflexivity. }
    cbn [stop_reason recovered_default]. rewrite decide_False by by intros []. eapply cruns_first; [done..|].
    eapply cruns_first; [by eapply (looks_run _ (list_segments d) m); [exact Hlist|apply list_segments_sim|exact Hv|exact Hl]|done|].
    cbn [last]. set (m1 := <[segment_path d 1 := []]> m).
    assert (Hq1 : Q m1).
    { apply HQ. split; [apply outside_insert; [apply wal_file_segment|done]|].
      apply (log_some d m1 [] 1 [] [] 0 Clean); [|by intros ? ? ?%elem_of_nil|by unfold u64_max|done].
      apply (seg_files_new d m []); [done| |lia]. intros j Hj. by apply elem_of_nil in Hj. }
    apply (cruns_bind _ _ _ _ _ (λ _ τ', settled d m1 (now τ'))); [|intros seg τ1 H1; apply cruns_ret; by exists m1].
    eapply cruns_bind; [eapply c_segment_create; [|by apply settled_pending|done]|].
    { apply (seg_files_fresh d m [] 1 Hf); [|lia]. intros j Hj. by apply elem_of_nil in Hj. }
    cbn beta. intros seg τ1 [-> H1]. eapply cruns_bind; [by eapply c_sync_dir|]. cbn beta. intros _ τ2 H2. by apply cruns_ret.
  - pose proof (recover_mem d m segs i b ps n reason Hf Hfit Hsc) as Hrec.
    eapply cruns_first; [by eapply (looks_run _ (recover d) m); [exact Hlook|apply recover_sim|exact Hv|exact Hrec]|done|].
    cbn [stop_reason tail_segment tail_valid_len]. pose proof Hsc as (ps' & post & E & -> & -> & Hclean & Hsm)%scan_sound.
    simpl in E. subst ps'.
    apply (cruns_bind _ _ _ _ _ (λ _ τ', ∃ m1, settled d m1 (now τ') ∧ seg_files d m1 (seg_bytes segs ++ [(i, frames ps)]))).
    { case_decide as Hr; [|apply cruns_ret; exists m; split; [done|]].
      2:{ assert (post = []) as -> by tauto. by rewrite app_nil_r in Hf. }
      assert (Hkeep : take (Z.to_nat (blen (frames ps))) (frames ps ++ post) = frames ps).
      { by rewrite take_app_prefix by (unfold blen; lia). }
      assert (Hlt : 0 ≤ blen (frames ps) < blen (frames ps ++ post)).
      { assert (post ≠ []) by tauto. destruct post; [done|]. rewrite blen_app, blen_cons.
        pose proof (blen_nonneg post). pose proof (blen_nonneg (frames ps)). lia. }
      eapply cruns_post; [|eapply c_truncate_tail; [exact Hf|done|exact Hs|done|]].
      - cbn beta. intros _ τ' H'. eexists. split; [exact H'|]. rewrite Hkeep. by eapply swapped_seg_files.
      - rewrite Hkeep. apply HQ. split; [apply swapped_outside|].
        apply (log_some d _ segs i (frames ps) ps (blen (frames ps)) Clean); [by eapply swapped_seg_files|done| |].
        + rewrite blen_app in Hb. pose proof (blen_nonneg post). lia.
        + rewrite scan_clean; [done|done|]. rewrite blen_app in Hb. pose proof (blen_nonneg post). lia. }
    cbn beta. intros _ τ1 (m1 & Hs1 & Hf1). assert (Hv1 : st_view τ1 m1) by apply Hs1.
    eapply cruns_first; [by eapply (looks_run _ (list_segments d) m1); [exact Hlist|apply list_segments_sim|exact Hv1|by apply list_segments_mem]|done|].
    rewrite !fmap_app. simpl. rewrite last_snoc. simpl.
    eapply cruns_first; [|done|apply cruns_ret; by exists m1].
    eapply (looks_run _ (Segment.open d i) m1); [intros t0; apply looks_seg_open, looks_same|apply seg_open_sim|exact Hv1|].
    unfold Segment.open. erewrite bind_ok; [reflexivity|]. simpl. unfold mem_len, mem_file.
    rewrite (sf_file _ _ _ Hf1 i (frames ps)); [done|in_list].
Qed.
End wal.
End CrashWal.
