(* ===== verification/CrashDb.v ===== *)
(** Power loss while the engine runs: the disk images a write, a flush with its
    compactions, and a recovery may leave, and that the engine opened on any of
    them stands for the map before or after the interrupted call. *)
From Stdlib Require Import Strings.String.
From S2P Require Export CrashCompaction CrashWal DbRefine.

Module CrashDb.
Import Durable CrashLogic Reads CrashTables CrashCompaction CrashWal.
Import SsFormat Manifest ManifestSpec Compaction Newest Tables MergeSpec CompactionSpec.
Import Memtable MemtableSpec Recovery WalSpec WalFrame RecordSpec Db DbSpec DbOpen DbRefine.

Section images.
Context {CRC : Crc32} {CRCL : Crc32Laws} {XXH : Xxh3}.
Implicit Types (d p : path) (m x : memfs) (v : Version) (c : Z → list Entry) (es : list Entry) (db : Db)
  (kv : gmap bytes bytes).

(** An engine opened on the disk [x] stands for [kv]. *)
Definition recovers d kv (u : Z) x : Prop :=
  (∃ v c es, disk_core d x v c es u ∧ live_map (disk_view c v es) = kv) ∨ (fresh_dir d x ∧ kv = ∅).

Lemma recovers_core d kv u x v c es : disk_core d x v c es u → live_map (disk_view c v es) = kv → recovers d kv u x.
Proof. intros H1 H2. left. eauto. Qed.

Lemma disk_core_budget d m v c es u u' : u ≤ u' ≤ 2 ^ 30 → disk_core d m v c es u → disk_core d m v c es u'.
Proof.
  intros Hu []. split; try done; try lia.
  - destruct dk_log0 as (i & ? & ?). exists i. split; [done|lia].
  - intros e He. specialize (dk_seqs0 e He). lia.
Qed.

Lemma live_disk_view c v es : disk_view c v es = nunion (newest es) (tview c (tiers v)).
Proof. unfold disk_view. by rewrite newest_app. Qed.

(** ** Tables recast *)

Lemma foreign_log d m x rs i :
  (∀ p, foreign d p → x !! p = m !! p) → log_on_disk d m rs i → log_on_disk d x rs i.
Proof.
  intros E [Hf|segs j b ps n reason Hf Hfit Hb Hsc].
  - apply log_none. eapply seg_files_ext; [|exact Hf]. intros p _ [k Hp]. apply E. by eapply segment_foreign.
  - eapply log_some; [|done..]. eapply seg_files_ext; [|exact Hf]. intros p _ [k Hp]. apply E. by eapply segment_foreign.
Qed.

Lemma recast_core d m v c es u x v' c' :
  disk_core d m v c es u → newest es ∪ tview c (tiers v) = disk_view c v es → recast d m v c x v' c' →
  disk_core d x v' c' es u ∧ live_map (disk_view c' v' es) = live_map (disk_view c v es).
Proof.
  intros Hk Hview []. pose proof Hk as []. assert (Hk' : disk_core d x v' c' es u).
  { split; try done; try lia.
    - destruct dk_log0 as (i & Hl & Hi). exists i. split; [|done]. by eapply foreign_log.
    - intros k a b Ha Hb. apply (dk_newer0 k a b Ha). by apply rc_sub0. }
  split; [done|]. rewrite <- Hview. assert (Hv' : disk_view c' v' es = newest es ∪ tview c' (tiers v')).
  { unfold disk_view. rewrite newest_app. apply nunion_newer. intros k a b Ha%elem_of_bt_iter Hb%newest_lookup.
    by apply (dk_newer _ _ _ _ _ _ Hk' k). }
  rewrite Hv'. by apply same_live_union.
Qed.

(** ** Tables flushed *)

(** The disk [x] names the tables of [db] and, in front, one of its buffer; the log
    is where it was. *)
Record flushed_image db m c es x v' c' : Prop := {
  fi_file : manifest_at (dir db) v' x;
  fi_version : version_inv (dir db) x v' c';
  fi_foreign p : foreign (dir db) p → x !! p = m !! p;
  fi_lists : tlists c' (tiers v') = bt_iter (newest es) :: tlists c (tiers (ver db));
  fi_seq : Manifest.next_seq v' = next_seq (write_state db);
  fi_id : next_table_id v' = next_table_id (ver db) + 1;
  fi_count : blen (all_tables v') = blen (all_tables (ver db)) + 1;
}.

Lemma nunion_idemp_l (m1 m2 : kvmap) : nunion m1 (nunion m1 m2) = nunion m1 m2.
Proof.
  rewrite (assoc_L nunion). f_equal. apply map_eq. intros k. rewrite lookup_nunion.
  destruct (m1 !! k) as [a|]; [|done]. cbn. by rewrite newer_idemp.
Qed.

Lemma flushed_core db m c es u x v' c' :
  db_inv db m c es u → 2 * u + 2 ≤ 2 ^ 30 → flushed_image db m c es x v' c' →
  disk_core (dir db) x v' c' es (2 * u + 2) ∧
  live_map (disk_view c' v' es) = live_map (db_view db c es) ∧
  live_map (disk_view c' v' []) = live_map (db_view db c es).
Proof.
  intros Hi Hu []. pose proof (di_core _ _ _ _ _ Hi) as []. pose proof (db_core_disk _ _ _ _ _ Hi) as [(i & Hlog & Hiu) _ _ _ _ _ _ _ _].
  pose proof (newest_weights es) as Hw. pose proof (tweight_nonneg c (tiers (ver db))). pose proof (weights_nonneg es).
  assert (Ht : newest (concat (tlists c' (tiers v'))) = nunion (newest es) (tview c (tiers (ver db)))).
  { rewrite fi_lists0. cbn [concat]. by rewrite newest_app, newest_sorted_map. }
  split; [|split].
  - split; try done; try lia.
    + exists i. split; [|lia]. by eapply foreign_log.
    + intros e He. specialize (di_seqs0 e He). lia.
    + rewrite fi_lists0. cbn [concat]. intros k a b Ha [Hb|Hb]%elem_of_app; [|by apply (di_newer0 k)]. right.
      apply elem_of_bt_iter in Ha. apply elem_of_bt_iter in Hb. congruence.
    + unfold tweight. rewrite fi_lists0. cbn [concat]. rewrite weights_app. unfold tweight in *. lia.
  - unfold disk_view, db_view. rewrite !newest_app, Ht, nunion_idemp_l. done.
  - unfold disk_view, db_view. rewrite app_nil_l, Ht, newest_app. done.
Qed.
End images.

Section engine.
Context {CRC : Crc32} {CRCL : Crc32Laws} {XXH : Xxh3} {R : Type} {RNG : Rng R} {RL : RngLaws R}.
Abbreviation T := (Traced (SimFs.SimState R)).
Implicit Types (d p : path) (m x : memfs) (v : Version) (c : Z → list Entry) (es : list Entry) (db : Db)
  (kv : gmap bytes bytes) (Q : memfs → Prop).

(** ** The flush of the frozen table *)

Lemma cruns_with_version {A} d Q (f : Version → M (Db * T) DbError A) Post db (τ : T) :
  let a := Manifest.arc_id (current (manifest db)) in
  cruns d snd Q (f (ver db)) (λ r y, Post r (set_manifest (unpin a (manifest y.1)) y.1, y.2))
    (set_manifest (pin a (manifest db)) db, τ) →
  cruns d snd Q (with_version f) Post (db, τ).
Proof.
  intros a (r & [db' τ'] & H1 & H2). exists r, (set_manifest (unpin a (manifest db')) db', τ'). split; [|done].
  unfold with_version. cbn zeta. unfold a in H1. by rewrite H1.
Qed.

Lemma c_flush_frozen Q db m c es u (τ : T) :
  db_inv db m c es u → newest es ≠ ∅ → u + 2 ≤ 2 ^ 30 → settled (dir db) m (now τ) →
  Q m → (∀ x v' c', flushed_image db m c es x v' c' → Q x) →
  cruns (dir db) snd Q (flush_frozen (next_seq (write_state db)) (frozen_now db)) (rests (dir db))
    (frozen_db db (frozen_now db), τ).
Proof.
  intros Hi Hne Hu Hs HQ HQ'. pose proof (di_core _ _ _ _ _ Hi) as [].
  destruct (flush_frozen_plan db m c es u Hi Hne Hu) as (m1 & v' & c' & [Hsg Htl Hseq Hid Hcount] & Hw & Ev & _).
  set (oid := next_table_id (ver db)) in *. set (out := bt_iter (newest es)) in *. pose proof (blen_nonneg (all_tables (ver db))).
  destruct (install_staged (flush_pin db) m c m1 v' c') as (mf' & m' & Hin & [[Hf' Hv' _] _] & Hd' & Hcur & _ & Hfor & _).
  { by destruct di_manifest0. }
  { cbn. fold oid. lia. }
  { change (Manifest.dir (flush_pin db)) with (Manifest.dir (manifest db)). by rewrite di_mf_dir0. }
  change (Manifest.dir (flush_pin db)) with (Manifest.dir (manifest db)) in *. rewrite di_mf_dir0 in *. rewrite Hd', Hcur in *.
  destruct (staged_switched _ _ _ _ _ _ _ Hsg) as (Hf1 & Hv1 & Hfor1); [fold oid; lia|].
  assert (Esnap : snapshot (active (memtables db)) = out).
  { unfold snapshot. rewrite di_mem0. fold out. clear. induction out as [|[k w] l IH]; [done|]. rewrite fmap_cons. by f_equal. }
  unfold flush_frozen. apply cruns_with_version. eapply cruns_first; [done..|]. cbn zeta.
  change (table (frozen_now db)) with (active (memtables db)). rewrite Esnap.
  change (ver (frozen_db db (frozen_now db))) with (ver db). fold oid.
  eapply cruns_on_snd_bind.
  { apply cruns_map_err. eapply c_write_table; [apply is_child_join| |by apply settled_pending|exact HQ|exact Hw].
    apply (di_free _ _ _ _ _ Hi). fold oid. lia. }
  cbn beta. intros r τ1 [-> Hp1]. apply (cruns_bind _ _ _ _ _ (λ _ y, ∃ m', settled (dir db) m' (now y.2))).
  - apply cruns_zoom, cruns_map_err. rewrite <- Ev. change (manifest (set_manifest _ _)) with (flush_pin db).
    eapply cruns_post; [|eapply (c_install (dir db) Q m m1); [by rewrite <- di_mf_dir0|exact Hp1|exact HQ|..]].
    + cbn beta. intros a [mf2 τ2] [_ H2]. by eexists.
    + apply (HQ' _ v' c'). by split.
    + rewrite <- di_mf_dir0. change (Manifest.dir (manifest db)) with (Manifest.dir (flush_pin db)).
      rewrite <- (install_collected (flush_pin db) v' m1 mf' m' Hin). apply (HQ' _ v' c'). by split.
  - intros _ [db2 τ2] Hy. by apply cruns_mod_fst.
Qed.

(** ** The cascade *)

Lemma c_compact_all Q db m c es u (τ : T) :
  db_inv db m c es u → settled (dir db) m (now τ) → (∀ x v' c', recast (dir db) m (ver db) c x v' c' → Q x) →
  cruns (dir db) snd Q (compact_all (Datatypes.S (List.length (all_tables (ver db)))) (tier_fanout (options db)))
    (rests (dir db)) (db, τ).
Proof.
  intros Hi Hs HQ. pose proof (di_core _ _ _ _ _ Hi) as []. pose proof (db_inv_mf _ _ _ _ _ Hi) as Hmf.
  rewrite <- di_mf_dir0 in *.
  destruct (c_cascade (Datatypes.S (List.length (all_tables (ver db)))) Q (manifest db) m c (tier_fanout (options db)) τ)
    as (a & [mf' τ'] & Hc & Hrest & Hst); [done|done|apply (di_fits _ _ _ _ _ Hi)|unfold blen; lia|done|done|].
  exists a, (set_manifest mf' db, τ'). destruct a. split; [by apply compact_all_cascade|]. by split.
Qed.

(** ** The flush *)

(** The log next to the tables that hold its records may be there or not. *)
Lemma reset_image_recovers d kv u m x v c es w i :
  disk_core d m v c es u → live_map (disk_view c v es) = kv → live_map (disk_view c v []) = kv →
  Wal.dir w = d → i = Segment.seg_id (Wal.active w) + 1 → i ≤ u →
  reset_image w m (ent <$> es) x → recovers d kv u x.
Proof.
  intros Hk H1 H2 <- -> Hu (Ho & j & Hj & Hlog). pose proof Hk as []. pose proof (weights_nonneg es).
  destruct Hlog as [Hlog|Hlog].
  - apply (recovers_core _ _ _ _ v c es); [|done]. eapply disk_core_log; try done; [|lia]. exists j. split; [done|lia].
  - apply (recovers_core _ _ _ _ v c []); [|done]. eapply disk_core_log; try done; [|lia| | |simpl; lia].
    + exists j. split; [done|lia].
    + by intros e ?%elem_of_nil.
    + by intros k a b ?%elem_of_nil.
Qed.

Lemma c_reset_compact kv u db m c es u1 w' m2 (τ : T) :
  wal_holds (wal db) m (ent <$> es) → Wal.dir (wal db) = dir db → settled (dir db) m (now τ) →
  Wal.reset (wal db, m) = (Ok (), (w', m2)) → db_inv (set_wal w' db) m2 c [] u1 → u1 ≤ u ≤ 2 ^ 30 →
  disk_core (dir db) m (ver db) c es u → Segment.seg_id (Wal.active (wal db)) + 1 ≤ u →
  live_map (disk_view c (ver db) es) = kv → live_map (disk_view c (ver db) []) = kv →
  cruns (dir db) snd (recovers (dir db) kv u)
    (_ ← zoom wal set_wal (map_err Storage Wal.reset); db ← get_fst;
     compact_all (Datatypes.S (List.length (all_tables (ver db)))) (tier_fanout (options db)))
    (rests (dir db)) (db, τ).
Proof.
  intros Hw Hwd Hs Hrun Hi Hu Hk Hseg Hv1 Hv2. pose proof Hk as []. assert (Hv : st_view τ m) by apply Hs.
  destruct (msim_same_run _ _ _ (wal db) τ m _ _ _ WalSpec.reset_sim Hv Hrun) as (τ1 & Hrun1 & Hvw1).
  eapply (cruns_then _ _ _ _ _ (rests (dir db)) _ _ () (set_wal w' db, τ1)).
  - unfold zoom. by erewrite map_err_ok by exact Hrun1.
  - apply cruns_zoom, cruns_map_err. cbn [fst snd].
    pose proof (c_reset (recovers (dir db) kv u) (wal db) m (ent <$> es) τ Hw) as Hc. rewrite Hwd in Hc.
    apply Hc; [lia|done|]. intros x Hx. by eapply (reset_image_recovers _ _ _ m).
  - cbn [snd]. intros (m' & Hs1).
    assert (m' = m2) as -> by (apply (view_unique (now τ1)); [apply Hs1|exact Hvw1]).
    eapply cruns_first; [done..|]. change (dir db) with (dir (set_wal w' db)).
    eapply (c_compact_all _ _ m2 c [] u1); [exact Hi|exact Hs1|]. intros x v' c' Hrc.
    destruct (recast_core _ m2 _ _ _ u1 x v' c' (db_core_disk _ _ _ _ _ Hi)) as [Hk' Hl]; [|exact Hrc|].
    + change (disk_view c (ver (set_wal w' db)) []) with (db_view (set_wal w' db) c []).
      by rewrite (db_view_union _ _ _ _ _ (di_core _ _ _ _ _ Hi)).
    + eapply recovers_core; [apply (disk_core_budget _ _ _ _ _ u1); [lia|exact Hk']|]. by rewrite Hl.
Qed.

Lemma recovers_db db m c es u u' kv :
  db_inv db m c es u → live_map (db_view db c es) = kv → u ≤ u' ≤ 2 ^ 30 → recovers (dir db) kv u' m.
Proof.
  intros Hi Hv Hu. apply (recovers_core _ _ _ _ (ver db) c es); [|done].
  apply (disk_core_budget _ _ _ _ _ u); [lia|]. apply (db_core_disk _ _ _ _ _ Hi).
Qed.

Lemma flush_quiesced_empty db m c es u kv (τ : T) :
  db_inv db m c es u → newest es = ∅ → 2 * u + 2 ≤ 2 ^ 30 → live_map (db_view db c es) = kv → settled (dir db) m (now τ) →
  cruns (dir db) snd (recovers (dir db) kv (2 * u + 2))
    (_ ← zoom wal set_wal (map_err Storage Wal.reset); db ← get_fst;
     compact_all (Datatypes.S (List.length (all_tables (ver db)))) (tier_fanout (options db)))
    (rests (dir db)) (db, τ).
Proof.
  intros Hi He Hu Hkv Hs. pose proof (di_core _ _ _ _ _ Hi) as []. pose proof (newest_empty es He) as Ees.
  destruct (reset_inv db m c es u Hi He) as (w' & m2 & Hr & Hi'); [lia|].
  eapply (c_reset_compact kv _ db m c es (u + 1)); try done; try lia.
  - apply (disk_core_budget _ _ _ _ _ u); [lia|]. apply (db_core_disk _ _ _ _ _ Hi).
  - by rewrite <- Ees.
Qed.

Lemma flush_quiesced_full db m c es u kv (τ : T) :
  db_inv db m c es u → newest es ≠ ∅ → 2 * u + 4 ≤ 2 ^ 30 → live_map (db_view db c es) = kv → settled (dir db) m (now τ) →
  cruns (dir db) snd (recovers (dir db) kv (2 * u + 2))
    (_ ← flush_frozen (next_seq (write_state db)) (frozen_now db);
     _ ← zoom wal set_wal (map_err Storage Wal.reset); db ← get_fst;
     compact_all (Datatypes.S (List.length (all_tables (ver db)))) (tier_fanout (options db)))
    (rests (dir db)) (frozen_db db (frozen_now db), τ).
Proof.
  intros Hi Hne Hu Hkv Hs. pose proof (di_core _ _ _ _ _ Hi) as []. assert (Hv : st_view τ m) by apply Hs.
  set (f := frozen_now db).
  destruct (flush_frozen_ok db m c es u Hi Hne) as (mf' & m1 & c' & Hff & Hmf & Hd & Htl & Hq & Hid & Hn & Hfor & Hca); [lia|].
  fold f in Hff. destruct (msim_same_run _ _ _ (frozen_db db f) τ m _ _ _ (flush_frozen_sim _ f) Hv Hff) as (τ1 & Hff1 & Hv1).
  set (db1 := set_manifest mf' _) in *.
  eapply (cruns_then _ _ _ _ _ (rests (dir db)) _ _ () (db1, τ1)); [exact Hff1| |].
  - apply (c_flush_frozen _ db m c es u); [done|done|lia|done|apply (recovers_db db m c es u); [done|done|lia]|].
    intros x v' c2 Hx. destruct (flushed_core db m c es u x v' c2 Hi) as (Hk & Hl & _); [lia|done|].
    eapply recovers_core; [exact Hk|by rewrite Hl].
  - cbn [snd]. intros (m' & Hs1).
    assert (m' = m1) as -> by (apply (view_unique (now τ1)); [apply Hs1|exact Hv1]).
    destruct (reset_flushed_inv db m c es u mf' m1 c' (discard_frozen f (memtables (frozen_db db f))))
      as (w' & m2 & Hr & Hi'); try done; [lia| |].
    { simpl. rewrite filter_cons, decide_False by by intros []. done. }
    destruct (flushed_core db m c es u m1 (Manifest.version (current mf')) c' Hi) as (Hk & Hl1 & Hl2); [lia| |].
    { destruct Hmf as [[M1 M2 _] _]. rewrite Hd in *. by split. }
    eapply (c_reset_compact kv _ db1 m1 c' es (u + 2)); try done; try lia; change (wal db1) with (wal db); try lia.
    + eapply wal_holds_foreign; [|exact di_wal0]. by rewrite di_wal_dir0.
    + by etrans; [exact Hl1|].
    + by etrans; [exact Hl2|].
Qed.

(** A flush and its compactions lose nothing, whenever the power goes. *)
Lemma c_flush_locked db m c es u kv (τ : T) :
  db_inv db m c es u → 2 * u + 4 ≤ 2 ^ 30 → live_map (db_view db c es) = kv → settled (dir db) m (now τ) →
  cruns (dir db) snd (recovers (dir db) kv (2 * u + 2)) flush_locked (rests (dir db)) (db, τ).
Proof.
  intros Hi0 Hu Hkv Hs. apply (db_inv_pending true) in Hi0 as Hi. unfold flush_locked.
  eapply cruns_first; [done..|]. eapply cruns_first; [done..|].
  rewrite decide_False by (rewrite (di_idle _ _ _ _ _ Hi); lia). set (dbp := mod_write _ db) in *.
  apply (cruns_bind _ _ _ _ _ (λ r y, (∃ a, r = inl a) ∧ ∃ m', settled (dir db) m' (now y.2))).
  - apply cruns_attempt. eapply cruns_post; [|].
    { intros a y Hy. split; [by eexists|exact Hy]. }
    pose proof (di_core _ _ _ _ _ Hi) as []. unfold flush_quiesced. eapply cruns_first; [done..|]. cbn beta.
    pose proof (newest_weights es) as Hnw. pose proof (footprint_weights (newest es)) as Hfw.
    pose proof (tweight_nonneg c (tiers (ver dbp))).
    pose proof (active_bytes_zero (active (memtables dbp)) di_memwf0) as Hz. rewrite di_mem0 in Hz.
    specialize (Hz ltac:(lia)). fold (active_bytes (memtables dbp)) in Hz. case_decide as Hab.
    + apply Hz in Hab. eapply cruns_first; [done..|]. unfold freeze. cbn [snd memtables set_memtables frozen].
      rewrite di_frozen0. cbn [app for_each]. eapply cruns_eq; [apply bind_assoc|].
      by apply (flush_quiesced_full dbp m c es u kv).
    + assert (He : newest es = ∅) by (destruct (decide (newest es = ∅)); [done|by destruct Hab; apply Hz]).
      eapply cruns_first; [done..|]. rewrite di_frozen0. cbn [for_each]. eapply cruns_first; [done..|].
      apply (flush_quiesced_empty dbp m c es u kv); try done. lia.
  - cbn beta. intros r [db1 τ1] [[a ->] Hy]. eapply cruns_first; [done..|]. by apply cruns_ret.
Qed.

(** ** The write *)

Lemma write_mem_sim k kd : msim (with_same st_view) (write_mem (S:=T) k kd) (write_mem k kd).
Proof. unfold write_mem. solve_msim. Qed.

(** What a power loss while a record is logged leaves. *)
Lemma c_write_mem Q db m c es u k kd (τ : T) :
  let e := (k, mkValue (next_seq (write_state db)) kd) in
  db_inv db m c es u → u + (weight e + 1) ≤ 2 ^ 30 → durability (options db) ≠ Wal.OsBuffered → settled (dir db) m (now τ) →
  (∀ x, append_image (wal db) m (ent <$> es) (ent e) x → Q x) →
  cruns (dir db) snd Q (write_mem k kd) (rests (dir db)) (db, τ).
Proof.
  intros e Hi Hu Hdur Hs HQ. pose proof (di_core _ _ _ _ _ Hi) as []. pose proof (weight_pos e) as Hw.
  pose proof (weights_nonneg es). pose proof (tweight_nonneg c (tiers (ver db))).
  unfold write_mem. eapply cruns_first; [done..|]. cbn beta zeta. eapply cruns_first; [done..|].
  apply (cruns_bind _ _ _ _ _ (λ r y, (∃ a, r = inl a) ∧ ∃ m', settled (dir db) m' (now y.2))).
  - apply cruns_attempt, cruns_zoom, cruns_map_err. cbn [fst snd]. change (wal (mod_write claim db)) with (wal db).
    change (encode_record (next_seq (write_state db)) k kd) with (ent e). rewrite <- di_wal_dir0 in *.
    eapply cruns_post; [|apply (c_wal_append Q (wal db) m (ent <$> es) (ent e)); [done| |congruence|done|done]].
    + intros a y Hy. split; [by eexists|exact Hy].
    + split_and!; [apply ent_small; lia| |lia|lia].
      change [ent e] with (ent <$> [e]). rewrite <- fmap_app.
      pose proof (frames_weights (es ++ [e])) as Hf. rewrite weights_app in Hf. cbn [weights foldr] in Hf. unfold u64_max. lia.
  - cbn beta. intros r [db1 τ1] [[a ->] Hy]. eapply cruns_first; [done..|]. by apply cruns_mod_fst.
Qed.

(** The record of a write is one whose frame no flipped bit turns into another. *)
Definition write_detected db k kd : Prop := flips_detected (encode_record (next_seq (write_state db)) k kd).

Lemma append_recovers db m c es u u' k kd x :
  let e := (k, mkValue (next_seq (write_state db)) kd) in
  db_inv db m c es u → u + (weight e + 1) ≤ u' ≤ 2 ^ 30 → write_detected db k kd →
  append_image (wal db) m (ent <$> es) (ent e) x →
  recovers (dir db) (live_map (db_view db c es)) u' x ∨
  recovers (dir db) (apply_kind k kd (live_map (db_view db c es))) u' x.
Proof.
  intros e Hi Hu Hdet Hx. pose proof (db_core_disk _ _ _ _ _ Hi) as Hk. pose proof (di_core _ _ _ _ _ Hi) as [].
  pose proof (weight_pos e) as Hw. pose proof (weights_nonneg es). pose proof (tweight_nonneg c (tiers (ver db))).
  apply append_image_log in Hx as (Ho & i & Hiu & Hlog); [|apply di_wal0| | |exact Hdet].
  2:{ apply ent_small. lia. }
  2:{ change [ent e] with (ent <$> [e]). rewrite <- fmap_app.
      pose proof (frames_weights (es ++ [e])) as Hf. rewrite weights_app in Hf. cbn [weights foldr] in Hf. unfold u64_max. lia. }
  rewrite di_wal_dir0 in *. destruct Hlog as [Hlog|Hlog]; [left|right].
  - apply (recovers_core _ _ _ _ (ver db) c es); [|done]. eapply (disk_core_log _ m); try done; try lia.
    + exists i. split; [done|lia].
    + intros e' He'. specialize (di_seqs0 e' He'). lia.
  - apply (recovers_core _ _ _ _ (ver db) c (es ++ [e])); [|apply (write_live _ _ _ _ _ _ _ Hi)].
    eapply (disk_core_log _ m); try done; try lia.
    + exists i. split; [by rewrite fmap_app|lia].
    + intros e' [He'|He'%list_elem_of_singleton]%elem_of_app; [specialize (di_seqs0 e' He'); lia|subst e'; cbn; lia].
    + apply newer_snoc; [done|]. intros w (l & (meta & Hm' & ->)%elem_of_tlists & Hw')%elem_of_concat.
      pose proof (vi_seq _ _ _ _ (mi_version _ _ _ di_manifest0) meta _ Hm' Hw'). cbn in *. lia.
    + rewrite weights_app. cbn [weights foldr]. lia.
Qed.

Lemma c_write Q db m c es u k kd (τ : T) :
  let e := (k, mkValue (next_seq (write_state db)) kd) in
  db_inv db m c es u → flush_pending (write_state db) = false → 2 * (u + write_cost k kd) + 2 ≤ 2 ^ 30 →
  durability (options db) ≠ Wal.OsBuffered → settled (dir db) m (now τ) →
  (∀ x, append_image (wal db) m (ent <$> es) (ent e) x → Q x) →
  (∀ x, recovers (dir db) (apply_kind k kd (live_map (db_view db c es))) (2 * (u + write_cost k kd) + 2) x → Q x) →
  cruns (dir db) snd Q (Db.write k kd) (rests (dir db)) (db, τ).
Proof.
  intros e Hi Hp Hu Hdur Hs HQ HQ'. unfold write_cost in *.
  assert (We : weight (k, mkValue 0 kd) = weight e) by by rewrite !weight_alt. rewrite We in *.
  pose proof (weight_pos e). pose proof (di_budget _ _ _ _ _ (di_core _ _ _ _ _ Hi)).
  destruct (write_mem_ok db m c es u k kd Hi) as (db1 & m1 & Hw & Hi1 & Hd & Ho & Hcur); [fold e; lia|]. fold e in Hi1.
  assert (Hview : live_map (db_view db1 c (es ++ [e])) = apply_kind k kd (live_map (db_view db c es))).
  { unfold db_view. rewrite Hcur. by apply (write_live _ _ _ _ _ _ _ Hi). }
  assert (Hv : st_view τ m) by apply Hs.
  destruct (msim_same_run _ _ _ db τ m _ _ _ (write_mem_sim k kd) Hv Hw) as (τ1 & Hw1 & Hv1).
  eapply cruns_eq; [by apply write_split|]. eapply (cruns_then _ _ _ _ _ (rests (dir db))); [exact Hw1| |].
  - apply (c_write_mem Q db m c es u); [done|fold e; lia|done..].
  - cbn [snd]. intros (m' & Hs1).
    assert (m' = m1) as -> by (apply (view_unique (now τ1)); [apply Hs1|exact Hv1]).
    eapply cruns_first; [done..|]. destruct (is_full (memtables db1)); [|apply cruns_ret; by eexists].
    rewrite <- Hd in *. eapply cruns_img; [exact HQ'|].
    eapply cruns_img; [|apply (c_flush_locked db1 m1 c (es ++ [e]) (u + (weight e + 1)) (apply_kind k kd (live_map (db_view db c es))) τ1 Hi1); [fold e; lia|exact Hview|exact Hs1]].
    intros x [(v & c2 & es2 & Hk & Hl)|Hx]; [|by right].
    apply (recovers_core _ _ _ _ v c2 es2); [|done]. eapply disk_core_budget; [|exact Hk]. lia.
Qed.

(** * Calls of a client *)

(** At rest, the engine [db] on the simulator stands for [kv], durably. *)
Definition stable d o kv u db (st : SimFs.SimState R) : Prop :=
  ∃ m, settled d m st ∧ mem_rep d o kv u db m.

Definition op_detected (q : Z) (p : op) : Prop :=
  match p with
  | OpPut k v => flips_detected (encode_record q k (Value v))
  | OpDelete k => flips_detected (encode_record q k Tombstone)
  | _ => True
  end.

(** What an engine opened after a power loss during [p] stands for. *)
Definition before_or_after d kv u db (p : op) x : Prop :=
  op_detected (next_seq (write_state db)) p →
  recovers d kv (2 * (u + op_cost p) + 2) x ∨ recovers d (spec_step kv p).2 (2 * (u + op_cost p) + 2) x.

Lemma run_op_known d o kv u db m (p : op) (τ : T) :
  mem_rep d o kv u db m → op_ok p → u + op_cost p ≤ 2 ^ 30 → settled d m (now τ) →
  ∃ db' m' τ', run_op p (db, τ) = (Ok (spec_step kv p).1, (db', τ')) ∧ st_view τ' m' ∧
    mem_rep d o (spec_step kv p).2 (u + op_cost p) db' m'.
Proof.
  intros Hrep Hok Hu Hs. assert (Hv : st_view τ m) by apply Hs.
  destruct (run_op_mem d o kv u db m p Hrep Hok Hu) as (db' & m' & Hr & Hrep').
  destruct (msim_same_run _ _ _ db τ m _ _ _ (run_op_sim p) Hv Hr) as (τ' & Hr' & Hv').
  by exists db', m', τ'.
Qed.

(** The calls that change something. *)
Lemma c_run_op d o kv u db m (p : op) (τ : T) :
  mem_rep d o kv u db m → durability o ≠ Wal.OsBuffered → op_ok p → 2 * (u + op_cost p) + 2 ≤ 2 ^ 30 → settled d m (now τ) →
  cruns d snd (before_or_after d kv u db p) (run_op p) (rests d) (db, τ).
Proof.
  intros Hrep Hdur Hok Hu Hs. pose proof Hrep as (c & es & Hi & Hv & Hd & Ho & Hp). subst d o.
  pose proof (op_cost_nonneg p). pose proof (di_budget _ _ _ _ _ (di_core _ _ _ _ _ Hi)).
  assert (Hwrite : ∀ k kd, 2 * (u + write_cost k kd) + 2 ≤ 2 ^ 30 →
    cruns (dir db) snd (λ x, write_detected db k kd →
        recovers (dir db) kv (2 * (u + write_cost k kd) + 2) x ∨ recovers (dir db) (apply_kind k kd kv) (2 * (u + write_cost k kd) + 2) x)
      (Db.write k kd) (rests (dir db)) (db, τ)).
  { intros k kd Hc. rewrite <- Hv. apply (c_write _ db m c es u); try done.
    - intros x Hx Hdet. apply (append_recovers db m c es u _ k kd x Hi); [|done|done].
      unfold write_cost in *. rewrite !weight_alt in *. cbn [fst snd kind] in *. pose proof (weight_pos (k, mkValue 0 kd)) as W.
      rewrite weight_alt in W. cbn [fst snd kind] in W. lia.
    - intros x Hx _. by right. }
  assert (Hread : keeps (λ y, True ∧ y.2 = τ) any (run_op p) →
    cruns (dir db) snd (before_or_after (dir db) kv u db p) (run_op p) (rests (dir db)) (db, τ)).
  { intros Hk. destruct (run_op_known _ _ _ _ _ _ _ τ Hrep Hok) as (db' & m' & τ' & Hr & _); [lia|done|].
    destruct (Hk (db, τ)) as [[_ El] _]; [done|]. rewrite Hr in El. cbn in El. subst τ'.
    eapply cruns_step; [exact Hr|by exists m|apply steps_refl]. }
  destruct p as [k v|k|k|r|]; cbn [op_cost] in *.
  - eapply cruns_bind; [by apply (Hwrite k (Value v))|]. cbn beta. intros _ y Hy. by apply cruns_ret.
  - eapply cruns_bind; [by apply (Hwrite k Tombstone)|]. cbn beta. intros _ y Hy. by apply cruns_ret.
  - apply Hread. apply (keeps_bind _ any); [by apply (looks_db_get _ (looks_same τ) (λ _, True))|]. intros v _. by apply keeps_ret.
  - apply Hread. apply (keeps_bind _ any); [by apply (looks_db_scan _ (looks_same τ) (λ _, True))|]. intros it _.
    apply (keeps_bind _ any); [apply keeps_of_outcome|]. intros l _. by apply keeps_ret.
  - apply (cruns_bind _ _ _ _ _ (rests (dir db))); [|cbn beta; intros _ y Hy; by apply cruns_ret].
    eapply cruns_img; [|apply (c_flush_locked db m c es u kv τ Hi); [lia|done..]].
    intros x Hx _. left. destruct Hx as [(v & c2 & es2 & Hk & Hl)|Hx]; [|by right].
    apply (recovers_core _ _ _ _ v c2 es2); [|done]. eapply disk_core_budget; [|exact Hk]. cbn [op_cost]. lia.
Qed.
End engine.
End CrashDb.
