(* ===== verification/PowerLoss.v ===== *)
(** The engine under power loss: an engine opened on what a power loss left
    answers reads as the map it stands for, however many power losses interrupt
    the opening; with that, the theorems on a power loss at any moment of a call
    and of a whole lifetime. *)
From Stdlib Require Import Strings.String.
From S2P Require Export CrashDb.

Module PowerLoss.
Import SimFs SimSpec Durable CrashLogic Reads CrashTables CrashCompaction CrashWal CrashDb.
Import SsFormat Manifest ManifestSpec Compaction Newest Tables MergeSpec CompactionSpec.
Import Memtable MemtableSpec Recovery WalSpec WalFrame RecordSpec Db DbSpec DbOpen DbRefine.

(** * Reading *)

Definition is_read (p : op) : Prop := match p with OpGet _ | OpScan _ => True | _ => False end.

Section reads.
Context {CRC : Crc32} {CRCL : Crc32Laws} {XXH : Xxh3}.
Context {S : Type} {ST : Storage.Storage S} {STS : StorageSpec S}.
Implicit Types (kv : gmap bytes bytes) (db : Db) (s : S).

(** The open engine answers every sequence of reads as [kv] does. *)
Definition serves kv db s : Prop :=
  ∀ ops, Forall is_read ops → Forall op_ok ops →
  ∃ y, run_ops ops (db, s) = (Ok (spec_run kv ops).1, y).

Lemma run_read db m c es u (p : op) :
  db_core db m c es u → is_read p → op_ok p →
  ∃ db', run_op p (db, m) = (Ok (spec_step (live_map (db_view db c es)) p).1, (db', m)) ∧ reads_to db m db' ∧
    (spec_step (live_map (db_view db c es)) p).2 = live_map (db_view db c es).
Proof.
  intros Hi Hr Hok. destruct p as [k v|k|k|r|]; try done; cbn [run_op spec_step fst snd op_ok] in *.
  - destruct (get_ok db m c es u k Hi) as (db' & Hg & Hst). exists db'. split; [by erewrite bind_ok by exact Hg|done].
  - destruct (scan_ok db m c es u r Hi Hok) as (db' & it & Hs & Hst & Hl). exists db'. split; [|done].
    erewrite bind_ok by exact Hs. by erewrite bind_ok by (unfold of_outcome; by rewrite Hl).
Qed.

Lemma reads_to_view db m db' c es : reads_to db m db' → db_view db' c es = db_view db c es.
Proof. intros [(_ & _ & _ & _ & _ & E & _) _]. unfold db_view. by rewrite E. Qed.

Lemma core_serves db m c es u s :
  db_core db m c es u → st_view s m → serves (live_map (db_view db c es)) db s.
Proof.
  intros Hi Hv ops. revert db s Hi Hv. induction ops as [|p ops IH]; intros db s Hi Hv Hr Hok; [by eexists|].
  apply Forall_cons in Hr as [Hrp Hr]. apply Forall_cons in Hok as [Hp Hok].
  destruct (run_read db m c es u p Hi Hrp Hp) as (db1 & H1 & Hst & Hsame).
  destruct (msim_same_run st_view (run_op p) (run_op p) db s m _ _ _ (run_op_sim p) Hv H1) as (s1 & H1' & Hv1).
  destruct (IH db1 s1 (reads_to_core _ _ _ _ _ _ Hi Hst) Hv1 Hr Hok) as (y & Hy). exists y.
  rewrite (reads_to_view _ _ _ _ _ Hst) in Hy. cbn [run_ops spec_run]. rewrite <- Hsame in Hy at 1.
  destruct (spec_step (live_map (db_view db c es)) p) as [r kv1]. cbn [fst snd] in *. subst kv1.
  destruct (spec_run (live_map (db_view db c es)) ops) as [rs kv2].
  erewrite bind_ok by exact H1'. by erewrite bind_ok by exact Hy.
Qed.
End reads.

(** * Sequence numbers *)

Section numbers.
Context {CRC : Crc32} {XXH : Xxh3} {S : Type} {ST : Storage.Storage S}.

(** The next number is [q]. *)
Abbreviation next_is q := (λ y : Db * S, next_seq (write_state y.1) = q).

Lemma keeps_seq_zoom {U E A} q (get : Db → U) (set : U → Db → Db) (m : M (U * S) E A) :
  (∀ u db, write_state (set u db) = write_state db) → keeps (next_is q) any (zoom get set m).
Proof.
  intros Hset. apply (keeps_zoom _ (λ _, True)); [done|by intros db s u s' <- _; cbn; rewrite Hset|].
  intros y _. by split.
Qed.
Lemma keeps_seq_with_version {A} q (f : Version → M (Db * S) DbError A) :
  (∀ v, keeps (next_is q) any (f v)) → keeps (next_is q) any (with_version f).
Proof.
  intros Hf [db s] Hq. unfold with_version. cbn zeta.
  destruct (Hf (Manifest.version (current (manifest db))) (set_manifest (pin (Manifest.arc_id (current (manifest db))) (manifest db)) db, s) Hq)
    as [H1 _]. destruct (f _ _) as [r [db' s']]. by split.
Qed.
Lemma keeps_seq_compact_all q n fanout : keeps (next_is q) any (compact_all n fanout).
Proof.
  induction n as [|n IH]; cbn; [apply keeps_panic|]. apply (keeps_bind _ any); [by apply keeps_seq_zoom|].
  intros [] _; [exact IH|by apply keeps_ret].
Qed.
Lemma keeps_seq_mod q f :
  (∀ db, next_seq (write_state (f db)) = next_seq (write_state db)) → keeps (E:=DbError) (next_is q) any (mod_fst f).
Proof. intros Hf. apply keeps_mod_fst. intros db s <-. apply Hf. Qed.
Lemma keeps_seq_get q : keeps (E:=DbError) (next_is q) any get_fst.
Proof. eapply keeps_any, keeps_get_fst. Qed.
Lemma keeps_seq_snd {E A} q (m : M S E A) : keeps (next_is q) any (on_snd m).
Proof. apply keeps_on_snd. intros db s Hq. by split. Qed.
Hint Resolve keeps_seq_mod keeps_seq_get keeps_seq_snd keeps_seq_zoom keeps_seq_with_version keeps_seq_compact_all : keeps.

Lemma keeps_seq_flush_frozen q n f : keeps (next_is q) any (flush_frozen n f).
Proof. unfold flush_frozen. apply keeps_seq_with_version. intros v. solve_keeps. Qed.
Hint Resolve keeps_seq_flush_frozen : keeps.
Lemma keeps_seq_flush q : keeps (next_is q) any flush_locked.
Proof.
  unfold flush_locked, flush_quiesced. solve_keeps.
  apply keeps_seq_mod. intros db. cbn beta. by destruct (decide (active_bytes (memtables db) > 0)).
Qed.

(** Reads take no number. *)
Lemma keeps_seq_read q (m : M (Db * S) DbError resp) :
  keeps (λ y, next_seq (write_state y.1) = q ∧ True) any m → keeps (next_is q) any m.
Proof. intros Hm y Hy. by destruct (Hm y (conj Hy Logic.I)) as [[H _] _]. Qed.
Lemma keeps_seq_get_op q k : keeps (next_is q) any (run_op (OpGet k)).
Proof.
  apply keeps_seq_read, (keeps_bind _ any); [|intros v _; by apply keeps_ret].
  apply (looks_db_get _ looks_any (λ db, next_seq (write_state db) = q)); done.
Qed.
Lemma keeps_seq_scan q r : keeps (next_is q) any (run_op (OpScan r)).
Proof.
  apply keeps_seq_read, (keeps_bind _ any); [apply (looks_db_scan _ looks_any (λ db, next_seq (write_state db) = q)); done|].
  intros it _. solve_keeps.
Qed.

(** A call takes one number at most. *)
Lemma write_seq k kd db s :
  0 ≤ next_seq (write_state db) → next_seq (write_state (Db.write k kd (db, s)).2.1) ≤ next_seq (write_state db) + 1.
Proof.
  intros Hq. unfold Db.write. erewrite bind_ok by done. destruct (flush_pending (write_state db)); [cbn; lia|].
  erewrite bind_ok by done. cbv zeta. set (db1 := mod_write claim db).
  assert (Hle : next_seq (write_state db1) ≤ next_seq (write_state db) + 1) by (cbn; unfold u64_add; apply Z.mod_le; lia).
  etrans; [|exact Hle]. apply Z.eq_le_incl.
  match goal with |- next_seq (write_state (?f (_, _)).2.1) = _ => assert (Hk : keeps (next_is (next_seq (write_state db1))) any f) end.
  { pose proof keeps_seq_flush. solve_keeps. }
  by destruct (Hk (db1, s) eq_refl).
Qed.
Lemma run_op_seq p db s :
  0 ≤ next_seq (write_state db) → next_seq (write_state (run_op p (db, s)).2.1) ≤ next_seq (write_state db) + 1.
Proof.
  intros Hq. assert (Hbind : ∀ {A} (m : M (Db * S) DbError A) (r : A → resp), ((a ← m; mret (r a)) (db, s)).2 = (m (db, s)).2).
  { intros A m r. rewrite bind_run. by destruct (m (db, s)) as [[] ?]. }
  destruct p as [k v|k|k|r|]; unfold run_op.
  - rewrite Hbind. by apply write_seq.
  - rewrite Hbind. by apply write_seq.
  - destruct (keeps_seq_get_op _ k (db, s) eq_refl) as [E _]. cbn beta in E. unfold run_op in E. rewrite E. cbn [fst]. lia.
  - destruct (keeps_seq_scan _ r (db, s) eq_refl) as [E _]. cbn beta in E. unfold run_op in E. rewrite E. cbn [fst]. lia.
  - rewrite Hbind. destruct (keeps_seq_flush _ (db, s) eq_refl) as [E _]. unfold flush. rewrite E. cbn [fst]. lia.
Qed.
End numbers.

(** * Opening *)

Section opening.
Context {CRC : Crc32} {CRCL : Crc32Laws} {XXH : Xxh3} {R : Type} {RNG : Rng R} {RL : RngLaws R}.
Abbreviation T := (Traced (SimState R)).
Implicit Types (d p : path) (m x : memfs) (v : Version) (c : Z → list Entry) (es : list Entry) (db : Db) (o : Options)
  (kv : gmap bytes bytes) (Q : memfs → Prop).

Lemma looks_replay (τ0 : T) rs acc : keeps (λ τ, τ = τ0) any (fold_m rs acc replay_record).
Proof.
  apply (keeps_fold_m _ any); [|by left]. intros [q ms] r. unfold replay_record.
  apply (keeps_bind _ any); [apply keeps_of_outcome|]. intros rec _. by apply keeps_ret.
Qed.

Lemma replay_sim rs acc : msim (st_view (S:=T)) (fold_m rs acc replay_record) (fold_m rs acc replay_record).
Proof. unfold replay_record. solve_msim. Qed.

(** Reading the manifest of a disk that has one. *)
Lemma manifest_open_existing d v m (τ : T) :
  manifest_at d v m → st_view τ m → Manifest.open d τ = (Ok (mkManifest d (mkRef 0 v) [] ∅ 1), τ).
Proof.
  intros Hm Hv. destruct (msim_run st_view _ _ τ m _ _ (man_open_sim d) Hv (open_existing d v m Hm)) as (τ1 & Hr & _).
  assert (Ho : fs_open (Storage.join d MANIFEST_NAME) τ = (Ok (), τ)).
  { apply (looks_run _ (fs_open (Storage.join d MANIFEST_NAME)) m τ _ m); [intros τ0; apply looks_same|apply sim_open|done|].
    change (mem_open (Storage.join d MANIFEST_NAME) m = (Ok (), m)). unfold mem_open, mem_file. by rewrite (proj1 Hm). }
  pose proof Hr as Hr2. unfold open in Hr2. erewrite bind_ok in Hr2 by (unfold attempt; rewrite Ho; reflexivity).
  revert Hr2. match goal with |- ?f τ = _ → _ => assert (Hk : keeps (λ t, t = τ) any f) end.
  { pose proof (lk_len _ (looks_same τ)). pose proof (lk_read _ (looks_same τ)). solve_keeps. }
  intros Hr2. destruct (Hk τ eq_refl) as [E _]. rewrite Hr2 in E. cbn in E. by subst τ1.
Qed.

(** [open_on] after the manifest was read. *)
Definition open_rest d o mf : M T DbError Db :=
  '(wal, recovered) ← map_err Storage (Wal.open d (Wal.options_with (durability o)));
  '(next_seq, memtables) ←
    fold_m (records recovered) (Manifest.next_seq (Manifest.version (current mf)), set_new (memtable_size o)) replay_record;
  mret (mkDb d o wal memtables mf ∅ (mkWrite next_seq 0 false)).

Lemma c_open_rest d m v c es u o kv (τ : T) :
  disk_core d m v c es u → live_map (disk_view c v es) = kv → 2 ≤ tier_fanout o → settled d m (now τ) →
  cruns d alone (recovers d kv u) (open_rest d o (mkManifest d (mkRef 0 v) [] ∅ 1))
    (λ db τ', ∃ m' c' es', settled d m' (now τ') ∧ db_core db m' c' es' u ∧ live_map (db_view db c' es') = kv) τ.
Proof.
  intros Hk Hkv Hf Hs. assert (Hv : st_view τ m) by apply Hs. pose proof Hk as [(i & Hlog & Hi) _ _ _ _ _ _ _ _].
  destruct (open_rest_ok d m v c es u o Hk Hf) as (w & r & m' & q & ms & Ho & Hfold & Hout & Hc).
  destruct (msim_run st_view _ _ τ m _ _ (wal_open_sim d _) Hv Ho) as (τ1 & Ho1 & Hv1).
  destruct (msim_run st_view _ _ τ1 m' _ _ (replay_sim (records r) _) Hv1 Hfold) as (τ2 & Hf1 & Hv2).
  destruct (looks_replay τ1 (records r) (Manifest.next_seq v, set_new (memtable_size o)) τ1 eq_refl) as [E _].
  rewrite Hf1 in E. cbn in E. subst τ2.
  unfold open_rest. eapply cruns_then; [by apply map_err_ok; exact Ho1|apply cruns_map_err|].
  - eapply (c_wal_open _ d m); [exact Hlog|exact Hs|]. intros x [Hox Hlx]. apply (recovers_core _ _ _ _ v c es); [|done].
    eapply (disk_core_log d m); try done; [by exists i|destruct Hk; lia|apply Hk..].
  - cbn beta. intros (m2 & Hs1). assert (m2 = m') as -> by (eapply view_unique; [apply Hs1|apply Hv1]).
    eapply cruns_first; [exact Hf1|done|]. apply cruns_ret. by exists m', c, es.
Qed.

(** Opening a directory for the first time writes its manifest. *)
Lemma c_manifest_fresh Q d m (τ : T) :
  m !! Storage.join d MANIFEST_NAME = None → settled d m (now τ) → Q m → Q (fresh_manifest d m) →
  cruns d alone Q (Manifest.open d)
    (λ mf τ', mf = mkManifest d (mkRef 0 version_empty) [] ∅ 1 ∧ settled d (fresh_manifest d m) (now τ')) τ.
Proof.
  intros Hm Hs HQ HQ'. assert (Hv : st_view τ m) by apply Hs. unfold open.
  eapply cruns_first; [|done|].
  { unfold attempt. erewrite (looks_run _ (fs_open _) m τ (Err (NotFound (Storage.join d MANIFEST_NAME))) m); [reflexivity| |apply sim_open|done|].
    - intros τ0. apply looks_same.
    - change (mem_open (Storage.join d MANIFEST_NAME) m = (Err (NotFound (Storage.join d MANIFEST_NAME)), m)). unfold mem_open, mem_file. by rewrite Hm. }
  cbn beta iota. apply (cruns_bind _ _ _ _ _ (λ v τ', v = version_empty ∧ settled d (fresh_manifest d m) (now τ'))).
  - eapply cruns_bind; [by apply (c_write_manifest d Q m m); [apply settled_pending| |]|].
    cbn beta. intros _ τ1 H1. by apply cruns_ret.
  - cbn beta. intros v τ1 [-> H1]. by apply cruns_ret.
Qed.

(** Opening loses nothing, whenever the power goes. *)
Lemma c_open_on d m u o kv (τ : T) :
  recovers d kv u m → 1 ≤ u ≤ 2 ^ 30 → 2 ≤ tier_fanout o → settled d m (now τ) →
  cruns d alone (recovers d kv u) (open_on d o)
    (λ db τ', ∃ m' c' es', settled d m' (now τ') ∧ db_core db m' c' es' u ∧ live_map (db_view db c' es') = kv) τ.
Proof.
  intros Hr Hu Hf Hs. assert (Hv : st_view τ m) by apply Hs. pose proof Hr as [(v & c & es & Hk & Hkv)|[Hfr ->]].
  - eapply cruns_first; [apply map_err_ok, (manifest_open_existing d v m); [apply Hk|done]|done|].
    by apply (c_open_rest d m v c es).
  - destruct (fresh_disk d m Hfr) as [Hk _]. apply (disk_core_budget _ _ _ _ _ _ u) in Hk; [|lia].
    eapply cruns_bind; [apply cruns_map_err, (c_manifest_fresh _ d m τ); [apply Hfr|done|done|]|].
    + by eapply recovers_core.
    + cbn beta. intros mf τ1 [-> H1]. by apply (c_open_rest d (fresh_manifest d m) version_empty (λ _, []) []).
Qed.

(** * Surviving *)

(** The engine opened after a power loss in [st] serves [kv]; so does the one
    opened after further power losses, at most [n], during the openings. *)
Fixpoint survives (n : nat) d o kv (st : SimState R) : Prop :=
  ∃ db τ, open_on d o (mkTraced (crash st).2 []) = (Ok db, τ) ∧ serves kv db τ ∧
    match n with O => True | Datatypes.S n' => Forall (survives n' d o kv) (past τ) end.

Lemma recovers_survives n d o kv u st :
  1 ≤ u ≤ 2 ^ 30 → 2 ≤ tier_fanout o → lost d (recovers d kv u) st → survives n d o kv st.
Proof.
  intros Hu Hf. revert st. induction n as [|n IH]; intros st (m & Hs & Hr).
  all: destruct (c_open_on d m u o kv (mkTraced (crash st).2 []) Hr Hu Hf Hs) as (db & τ & Ho & (m' & c' & es' & Hs' & Hc & Hkv) & xs & Hp & Hx).
  all: exists db, τ; split; [exact Ho|]; rewrite <- Hkv; (split; [by apply (core_serves db m' c' es' u); [|apply Hs']|]).
  - done.
  - cbn in Hp. rewrite Hkv, Hp. eapply Forall_impl; [exact Hx|]. intros x. apply IH.
Qed.

(** * Calls *)

Lemma stable_lost d o kv u db (st : SimState R) : stable d o kv u db st → lost d (recovers d kv u) st.
Proof.
  intros (m & Hs & c & es & Hi & Hv & Hd & _). pose proof (di_budget _ _ _ _ _ (di_core _ _ _ _ _ Hi)).
  apply (settled_lost d _ m); [done|]. rewrite <- Hd. apply (recovers_db db m c es u); [done|done|lia].
Qed.

(** A call on an engine at rest: what it answers, what it leaves, and what it
    leaves if the power goes meanwhile. *)
Lemma run_op_stable n d o o' kv u db (τ : T) (p : op) :
  stable d o kv u db (now τ) → durability o ≠ Wal.OsBuffered → op_ok p → 2 * (u + op_cost p) + 2 ≤ 2 ^ 30 →
  op_detected (next_seq (write_state db)) p → 2 ≤ tier_fanout o' →
  ∃ db' τ', run_op p (db, τ) = (Ok (spec_step kv p).1, (db', τ')) ∧
    stable d o (spec_step kv p).2 (u + op_cost p) db' (now τ') ∧
    steps (λ st, survives n d o' kv st ∨ survives n d o' (spec_step kv p).2 st) τ τ'.
Proof.
  intros (m & Hs & Hrep) Hdur Hok Hu Hdet Hf. pose proof Hrep as (c & es & Hi & _). pose proof (op_cost_nonneg p).
  pose proof (di_budget _ _ _ _ _ (di_core _ _ _ _ _ Hi)).
  destruct (run_op_known d o kv u db m p τ Hrep Hok) as (db' & m' & τ' & Hr & Hv & Hrep'); [lia|done|].
  destruct (c_run_op d o kv u db m p τ Hrep Hdur Hok Hu Hs) as (a & y & Hr2 & (m2 & Hs2) & Hst).
  rewrite Hr in Hr2. injection Hr2 as <- <-. cbn in Hs2, Hst.
  assert (m2 = m') as -> by (eapply view_unique; [apply Hs2|apply Hv]).
  exists db', τ'. split; [done|]. split; [by exists m'|]. eapply steps_mono; [|exact Hst].
  intros st (x & Hx & HQ). destruct (HQ Hdet) as [Hq|Hq]; [left|right];
    (eapply recovers_survives; [|done|by exists x]; lia).
Qed.

(** ** A lifetime *)

(** The states [xs], recorded during the calls [ops], survive as the map before or
    after the call they were recorded in. *)
Fixpoint explained (n : nat) d o kv (ops : list op) (xs : list (SimState R)) : Prop :=
  match ops with
  | [] => xs = []
  | p :: ops' => ∃ ys zs, xs = ys ++ zs ∧
      Forall (λ st, survives n d o kv st ∨ survives n d o (spec_step kv p).2 st) ys ∧
      explained n d o (spec_step kv p).2 ops' zs
  end.

Lemma stable_seq d o kv u db (st : SimState R) : stable d o kv u db st → 0 ≤ next_seq (write_state db) ≤ u.
Proof. intros (m & _ & c & es & Hi & _). pose proof (di_core _ _ _ _ _ Hi) as []. lia. Qed.

Lemma run_ops_stable n d o o' kv u db (τ : T) (ops : list op) U :
  stable d o kv u db (now τ) → durability o ≠ Wal.OsBuffered → Forall op_ok ops →
  next_seq (write_state db) + Z.of_nat (length ops) ≤ U → 2 * (u + total_cost ops) + 2 ≤ 2 ^ 30 →
  (∀ (p : op) q, p ∈ ops → 0 ≤ q ≤ U → op_detected q p) → 2 ≤ tier_fanout o' →
  ∃ db' τ' xs, run_ops ops (db, τ) = (Ok (spec_run kv ops).1, (db', τ')) ∧
    stable d o (spec_run kv ops).2 (u + total_cost ops) db' (now τ') ∧
    past τ' = past τ ++ xs ∧ explained n d o' kv ops xs.
Proof.
  revert kv u db τ. induction ops as [|p ops IH]; intros kv u db τ Hst Hdur Hok HU Hu Hdet Hf; cbn [total_cost foldr length] in *.
  { exists db, τ, []. rewrite Z.add_0_r, app_nil_r. done. }
  apply Forall_cons in Hok as [Hp Hok]. pose proof (total_cost_nonneg ops) as Hn. unfold total_cost in Hn, IH.
  pose proof (stable_seq _ _ _ _ _ _ Hst). pose proof (op_cost_nonneg p).
  destruct (run_op_stable n d o o' kv u db τ p) as (db1 & τ1 & H1 & Hst1 & ys & Hys & HF); [done|done|done|lia| |done|].
  { apply Hdet; [by left|lia]. }
  pose proof (run_op_seq p db τ ltac:(lia)) as Hsq. rewrite H1 in Hsq. cbn [fst snd] in Hsq.
  destruct (IH (spec_step kv p).2 (u + op_cost p) db1 τ1) as (db2 & τ2 & zs & H2 & Hst2 & Hzs & Hex); try done; [lia..| |].
  { intros q i Hq. apply Hdet. by right. }
  exists db2, τ2, (ys ++ zs). cbn [run_ops spec_run explained]. destruct (spec_step kv p) as [r kv1]. cbn [fst snd] in *.
  destruct (spec_run kv1 ops) as [rs kv2]. cbn [fst snd] in *. split_and!.
  - erewrite bind_ok by exact H1. by erewrite bind_ok by exact H2.
  - by rewrite Z.add_assoc.
  - by rewrite Hzs, Hys, app_assoc.
  - by exists ys, zs.
Qed.

(** ** Opening a new disk *)

Lemma settled_with_seed d seed : settled d ∅ (with_seed (R:=R) seed).
Proof.
  split; [apply view_with_seed|]. split; [|by intros p]. pose proof (view_with_seed (R:=R) seed) as [Hw _].
  split; unfold durable_inj, durable_bytes, durable_id, live_id; cbn; intros *; rewrite ?lookup_empty; done.
Qed.

Lemma open_fresh_stable d o u st :
  settled d ∅ st → 2 ≤ tier_fanout o → 1 ≤ u ≤ 2 ^ 30 →
  ∃ db τ, open_on d o (mkTraced st []) = (Ok db, τ) ∧ stable d o ∅ 1 db (now τ) ∧
    Forall (λ st, lost d (recovers d ∅ u) st) (past τ).
Proof.
  intros Hs Hf Hu. assert (Hv : st_view (mkTraced st []) ∅) by apply Hs.
  destruct (open_on_fresh d ∅ o (fresh_empty d) Hf) as (db & m & c & Ho & Hi & Hl & Hd & Hop & Hp).
  destruct (msim_run st_view _ _ (mkTraced st []) ∅ _ _ (open_on_sim d o) Hv Ho) as (τ & Hr & Hv').
  destruct (c_open_on d ∅ u o ∅ (mkTraced st [])) as (db2 & τ2 & Hr2 & (m2 & _ & _ & Hs2 & _) & xs & Hp2 & Hx);
    [right; split; [apply fresh_empty|done]|done..|].
  rewrite Hr in Hr2. injection Hr2 as <- <-.
  assert (m2 = m) as -> by (eapply view_unique; [apply Hs2|apply Hv']).
  exists db, τ. split; [done|]. split.
  - exists m. split; [done|]. by exists c, [].
  - cbn in Hp2. by rewrite Hp2.
Qed.

(** * The theorems *)


End opening.

(** ** Concrete runs *)

Section decide.
Context {CRC : Crc32}.
(** [op_detected], by trying every bit; for every number up to [n]. *)
Definition op_detectedb (q : Z) (p : op) : bool :=
  match p with
  | OpPut k v => flips_detectedb (encode_record q k (Value v))
  | OpDelete k => flips_detectedb (encode_record q k Tombstone)
  | _ => true
  end.
Definition all_detectedb (n : nat) (ops : list op) : bool :=
  forallb (λ p, forallb (λ q, op_detectedb (Z.of_nat q) p) (List.seq 0 (Datatypes.S n))) ops.

Lemma op_detectedb_ok q p : op_detectedb q p = true → op_detected q p.
Proof. destruct p; cbn; try done; apply flips_detectedb_ok. Qed.
Lemma all_detectedb_ok n ops :
  all_detectedb n ops = true → ∀ (p : op) q, p ∈ ops → 0 ≤ q ≤ Z.of_nat n → op_detected q p.
Proof.
  unfold all_detectedb. rewrite forallb_forall. intros H p q Hp%list_elem_of_In Hq. specialize (H p Hp).
  rewrite forallb_forall in H. specialize (H (Z.to_nat q)). rewrite in_seq in H. specialize (H ltac:(lia)).
  apply op_detectedb_ok. by rewrite Z2Nat.id in H by lia.
Qed.
End decide.

#[local] Existing Instance Sample.crc.
#[local] Existing Instance Sample.crc_laws.
#[local] Existing Instance Sample.xxh3.
#[local] Existing Instance Sample.rng.
#[local] Existing Instance Sample.rng_laws.

Definition lost_ops : list op :=
  [OpPut (lit "a") (lit "1"); OpFlush; OpDelete (lit "a"); OpScan full_range].


End PowerLoss.
