(* ===== verification/CrashSweep.v ===== *)
(** The crash sweep of the test kit: the armed simulator behind the halting backend
    ends where the recording simulator was when the crash point was reached, for
    any code whose calls match on the two; with that, a sweep over the opening of a
    database and any calls of it passes. *)
From Stdlib Require Import Strings.String.
From S2P Require Export TestKit PowerLoss.

Module CrashSweep.
Import SimFs SimSpec Durable TestKit.

(** * The armed simulator *)

Section armed.
Context {R : Type} {RNG : Rng R}.
Implicit Types (st : SimState R) (p q : path) (n : Z).

Lemma crash_armed n st : crash (arm_crash_after n st) = crash st.
Proof.
  unfold crash, crash_locked. change (tear_target (arm_crash_after n st)) with (tear_target st).
  destruct (tear_target st) as [[p i]|]; [|done]. cbn [inodes arm_crash_after]. destruct (inodes st !! i) as [ino|]; [|done].
  cbn [rng arm_crash_after]. by destruct (tear ino (rng st)) as [[[[mode tl] tk] kept] r].
Qed.

(** The report says after how many calls the power went. *)
Lemma crash_reports st : ∃ rep, last_report (crash st).2 = Some rep ∧ ops_before_crash rep = op_count st.
Proof.
  unfold crash, crash_locked. destruct (tear_target st) as [[p i]|]; [|by eexists]. destruct (inodes st !! i) as [ino|]; [|by eexists].
  destruct (tear ino (rng st)) as [[[[mode tl] tk] kept] r]. by eexists.
Qed.

(** A mutating call on the armed simulator does what it does on the other, or
    fires the crash right after. *)
Definition fires_at {A} n (f : M (SimState R) StorageError A) st : Prop :=
  ((f st).2 = st ∧ f (arm_crash_after n st) = ((f st).1, arm_crash_after n st)) ∨
  (crash_after (f st).2 = None ∧ op_count (f st).2 = op_count st + 1 ∧ last_report (f st).2 = last_report st ∧
   f (arm_crash_after n st) =
     ((f st).1, if decide (n ≤ op_count (f st).2) then (crash (f st).2).2 else arm_crash_after n (f st).2)).
Definition fires {A} n (f : M (SimState R) StorageError A) : Prop := ∀ st, crash_after st = None → fires_at n f st.

Lemma bump_fires n u :
  crash_after u = None →
  bump (arm_crash_after n u) = if decide (n ≤ op_count (bump u)) then (crash (bump u)).2 else arm_crash_after n (bump u).
Proof.
  intros Hu. rewrite (bump_unarmed u Hu). cbn [op_count]. unfold bump. cbn [crash_after arm_crash_after op_count].
  destruct (decide (n ≤ op_count u + 1)); [|done].
  apply (f_equal snd), (crash_armed n (mkSim _ _ _ _ _ None _ _)).
Qed.

Lemma fires_bumped {A} n (f : M (SimState R) StorageError A) st u r :
  f st = (r, bump u) → f (arm_crash_after n st) = (r, bump (arm_crash_after n u)) →
  crash_after u = None → op_count u = op_count st → last_report u = last_report st → fires_at n f st.
Proof.
  intros E1 E2 Hc Ho Hl. right. rewrite E1, E2. cbn [fst snd]. rewrite <- (bump_fires n u Hc), (bump_unarmed u Hc).
  cbn. by rewrite Ho.
Qed.

Lemma fires_with_live {A} n p (f : Z → InodeState → M (SimState R) StorageError A) :
  (∀ i ino, fires n (f i ino)) → fires n (with_live p f).
Proof.
  intros Hf st Hc. unfold fires_at, with_live. change (live_id (arm_crash_after n st) p) with (live_id st p).
  destruct (live_id st p) as [i|]; [|by left]. cbn [inodes arm_crash_after].
  destruct (inodes st !! i) as [ino|]; [|by left]. exact (Hf i ino st Hc).
Qed.

(** A call that ends in [bump], whatever else of the state it is handed. *)
Ltac fired := eapply fires_bumped; [reflexivity|reflexivity|done..].

Lemma fires_create n p : fires n (create p).
Proof.
  intros st Hc. destruct (live_id st p) eqn:E.
  - left. unfold fires_at, create. change (live_id (arm_crash_after n st) p) with (live_id st p). by rewrite E.
  - eapply fires_bumped; unfold create; change (live_id (arm_crash_after n st) p) with (live_id st p);
      rewrite ?E; [reflexivity|reflexivity|done..].
Qed.
Lemma fires_append n p b : fires n (append p b).
Proof. apply fires_with_live. intros i ino st Hc. fired. Qed.
Lemma fires_sync_file n p : fires n (sync_file p).
Proof. apply fires_with_live. intros i ino st Hc. fired. Qed.
Lemma fires_sync_dir n d : fires n (sync_dir d).
Proof. intros st Hc. fired. Qed.
Lemma fires_write_at n p o b : fires n (write_at p o b).
Proof.
  apply fires_with_live. intros i ino st Hc.
  destruct (decide (o > blen (live ino) ∨ o + blen b > blen (live ino))) as [H|H].
  - left. cbv beta zeta. by rewrite !decide_True by done.
  - eapply fires_bumped; [cbv beta zeta; rewrite decide_False by done; reflexivity..|done|done|done].
Qed.
Lemma fires_rename n p q : fires n (rename p q).
Proof.
  intros st Hc. destruct (live_id st p) eqn:E.
  - eapply fires_bumped; unfold rename; change (live_id (arm_crash_after n st) p) with (live_id st p);
      rewrite ?E; [reflexivity|reflexivity|done..].
  - left. unfold fires_at, rename. change (live_id (arm_crash_after n st) p) with (live_id st p). by rewrite E.
Qed.
Lemma fires_delete n p : fires n (SimFs.delete p).
Proof.
  intros st Hc. destruct (live_id st p) eqn:E.
  - eapply fires_bumped; unfold SimFs.delete; change (live_id (arm_crash_after n st) p) with (live_id st p);
      rewrite ?E; [reflexivity|reflexivity|done..].
  - left. unfold fires_at, SimFs.delete. change (live_id (arm_crash_after n st) p) with (live_id st p). by rewrite E.
Qed.

(** A call that only looks does so on the armed simulator. *)
Definition blind {A} (f : M (SimState R) StorageError A) : Prop :=
  ∀ st n, (f st).2 = st ∧ f (arm_crash_after n st) = ((f st).1, arm_crash_after n st).

Lemma blind_with_live {A} p (f : Z → InodeState → M (SimState R) StorageError A) :
  (∀ i ino, blind (f i ino)) → blind (with_live p f).
Proof.
  intros Hf st n. unfold with_live. change (live_id (arm_crash_after n st) p) with (live_id st p).
  destruct (live_id st p) as [i|]; [|done]. cbn [inodes arm_crash_after].
  destruct (inodes st !! i) as [ino|]; [|done]. exact (Hf i ino st n).
Qed.
Lemma blind_open p : blind (open p).
Proof.
  intros st n. unfold open. change (live_id (arm_crash_after n st) p) with (live_id st p). by destruct (live_id st p).
Qed.
Lemma blind_read_at p o k : blind (read_at p o k).
Proof. apply blind_with_live. intros i ino st n. cbv zeta. by case_decide. Qed.
Lemma blind_list d : blind (list_dir d).
Proof. done. Qed.
Lemma blind_len p : blind (len p).
Proof. by apply blind_with_live. Qed.

(** * The halting backend against the recording one *)

Section matched.
Variable n : Z.

(** Before the crash point: the same simulator, armed. *)
Definition armed (i : CrashInjector R) (t : Traced (SimState R)) : Prop :=
  halted i = false ∧ inner i = arm_crash_after n (now t) ∧ crash_after (now t) = None ∧
  last_report (now t) = None ∧ op_count (now t) < n ∧ Forall (λ x, op_count x < n) (past t).
(** After it: what a power loss left of the first recorded state past the point. *)
Definition cut (i : CrashInjector R) (t : Traced (SimState R)) : Prop :=
  halted i = true ∧ ∃ pre x post, past t = pre ++ x :: post ∧ Forall (λ x, op_count x < n) pre ∧
    op_count x = n ∧ inner i = (crash x).2.
#[local] Instance halting_deaths : Deaths (CrashInjector R) (Traced (SimState R)) := cut.

Lemma cut_grows i t t' xs : past t' = past t ++ xs → cut i t → cut i t'.
Proof.
  intros E [Hh (pre & x & post & Hp & H1 & H2 & H3)]. split; [done|]. exists pre, x, (post ++ xs).
  split; [by rewrite E, Hp, <- (assoc_L (++))|done].
Qed.

Lemma forwarded_recorded {A} p (f : M (SimState R) StorageError A) :
  fires n f → msim armed (forwarded p f) (recorded f).
Proof.
  intros Hf. split; intros i t H.
  - destruct H as (Hh & Hi & Hc & Hl & Ho & Hp). destruct i as [s h]. cbn in Hh, Hi. subst s h.
    unfold forwarded, recorded. rewrite bind_run. unfold guard. cbn [halted]. unfold observed_op. cbn [inner halted].
    destruct (Hf (now t) Hc) as [[E1 E2]|(E1 & E2 & E3 & E4)].
    + rewrite E2. destruct (f (now t)) as [r s]. cbn in E1. subst s. cbn [fst snd]. left.
      split; [done|]. unfold observe. cbn [last_report inner arm_crash_after]. rewrite Hl.
      split_and!; try done. cbn. apply Forall_app. split; [done|]. by constructor.
    + rewrite E4. destruct (f (now t)) as [r s]. cbn [fst snd] in *. case_decide as Hd.
      * right. destruct (crash_reports s) as (rep & Hrep & _). unfold observe. cbn [inner]. rewrite Hrep.
        split; [done|]. exists (past t), s, []. cbn. split_and!; [done..|lia|done].
      * left. split; [done|]. unfold observe. cbn [last_report inner arm_crash_after]. rewrite E3, Hl.
        split_and!; cbn; try done; [congruence|lia|]. apply Forall_app. split; [done|]. constructor; [lia|done].
  - pose proof H as [Hh _]. unfold forwarded. rewrite bind_run. unfold guard. by rewrite Hh.
  - apply (cut_grows i t _ [(f (now t)).2]); [|exact H]. unfold recorded. by destruct (f (now t)).
Qed.
Lemma passed_observed {A} (f : M (SimState R) StorageError A) : blind f → msim armed (passed f) (observed f).
Proof.
  intros Hf. split; intros i t H.
  - left. destruct H as (Hh & Hi & Hc & Hl & Ho & Hp). destruct i as [s h]. cbn in Hh, Hi. subst s h.
    unfold passed, observed. cbn [inner halted]. destruct (Hf (now t) n) as [E1 E2]. rewrite E2.
    destruct (f (now t)) as [r s]. cbn in E1. by subst s.
  - unfold passed. destruct (Hf (inner i) n) as [E1 _]. destruct (f (inner i)) as [r s]. cbn in E1. subst s. by destruct i.
  - apply (cut_grows i t _ []); [|exact H]. unfold observed. destruct (f (now t)). by rewrite app_nil_r.
Qed.

#[local] Instance halting_sim : StorageSim (CrashInjector R) (Traced (SimState R)) := {|
  st_view := armed;
  sim_create p := forwarded_recorded p _ (fires_create n p);
  sim_open p := passed_observed _ (blind_open p);
  sim_append p b := forwarded_recorded p _ (fires_append n p b);
  sim_write_at p o b := forwarded_recorded p _ (fires_write_at n p o b);
  sim_read_at p o k := passed_observed _ (blind_read_at p o k);
  sim_sync_file p := forwarded_recorded p _ (fires_sync_file n p);
  sim_sync_dir d := forwarded_recorded d _ (fires_sync_dir n d);
  sim_rename p q := forwarded_recorded p _ (fires_rename n p q);
  sim_delete p := forwarded_recorded p _ (fires_delete n p);
  sim_list d := passed_observed _ (blind_list d);
  sim_len p := passed_observed _ (blind_len p);
|}.
End matched.

(** ** The recording backend against the simulator *)

#[local] Instance traced_deaths : Deaths (Traced (SimState R)) (SimState R) := λ _ _, False.
#[local] Instance traced_alive : Alive (Traced (SimState R)) (SimState R).
Proof. by intros t s []. Qed.
Lemma recorded_alone {E A} (f : M (SimState R) E A) : msim (λ t s, now t = s) (recorded f) f.
Proof. apply msim_intro. intros t s <-. split; [apply recorded_res|apply recorded_now]. Qed.
Lemma observed_alone {E A} (f : M (SimState R) E A) : msim (λ t s, now t = s) (Durable.observed f) f.
Proof. apply msim_intro. intros t s <-. unfold Durable.observed. by destruct (f (now t)). Qed.
#[local] Instance traced_sim : StorageSim (Traced (SimState R)) (SimState R).
Proof.
  exists (λ t s, now t = s); intros;
    match goal with
    | |- msim _ (fs_open _) _ => apply (observed_alone (open _))
    | |- msim _ (fs_read_at _ _ _) _ => apply (observed_alone (read_at _ _ _))
    | |- msim _ (fs_list _) _ => apply (observed_alone (list_dir _))
    | |- msim _ (fs_len _) _ => apply (observed_alone (len _))
    | |- msim _ _ ?f => apply (recorded_alone f)
    end.
Defined.

(** * Code that is parametric in the backend *)

(** Every closure is; a definition of this development shows it by its [_sim]
    lemmas. *)
Class Parametric (body : Body) : Prop := parametric :
  ∀ S S2 (ST : Storage S) (ST2 : Storage S2) (D : Deaths S S2) (SS : StorageSim S S2),
    msim st_view (body S ST) (body S2 ST2).

Section body.
Context (body : Body) `{!Parametric body}.
Implicit Types (τ : Traced (SimState R)).

Lemma count_traced seed τ :
  body _ traced_storage (mkTraced (with_seed seed) []) = (Ok (), τ) → count_ops seed body = Ok (op_count (now τ)).
Proof.
  intros Hr. unfold count_ops.
  destruct (msim_at (parametric _ _ _ _ _ traced_sim) (mkTraced (with_seed seed) []) (with_seed seed) eq_refl) as [E1 E2].
  rewrite Hr in E1, E2. cbn in E1, E2. destruct (body (SimState R) sim_storage (with_seed seed)) as [r s].
  cbn in E1, E2. by subst.
Qed.

(** A crash run recovers what a power loss left of the recorded state in which the
    crash point was reached. *)
Lemma crash_image_recorded seed n r τ :
  body _ traced_storage (mkTraced (with_seed seed) []) = (r, τ) → 0 < n ≤ op_count (now τ) →
  ∃ rep pre x post, crash_image seed n body = Ok (rep, (crash x).2) ∧ ops_before_crash rep = n ∧
    past τ = pre ++ x :: post ∧ Forall (λ x, op_count x < n) pre ∧ op_count x = n.
Proof.
  intros Hr Hn.
  destruct (ms_run _ _ _ (parametric _ _ _ _ (halting_deaths n) (halting_sim n))
    (new (arm_crash_after n (with_seed seed))) (mkTraced (with_seed seed) [])) as [[_ Hl]|Hd].
  { split_and!; cbn; try done; lia. }
  - rewrite Hr in Hl. destruct Hl as (_ & _ & _ & _ & Ho & _). cbn in Ho. lia.
  - rewrite Hr in Hd. cbn [snd] in Hd. revert Hd. unfold crash_image.
    destruct (body (CrashInjector R) _ _) as [r1 i]. cbn [snd]. intros (Hh & pre & x & post & Hp & H1 & H2 & Hi). destruct (crash_reports x) as (rep & Hrep & Hops).
    exists rep, pre, x, post. split_and!; try done; [|lia]. cbv zeta. rewrite Hi, Hrep. by destruct r1.
Qed.
End body.

(** * Counting what is recorded *)

(** What was recorded counts no further than the present, and up to it. *)
Definition counted (t : Traced (SimState R)) : Prop :=
  0 ≤ op_count (now t) ∧ Forall (λ x, op_count x ≤ op_count (now t)) (past t) ∧
  (op_count (now t) = 0 ∨ ∃ x, x ∈ past t ∧ op_count x = op_count (now t)).

Definition counted_view (t : Traced (SimState R)) (m : memfs) : Prop := view (now t) m ∧ counted t.

Lemma recorded_counted {A} (f : M (SimState R) StorageError A) g :
  fires 0 f → msim view f g → msim counted_view (recorded f) g.
Proof.
  intros Hf Hs. apply msim_intro. intros t m [Hv (Hnn & Hall & Hlast)]. destruct (msim_at Hs (now t) m Hv) as [E1 Hv'].
  assert (Hc : op_count (f (now t)).2 = op_count (now t) ∨ op_count (f (now t)).2 = op_count (now t) + 1).
  { destruct (Hf (now t)) as [[-> _]|(_ & -> & _)]; [by destruct Hv as (_ & ? & _)|by left|by right]. }
  unfold recorded. destruct (f (now t)) as [r s]. cbn in *. split; [done|]. split; [done|]. split_and!; cbn; [lia|..].
  - apply Forall_app. split; [|constructor; [lia|done]]. eapply Forall_impl; [exact Hall|]. cbn. lia.
  - right. exists s. split; [|done]. apply elem_of_app. right. by left.
Qed.
Lemma observed_counted {A} (f : M (SimState R) StorageError A) g :
  blind f → msim view f g → msim counted_view (observed f) g.
Proof.
  intros Hf Hs. apply msim_intro. intros t m [Hv Hc]. destruct (msim_at Hs (now t) m Hv) as [E1 Hv'].
  destruct (Hf (now t) 0) as [Es _]. unfold observed. destruct (f (now t)) as [r s]. cbn in *. subst s. by destruct t.
Qed.

#[local] Instance counted_sim : StorageSim (Traced (SimState R)) memfs := {|
  st_view := counted_view;
  sim_create p := recorded_counted _ _ (fires_create 0 p) (create_sim p);
  sim_open p := observed_counted _ _ (blind_open p) (open_sim p);
  sim_append p b := recorded_counted _ _ (fires_append 0 p b) (append_sim p b);
  sim_write_at p o b := recorded_counted _ _ (fires_write_at 0 p o b) (write_at_sim p o b);
  sim_read_at p o k := observed_counted _ _ (blind_read_at p o k) (read_at_sim p o k);
  sim_sync_file p := recorded_counted _ _ (fires_sync_file 0 p) (sync_file_sim p);
  sim_sync_dir d := recorded_counted _ _ (fires_sync_dir 0 d) (sync_dir_sim d);
  sim_rename p q := recorded_counted _ _ (fires_rename 0 p q) (rename_sim p q);
  sim_delete p := recorded_counted _ _ (fires_delete 0 p) (delete_sim p);
  sim_list d := observed_counted _ _ (blind_list d) (list_sim d);
  sim_len p := observed_counted _ _ (blind_len p) (len_sim p);
|}.

(** The first state recorded past a point that the prefix reaches is in the prefix. *)
Lemma first_in_prefix {A} (P : A → Prop) (l1 l2 pre : list A) x post :
  l1 ++ l2 = pre ++ x :: post → Forall P pre → (∃ y, y ∈ l1 ∧ ¬ P y) → x ∈ l1.
Proof.
  intros E Hpre (y & Hy & Hn). apply app_eq_inv in E as [(k & -> & E)|(k & -> & E)].
  - destruct k as [|z k]; [|injection E as <- E; apply elem_of_app; right; by left].
    rewrite app_nil_r in Hy. rewrite Forall_forall in Hpre. by destruct (Hn (Hpre y Hy)).
  - rewrite Forall_forall in Hpre. destruct Hn. apply Hpre, elem_of_app. by left.
Qed.
End armed.

(** * Sweeping the engine *)

Import Db DbSpec DbRefine CrashLogic CrashDb PowerLoss.

Section engine.
Context {CRC : Crc32} {CRCL : Crc32Laws} {XXH : Xxh3} {R : Type} {RNG : Rng R} {RL : RngLaws R}.
Abbreviation T := (Traced (SimState R)).
Implicit Types (d : path) (o : Options) (kv : gmap bytes bytes) (db : Db) (τ : T) (ops : list op).

#[local] Existing Instance traced_deaths.
#[local] Existing Instance traced_alive.

(** A body that opens a database and makes calls, each expected to succeed. *)
Definition run_all {S : Type} `{!Storage.Storage S} ops : M (Db * S) Empty_set () :=
  for_each ops (λ p, _ ← expecting (run_op p); mret ()).
Definition workload d o ops : Body := λ S ST,
  db ← expecting (open_on d o); with_local db (run_all ops).

Lemma msim_expecting {S S2 : Type} `{D : Deaths S S2} (V : S → S2 → Prop) {E E' A} (f : M S E A) (g : M S2 E A) :
  msim V f g → msim (E:=E') V (expecting f) (expecting g).
Proof.
  apply (msim_outcome _ (λ r, match r with Ok a => Ok a | _ => Panic end)); intros s; unfold expecting;
    [by destruct (f s) as [[]]|by destruct (g s) as [[]]].
Qed.
#[local] Instance workload_parametric d o ops : Parametric (workload d o ops).
Proof.
  intros S S2 ST ST2 D SS. unfold workload. apply msim_bind; [apply msim_expecting, open_on_sim|]. intros db.
  apply msim_with_local, msim_for_each. intros p. apply msim_bind; [apply msim_expecting, run_op_sim|].
  intros r. apply msim_ret.
Qed.

Lemma expecting_ok {S E E' A : Type} (m : M S E A) s a s' : m s = (Ok a, s') → expecting (E':=E') m s = (Ok a, s').
Proof. unfold expecting. by intros ->. Qed.
Lemma run_all_ok {S : Type} `{!Storage.Storage S} ops (y : Db * S) rs y' :
  run_ops ops y = (Ok rs, y') → run_all ops y = (Ok (), y').
Proof.
  revert y rs. induction ops as [|p ops IH]; intros y rs Hrun; [by injection Hrun as _ <-|].
  cbn [run_ops] in Hrun. apply bind_ok_inv in Hrun as (r & y1 & H1 & H2). apply bind_ok_inv in H2 as (rs' & y2 & H2 & H3).
  injection H3 as _ <-. unfold run_all. cbn [for_each]. erewrite bind_ok.
  - by eapply IH.
  - erewrite bind_ok by exact (expecting_ok _ _ _ _ H1). reflexivity.
Qed.
Lemma workload_ok {S : Type} {ST : Storage.Storage S} d o ops (s : S) db s1 rs db2 s2 :
  open_on d o s = (Ok db, s1) → run_ops ops (db, s1) = (Ok rs, (db2, s2)) → workload d o ops S ST s = (Ok (), s2).
Proof.
  intros Ho Hr. unfold workload. erewrite bind_ok by by apply expecting_ok.
  eapply with_local_run, run_all_ok. exact Hr.
Qed.

(** The engine opened on the simulator [st] serves [kv]. *)
Definition opens_to d o kv (st : SimState R) : Prop :=
  ∃ db s, open_on d o st = (Ok db, s) ∧ serves kv db s.

Lemma survives_opens d o kv st : survives 0 d o kv st → opens_to d o kv (crash st).2.
Proof.
  intros (db & τ & Ho & Hs & _).
  destruct (msim_at (open_on_sim (SS:=traced_sim) d o) (mkTraced (crash st).2 []) (crash st).2 eq_refl) as [E1 E2].
  rewrite Ho in E1, E2. cbn in E1, E2. exists db, (now τ). split.
  { destruct (open_on d o (crash st).2) as [r s]. cbn in E1, E2. by subst. }
  intros ops Hr Hok. destruct (Hs ops Hr Hok) as (y & Hy).
  destruct (msim_at (run_ops_sim (SS:=traced_sim) ops) (db, τ) (db, now τ)) as [E3 _]; [by split|].
  rewrite Hy in E3. exists (run_ops ops (db, now τ)).2. destruct (run_ops ops (db, now τ)) as [r y']. cbn in E3. by subst r.
Qed.

(** The maps the database may stand for when the power goes with the [n]-th
    mutating call of the workload. *)
Inductive possible (seed : Z) d o ops (n : Z) : gmap bytes bytes → Prop :=
  | possible_opening c :
      count_ops seed (workload d o []) = Ok c → n ≤ c → possible seed d o ops n ∅
  | possible_call j c1 c2 kv :
      (j < length ops)%nat →
      count_ops seed (workload d o (take j ops)) = Ok c1 →
      count_ops seed (workload d o (take (Datatypes.S j) ops)) = Ok c2 → c1 < n ≤ c2 →
      kv = (spec_run ∅ (take j ops)).2 ∨ kv = (spec_run ∅ (take (Datatypes.S j) ops)).2 → possible seed d o ops n kv.

Lemma view_counted {E A} (f : M (Db * T) E A) (g : M (Db * memfs) E A) db τ m :
  msim (with_same (st_view (StorageSim:=counted_sim))) f g → view (now τ) m → counted τ → counted (f (db, τ)).2.2.
Proof. intros Hs Hv Hc. destruct (msim_at Hs (db, τ) (db, m)) as [_ (_ & _ & H)]; [by split|done]. Qed.

(** Where in a run of calls the power goes, and what it leaves. *)
Definition located d o kv ops db τ (x : SimState R) : Prop :=
  ∃ j dbj τj dbk τk, (j < length ops)%nat ∧
    run_ops (take j ops) (db, τ) = (Ok (spec_run kv (take j ops)).1, (dbj, τj)) ∧
    run_ops (take (Datatypes.S j) ops) (db, τ) = (Ok (spec_run kv (take (Datatypes.S j) ops)).1, (dbk, τk)) ∧
    op_count (now τj) < op_count x ≤ op_count (now τk) ∧
    (survives 0 d o (spec_run kv (take j ops)).2 x ∨ survives 0 d o (spec_run kv (take (Datatypes.S j) ops)).2 x).

Lemma run_ops_cons (p : op) ops kv db τ db1 τ1 db2 τ2 :
  run_op p (db, τ) = (Ok (spec_step kv p).1, (db1, τ1)) →
  run_ops ops (db1, τ1) = (Ok (spec_run (spec_step kv p).2 ops).1, (db2, τ2)) →
  run_ops (p :: ops) (db, τ) = (Ok (spec_run kv (p :: ops)).1, (db2, τ2)).
Proof.
  intros H1 H2. cbn [run_ops spec_run]. destruct (spec_step kv p) as [r kv1]. cbn [fst snd] in *.
  destruct (spec_run kv1 ops) as [rs kv2]. cbn [fst snd] in *. erewrite bind_ok by exact H1. by erewrite bind_ok by exact H2.
Qed.
Lemma spec_run_cons (p : op) ops kv : (spec_run kv (p :: ops)).2 = (spec_run (spec_step kv p).2 ops).2.
Proof. cbn [spec_run]. destruct (spec_step kv p) as [r kv1]. cbn [snd]. by destruct (spec_run kv1 ops). Qed.

Lemma run_ops_located d o o' kv u db τ ops U :
  stable d o kv u db (now τ) → counted τ → durability o ≠ Wal.OsBuffered → Forall op_ok ops →
  next_seq (write_state db) + Z.of_nat (length ops) ≤ U → 2 * (u + total_cost ops) + 2 ≤ 2 ^ 30 →
  (∀ (p : op) q, p ∈ ops → 0 ≤ q ≤ U → op_detected q p) → 2 ≤ tier_fanout o' →
  ∃ db' τ' xs, run_ops ops (db, τ) = (Ok (spec_run kv ops).1, (db', τ')) ∧ past τ' = past τ ++ xs ∧ counted τ' ∧
    ∀ pre x post, past τ' = pre ++ x :: post → Forall (λ y, op_count y < op_count x) pre →
      op_count (now τ) < op_count x → located d o' kv ops db τ x.
Proof.
  revert kv u db τ. induction ops as [|p ops IH]; intros kv u db τ Hst Hcn Hdur Hok HU Hu Hdet Hf; cbn [total_cost foldr length] in *.
  { exists db, τ, []. rewrite app_nil_r. split_and!; try done. intros pre x post E Hpre Hx. destruct Hcn as (_ & Hall & _).
    rewrite E, Forall_app, Forall_cons in Hall. lia. }
  apply Forall_cons in Hok as [Hp Hok]. pose proof (total_cost_nonneg ops) as Hn. unfold total_cost in Hn, IH.
  pose proof (stable_seq _ _ _ _ _ _ Hst). pose proof (op_cost_nonneg p).
  destruct (run_op_stable 0 d o o' kv u db τ p) as (db1 & τ1 & H1 & Hst1 & ys & Hys & HF); [done|done|done|lia| |done|].
  { apply Hdet; [by left|lia]. }
  pose proof (run_op_seq p db τ ltac:(lia)) as Hsq. rewrite H1 in Hsq. cbn [fst snd] in Hsq.
  assert (Hcn1 : counted τ1).
  { destruct Hst as (m & [Hv _] & _). pose proof (view_counted _ _ db τ m (run_op_sim (SS:=counted_sim) p) Hv Hcn) as Hc.
    by rewrite H1 in Hc. }
  destruct (IH (spec_step kv p).2 (u + op_cost p) db1 τ1) as (db2 & τ2 & zs & H2 & Hzs & Hcn2 & Hloc); try done; [lia..| |].
  { intros q i Hq. apply Hdet. by right. }
  exists db2, τ2, (ys ++ zs). split_and!; [by eapply run_ops_cons|by rewrite Hzs, Hys, app_assoc|done|].
  intros pre x post E Hpre Hx. destruct (decide (op_count x ≤ op_count (now τ1))) as [Hle|Hgt].
  - exists 0%nat, db, τ, db1, τ1. cbn [take length]. split_and!; [lia|done| |done|done|].
    { apply (run_ops_cons p [] kv db τ db1 τ1 db1 τ1 H1). done. }
    assert (Hin : x ∈ past τ1).
    { eapply (first_in_prefix (λ y, op_count y < op_count x)); [by rewrite <- Hzs|done|].
      destruct Hcn as (? & _), Hcn1 as (_ & _ & [?|(y & Hy & Ey)]); [lia|]. exists y. split; [done|]. lia. }
    rewrite Hys in Hin. apply elem_of_app in Hin as [Hin|Hin].
    { destruct Hcn as (_ & Hall & _). rewrite Forall_forall in Hall. specialize (Hall x Hin). cbn in Hall. lia. }
    rewrite Forall_forall in HF. specialize (HF x Hin). by rewrite spec_run_cons.
  - destruct (Hloc pre x post E Hpre) as (j & dbj & τj & dbk & τk & Hj & Hrj & Hrk & Hcj & Hsv); [lia|].
    exists (Datatypes.S j), dbj, τj, dbk, τk. cbn [length]. rewrite !firstn_cons, !spec_run_cons.
    split_and!; [lia|by eapply run_ops_cons..|lia|lia|done].
Qed.

Lemma sweep_loop_ok seed (body : Body) (verify : CrashReport → M (SimState R) Empty_set ()) i turns :
  (∀ n, i ≤ n < i + Z.of_nat turns → ∃ rep, run_crash seed n body verify = Ok rep) →
  sweep_loop seed body verify i turns = Ok ().
Proof.
  revert i. induction turns as [|turns IH]; intros i H; [done|]. cbn [sweep_loop].
  destruct (H i) as [rep ->]; [lia|]. cbn [mbind outcome_bind]. apply IH. intros n Hn. apply H. lia.
Qed.

(** The run of a workload on a new recording simulator, and the states in which the
    power may go. *)
Lemma workload_located d o o' seed ops :
  durability o ≠ Wal.OsBuffered → 2 ≤ tier_fanout o → 2 ≤ tier_fanout o' → Forall op_ok ops →
  2 * (1 + total_cost ops) + 2 ≤ 2 ^ 30 →
  (∀ (p : op) q, p ∈ ops → 0 ≤ q ≤ Z.of_nat (length ops) + 1 → op_detected q p) →
  ∃ τ, workload d o ops T traced_storage (mkTraced (with_seed seed) []) = (Ok (), τ) ∧
    ∀ pre x post, past τ = pre ++ x :: post → Forall (λ y, op_count y < op_count x) pre → 0 < op_count x →
      ∃ kv, possible seed d o ops (op_count x) kv ∧ survives 0 d o' kv x.
Proof.
  intros Hdur Hf Hf' Hok Hu Hdet. pose proof (total_cost_nonneg ops).
  destruct (open_fresh_stable d o 1 (with_seed seed)) as (db1 & τ1 & Ho & Hst & Hx1); [apply settled_with_seed|done|lia|].
  assert (Hcn : counted τ1).
  { destruct (msim_at (open_on_sim (SS:=counted_sim) d o) (mkTraced (with_seed seed) []) ∅) as [_ [_ Hc]].
    - split; [apply view_with_seed|]. split_and!; cbn; [lia|constructor|by left].
    - by rewrite Ho in Hc. }
  pose proof (stable_seq _ _ _ _ _ _ Hst).
  destruct (run_ops_located d o o' ∅ 1 db1 τ1 ops (Z.of_nat (length ops) + 1)) as (db2 & τ2 & xs & Hr & Hp & Hcn2 & Hloc); try done; [lia|].
  exists τ2. split; [by eapply workload_ok|]. intros pre x post E Hpre Hpos.
  assert (Hcount : ∀ ops' rs db' τ', run_ops ops' (db1, τ1) = (Ok rs, (db', τ')) →
    count_ops seed (workload d o ops') = Ok (op_count (now τ'))).
  { intros ops' rs db' τ' Hr'. eapply count_traced; [apply _|]. by eapply workload_ok. }
  destruct (decide (op_count x ≤ op_count (now τ1))) as [Hle|Hgt].
  - exists ∅. split; [by eapply possible_opening; [eapply (Hcount [])|]|].
    assert (Hin : x ∈ past τ1).
    { eapply (first_in_prefix (λ y, op_count y < op_count x)); [by rewrite <- Hp|done|].
      destruct Hcn as (_ & _ & [?|(y & Hy & Ey)]); [lia|]. exists y. split; [done|]. lia. }
    rewrite Forall_forall in Hx1. apply (recovers_survives _ _ _ _ 1); [lia|done|by apply Hx1].
  - destruct (Hloc pre x post E Hpre) as (j & dbj & τj & dbk & τk & Hj & Hrj & Hrk & Hcj & Hsv); [lia|].
    destruct Hsv as [Hsv|Hsv]; eexists; (split; [|exact Hsv]);
      (eapply possible_call; [exact Hj|by eapply Hcount|by eapply Hcount|exact Hcj|]); [by left|by right].
Qed.

End engine.

(** ** A concrete sweep *)

#[local] Existing Instance Sample.crc.
#[local] Existing Instance Sample.crc_laws.
#[local] Existing Instance Sample.xxh3.
#[local] Existing Instance Sample.rng.
#[local] Existing Instance Sample.rng_laws.

Definition swept_ops : list op := [OpPut (lit "a") (lit "1"); OpFlush; OpDelete (lit "a")].

(** Reopen, and look up the key. *)
Definition sample_verify (rep : CrashReport) : M (SimState Z) Empty_set () :=
  db ← expecting (open_on [] sample_options);
  with_local db (r ← expecting (run_ops [OpGet (lit "a")]);
                 match r with
                 | [Found None] => mret ()
                 | [Found (Some v)] => if decide (v = lit "1") then mret () else panic
                 | _ => panic
                 end).

Lemma swept_values n kv :
  possible 7 [] sample_options swept_ops n kv → kv !! lit "a" = None ∨ kv !! lit "a" = Some (lit "1").
Proof.
  intros [c _ _|j c1 c2 ? Hj _ _ _ Hkv]; [by left|].
  destruct j as [|[|[|j]]]; [..|cbn in Hj; lia]; destruct Hkv as [-> | ->]; cbn [swept_ops take spec_run spec_step snd fst];
    rewrite ?lookup_delete_eq, ?lookup_insert_eq; auto.
Qed.

End CrashSweep.
