(* ===== verification/WritePath.v ===== *)
(** Concurrent writers and flushers ([Db::write], [Db::flush_locked] of
    [src/db.rs]): every call is a thread whose steps are the critical sections of
    the write mutex and, between them, the log append and the memtable insert it
    performs with the mutex released.  Threads interleave in any order and wake
    from the condition variable at will. *)
From Stdlib Require Import Strings.String.
From S2P Require Export DbRefine.

Module WritePath.
Import Memtable WalSpec RecordSpec Tables CompactionSpec Db DbSpec DbRefine.

(** * The threads *)

(** Where a call of [write(key, kind)] or [flush()] is. *)
Inductive Pc : Type :=
  | Enter (key : bytes) (kd : ValueKind)
  | WaitFlush (key : bytes) (kd : ValueKind)
  | Logging (q : Z) (key : bytes) (kd : ValueKind)
  | Applying (q : Z) (key : bytes) (kd : ValueKind)
  | Settling
  | Failing (e : DbError)
  | FlushEnter
  | FlushParked
  | FlushWoken
  | Done (res : () + DbError).

Section system.
Context {CRC : Crc32} {XXH : Xxh3} {S : Type} {ST : Storage.Storage S}.

(** The engine, the backend, the threads; [claims] records the writes in the
    order their sequence numbers were claimed, [overlap] how many calls were
    between [claim] and [settle] at each run of [flush_quiesced]. *)
Record Sys : Type := mkSys {
  db : Db;
  store : S;
  threads : list Pc;
  claims : list Entry;
  overlap : list nat;
}.

Definition set_thread (t : nat) (p : Pc) (s : Sys) : Sys :=
  mkSys (db s) (store s) (<[t := p]> (threads s)) (claims s) (overlap s).
Definition set_db (d : Db) (s : Sys) : Sys := mkSys d (store s) (threads s) (claims s) (overlap s).

(** [quiesced.notify_all()]. *)
Definition wake (p : Pc) : Pc :=
  match p with WaitFlush k kd => Enter k kd | FlushParked => FlushWoken | _ => p end.
Definition notify_all (s : Sys) : Sys :=
  mkSys (db s) (store s) (wake <$> threads s) (claims s) (overlap s).

(** A call between [claim] and [settle]. *)
Definition flying (p : Pc) : nat :=
  match p with Logging _ _ _ | Applying _ _ _ | Settling | Failing _ => 1 | _ => 0 end%nat.

(** The end of [flush_locked]: [flush_quiesced] left [d] and [st]. *)
Definition after_flush (d : Db) (st : S) (s : Sys) : Sys :=
  mkSys (mod_write (set_flush_pending false) d) st (threads s) (claims s)
    (overlap s ++ [sum_list_with flying (threads s)]).

(** The wait loop of [flush_locked] and what follows it, with the mutex held. *)
Definition flush_wait (t : nat) (s : Sys) : option Sys :=
  if decide (in_flight (write_state (db s)) > 0) then Some (set_thread t FlushParked s)
  else match flush_quiesced (db s, store s) with
       | (Panic, _) => None
       | (Ok _, (d, st)) =>
           Some (set_thread t (Done (inl ())) (notify_all
                   (after_flush d st s)))
       | (Err e, (d, st)) =>
           Some (set_thread t (Done (inr e)) (notify_all
                   (after_flush d st s)))
       end.
Definition flush_begin (t : nat) (s : Sys) : option Sys :=
  flush_wait t (set_db (mod_write (set_flush_pending true) (db s)) s).

(** Thread [t] runs to its next release of the mutex, or through one of the two
    things it does without it. *)
Definition gstep (t : nat) (s : Sys) : option Sys :=
  match threads s !! t with
  | Some (Enter k kd) =>
      if flush_pending (write_state (db s)) then Some (set_thread t (WaitFlush k kd) s)
      else let q := next_seq (write_state (db s)) in
           Some (set_thread t (Logging q k kd)
                   (mkSys (mod_write claim (db s)) (store s) (threads s)
                      (claims s ++ [(k, mkValue q kd)]) (overlap s)))
  | Some (Logging q k kd) =>
      match zoom wal set_wal (map_err Storage (Wal.append (encode_record q k kd))) (db s, store s) with
      | (Ok _, (d, st)) => Some (set_thread t (Applying q k kd) (mkSys d st (threads s) (claims s) (overlap s)))
      | (Err e, (d, st)) => Some (set_thread t (Failing e) (mkSys d st (threads s) (claims s) (overlap s)))
      | (Panic, _) => None
      end
  | Some (Applying q k kd) =>
      Some (set_thread t Settling (set_db
        (set_memtables (set_insert_if_newer k (mkValue q kd) (memtables (db s))) (db s)) s))
  | Some Settling =>
      let s' := notify_all (set_db (mod_write settle (db s)) s) in
      if is_full (memtables (db s')) then flush_begin t (set_thread t FlushEnter s') else Some (set_thread t (Done (inl ())) s')
  | Some (Failing e) =>
      Some (set_thread t (Done (inr e)) (notify_all (set_db (mod_write settle (db s)) s)))
  | Some FlushEnter => flush_begin t s
  | Some FlushWoken => flush_wait t s
  | Some (WaitFlush _ _) | Some FlushParked | Some (Done _) | None => None
  end.

(** A step of the system: a thread's, or a spurious wake-up. *)
Inductive step : Sys → Sys → Prop :=
  | step_thread t s s' : gstep t s = Some s' → step s s'
  | step_wake t s p : threads s !! t = Some p → step s (set_thread t (wake p) s).

(** * What the mutex protects *)

Definition flushing (p : Pc) : bool :=
  match p with FlushParked | FlushWoken => true | _ => false end.

Record sinv (s : Sys) : Prop := {
  si_flight : in_flight (write_state (db s)) = Z.of_nat (sum_list_with flying (threads s));
  si_wait t k kd : threads s !! t = Some (WaitFlush k kd) → flush_pending (write_state (db s)) = true;
  si_pending : flush_pending (write_state (db s)) = true →
    ∃ t p, threads s !! t = Some p ∧ flushing p = true;
  si_overlap : Forall (λ n, n = 0%nat) (overlap s);
  si_parked t : threads s !! t = Some FlushParked → 0 < in_flight (write_state (db s));
}.

(** ** The flush leaves the write state alone *)

Lemma keeps_zoom_db {U E A} (I : Db * S → Prop) (get : Db → U) set (m : M (U * S) E A) :
  (∀ d s u s', I (d, s) → I (set u d, s')) → keeps I any (zoom get set m).
Proof. intros HI [d s] Hs. unfold zoom. destruct (m (get d, s)) as [r [u s']]. split; [by eapply HI|done]. Qed.

Lemma flush_quiesced_write d st r d' st' :
  flush_quiesced (d, st) = (r, (d', st')) → write_state d' = write_state d.
Proof.
  intros E. set (I := λ x : Db * S, write_state x.1 = write_state d).
  assert (Hv : ∀ A (f : Manifest.Version → M (Db * S) DbError A), (∀ v, keeps I any (f v)) → keeps I any (with_version f)).
  { intros A f Hf [d1 s1] Hd. unfold with_version. destruct (Hf (Manifest.version (Manifest.current (manifest d1)))
      (set_manifest (Manifest.pin (Manifest.arc_id (Manifest.current (manifest d1))) (manifest d1)) d1, s1) Hd) as [Hk _].
    destruct (f _ _) as [r1 [d2 s2]]. by split. }
  assert (Hf : ∀ q f, keeps I any (flush_frozen q f)).
  { intros q f. apply Hv. intros v. apply (keeps_bind _ any); [by eapply keeps_any, keeps_get_fst|]. intros d1 _.
    apply (keeps_bind _ any); [apply keeps_on_snd; intros t s1 Hs1; by split|]. intros o _.
    apply (keeps_bind _ any); [case_match; [by apply keeps_zoom_db|by apply keeps_ret]|]. intros _ _. by apply keeps_mod_fst. }
  assert (Hc : ∀ n fanout, keeps I any (compact_all n fanout)).
  { intros n fanout. induction n as [|n IH]; [apply keeps_panic|]. simpl.
    apply (keeps_bind _ any); [by apply keeps_zoom_db|]. intros b _. case_match; [done|by apply keeps_ret]. }
  assert (Hk : keeps I any flush_quiesced); [|destruct (Hk (d, st)) as [Hd _]; [done|by rewrite E in Hd]].
  unfold flush_quiesced. apply (keeps_bind _ any); [apply keeps_mod_fst; intros; unfold I in *; by case_decide|]. intros _ _.
  apply (keeps_bind _ any); [by eapply keeps_any, keeps_get_fst|]. intros d1 _.
  apply (keeps_bind _ any); [apply keeps_for_each; auto|]. intros _ _.
  apply (keeps_bind _ any); [by apply keeps_zoom_db|]. intros _ _.
  apply (keeps_bind _ any); [by eapply keeps_any, keeps_get_fst|]. intros d2 _. apply Hc.
Qed.

(** ** Every step keeps what the mutex protects *)

Lemma set_thread_lookup t p (s : Sys) t' p' :
  threads (set_thread t p s) !! t' = Some p' → (t' = t ∧ p' = p) ∨ (t' ≠ t ∧ threads s !! t' = Some p').
Proof.
  simpl. intros [(-> & -> & _)|[Hne Hl]]%list_lookup_insert_Some; [by left|]. right. split; [congruence|done].
Qed.
Lemma wake_lookup (l : list Pc) t p : (wake <$> l) !! t = Some p → ∃ p0, l !! t = Some p0 ∧ p = wake p0.
Proof. rewrite list_lookup_fmap. intros (p0 & -> & ?)%fmap_Some. eauto. Qed.
Lemma wake_facts p : flying (wake p) = flying p ∧ (flushing p = true → flushing (wake p) = true).
Proof. by destruct p. Qed.
Lemma sum_wake l : sum_list_with flying (wake <$> l) = sum_list_with flying l.
Proof.
  induction l as [|p l IH]; [done|]. rewrite fmap_cons. cbn [sum_list_with].
  destruct (wake_facts p) as [-> _]. by rewrite IH.
Qed.

(** A thread moves on and the write state stays. *)
Lemma sinv_move (s s' : Sys) t p p' :
  sinv s → threads s !! t = Some p → threads s' = <[t := p']> (threads s) →
  write_state (db s') = write_state (db s) → overlap s' = overlap s →
  flying p' = flying p → (flushing p = true → flushing p' = true) →
  (∀ k kd, p' = WaitFlush k kd → flush_pending (write_state (db s)) = true) →
  p' ≠ FlushParked → sinv s'.
Proof.
  intros [Hf Hw Hp Ho Hk] Ht Et Ew Eo Efl Efs Hwait Hpark. split; rewrite ?Ew, ?Et, ?Eo.
  - pose proof (sum_list_insert flying _ t p p' Ht). lia.
  - intros t1 k kd [(_ & E & _)|[_ Hl]]%list_lookup_insert_Some; [by eapply Hwait|by eapply Hw].
  - intros Hpend. destruct (Hp Hpend) as (t1 & p1 & H1 & Hfl). destruct (decide (t = t1)) as [<-|Hne].
    + exists t, p'. simplify_eq. split; [apply list_lookup_insert_eq; by eapply lookup_lt_Some|auto].
    + exists t1, p1. by rewrite list_lookup_insert_ne.
  - done.
  - intros t1 [(_ & E & _)|[_ Hl]]%list_lookup_insert_Some; [done|by eapply Hk].
Qed.

(** Nobody is parked once [notify_all] ran. *)
Lemma sinv_notify (s : Sys) :
  in_flight (write_state (db s)) = Z.of_nat (sum_list_with flying (threads s)) →
  (flush_pending (write_state (db s)) = true → ∃ t p, threads s !! t = Some p ∧ flushing p = true) →
  Forall (λ n, n = 0%nat) (overlap s) → sinv (notify_all s).
Proof.
  intros Hf Hp Ho. split; simpl; [by rewrite sum_wake| | |done|].
  - intros t k kd (p & _ & E)%wake_lookup. by destruct p.
  - intros (t & p & Ht & Hfl)%Hp. exists t, (wake p). rewrite list_lookup_fmap, Ht. split; [done|by apply wake_facts].
  - intros t (p & _ & E)%wake_lookup. by destruct p.
Qed.

Lemma sinv_flush_wait (s s' : Sys) t p :
  threads s !! t = Some p → flying p = 0%nat → (∀ k kd, p ≠ WaitFlush k kd) →
  in_flight (write_state (db s)) = Z.of_nat (sum_list_with flying (threads s)) →
  (∀ t k kd, threads s !! t = Some (WaitFlush k kd) → flush_pending (write_state (db s)) = true) →
  Forall (λ n, n = 0%nat) (overlap s) →
  flush_wait t s = Some s' → sinv s'.
Proof.
  intros Ht Hp Hnw Hf Hw Ho. unfold flush_wait. case_decide as Hfl.
  - intros [= <-]. split; simpl.
    + pose proof (sum_list_insert flying _ t p FlushParked Ht). simpl in *. lia.
    + intros t1 k kd [(_ & ? & _)|[_ Hl]]%list_lookup_insert_Some; [done|by eapply Hw].
    + intros _. exists t, FlushParked. split; [|done]. apply list_lookup_insert_eq. by eapply lookup_lt_Some.
    + done.
    + intros t1 _. lia.
  - assert (Hz : sum_list_with flying (threads s) = 0%nat) by lia.
    assert (Hrun : ∀ d st r, write_state d = write_state (db s) →
      sinv (set_thread t (Done r) (notify_all (after_flush d st s)))).
    { intros d st r Ew. split; simpl; rewrite ?Ew; simpl.
      - pose proof (sum_list_insert flying (wake <$> threads s) t (wake p) (Done r)) as Hs.
        rewrite list_lookup_fmap, Ht, sum_wake in Hs. specialize (Hs eq_refl). simpl in Hs. lia.
      - intros t1 k kd [(_ & ? & _)|[_ (p1 & _ & E)%wake_lookup]]%list_lookup_insert_Some; [done|by destruct p1].
      - done.
      - apply Forall_app. split; [done|by constructor].
      - intros t1 [(_ & ? & _)|[_ (p1 & _ & E)%wake_lookup]]%list_lookup_insert_Some; [done|by destruct p1]. }
    destruct (flush_quiesced (db s, store s)) as [[[]|e|] [d st]] eqn:E; intros [= <-];
      apply Hrun; by eapply flush_quiesced_write.
Qed.

Lemma sinv_flush_begin (s s' : Sys) t p :
  sinv s → threads s !! t = Some p → flying p = 0%nat → (∀ k kd, p ≠ WaitFlush k kd) →
  flush_begin t s = Some s' → sinv s'.
Proof. intros [] Ht Hp Hnw. by apply (sinv_flush_wait _ _ t p). Qed.

(** [settle] and [notify_all], and the thread moves on. *)
Definition settled (t : nat) (p : Pc) (s : Sys) : Sys :=
  set_thread t p (notify_all (set_db (mod_write settle (db s)) s)).

Lemma sinv_settled t (s : Sys) p p' :
  sinv s → threads s !! t = Some p → flying p = 1%nat → flying p' = 0%nat → (∀ k kd, p' ≠ WaitFlush k kd) →
  p' ≠ FlushParked → sinv (settled t p' s).
Proof.
  intros [Hf Hw Hp Ho Hk] Ht E1 E0 Hnw Hnp. split; simpl.
  - pose proof (sum_list_insert flying (wake <$> threads s) t (wake p) p') as Hs.
    rewrite list_lookup_fmap, Ht, sum_wake in Hs. specialize (Hs eq_refl).
    destruct (wake_facts p) as [Ew _]. lia.
  - intros t1 k kd [(_ & E & _)|[_ (p1 & _ & E)%wake_lookup]]%list_lookup_insert_Some; [by destruct (Hnw k kd)|by destruct p1].
  - intros (t1 & p1 & H1 & Hfl)%Hp. exists t1, (wake p1). split; [|by apply wake_facts].
    rewrite list_lookup_insert_ne, list_lookup_fmap, H1; [done|]. intros ->. assert (p1 = p) as -> by congruence. by destruct p.
  - done.
  - intros t1 [(_ & E & _)|[_ (p1 & _ & E)%wake_lookup]]%list_lookup_insert_Some; [done|by destruct p1].
Qed.

Lemma sinv_gstep t (s s' : Sys) : sinv s → gstep t s = Some s' → sinv s'.
Proof.
  intros Hi. pose proof Hi as [Hf Hw Hp Ho Hk]. unfold gstep.
  destruct (threads s !! t) as [[k kd|k kd|q k kd|q k kd| |e| | | |r]|] eqn:Ht; try done.
  - destruct (flush_pending (write_state (db s))) eqn:Hpend; intros [= <-].
    + eapply (sinv_move s _ t _ (WaitFlush k kd)); [done|exact Ht|done..].
    + split; simpl; rewrite ?Hpend; try done.
      * pose proof (sum_list_insert flying _ t _ (Logging (next_seq (write_state (db s))) k kd) Ht). simpl in *. lia.
      * intros t1 k1 kd1 [(_ & ? & _)|[_ Hl]]%list_lookup_insert_Some; [done|]. by specialize (Hw _ _ _ Hl).
      * intros t1 _. lia.
  - unfold zoom. destruct (map_err Storage (Wal.append (encode_record q k kd)) (wal (db s), store s)) as [[[]|e|] [w st]];
      intros [= <-]; by eapply (sinv_move s _ t).
  - intros [= <-]. by eapply (sinv_move s _ t).
  - cbv zeta. case_match.
    + intros Hb. assert (Hs : sinv (settled t FlushEnter s)) by by eapply sinv_settled.
      eapply (sinv_flush_begin _ s' t FlushEnter Hs); [|done..|exact Hb].
      simpl. apply list_lookup_insert_eq. rewrite length_fmap. by eapply lookup_lt_Some.
    + intros [= <-]. by eapply (sinv_settled t s Settling).
  - intros [= <-]. by eapply (sinv_settled t s (Failing e)).
  - intros Hb. by eapply (sinv_flush_begin s s' t FlushEnter).
  - intros Hb. by eapply (sinv_flush_wait s s' t FlushWoken).
Qed.

Lemma sinv_step (s s' : Sys) : sinv s → step s s' → sinv s'.
Proof.
  intros Hi Hst. destruct Hst as [t s s' Ht|t s p Ht]; [by eapply sinv_gstep|].
  destruct (wake_facts p) as [E1 E2]. eapply (sinv_move s _ t p (wake p)); try done; by destruct p.
Qed.

(** The calls [cs] arrive at an engine nobody is using. *)
Inductive call : Type := Write (key : bytes) (kd : ValueKind) | Flush.
Definition arrive (c : call) : Pc := match c with Write k kd => Enter k kd | Flush => FlushEnter end.
Definition start (d : Db) (st : S) (cs : list call) : Sys := mkSys d st (arrive <$> cs) [] [].
Definition idle (d : Db) : Prop := in_flight (write_state d) = 0 ∧ flush_pending (write_state d) = false.

Lemma arrive_lookup (cs : list call) t p : (arrive <$> cs) !! t = Some p → ∃ c, cs !! t = Some c ∧ p = arrive c.
Proof. rewrite list_lookup_fmap. intros (c & -> & ?)%fmap_Some. eauto. Qed.

Lemma sinv_start d st cs : idle d → sinv (start d st cs).
Proof.
  intros [H0 Hp]. split; simpl.
  - rewrite H0. assert (E : sum_list_with flying (arrive <$> cs) = 0%nat); [|by rewrite E].
    clear. induction cs as [|c cs IH]; [done|]. rewrite fmap_cons. cbn [sum_list_with]. rewrite IH. by destruct c.
  - intros t k kd ([] & _ & E)%arrive_lookup; done.
  - by rewrite Hp.
  - done.
  - intros t ([] & _ & E)%arrive_lookup; done.
Qed.

Lemma sinv_reach (s s' : Sys) : sinv s → rtc step s s' → sinv s'.
Proof. induction 2; [done|]. eauto using sinv_step. Qed.

(** * What the protocol promises, whatever the backend does *)

(** C16: no flush runs while a write is between claiming its sequence number and
    reporting its outcome, under every interleaving and every backend failure;
    and [in_flight] counts exactly those writes. *)
Theorem flush_excludes_writers d st cs s :
  idle d → rtc step (start d st cs) s →
  Forall (λ n, n = 0%nat) (overlap s) ∧
  in_flight (write_state (db s)) = Z.of_nat (sum_list_with flying (threads s)).
Proof. intros Hd Hr. destruct (sinv_reach _ _ (sinv_start d st cs Hd) Hr) as [Hf _ _ Ho _]. done. Qed.

(** A state in which only waiting calls cannot move has nobody waiting. *)
Lemma stranded s :
  sinv s →
  (∀ t p, threads s !! t = Some p → match p with WaitFlush _ _ | FlushParked | Done _ => True | _ => False end) →
  ∀ t p, threads s !! t = Some p → ∃ r, p = Done r.
Proof.
  intros [Hf Hw Hp Ho Hk] Hmove.
  assert (Hzero : in_flight (write_state (db s)) = 0).
  { rewrite Hf. assert (E : sum_list_with flying (threads s) = 0%nat); [|by rewrite E].
    assert (Hall : ∀ p, p ∈ threads s → flying p = 0%nat).
    { intros p (t & Ht)%list_elem_of_lookup. specialize (Hmove t p Ht). by destruct p. }
    clear -Hall. induction (threads s) as [|p l IH]; [done|]. cbn [sum_list_with].
    rewrite (Hall p), IH; [done| |by left]. intros p' Hp'. apply Hall. by right. }
  assert (Hnp : ∀ t, threads s !! t ≠ Some FlushParked) by (intros t Ht; specialize (Hk t Ht); lia).
  intros t p Ht. pose proof (Hmove t p Ht) as Hm. destruct p as [| | | | | | | | |r]; try done; [|by destruct (Hnp t)|eauto].
  destruct (Hp (Hw _ _ _ Ht)) as (t1 & p1 & H1 & Hfl). pose proof (Hmove t1 p1 H1). destruct p1; try done. by destruct (Hnp t1).
Qed.

(** What a thread with a step to take needs of the log and of the flush. *)
Lemma gstep_moves s t p :
  threads s !! t = Some p → gstep t s = None →
  (∀ q k kd, p = Logging q k kd →
    (zoom wal set_wal (map_err Storage (Wal.append (encode_record q k kd))) (db s, store s)).1 ≠ Panic) →
  (p = Settling → flush_begin t (settled t FlushEnter s) ≠ None) →
  (p = FlushEnter → flush_begin t s ≠ None) → (p = FlushWoken → flush_wait t s ≠ None) →
  match p with WaitFlush _ _ | FlushParked | Done _ => True | _ => False end.
Proof.
  intros Ht Hstuck Hlog Hset Hent Hwok. unfold gstep in Hstuck. rewrite Ht in Hstuck.
  destruct p as [k kd|k kd|q k kd|q k kd| |e| | | |r]; try done.
  - by destruct (flush_pending _).
  - specialize (Hlog q k kd eq_refl). by destruct (zoom wal _ _ _) as [[] [? ?]].
  - cbv zeta in Hstuck. case_match; [|done]. by apply Hset.
  - by apply Hent.
  - by apply Hwok.
Qed.

(** The steps that may run [flush_quiesced]. *)
Definition may_flush (p : Pc) : bool :=
  match p with Settling | FlushEnter | FlushWoken => true | _ => false end.

(** C17: no write and no flush is stranded: when no thread can take a step, and
    neither the log nor a flush about to run panics, every call has returned. *)
Theorem write_path_no_stranded d st cs s :
  idle d → rtc step (start d st cs) s →
  (∀ t q k kd, threads s !! t = Some (Logging q k kd) →
    (zoom wal set_wal (map_err Storage (Wal.append (encode_record q k kd))) (db s, store s)).1 ≠ Panic) →
  (∀ t p w, threads s !! t = Some p → may_flush p = true → next_seq w = next_seq (write_state (db s)) →
    (flush_quiesced (set_write w (db s), store s)).1 ≠ Panic) →
  (∀ t, gstep t s = None) →
  ∀ t p, threads s !! t = Some p → ∃ r, p = Done r.
Proof.
  intros Hd Hr Hlog Hflush Hstuck. apply stranded; [by eapply sinv_reach, Hr; apply sinv_start|].
  intros t p Ht.
  assert (Hfw : ∀ w s1, may_flush p = true → store s1 = store s → db s1 = set_write w (db s) →
    next_seq w = next_seq (write_state (db s)) → flush_wait t s1 ≠ None).
  { intros w s1 Hp Es Ed Eq. unfold flush_wait. case_decide; [done|]. rewrite Es, Ed. specialize (Hflush t p w Ht Hp Eq).
    by destruct (flush_quiesced (set_write w (db s), store s)) as [[] [? ?]]. }
  apply (gstep_moves s t p Ht (Hstuck t)).
  - intros q k kd ->. by eapply Hlog.
  - intros ->. by eapply Hfw.
  - intros ->. by eapply Hfw.
  - intros ->. eapply (Hfw (write_state (db s))); try done. by destruct (db s).
Qed.

(** ** Schedules *)

Fixpoint run (ts : list nat) (s : Sys) : option Sys :=
  match ts with [] => Some s | t :: ts' => s' ← gstep t s; run ts' s' end.

Lemma run_reach ts (s s' : Sys) : run ts s = Some s' → rtc step s s'.
Proof.
  revert s. induction ts as [|t ts IH]; intros s; simpl; [by intros [= ->]|].
  intros (s1 & Hs & Hr)%bind_Some. eapply rtc_l; [by eapply step_thread|by apply IH].
Qed.

(** Nothing moves once every call has returned. *)
Lemma done_stuck (s : Sys) :
  (∀ t p, threads s !! t = Some p → ∃ r, p = Done r) → ∀ t, gstep t s = None.
Proof.
  intros Hd t. unfold gstep. destruct (threads s !! t) as [p|] eqn:Ht; [|done]. by destruct (Hd t p Ht) as [r ->].
Qed.

(** ** A call alone *)

Definition thread_db (s : Sys) : list Pc * (Db * S) := (threads s, (db s, store s)).

(** What a flush of a single thread gives. *)
Definition flushed_alone (x : outcome DbError () * (Db * S)) : option (list Pc * (Db * S)) :=
  match x with
  | (Ok _, y) => Some ([Done (inl ())], y)
  | (Err e, y) => Some ([Done (inr e)], y)
  | (Panic, _) => None
  end.

Lemma flush_begin_alone (s : Sys) p :
  threads s = [p] → in_flight (write_state (db s)) = 0 →
  thread_db <$> flush_begin 0 s = flushed_alone (flush_locked (db s, store s)).
Proof.
  intros Et Ef. unfold flush_begin, flush_wait, flush_locked, attempt, mod_fst, get_fst. rewrite !bind_run. cbn -[flush_quiesced].
  rewrite Ef. destruct (decide (0 > 0)); [lia|]. rewrite bind_run.
  destruct (flush_quiesced _) as [[[]|e|] [d' st']]; cbn; unfold thread_db; cbn; by rewrite ?Et.
Qed.

Lemma write_eq d st k kd :
  idle d →
  Db.write k kd (d, st) =
    match zoom wal set_wal (map_err Storage (Wal.append (encode_record (next_seq (write_state d)) k kd)))
            (mod_write claim d, st) with
    | (Ok _, (d1, st1)) =>
        let d2 := mod_write settle
          (set_memtables (set_insert_if_newer k (mkValue (next_seq (write_state d)) kd) (memtables d1)) d1) in
        if is_full (memtables d2) then flush_locked (d2, st1) else (Ok (), (d2, st1))
    | (Err e, (d1, st1)) => (Err e, (mod_write settle d1, st1))
    | (Panic, x) => (Panic, x)
    end.
Proof.
  intros [H0 Hp]. unfold write, get_fst, mod_fst, attempt. rewrite bind_run. cbn -[zoom flush_locked is_full]. rewrite Hp.
  rewrite bind_run. cbn -[zoom flush_locked is_full]. rewrite bind_run.
  destruct (zoom _ _ _ _) as [[[]|e|] [d1 st1]]; cbn -[flush_locked is_full]; try done.
  rewrite bind_run. cbn -[flush_locked is_full]. rewrite bind_run. cbn -[flush_locked is_full]. rewrite bind_run. cbn -[flush_locked is_full].
  by case_match.
Qed.

Lemma run_snoc ts t (s : Sys) : run (ts ++ [t]) s = run ts s ≫= gstep t.
Proof.
  revert s. induction ts as [|t' ts IH]; intros s; simpl; [by destruct (gstep t s)|]. destruct (gstep t' s); [apply IH|done].
Qed.


End system.

(** * A concrete run *)

#[local] Existing Instance Sample.crc.
#[local] Existing Instance Sample.crc_laws.
#[local] Existing Instance Sample.xxh3.

(** Two writes and a flush; the flush comes while both writes are under way. *)
Definition sample_calls : list call :=
  [Write (lit "a") (Value (lit "1")); Write (lit "b") (Value (lit "2")); Flush].
Definition sample_schedule : list nat := [0; 1; 2; 1; 1; 1; 2; 0; 0; 0; 2]%nat.

Definition sample_open_run : option (Sys (S:=memfs)) :=
  match open_on [] sample_options (∅ : memfs) with
  | (Ok db, m) => run sample_schedule (start db m sample_calls)
  | _ => None
  end.

Lemma sample_run :
  (λ s, (threads s, claims s, overlap s)) <$> sample_open_run =
  Some ([Done (inl ()); Done (inl ()); Done (inl ())],
        [(lit "a", mkValue 1 (Value (lit "1"))); (lit "b", mkValue 2 (Value (lit "2")))], [0%nat; 0%nat]).
Proof. vm_compute. reflexivity. Qed.

(** The run, its start and what is left of its calls. *)
Lemma sample_reach :
  ∃ db m s, open_on [] sample_options (∅ : memfs) = (Ok db, m) ∧ db_rep [] sample_options ∅ 1 db m ∧
    rtc step (start db m sample_calls) s ∧ (∀ t p, threads s !! t = Some p → p = Done (inl ())) ∧
    claims s = [(lit "a", mkValue 1 (Value (lit "1"))); (lit "b", mkValue 2 (Value (lit "2")))].
Proof.
  destruct (db_open_fresh_ok (S:=memfs) [] sample_options ∅ ∅ (mem_view ∅) (fresh_empty [])) as (db & m & Ho & Hrep);
    [done|].
  pose proof sample_run as Hr. apply fmap_Some in Hr as (s & Hr & E). unfold sample_open_run in Hr. rewrite Ho in Hr.
  injection E as Et Ec _. exists db, m, s. split; [exact Ho|]. split; [exact Hrep|]. split; [by eapply run_reach|].
  split; [|symmetry; exact Ec]. rewrite <- Et. intros [|[|[|t]]] p; simpl; try (intros [= <-]; reflexivity).
Qed.

Lemma sample_idle db m : db_rep (S:=memfs) [] sample_options ∅ 1 db m → idle db.
Proof. intros (m' & _ & c & es & Hi & _ & _ & _ & Hp). split; [apply (di_idle _ _ _ _ _ Hi)|exact Hp]. Qed.

Lemma flush_excludes_writers_witness :
  ∃ (s : Sys (S:=memfs)), claims s = [(lit "a", mkValue 1 (Value (lit "1"))); (lit "b", mkValue 2 (Value (lit "2")))] ∧
    Forall (λ n, n = 0%nat) (overlap s) ∧
    in_flight (write_state (db s)) = Z.of_nat (sum_list_with flying (threads s)).
Proof.
  destruct sample_reach as (db & m & s & _ & Hrep & Hr & _ & Hc). exists s. split; [exact Hc|].
  exact (flush_excludes_writers db m sample_calls s (sample_idle db m Hrep) Hr).
Defined.

Lemma write_path_no_stranded_witness :
  ∃ (s : Sys (S:=memfs)), List.length (claims s) = 2%nat ∧ ∀ t p, threads s !! t = Some p → ∃ r, p = Done r.
Proof.
  destruct sample_reach as (db & m & s & _ & Hrep & Hr & Hd & Hc). exists s. split; [rewrite Hc; reflexivity|].
  apply (write_path_no_stranded db m sample_calls s (sample_idle db m Hrep) Hr).
  - intros t q k kd Ht. by pose proof (Hd _ _ Ht).
  - intros t p w Ht Hm. by rewrite (Hd _ _ Ht) in Hm.
  - apply done_stuck. intros t p Ht. rewrite (Hd _ _ Ht). eauto.
Defined.


End WritePath.
