(* ===== verification/WriteSerial.v ===== *)
(** Concurrent writes are serialisable: on a backend in working order every call
    returns [Ok], and once all have returned the engine stands for the map the
    writes give in the order their sequence numbers were claimed, wherever the
    log appends, the memtable inserts and the flushes fell. *)
From Stdlib Require Import Strings.String.
From S2P Require Export WritePath.

Module WriteSerial.
Import Newest Memtable MemtableSpec MergeSpec WalSpec RecordSpec Tables CompactionSpec Db DbSpec DbRefine WritePath.

(** * What the threads hold *)

Definition unlogged (p : Pc) : option Entry :=
  match p with Logging q k kd => Some (k, mkValue q kd) | _ => None end.
Definition unapplied (p : Pc) : option Entry :=
  match p with Applying q k kd => Some (k, mkValue q kd) | _ => None end.
Definition failed (p : Pc) : bool :=
  match p with Failing _ | Done (inr _) => true | _ => false end.

(** What a call may still add to the budget. *)
Definition cost (p : Pc) : Z :=
  match p with
  | Enter k kd | WaitFlush k kd => write_cost k kd
  | Logging q k kd => weight (k, mkValue q kd) + 2
  | Applying _ _ _ | Settling | FlushEnter | FlushParked | FlushWoken => 2
  | Failing _ | Done _ => 0
  end.
Fixpoint costs (l : list Pc) : Z := match l with [] => 0 | p :: l' => cost p + costs l' end.

(** The map after the writes [l], in order. *)
Definition applied (l : list Entry) (kv : gmap bytes bytes) : gmap bytes bytes :=
  foldl (λ kv e, apply_kind e.1 (kind e.2) kv) kv l.

Definition claimed_before (e1 e2 : Entry) : Prop := seq e1.2 < seq e2.2.

Lemma omap_insert {A} (f : Pc → option A) (l : list Pc) t p p' :
  l !! t = Some p → omap f (<[t := p']> l) ++ option_list (f p) ≡ₚ omap f l ++ option_list (f p').
Proof.
  revert t. induction l as [|x l IH]; intros [|t] Hl; simplify_eq/=.
  - destruct (f p), (f p'); simpl; rewrite ?app_nil_r, ?(Permutation_app_comm (omap f l)); try done. apply Permutation_swap.
  - destruct (f x); simpl; [f_equiv|]; by apply IH.
Qed.

Lemma costs_insert (l : list Pc) t p p' :
  l !! t = Some p → costs (<[t := p']> l) + cost p = costs l + cost p'.
Proof.
  revert t. induction l as [|x l IH]; intros [|t] Hl; simplify_eq/=; [lia|]. specialize (IH t Hl). lia.
Qed.

Lemma cost_nonneg p : 0 ≤ cost p.
Proof.
  destruct p as [k kd|k kd|q k kd|q k kd| |e| | | |r]; simpl; try lia.
  - pose proof (write_cost_pos k kd). lia.
  - pose proof (write_cost_pos k kd). lia.
  - pose proof (weight_pos (k, mkValue q kd)). lia.
Qed.
Lemma costs_nonneg l : 0 ≤ costs l.
Proof. induction l as [|p l IH]; simpl; [done|]. pose proof (cost_nonneg p). lia. Qed.

Lemma wake_holds p :
  unlogged (wake p) = unlogged p ∧ unapplied (wake p) = unapplied p ∧ failed (wake p) = failed p ∧ cost (wake p) = cost p.
Proof. by destruct p. Qed.
Lemma omap_cons_option {A} (f : Pc → option A) p l : omap f (p :: l) = option_list (f p) ++ omap f l.
Proof. simpl. by destruct (f p). Qed.
Lemma omap_wake {A} (f : Pc → option A) (l : list Pc) :
  (∀ p, f (wake p) = f p) → omap f (wake <$> l) = omap f l.
Proof.
  intros Hf. induction l as [|p l IH]; [done|]. by rewrite fmap_cons, !omap_cons_option, Hf, IH.
Qed.
Lemma costs_wake l : costs (wake <$> l) = costs l.
Proof.
  induction l as [|p l IH]; [done|]. rewrite fmap_cons. cbn [costs]. rewrite IH. by destruct (wake_holds p) as (_ & _ & _ & ->).
Qed.

(** Nobody between [claim] and [settle] holds nothing. *)
Lemma flying_holds (l : list Pc) :
  sum_list_with flying l = 0%nat → omap unlogged l = [] ∧ omap unapplied l = [].
Proof.
  induction l as [|p l IH]; [done|]. cbn [sum_list_with]. intros Hs. destruct IH as [E1 E2]; [lia|].
  rewrite !omap_cons_option, E1, E2. destruct p; simpl in *; try done; lia.
Qed.

Lemma applied_snoc l e kv : applied (l ++ [e]) kv = apply_kind e.1 (kind e.2) (applied l kv).
Proof. unfold applied. by rewrite foldl_app. Qed.
Lemma applied_app l1 l2 kv : applied (l1 ++ l2) kv = applied l2 (applied l1 kv).
Proof. unfold applied. by rewrite foldl_app. Qed.

(** Writes in claim order, on top of older contents, take effect in that order. *)
Lemma applied_live (l base : list Entry) :
  StronglySorted claimed_before l → (∀ e w, e ∈ l → w ∈ base → seq w.2 < seq e.2) →
  live_map (newest (l ++ base)) = applied l (live_map (newest base)).
Proof.
  intros Hs Hb. induction l as [|[k [q kd]] l IH] using rev_ind; [done|].
  apply StronglySorted_app in Hs as (Hlt & Hl & _). rewrite applied_snoc, <- IH.
  - apply live_snoc.
    + intros w Hw. apply (Hlt (k, w) (k, mkValue q kd) Hw). by left.
    + intros w Hw. apply (Hb (k, mkValue q kd) (k, w)); [|done]. apply elem_of_app. right. by left.
  - done.
  - intros e w He. apply Hb. apply elem_of_app. by left.
Qed.

Lemma sorted_coherent (l : list Entry) : StronglySorted claimed_before l → coherent l.
Proof.
  intros Hs k v w [i Hi]%list_elem_of_lookup [j Hj]%list_elem_of_lookup E.
  destruct (decide (i < j)%nat) as [Hlt|].
  { pose proof (StronglySorted_lookup _ _ Hs i j _ _ Hlt Hi Hj) as Hc. unfold claimed_before in Hc. simpl in Hc. lia. }
  destruct (decide (j < i)%nat) as [Hlt|].
  { pose proof (StronglySorted_lookup _ _ Hs j i _ _ Hlt Hj Hi) as Hc. unfold claimed_before in Hc. simpl in Hc. lia. }
  assert (i = j) as -> by lia. by simplify_eq.
Qed.
(** ** Every write claims one sequence number *)

(** The write a call still has to claim a number for. *)
Definition unclaimed (p : Pc) : option (bytes * ValueKind) :=
  match p with Enter k kd | WaitFlush k kd => Some (k, kd) | _ => None end.
Definition request (e : Entry) : bytes * ValueKind := (e.1, kind e.2).
Definition call_write (c : call) : option (bytes * ValueKind) :=
  match c with Write k kd => Some (k, kd) | Flush => None end.

Section requests.
Context {CRC : Crc32} {XXH : Xxh3} {S : Type} {ST : Storage.Storage S}.
Implicit Types (s : Sys (S:=S)).

(** The writes asked for: those claimed and those not yet. *)
Definition requests s : list (bytes * ValueKind) := (request <$> claims s) ++ omap unclaimed (threads s).

Lemma unclaimed_wake (l : list Pc) : omap unclaimed (wake <$> l) = omap unclaimed l.
Proof. apply omap_wake. by intros []. Qed.

Lemma requests_move s s' t p p' :
  threads s !! t = Some p → threads s' = <[t := p']> (threads s) → claims s' = claims s →
  unclaimed p' = unclaimed p → requests s' ≡ₚ requests s.
Proof.
  intros Ht Et Ec Eu. unfold requests. rewrite Et, Ec. apply Permutation_app_head.
  pose proof (omap_insert unclaimed _ t p p' Ht) as E. rewrite Eu in E. by apply Permutation_app_inv_r in E.
Qed.

Lemma requests_woken s s' t p p' :
  threads s !! t = Some p → threads s' = <[t := p']> (wake <$> threads s) → claims s' = claims s →
  unclaimed p = None → unclaimed p' = None → requests s' ≡ₚ requests s.
Proof.
  intros Ht Et Ec U U'. assert (En : requests (notify_all s) = requests s) by (unfold requests; simpl; by rewrite unclaimed_wake).
  rewrite <- En. apply (requests_move (notify_all s) s' t (wake p) p'); [|done|done|by destruct p, p'].
  simpl. by rewrite list_lookup_fmap, Ht.
Qed.

Lemma requests_flush_wait s s' t p :
  threads s !! t = Some p → unclaimed p = None → flush_wait t s = Some s' → requests s' ≡ₚ requests s.
Proof.
  intros Ht U. unfold flush_wait. case_decide.
  - intros [= <-]. by eapply (requests_move s _ t p FlushParked).
  - destruct (flush_quiesced _) as [[] [d st]]; intros [= <-];
      match goal with |- context [set_thread _ ?p' _] => by eapply (requests_woken s _ t p p') end.
Qed.

Lemma requests_gstep s s' t : gstep t s = Some s' → requests s' ≡ₚ requests s.
Proof.
  unfold gstep. destruct (threads s !! t) as [[k kd|k kd|q k kd|q k kd| |e| | | |r]|] eqn:Ht; try done.
  - destruct (flush_pending _); intros [= <-]; [by eapply (requests_move s _ t)|].
    pose proof (omap_insert unclaimed _ t _ (Logging (next_seq (write_state (db s))) k kd) Ht) as E.
    simpl in E. rewrite app_nil_r in E. unfold requests. simpl. rewrite fmap_app, <- E, <- (assoc_L (++)).
    by rewrite (Permutation_app_comm (omap unclaimed _)).
  - unfold zoom. destruct (map_err Storage (Wal.append (encode_record q k kd)) (wal (db s), store s)) as [[[]|e|] [w st]];
      intros [= <-]; by eapply (requests_move s _ t).
  - intros [= <-]. by eapply (requests_move s _ t).
  - cbv zeta. case_match.
    + unfold flush_begin. intros Hb. eapply (requests_flush_wait _ _ t FlushEnter) in Hb; [|simpl|done].
      * rewrite Hb. by eapply (requests_woken s (settled t FlushEnter s) t Settling FlushEnter).
      * apply list_lookup_insert_eq. rewrite length_fmap. by eapply lookup_lt_Some.
    + intros [= <-]. by eapply (requests_woken s _ t Settling).
  - intros [= <-]. by eapply (requests_woken s _ t (Failing e)).
  - unfold flush_begin. intros Hb. eapply (requests_flush_wait _ _ t FlushEnter) in Hb; [|exact Ht|done]. by rewrite Hb.
  - by eapply requests_flush_wait.
Qed.

Lemma requests_reach s s' : rtc step s s' → requests s' ≡ₚ requests s.
Proof.
  induction 1 as [|s1 s2 s3 Hst _ IH]; [done|]. rewrite IH. destruct Hst as [t s1 s2 Ht|t s1 p Ht]; [by eapply requests_gstep|].
  apply (requests_move s1 _ t p (wake p)); [done..|by destruct p].
Qed.

Lemma requests_start d (st : S) cs : requests (start d st cs) = omap call_write cs.
Proof.
  unfold requests, start. simpl. induction cs as [|c cs IH]; [done|].
  rewrite fmap_cons, omap_cons_option, IH. by destruct c.
Qed.

Lemma requests_done s : (∀ t p, threads s !! t = Some p → ∃ r, p = Done r) → requests s = request <$> claims s.
Proof.
  intros Hd. unfold requests. assert (E : omap unclaimed (threads s) = []); [|by rewrite E, app_nil_r].
  assert (Hall : ∀ p, p ∈ threads s → ∃ r, p = Done r) by (intros p (t & Ht)%list_elem_of_lookup; by eapply Hd).
  clear Hd. induction (threads s) as [|p l IH]; [done|]. rewrite omap_cons_option, IH.
  - destruct (Hall p) as [r ->]; [by left|done].
  - intros p' Hp. apply Hall. by right.
Qed.

End requests.

(** * The invariant *)

(** Two batches of records with no sequence number in common commute. *)
Lemma newest_swap (l1 l2 : list Entry) :
  (∀ k v w, (k, v) ∈ l1 → (k, w) ∈ l2 → seq v ≠ seq w) → newest (l1 ++ l2) = newest (l2 ++ l1).
Proof.
  intros Hne. rewrite !newest_app. apply map_eq. intros k. rewrite !lookup_nunion.
  destruct (newest l1 !! k) as [v|] eqn:E1, (newest l2 !! k) as [w|] eqn:E2; try done.
  pose proof (Hne k v w (newest_lookup _ _ _ E1) (newest_lookup _ _ _ E2)). simpl. f_equal.
  unfold newer. repeat case_decide; try done; lia.
Qed.

Section serial.
Context {CRC : Crc32} {CRCL : Crc32Laws} {XXH : Xxh3}.
Context {S : Type} {ST : Storage.Storage S} {STS : StorageSpec S}.
Context (d0 : path) (o0 : Options) (kvI : gmap bytes bytes).
Implicit Types (s : Sys (S:=S)) (m : memfs) (pre es ap old since : list Entry) (u : Z).

(** The engine as it will be when the writes under way have reached the memtable
    and settled: [wt] holds what the log holds. *)
Definition complete (wt : Memtable) (d : Db) : Db :=
  set_write (mkWrite (next_seq (write_state d)) 0 false)
    (set_memtables (mkSet wt [] (max_bytes (memtables d)) (next_arc (memtables d))) d).

(** The log holds [pre], found there at the start and not flushed yet, and then
    [es], in log order; [ap] are those of [es] in the memtable; of the claims, the
    [old] ones were flushed and [since] were not. *)
Record cinv s m c pre es ap old since u wt : Prop := {
  ci_view : st_view (store s) m;
  ci_db : db_inv (complete wt (db s)) m c (pre ++ es) u;
  ci_frozen : frozen (memtables (db s)) = [];
  ci_active : map (active (memtables (db s))) = newest (pre ++ ap);
  ci_wf : wf (active (memtables (db s)));
  ci_logged : es ++ omap unlogged (threads s) ≡ₚ since;
  ci_applied : ap ++ omap unapplied (threads s) ≡ₚ es;
  ci_claims : claims s = old ++ since;
  ci_sorted : StronglySorted claimed_before since;
  ci_seqs e : e ∈ since → Manifest.next_seq (ver (db s)) ≤ seq e.2 < next_seq (write_state (db s));
  ci_pre e w : e ∈ since → w ∈ pre → seq w.2 < seq e.2;
  ci_base : live_map (newest (pre ++ concat (tlists c (Manifest.tiers (ver (db s)))))) = applied old kvI;
  ci_dir : dir (db s) = d0;
  ci_opts : options (db s) = o0;
  ci_budget : u + costs (threads s) ≤ 2 ^ 30;
  ci_ok t p : threads s !! t = Some p → failed p = false;
}.

(** A step that moves no record. *)
Lemma cinv_ext s s' m c pre es ap old since u wt :
  cinv s m c pre es ap old since u wt → store s' = store s → claims s' = claims s →
  (∃ f, db s' = mod_write f (db s) ∧ next_seq (f (write_state (db s))) = next_seq (write_state (db s))) →
  omap unlogged (threads s') ≡ₚ omap unlogged (threads s) →
  omap unapplied (threads s') ≡ₚ omap unapplied (threads s) → costs (threads s') ≤ costs (threads s) →
  (∀ t p, threads s' !! t = Some p → failed p = false) → cinv s' m c pre es ap old since u wt.
Proof.
  intros [] Est Ecl (f & Ed & Ef) Eu Ea Hc Hf. assert (Hcomp : complete wt (db s') = complete wt (db s)).
  { rewrite Ed. unfold complete. cbn [mod_write set_write write_state]. by rewrite Ef. }
  split; rewrite ?Est, ?Ecl, ?Eu, ?Ea, ?Hcomp; rewrite ?Ed; try done.
  - intros e He. cbn [mod_write set_write write_state]. rewrite Ef. by apply ci_seqs0.
  - lia.
Qed.

Lemma thread_ok s t p p' :
  (∀ t p, threads s !! t = Some p → failed p = false) → failed p' = false →
  <[t := p']> (threads s) !! t = Some p → failed p = false.
Proof. intros Hf Hp [(_ & <- & _)|[_ H]]%list_lookup_insert_Some; [done|by eapply Hf]. Qed.

(** A move of one thread that holds no record before and after. *)
Lemma cinv_move s m c pre es ap old since u wt t p p' f :
  cinv s m c pre es ap old since u wt → threads s !! t = Some p →
  unlogged p = None → unlogged p' = None → unapplied p = None → unapplied p' = None →
  cost p' ≤ cost p → failed p' = false →
  next_seq (f (write_state (db s))) = next_seq (write_state (db s)) →
  cinv (set_thread t p' (set_db (mod_write f (db s)) s)) m c pre es ap old since u wt.
Proof.
  intros Hi Ht U1 U2 A1 A2 Hc Hf Ef. pose proof (ci_ok _ _ _ _ _ _ _ _ _ _ Hi) as Hok.
  pose proof (omap_insert unlogged _ t p p' Ht) as Eu. pose proof (omap_insert unapplied _ t p p' Ht) as Ea.
  rewrite U1, U2 in Eu. rewrite A1, A2 in Ea. rewrite !app_nil_r in Eu, Ea.
  eapply cinv_ext; [exact Hi|done|done|by exists f|done|done|..]; simpl.
  - pose proof (costs_insert _ t p p' Ht). lia.
  - intros t1 p1 [(_ & <- & _)|[_ Hx]]%list_lookup_insert_Some; [done|by eapply Hok].
Qed.

Lemma cinv_notify s m c pre es ap old since u wt :
  cinv s m c pre es ap old since u wt → cinv (notify_all s) m c pre es ap old since u wt.
Proof.
  intros Hi. pose proof (ci_ok _ _ _ _ _ _ _ _ _ _ Hi) as Hok.
  eapply cinv_ext; [exact Hi|done|done|exists (λ w, w); by destruct s as [[]]|..]; simpl.
  - rewrite omap_wake; [done|]. intros p. apply wake_holds.
  - rewrite omap_wake; [done|]. intros p. apply wake_holds.
  - by rewrite costs_wake.
  - intros t p (p0 & Hx & ->)%wake_lookup. destruct (wake_holds p0) as (_ & _ & -> & _). by eapply Hok.
Qed.

Lemma cinv_settled s m c pre es ap old since u wt t p p' :
  cinv s m c pre es ap old since u wt → threads s !! t = Some p →
  unlogged p = None → unlogged p' = None → unapplied p = None → unapplied p' = None →
  cost p' ≤ cost p → failed p' = false → cinv (settled t p' s) m c pre es ap old since u wt.
Proof.
  intros Hi Ht U1 U2 A1 A2 Hc Hf. unfold settled. destruct (wake_holds p) as (Wu & Wa & _ & Wc).
  assert (Hn : cinv (notify_all s) m c pre es ap old since u wt) by by apply cinv_notify.
  apply (cinv_move (notify_all s) _ _ _ _ _ _ _ _ _ t (wake p) p' settle Hn); try done; try congruence.
  simpl. by rewrite list_lookup_fmap, Ht.
Qed.

(** ** The four steps that move a record *)

Lemma cinv_claim s m c pre es ap old since u wt t k kd :
  cinv s m c pre es ap old since u wt → threads s !! t = Some (Enter k kd) →
  let q := next_seq (write_state (db s)) in let e := (k, mkValue q kd) in
  cinv (set_thread t (Logging q k kd)
         (mkSys (mod_write claim (db s)) (store s) (threads s) (claims s ++ [e]) (overlap s)))
    m c pre es ap old (since ++ [e]) (u + 1) wt.
Proof.
  intros Hi Ht q e. pose proof Hi as []. pose proof (costs_insert _ t _ (Logging q k kd) Ht) as Hc. cbn [cost] in Hc.
  pose proof (costs_nonneg (<[t := Logging q k kd]> (threads s))).
  assert (We : weight (k, mkValue 0 kd) = weight e) by by rewrite !weight_alt.
  unfold write_cost in Hc. rewrite We in Hc. fold e in Hc. pose proof (weight_pos e).
  destruct (db_inv_claim _ _ _ _ _ ci_db0) as [E Hdb]; [lia|]. cbn in E. fold q in E.
  pose proof (omap_insert unlogged _ t _ (Logging q k kd) Ht) as Eu.
  pose proof (omap_insert unapplied _ t _ (Logging q k kd) Ht) as Ea. simpl in Eu, Ea. rewrite !app_nil_r in Ea. rewrite app_nil_r in Eu.
  split; simpl; try done.
  - by rewrite Eu, app_assoc, ci_logged0.
  - by rewrite Ea.
  - by rewrite ci_claims0, app_assoc.
  - apply StronglySorted_app. split_and!; [|done|repeat constructor].
    intros e1 e2 He1 ->%list_elem_of_singleton. apply (ci_seqs0 e1 He1).
  - intros e1 [He1|He1%list_elem_of_singleton]%elem_of_app; cbn [mod_write set_write write_state claim next_seq]; fold q; rewrite E.
    + pose proof (ci_seqs0 e1 He1). fold q in H. cbn. lia.
    + subst e1. cbn. pose proof (di_next_seq _ _ _ _ _ ci_db0) as Hq. cbn in Hq. fold q in Hq. lia.
  - intros e1 w [He1|He1%list_elem_of_singleton]%elem_of_app Hw; [by apply ci_pre0|]. subst e1.
    assert (Hin : w ∈ pre ++ es) by (apply elem_of_app; by left).
    pose proof (di_seqs _ _ _ _ _ ci_db0 w Hin) as [_ Hlt]. exact Hlt.
  - lia.
  - intros t1 p1 [(_ & <- & _)|[_ Hx]]%list_lookup_insert_Some; [done|by eapply ci_ok0].
Qed.

(** The memtable as it will be, with one more record. *)
Definition add_record (e : Entry) (wt : Memtable) : Memtable := insert_if_newer e.1 e.2 wt.

Lemma cinv_log s m c pre es ap old since u wt t q k kd :
  cinv s m c pre es ap old since u wt → threads s !! t = Some (Logging q k kd) →
  let e := (k, mkValue q kd) in
  ∃ d' st' m', zoom wal set_wal (map_err Storage (Wal.append (encode_record q k kd))) (db s, store s) = (Ok (), (d', st')) ∧
    cinv (set_thread t (Applying q k kd) (mkSys d' st' (threads s) (claims s) (overlap s)))
      m' c pre (es ++ [e]) ap old since (u + weight e) (add_record e wt).
Proof.
  intros Hi Ht e. pose proof Hi as []. pose proof (costs_insert _ t _ (Applying q k kd) Ht) as Hc. cbn [cost] in Hc. fold e in Hc.
  pose proof (costs_nonneg (<[t := Applying q k kd]> (threads s))).
  pose proof (omap_insert unlogged _ t _ (Applying q k kd) Ht) as Eu.
  pose proof (omap_insert unapplied _ t _ (Applying q k kd) Ht) as Ea. simpl in Eu, Ea. rewrite app_nil_r in Eu, Ea. fold e in Eu, Ea.
  assert (He : e ∈ since).
  { rewrite <- ci_logged0, elem_of_app. right. rewrite <- Eu. apply elem_of_app. right. by left. }
  destruct (db_inv_log _ _ _ _ _ q k kd ci_db0) as (w' & m' & Ha & Hlog); [apply (ci_seqs0 e He)|fold e; lia|].
  fold e in Hlog. change (wal (complete wt (db s))) with (wal (db s)) in Ha.
  destruct (msim_same_run st_view _ _ _ _ _ _ _ _ (wal_append_sim (encode_record q k kd)) ci_view0 Ha) as (st' & Ha' & Hv').
  exists (set_wal w' (db s)), st', m'. split; [unfold zoom, map_err; by rewrite Ha'|].
  set (ms := memtables (complete wt (db s))) in *.
  destruct (buffer_insert ms (pre ++ es) k (mkValue q kd)) as (Hm & Hwf & Hf);
    [apply (di_mem _ _ _ _ _ ci_db0)|apply (di_memwf _ _ _ _ _ ci_db0)|done|].
  specialize (Hlog _ Hm Hwf Hf). rewrite <- (assoc_L (++)) in Hlog.
  split; simpl; try done.
  - by rewrite <- ci_logged0, <- Eu, <- (assoc_L (++)), (Permutation_app_comm [e]).
  - by rewrite Ea, app_assoc, ci_applied0.
  - lia.
  - intros t1 p1 [(_ & <- & _)|[_ Hx]]%list_lookup_insert_Some; [done|by eapply ci_ok0].
Qed.

Lemma cinv_apply s m c pre es ap old since u wt t q k kd :
  cinv s m c pre es ap old since u wt → threads s !! t = Some (Applying q k kd) →
  cinv (set_thread t Settling (set_db
      (set_memtables (set_insert_if_newer k (mkValue q kd) (memtables (db s))) (db s)) s))
    m c pre es (ap ++ [(k, mkValue q kd)]) old since u wt.
Proof.
  intros Hi Ht. pose proof Hi as []. pose proof (costs_insert _ t _ Settling Ht) as Hc. cbn [cost] in Hc.
  pose proof (omap_insert unlogged _ t _ Settling Ht) as Eu.
  pose proof (omap_insert unapplied _ t _ Settling Ht) as Ea. simpl in Eu, Ea. rewrite !app_nil_r in Eu. rewrite app_nil_r in Ea.
  destruct (buffer_insert (memtables (db s)) (pre ++ ap) k (mkValue q kd)) as (Hm & Hwf & Hf); [done..|].
  rewrite <- (assoc_L (++)) in Hm.
  split; simpl; try done.
  - by rewrite Eu.
  - by rewrite <- ci_applied0, <- Ea, <- (assoc_L (++)), (Permutation_app_comm [(k, mkValue q kd)]).
  - lia.
  - intros t1 p1 [(_ & <- & _)|[_ Hx]]%list_lookup_insert_Some; [done|by eapply ci_ok0].
Qed.

(** With nobody between [claim] and [settle] the engine is what it will be. *)
Lemma cinv_quiet s m c pre es ap old since u wt :
  cinv s m c pre es ap old since u wt → sum_list_with flying (threads s) = 0%nat →
  in_flight (write_state (db s)) = 0 → db_inv (db s) m c (pre ++ es) u ∧ es ≡ₚ since.
Proof.
  intros [] Hz Hf. destruct (flying_holds _ Hz) as [Eu Ea]. rewrite Eu, app_nil_r in ci_logged0.
  rewrite Ea, app_nil_r in ci_applied0. split; [|done].
  assert (Em : map wt = map (active (memtables (db s)))).
  { rewrite ci_active0, newest_app. transitivity (newest (pre ++ es)); [apply (di_mem _ _ _ _ _ ci_db0)|].
    rewrite newest_app. f_equal. symmetry. apply newest_ext.
    - intros k v w. rewrite ci_applied0, ci_logged0. by apply sorted_coherent.
    - intros kv. by rewrite ci_applied0. }
  assert (Ewt : wt = active (memtables (db s))).
  { pose proof (di_memwf _ _ _ _ _ ci_db0) as Hw. cbn in Hw. unfold wf in Hw, ci_wf0.
    destruct wt as [mp ab], (active (memtables (db s))) as [mp' ab']. simpl in *. congruence. }
  apply (db_inv_pending (flush_pending (write_state (db s)))) in ci_db0.
  assert (E : mod_write (set_flush_pending (flush_pending (write_state (db s)))) (complete wt (db s)) = db s); [|by rewrite E in ci_db0].
  rewrite Ewt. unfold complete. destruct (db s) as [? ? ? [? ? ? ?] ? ? [? ? ?]]. simpl in *. by subst.
Qed.

(** The live contents when nobody is writing. *)
Lemma cinv_live s m c pre es ap old since u wt :
  cinv s m c pre es ap old since u wt → sum_list_with flying (threads s) = 0%nat →
  in_flight (write_state (db s)) = 0 → live_map (db_view (db s) c (pre ++ es)) = applied (claims s) kvI.
Proof.
  intros Hi Hz Hf. destruct (cinv_quiet _ _ _ _ _ _ _ _ _ _ Hi Hz Hf) as [Hdb Hes]. pose proof Hi as [].
  rewrite ci_claims0, applied_app, <- ci_base0. unfold db_view.
  rewrite <- (applied_live since (pre ++ concat (tlists c (Manifest.tiers (ver (db s)))))); [|done|].
  - f_equal. rewrite newest_app, (newest_swap pre es), <- newest_app, <- (assoc_L (++)), newest_app, (newest_app since).
    + f_equal. apply newest_ext.
      * intros k v w. rewrite Hes. by apply sorted_coherent.
      * intros kv. by rewrite Hes.
    + intros k v w Hv Hw. rewrite Hes in Hw. pose proof (ci_pre0 (k, w) (k, v) Hw Hv). simpl in *. lia.
  - intros e w He [Hw|(l & (meta & Hm & ->)%elem_of_tlists & Hw)%elem_of_concat]%elem_of_app; [by apply ci_pre0|].
    pose proof (vi_seq _ _ _ _ (mi_version _ _ _ (di_manifest _ _ _ _ _ Hdb)) meta _ Hm Hw).
    pose proof (ci_seqs0 e He). lia.
Qed.

Definition good s : Prop := ∃ m c pre es ap old since u wt, cinv s m c pre es ap old since u wt.

Lemma good_flush_wait s t p :
  good s → threads s !! t = Some p → unlogged p = None → unapplied p = None → cost p = 2 → flying p = 0%nat →
  in_flight (write_state (db s)) = Z.of_nat (sum_list_with flying (threads s)) →
  ∃ s', flush_wait t s = Some s' ∧ good s'.
Proof.
  intros (m & c & pre & es & ap & old & since & u & wt & Hi) Ht U A Hc Hfl Hf. unfold flush_wait. case_decide as Hfly.
  - eexists. split; [reflexivity|]. exists m, c, pre, es, ap, old, since, u, wt.
    assert (E : set_db (mod_write id (db s)) s = s) by (by destruct s as [[? ? ? ? ? ? []]]).
    rewrite <- E at 1. by apply (cinv_move s _ _ _ _ _ _ _ _ _ t p FlushParked id Hi); rewrite ?Hc.
  - assert (Hz : sum_list_with flying (threads s) = 0%nat) by lia.
    assert (H0 : in_flight (write_state (db s)) = 0) by (rewrite Hf; lia).
    pose proof (cinv_live _ _ _ _ _ _ _ _ _ _ Hi Hz H0) as Hlive.
    destruct (cinv_quiet _ _ _ _ _ _ _ _ _ _ Hi Hz H0) as [Hdb _]. pose proof Hi as [].
    pose proof (costs_insert _ t p (Done (inl ())) Ht) as Hcost. rewrite Hc in Hcost. cbn [cost] in Hcost.
    pose proof (costs_nonneg (<[t := Done (inl ())]> (threads s))).
    destruct (flush_quiesced_ok (db s) m c (pre ++ es) u Hdb) as (d' & m' & c' & Hq & Hi' & Hv' & Hd' & Ho' & Hw' & _); [lia|].
    destruct (msim_same_run st_view _ _ _ _ _ _ _ _ (flush_quiesced_sim (S:=S)) ci_view0 Hq) as (st' & Hq' & Hm').
    rewrite Hq'. eexists. split; [reflexivity|]. exists m', c', [], [], [], (claims s), [], (u + 2), (active (memtables d')).
    assert (Ec : complete (active (memtables d')) (mod_write (set_flush_pending false) d') = mod_write (set_flush_pending false) d').
    { pose proof (di_frozen _ _ _ _ _ Hi') as Hfr. unfold complete, mod_write, set_flush_pending. cbn. rewrite <- Hfr.
      replace 0 with (in_flight (write_state d')) by (by rewrite Hw'). by destruct d' as [? ? ? [] ? ? []]. }
    destruct (flying_holds _ Hz) as [Eu Ea].
    pose proof (omap_insert unlogged (wake <$> threads s) t (wake p) (Done (inl ()))) as Eu'.
    pose proof (omap_insert unapplied (wake <$> threads s) t (wake p) (Done (inl ()))) as Ea'.
    destruct (wake_holds p) as (Wu & Wa & _ & Wc).
    rewrite list_lookup_fmap, Ht, Wu, U, omap_wake, Eu, app_nil_r in Eu' by (intros; apply wake_holds).
    rewrite list_lookup_fmap, Ht, Wa, A, omap_wake, Ea, app_nil_r in Ea' by (intros; apply wake_holds).
    specialize (Eu' eq_refl). specialize (Ea' eq_refl). simpl in Eu', Ea'.
    split; simpl; rewrite ?Ec; try done.
    + by apply db_inv_pending.
    + apply (di_frozen _ _ _ _ _ Hi').
    + apply (di_mem _ _ _ _ _ Hi').
    + apply (di_memwf _ _ _ _ _ Hi').
    + by rewrite app_nil_r.
    + constructor.
    + by intros e ?%elem_of_nil.
    + by intros e w ?%elem_of_nil.
    + rewrite <- Hlive, <- Hv'. done.
    + congruence.
    + congruence.
    + pose proof (costs_insert (wake <$> threads s) t (wake p) (Done (inl ()))) as Hcw.
      rewrite list_lookup_fmap, Ht, Wc, Hc, costs_wake in Hcw. specialize (Hcw eq_refl). simpl in Hcw. lia.
    + intros t1 p1 [(_ & <- & _)|[_ (p0 & Hx & ->)%wake_lookup]]%list_lookup_insert_Some; [done|].
      destruct (wake_holds p0) as (_ & _ & -> & _). by eapply ci_ok0.
Qed.

Lemma good_pending s : good s → good (set_db (mod_write (set_flush_pending true) (db s)) s).
Proof.
  intros (m & c & pre & es & ap & old & since & u & wt & Hi). exists m, c, pre, es, ap, old, since, u, wt.
  eapply cinv_ext; [exact Hi|done|done|by exists (set_flush_pending true)|done|done|done|apply (ci_ok _ _ _ _ _ _ _ _ _ _ Hi)].
Qed.

(** The flush a thread starts or resumes returns. *)
Lemma good_flush_begin s t p :
  sinv s → good s → threads s !! t = Some p → unlogged p = None → unapplied p = None → cost p = 2 → flying p = 0%nat →
  ∃ s', flush_begin t s = Some s' ∧ good s'.
Proof.
  intros Hs Hg Ht U A Hc Hfl. unfold flush_begin.
  apply (good_flush_wait (set_db (mod_write (set_flush_pending true) (db s)) s) t p); try done; [by apply good_pending|apply (si_flight _ Hs)].
Qed.

Lemma good_settled s t p' :
  sinv s → good s → threads s !! t = Some Settling →
  flying p' = 0%nat → unlogged p' = None → unapplied p' = None → cost p' ≤ 2 →
  failed p' = false → (∀ k kd, p' ≠ WaitFlush k kd) → p' ≠ FlushParked → good (settled t p' s) ∧ sinv (settled t p' s).
Proof.
  intros Hs Hg Ht P1 P2 P3 P4 P5 P6 P7. split; [|by eapply (sinv_settled t s Settling)].
  destruct Hg as (m & c & pre & es & ap & old & since & u & wt & Hi). do 9 eexists. by eapply (cinv_settled s).
Qed.

Lemma good_settled_flush s t :
  sinv s → good s → threads s !! t = Some Settling → ∃ s', flush_begin t (settled t FlushEnter s) = Some s' ∧ good s'.
Proof.
  intros Hs Hg Ht. destruct (good_settled s t FlushEnter) as [Hg1 Hs1]; [done..|].
  apply (good_flush_begin _ t FlushEnter); try done.
  simpl. apply list_lookup_insert_eq. rewrite length_fmap. by eapply lookup_lt_Some.
Qed.

Lemma good_gstep s s' t : sinv s → good s → gstep t s = Some s' → good s'.
Proof.
  intros Hs Hg. pose proof (si_flight _ Hs) as Hf. unfold gstep.
  destruct (threads s !! t) as [[k kd|k kd|q k kd|q k kd| |e| | | |r]|] eqn:Ht; try done.
  - destruct (flush_pending _); intros [= <-]; destruct Hg as (m & c & pre & es & ap & old & since & u & wt & Hi).
    + exists m, c, pre, es, ap, old, since, u, wt.
      assert (E : set_db (mod_write id (db s)) s = s) by (by destruct s as [[? ? ? ? ? ? []]]).
      rewrite <- E at 1. by apply (cinv_move s _ _ _ _ _ _ _ _ _ t (Enter k kd) (WaitFlush k kd) id Hi).
    + do 9 eexists. by apply (cinv_claim _ _ _ _ _ _ _ _ _ _ _ _ _ Hi).
  - destruct Hg as (m & c & pre & es & ap & old & since & u & wt & Hi).
    destruct (cinv_log _ _ _ _ _ _ _ _ _ _ _ _ _ _ Hi Ht) as (d' & st' & m' & Hz & Hi').
    rewrite Hz. intros [= <-]. do 9 eexists. exact Hi'.
  - intros [= <-]. destruct Hg as (m & c & pre & es & ap & old & since & u & wt & Hi).
    do 9 eexists. by apply (cinv_apply _ _ _ _ _ _ _ _ _ _ _ _ _ _ Hi).
  - cbv zeta. case_match.
    + intros Hb. destruct (good_settled_flush s t Hs Hg Ht) as (s1 & Hb1 & Hg1). unfold settled in Hb1.
      rewrite Hb1 in Hb. by injection Hb as <-.
    + intros [= <-]. by apply (good_settled s t (Done (inl ()))).
  - destruct Hg as (m & c & pre & es & ap & old & since & u & wt & Hi).
    by pose proof (ci_ok _ _ _ _ _ _ _ _ _ _ Hi _ _ Ht).
  - intros Hb. destruct (good_flush_begin s t FlushEnter) as (s1 & Hb1 & Hg1); [done..|]. congruence.
  - intros Hb. destruct (good_flush_wait s t FlushWoken) as (s1 & Hb1 & Hg1); [done..|]. congruence.
Qed.

(** Every thread that is not waiting or done can move. *)
Lemma good_moves s t p :
  sinv s → good s → threads s !! t = Some p → gstep t s = None →
  match p with WaitFlush _ _ | FlushParked | Done _ => True | _ => False end.
Proof.
  intros Hs Hg Ht Hstuck. apply (gstep_moves s t p Ht Hstuck).
  - intros q k kd ->. destruct Hg as (m & c & pre & es & ap & old & since & u & wt & Hi).
    destruct (cinv_log _ _ _ _ _ _ _ _ _ _ _ _ _ _ Hi Ht) as (d' & st' & m' & -> & _). done.
  - intros ->. destruct (good_settled_flush s t Hs Hg Ht) as (s1 & -> & _). done.
  - intros ->. destruct (good_flush_begin s t FlushEnter) as (s1 & -> & _); done.
  - intros ->. destruct (good_flush_wait s t FlushWoken) as (s1 & -> & _); try done. apply (si_flight _ Hs).
Qed.

Lemma good_step s s' : sinv s → good s → step s s' → good s'.
Proof.
  intros Hs Hg Hst. destruct Hst as [t s s' Ht|t s p Ht]; [by eapply good_gstep|].
  destruct Hg as (m & c & pre & es & ap & old & since & u & wt & Hi).
  exists m, c, pre, es, ap, old, since, u, wt. destruct (wake_holds p) as (Wu & Wa & Wf & Wc).
  pose proof (omap_insert unlogged _ t p (wake p) Ht) as Eu. pose proof (omap_insert unapplied _ t p (wake p) Ht) as Ea.
  rewrite Wu in Eu. rewrite Wa in Ea. apply Permutation_app_inv_r in Eu, Ea.
  eapply cinv_ext; [exact Hi|done|done|exists (λ w, w); by destruct s as [[]]|done|done|..]; simpl.
  - pose proof (costs_insert _ t p (wake p) Ht). lia.
  - pose proof (ci_ok _ _ _ _ _ _ _ _ _ _ Hi) as Hok.
    intros t1 p1 [(_ & <- & _)|[_ Hx]]%list_lookup_insert_Some; [rewrite Wf|]; by eapply Hok.
Qed.

Lemma good_reach s s' : sinv s → good s → rtc step s s' → sinv s' ∧ good s'.
Proof. intros Hs Hg Hr. induction Hr; [done|]. eauto using sinv_step, good_step. Qed.

(** What the calls may use. *)
Definition call_cost (c : call) : Z := match c with Write k kd => write_cost k kd | Flush => 2 end.

Lemma good_start d st u (cs : list call) :
  db_rep d0 o0 kvI u d st → u + costs (arrive <$> cs) ≤ 2 ^ 30 → good (start d st cs).
Proof.
  intros (m & Hm & c & es & Hi & Hv & Hd & Ho & Hp) Hu.
  exists m, c, es, [], [], [], [], u, (active (memtables d)).
  assert (Ec : complete (active (memtables d)) d = d).
  { pose proof (di_frozen _ _ _ _ _ Hi). pose proof (di_idle _ _ _ _ _ Hi). unfold complete, set_write, set_memtables.
    destruct d as [? ? ? [? ? ? ?] ? ? [? ? ?]]; simpl in *; subst. reflexivity. }
  assert (E0 : ∀ f : Pc → option Entry, (∀ c, f (arrive c) = None) → omap f (arrive <$> cs) = []).
  { intros f Hf. clear -Hf. induction cs as [|c cs IH]; [done|]. by rewrite fmap_cons, omap_cons_option, Hf, IH. }
  split; simpl; rewrite ?Ec, ?app_nil_r; try done.
  - apply (di_frozen _ _ _ _ _ Hi).
  - apply (di_mem _ _ _ _ _ Hi).
  - apply (di_memwf _ _ _ _ _ Hi).
  - by rewrite E0 by by intros [].
  - by rewrite E0 by by intros [].
  - constructor.
  - by intros e ?%elem_of_nil.
  - by intros e w ?%elem_of_nil.
  - intros t p ([] & _ & ->)%arrive_lookup; done.
Qed.

(** A good state whose calls have returned stands for the map of its claims. *)
Lemma good_done s :
  sinv s → good s → (∀ t p, threads s !! t = Some p → ∃ r, p = Done r) →
  Forall (λ p, p = Done (inl ())) (threads s) ∧
  ∃ u, db_rep d0 o0 (applied (claims s) kvI) u (db s) (store s).
Proof.
  intros Hs (m & c & pre & es & ap & old & since & u & wt & Hi) Hdone. pose proof Hi as []. split.
  { apply Forall_lookup. intros t p Ht. destruct (Hdone t p Ht) as [[[]|e] ->]; [done|]. by specialize (ci_ok0 _ _ Ht). }
  assert (Hz : sum_list_with flying (threads s) = 0%nat).
  { assert (Hall : ∀ p, p ∈ threads s → ∃ r, p = Done r) by (intros p (t & Ht)%list_elem_of_lookup; by eapply Hdone).
    clear -Hall. induction (threads s) as [|p l IH]; [done|]. cbn [sum_list_with].
    destruct (Hall p) as [r ->]; [by left|]. simpl. apply IH. intros p' Hp. apply Hall. by right. }
  assert (H0 : in_flight (write_state (db s)) = 0) by (rewrite (si_flight _ Hs), Hz; done).
  exists u, m. split; [done|]. exists c, (pre ++ es). split_and!; [|by eapply cinv_live|done|done|].
  - by eapply (cinv_quiet s).
  - destruct (flush_pending (write_state (db s))) eqn:Hp; [|done].
    destruct (si_pending _ Hs Hp) as (t & p & Ht & Hfl). by destruct (Hdone t p Ht) as [r ->].
Qed.

End serial.

(** C12: concurrent writes and flushes are serialisable: on a backend in working
    order, when no call can move all have returned [Ok], the claims are the calls'
    writes, and the engine stands for the starting map after the writes in claim order. *)
Theorem concurrent_writes_serialise {CRC : Crc32} {CRCL : Crc32Laws} {XXH : Xxh3}
    {S : Type} {ST : Storage.Storage S} {STS : StorageSpec S} d o kv u db0 (st : S) (cs : list call) s :
  db_rep d o kv u db0 st → u + costs (arrive <$> cs) ≤ 2 ^ 30 →
  rtc step (start db0 st cs) s → (∀ t, gstep t s = None) →
  Forall (λ p, p = Done (inl ())) (threads s) ∧
  request <$> claims s ≡ₚ omap call_write cs ∧
  ∃ u', db_rep d o (applied (claims s) kv) u' (db s) (store s).
Proof.
  intros Hrep Hu Hr Hstuck. assert (Hidle : idle db0).
  { destruct Hrep as (m & _ & c & es & Hi & _ & _ & _ & Hp). split; [apply (di_idle _ _ _ _ _ Hi)|done]. }
  destruct (good_reach d o kv _ _ (sinv_start _ st cs Hidle) (good_start d o kv _ _ _ _ Hrep Hu) Hr) as [Hs Hg].
  assert (Hdone : ∀ t p, threads s !! t = Some p → ∃ r, p = Done r).
  { apply stranded; [done|]. intros t p Ht. by eapply (good_moves d o kv). }
  destruct (good_done d o kv s Hs Hg Hdone) as [Hok Hmap]. split_and!; [done| |done].
  by rewrite <- (requests_done s Hdone), <- (requests_start db0 st cs), (requests_reach _ _ Hr).
Qed.

#[local] Existing Instance Sample.crc.
#[local] Existing Instance Sample.crc_laws.
#[local] Existing Instance Sample.xxh3.

Lemma concurrent_writes_serialise_witness :
  ∃ (s : Sys (S:=memfs)) u', Forall (λ p, p = Done (inl ())) (threads s) ∧
    request <$> claims s ≡ₚ omap call_write sample_calls ∧
    db_rep [] sample_options (applied (claims s) ∅) u' (db s) (store s) ∧
    applied (claims s) ∅ = {[ lit "a" := lit "1"; lit "b" := lit "2" ]}.
Proof.
  destruct sample_reach as (db0 & m & s & _ & Hrep & Hr & Hd & Hc).
  destruct (concurrent_writes_serialise (S:=memfs) [] sample_options ∅ 1 db0 m sample_calls s Hrep) as (Hok & Hreq & u' & Hm).
  - by vm_compute.
  - exact Hr.
  - apply done_stuck. intros t p Ht. rewrite (Hd _ _ Ht). eauto.
  - exists s, u'. split; [exact Hok|]. split; [exact Hreq|]. split; [exact Hm|]. rewrite Hc. reflexivity.
Defined.
End WriteSerial.
