(* ===== verification/Maintenance.v ===== *)
(** The engine's upkeep, on every backend: what a flush leaves of the memtables,
    the log and the tiers, and what one compaction step and the cascade of steps
    do to the tables. *)
From Stdlib Require Import Strings.String.
From S2P Require Export DbRefine.

Module Maintenance.
Import Memtable WalSpec Manifest CompactionSpec Db DbSpec DbOpen DbRefine.

Section contract.
Context {CRC : Crc32} {CRCL : Crc32Laws} {XXH : Xxh3}.
Context {S : Type} {ST : Storage.Storage S} {STS : StorageSpec S}.
Implicit Types (s : S) (d : path) (o : Options) (kv : gmap bytes bytes) (u : Z) (db : Db) (m : memfs).


(** C19: a compaction step keeps the newest live version of every key and every
    file outside its tables; when it reports work there are fewer tables, and
    when it reports none every tier is below the fanout. *)
Theorem maybe_compact_live fanout mf s m c :
  2 ≤ fanout → st_view s m → manifest_inv mf m c → version_fits (version (current mf)) c →
  ∃ b mf' s' m' c', Compaction.maybe_compact fanout (mf, s) = (Ok b, (mf', s')) ∧ st_view s' m' ∧
    manifest_inv mf' m' c' ∧
    same_live (tview c (tiers (version (current mf)))) (tview c' (tiers (version (current mf')))) ∧
    (∀ p, foreign (Manifest.dir mf) p → m' !! p = m !! p) ∧
    if b : bool then blen (all_tables (version (current mf'))) < blen (all_tables (version (current mf)))
    else ∀ t inputs, tiers (version (current mf')) !! t = Some inputs → blen inputs < fanout.
Proof.
  intros Hf Hm Hi Hfit.
  destruct (maybe_compact_ok mf m c fanout Hf Hi Hfit) as (b & mf' & m' & c' & Hr & Hct & _ & Hb).
  destruct (msim_same_run st_view _ _ mf s m _ _ _ (maybe_compact_sim fanout) Hm Hr) as (s' & Hr' & Hm').
  exists b, mf', s', m', c'. destruct Hct. by split_and!.
Qed.

(** C28: with a fanout of two or more the loop [while maybe_compact(..)? {}] ends,
    within one turn per table and one more. *)
Theorem compact_all_terminates d o kv u db s :
  db_rep d o kv u db s →
  ∃ db' s', compact_all (Datatypes.S (List.length (all_tables (ver db)))) (tier_fanout o) (db, s) =
    (Ok (), (db', s')) ∧ db_rep d o kv u db' s'.
Proof.
  intros (m & Hm & c & es & Hi & Hv & Hd & Ho & Hp).
  destruct (compact_all_ok db m c es u Hi) as (mf' & m' & c' & Hc & Hi' & Hv' & _). rewrite Ho in Hc.
  destruct (msim_same_run st_view _ _ db s m _ _ _ (compact_all_sim _ _) Hm Hc) as (s' & Hc' & Hm').
  exists (set_manifest mf' db), s'. split; [done|]. exists m'. split; [done|]. exists c', es.
  split; [done|]. split_and!; try done. by rewrite Hv'.
Qed.
End contract.

(** ** Concrete runs: two flushed tables, in one tier *)

Definition three_tables : Options := mkOptions Wal.Always 64 3.
Definition two_flushes : list op :=
  [OpPut (lit "a") (lit "1"); OpFlush; OpDelete (lit "a"); OpPut (lit "b") (lit "2"); OpFlush].

#[local] Existing Instance Sample.crc.
#[local] Existing Instance Sample.crc_laws.
#[local] Existing Instance Sample.xxh3.

Lemma sample_flushed :
  ∃ db (m : memfs), mem_rep [] three_tables {[ lit "b" := lit "2" ]} (1 + total_cost two_flushes) db m.
Proof.
  destruct (db_open_fresh_ok (S:=memfs) [] three_tables ∅ ∅ (mem_view ∅) (fresh_empty [])) as (db & m & _ & m0 & -> & Hrep);
    [done|].
  destruct (run_ops_mem [] three_tables ∅ 1 db m0 two_flushes Hrep) as (db' & m' & _ & Hrep');
    [by repeat constructor|by vm_compute|].
  exists db', m'. exact Hrep'.
Qed.


Lemma maybe_compact_live_witness :
  ∃ mf (m : memfs) b mf' s' m', Compaction.maybe_compact 2 (mf, m) = (Ok b, (mf', s')) ∧
    st_view (S:=memfs) s' m' ∧
    if b : bool then blen (all_tables (version (current mf'))) < blen (all_tables (version (current mf)))
    else ∀ t inputs, tiers (version (current mf')) !! t = Some inputs → blen inputs < 2.
Proof.
  destruct sample_flushed as (db & m & c & es & Hi & _).
  destruct (maybe_compact_live (S:=memfs) 2 (manifest db) m m c)
    as (b & mf' & s' & m' & c' & Hr & Hv & _ & _ & _ & Hb);
    [done|apply mem_view|exact (db_inv_mf _ _ _ _ _ Hi)|exact (di_fits _ _ _ _ _ Hi)|].
  exists (manifest db), m, b, mf', s', m'. split; [exact Hr|]. split; [exact Hv|exact Hb].
Defined.

Lemma compact_all_terminates_witness :
  ∃ db (m : memfs) db' s',
    compact_all (Datatypes.S (List.length (all_tables (ver db)))) 3 (db, m) = (Ok (), (db', s')).
Proof.
  destruct sample_flushed as (db & m & Hrep).
  destruct (compact_all_terminates (S:=memfs) [] three_tables {[ lit "b" := lit "2" ]} (1 + total_cost two_flushes) db m)
    as (db' & s' & Hc & _); [by exists m|].
  exists db, m, db', s'. exact Hc.
Defined.
End Maintenance.
