(* ===== verification/RealDb.v ===== *)
(** The engine on the operating system: every component keeps its calls inside the
    directory of the database, so what holds of the engine on the abstract backend
    holds of it on [src/storage/real.rs], while no system call fails. *)
From Stdlib Require Import Strings.String.
From S2P Require Export Confine DbRefine.

Module RealDb.
Import SsFormat Manifest RealFsSpec Confine DbOpen DbRefine.

Section components.
Context {CRC : Crc32} {XXH : Xxh3} {S : Type} {ST : Storage.Storage S} (d : path) (I : S → Prop) (HI : allows d I).
Abbreviation child p := (is_child_of p d = true).
Abbreviation Y := (yields I).

(** ** Calls *)

Lemma y_create p : child p → Y any (fs_create p).
Proof. apply (al_create d I HI). Qed.
Lemma y_open p : child p → Y any (fs_open p).
Proof. intros. by apply yields_keeps, (al_open d I HI). Qed.
Lemma y_append p b : child p → Y any (fs_append p b).
Proof. apply (al_append d I HI). Qed.
Lemma y_sync_file p : child p → Y any (fs_sync_file p).
Proof. apply (al_sync_file d I HI). Qed.
Lemma y_sync_dir : Y any (fs_sync_dir d).
Proof. apply (al_sync_dir d I HI). Qed.
Lemma y_rename p q : child p → child q → Y any (fs_rename p q).
Proof. apply (al_rename d I HI). Qed.
Lemma y_delete p : child p → Y any (fs_delete p).
Proof. intros. by apply yields_keeps, (al_delete d I HI). Qed.
Lemma y_list : Y (Forall (λ p, child p)) (fs_list d).
Proof. apply (al_list d I HI). Qed.
Lemma y_len p : child p → Y (λ n, 0 ≤ n) (fs_len p).
Proof. intros. by apply yields_keeps, (al_len d I HI). Qed.
Lemma y_try_delete {E} p : child p → yields (E:=E) I any (ignore_err (fs_delete p)).
Proof. intros. by apply yields_keeps, keeps_ignore_err, (al_delete d I HI). Qed.
Hint Resolve y_create y_open y_append y_sync_file y_sync_dir y_rename y_delete y_list y_len y_try_delete
  is_child_join : yields.

(** ** The log *)

Definition seg_in (s : Segment.Segment) : Prop := child (Segment.seg_path s).
Definition wal_in (w : Wal.Wal) : Prop := Wal.dir w = d ∧ seg_in (Wal.active w).

Lemma segment_child i : child (Segment.segment_path d i).
Proof. apply is_child_join. Qed.
Hint Resolve segment_child : yields.
Lemma y_list_segments : Y (Forall (λ ip, child ip.2)) (Segment.list_segments d).
Proof.
  unfold Segment.list_segments. eapply yields_bind; [apply y_list|]. cbn beta. intros ps Hps. apply yields_ret.
  apply Forall_forall. intros [i p] Hin. rewrite merge_sort_Permutation in Hin.
  apply list_elem_of_omap in Hin as (p' & Hp' & Hi). destruct (Segment.parse_segment_id p'); [|done]. simplify_eq/=.
  rewrite Forall_forall in Hps. by apply Hps.
Qed.
Lemma y_seg_create i : Y seg_in (Segment.create d i).
Proof. unfold Segment.create. eapply yields_bind; [auto with yields|]. intros _ _. apply yields_ret, segment_child. Qed.
Lemma y_seg_open i : Y seg_in (Segment.open d i).
Proof. unfold Segment.open. eapply yields_bind; [auto with yields|]. intros n _. apply yields_ret, segment_child. Qed.
Lemma y_seg_append b : yields (both seg_in I) any (Segment.append b).
Proof. unfold Segment.append. solve_yields. Qed.
Lemma y_seg_sync : yields (both seg_in I) any Segment.sync.
Proof. unfold Segment.sync. solve_yields. Qed.
Hint Resolve y_list_segments y_seg_create y_seg_open y_seg_append y_seg_sync : yields.
Lemma y_read_loop n p len b : child p → Y any (Segment.read_loop n p len b).
Proof.
  intros Hp. revert b. induction n as [|n IH]; intros b; simpl; [by apply yields_ret|].
  case_decide; [|by apply yields_ret]. eapply yields_bind.
  { apply (al_read d I HI); [done|apply blen_nonneg|lia]. }
  cbn beta. intros chunk _. case_decide; [by apply yields_ret|apply IH].
Qed.
Lemma y_read_all p : child p → Y any (Segment.read_all p).
Proof.
  intros Hp. unfold Segment.read_all. eapply (yields_bind _ any).
  { by apply yields_keeps, keeps_attempt, (keeps_any _ _ _ (al_len d I HI p Hp)). }
  intros [n|e] _; [by apply y_read_loop|]. destruct e; auto with yields.
Qed.
Hint Resolve y_read_all : yields.
Lemma y_recover : Y any (Recovery.recover d).
Proof.
  unfold Recovery.recover. eapply yields_bind; [auto with yields|]. cbn beta. intros segs Hsegs.
  generalize Recovery.recovered_default. induction Hsegs as [|[i p] segs Hp Hsegs IH]; intros r; simpl; [auto with yields|].
  solve_yields.
Qed.
Lemma y_truncate_tail t n : Y any (Recovery.truncate_tail d t n).
Proof.
  unfold Recovery.truncate_tail. assert (child (Recovery.tmp_path d t)) by apply is_child_join. solve_yields.
Qed.
Hint Resolve y_recover y_truncate_tail : yields.
Lemma y_wal_open o : Y (λ wr, wal_in wr.1) (Wal.open d o).
Proof.
  unfold Wal.open. eapply yields_bind; [auto with yields|]. intros r _.
  apply (yields_bind _ any); [solve_yields|]. intros _ _.
  eapply yields_bind; [auto with yields|]. cbn beta. intros segs _.
  apply (yields_bind _ seg_in); [|intros s Hs; apply yields_ret; done].
  destruct (last segs) as [[i ?]|]; [auto with yields|]. eapply yields_bind; [auto with yields|]. cbn beta. intros s Hs.
  eapply yields_bind; [auto with yields|]. intros _ _. by apply yields_ret.
Qed.

Lemma wal_in_active w a : wal_in w → seg_in a → wal_in (Wal.set_active a w).
Proof. intros [Hd _] Ha. by split. Qed.
Lemma y_active {A} Q (m : M (Segment.Segment * S) StorageError A) :
  yields (both seg_in I) Q m → yields (both wal_in I) Q (zoom Wal.active Wal.set_active m).
Proof. apply yields_zoom; [by intros w []|]. intros w a. apply wal_in_active. Qed.
Hint Resolve y_active : yields.
Lemma y_get_wal : yields (E:=StorageError) (both wal_in I) (λ w, wal_in w ∧ Wal.dir w = d) get_fst.
Proof. eapply yields_weaken; [|apply yields_get_fst]. by intros w []. Qed.
Lemma y_set_active a : seg_in a → yields (E:=StorageError) (both wal_in I) any (mod_fst (Wal.set_active a)).
Proof. intros Ha. apply yields_mod_fst. intros w Hw. by apply wal_in_active. Qed.
Lemma y_maybe_rotate : yields (both wal_in I) any Wal.maybe_rotate.
Proof.
  unfold Wal.maybe_rotate. eapply yields_bind; [apply y_get_wal|]. cbn beta. intros w [Hw ->].
  pose proof y_set_active. case_decide; [by apply yields_ret|]. solve_yields.
Qed.
Hint Resolve y_maybe_rotate : yields.
Lemma y_wal_reset : yields (both wal_in I) any Wal.reset.
Proof.
  unfold Wal.reset. eapply yields_bind; [apply y_get_wal|]. cbn beta. intros w [Hw ->].
  eapply yields_bind; [auto with yields|]. cbn beta. intros segs Hsegs. pose proof y_set_active.
  eapply yields_bind; [auto with yields|]. cbn beta. intros fresh Hfresh. eapply yields_bind; [auto with yields|]. intros _ _.
  eapply yields_bind; [apply yields_on_snd; eapply yields_for_each; [exact Hsegs|intros ip Hip; by apply y_delete]|].
  intros _ _. solve_yields.
Qed.
Lemma y_write_batch b : yields (both wal_in I) any (Wal.write_batch b).
Proof.
  unfold Wal.write_batch. eapply yields_bind; [|intros; solve_yields].
  apply (yields_for_each _ any); [by apply Forall_true|]. auto with yields.
Qed.
Lemma y_wal_append p : yields (both wal_in I) any (Wal.append p).
Proof.
  unfold Wal.append. eapply yields_bind; [apply y_get_wal|]. intros w _. destruct (Wal.durability w).
  - unfold Wal.commit_sync_now. solve_yields.
  - unfold Wal.commit_group. eapply yields_bind; [apply y_get_wal|]. intros w' _. unfold Wal.enqueue, Wal.take_batch.
    eapply yields_bind; [by apply yields_mod_fst|]. intros _ _. case_decide; [by apply yields_ret|]. case_match; [apply yields_panic|].
    eapply yields_bind; [by apply yields_mod_fst|]. intros _ _. eapply yields_attempt; [apply y_write_batch|..].
    + intros a _. eapply yields_bind; [by apply yields_mod_fst|]. intros _ _. by apply yields_ret.
    + by intros e [].
  - unfold Wal.commit_buffered. solve_yields.
Qed.

(** ** Tables *)

Definition builder_in (b : SsTable.SsTableBuilder) : Prop := child (SsTable.b_path b).
Definition handle_ok (h : SsTable.BlockHandle) : Prop := 0 ≤ SsTable.h_offset h ∧ 0 ≤ SsTable.h_len h.
Definition reader_in (r : SsTable.SsTableReader) : Prop :=
  child (SsTable.r_path r) ∧ Forall handle_ok (SsTable.r_index r).

Lemma y_builder_new p n bits : child p → Y builder_in (SsTable.builder_new p n bits).
Proof. intros Hp. unfold SsTable.builder_new. eapply yields_bind; [auto with yields|]. intros _ _. by apply yields_ret. Qed.
Lemma y_get_builder : yields (E:=SsTableError) (both builder_in I) builder_in get_fst.
Proof. apply yields_get_fst. Qed.
Hint Unfold builder_in : core.
Lemma y_builder_append b bytes : builder_in b → yields (both builder_in I) any (on_snd (map_err Storage (fs_append (SsTable.b_path b) bytes))).
Proof. intros Hb. apply yields_on_snd, yields_map_err. by apply y_append. Qed.
Hint Resolve y_get_builder y_builder_append : yields.
Lemma y_seal_block : yields (both builder_in I) any SsTable.seal_block.
Proof. unfold SsTable.seal_block. solve_yields. Qed.
Hint Resolve y_seal_block : yields.
Lemma y_add k q v : yields (both builder_in I) any (SsTable.add k q v).
Proof.
  unfold SsTable.add. eapply yields_bind; [auto with yields|]. intros b Hb. eapply yields_bind; [apply yields_guard|]. intros _ _.
  apply (yields_bind _ any); [case_decide; auto with yields|]. intros _ _. solve_yields.
Qed.
Lemma y_put_section b n : yields (both builder_in I) any (SsTable.put_section b n).
Proof. unfold SsTable.put_section. solve_yields. Qed.
Hint Resolve y_put_section : yields.
Lemma y_finish : yields (both builder_in I) any SsTable.finish.
Proof.
  unfold SsTable.finish. eapply yields_bind; [auto with yields|]. intros _ _.
  eapply yields_bind; [apply y_get_builder|]. cbn beta. intros b _.
  eapply yields_bind; [auto with yields|]. intros _ _. eapply yields_bind; [auto with yields|]. cbn beta. intros b' Hb.
  eapply yields_bind; [auto with yields|]. intros _ _. eapply yields_bind; [auto with yields|]. intros _ _.
  eapply yields_bind; [apply yields_on_snd, yields_map_err, y_sync_file, Hb|]. intros _ _. solve_yields.
Qed.

(** *** Reading *)

Lemma yields_any {X E A} (m : M X E A) : yields any any m.
Proof. done. Qed.
Lemma y_cur_u32 : yields any (λ z, 0 ≤ z) cur_u32.
Proof. unfold cur_u32. eapply yields_bind; [apply yields_any|]. intros b _. apply yields_ret, of_le_range. Qed.
Lemma y_cur_u64 : yields any (λ z, 0 ≤ z) cur_u64.
Proof. unfold cur_u64. eapply yields_bind; [apply yields_any|]. intros b _. apply yields_ret, of_le_range. Qed.
Hint Resolve y_cur_u32 y_cur_u64 yields_any : yields.
Lemma decode_index_handles buf hs : SsTable.decode_index buf = Ok hs → Forall handle_ok hs.
Proof.
  unfold SsTable.decode_index. destruct (slice _ _ _) as [body| |]; [|done..]. cbn [mbind outcome_bind].
  match goal with |- (?m _).1 = _ → _ => enough (Hy : yields any (Forall handle_ok) m) by
    (destruct (m (cursor_new body)) as [r c] eqn:E1; cbn; intros ->; by destruct (Hy _ _ _ Logic.I E1)) end.
  eapply yields_bind; [apply y_cur_u32|]. intros count _. apply yields_repeat. unfold SsTable.decode_handle.
  eapply yields_bind; [apply y_cur_u32|]. intros kl _. eapply yields_bind; [apply yields_any|]. intros k _.
  eapply yields_bind; [apply y_cur_u64|]. cbn beta. intros o Ho. eapply yields_bind; [apply y_cur_u32|]. intros n Hn. by apply yields_ret.
Qed.

Lemma y_read_exact p o n : child p → 0 ≤ o → 0 ≤ n → Y any (SsTable.read_exact p o n).
Proof.
  intros. unfold SsTable.read_exact. eapply yields_bind; [by apply yields_map_err, (al_read d I HI)|]. intros b _. solve_yields.
Qed.
Lemma y_run_cursor {E A} Q (m : M Cursor E A) c :
  yields any Q m → yields (E:=E) I Q (of_outcome (m c).1).
Proof.
  intros Hm. eapply yields_weaken; [|apply yields_of_outcome]. cbn beta. intros a E1. destruct (m c) as [r c'] eqn:E2. cbn in E1. subst r.
  by destruct (Hm _ _ _ Logic.I E2).
Qed.
Lemma y_footer footer :
  Y (λ '(io, il, bo, bl, n), 0 ≤ io ∧ 0 ≤ il ∧ 0 ≤ bo ∧ 0 ≤ bl) (of_outcome ((
    magic ← cur_u64;
    _ ← guard_err (bool_decide (magic ≠ SsFormat.FOOTER_MAGIC)) (SsFormat.Corrupt FooterMagic);
    version ← cur_u32;
    _ ← guard_err (bool_decide (version ≠ FORMAT_VERSION)) (SsFormat.Corrupt (UnsupportedVersion version));
    index_off ← cur_u64; index_len ← cur_u32; bloom_off ← cur_u64; bloom_len ← cur_u32; num_entries ← cur_u64;
    mret (index_off, index_len, bloom_off, bloom_len, num_entries)) (cursor_new footer)).1).
Proof.
  apply y_run_cursor. do 4 (eapply yields_bind; [apply yields_any|]; intros ? _).
  eapply yields_bind; [apply y_cur_u64|]. cbn beta. intros io Hio. eapply yields_bind; [apply y_cur_u32|]. cbn beta. intros il Hil.
  eapply yields_bind; [apply y_cur_u64|]. cbn beta. intros bo Hbo. eapply yields_bind; [apply y_cur_u32|]. cbn beta. intros bl Hbl.
  eapply yields_bind; [apply yields_any|]. intros n _. by apply yields_ret.
Qed.
Lemma y_reader_open p : child p → Y reader_in (SsTable.reader_open p).
Proof.
  intros Hp. unfold SsTable.reader_open. eapply yields_bind; [auto with yields|]. cbn beta. intros len Hlen.
  eapply yields_bind; [apply yields_guard|]. cbn beta. intros _ Hg%bool_decide_eq_false.
  eapply yields_bind; [apply y_read_exact; [done|lia|done]|]. intros footer _. eapply yields_bind; [apply yields_of_outcome|]. intros _ _.
  eapply yields_bind; [apply y_footer|].
  intros [[[[io il] bo] bl] n] (Hio & Hil & Hbo & Hbl).
  do 2 (eapply yields_bind; [apply yields_of_outcome|]; intros ? _).
  eapply yields_bind; [by apply y_read_exact|]. intros ib _. eapply yields_bind; [apply yields_of_outcome|]. intros _ _.
  eapply yields_bind; [apply yields_of_outcome|]. cbn beta. intros hs Hhs%decode_index_handles.
  eapply yields_bind; [by apply y_read_exact|]. intros bb _.
  do 3 (eapply yields_bind; [apply yields_of_outcome|]; intros ? _). by apply yields_ret.
Qed.
Lemma y_load_block r i : reader_in r → Y any (SsTable.load_block r i).
Proof.
  intros [Hp Hh]. unfold SsTable.load_block. eapply yields_bind; [apply yields_expect|]. cbn beta. intros h Hi.
  eapply Forall_lookup_1 in Hh as [? ?]; [|exact Hi]. eapply yields_bind; [by apply y_read_exact|]. intros raw _.
  do 2 (eapply yields_bind; [apply yields_of_outcome|]; intros ? _). eapply yields_weaken; [|apply yields_of_outcome]. done.
Qed.
Hint Resolve y_reader_open y_load_block : yields.
Lemma y_table_get r k : reader_in r → Y any (SsTable.get r k).
Proof.
  intros Hr. unfold SsTable.get. eapply yields_bind; [apply yields_of_outcome|]. intros present _. solve_yields.
Qed.
Lemma y_entries r : reader_in r → Y any (SsTable.entries r).
Proof.
  intros Hr. assert (Hn : ∀ n, yields (both any I) any (SsTable.iter_next n r)).
  { induction n as [|n IH]; simpl; [apply yields_panic|]. eapply yields_bind; [apply (yields_get_fst any)|]. intros it _.
    case_match; [eapply yields_bind; [by apply (yields_mod_fst any)|]; intros _ _; by apply yields_ret|]. case_decide; [by apply yields_ret|]. eapply yields_attempt; [by apply (yields_on_snd any), y_load_block|..].
    - intros es _. eapply yields_bind; [by apply (yields_mod_fst any)|]. intros _ _. apply IH.
    - by intros e []. }
  assert (Hd : ∀ n, yields (both any I) any (SsTable.drain n r)).
  { induction n as [|n IH]; cbn [SsTable.drain]; [apply yields_panic|]. eapply yields_bind; [apply Hn|]. intros [e|] _; [|by apply yields_ret].
    eapply yields_bind; [apply IH|]. intros es _. by apply yields_ret. }
  by apply (yields_with_local any).
Qed.
Hint Resolve y_table_get y_entries : yields.

(** ** Compaction and the manifest *)

Definition mf_in (mf : Manifest) : Prop := Manifest.dir mf = d.

Lemma table_child i : child (table_path d i).
Proof. apply is_child_join. Qed.
Hint Resolve table_child : yields.
Lemma y_write_table p i n es : child p → Y any (Compaction.write_table p i n es).
Proof.
  intros Hp. unfold Compaction.write_table. eapply yields_bind; [by apply yields_map_err, y_builder_new|]. cbn beta. intros b Hb.
  apply (yields_with_local builder_in); [done|]. eapply (yields_bind _ any).
  - apply (yields_fold_m _ any any); [by apply Forall_true|done|]. intros [[f l] c] [k v] _ _. unfold Compaction.write_entry.
    eapply yields_bind; [apply yields_map_err, y_add|]. intros _ _. by apply yields_ret.
  - intros [[[f|] l] c] _; [|by apply yields_ret]. eapply yields_bind; [apply yields_map_err, y_finish|]. intros _ _. by apply yields_ret.
Qed.
Lemma y_open_inputs metas acc : Y any (fold_m metas acc (Compaction.open_input d)).
Proof.
  apply (yields_fold_m _ any any); [by apply Forall_true|done|]. intros [n srcs] meta _ _. unfold Compaction.open_input, Compaction.read_all_entries.
  eapply yields_bind; [apply yields_map_err, y_reader_open, table_child|]. cbn beta. intros r Hr.
  apply (yields_bind _ any); [|intros; by apply yields_ret]. solve_yields.
Qed.
Lemma y_write_manifest v : Y any (write_manifest d v).
Proof. unfold write_manifest. solve_yields. Qed.
Hint Resolve y_write_table y_open_inputs y_write_manifest : yields.
Lemma y_manifest_open : Y mf_in (Manifest.open d).
Proof.
  unfold Manifest.open. eapply (yields_bind _ any).
  { by apply yields_keeps, keeps_attempt, (al_open d I HI), is_child_join. }
  intros opened _. apply (yields_bind _ any); [|intros c _; by apply yields_ret].
  destruct opened; [|solve_yields]. eapply yields_bind; [apply yields_map_err, y_len, is_child_join|]. cbn beta. intros n Hn.
  eapply yields_bind; [by apply yields_map_err, (al_read d I HI); [apply is_child_join|..]|]. intros b _.
  eapply yields_weaken; [|apply yields_of_outcome]. done.
Qed.
Lemma y_get_mf {E} : yields (E:=E) (both mf_in I) (λ mf, Manifest.dir mf = d) get_fst.
Proof. apply yields_get_fst. Qed.
Lemma y_gc : yields (both mf_in I) any gc.
Proof.
  unfold gc. eapply yields_bind; [by apply yields_mod_fst|]. intros _ _. eapply yields_bind; [apply y_get_mf|]. cbn beta. intros mf ->.
  eapply yields_bind; [by apply yields_on_snd, yields_map_err, y_list|]. cbn beta. intros ps Hps.
  apply (yields_bind _ any); [|intros; solve_yields]. apply yields_on_snd. unfold gc_loop.
  eapply yields_fold_m; [exact Hps|done|]. cbn beta. intros b p _ Hp. solve_yields.
Qed.
Lemma y_install v : yields (both mf_in I) any (install v).
Proof.
  unfold install. eapply yields_bind; [apply y_get_mf|]. cbn beta. intros mf ->. eapply yields_bind; [auto with yields|]. intros _ _.
  eapply yields_bind; [by apply yields_mod_fst|]. intros _ _. apply y_gc.
Qed.
Hint Resolve y_install : yields.
Lemma y_compact_tier v t : yields (both mf_in I) any (Compaction.compact_tier v t).
Proof.
  unfold Compaction.compact_tier. eapply yields_bind; [apply y_get_mf|]. cbn beta. intros mf ->.
  eapply yields_bind; [apply yields_expect|]. intros inputs _. eapply yields_bind; [apply yields_on_snd, y_open_inputs|].
  intros [n srcs] _. eapply yields_bind; [apply yields_of_outcome|]. intros merged _.
  eapply yields_bind; [by apply yields_on_snd, y_write_table, table_child|]. intros out _. auto with yields.
Qed.
Lemma y_with_current {E A} (f : Version → M (Manifest * S) E A) :
  (∀ v, yields (both mf_in I) any (f v)) → yields (both mf_in I) any (with_current f).
Proof.
  intros Hf [mf s] a x [Hmf Hs]. unfold with_current. destruct (f _ _) as [r [mf1 s1]] eqn:E1. intros [= -> <-].
  assert (Hx : both mf_in I (pin (arc_id (current mf)) mf, s)) by done. by destruct (Hf _ _ _ _ Hx E1) as [[? ?] _].
Qed.
Lemma y_maybe_compact n : yields (both mf_in I) any (Compaction.maybe_compact n).
Proof.
  apply y_with_current. intros v. case_match; [|by apply yields_ret].
  eapply yields_bind; [apply y_compact_tier|]. intros _ _. by apply yields_ret.
Qed.

(** ** The engine *)

Record db_in (db : Db.Db) : Prop := {
  di_dir : Db.dir db = d;
  di_wal : wal_in (Db.wal db);
  di_mf : mf_in (Db.manifest db);
  di_readers i r : Db.readers db !! i = Some r → reader_in r;
}.

Lemma db_in_wal db w : db_in db → wal_in w → db_in (Db.set_wal w db).
Proof. by intros [] Hw. Qed.
Lemma db_in_mf db mf : db_in db → mf_in mf → db_in (Db.set_manifest mf db).
Proof. by intros [] Hmf. Qed.
Lemma db_in_memtables db mt : db_in db → db_in (Db.set_memtables mt db).
Proof. by intros []. Qed.
Lemma db_in_write db f : db_in db → db_in (Db.mod_write f db).
Proof. by intros []. Qed.
Lemma db_in_reader db i r : db_in db → reader_in r → db_in (Db.set_readers (<[i := r]> (Db.readers db)) db).
Proof.
  intros [] Hr. split; try done. intros j r'. cbn. destruct (decide (i = j)) as [->|].
  - by rewrite lookup_insert_eq; intros [= <-].
  - rewrite lookup_insert_ne by done. apply di_readers0.
Qed.
Hint Resolve db_in_memtables db_in_write : yields.

Abbreviation YD := (yields (both db_in I)).
Lemma y_get_db {E} : yields (E:=E) (both db_in I) (λ db, db_in db ∧ Db.dir db = d) get_fst.
Proof. eapply yields_weaken; [|apply yields_get_fst]. by intros db []. Qed.
Lemma y_zoom_wal {A} Q (m : M (Wal.Wal * S) Db.DbError A) : yields (both wal_in I) Q m → YD Q (zoom Db.wal Db.set_wal m).
Proof. apply yields_zoom; [by intros db []|]. intros db w. apply db_in_wal. Qed.
Lemma y_zoom_mf {A} Q (m : M (Manifest * S) Db.DbError A) : yields (both mf_in I) Q m → YD Q (zoom Db.manifest Db.set_manifest m).
Proof. apply yields_zoom; [by intros db []|]. intros db mf. apply db_in_mf. Qed.
Lemma y_with_version {A} (f : Version → M (Db.Db * S) Db.DbError A) : (∀ v, YD any (f v)) → YD any (Db.with_version f).
Proof.
  intros Hf [db s] a x [Hdb Hs]. unfold Db.with_version. destruct (f _ _) as [r [db1 s1]] eqn:E1. intros [= -> <-].
  apply Hf in E1 as [[Hdb1 Hs1] _]; [|split; [|done]; apply db_in_mf; [done|]; apply (di_mf _ Hdb)].
  split; [|done]. split; [|done]. apply db_in_mf; [done|]. apply (di_mf _ Hdb1).
Qed.
Hint Resolve y_zoom_wal y_zoom_mf : yields.
Lemma y_open_on o : Y db_in (Db.open_on d o).
Proof.
  unfold Db.open_on. eapply yields_bind; [apply yields_map_err, y_manifest_open|]. cbn beta. intros mf Hmf.
  eapply yields_bind; [apply yields_map_err, y_wal_open|]. cbn beta. intros [w rec] Hw.
  apply (yields_bind _ any); [|intros [q mt] _; by apply yields_ret].
  apply (yields_fold_m _ any any); [by apply Forall_true|done|]. intros [q mt] r _ _. unfold Db.replay_record.
  eapply yields_bind; [apply yields_of_outcome|]. intros rec' _. by apply yields_ret.
Qed.
Lemma y_reader_for meta : YD reader_in (Db.reader_for meta).
Proof.
  unfold Db.reader_for. eapply yields_bind; [apply y_get_db|]. cbn beta. intros db [Hdb ->].
  destruct (Db.readers db !! id meta) as [r|] eqn:Hr; [apply yields_ret; by eapply di_readers|].
  eapply yields_bind; [apply yields_on_snd, yields_map_err, y_reader_open, table_child|]. cbn beta. intros r' Hr'.
  eapply yields_bind; [apply yields_mod_fst; intros db' Hdb'; by apply db_in_reader|]. intros _ _. by apply yields_ret.
Qed.
Hint Resolve y_reader_for : yields.
Lemma y_get_tables k metas : YD any (Db.get_tables k metas).
Proof.
  induction metas as [|meta metas IH]; cbn [Db.get_tables]; [by apply yields_ret|]. case_match; [done|].
  eapply yields_bind; [apply y_reader_for|]. cbn beta. intros r Hr.
  eapply yields_bind; [by apply yields_on_snd, yields_map_err, y_table_get|]. intros [e|] _; [by apply yields_ret|done].
Qed.
Lemma y_db_get k : YD any (Db.get k).
Proof.
  unfold Db.get. eapply yields_bind; [apply y_get_db|]. intros db _. case_match; [by apply yields_ret|].
  apply y_with_version. intros v. apply y_get_tables.
Qed.
Lemma y_scan r : YD any (Db.scan r).
Proof.
  unfold Db.scan. eapply yields_bind; [apply y_get_db|]. intros db _. eapply yields_bind; [apply yields_of_outcome|]. intros srcs _.
  eapply (yields_bind _ any); [|intros; by apply yields_ret]. apply y_with_version. intros v.
  apply (yields_fold_m _ any any); [by apply Forall_true|done|]. intros l meta _ _. unfold Db.scan_table.
  eapply yields_bind; [apply y_reader_for|]. cbn beta. intros rd Hrd.
  eapply yields_bind; [by apply yields_on_snd, yields_map_err, y_entries|]. intros es _. by apply yields_ret.
Qed.
Lemma y_flush_frozen q f : YD any (Db.flush_frozen q f).
Proof.
  apply y_with_version. intros v. eapply yields_bind; [apply y_get_db|]. cbn beta. intros db [_ ->].
  eapply yields_bind; [by apply yields_on_snd, yields_map_err, y_write_table, table_child|]. intros table _.
  apply (yields_bind _ any); [|intros _ _; auto with yields].
  destruct table; [|by apply yields_ret]. apply y_zoom_mf, yields_map_err, y_install.
Qed.
Lemma y_compact_all n fanout : YD any (Db.compact_all n fanout).
Proof.
  induction n as [|n IH]; cbn [Db.compact_all]; [apply yields_panic|].
  eapply yields_bind; [apply y_zoom_mf, yields_map_err, y_maybe_compact|]. intros again _. case_match; [done|by apply yields_ret].
Qed.
Lemma y_flush_quiesced : YD any Db.flush_quiesced.
Proof.
  unfold Db.flush_quiesced. eapply yields_bind; [apply yields_mod_fst; intros db Hdb; case_decide; auto with yields|]. intros _ _.
  eapply yields_bind; [apply y_get_db|]. intros db _.
  eapply yields_bind; [apply (yields_for_each _ any); [by apply Forall_true|intros; apply y_flush_frozen]|]. intros _ _.
  eapply yields_bind; [apply y_zoom_wal, yields_map_err, y_wal_reset|]. intros _ _.
  eapply yields_bind; [apply y_get_db|]. intros db' _. apply y_compact_all.
Qed.
Lemma y_flush_locked : YD any Db.flush_locked.
Proof.
  unfold Db.flush_locked. eapply yields_bind; [apply yields_mod_fst; auto with yields|]. intros _ _.
  eapply yields_bind; [apply y_get_db|]. intros db _. case_decide; [apply yields_panic|].
  eapply yields_attempt; [apply y_flush_quiesced|..].
  - intros a _. eapply yields_bind; [apply yields_mod_fst; auto with yields|]. intros _ _. by apply yields_ret.
  - by intros e [].
Qed.
Lemma y_write k kd : YD any (Db.write k kd).
Proof.
  unfold Db.write. eapply yields_bind; [apply y_get_db|]. intros db _. case_match; [apply yields_panic|].
  eapply yields_bind; [apply yields_mod_fst; auto with yields|]. intros _ _.
  eapply yields_attempt; [apply y_zoom_wal, yields_map_err, y_wal_append|..].
  - intros a _. eapply yields_bind; [apply yields_mod_fst; auto with yields|]. intros _ _.
    eapply yields_bind; [apply yields_mod_fst; auto with yields|]. intros _ _.
    eapply yields_bind; [apply y_get_db|]. intros db' _. case_match; [apply y_flush_locked|by apply yields_ret].
  - by intros e [].
Qed.
Lemma y_run_op p : YD any (DbRefine.run_op p).
Proof.
  destruct p; unfold DbRefine.run_op, Db.put, Db.delete, Db.flush.
  - eapply yields_bind; [apply y_write|]. intros _ _. by apply yields_ret.
  - eapply yields_bind; [apply y_write|]. intros _ _. by apply yields_ret.
  - eapply yields_bind; [apply y_db_get|]. intros v _. by apply yields_ret.
  - eapply yields_bind; [apply y_scan|]. intros it _. eapply yields_bind; [apply yields_of_outcome|]. intros l _. by apply yields_ret.
  - eapply yields_bind; [apply y_flush_locked|]. intros _ _. by apply yields_ret.
Qed.
End components.

(** * Opening *)

(** [Db::open(dir, options)] and [Db::open_sim(dir, seed, options)]. *)
Definition open `{!Crc32, !Xxh3} (dir_len : path → Z) (d : path) (o : Db.Options) : M RealFs.OsState Db.DbError Db.Db :=
  _ ← map_err (λ e, Db.Storage (Io d (RealFs.io_to_string e))) (RealFs.os_create_dir_all d);
  Db.open_on (H1:=RealFs.real_storage dir_len) d o.
Definition open_sim `{!Crc32, !Xxh3} {R} `{!Rng R} (d : path) (seed : Z) (o : Db.Options)
    : outcome Db.DbError Db.Db * SimFs.SimState R :=
  Db.open_on d o (SimFs.with_seed seed).

(** * The engine on the operating system *)

Section system.
Context {CRC : Crc32} {CRCL : Crc32Laws} {XXH : Xxh3} (dir_len : path → Z).
Implicit Types (d : path) (s : RealFs.OsState) (kv : gmap bytes bytes).
#[local] Instance OS : Storage.Storage RealFs.OsState := RealFs.real_storage dir_len.

(** The open engine [db] over the directory [d] of the system stands for [kv]. *)
Definition os_rep d o kv u db s : Prop :=
  db_in d db ∧ ∃ m, os_holds d s m ∧ mem_rep d o kv u db m.

(** A run on the abstract backend, of code known to stay in [d], is one on the system. *)
Lemma on_system {A} d (f1 : M RealFs.OsState Db.DbError A) (f2 : M Watched Db.DbError A) f3 Q s m a m' :
  msim (st_view (StorageSim:=os_watched d dir_len)) f1 f2 → msim (st_view (StorageSim:=watched_spec d)) f2 f3 →
  yields (λ w, confined w = true) Q f2 → os_holds d s m → f3 m = (Ok a, m') →
  ∃ s', f1 s = (Ok a, s') ∧ os_holds d s' m' ∧ Q a.
Proof.
  intros H1 H2 Hy Hs Hr.
  destruct (carried _ _ f1 f2 f3 _ Q s (mkWatched m true) m a m' H1 H2 Hy) as (s' & w & E1 & [Hw _] & Hm & _ & HQ);
    [by intros y1 y2 Hc; unfold dead, os_watched_deaths; rewrite Hc|by split|exact eq_refl|done|exact Hr|].
  change (seen_files w = m') in Hm. subst m'. by exists s'.
Qed.
Lemma on_system_db {A} d (f1 : M (Db.Db * RealFs.OsState) Db.DbError A) (f2 : M (Db.Db * Watched) Db.DbError A) f3 db s m a db' m' :
  msim (with_same (st_view (StorageSim:=os_watched d dir_len))) f1 f2 →
  msim (with_same (st_view (StorageSim:=watched_spec d))) f2 f3 →
  yields (both (db_in d) (λ w, confined w = true)) any f2 → db_in d db → os_holds d s m → f3 (db, m) = (Ok a, (db', m')) →
  ∃ s', f1 (db, s) = (Ok a, (db', s')) ∧ os_holds d s' m' ∧ db_in d db'.
Proof.
  intros H1 H2 Hy Hdb Hs Hr.
  destruct (carried _ _ f1 f2 f3 _ any (db, s) (db, mkWatched m true) (db, m) a (db', m') H1 H2 Hy)
    as ([db1 s'] & [db2 w] & E1 & [E2 [Hw _]] & [E3 Hm] & [Hin _] & _);
    [by intros y1 y2 [_ Hc]; unfold dead, deaths_pair, dead, os_watched_deaths; rewrite Hc
      |split; [done|by split]|split; [done|exact eq_refl]|by split|exact Hr|].
  cbn in E2, E3. change (seen_files w = m') in Hm. subst db1 db2 m'. by exists s'.
Qed.

Lemma os_run_op d o kv u db s p :
  os_rep d o kv u db s → op_ok p → u + op_cost p ≤ 2 ^ 30 →
  ∃ db' s', run_op p (db, s) = (Ok (spec_step kv p).1, (db', s')) ∧ os_rep d o (spec_step kv p).2 (u + op_cost p) db' s'.
Proof.
  intros (Hin & m & Hs & Hrep) Hok Hu. destruct (run_op_mem d o kv u db m p Hrep Hok Hu) as (db' & m' & Hr & Hrep').
  destruct (on_system_db d (run_op p) (run_op (H1:=watched_storage d) p) (run_op p) db s m (spec_step kv p).1 db' m') as (s' & E1 & Hs' & Hin');
    [apply run_op_sim|apply run_op_sim|apply (y_run_op d (λ w, confined w = true) (watched_allows d))|done..|].
  exists db', s'. split; [done|]. split; [done|]. by exists m'.
Qed.
Lemma os_run_ops d o kv u db s ops :
  os_rep d o kv u db s → Forall op_ok ops → u + total_cost ops ≤ 2 ^ 30 →
  ∃ db' s', run_ops ops (db, s) = (Ok (spec_run kv ops).1, (db', s')) ∧
    os_rep d o (spec_run kv ops).2 (u + total_cost ops) db' s'.
Proof.
  revert kv u db s. induction ops as [|p ops IH]; intros kv u db s Hrep Hok Hu; cbn [total_cost foldr] in *.
  { exists db, s. by rewrite Z.add_0_r. }
  apply Forall_cons in Hok as [Hp Hok]. pose proof (total_cost_nonneg ops) as Hn. unfold total_cost in Hn.
  destruct (os_run_op d o kv u db s p Hrep Hp) as (db1 & s1 & H1 & Hrep1); [lia|].
  destruct (IH (spec_step kv p).2 (u + op_cost p) db1 s1 Hrep1 Hok) as (db2 & s2 & H2 & Hrep2); [unfold total_cost; lia|].
  exists db2, s2. cbn [run_ops spec_run]. destruct (spec_step kv p) as [r kv1]. cbn [fst snd] in *.
  destruct (spec_run kv1 ops) as [rs kv2]. cbn [fst snd] in *.
  split; [|by rewrite Z.add_assoc]. erewrite bind_ok by exact H1. by erewrite bind_ok by exact H2.
Qed.
Lemma os_open_on d o s m db m' :
  os_holds d s m → Db.open_on d o m = (Ok db, m') →
  ∃ s', Db.open_on d o s = (Ok db, s') ∧ os_holds d s' m' ∧ db_in d db.
Proof.
  intros Hs Ho. apply (on_system d _ (Db.open_on (H1:=watched_storage d) d o) (Db.open_on d o) (db_in d) s m db m');
    [apply open_on_sim|apply open_on_sim|apply (y_open_on d (λ w, confined w = true) (watched_allows d))|done..].
Qed.

Lemma os_open_fresh d o s :
  Forall calm (RealFs.events s) → makeable (RealFs.nodes s) (reverse d) →
  (∀ p, is_child_of p d = true → RealFs.nodes s !! p = None) → 2 ≤ Db.tier_fanout o →
  ∃ db s', open dir_len d o s = (Ok db, s') ∧ os_rep d o ∅ 1 db s'.
Proof.
  intros Hc Hm Hn Hf. destruct (create_dir_all_fresh d s Hc Hm Hn) as (s1 & E1 & Hs1).
  destruct (open_on_fresh d ∅ o (fresh_empty d) Hf) as (db & m1 & c & Ho & Hi & Hv & Hd & Hop & Hp).
  destruct (os_open_on d o s1 ∅ db m1 Hs1 Ho) as (s2 & E2 & Hs2 & Hin). exists db, s2. split.
  { unfold open. by erewrite bind_ok by (apply map_err_ok; exact E1). }
  split; [done|]. exists m1. split; [done|]. by exists c, [].
Qed.
Lemma os_reopen d o o' kv u db s :
  os_rep d o kv u db s → 2 ≤ Db.tier_fanout o' →
  ∃ db' s', open dir_len d o' s = (Ok db', s') ∧ os_rep d o' kv u db' s'.
Proof.
  intros (_ & m & Hs & Hrep) Hf. destruct (reopen_mem d o o' kv u db m Hrep Hf) as (db' & m' & Ho & Hrep').
  destruct (create_dir_all_held d s m Hs) as (s1 & E1 & Hs1). destruct (os_open_on d o' s1 m db' m' Hs1 Ho) as (s2 & E2 & Hs2 & Hin).
  exists db', s2. split; [|split; [done|by exists m']].
  unfold open. by erewrite bind_ok by (apply map_err_ok; exact E1).
Qed.

(** C3: a database opened by path, in a directory that is made or is empty, answers any calls as an
    initially empty key-value map does while no system call fails, however the system splits and
    interrupts transfers; opened by path again, it stands for the map those calls left. *)
Theorem real_db_lifetime d o o' s (ops : list op) :
  Forall calm (RealFs.events s) → makeable (RealFs.nodes s) (reverse d) →
  (∀ p, is_child_of p d = true → RealFs.nodes s !! p = None) →
  2 ≤ Db.tier_fanout o → 2 ≤ Db.tier_fanout o' → Forall op_ok ops → 1 + total_cost ops ≤ 2 ^ 30 →
  ∃ db1 s1 db2 s2 db3 s3,
    open dir_len d o s = (Ok db1, s1) ∧
    run_ops ops (db1, s1) = (Ok (spec_run ∅ ops).1, (db2, s2)) ∧
    open dir_len d o' s2 = (Ok db3, s3) ∧
    os_rep d o' (spec_run ∅ ops).2 (1 + total_cost ops) db3 s3.
Proof.
  intros Hc Hm Hn Hf Hf' Hok Hu. destruct (os_open_fresh d o s Hc Hm Hn Hf) as (db1 & s1 & E1 & Hrep1).
  destruct (os_run_ops d o ∅ 1 db1 s1 ops Hrep1 Hok Hu) as (db2 & s2 & E2 & Hrep2).
  destruct (os_reopen d o o' _ _ db2 s2 Hrep2 Hf') as (db3 & s3 & E3 & Hrep3). by exists db1, s1, db2, s2, db3, s3.
Qed.
End system.

(** The directory is made two levels deep, and transfers are split and interrupted. *)
Definition patchy : RealFs.OsState :=
  RealFs.mkOs {[ [lit "/"] := RealFs.Dir ]}
    [RealFs.Go; RealFs.Go; RealFs.Short 2; RealFs.Interrupted; RealFs.Go; RealFs.Short 0; RealFs.Interrupted; RealFs.Short 1].

#[local] Existing Instance Sample.crc.
#[local] Existing Instance Sample.crc_laws.
#[local] Existing Instance Sample.xxh3.

Lemma real_db_lifetime_witness :
  let d := [lit "/"; lit "var"; lit "db"] in
  ∃ db1 s1 db2 s2 db3 s3,
    open (λ _, 4096) d sample_options patchy = (Ok db1, s1) ∧
    run_ops (H1:=RealFs.real_storage (λ _, 4096)) sample_ops (db1, s1) = (Ok (spec_run ∅ sample_ops).1, (db2, s2)) ∧
    open (λ _, 4096) d sample_options s2 = (Ok db3, s3) ∧
    os_rep d sample_options (spec_run ∅ sample_ops).2 (1 + total_cost sample_ops) db3 s3.
Proof.
  apply (real_db_lifetime (λ _, 4096) [lit "/"; lit "var"; lit "db"] sample_options sample_options patchy sample_ops).
  - by repeat constructor.
  - done.
  - intros p [n ->]%child_of_join. unfold patchy; cbn [RealFs.nodes]; by rewrite lookup_singleton_ne.
  - done.
  - done.
  - by repeat constructor.
  - by vm_compute.
Defined.

(** ** When the system cannot say whether a file exists *)

(** A key is written and flushed; the directory is opened again while the system has
    the events [es] in store, and the key looked up. *)
Definition looked_up_after (es : list RealFs.event) : option (list resp) :=
  let d := [lit "/"; lit "db"] in
  match open (λ _, 4096) d sample_options (RealFs.mkOs {[ [lit "/"] := RealFs.Dir ]} []) with
  | (Ok db, s) =>
      match run_ops (H1:=RealFs.real_storage (λ _, 4096)) [OpPut (lit "a") (lit "1"); OpFlush] (db, s) with
      | (Ok _, (_, s)) =>
          match open (λ _, 4096) d sample_options (RealFs.mkOs (RealFs.nodes s) es) with
          | (Ok db, s) =>
              match run_ops (H1:=RealFs.real_storage (λ _, 4096)) [OpGet (lit "a")] (db, s) with
              | (Ok rs, _) => Some rs
              | _ => None
              end
          | _ => None
          end
      | _ => None
      end
  | _ => None
  end.

(** Two failing [stat]s of the manifest make [Manifest::open] take it for absent: an
    empty one is written over it, opening succeeds, and the key is gone. *)
Theorem failed_stat_forgets_tables :
  looked_up_after [] = Some [Found (Some (lit "1"))] ∧
  ∀ e1 e2, looked_up_after [RealFs.Go; RealFs.Go; RealFs.Fault e1; RealFs.Fault e2] = Some [Found None].
Proof. split; [by vm_compute|]. intros e1 e2. by vm_compute. Qed.
End RealDb.
