(* ===== verification/Faults.v ===== *)
(** Storage that may fail: a total triple for code whose calls return or fail and
    never panic, what a failing call may leave behind, and how code on such a storage
    follows its run on the abstract backend until a call fails. *)
From S2P Require Export SimFsSpec.

Module Faults.

(** * A total triple *)

(** [wp f s Q F]: from [s], [f] returns with [Q] or fails with [F]; it does not
    panic. *)
Definition wp {S E A : Type} (f : M S E A) (s : S) (Q : A → S → Prop) (F : S → Prop) : Prop :=
  match f s with (Ok a, s') => Q a s' | (Err _, s') => F s' | (Panic, _) => False end.

Section wp.
Context {S E : Type}.

Lemma wp_mono {A : Type} (f : M S E A) s (Q Q' : A → S → Prop) (F F' : S → Prop) :
  wp f s Q F → (∀ a s', Q a s' → Q' a s') → (∀ s', F s' → F' s') → wp f s Q' F'.
Proof. unfold wp. intros Hf HQ HF. destruct (f s) as [[a|e|] s']; auto. Qed.
Lemma wp_ret {A : Type} (a : A) s (Q : A → S → Prop) (F : S → Prop) : Q a s → wp (E:=E) (mret a) s Q F.
Proof. done. Qed.
Lemma wp_err {A : Type} (e : E) s (Q : A → S → Prop) (F : S → Prop) : F s → wp (err e) s Q F.
Proof. done. Qed.
Lemma wp_bind {A B : Type} (f : M S E A) (k : A → M S E B) s (Q : B → S → Prop) (F : S → Prop) :
  wp f s (λ a s', wp (k a) s' Q F) F → wp (f ≫= k) s Q F.
Proof. unfold wp at 1 3. rewrite bind_run. by destruct (f s) as [[a|e|] s']. Qed.
Lemma wp_map_err {E' A : Type} (h : E → E') (f : M S E A) s (Q : A → S → Prop) (F : S → Prop) :
  wp f s Q F → wp (map_err h f) s Q F.
Proof. unfold wp, map_err. by destruct (f s) as [[a|e|] s']. Qed.
Lemma wp_attempt {E' A : Type} (f : M S E A) s (Q : A + E → S → Prop) (F : S → Prop) :
  wp f s (λ a s', Q (inl a) s') (λ s', ∀ e, Q (inr e) s') → wp (E:=E') (attempt f) s Q F.
Proof. unfold wp, attempt. destruct (f s) as [[a|e|] s']; auto. Qed.
(** Some invariant is kept whatever happens. *)
Lemma wp_calm {A : Type} (I : S → Prop) (R : A → Prop) (f : M S E A) s :
  calm I R f → I s → wp f s (λ a s', R a ∧ I s') I.
Proof. intros Hf Hs. destruct (Hf s Hs) as [H1 H2]. unfold wp. by destruct (f s) as [[a|e|] s']. Qed.
Lemma calm_wp {A : Type} (I : S → Prop) (R : A → Prop) (f : M S E A) :
  (∀ s, I s → wp f s (λ a s', R a ∧ I s') I) → calm I R f.
Proof. intros Hf s Hs. specialize (Hf s Hs). unfold wp in Hf. destruct (f s) as [[a|e|] s']; [destruct Hf|..]; done. Qed.
End wp.

Section local.
Context {T S E : Type}.

Lemma wp_on_snd {A : Type} (f : M S E A) (t : T) s (Q : A → T * S → Prop) (F : T * S → Prop) :
  wp f s (λ a s', Q a (t, s')) (λ s', F (t, s')) → wp (on_snd f) (t, s) Q F.
Proof. unfold wp, on_snd. by destruct (f s) as [[a|e|] s']. Qed.
Lemma wp_zoom {U A : Type} (get : T → U) set (f : M (U * S) E A) t s (Q : A → T * S → Prop) (F : T * S → Prop) :
  wp f (get t, s) (λ a x, Q a (set x.1 t, x.2)) (λ x, F (set x.1 t, x.2)) → wp (zoom get set f) (t, s) Q F.
Proof. unfold wp, zoom. by destruct (f (get t, s)) as [[a|e|] [u s']]. Qed.
Lemma wp_with_local {A : Type} (t : T) (f : M (T * S) E A) s (Q : A → S → Prop) (F : S → Prop) :
  wp f (t, s) (λ a x, Q a x.2) (λ x, F x.2) → wp (with_local t f) s Q F.
Proof. unfold wp, with_local. by destruct (f (t, s)) as [[a|e|] [u s']]. Qed.
Lemma wp_get_fst (t : T) (s : S) (Q : T → T * S → Prop) (F : T * S → Prop) : Q t (t, s) → wp (E:=E) get_fst (t, s) Q F.
Proof. done. Qed.
Lemma wp_mod_fst (f : T → T) (t : T) (s : S) (Q : () → T * S → Prop) (F : T * S → Prop) :
  Q () (f t, s) → wp (E:=E) (mod_fst f) (t, s) Q F.
Proof. done. Qed.
End local.

(** ** An invariant kept whatever happens, over code on a part *)

Section parts.
Context {T S E : Type} (F : T → Prop) (I : S → Prop).
(** A structure that satisfies [F], next to a storage that satisfies [I]. *)
Abbreviation within F I := (λ x, F x.1 ∧ I x.2).
Lemma calm_on_snd {A : Type} (Q : A → Prop) (f : M S E A) : calm I Q f → calm (within F I) Q (on_snd f).
Proof. intros Hf [t s] [Ht Hs]. unfold on_snd. destruct (Hf s Hs) as [H1 H2]. cbn in *. destruct (f s) as [r s']. by split. Qed.
Lemma calm_get_fst : calm (E:=E) (within F I) F get_fst.
Proof. by intros [t s] [Ht Hs]. Qed.
Lemma calm_mod_fst (f : T → T) : (∀ t, F t → F (f t)) → calm (E:=E) (within F I) any (mod_fst f).
Proof. intros Hf [t s] [Ht Hs]. split; [|done]. split; [by apply Hf|done]. Qed.
Lemma calm_zoom {U A : Type} (G : U → Prop) (Q : A → Prop) (get : T → U) set (f : M (U * S) E A) :
  (∀ t, F t → G (get t)) → (∀ t u, F t → G u → F (set u t)) → calm (within G I) Q f → calm (within F I) Q (zoom get set f).
Proof.
  intros H1 H2 Hf [t s] [Ht Hs]. unfold zoom. cbn in Ht, Hs. destruct (Hf (get t, s)) as [[H3 H4] H5]; [by split; [apply H1|]|].
  destruct (f (get t, s)) as [r [u s']]. split; [|done]. by split; [apply H2|].
Qed.
End parts.
Section loops.
Context {S E : Type} (I : S → Prop).
Lemma calm_for_each {A : Type} (P : A → Prop) (l : list A) (f : A → M S E ()) :
  Forall P l → (∀ a, P a → calm I any (f a)) → calm I any (for_each l f).
Proof.
  intros Hl Hf. induction Hl as [|a l Ha Hl IH]; cbn [for_each]; [by apply calm_ret|].
  apply (calm_bind _ any); [by apply Hf|done].
Qed.
Lemma calm_fold_m {A B : Type} (P : A → Prop) (Q : B → Prop) (l : list A) (acc : B) (f : B → A → M S E B) :
  Forall P l → Q acc → (∀ b a, Q b → P a → calm I Q (f b a)) → calm I Q (fold_m l acc f).
Proof.
  intros Hl Hacc Hf. revert acc Hacc. induction Hl as [|a l Ha Hl IH]; intros acc Hacc; cbn [fold_m]; [by apply calm_ret|].
  eapply calm_bind; [by apply Hf|done].
Qed.
End loops.

(** * Following the abstract run *)

(** Where the abstract run [g] returns, [f] returns the same, or fails; a failure
    drifts from where the run began by [D] at most, and so does the run. *)
Definition tracks {S1 S2 E A : Type} (R : S1 → S2 → Prop) (D : S2 → S2 → Prop) (f : M S1 E A) (g : M S2 E A) : Prop :=
  ∀ s m a m', R s m → g m = (Ok a, m') →
    wp f s (λ b s', b = a ∧ R s' m' ∧ D m m') (λ s', ∃ m1, R s' m1 ∧ D m m1).

(** The drift of a state that carries a structure is that of its storage. *)
Definition on_second {T S : Type} (D : S → S → Prop) (x y : T * S) : Prop := D x.2 y.2.
#[export] Instance on_second_preorder {T S : Type} (D : S → S → Prop) `{!PreOrder D} : PreOrder (on_second (T:=T) D).
Proof. split; [intros [t s]|intros [? s1] [? s2] [? s3]]; unfold on_second; cbn; [done|intros; by etrans]. Qed.

Section tracks.
Context {S1 S2 : Type} (R : S1 → S2 → Prop) (D : S2 → S2 → Prop) `{!PreOrder D}.

Lemma tracks_ret {E A : Type} (a : A) : tracks (E:=E) R D (mret a) (mret a).
Proof. intros s m b m' Hs [= <- <-]. by apply wp_ret. Qed.
Lemma tracks_err {E A : Type} (f : M S1 E A) (e : E) : tracks R D f (err e).
Proof. intros s m b m' Hs [=]. Qed.
Lemma tracks_panic {E A : Type} (f : M S1 E A) : tracks R D f panic.
Proof. intros s m b m' Hs [=]. Qed.
Lemma tracks_of_outcome {E A : Type} (r : outcome E A) : tracks R D (of_outcome r) (of_outcome r).
Proof. intros s m b m' Hs [= -> <-]. by apply wp_ret. Qed.
Lemma tracks_expect {E A : Type} (o : option A) : tracks (E:=E) R D (expect o) (expect o).
Proof. destruct o; [apply tracks_ret|apply tracks_panic]. Qed.
Lemma tracks_guard {E : Type} (b : bool) (e : E) : tracks R D (guard_err b e) (guard_err b e).
Proof. destruct b; [apply tracks_err|apply tracks_ret]. Qed.
(** A continuation may use what the abstract run says of the value. *)
Lemma tracks_bind_ok {E A B : Type} (Q : A → Prop) (f : M S1 E A) (g : M S2 E A) (k : A → M S1 E B) (h : A → M S2 E B) :
  (∀ m a m', g m = (Ok a, m') → Q a) → tracks R D f g → (∀ a, Q a → tracks R D (k a) (h a)) → tracks R D (f ≫= k) (g ≫= h).
Proof.
  intros HQ Hf Hk s m b m' Hs (a & m1 & E1 & E2)%bind_ok_inv. apply wp_bind.
  eapply wp_mono; [by eapply Hf| |done]. cbn beta. intros a' s1 (-> & Hs1 & Hd).
  eapply wp_mono; [by eapply (Hk a (HQ _ _ _ E1))| |]; cbn beta.
  - intros b' s2 (-> & Hs2 & Hd2). split_and!; [done|done|by etrans].
  - intros s2 (m2 & Hs2 & Hd2). exists m2. split; [done|by etrans].
Qed.
Lemma tracks_bind {E A B : Type} (f : M S1 E A) (g : M S2 E A) (k : A → M S1 E B) (h : A → M S2 E B) :
  tracks R D f g → (∀ a, tracks R D (k a) (h a)) → tracks R D (f ≫= k) (g ≫= h).
Proof.
  intros Hf Hk. apply (tracks_bind_ok any); auto.
Qed.
Lemma tracks_map_err {E E' A : Type} (h : E → E') (f : M S1 E A) (g : M S2 E A) :
  tracks R D f g → tracks R D (map_err h f) (map_err h g).
Proof. intros Hf s m a m' Hs Hg%map_err_ok_inv. apply wp_map_err. by eapply Hf. Qed.
(** A failure turned into a value that never becomes one of the whole. *)
Lemma tracks_attempt {E E' A B : Type} (f : M S1 E A) (g : M S2 E A) (k : A + E → M S1 E' B) (h : A + E → M S2 E' B) :
  tracks R D f g → (∀ a, tracks R D (k (inl a)) (h (inl a))) →
  (∀ e m b m', h (inr e) m ≠ (Ok b, m')) →
  (∀ e s m, R s m → wp (k (inr e)) s (λ _ _, False) (λ s', ∃ m1, R s' m1 ∧ D m m1)) →
  tracks R D (attempt f ≫= k) (attempt g ≫= h).
Proof.
  intros Hf Hk Hh Herr s m b m' Hs. rewrite bind_run. unfold attempt at 1.
  destruct (g m) as [[a|e|] m1] eqn:E1; [|by intros ?%Hh|done]. intros E2. apply wp_bind, wp_attempt.
  eapply wp_mono; [by eapply Hf|..]; cbn beta.
  - intros a' s1 (-> & Hs1 & Hd). eapply wp_mono; [by eapply Hk| |]; cbn beta.
    + intros b' s2 (-> & Hs2 & Hd2). split_and!; [done|done|by etrans].
    + intros s2 (m2 & Hs2 & Hd2). exists m2. split; [done|by etrans].
  - intros s1 (m2 & Hs1 & Hd) e. eapply wp_mono; [by eapply Herr|done|]. cbn beta.
    intros s2 (m3 & Hs2 & Hd2). exists m3. split; [done|by etrans].
Qed.
Lemma tracks_fold_m {E A B : Type} (l : list A) (acc : B) (f : B → A → M S1 E B) (g : B → A → M S2 E B) :
  (∀ b a, tracks R D (f b a) (g b a)) → tracks R D (fold_m l acc f) (fold_m l acc g).
Proof.
  intros Hf. revert acc. induction l as [|a l IH]; intros acc; cbn [fold_m]; [apply tracks_ret|].
  apply tracks_bind; [apply Hf|]. intros b. apply IH.
Qed.

(** Both sides hold the same structure, and it satisfies [F]. *)
Definition held {T : Type} (F : T → Prop) (x : T * S1) (y : T * S2) : Prop := x.1 = y.1 ∧ F x.1 ∧ R x.2 y.2.

Section held.
Context {T : Type} (F : T → Prop).
Abbreviation T2 := (tracks (held F) (on_second D)).

Lemma tracks_on_snd {E A : Type} (f : M S1 E A) (g : M S2 E A) : tracks R D f g → T2 (on_snd f) (on_snd g).
Proof.
  intros Hf [t s] [t' m] a [t1 m'] (Ht & HF & Hs) Hg. cbn in Ht, HF, Hs. subst t'. unfold on_snd in Hg.
  destruct (g m) as [r m2] eqn:E1. injection Hg as -> -> ->. apply wp_on_snd.
  eapply wp_mono; [by eapply Hf| |]; cbn beta.
  - intros b s' (-> & Hs' & Hd). done.
  - intros s' (m1 & Hs' & Hd). by exists (t1, m1).
Qed.
Lemma tracks_get_fst {E B : Type} (k : T → M (T * S1) E B) (h : T → M (T * S2) E B) :
  (∀ t, F t → T2 (k t) (h t)) → T2 (get_fst ≫= k) (get_fst ≫= h).
Proof. intros Hk [t s] [t' m] b x (Ht & HF & Hs). cbn in Ht, HF, Hs. subst t'. by apply (Hk t HF (t, s) (t, m)). Qed.
Lemma tracks_mod_fst {E : Type} (h : T → T) : (∀ t, F t → F (h t)) → T2 (mod_fst (E:=E) h) (mod_fst (E:=E) h).
Proof.
  intros HF [t s] [t' m] a x (Ht & Hh & Hs) [= <- <-]. cbn in Ht, Hh, Hs. subst t'. apply wp_mod_fst.
  split_and!; [done|split_and!; [done|by apply HF|done]|]. unfold on_second. cbn. reflexivity.
Qed.
Lemma tracks_with_local {E A : Type} (t : T) (f : M (T * S1) E A) (g : M (T * S2) E A) :
  F t → T2 f g → tracks R D (with_local t f) (with_local t g).
Proof.
  intros HF Hf s m a m' Hs Hg. unfold with_local in Hg. destruct (g (t, m)) as [r [t1 m2]] eqn:E1. injection Hg as -> ->.
  apply wp_with_local. eapply wp_mono; [eapply (Hf (t, s) (t, m)); [done|exact E1]| |]; cbn beta.
  - intros b [t2 s'] (-> & (Ht & _ & Hs') & Hd). done.
  - intros [t2 s'] ([t3 m1] & (Ht & _ & Hs') & Hd). by exists m1.
Qed.
End held.
End tracks.

Create HintDb tracks discriminated.
#[export] Hint Resolve tracks_ret tracks_err tracks_panic tracks_of_outcome tracks_expect tracks_guard
  tracks_map_err tracks_on_snd : tracks.
#[export] Hint Extern 5 (tracks _ _ (mod_fst _) _) => simple apply tracks_mod_fst; intros : tracks.

(** [solve_tracks] walks code that both sides share. *)
Ltac solve_tracks :=
  repeat first
    [ progress intros
    | assumption
    | solve [eauto 4 with tracks typeclass_instances]
    | simple apply tracks_get_fst
    | simple apply tracks_bind
    | apply tracks_map_err | apply tracks_fold_m
    | apply tracks_on_snd
    | apply tracks_mod_fst
    | case_match ].

(** * A storage whose calls may fail *)

#[export] Instance outside_preorder P : PreOrder (outside P).
Proof. split; [done|]. intros m1 m2 m3 H1 H2 p Hp. by rewrite H2, H1. Qed.
Lemma outside_mono (P Q : path → Prop) m1 m2 : (∀ p, P p → Q p) → outside P m1 m2 → outside Q m1 m2.
Proof. intros HPQ H p Hp. apply H. by intros ?%HPQ. Qed.
(** No file at all. *)
Definition nowhere (p : path) : Prop := False.
Lemma outside_nowhere m1 m2 : outside nowhere m1 m2 → m2 = m1.
Proof. intros H. apply map_eq. intros p. apply H. by intros []. Qed.

(** [lapses R P f g]: [f] does what [g] does, or fails, having changed the files [P]
    at most. *)
Definition lapses {S E A : Type} (R : S → memfs → Prop) (P : path → Prop) (f : M S E A) (g : M memfs E A) : Prop :=
  ∀ s m, R s m → wp f s
    (λ a s', ∃ m', R s' m' ∧ outside P m m' ∧ ∀ b m2, g m = (Ok b, m2) → b = a ∧ m2 = m')
    (λ s', ∃ m', R s' m' ∧ outside P m m').

(** [shows s m]: the directory [d] of the storage holds the files [m].  Every call
    answers as on [m] or fails; what a failing call left is in its own files. *)
Class Faulty (S : Type) `{!Storage S} (d : path) := {
  shows : S → memfs → Prop;
  ft_create p : is_child_of p d = true → lapses shows (eq p) (fs_create p) (fs_create p);
  (* nothing is created over a file *)
  ft_create_new p s m : is_child_of p d = true → shows s m → is_Some (m !! p) →
    wp (fs_create p) s (λ _ _, False) (λ s', ∃ m', shows s' m' ∧ outside (eq p) m m');
  ft_append p b : is_child_of p d = true → lapses shows (eq p) (fs_append p b) (fs_append p b);
  ft_read_at p o n : is_child_of p d = true → 0 ≤ o → 0 ≤ n → lapses shows nowhere (fs_read_at p o n) (fs_read_at p o n);
  ft_sync_file p : is_child_of p d = true → lapses shows nowhere (fs_sync_file p) (fs_sync_file p);
  ft_sync_dir : lapses shows nowhere (fs_sync_dir d) (fs_sync_dir d);
  ft_rename p q : is_child_of p d = true → is_child_of q d = true →
    lapses shows (λ x, x = p ∨ x = q) (fs_rename p q) (fs_rename p q);
  ft_delete p : is_child_of p d = true → lapses shows (eq p) (fs_delete p) (fs_delete p);
  (* a listing may miss files *)
  ft_list s m : shows s m →
    wp (fs_list d) s (λ ps s', shows s' m ∧ Forall (λ p, is_child_of p d = true) ps) (λ s', shows s' m);
  ft_len p : is_child_of p d = true → lapses shows nowhere (fs_len p) (fs_len p);
}.

(** The files [P] may have changed since [m0]. *)
Definition touching {S : Type} (R : S → memfs → Prop) (P : path → Prop) (m0 : memfs) (s : S) : Prop :=
  ∃ m, R s m ∧ outside P m0 m.

Section lapses.
Context {S : Type} (R : S → memfs → Prop).

Lemma lapses_tracks {E A : Type} P Q (f : M S E A) g : (∀ p, P p → Q p) → lapses R P f g → tracks R (outside Q) f g.
Proof.
  intros HPQ Hf s m a m' Hs Hg. eapply wp_mono; [by apply (Hf s m)|..]; cbn beta.
  - intros b s' (m1 & Hs' & Ho & Hb). destruct (Hb a m' Hg) as [-> ->]. split_and!; [done|done|by eapply outside_mono].
  - intros s' (m1 & Hs' & Ho). exists m1. split; [done|by eapply outside_mono].
Qed.
Lemma lapses_calm {E A : Type} P Q m0 (f : M S E A) g : (∀ p, P p → Q p) → lapses R P f g → calm (touching R Q m0) any f.
Proof.
  intros HPQ Hf s (m & Hs & Hm). specialize (Hf s m Hs). unfold wp in Hf. destruct (f s) as [[a|e|] s']; [..|done].
  - destruct Hf as (m' & Hs' & Ho & _). split; [|done]. exists m'. split; [done|]. etrans; [done|by eapply outside_mono].
  - destruct Hf as (m' & Hs' & Ho). split; [|done]. exists m'. split; [done|]. etrans; [done|by eapply outside_mono].
Qed.
End lapses.

Section faulty.
Context {S : Type} {ST : Storage S} (d : path) {FT : Faulty S d}.
Abbreviation child p := (is_child_of p d = true).

(** ** Calls along the abstract run *)

Lemma track_create P p : child p → P p → tracks shows (outside P) (fs_create p) (fs_create p).
Proof. intros Hp HP. eapply lapses_tracks; [|by apply ft_create]. by intros q <-. Qed.
Lemma track_append P p b : child p → P p → tracks shows (outside P) (fs_append p b) (fs_append p b).
Proof. intros Hp HP. eapply lapses_tracks; [|by apply ft_append]. by intros q <-. Qed.
Lemma track_read_at P p o n : child p → 0 ≤ o → 0 ≤ n → tracks shows (outside P) (fs_read_at p o n) (fs_read_at p o n).
Proof. intros Hp Ho Hn. eapply lapses_tracks; [|by apply ft_read_at]. by intros q []. Qed.
Lemma track_sync_file P p : child p → tracks shows (outside P) (fs_sync_file p) (fs_sync_file p).
Proof. intros Hp. eapply lapses_tracks; [|by apply ft_sync_file]. by intros q []. Qed.
Lemma track_len P p : child p → tracks shows (outside P) (fs_len p) (fs_len p).
Proof. intros Hp. eapply lapses_tracks; [|by apply ft_len]. by intros q []. Qed.

(** ** Calls whatever happens *)

Section touch.
Context (P : path → Prop) (m0 : memfs).
Abbreviation I := (touching shows P m0).
Lemma touch_create p : child p → P p → calm I any (fs_create p).
Proof. intros Hp HP. eapply lapses_calm; [|by apply ft_create]. by intros q <-. Qed.
Lemma touch_append p b : child p → P p → calm I any (fs_append p b).
Proof. intros Hp HP. eapply lapses_calm; [|by apply ft_append]. by intros q <-. Qed.
Lemma touch_sync_file p : child p → calm I any (fs_sync_file p).
Proof. intros Hp. eapply lapses_calm; [|by apply ft_sync_file]. by intros q []. Qed.
Lemma touch_sync_dir : calm I any (fs_sync_dir d).
Proof. eapply lapses_calm; [|apply ft_sync_dir]. by intros q []. Qed.
Lemma touch_rename p q : child p → child q → P p → P q → calm I any (fs_rename p q).
Proof. intros Hp Hq HP HQ. eapply lapses_calm; [|by apply ft_rename]. by intros x [->| ->]. Qed.
Lemma touch_delete p : child p → P p → calm I any (fs_delete p).
Proof. intros Hp HP. eapply lapses_calm; [|by apply ft_delete]. by intros q <-. Qed.
Lemma touch_list : calm I (Forall (λ p, child p)) (fs_list d).
Proof.
  intros s (m & Hs & Hm). pose proof (ft_list s m Hs) as Hl. unfold wp in Hl. destruct (fs_list d s) as [[ps|e|] s']; [..|done].
  - destruct Hl. split; [|done]. by exists m.
  - split; [|done]. by exists m.
Qed.
End touch.
End faulty.
End Faults.
