(* ===== verification/RealFaults.v ===== *)
(** The operating-system backend is a storage whose calls may fail: whatever events the
    system has in store, a call answers as the abstract file system does or fails, and
    leaves every other file of the directory alone. *)
From Stdlib Require Import Strings.String.
From S2P Require Export Faults RealFsSpec.

Module RealFaults.
Import RealFs RealFsSpec Faults.

(** The directory [d] of the system holds the files [m] and nothing else. *)
Record os_shows (d : path) (s : OsState) (m : memfs) : Prop := {
  os_dir : nodes s !! d = Some Dir;
  os_files p : is_child_of p d = true → nodes s !! p = File <$> m !! p;
  os_in p : is_Some (m !! p) → is_child_of p d = true;
}.

Section faults.
Context (dir_len : path → Z) (d : path).
Abbreviation child p := (is_child_of p d = true).
Abbreviation shows := (os_shows d).
Implicit Types (s : OsState) (p q : path) (m : memfs) (b data : bytes).

Lemma shows_nodes s s' m : nodes s' = nodes s → shows s m → shows s' m.
Proof. intros E []. split; rewrite ?E; done. Qed.
Lemma shows_insert s s' m p b : child p → nodes s' = <[p := File b]> (nodes s) → shows s m → shows s' (<[p := b]> m).
Proof.
  intros Hp E []. split; rewrite ?E; [|intros q Hq|intros q Hq].
  - rewrite lookup_insert_ne; [done|by apply child_not_self].
  - destruct (decide (p = q)) as [->|]; [by rewrite !lookup_insert_eq|]. rewrite !lookup_insert_ne by done. by apply os_files0.
  - destruct (decide (p = q)) as [->|]; [done|]. rewrite lookup_insert_ne in Hq by done. by apply os_in0.
Qed.
Lemma shows_delete s s' m p : child p → nodes s' = base.delete p (nodes s) → shows s m → shows s' (base.delete p m).
Proof.
  intros Hp E []. split; rewrite ?E; [|intros q Hq|intros q Hq].
  - rewrite lookup_delete_ne; [done|by apply child_not_self].
  - destruct (decide (p = q)) as [->|]; [by rewrite !lookup_delete_eq|]. rewrite !lookup_delete_ne by done. by apply os_files0.
  - apply os_in0. destruct (decide (p = q)) as [->|]; [by rewrite lookup_delete_eq in Hq; destruct Hq|].
    by rewrite lookup_delete_ne in Hq.
Qed.
Lemma shows_file s m p b : shows s m → child p → m !! p = Some b → nodes s !! p = Some (File b).
Proof. intros [] Hp Hb. rewrite os_files0 by done. by rewrite Hb. Qed.
Lemma shows_none s m p : shows s m → child p → m !! p = None → nodes s !! p = None.
Proof. intros [] Hp Hb. rewrite os_files0 by done. by rewrite Hb. Qed.

(** ** System calls, whatever comes *)

Lemma wp_syscall {A : Type} (k : M OsState IoError A) s (Q : A → OsState → Prop) (F : OsState → Prop) :
  (∀ es, F (mkOs (nodes s) es)) → (∀ es, wp k (mkOs (nodes s) es) Q F) → wp (syscall k) s Q F.
Proof.
  intros HF Hk. unfold syscall. apply wp_bind. unfold next_event, wp at 1. destruct s as [f [|e es]]; cbn in *; [apply Hk|].
  destruct e; cbn; first [apply Hk|apply HF].
Qed.
Lemma wp_idle s : wp (E:=IoError) (syscall (mret ())) s (λ _ s', nodes s' = nodes s) (λ s', nodes s' = nodes s).
Proof. by apply wp_syscall. Qed.
Lemma wp_open_write s p b : nodes s !! p = Some (File b) →
  wp (os_open_write p) s (λ _ s', nodes s' = nodes s) (λ s', nodes s' = nodes s).
Proof. intros Hp. apply wp_syscall; [done|]. intros es. unfold os_file, wp. cbn [nodes]. by rewrite Hp. Qed.
Lemma wp_file_len s p b : nodes s !! p = Some (File b) →
  wp (os_file_len p) s (λ n s', n = blen b ∧ nodes s' = nodes s) (λ s', nodes s' = nodes s).
Proof. intros Hp. apply wp_syscall; [done|]. intros es. unfold os_file, wp. cbn [nodes]. by rewrite Hp. Qed.
Lemma wp_stat {E : Type} test s p :
  wp (E:=E) (os_stat test p) s (λ _ s', nodes s' = nodes s) (λ _, False).
Proof.
  unfold os_stat. apply wp_bind, wp_attempt. apply wp_syscall; [done|]. intros es. unfold wp. cbn [nodes].
  by destruct (nodes s !! p).
Qed.

Lemma wp_write p data s b off : data ≠ [] → nodes s !! p = Some (File b) →
  match os_write p off data s with
  | (Ok n, s') => 0 < n ≤ blen data ∧ (length (events s') ≤ length (events s))%nat ∧
      nodes s' = <[p := File (splice b off (take (Z.to_nat n) data))]> (nodes s)
  | (Err KindInterrupted, s') => (length (events s') < length (events s))%nat ∧ nodes s' = nodes s
  | (Err _, s') => nodes s' = nodes s
  | (Panic, _) => False
  end.
Proof.
  intros Hd Hp. assert (Hpos : 0 < blen data) by (destruct data; [done|rewrite blen_cons; pose proof (blen_nonneg data); lia]).
  assert (Hfile : ∀ n es, 0 < n ≤ blen data →
    os_file p (λ b, _ ← put_file p (splice b off (take (Z.to_nat n) data)); mret n) (mkOs (nodes s) es) =
    (Ok n, mkOs (<[p := File (splice b off (take (Z.to_nat n) data))]> (nodes s)) es)).
  { intros n es Hn. unfold os_file. cbn [nodes]. by rewrite Hp. }
  unfold os_write, next_event. rewrite bind_run. destruct s as [f [|e es]]; cbn in *.
  - rewrite Hfile by lia. cbn. split_and!; [lia|lia|lia|done].
  - destruct e as [|k| |msg]; cbn; try done.
    + rewrite Hfile by lia. cbn. split_and!; [lia|lia|lia|done].
    + rewrite Hfile by lia. cbn. split_and!; [lia|lia|lia|done].
    + split; [lia|done].
Qed.
Lemma wp_write_all p fuel : ∀ data s b off,
  (length data + length (events s) < fuel)%nat → nodes s !! p = Some (File b) → 0 ≤ off ≤ blen b →
  wp (write_all fuel p off data) s
    (λ _ s', nodes s' = <[p := File (splice b off data)]> (nodes s)) (λ s', ∃ b', nodes s' = <[p := File b']> (nodes s)).
Proof.
  induction fuel as [|fuel IH]; intros data s b off Hf Hp Ho; [lia|]. unfold wp. cbn [write_all].
  assert (Hsame : nodes s = <[p := File b]> (nodes s)) by by rewrite insert_id.
  destruct (decide (data = [])) as [->|Hd].
  { rewrite Hsame at 1. f_equal. f_equal. unfold splice. simpl. rewrite Nat.add_0_r. symmetry. apply take_drop. }
  pose proof (wp_write p data s b off Hd Hp) as Hw. destruct (os_write p off data s) as [[n|e|] s1]; [| |done].
  - destruct Hw as (Hn & Hle & Hs1). set (b1 := splice b off (take (Z.to_nat n) data)) in *.
    pose proof (blen_splice b off (take (Z.to_nat n) data) Ho) as Hb1. fold b1 in Hb1.
    assert (Htk : blen (take (Z.to_nat n) data) = n) by (unfold blen in *; rewrite length_take; lia).
    eapply (wp_mono (write_all fuel p (off + n) (drop (Z.to_nat n) data)) s1).
    + apply (IH _ _ b1); [rewrite length_drop; unfold blen in *; lia|by rewrite Hs1, lookup_insert_eq|lia].
    + intros _ s' ->. rewrite Hs1, insert_insert_eq. unfold b1. by rewrite splice_step by lia.
    + intros s' [b' ->]. exists b'. by rewrite Hs1, insert_insert_eq.
  - destruct e; try (exists b; by rewrite Hw, <- Hsame).
    destruct Hw as [Hlt Hs1]. eapply (wp_mono (write_all fuel p off data) s1); [apply (IH _ _ b); [lia|by rewrite Hs1|done]|..];
      cbn beta; by rewrite Hs1.
Qed.
Lemma wp_os_write_all p data s b off : nodes s !! p = Some (File b) → 0 ≤ off ≤ blen b →
  wp (os_write_all p off data) s
    (λ _ s', nodes s' = <[p := File (splice b off data)]> (nodes s)) (λ s', ∃ b', nodes s' = <[p := File b']> (nodes s)).
Proof. intros Hp Ho. apply (wp_write_all p (write_fuel data s)); [unfold write_fuel; lia|done..]. Qed.

Lemma wp_read p s b off want : nodes s !! p = Some (File b) → 0 < want →
  match os_read p off want s with
  | (Ok got, s') => (length (events s') ≤ length (events s))%nat ∧ nodes s' = nodes s ∧
      ∃ n, 0 < n ≤ want ∧ got = read_bytes b off n
  | (Err KindInterrupted, s') => (length (events s') < length (events s))%nat ∧ nodes s' = nodes s
  | (Err _, s') => nodes s' = nodes s
  | (Panic, _) => False
  end.
Proof.
  intros Hp Hw. unfold os_read, next_event, os_file. rewrite bind_run. destruct s as [f [|e es]]; cbn in *.
  - rewrite Hp. cbn. split_and!; [lia|done|]. exists want. split; [lia|done].
  - destruct e as [|k| |msg]; cbn; rewrite ?Hp; cbn; try done.
    + split_and!; [lia|done|]. exists want. split; [lia|done].
    + split_and!; [lia|done|]. exists (Z.min want (Z.of_nat k + 1)). split; [lia|done].
    + split; [lia|done].
Qed.
Lemma wp_read_loop p b off n fuel : ∀ s i,
  (Z.to_nat (n - i) + length (events s) < fuel)%nat → nodes s !! p = Some (File b) →
  0 ≤ off → 0 ≤ i ≤ n → blen (read_bytes b off i) = i →
  wp (read_loop fuel p off n (read_bytes b off i)) s (λ got s', got = read_bytes b off n ∧ nodes s' = nodes s)
    (λ s', nodes s' = nodes s).
Proof.
  induction fuel as [|fuel IH]; intros s i Hf Hp Ho Hi Hl; [lia|]. unfold wp. cbn [read_loop]. rewrite Hl.
  destruct (decide (i < n)) as [Hlt|Hge]; [|split; [f_equal; lia|done]].
  pose proof (wp_read p s b (off + i) (n - i) Hp ltac:(lia)) as Hr.
  destruct (os_read p (off + i) (n - i) s) as [[got|e|] s1]; [..|done].
  - destruct Hr as (Hle & Hs1 & k & Hk & ->).
    pose proof (read_bytes_more b off i k Ho ltac:(lia) ltac:(lia) Hl) as Hmore.
    destruct (read_bytes b (off + i) k) as [|x got] eqn:Hgot.
    + split; [|done].
      assert (Hend : drop (Z.to_nat i) (drop (Z.to_nat off) b) = []).
      { rewrite drop_drop. unfold read_bytes in Hgot. replace (Z.to_nat (off + i)) with (Z.to_nat off + Z.to_nat i)%nat in Hgot by lia.
        destruct (drop _ b); [done|]. by destruct (Z.to_nat k) eqn:?; [lia|]. }
      unfold read_bytes. apply (f_equal length) in Hend. rewrite length_drop in Hend. simpl in Hend. by rewrite !firstn_all2 by lia.
    + rewrite <- Hgot. pose proof (read_bytes_short b (off + i) k) as Hs. set (j := blen (read_bytes b (off + i) k)) in *.
      assert (Hj : 0 < j ≤ k).
      { unfold j. split; [rewrite Hgot, blen_cons; pose proof (blen_nonneg got); lia|].
        unfold read_bytes, blen. rewrite length_take. lia. }
      rewrite <- Hs. rewrite read_bytes_more by (done || lia).
      eapply (wp_mono (read_loop fuel p off n (read_bytes b off (i + j))) s1); [apply IH; [lia|by rewrite Hs1|done|lia|]|..];
        cbn beta; rewrite ?Hs1; try done.
      rewrite <- read_bytes_more by (done || lia). rewrite blen_app, Hl, Hs. done.
  - destruct e; try done. destruct Hr as [Hlt1 Hs1].
    eapply (wp_mono (read_loop fuel p off n (read_bytes b off i)) s1); [apply IH; [lia|by rewrite Hs1|done..]|..];
      cbn beta; by rewrite Hs1.
Qed.

(** ** The calls of the backend *)

#[local] Instance realfs_storage : Storage OsState := real_storage dir_len.

(** A call that changes nothing and fails. *)
Lemma lapse_failed {A : Type} P s s' m (g : M memfs StorageError A) : shows s m → nodes s' = nodes s →
  ∃ m', shows s' m' ∧ outside P m m'.
Proof. intros Hs E. exists m. split; [by eapply (shows_nodes s)|done]. Qed.
Hint Resolve lapse_failed : core.
(** The tail of a call that found its file. *)
Ltac failed := cbn beta; intros; eexists; split; [by eapply shows_nodes; [|eassumption]|done].

Lemma real_create_lapses p : child p → lapses shows (eq p) (create p) (mem_create p).
Proof.
  intros Hp s m Hs. unfold create. apply wp_map_err, wp_syscall; [failed|]. intros es.
  unfold wp, os_parent, mem_create. cbn [nodes]. destruct (m !! p) as [b|] eqn:Hm.
  { rewrite (shows_file s m p b) by done. exists m. by split; [eapply (shows_nodes s)|]. }
  rewrite (shows_none s m p), (child_parent p d Hp) by done. cbn [mbind option_bind]. rewrite (os_dir _ _ _ Hs).
  exists (<[p := []]> m). split_and!; [by eapply (shows_insert s)|by apply outside_insert|by intros b m2 [= <- <-]].
Qed.
Lemma real_create_new p s m : child p → shows s m → is_Some (m !! p) →
  wp (create p) s (λ _ _, False) (λ s', ∃ m', shows s' m' ∧ outside (eq p) m m').
Proof.
  intros Hp Hs [b Hm]. unfold create. apply wp_map_err, wp_syscall; [failed|]. intros es.
  unfold wp. cbn [nodes]. rewrite (shows_file s m p b) by done. exists m. by split; [eapply (shows_nodes s)|].
Qed.
Lemma real_append_lapses p data : child p → lapses shows (eq p) (append p data) (mem_append p data).
Proof.
  intros Hp s m Hs. unfold append, mem_append, mem_file. destruct (m !! p) as [b|] eqn:Hm.
  2:{ apply wp_bind, wp_map_err, wp_syscall; [failed|]. intros es. unfold os_file, wp. cbn [nodes].
      rewrite (shows_none s m p) by done. failed. }
  pose proof (shows_file s m p b Hs Hp Hm) as Hn.
  apply wp_bind. eapply wp_mono; [by eapply wp_map_err, wp_open_write| |failed]. cbn beta. intros _ s1 E1.
  apply wp_bind. eapply wp_mono; [eapply wp_map_err, wp_file_len; by rewrite E1| |intros s2 E2; rewrite E1 in E2; failed].
  cbn beta. intros n s2 [-> E2]. rewrite E1 in E2.
  apply wp_bind. eapply wp_mono; [eapply wp_map_err, (wp_os_write_all p data s2 b); [by rewrite E2|pose proof (blen_nonneg b); lia]|..]; cbn beta.
  - intros _ s3 E3. rewrite E2 in E3. apply wp_ret. exists (<[p := b ++ data]> m).
    assert (Es : splice b (blen b) data = b ++ data).
    { unfold splice, blen. rewrite Nat2Z.id, firstn_all, drop_ge by lia. by rewrite app_nil_r. }
    rewrite Es in E3. split_and!; [by eapply (shows_insert s)|by apply outside_insert|by intros ? m2 [= <- <-]].
  - intros s3 [b' E3]. rewrite E2 in E3. exists (<[p := b']> m). split; [by eapply (shows_insert s)|by apply outside_insert].
Qed.
Lemma real_read_at_lapses p o n : child p → 0 ≤ o → 0 ≤ n → lapses shows nowhere (read_at p o n) (mem_read_at p o n).
Proof.
  intros Hp Ho Hn s m Hs. unfold read_at, mem_read_at, mem_file. destruct (m !! p) as [b|] eqn:Hm.
  2:{ apply wp_bind, wp_map_err, wp_syscall; [failed|]. intros es. unfold wp. cbn [nodes].
      rewrite (shows_none s m p) by done. failed. }
  pose proof (shows_file s m p b Hs Hp Hm) as Hf.
  apply wp_bind, wp_map_err, wp_syscall; [failed|]. intros es. unfold wp at 1. cbn [nodes]. rewrite Hf.
  apply wp_bind. eapply wp_mono; [apply wp_map_err, wp_idle|..]; cbn [nodes]; [|failed]. intros _ s1 E1.
  eapply wp_mono; [eapply (wp_read_loop p b o n _ s1 0); [lia|by rewrite E1|done|lia|done]|..]; cbn beta; rewrite E1; [|failed].
  intros got s2 [-> E2]. exists m. split_and!; [by eapply (shows_nodes s)|done|]. intros x m2.
  case_decide; [done|]. by intros [= <- <-].
Qed.
Lemma real_sync_file_lapses p : child p → lapses shows nowhere (sync_file p) (mem_sync_file p).
Proof.
  intros Hp s m Hs. unfold sync_file, mem_sync_file, mem_file. destruct (m !! p) as [b|] eqn:Hm.
  2:{ apply wp_bind, wp_map_err, wp_syscall; [failed|]. intros es. unfold os_file, wp. cbn [nodes].
      rewrite (shows_none s m p) by done. failed. }
  apply wp_bind. eapply wp_mono; [eapply wp_map_err, wp_open_write; by eapply shows_file| |failed]. cbn beta. intros _ s1 E1.
  eapply wp_mono; [apply wp_map_err, wp_idle|..]; cbn beta; rewrite E1; [|failed].
  intros [] s2 E2. exists m. split_and!; [by eapply (shows_nodes s)|done|by intros ? m2 [= <- <-]].
Qed.
Lemma real_sync_dir_lapses : lapses shows nowhere (sync_dir d) (mem_sync_dir d).
Proof.
  intros s m Hs. unfold sync_dir. apply wp_bind, wp_map_err, wp_syscall; [failed|]. intros es. unfold wp at 1. cbn [nodes].
  rewrite (os_dir _ _ _ Hs). eapply wp_mono; [apply wp_map_err, wp_idle|..]; cbn [nodes]; [|failed].
  intros [] s2 E2. exists m. split_and!; [by eapply (shows_nodes s)|done|by intros ? m2 [= <- <-]].
Qed.
Lemma real_rename_lapses p q : child p → child q → lapses shows (λ x, x = p ∨ x = q) (rename p q) (mem_rename p q).
Proof.
  intros Hp Hq s m Hs. unfold rename, mem_rename, mem_file. apply wp_map_err, wp_syscall; [failed|]. intros es.
  unfold wp, os_file, os_parent. cbn [nodes]. destruct (m !! p) as [b|] eqn:Hm.
  2:{ rewrite (shows_none s m p) by done. failed. }
  rewrite (shows_file s m p b), (child_parent q d Hq) by done. cbn [mbind option_bind nodes]. rewrite (os_dir _ _ _ Hs).
  assert (Hend : ∃ m', shows (os_set (if decide (p = q) then nodes s else base.delete p (<[q := File b]> (nodes s))) (mkOs (nodes s) es)) m' ∧
    outside (λ x, x = p ∨ x = q) m m' ∧
    ∀ (x : ()) m2, (Ok (E:=StorageError) (), if decide (p = q) then m else base.delete p (<[q:=b]> m)) = (Ok x, m2) → x = () ∧ m2 = m').
  { exists (if decide (p = q) then m else base.delete p (<[q:=b]> m)). split_and!; [| |by intros [] m2 [= <-]].
    - case_decide; [by eapply (shows_nodes s)|]. eapply (shows_delete (mkOs (<[q:=File b]> (nodes s)) es)); [done|reflexivity|].
      by eapply (shows_insert s (mkOs (<[q:=File b]> (nodes s)) es)).
    - case_decide; [done|]. apply outside_delete; [by left|]. apply outside_insert; [by right|done]. }
  pose proof (os_files _ _ _ Hs q Hq) as Hfq. rewrite Hfq. by destruct (m !! q).
Qed.
Lemma real_delete_lapses p : child p → lapses shows (eq p) (RealFs.delete p) (mem_delete p).
Proof.
  intros Hp s m Hs. unfold RealFs.delete, mem_delete, mem_file. apply wp_map_err, wp_syscall; [failed|]. intros es.
  unfold wp, os_file. cbn [nodes]. destruct (m !! p) as [b|] eqn:Hm.
  2:{ rewrite (shows_none s m p) by done. failed. }
  rewrite (shows_file s m p b) by done. exists (base.delete p m).
  split_and!; [by eapply (shows_delete s)|by apply outside_delete|by intros ? m2 [= <- <-]].
Qed.
Lemma real_len_lapses p : child p → lapses shows nowhere (len dir_len p) (mem_len p).
Proof.
  intros Hp s m Hs. unfold len, mem_len, mem_file. apply wp_map_err, wp_syscall; [failed|]. intros es.
  unfold wp. cbn [nodes]. destruct (m !! p) as [b|] eqn:Hm.
  2:{ rewrite (shows_none s m p) by done. failed. }
  rewrite (shows_file s m p b) by done. exists m. split_and!; [by eapply (shows_nodes s)|done|by intros ? m2 [= <- <-]].
Qed.
Lemma wp_list_loop entries out s : Forall (λ p, child p) entries → Forall (λ p, child p) out →
  wp (list_loop d entries out) s (λ ps s', nodes s' = nodes s ∧ Forall (λ p, child p) ps) (λ s', nodes s' = nodes s).
Proof.
  intros He. revert out s. induction He as [|p entries Hp He IH]; intros out s Ho; cbn [list_loop]; [done|].
  apply wp_bind. eapply wp_mono; [apply wp_map_err, wp_idle|..]; cbn beta; [|done]. intros _ s1 E1.
  apply wp_bind. eapply wp_mono; [apply wp_stat|..]; cbn beta; [|done]. intros is_file s2 E2. rewrite E1 in E2. rewrite <- E2.
  apply IH. destruct is_file; [|done]. apply Forall_app. split; [done|by constructor].
Qed.
Lemma real_list_faulty s m : shows s m →
  wp (list_dir d) s (λ ps s', shows s' m ∧ Forall (λ p, child p) ps) (λ s', shows s' m).
Proof.
  intros Hs. unfold list_dir. apply wp_bind, wp_map_err, wp_syscall; [intros; by eapply (shows_nodes s)|]. intros es.
  unfold wp at 1. cbn [nodes]. rewrite (os_dir _ _ _ Hs).
  apply wp_bind. eapply wp_mono; [apply wp_list_loop; [|done]|..]; cbn [nodes].
  - apply Forall_forall. by intros p [Hp _]%list_elem_of_filter.
  - intros ps s2 [E2 Hps]. apply wp_ret. split; [by eapply (shows_nodes s)|]. by rewrite merge_sort_Permutation.
  - intros s2 E2. by eapply (shows_nodes s).
Qed.

#[export] Instance real_faulty : Faulty OsState d := {|
  Faults.shows := shows;
  ft_create := real_create_lapses;
  ft_create_new := real_create_new;
  ft_append := real_append_lapses;
  ft_read_at := real_read_at_lapses;
  ft_sync_file := real_sync_file_lapses;
  ft_sync_dir := real_sync_dir_lapses;
  ft_rename := real_rename_lapses;
  ft_delete := real_delete_lapses;
  ft_list := real_list_faulty;
  ft_len := real_len_lapses;
|}.
End faults.
End RealFaults.
