(* ===== verification/FaultTables.v ===== *)
(** Tables on a storage whose calls may fail: writing one, reading one and merging a
    tier return what they return on the abstract backend, or fail; a failed write has
    touched the new table's file only, a failed read nothing. *)
From Stdlib Require Import Strings.String.
From S2P Require Export Faults RealDb.

Module FaultTables.
Import SsFormat Manifest SimSpec Confine RealDb Faults.

Section tables.
Context {CRC : Crc32} {XXH : Xxh3} {S : Type} {ST : Storage.Storage S} (d : path) {FT : Faulty S d}.
Context (P : path → Prop).
Abbreviation child p := (is_child_of p d = true).
Abbreviation T := (tracks shows (outside P)).
Abbreviation T2 F := (tracks (held shows F) (on_second (outside P))).

(** What the abstract backend's answers satisfy, inside the directory. *)
Lemma mem_allows : allows d (any : memfs → Prop).
Proof.
  split; intros; try done; try (intros m _; by split).
  - intros m ps m' _ [= <- <-]. split; [done|]. apply Forall_forall. by intros p [Hp _]%list_elem_of_filter.
  - intros m _. split; [done|]. cbn. unfold mem_len, mem_file. destruct (m !! p); [|done]. intros n [= <-]. apply blen_nonneg.
Qed.
(** The fact a component's lemma gives about a value returned. *)
Lemma returned {X E A : Type} (Q : A → Prop) (g : M X E A) : yields any Q g → ∀ m a m', g m = (Ok a, m') → Q a.
Proof. intros Hg m a m' E1. by destruct (Hg _ _ _ Logic.I E1). Qed.

(** ** Reading *)

Lemma t_read_exact p o n : child p → 0 ≤ o → 0 ≤ n → T (SsTable.read_exact p o n) (SsTable.read_exact p o n).
Proof. intros. unfold SsTable.read_exact. pose proof (track_read_at d P p o n). solve_tracks. Qed.
Lemma t_reader_open p : child p → T (SsTable.reader_open p) (SsTable.reader_open p).
Proof.
  intros Hp. unfold SsTable.reader_open.
  eapply tracks_bind; [apply _|apply tracks_map_err; by apply (track_len d)|]. intros n.
  eapply (tracks_bind_ok _ _ (λ _, bool_decide (n < SsTable.FOOTER_SIZE) = false)).
  { eapply returned, yields_guard. }
  { apply tracks_guard, _. }
  cbn beta. intros _ Hn%bool_decide_eq_false.
  eapply tracks_bind; [apply _|apply t_read_exact; [done|lia|done]|]. intros footer.
  eapply tracks_bind; [apply _|apply tracks_of_outcome, _|]. intros _.
  eapply (tracks_bind_ok _ _ (λ '(io, il, bo, bl, n), 0 ≤ io ∧ 0 ≤ il ∧ 0 ≤ bo ∧ 0 ≤ bl)).
  { eapply returned, (y_footer any). }
  { apply tracks_of_outcome, _. }
  intros [[[[io il] bo] bl] c] (Hio & Hil & Hbo & Hbl).
  do 2 (eapply tracks_bind; [apply _|apply tracks_of_outcome, _|]; intros _).
  pose proof t_read_exact. solve_tracks.
Qed.
Lemma t_load_block r i : reader_in d r → T (SsTable.load_block r i) (SsTable.load_block r i).
Proof.
  intros [Hp Hh]. unfold SsTable.load_block. eapply tracks_bind_ok; [apply _|eapply returned, yields_expect|apply tracks_expect, _|].
  cbn beta. intros h Hi. eapply Forall_lookup_1 in Hh as [? ?]; [|exact Hi]. pose proof t_read_exact. solve_tracks.
Qed.
Lemma t_get r k : reader_in d r → T (SsTable.get r k) (SsTable.get r k).
Proof. intros Hr. unfold SsTable.get. pose proof (t_load_block r). solve_tracks. Qed.
Lemma t_iter_next n r : reader_in d r → T2 any (SsTable.iter_next n r) (SsTable.iter_next n r).
Proof.
  intros Hr. induction n as [|n IH]; cbn [SsTable.iter_next]; [apply tracks_panic|].
  apply tracks_get_fst. intros it _.
  case_match; [solve_tracks|]. case_decide; [apply tracks_ret, _|].
  eapply tracks_attempt; [apply _|by apply tracks_on_snd, t_load_block|..].
  - intros es. solve_tracks.
  - by intros e [].
  - intros e [t s] [t' m] (Ht & _ & Hs). eexists (_, m). split; [by split|unfold on_second; cbn; reflexivity].
Qed.
Lemma t_entries r : reader_in d r → T (SsTable.entries r) (SsTable.entries r).
Proof.
  intros Hr. unfold SsTable.entries. apply (tracks_with_local _ _ any); [done|]. generalize (SsTable.drain_fuel r). intros n.
  induction n as [|n IH]; cbn [SsTable.drain]; [apply tracks_panic|].
  eapply tracks_bind; [apply _|by apply t_iter_next|]. solve_tracks.
Qed.
Lemma t_open_inputs metas acc :
  T (fold_m metas acc (Compaction.open_input d)) (fold_m metas acc (Compaction.open_input d)).
Proof.
  apply tracks_fold_m; [apply _|]. intros [n srcs] meta. unfold Compaction.open_input, Compaction.read_all_entries.
  eapply tracks_bind_ok; [apply _|eapply returned, yields_map_err, (y_reader_open d any mem_allows), is_child_join|
    apply tracks_map_err, t_reader_open, is_child_join|].
  cbn beta. intros r Hr. pose proof (t_entries r Hr). solve_tracks.
Qed.

(** ** Writing *)

Context (p : path) (Hp : child p) (HP : P p).
Definition builds (b : SsTable.SsTableBuilder) : Prop := SsTable.b_path b = p.

Lemma t_section {E : Type} (h : StorageError → E) b bytes : builds b →
  T (map_err h (fs_append (SsTable.b_path b) bytes)) (map_err h (fs_append (SsTable.b_path b) bytes)).
Proof. intros ->. by apply tracks_map_err, (track_append d). Qed.
Hint Resolve t_section : tracks.
Lemma t_seal_block : T2 builds SsTable.seal_block SsTable.seal_block.
Proof. unfold SsTable.seal_block. solve_tracks. Qed.
Hint Resolve t_seal_block : tracks.
Lemma t_add k q v : T2 builds (SsTable.add k q v) (SsTable.add k q v).
Proof. unfold SsTable.add. solve_tracks. Qed.
Lemma t_put_section b n : T2 builds (SsTable.put_section b n) (SsTable.put_section b n).
Proof. unfold SsTable.put_section. solve_tracks. Qed.
Hint Resolve t_add t_put_section : tracks.
Lemma t_finish : T2 builds SsTable.finish SsTable.finish.
Proof.
  assert (Hs : ∀ b, builds b → T (fs_sync_file (SsTable.b_path b)) (fs_sync_file (SsTable.b_path b))).
  { intros b ->. by apply (track_sync_file d). }
  unfold SsTable.finish. solve_tracks.
Qed.
Hint Resolve t_finish : tracks.
Lemma t_write_table i n es : T (Compaction.write_table p i n es) (Compaction.write_table p i n es).
Proof.
  unfold Compaction.write_table, SsTable.builder_new.
  eapply (tracks_bind_ok _ _ builds).
  { eapply returned. apply yields_map_err. eapply yields_bind; [apply yields_any|]. intros _ _. by apply yields_ret. }
  { apply tracks_map_err. eapply tracks_bind; [apply _|by apply tracks_map_err, (track_create d)|]. intros _. apply tracks_ret, _. }
  intros b Hb. apply (tracks_with_local _ _ builds); [done|]. unfold Compaction.write_entry. solve_tracks.
Qed.
Lemma t_compact_prepare v t : p = table_path d (next_table_id v) →
  T (CompactionSpec.compact_prepare d v t) (CompactionSpec.compact_prepare d v t).
Proof.
  intros E. unfold CompactionSpec.compact_prepare. rewrite <- E. pose proof t_open_inputs. pose proof t_write_table. solve_tracks.
Qed.
(** A table is never written over a file. *)
Lemma write_table_taken i n es s m : shows s m → is_Some (m !! p) →
  wp (Compaction.write_table p i n es) s (λ _ _, False) (λ s', ∃ m', shows s' m' ∧ outside P m m').
Proof.
  intros Hs Hm. unfold Compaction.write_table, SsTable.builder_new. apply wp_bind, wp_map_err, wp_bind, wp_map_err.
  eapply wp_mono; [by apply (ft_create_new p)|done|]. cbn beta. intros s' (m' & Hs' & Ho). exists m'.
  split; [done|]. eapply outside_mono; [|done]. by intros q <-.
Qed.
End tables.
End FaultTables.
