(* ===== verification/FaultLog.v ===== *)
(** The log and the manifest on a storage whose calls may fail: whatever happens, a log
    operation touches log files only, and an installation leaves the tables of the
    version that is current when it returns. *)
From Stdlib Require Import Strings.String.
From S2P Require Export FaultTables.

Module FaultLog.
Import SsFormat Manifest ManifestSpec Segment Recovery WalFrame SimSpec Confine Faults FaultTables.

Section parts.
Context {CRC : Crc32} {XXH : Xxh3} {S : Type} {ST : Storage.Storage S} (d : path) {FT : Faulty S d}.
Implicit Types (m : memfs) (p : path) (v : Version) (mf : Manifest.Manifest).

(** ** The log *)

Section log.
Context (m0 : memfs).
Abbreviation out := (touching shows (wal_file d) m0).
Definition at_segment (seg : Segment) : Prop := ∃ i, seg_path seg = segment_path d i.
(** The log is the one of [d], and nobody leads a batch. *)
Definition log_in (w : Wal.Wal) : Prop :=
  Wal.dir w = d ∧ at_segment (Wal.active w) ∧ Wal.leader_active (Wal.coord w) = false.

Lemma calm_list_segments : calm out (Forall (λ ip, is_child_of ip.2 d = true ∧ wal_file d ip.2)) (list_segments d).
Proof.
  unfold list_segments. eapply calm_bind; [apply touch_list|]. cbn beta. intros ps Hps. apply calm_ret.
  apply Forall_forall. intros ip Hip. rewrite merge_sort_Permutation, list_elem_of_omap in Hip.
  destruct Hip as (p & Hin & Hp). apply bind_Some in Hp as (id & Hid & [= <-]). rewrite Forall_forall in Hps.
  split; [by apply Hps|]. by left; eauto.
Qed.
Lemma calm_seg_create i : calm out at_segment (Segment.create d i).
Proof.
  unfold Segment.create. eapply calm_bind; [apply touch_create; [apply is_child_join|apply wal_file_segment]|].
  intros _ _. apply calm_ret. by exists i.
Qed.
Lemma calm_seg_append b : calm (both at_segment out) any (Segment.append b).
Proof.
  unfold Segment.append. eapply calm_bind; [apply calm_get_fst|]. cbn beta. intros seg [i Hi].
  apply (calm_bind _ any); [apply calm_on_snd; rewrite Hi; apply touch_append; [apply is_child_join|apply wal_file_segment]|].
  intros _ _. by apply calm_mod_fst.
Qed.
Lemma calm_seg_sync : calm (both at_segment out) any Segment.sync.
Proof.
  unfold Segment.sync. eapply calm_bind; [apply calm_get_fst|]. cbn beta. intros seg [i Hi].
  apply calm_on_snd. rewrite Hi. apply touch_sync_file, is_child_join.
Qed.

(** Under a fixed coordinator. *)
Definition log_at (c : Wal.Coord) (w : Wal.Wal) : Prop := Wal.dir w = d ∧ at_segment (Wal.active w) ∧ Wal.coord w = c.

Lemma calm_active {E A} c Q (f : M (Segment * S) E A) :
  calm (both at_segment out) Q f → calm (both (log_at c) out) Q (zoom Wal.active Wal.set_active f).
Proof. apply calm_zoom; [by intros w (? & ? & ?)|]. by intros w seg (? & ? & ?) ?. Qed.
Lemma calm_maybe_rotate c : calm (both (log_at c) out) any Wal.maybe_rotate.
Proof.
  unfold Wal.maybe_rotate. eapply calm_bind; [apply calm_get_fst|]. cbn beta. intros w (Hd & _ & _). rewrite Hd.
  case_decide; [by apply calm_ret|]. apply (calm_bind _ any); [apply calm_active, calm_seg_sync|]. intros _ _.
  eapply calm_bind; [apply calm_on_snd, calm_seg_create|]. cbn beta. intros seg Hseg.
  apply (calm_bind _ any); [apply calm_on_snd, touch_sync_dir|]. intros _ _.
  apply calm_mod_fst. by intros w' (? & ? & ?).
Qed.
Lemma calm_write_batch c b : calm (both (log_at c) out) any (Wal.write_batch b).
Proof.
  unfold Wal.write_batch. apply (calm_bind _ any).
  { apply (calm_for_each _ any); [by apply Forall_true|]. intros sf _. apply calm_active, calm_seg_append. }
  intros _ _. apply (calm_bind _ any); [apply calm_active, calm_seg_sync|]. intros _ _. apply calm_maybe_rotate.
Qed.
Lemma calm_commit_group f : calm (both log_in out) any (Wal.commit_group f).
Proof.
  apply calm_wp. intros [w s] [(Hd & Ha & Hl) Hs]. cbn [fst snd] in *. unfold Wal.commit_group, Wal.enqueue.
  apply wp_bind, wp_get_fst, wp_bind, wp_mod_fst. case_decide; [by apply wp_ret|]. cbn [Wal.leader_active]. rewrite Hl.
  cbn [Wal.take_batch]. apply wp_bind, wp_mod_fst, wp_bind, wp_attempt.
  set (c := Wal.mkCoord [] _ _ true). set (w1 := Wal.set_coord c _).
  eapply wp_mono; [eapply wp_calm; [apply (calm_write_batch c)|by split]|..]; cbn beta.
  - intros _ [w2 s2] [_ [(? & ? & ?) Hs2]]. apply wp_bind, wp_mod_fst, wp_ret. by split_and!.
  - intros [w2 s2] [(? & ? & ?) Hs2] e. apply wp_bind, wp_mod_fst, wp_err. by split_and!.
Qed.
(** [log_in] is [log_at] some idle coordinator. *)
Lemma calm_log_in {E A : Type} (R : A → Prop) (f : M (Wal.Wal * S) E A) :
  (∀ c, calm (both (log_at c) out) R f) → calm (both log_in out) R f.
Proof.
  intros Hf. apply calm_wp. intros [w s] [(Hd & Ha & Hl) Hs]. cbn [fst snd] in *.
  eapply wp_mono; [eapply wp_calm; [apply (Hf (Wal.coord w))|by split]|..]; cbn beta.
  - intros a [w' s'] [? [(? & ? & Hc) ?]]. cbn [fst snd] in *. split; [done|]. split; [|done]. split_and!; [done..|by rewrite Hc].
  - intros [w' s'] [(? & ? & Hc) ?]. cbn [fst snd] in *. split; [|done]. split_and!; [done..|by rewrite Hc].
Qed.
Lemma calm_append (b : bytes) : calm (both log_in out) any (Wal.append b).
Proof.
  unfold Wal.append. eapply calm_bind; [apply calm_get_fst|]. intros w _. destruct (Wal.durability w).
  - apply calm_log_in. intros c. unfold Wal.commit_sync_now.
    apply (calm_bind _ any); [apply calm_active, calm_seg_append|]. intros _ _.
    apply (calm_bind _ any); [apply calm_active, calm_seg_sync|]. intros _ _. apply calm_maybe_rotate.
  - apply calm_commit_group.
  - apply calm_log_in. intros c. unfold Wal.commit_buffered.
    apply (calm_bind _ any); [apply calm_active, calm_seg_append|]. intros _ _. apply calm_maybe_rotate.
Qed.
Lemma calm_reset : calm (both log_in out) any Wal.reset.
Proof.
  unfold Wal.reset. eapply calm_bind; [apply calm_get_fst|]. cbn beta. intros w (Hd & _). rewrite Hd.
  eapply calm_bind; [apply calm_on_snd, calm_list_segments|]. cbn beta. intros segs Hsegs.
  eapply calm_bind; [apply calm_on_snd, calm_seg_create|]. cbn beta. intros fresh Hfresh.
  apply (calm_bind _ any); [apply calm_on_snd, touch_sync_dir|]. intros _ _.
  apply (calm_bind _ any).
  { apply calm_on_snd. eapply calm_for_each; [exact Hsegs|]. intros ip [Hc Hw]. by apply touch_delete. }
  intros _ _. apply (calm_bind _ any); [apply calm_on_snd, touch_sync_dir|]. intros _ _.
  apply calm_mod_fst. by intros w' (? & ? & ?).
Qed.
End log.

(** ** The manifest *)

Definition manifest_file (p : path) : Prop := p = Storage.join d MANIFEST_NAME ∨ p = Storage.join d MANIFEST_TMP.
Lemma calm_write_manifest m0 v : calm (touching shows manifest_file m0) any (write_manifest d v).
Proof.
  assert (Hn : is_child_of (Storage.join d MANIFEST_NAME) d = true) by apply is_child_join.
  assert (Ht : is_child_of (Storage.join d MANIFEST_TMP) d = true) by apply is_child_join.
  unfold write_manifest. apply (calm_bind _ any); [apply calm_ignore_err, touch_delete; [done|by right]|]. intros _ _.
  apply (calm_bind _ any); [apply calm_map_err, touch_create; [done|by right]|]. intros _ _.
  apply (calm_bind _ any); [apply calm_map_err, touch_append; [done|by right]|]. intros _ _.
  apply (calm_bind _ any); [by apply calm_map_err, touch_sync_file|]. intros _ _.
  apply (calm_bind _ any); [apply calm_map_err, touch_rename; [done|done|by right|by left]|]. intros _ _.
  apply calm_map_err, touch_sync_dir.
Qed.

(** What [gc] may delete. *)
Definition unnamed (live : gset Z) (p : path) : Prop := ∃ i, parse_table_id p = Some i ∧ i ∉ live.
Lemma calm_gc_loop m0 live ps : Forall (λ p, is_child_of p d = true) ps →
  calm (touching shows (unnamed live) m0) any (gc_loop live ps).
Proof.
  intros Hps. unfold gc_loop. eapply (calm_fold_m _ _ any); [exact Hps|done|]. cbn beta. intros b p _ Hp.
  destruct (parse_table_id p) as [i|] eqn:Ei; [|by apply calm_ret]. case_decide; [by apply calm_ret|].
  apply (calm_bind _ any); [apply calm_map_err, touch_delete; [done|by exists i]|]. intros _ _. by apply calm_ret.
Qed.

(** Nothing happens to the tables of the version that is current afterwards. *)
Definition kept m mf' m' : Prop := Manifest.dir mf' = d ∧ ∀ i, i ∈ referenced_ids (version (current mf')) → 0 ≤ i < 2 ^ 64 →
  m' !! table_path d i = m !! table_path d i.

Lemma gc_faulty mf s m : Manifest.dir mf = d → shows s m →
  wp gc (mf, s) (λ _ x, ∃ m', shows x.2 m' ∧ kept m x.1 m' ∧ version (current x.1) = version (current mf))
    (λ x, ∃ m', shows x.2 m' ∧ kept m x.1 m' ∧ version (current x.1) = version (current mf)).
Proof.
  intros Hd Hs. unfold gc. apply wp_bind, wp_mod_fst, wp_bind, wp_get_fst.
  set (mf1 := retain_obsolete mf). change (dir mf1) with (dir mf). rewrite Hd.
  assert (Hend : ∀ s', touching shows (unnamed (live_ids mf1)) m s' → ∃ m', shows s' m' ∧ kept m mf1 m' ∧ version (current mf1) = version (current mf)).
  { intros s' (m' & Hs' & Ho). exists m'. split; [done|]. split; [|done]. split; [done|]. intros i Hi Hr. apply Ho.
    intros (j & Hj & Hn). rewrite parse_table_path in Hj by done. injection Hj as <-. by apply Hn, live_ids_current. }
  assert (H0 : touching shows (unnamed (live_ids mf1)) m s) by by exists m.
  apply wp_bind, wp_on_snd, wp_map_err. eapply wp_mono; [eapply wp_calm, H0; apply touch_list|..]; cbn beta; [|auto].
  intros ps s1 [Hps H1]. apply wp_bind, wp_on_snd.
  eapply wp_mono; [eapply wp_calm, H1; by apply calm_gc_loop|..]; cbn beta; [|auto].
  intros b s2 [_ H2]. destruct b; [|apply wp_ret; by apply Hend].
  apply wp_on_snd, wp_map_err. eapply wp_mono; [eapply wp_calm, H2; apply touch_sync_dir|..]; cbn beta; [|auto].
  intros _ s3 [_ H3]. by apply Hend.
Qed.

(** An installation that fails may have happened. *)
Lemma install_faulty v mf s m : Manifest.dir mf = d → shows s m →
  wp (install v) (mf, s) (λ _ x, ∃ m', shows x.2 m' ∧ kept m x.1 m' ∧ version (current x.1) = v)
    (λ x, ∃ m', shows x.2 m' ∧ kept m x.1 m' ∧
       (version (current x.1) = v ∨ version (current x.1) = version (current mf))).
Proof.
  intros Hd Hs. unfold install. apply wp_bind, wp_get_fst, wp_bind, wp_on_snd. rewrite Hd.
  assert (H0 : touching shows manifest_file m s) by by exists m.
  assert (Htab : ∀ m', outside manifest_file m m' → ∀ i, 0 ≤ i < 2 ^ 64 → m' !! table_path d i = m !! table_path d i).
  { intros m' Ho i Hi. apply Ho. destruct (CompactionSpec.table_path_foreign d i Hi). by intros [?|?]. }
  eapply wp_mono; [eapply wp_calm, H0; apply calm_write_manifest|..]; cbn beta.
  - intros _ s1 [_ (m1 & Hs1 & Ho)]. apply wp_bind, wp_mod_fst.
    eapply wp_mono; [apply gc_faulty; [exact Hd|exact Hs1]|..]; cbn beta.
    + intros _ x (m2 & Hs2 & [Hd2 Hk] & Hv). exists m2. split; [done|]. split; [|done]. split; [done|].
      intros i Hi Hr. rewrite Hk by done. by apply Htab.
    + intros x (m2 & Hs2 & [Hd2 Hk] & Hv). exists m2. split; [done|]. split; [|by left]. split; [done|].
      intros i Hi Hr. rewrite Hk by done. by apply Htab.
  - intros s1 (m1 & Hs1 & Ho). exists m1. split; [done|]. split; [|by right]. split; [done|]. intros i Hi Hr. by apply Htab.
Qed.
End parts.
End FaultLog.
