(* ===== verification/FaultCompact.v ===== *)
(** Compaction on a storage whose calls may fail: a step that fails, wherever it does,
    leaves a version whose tables are on disk, in age order, with the live contents the
    version before the step had. *)
From Stdlib Require Import Strings.String.
From S2P Require Export FaultLog.

Module FaultCompact.
Import SsFormat Manifest ManifestSpec Compaction Tables MergeSpec CompactionSpec SimSpec Confine Faults FaultTables FaultLog.

(** What a step, failed or not, makes of the version [v] over the files [m]. *)
Record settled `{!Crc32, !Xxh3} (d : path) (v : Version) (m : memfs) (c : Z → list Memtable.Entry)
    (v' : Version) (m' : memfs) (c' : Z → list Memtable.Entry) : Prop := {
  st_inv : version_inv d m' v' c';
  st_live : same_live (tview c (tiers v)) (tview c' (tiers v'));
  st_sub kv : kv ∈ concat (tlists c' (tiers v')) → kv ∈ concat (tlists c (tiers v));
  st_weight : tweight c' (tiers v') ≤ tweight c (tiers v);
  st_seq : next_seq v' = next_seq v;
  st_ids : next_table_id v ≤ next_table_id v';
  st_room : next_table_id v' + blen (all_tables v') ≤ next_table_id v + blen (all_tables v);
  st_old i : i ∈ referenced_ids v' → i < next_table_id v →
    i ∈ referenced_ids v ∧ m' !! table_path d i = m !! table_path d i;
}.

Section spec.
Context {CRC : Crc32} {CRCL : Crc32Laws} {XXH : Xxh3}.
Implicit Types (d p : path) (m : memfs) (v : Version) (c : Z → list Memtable.Entry).

Lemma settled_refl d v m c m' : version_inv d m v c → next_table_id v < 2 ^ 64 →
  (∀ i, i ∈ referenced_ids v → m' !! table_path d i = m !! table_path d i) → settled d v m c v m' c.
Proof.
  intros Hv Hid E. split; try done; [by apply (version_inv_ext d m)|apply same_live_refl|]. intros i Hi _. split; [done|by apply E].
Qed.
Lemma settled_trans d v1 m1 c1 v2 m2 c2 v3 m3 c3 :
  settled d v1 m1 c1 v2 m2 c2 → settled d v2 m2 c2 v3 m3 c3 → settled d v1 m1 c1 v3 m3 c3.
Proof.
  intros [] []. split; try congruence; try lia; [by eapply same_live_trans|auto|].
  intros i Hi Hlt. destruct (st_old1 i) as [Hi2 E2]; [done|lia|]. destruct (st_old0 i) as [Hi1 E1]; [done|done|].
  split; [done|congruence].
Qed.
Lemma version_ids d m v c i : version_inv d m v c → version_fits v c → i ∈ referenced_ids v → 0 ≤ i < next_table_id v ∧ 0 ≤ i < 2 ^ 64.
Proof.
  intros Hv (_ & _ & Hid & _) (meta & Hm & <-)%elem_of_referenced. pose proof (vi_bound _ _ _ _ Hv meta Hm).
  pose proof (blen_nonneg (all_tables v)). lia.
Qed.

(** The new table's file is no table of the version it is made from. *)
Lemma fresh_table d m m' v c : version_inv d m v c → version_fits v c → outside (eq (table_path d (next_table_id v))) m m' →
  ∀ i, i ∈ referenced_ids v → m' !! table_path d i = m !! table_path d i.
Proof.
  intros Hv Hf Ho i Hi. destruct (version_ids d m v c i Hv Hf Hi). apply Ho. intros E.
  destruct Hf as (_ & ? & ? & _). pose proof (blen_nonneg (all_tables v)). apply table_path_inj in E; lia.
Qed.
Lemma staged_outside d m v c m1 v' c' : staged d m v c m1 v' c' → outside (eq (table_path d (next_table_id v))) m m1.
Proof. intros Hs p Hp. apply (sg_files _ _ _ _ _ _ _ Hs). intros ->. by apply Hp. Qed.

Section step.
Context {S : Type} {ST : Storage.Storage S} (d : path) {FT : Faulty S d}.

(** The merge, up to the installation: a failure, a taken file name included, has left
    some contents in the new table's file at most. *)
Lemma compact_prepare_faulty v m c t inputs s :
  version_inv d m v c → version_fits v c → tiers v !! t = Some inputs → (2 ≤ length inputs)%nat → shows s m →
  wp (compact_prepare d v t) s
    (λ v' s', ∃ m1 c', shows s' m1 ∧ staged d m v c m1 v' c' ∧ settled d v m c v' m1 c' ∧
       blen (all_tables v') + blen inputs ≤ blen (all_tables v) + 1)
    (λ s', ∃ m1, shows s' m1 ∧ outside (eq (table_path d (next_table_id v))) m m1).
Proof.
  intros Hv Hf Ht Hlen Hs. set (oid := next_table_id v). set (p := table_path d oid).
  assert (Hp : is_child_of p d = true) by apply is_child_join.
  destruct (m !! p) as [b|] eqn:Hm.
  - unfold compact_prepare. rewrite Ht. cbn [expect]. rewrite bind_ret. apply wp_bind.
    destruct (compact_inputs_ok d v m c t inputs Hv Hf Ht) as [Hread Hmerge].
    eapply wp_mono; [eapply (t_open_inputs d (eq p)); [exact Hs|exact Hread]|..]; cbn beta.
    + intros [n srcs] s1 ([= -> ->] & Hs1 & Ho1). apply wp_bind. unfold of_outcome. rewrite Hmerge. apply wp_ret, wp_bind.
      eapply wp_mono; [by eapply (write_table_taken d (eq p) p)|done|]. cbn beta. done.
    + done.
  - destruct (compact_prepare_ok d v m c t inputs Hv Hf Ht Hlen Hm)
      as (m1 & v' & c' & Hrun & Hsg & Hlive & Hsub & Hw & Hseq & Hroom & Hcount).
    eapply wp_mono; [eapply (t_compact_prepare d (eq p)); [done|done|done|exact Hs|exact Hrun]|..]; cbn beta.
    + intros v1 s1 (-> & Hs1 & Ho). exists m1, c'. split_and!; try done.
      destruct Hsg. split; try done. intros i Hi Hlt. destruct (sg_refs0 i Hi Hlt) as (Hr & _ & _).
      split; [done|]. by eapply fresh_table.
    + done.
Qed.

Lemma version_room v c : version_fits v c → next_table_id v < 2 ^ 64.
Proof. intros (_ & _ & ? & _). pose proof (blen_nonneg (all_tables v)). lia. Qed.
Lemma kept_settled m mf' m' v c : version_inv d m v c → version_fits v c → version (current mf') = v → kept d m mf' m' →
  settled d v m c v m' c.
Proof.
  intros Hv Hf <- [_ Hk]. apply settled_refl; [done|by eapply version_room|]. intros i Hi.
  destruct (version_ids d m _ c i Hv Hf Hi). by apply Hk.
Qed.

(** The manifest before and after. *)
Definition steps mf m c mf' m' c' : Prop :=
  Manifest.dir mf' = d ∧ settled d (version (current mf)) m c (version (current mf')) m' c'.

Lemma compact_tier_faulty mf m c t inputs s :
  let v := version (current mf) in
  Manifest.dir mf = d → version_inv d m v c → version_fits v c → tiers v !! t = Some inputs → (2 ≤ length inputs)%nat → shows s m →
  wp (compact_tier v t) (mf, s)
    (λ _ x, ∃ m' c', shows x.2 m' ∧ steps mf m c x.1 m' c' ∧
       blen (all_tables (version (current x.1))) + blen inputs ≤ blen (all_tables v) + 1)
    (λ x, ∃ m' c', shows x.2 m' ∧ steps mf m c x.1 m' c').
Proof.
  intros v Hd Hv Hf Ht Hlen Hs. unfold wp. rewrite compact_tier_split. rewrite Hd. apply wp_bind, wp_on_snd.
  eapply wp_mono; [by eapply compact_prepare_faulty|..]; cbn beta.
  - intros v' s1 (m1 & c' & Hs1 & Hsg & Hst & Hcount). apply wp_map_err. pose proof (staged_outside _ _ _ _ _ _ _ Hsg) as Ho.
    destruct Hsg. eapply wp_mono; [by apply install_faulty|..]; cbn beta.
    + intros _ x (m2 & Hs2 & Hk & Hv'). exists m2, c'. split; [done|]. rewrite Hv'. split; [|done]. split; [by destruct Hk|].
      rewrite Hv'. eapply settled_trans; [exact Hst|]. by eapply kept_settled.
    + intros x (m2 & Hs2 & Hk & [Hv'|Hv']).
      * exists m2, c'. split; [done|]. split; [by destruct Hk|]. rewrite Hv'. eapply settled_trans; [exact Hst|]. by eapply kept_settled.
      * exists m2, c. split; [done|]. split; [by destruct Hk|]. rewrite Hv'. fold v.
        apply settled_refl; [done|by eapply version_room|]. intros i Hi. destruct (version_ids d m v c i Hv Hf Hi).
        destruct Hk as [_ Hk]. rewrite Hk by (by rewrite ?Hv'). by eapply fresh_table.
  - intros s1 (m1 & Hs1 & Ho). exists m1, c. split; [done|]. split; [done|].
    apply settled_refl; [done|by eapply version_room|]. intros i Hi. by eapply fresh_table.
Qed.

Lemma compact_steps_refl mf m c : Manifest.dir mf = d → version_inv d m (version (current mf)) c → version_fits (version (current mf)) c →
  steps mf m c mf m c.
Proof. intros Hd Hv Hf. split; [done|]. apply settled_refl; [done|by eapply version_room|done]. Qed.
Lemma maybe_compact_faulty fanout mf m c s :
  2 ≤ fanout → Manifest.dir mf = d → version_inv d m (version (current mf)) c → version_fits (version (current mf)) c → shows s m →
  wp (maybe_compact fanout) (mf, s)
    (λ b x, ∃ m' c', shows x.2 m' ∧ steps mf m c x.1 m' c' ∧
       (b = true → blen (all_tables (version (current x.1))) < blen (all_tables (version (current mf)))))
    (λ x, ∃ m' c', shows x.2 m' ∧ steps mf m c x.1 m' c').
Proof.
  intros Hfan Hd Hv Hf Hs. unfold maybe_compact, with_current, wp. set (a := arc_id (current mf)).
  destruct (find_tier (version (current mf)) fanout) as [t|] eqn:Ht.
  2:{ cbn. exists m, c. split; [done|]. split; [|done]. by apply (compact_steps_refl mf). }
  apply find_tier_Some in Ht as (inputs & Ht & Hlen); [|lia].
  pose proof (compact_tier_faulty (pin a mf) m c t inputs s Hd Hv Hf Ht) as Hc. cbv zeta in Hc.
  unfold wp in Hc. rewrite bind_run. cbn [current pin] in Hc.
  destruct (compact_tier _ t (pin a mf, s)) as [[[]|e|] [mf1 s1]].
  - destruct Hc as (m' & c' & Hs' & Hst & Hcount); [unfold blen in Hlen; lia|done|]. exists m', c'. cbn in *. split_and!; [done|done|lia].
  - destruct Hc as (m' & c' & Hs' & Hst); [unfold blen in Hlen; lia|done|]. by exists m', c'.
  - apply Hc; [unfold blen in Hlen; lia|done].
Qed.

End step.
End spec.
End FaultCompact.
