(* ===== verification/FaultDb.v ===== *)
(** The engine on a storage whose calls may fail: any call may fail at any time, and the
    engine goes on answering from what it holds.  Every answer is the key-value map's; a
    call that fails has left the map alone or done what it was asked. *)
From Stdlib Require Import Strings.String.
From S2P Require Export FaultCompact RealDb RealFaults.

Module FaultDb.
Import SsFormat Manifest ManifestSpec Compaction Tables MergeSpec CompactionSpec WalFrame.
Import Memtable Newest MemtableSpec Db DbSpec DbRefine SimSpec Confine Faults FaultTables FaultLog FaultCompact.

(** The sorted versions in memory, newest table first, and those of all of the engine. *)
Definition buffer_of (f : Frozen) : list Entry := bt_iter (map (table f)).
Definition buffers (ms : MemtableSet) : list (list Entry) := bt_iter (map (active ms)) :: (buffer_of <$> reverse (frozen ms)).
Definition layers (db : Db) (c : Z → list Entry) : list (list Entry) := buffers (memtables db) ++ tlists c (tiers (ver db)).

(** The engine [db] over the files [m] serves the map [kv].  Frozen tables that an earlier
    flush could not write, or wrote and could not drop, are still held.  [w] bounds what is
    in memory, [t] what is in tables. *)
Record served `{!Crc32, !Xxh3} (d : path) (kv : gmap bytes bytes) (w t : Z) (db : Db) (m : memfs) (c : Z → list Entry) : Prop := {
  sv_dir : dir db = d;
  sv_log : log_in d (wal db);
  sv_mf : Manifest.dir (manifest db) = d;
  sv_ver : version_inv d m (ver db) c;
  sv_cache : cache_ok d m (ver db) (readers db);
  sv_wf : MemtableSpec.wf (active (memtables db));
  sv_arcs : arcs_ok (memtables db);
  sv_full : Forall (λ f, map (table f) ≠ ∅) (frozen (memtables db));
  sv_aged : aged (layers db c);
  sv_view : live_map (first_hit (layers db c)) = kv;
  sv_seqs e : e ∈ concat (buffers (memtables db)) → 0 ≤ seq e.2 < next_seq (write_state db);
  sv_next : 0 ≤ Manifest.next_seq (ver db) ≤ next_seq (write_state db);
  sv_idle : in_flight (write_state db) = 0;
  sv_fanout : 2 ≤ tier_fanout (options db);
  sv_mem : weights (concat (buffers (memtables db))) ≤ w;
  sv_seq_max : next_seq (write_state db) ≤ w;
  sv_tab : tweight c (tiers (ver db)) ≤ t;
  sv_ids : 1 ≤ next_table_id (ver db) ∧ next_table_id (ver db) + blen (all_tables (ver db)) ≤ t;
}.

(** A caller that goes on after an error. *)
Fixpoint run_each `{!Crc32, !Xxh3} {S} `{!Storage.Storage S} (ops : list op) : M (Db * S) DbError (list (resp + DbError)) :=
  match ops with
  | [] => mret []
  | o :: ops' => r ← attempt (run_op o); rs ← run_each ops'; mret (r :: rs)
  end.

(** [answered kv ops rs kv']: an answer is the map's; a call that failed has left the
    map alone or done what it was asked. *)
Inductive answered : gmap bytes bytes → list op → list (resp + DbError) → gmap bytes bytes → Prop :=
  | answered_nil kv : answered kv [] [] kv
  | answered_ok kv o ops rs kv' :
      answered (spec_step kv o).2 ops rs kv' → answered kv (o :: ops) (inl (spec_step kv o).1 :: rs) kv'
  | answered_not_done kv o e ops rs kv' : answered kv ops rs kv' → answered kv (o :: ops) (inr e :: rs) kv'
  | answered_done kv o e ops rs kv' : answered (spec_step kv o).2 ops rs kv' → answered kv (o :: ops) (inr e :: rs) kv'.

Section spec.
Context {CRC : Crc32} {CRCL : Crc32Laws} {XXH : Xxh3}.
Implicit Types (d p : path) (m : memfs) (kv : gmap bytes bytes) (w t : Z) (db : Db) (c : Z → list Entry) (ms : MemtableSet).

(** ** Layers *)

Lemma list_to_map_iter (mp : kvmap) : list_to_map (bt_iter mp) = mp.
Proof.
  apply map_eq. intros k. apply option_eq. intros v. rewrite <- elem_of_list_to_map; [apply elem_of_bt_iter|].
  apply sorted_keys_NoDup, bt_iter_sorted.
Qed.
Lemma first_hit_app ls1 ls2 : first_hit (ls1 ++ ls2) = first_hit ls1 ∪ first_hit ls2.
Proof. induction ls1 as [|l ls1 IH]; cbn; [by rewrite (left_id_L ∅ (∪))|]. fold (first_hit (ls1 ++ ls2)). by rewrite IH, (assoc_L (∪)). Qed.
Lemma buffers_view ms : first_hit (buffers ms) = set_view ms.
Proof.
  unfold buffers, set_view. cbn [first_hit foldr]. rewrite list_to_map_iter. f_equal.
  induction (reverse (frozen ms)) as [|f fs IH]; [done|]. cbn. unfold buffer_of at 1. by rewrite list_to_map_iter, <- IH.
Qed.
Lemma buffers_sorted ms : Forall sorted_keys (buffers ms).
Proof. constructor; [apply bt_iter_sorted|]. apply Forall_fmap, Forall_forall. intros f _. apply bt_iter_sorted. Qed.
Lemma layers_sorted d kv w t db m c : served d kv w t db m c → Forall sorted_keys (layers db c).
Proof. intros []. apply Forall_app. split; [apply buffers_sorted|by eapply tables_sorted]. Qed.
Lemma sorted_NoDups ls : Forall sorted_keys ls → Forall (λ l : list Entry, NoDup l.*1) ls.
Proof. intros H. eapply Forall_impl; [exact H|]. intros l. apply sorted_keys_NoDup. Qed.
Lemma layers_coherent d kv w t db m c : served d kv w t db m c → coherent (concat (layers db c)).
Proof. intros Hs. apply aged_coherent; [by apply sv_aged in Hs|]. by eapply sorted_NoDups, layers_sorted. Qed.
Lemma layers_newest d kv w t db m c : served d kv w t db m c → first_hit (layers db c) = newest (concat (layers db c)).
Proof. intros Hs. apply first_hit_newest; [by apply sv_aged in Hs|]. by eapply sorted_NoDups, layers_sorted. Qed.

Lemma served_fits d kv w t db m c : served d kv w t db m c → w ≤ 2 ^ 30 → t ≤ 2 ^ 30 → version_fits (ver db) c.
Proof. intros [] Hw Ht. destruct sv_ids0. split_and!; lia. Qed.

(** A change of files that keeps the tables. *)
Lemma served_files d kv w t db m m' c : served d kv w t db m c → next_table_id (ver db) < 2 ^ 64 →
  (∀ i, i ∈ referenced_ids (ver db) → m' !! table_path d i = m !! table_path d i) → served d kv w t db m' c.
Proof. intros [] Hid E. split; try done; [by apply (version_inv_ext d m)|by eapply cache_ok_ext]. Qed.
Lemma served_outside d kv w t db m m' c : served d kv w t db m c → w ≤ 2 ^ 30 → t ≤ 2 ^ 30 → outside (wal_file d) m m' → served d kv w t db m' c.
Proof.
  intros Hs Hw Ht Ho. pose proof (served_fits _ _ _ _ _ _ _ Hs Hw Ht). eapply served_files; [done|by eapply version_room|].
  intros i _. apply Ho, table_not_wal_file.
Qed.
Lemma served_budget d kv w t db m c w' t' : served d kv w t db m c → w ≤ w' → t ≤ t' → served d kv w' t' db m c.
Proof. intros [] ? ?. split; try done; lia. Qed.
(** A change of the handle on the manifest, or of the cache. *)
Lemma served_manifest d kv w t db m c mf' : served d kv w t db m c → Manifest.dir mf' = d →
  Manifest.version (current mf') = ver db → served d kv w t (set_manifest mf' db) m c.
Proof. intros [] Hd Hv. unfold layers in *. split; unfold layers; cbn; rewrite ?Hv; done. Qed.
Lemma served_reads d kv w t db m c db' : served d kv w t db m c → reads_to db m db' → served d kv w t db' m c.
Proof.
  intros [] [(E1 & E2 & E3 & E4 & E5 & E6 & E7 & E8) Hc].
  split; unfold layers in *; rewrite ?E1, ?E2, ?E3, ?E4, ?E5, ?E6, ?E8; try done. by rewrite <- sv_dir0.
Qed.
Lemma served_write_state d kv w t db m c ws : served d kv w t db m c → next_seq ws = next_seq (write_state db) → in_flight ws = 0 →
  served d kv w t (set_write ws db) m c.
Proof. intros [] E1 E2. split; cbn; rewrite ?E1; done. Qed.
(** ** Reading *)

(** ** Reading *)

#[local] Existing Instance in_scan_dec.
Section faulty.
Context {S : Type} {ST : Storage.Storage S} (d : path) {FT : Faulty S d}.

Lemma tracks_read {E A : Type} (f : M S E A) (g : M memfs E A) s m a :
  tracks shows (outside nowhere) f g → shows s m → g m = (Ok a, m) →
  wp f s (λ b s', b = a ∧ shows s' m) (λ s', shows s' m).
Proof.
  intros Hf Hs Hg. eapply wp_mono; [by eapply Hf|..]; cbn beta.
  - by intros b s' (-> & Hs' & _).
  - by intros s' (m1 & Hs' & ->%outside_nowhere).
Qed.

Lemma reader_for_faulty db m c meta s :
  dir db = d → version_inv d m (ver db) c → cache_ok d m (ver db) (readers db) → meta ∈ all_tables (ver db) → shows s m →
  wp (reader_for meta) (db, s)
    (λ r x, shows x.2 m ∧ reads_to db m x.1 ∧ RealDb.reader_in d r ∧ SsTable.entries r m = (Ok (sst_of <$> c (id meta)), m) ∧
       ∀ k, SsTable.get r k m = (Ok (SsTableSpec.find_entry k (sst_of <$> c (id meta))), m))
    (λ x, shows x.2 m ∧ x.1 = db).
Proof.
  intros Hd Hv Hc Hm Hs. destruct (vi_tables _ _ _ _ Hv meta Hm) as [Ht _].
  destruct (read_table_ok m _ _ Ht) as (r & Ho & _ & He & _ & Hg).
  assert (Hp : is_child_of (table_path d (id meta)) d = true) by apply is_child_join.
  pose proof (returned _ _ (RealDb.y_reader_open d any (mem_allows d) _ Hp) _ _ _ Ho) as Hr.
  assert (Href : id meta ∈ referenced_ids (ver db)) by (apply elem_of_referenced; eauto).
  unfold reader_for. apply wp_bind, wp_get_fst. destruct (readers db !! id meta) as [r'|] eqn:Er.
  - destruct (Hc _ _ Er) as [_ Ho']. specialize (Ho' Href). rewrite Ho in Ho'. simplify_eq. apply wp_ret. by split_and!.
  - apply wp_bind, wp_on_snd, wp_map_err. rewrite Hd.
    eapply wp_mono; [eapply tracks_read; [by apply t_reader_open|exact Hs|exact Ho]|..]; cbn beta; [|done].
    intros r' s' (-> & Hs'). apply wp_bind, wp_mod_fst, wp_ret. split_and!; try done. split; [done|]. cbn [fst set_readers readers]. rewrite Hd.
    intros i r' [[<- <-]|[Hi Hri]]%lookup_insert_Some; [|by apply Hc]. split; [|done]. by apply (vi_bound _ _ _ _ Hv).
Qed.

(** The facts a read needs, and keeps. *)
Definition readable db m c : Prop := dir db = d ∧ version_inv d m (ver db) c ∧ cache_ok d m (ver db) (readers db).
Lemma readable_reads db m c db' : readable db m c → reads_to db m db' → readable db' m c.
Proof. intros (Hd & Hv & Hc) [(E1 & _ & _ & _ & _ & E6 & _) Hc']. unfold readable. rewrite E1, E6. split_and!; [done|done|by rewrite <- Hd]. Qed.
Lemma reads_refl db m c : readable db m c → reads_to db m db.
Proof. intros (Hd & _ & Hc). split; [done|by rewrite Hd]. Qed.

Lemma get_tables_faulty k metas db m c s :
  readable db m c → (∀ meta, meta ∈ metas → meta ∈ all_tables (ver db)) → shows s m →
  wp (get_tables k metas) (db, s)
    (λ r x, shows x.2 m ∧ reads_to db m x.1 ∧ r = (w ← first_hit ((λ meta, c (id meta)) <$> metas) !! k; as_value w))
    (λ x, shows x.2 m ∧ reads_to db m x.1).
Proof.
  revert db s. induction metas as [|meta metas IH]; intros db s Hr Hin Hs.
  { apply wp_ret. split_and!; [done|by eapply reads_refl|done]. }
  pose proof Hr as (Hd & Hv & Hc). assert (Hm : meta ∈ all_tables (ver db)) by (apply Hin; by left).
  assert (Hin' : ∀ meta, meta ∈ metas → meta ∈ all_tables (ver db)) by (intros; apply Hin; by right).
  destruct (vi_tables _ _ _ _ Hv meta Hm) as ((bs & blks & bl & _ & _ & Hsort) & _ & Emeta).
  cbn [fmap list_fmap first_hit foldr get_tables]. fold (first_hit ((λ meta, c (id meta)) <$> metas)). rewrite lookup_union.
  destruct (key_in_range meta k) eqn:Hk; cbn [negb].
  2:{ rewrite lookup_skipped, union_None_l by done. by apply IH. }
  apply wp_bind. eapply wp_mono; [by eapply reader_for_faulty|..]; cbn beta.
  - intros r [db1 s1] (Hs1 & Hrd & Hri & _ & Hg). cbn [fst snd] in *. apply wp_bind, wp_on_snd, wp_map_err.
    eapply wp_mono; [eapply tracks_read; [by apply t_get|exact Hs1|apply Hg]|..]; cbn beta; [|done].
    intros e s2 (-> & Hs2). rewrite find_entry_lookup by done.
    destruct ((list_to_map (c (id meta)) : kvmap) !! k) as [w|] eqn:Ew.
    + apply wp_ret. rewrite union_Some_l. split_and!; [done|done|]. by destruct w as [q [b|]].
    + rewrite union_None_l. pose proof (readable_reads _ _ _ _ Hr Hrd) as Hr1. pose proof Hrd as [(_ & _ & _ & _ & _ & E6 & _) _].
      cbn [fmap option_fmap]. eapply wp_mono; [apply (IH db1 s2 Hr1); [by rewrite E6|done]|..]; cbn beta.
      * intros v x (? & ? & ->). split_and!; [done|by eapply reads_to_step|done].
      * intros x (? & ?). split; [done|by eapply reads_to_step].
  - intros x [? ->]. split; [done|by eapply reads_refl].
Qed.

Lemma scan_tables_faulty r metas db m c srcs s :
  readable db m c → (∀ meta, meta ∈ metas → meta ∈ all_tables (ver db)) → shows s m →
  wp (fold_m metas srcs (scan_table r)) (db, s)
    (λ l x, shows x.2 m ∧ reads_to db m x.1 ∧ l = srcs ++ ((λ meta, filter (in_scan r) (c (id meta))) <$> metas))
    (λ x, shows x.2 m ∧ reads_to db m x.1).
Proof.
  revert db srcs s. induction metas as [|meta metas IH]; intros db srcs s Hr Hin Hs.
  { apply wp_ret. split_and!; [done|by eapply reads_refl|by rewrite app_nil_r]. }
  pose proof Hr as (Hd & Hv & Hc). assert (Hm : meta ∈ all_tables (ver db)) by (apply Hin; by left).
  assert (Hin' : ∀ meta, meta ∈ metas → meta ∈ all_tables (ver db)) by (intros; apply Hin; by right).
  cbn [fold_m]. unfold scan_table at 1. apply wp_bind, wp_bind. eapply wp_mono; [by eapply reader_for_faulty|..]; cbn beta.
  - intros rd [db1 s1] (Hs1 & Hrd & Hri & He & _). cbn [fst snd] in *. apply wp_bind, wp_on_snd, wp_map_err.
    eapply wp_mono; [eapply tracks_read; [by apply t_entries|exact Hs1|exact He]|..]; cbn beta; [|done].
    intros es s2 (-> & Hs2). apply wp_ret. rewrite scanned_entries.
    pose proof (readable_reads _ _ _ _ Hr Hrd) as Hr1. pose proof Hrd as [(_ & _ & _ & _ & _ & E6 & _) _].
    eapply wp_mono; [apply (IH db1 _ s2 Hr1); [by rewrite E6|done]|..]; cbn beta.
    + intros l x (? & ? & ->). split_and!; [done|by eapply reads_to_step|]. by rewrite fmap_cons, <- (assoc_L (++)).
    + intros x (? & ?). split; [done|by eapply reads_to_step].
  - intros x [? ->]. split; [done|by eapply reads_refl].
Qed.

(** A version is pinned around reads. *)
Lemma wp_with_version {A : Type} (f : Version → M (Db * S) DbError A) db s (Q : A → Db * S → Prop) (F : Db * S → Prop) :
  let a := Manifest.arc_id (current (manifest db)) in
  let close := λ x : Db * S, (set_manifest (unpin a (manifest x.1)) x.1, x.2) in
  wp (f (ver db)) (set_manifest (pin a (manifest db)) db, s) (λ v x, Q v (close x)) (λ x, F (close x)) →
  wp (with_version f) (db, s) Q F.
Proof. cbv zeta. unfold wp, with_version. by destruct (f _ _) as [[v|e|] [db' s']]. Qed.
Lemma reads_unpin db m db' :
  let a := Manifest.arc_id (current (manifest db)) in
  reads_to (set_manifest (pin a (manifest db)) db) m db' → reads_to db m (set_manifest (unpin a (manifest db')) db').
Proof. intros a [(?&?&?&?&?&?&?&?) Hc]. split; [by split_and!|done]. Qed.
Lemma served_readable kv w t db m c : served d kv w t db m c → readable db m c.
Proof. by intros []. Qed.

Lemma get_faulty kv w t db m c k s : served d kv w t db m c → shows s m →
  wp (Db.get k) (db, s) (λ r x, shows x.2 m ∧ reads_to db m x.1 ∧ r = kv !! k) (λ x, shows x.2 m ∧ reads_to db m x.1).
Proof.
  intros Hserve Hs. pose proof (served_readable _ _ _ _ _ _ Hserve) as Hr. pose proof Hserve as [].
  unfold Db.get. apply wp_bind, wp_get_fst. rewrite <- sv_view0, lookup_live_map. unfold layers.
  rewrite first_hit_app, buffers_view, set_get_lookup, lookup_union.
  destruct (set_view (memtables db) !! k) as [x|].
  { apply wp_ret. rewrite union_Some_l. split_and!; [done|by eapply reads_refl|by destruct x as [q [b|]]]. }
  rewrite union_None_l. apply wp_with_version.
  eapply wp_mono; [apply (get_tables_faulty k _ _ m c s); [done| |done]|..]; cbn beta.
  - intros meta Hm. by rewrite all_tables_newest.
  - intros v x (? & Hrd & ->). split_and!; [done|by apply reads_unpin|done].
  - intros x (? & Hrd). split; [done|by apply reads_unpin].
Qed.

Lemma scan_iters_all {E : Type} r ms : bad_range r = false →
  scan_iters (E:=E) r ms = Ok (filter (in_scan r) <$> (bt_iter (map (active ms)) :: (buffer_of <$> frozen ms))).
Proof.
  intros Hr. unfold scan_iters, range_snapshot, bt_range_checked. rewrite Hr. cbn [mbind outcome_bind].
  induction (frozen ms) as [|f fs IH]; [done|]. cbn [foldr fmap list_fmap] in *.
  destruct (foldr _ _ fs) as [l| |]; [|done..]. cbn in *. injection IH as ->. done.
Qed.
Lemma scan_faulty kv w t db m c r s : served d kv w t db m c → bad_range r = false → shows s m →
  wp (Db.scan r) (db, s)
    (λ it x, shows x.2 m ∧ reads_to db m x.1 ∧ MergeIter.live_collect (E:=DbError) it = Ok (bt_range (in_range r) kv))
    (λ x, shows x.2 m ∧ reads_to db m x.1).
Proof.
  intros Hserve Hb Hs. pose proof (served_readable _ _ _ _ _ _ Hserve) as Hr.
  unfold Db.scan. apply wp_bind, wp_get_fst. rewrite (scan_iters_all r) by done. apply wp_bind, wp_ret, wp_bind, wp_with_version.
  set (bufs := bt_iter _ :: _).
  eapply wp_mono; [apply (scan_tables_faulty r _ _ m c _ s); [done|done|done]|..]; cbn beta.
  2:{ intros x (? & Hrd). split; [done|by apply reads_unpin]. }
  intros l x (Hs' & Hrd & ->). apply wp_ret. split_and!; [done|by apply reads_unpin|].
  change (ver (set_manifest _ db)) with (ver db).
  assert (E : (filter (in_scan r) <$> bufs) ++ ((λ meta, filter (in_scan r) (c (id meta))) <$> all_tables (ver db)) =
    filter (in_scan r) <$> (bufs ++ ((λ meta, c (id meta)) <$> all_tables (ver db)))).
  { by rewrite fmap_app, <- (list_fmap_compose (λ meta, c (id meta))). }
  rewrite E. clear E. set (raw := bufs ++ _).
  assert (Hsame : ∀ l, l ∈ raw ↔ l ∈ layers db c).
  { intros l. unfold raw, bufs, layers, buffers. rewrite !elem_of_app, !elem_of_cons, !list_elem_of_fmap.
    setoid_rewrite elem_of_reverse. rewrite elem_of_tlists.
    unfold all_tables. split; [intros [[?|(f & ? & ?)]|(meta & ? & ?)]|intros [[?|(f & ? & ?)]|(meta & ? & ?)]]; eauto 6. }
  pose proof (layers_sorted _ _ _ _ _ _ _ Hserve) as Hsort. pose proof Hserve as [].
  rewrite live_collect_ok.
  2:{ apply Forall_fmap, Forall_forall. intros l Hl%Hsame. apply sorted_keys_filter. rewrite Forall_forall in Hsort. by apply Hsort. }
  f_equal. rewrite <- sv_view0. apply live_of_iter. intros k. rewrite concat_filter, newest_filter.
  destruct (in_range r k); [|done]. rewrite (layers_newest _ _ _ _ _ _ _ Hserve). f_equal. symmetry. apply newest_ext.
  - by eapply layers_coherent.
  - intros e. rewrite !elem_of_concat. by setoid_rewrite Hsame.
Qed.

(** ** Writing *)

Lemma buffer_inserted es k (v : InternalValue) (t0 : Memtable) :
  map t0 = newest es → map (insert_if_newer k v t0) = newest (es ++ [(k, v)]).
Proof. intros E. rewrite insert_if_newer_map, E, newest_app. f_equal. simpl. by rewrite (right_id_L ∅ nunion). Qed.

(** A sequence number is claimed and the log has grown, or failed to. *)
Lemma served_logged kv w t db m c wal' m' :
  served d kv w t db m c → w + 1 ≤ 2 ^ 30 → t ≤ 2 ^ 30 → log_in d wal' → outside (wal_file d) m m' →
  served d kv (w + 1) t (mod_write settle (set_wal wal' (mod_write claim db))) m' c.
Proof.
  intros Hs Hw Ht Hlog Ho. apply (served_outside _ _ _ _ _ _ m') in Hs; [|lia|done|done]. destruct Hs. destruct sv_next0.
  assert (E : u64_add (next_seq (write_state db)) 1 = next_seq (write_state db) + 1) by (apply u64_wrap_id; lia).
  split; cbn [Db.dir options wal memtables manifest readers write_state set_wal set_write mod_write claim settle next_seq in_flight];
    rewrite ?E; try done; try lia. intros e He. specialize (sv_seqs0 e He). lia.
Qed.

(** The write reaches the buffer. *)
Lemma served_inserted kv w t db m c k kd q :
  served d kv w t db m c → q < next_seq (write_state db) → 0 ≤ q → Manifest.next_seq (ver db) ≤ q →
  (∀ e, e ∈ concat (buffers (memtables db)) → seq e.2 < q) →
  served d (apply_kind k kd kv) (w + weight (k, mkValue q kd)) t
    (set_memtables (set_insert_if_newer k (mkValue q kd) (memtables db)) db) m c.
Proof.
  intros Hs Hq Hq0 Hqv Hold. set (e := (k, mkValue q kd)). pose proof (layers_sorted _ _ _ _ _ _ _ Hs) as Hsort.
  pose proof (layers_newest _ _ _ _ _ _ _ Hs) as Hnew. pose proof (weight_pos e). destruct Hs.
  set (es := bt_iter (map (active (memtables db)))).
  assert (Em : map (active (memtables db)) = newest es) by (symmetry; apply newest_sorted_map).
  set (ms' := set_insert_if_newer k (mkValue q kd) (memtables db)).
  assert (Em' : map (active ms') = newest (es ++ [e])) by by apply buffer_inserted.
  set (rest := (buffer_of <$> reverse (frozen (memtables db))) ++ tlists c (tiers (ver db))).
  assert (El : layers db c = es :: rest) by done.
  assert (El' : layers (set_memtables ms' db) c = bt_iter (newest (es ++ [e])) :: rest).
  { unfold layers, buffers. cbn [memtables set_memtables]. by rewrite Em'. }
  assert (Hlt : ∀ x, x ∈ es ++ concat rest → seq x.2 < q).
  { intros x Hx. unfold rest in Hx. rewrite concat_app, !elem_of_app in Hx.
    assert (Hin : x ∈ concat (buffers (memtables db)) ∨ x ∈ concat (tlists c (tiers (ver db)))).
    { cbn [buffers concat]. rewrite elem_of_app. tauto. }
    destruct Hin as [Hb|(l & (meta & Hm & ->)%elem_of_tlists & Hx')%elem_of_concat]; [by apply Hold|].
    pose proof (vi_seq _ _ _ _ sv_ver0 meta x Hm Hx'). lia. }
  rewrite El in *. apply StronglySorted_inv in sv_aged0 as [Ha Hn].
  assert (Hsub : ∀ x, x ∈ bt_iter (newest (es ++ [e])) → x ∈ es ++ [e]) by (intros [k' v'] Hx%elem_of_bt_iter; by apply newest_lookup).
  assert (Haged : aged (layers (set_memtables ms' db) c)).
  { rewrite El'. constructor; [done|]. apply Forall_forall. intros l Hl. rewrite Forall_forall in Hn.
    apply newer_snoc; [rewrite <- Em; by apply Hn|]. intros w' Hw'. apply (Hlt (k, w')). apply elem_of_app. right.
    apply elem_of_concat. by exists l. }
  split; cbn [Db.dir options wal memtables manifest readers write_state set_memtables]; try done.
  - by apply wf_insert_if_newer.
  - rewrite first_hit_newest; [|done|].
    2:{ rewrite El'. apply sorted_NoDups. constructor; [apply bt_iter_sorted|]. by apply Forall_cons in Hsort as [_ ?]. }
    rewrite El'. cbn [concat]. rewrite newest_app, newest_sorted_map, <- newest_app. unfold e. rewrite live_snoc.
    + f_equal. rewrite <- sv_view0, Hnew. done.
    + intros w' Hw'. apply (Hlt (k, w')), elem_of_app. by left.
    + intros w' Hw'. apply (Hlt (k, w')), elem_of_app. by right.
  - intros x. cbn [buffers concat]. rewrite Em', elem_of_app. intros [[Hx|Hx%list_elem_of_singleton]%Hsub%elem_of_app|Hx].
    + apply sv_seqs0. cbn [buffers concat]. apply elem_of_app. by left.
    + subst x. cbn. lia.
    + apply sv_seqs0. cbn [buffers concat]. apply elem_of_app. by right.
  - cbn [buffers concat]. change (frozen ms') with (frozen (memtables db)). rewrite Em', weights_app.
    cbn [buffers concat] in sv_mem0. rewrite weights_app in sv_mem0. fold es in sv_mem0.
    pose proof (newest_weights (es ++ [e])) as Hw. rewrite weights_app in Hw. cbn [weights foldr] in Hw. lia.
  - lia.
Qed.

(** ** Flushing *)

Lemma served_frozen kv w t db m c : served d kv w t db m c → active_bytes (memtables db) > 0 →
  served d kv w t (set_memtables (freeze (memtables db)).2 db) m c.
Proof.
  intros [] Ha. set (ms := memtables db) in *.
  assert (Eb : buffers (freeze ms).2 = [] :: buffers ms).
  { unfold buffers, freeze. cbn [snd active frozen]. by rewrite reverse_snoc. }
  assert (El : layers (set_memtables (freeze ms).2 db) c = [] :: layers db c).
  { unfold layers. cbn [memtables set_memtables]. by rewrite Eb. }
  split; cbn [Db.dir options wal memtables manifest readers write_state set_memtables]; try done.
  - by apply freeze_arcs.
  - apply Forall_app. split; [done|]. constructor; [|done]. cbn. intros E. unfold active_bytes in Ha.
    rewrite sv_wf0, E in Ha. by vm_compute in Ha.
  - rewrite El. constructor; [done|]. apply Forall_forall. intros l _ k v x Hv. by apply elem_of_nil in Hv.
  - rewrite El. cbn [first_hit foldr]. fold (first_hit (layers db c)). change (list_to_map [] : kvmap) with (∅ : kvmap).
    by rewrite (left_id_L ∅ (∪)).
  - rewrite Eb. done.
  - rewrite Eb. done.
Qed.

(** The oldest frozen table is the last buffer. *)
Lemma buffers_oldest ms f fs : frozen ms = f :: fs → arcs_ok ms →
  buffers ms = buffers (discard_frozen f ms) ++ [buffer_of f] ∧ frozen (discard_frozen f ms) = fs ∧
  active (discard_frozen f ms) = active ms ∧ arcs_ok (discard_frozen f ms).
Proof.
  intros E [Hnd Hlt]. destruct ms as [a fz mb n]. cbn in E. subst fz.
  pose proof (discard_oldest f fs a mb n Hnd) as Ed. split_and!; [|exact Ed|done|].
  - unfold buffers. rewrite Ed. cbn [frozen active discard_frozen]. by rewrite reverse_cons, fmap_app.
  - unfold arcs_ok. rewrite Ed. cbn in *. apply NoDup_cons in Hnd as [_ Hnd]. by apply Forall_cons in Hlt as [_ Hlt].
Qed.

(** A table of the oldest frozen buffer's contents is current. *)
Section installed.
Context (kv : gmap bytes bytes) (w t : Z) (db : Db) (m : memfs) (c : Z → list Entry) (f : Frozen) (fs : list Frozen).
Context (Hs : served d kv w t db m c) (Hf : frozen (memtables db) = f :: fs).
Context (mf' : Manifest.Manifest) (m' : memfs) (c' : Z → list Entry).
Let v' := Manifest.version (current mf').
Context (Hd : Manifest.dir mf' = d) (Hv : version_inv d m' v' c') (Hc : cache_ok d m' v' (readers db)).
Context (Htl : tlists c' (tiers v') = buffer_of f :: tlists c (tiers (ver db))).
Context (Hseq : Manifest.next_seq v' = next_seq (write_state db)) (Hid : next_table_id v' = next_table_id (ver db) + 1).
Context (Hcount : blen (all_tables v') = blen (all_tables (ver db)) + 1).

Lemma installed_weight : tweight c' (tiers v') = weights (buffer_of f) + tweight c (tiers (ver db)).
Proof. unfold tweight. rewrite Htl. cbn [concat]. by rewrite weights_app. Qed.
Lemma buffer_weight : 33 ≤ weights (buffer_of f).
Proof.
  destruct Hs. rewrite Hf in sv_full0. apply Forall_cons in sv_full0 as [Hne _]. unfold buffer_of.
  destruct (bt_iter (map (table f))) as [|e l] eqn:E; [by apply bt_iter_nil in E|].
  cbn [weights foldr]. fold (weights l). pose proof (weight_pos e). pose proof (weights_nonneg l). lia.
Qed.
(** Whether or not the buffer has been dropped. *)
Lemma served_installed : served d kv w (t + weights (buffer_of f)) (set_manifest mf' db) m' c'.
Proof.
  pose proof installed_weight. pose proof buffer_weight. destruct Hs.
  destruct (buffers_oldest _ _ _ Hf sv_arcs0) as (Eb & _). set (ms' := discard_frozen f (memtables db)) in *.
  assert (El : layers (set_manifest mf' db) c' = buffers ms' ++ [buffer_of f] ++ buffer_of f :: tlists c (tiers (ver db))).
  { unfold layers. cbn [memtables manifest set_manifest]. fold v'. by rewrite Htl, Eb, <- (assoc_L (++)). }
  assert (El0 : layers db c = buffers ms' ++ buffer_of f :: tlists c (tiers (ver db))).
  { unfold layers. by rewrite Eb, <- (assoc_L (++)). }
  rewrite El0 in *. apply aged_app in sv_aged0 as (Ha & Hb & Hx). pose proof Hb as [Hb1 Hb2]%StronglySorted_inv.
  split; cbn [Db.dir options wal memtables manifest readers write_state set_manifest]; fold v'; try done; try lia.
  - rewrite El. apply aged_app. split; [done|]. split.
    + constructor; [done|]. constructor; [|done]. intros k x y Hx1 Hy1. right.
      apply (fst_snd_unique (buffer_of f) k); [apply sorted_keys_NoDup, bt_iter_sorted|done|done].
    + intros l1 l2 Hl1 [->|Hl2]%elem_of_cons; [apply Hx; [done|by left]|by apply Hx].
  - rewrite El. cbn [app]. rewrite !first_hit_app. cbn [first_hit foldr]. fold (first_hit (tlists c (tiers (ver db)))).
    rewrite (assoc_L (∪) (list_to_map (buffer_of f))), (idemp_L (∪)). rewrite <- sv_view0, first_hit_app. done.
Qed.
Lemma served_dropped : served d kv w (t + weights (buffer_of f)) (set_manifest mf' (set_memtables (discard_frozen f (memtables db)) db)) m' c'.
Proof.
  pose proof installed_weight. pose proof buffer_weight. destruct Hs.
  destruct (buffers_oldest _ _ _ Hf sv_arcs0) as (Eb & Ef & Ea & Harcs). set (ms' := discard_frozen f (memtables db)) in *.
  assert (El : layers (set_manifest mf' (set_memtables ms' db)) c' = layers db c).
  { unfold layers. cbn [memtables manifest set_manifest set_memtables]. fold v'. by rewrite Htl, Eb, <- (assoc_L (++)). }
  split; cbn [Db.dir options wal memtables manifest readers write_state set_manifest set_memtables]; fold v'; rewrite ?El, ?Ea; try done; try lia.
  - rewrite Ef. rewrite Hf in sv_full0. by apply Forall_cons in sv_full0 as [_ ?].
  - intros e He. apply sv_seqs0. rewrite Eb, concat_app. apply elem_of_app. by left.
  - rewrite Eb, concat_app, weights_app in sv_mem0. pose proof (weights_nonneg (concat [buffer_of f])). lia.
Qed.
End installed.

(** Cached readers stay good over a step of the version. *)
Lemma cache_ok_step m v c rs m' v' : version_inv d m v c → next_table_id v ≤ next_table_id v' →
  (∀ i, i ∈ referenced_ids v' → i < next_table_id v → i ∈ referenced_ids v ∧ m' !! table_path d i = m !! table_path d i) →
  cache_ok d m v rs → cache_ok d m' v' rs.
Proof.
  intros Hv Hid Hold Hc i r Hir. destruct (Hc i r Hir) as [Hlt Ho]. split; [lia|]. intros Hr.
  destruct (Hold i Hr Hlt) as [Hrv E]. pose proof Hrv as (meta & Hm & <-)%elem_of_referenced.
  destruct (vi_tables _ _ _ _ Hv meta Hm) as [Hx _]. by eapply reader_open_ext; [..|apply Ho].
Qed.

Lemma snapshot_iter (t0 : Memtable) : snapshot t0 = bt_iter (map t0).
Proof. unfold snapshot. induction (bt_iter (map t0)) as [|[k w] l IH]; [done|]. rewrite fmap_cons. by f_equal. Qed.

(** A version that stays current, over files that keep its tables. *)
Lemma served_same kv w t db m c mf' m' : served d kv w t db m c → version_fits (ver db) c →
  Manifest.dir mf' = d → Manifest.version (current mf') = ver db →
  (∀ i, i ∈ referenced_ids (ver db) → m' !! table_path d i = m !! table_path d i) →
  served d kv w t (set_manifest mf' db) m' c.
Proof. intros Hs Hfit Hd Hv E. apply served_manifest; [|done|done]. eapply served_files; [done|by eapply version_room|done]. Qed.

(** The table written from the oldest frozen buffer, and the version that names it. *)
Section written.
Context (kv : gmap bytes bytes) (w t : Z) (db : Db) (m : memfs) (c : Z → list Entry) (f : Frozen) (fs : list Frozen).
Context (Hserve : served d kv w t db m c) (Hf : frozen (memtables db) = f :: fs).
Context (Hw : w ≤ 2 ^ 30) (Ht : t + weights (buffer_of f) ≤ 2 ^ 30).
Let oid := next_table_id (ver db).
Let v' := flushed (ver db) (meta_of oid (buffer_of f)) (next_seq (write_state db)).
Let c' := upd c oid (buffer_of f).

Lemma write_oldest : m !! table_path d oid = None →
  ∃ m1, Compaction.write_table (table_path d oid) oid (blen (buffer_of f)) (buffer_of f) m = (Ok (Some (meta_of oid (buffer_of f))), m1) ∧
    staged d m (ver db) c m1 v' c' ∧ tlists c' (tiers v') = buffer_of f :: tlists c (tiers (ver db)) ∧
    next_table_id v' = oid + 1 ∧ Manifest.next_seq v' = next_seq (write_state db) ∧ blen (all_tables v') = blen (all_tables (ver db)) + 1.
Proof.
  intros Hm. pose proof (weights_nonneg (buffer_of f)). destruct Hserve. destruct (buffers_oldest _ _ _ Hf sv_arcs0) as (Eb & _).
  fold oid in sv_ids0. apply flush_table_ok; fold oid; try done; try lia.
  - intros E. apply bt_iter_nil in E. rewrite Hf in sv_full0. by apply Forall_cons in sv_full0 as [? _].
  - apply bt_iter_sorted.
  - intros e He. apply sv_seqs0. rewrite Eb, concat_app, elem_of_app. right. cbn. by rewrite app_nil_r.
  - apply newer_than_concat. unfold layers in sv_aged0. rewrite Eb, <- (assoc_L (++)) in sv_aged0.
    by apply aged_app in sv_aged0 as (_ & [_ Hn]%StronglySorted_inv & _).
Qed.

Lemma served_written m1 mf' m' :
  staged d m (ver db) c m1 v' c' → tlists c' (tiers v') = buffer_of f :: tlists c (tiers (ver db)) →
  next_table_id v' = oid + 1 → Manifest.next_seq v' = next_seq (write_state db) →
  blen (all_tables v') = blen (all_tables (ver db)) + 1 →
  Manifest.version (current mf') = v' → kept d m1 mf' m' →
  served d kv w (t + weights (buffer_of f)) (set_manifest mf' db) m' c' ∧
  served d kv w (t + weights (buffer_of f)) (set_manifest mf' (set_memtables (discard_frozen f (memtables db)) db)) m' c'.
Proof.
  intros Hsg Htl Hid Hseq Hcount Hv Hk. pose proof (staged_outside _ _ _ _ _ _ _ Hsg) as Ho. pose proof (weights_nonneg (buffer_of f)).
  pose proof (served_fits _ _ _ _ _ _ _ Hserve Hw ltac:(lia)) as Hfit.
  pose proof (kept_settled d m1 mf' m' v' c' (sg_version _ _ _ _ _ _ _ Hsg) (sg_fits _ _ _ _ _ _ _ Hsg) Hv Hk) as Hst.
  pose proof (st_inv _ _ _ _ _ _ _ Hst). destruct Hk as [Hd _].
  assert (Hc' : cache_ok d m' v' (readers db)).
  { pose proof (sv_ver _ _ _ _ _ _ _ Hserve). pose proof (sv_cache _ _ _ _ _ _ _ Hserve).
    eapply (cache_ok_step m (ver db) c); [done|fold oid; lia| |done]. intros i Hi Hlt. destruct (sg_refs _ _ _ _ _ _ _ Hsg i Hi Hlt) as (Hr & _ & _).
    split; [done|]. rewrite (proj2 (st_old _ _ _ _ _ _ _ Hst i Hi ltac:(fold oid in Hlt; lia))). by eapply fresh_table. }
  split; [eapply served_installed|eapply served_dropped]; rewrite ?Hv; done.
Qed.
End written.

Lemma flush_frozen_faulty kv w t db m c f fs s :
  served d kv w t db m c → frozen (memtables db) = f :: fs → w ≤ 2 ^ 30 → t + weights (buffer_of f) ≤ 2 ^ 30 → shows s m →
  wp (flush_frozen (next_seq (write_state db)) f) (db, s)
    (λ _ x, ∃ m' c', shows x.2 m' ∧ served d kv w (t + weights (buffer_of f)) x.1 m' c' ∧
       frozen (memtables x.1) = fs ∧ write_state x.1 = write_state db)
    (λ x, ∃ m' c', shows x.2 m' ∧ served d kv w (t + weights (buffer_of f)) x.1 m' c' ∧ write_state x.1 = write_state db).
Proof.
  intros Hserve Hf Hw Ht Hs. pose proof (weights_nonneg (buffer_of f)) as Hwf. pose proof (sv_ver _ _ _ _ _ _ _ Hserve) as Hver.
  pose proof (sv_dir _ _ _ _ _ _ _ Hserve) as Hdir. pose proof (sv_mf _ _ _ _ _ _ _ Hserve) as Hmf.
  pose proof (served_fits _ _ _ _ _ _ _ Hserve Hw ltac:(lia)) as Hfit.
  assert (Hmore : served d kv w (t + weights (buffer_of f)) db m c) by (eapply served_budget; [exact Hserve|lia|lia]).
  unfold flush_frozen. apply wp_with_version, wp_bind, wp_get_fst, wp_bind, wp_on_snd, wp_map_err.
  cbn [Db.dir set_manifest]. rewrite Hdir. cbv zeta. rewrite snapshot_iter. fold (buffer_of f).
  set (oid := next_table_id (ver db)). set (p := table_path d oid). set (a := Manifest.arc_id (current (manifest db))).
  assert (Hp : is_child_of p d = true) by apply is_child_join.
  (* nothing was installed: the new file is no table of the version *)
  assert (Hsame : ∀ s', (∃ m1, shows s' m1 ∧ outside (eq p) m m1) → ∃ m' c', shows s' m' ∧
    served d kv w (t + weights (buffer_of f)) (set_manifest (unpin a (pin a (manifest db))) db) m' c' ∧ write_state db = write_state db).
  { intros s1 (m1 & Hs1 & Ho). exists m1, c. split; [done|]. split; [|done]. eapply served_same; try done. by eapply fresh_table. }
  destruct (m !! p) as [b|] eqn:Hm.
  { by eapply wp_mono; [by eapply (write_table_taken d (eq p) p)|done|exact Hsame]. }
  destruct (write_oldest kv w t db m c f fs Hserve Hf Hw Ht Hm) as (m1 & Hwt & Hsg & Htl & Hid & Hseq & Hcount).
  eapply wp_mono; [eapply (t_write_table d (eq p)); [done|done|exact Hs|exact Hwt]|..]; cbn beta; [|exact Hsame].
  intros r s1 (-> & Hs1 & Ho1). cbn beta iota. apply wp_bind, wp_zoom, wp_map_err. cbn [manifest set_manifest].
  pose proof (λ mf' m', served_written kv w t db m c f fs Hserve Hf Hw Ht m1 mf' m' Hsg Htl Hid Hseq Hcount) as Hnew.
  eapply wp_mono; [apply install_faulty; [exact Hmf|exact Hs1]|..]; cbn beta.
  - intros _ [mf' s2] (m2 & Hs2 & Hk & Hv). cbn [fst snd] in *. apply wp_mod_fst. exists m2, (upd c oid (buffer_of f)).
    split; [done|]. destruct (Hnew (unpin a mf') m2 Hv Hk) as [_ Hd2]. split; [exact Hd2|]. split; [|done].
    pose proof (sv_arcs _ _ _ _ _ _ _ Hserve) as Harcs. by destruct (buffers_oldest _ _ _ Hf Harcs) as (_ & ? & _).
  - intros [mf' s2] (m2 & Hs2 & Hk & [Hv|Hv]); cbn [fst snd] in *.
    + exists m2, (upd c oid (buffer_of f)). split; [done|]. split; [|done]. by destruct (Hnew (unpin a mf') m2 Hv Hk).
    + exists m2, c. split; [done|]. split; [|done]. destruct Hk as [Hd Hk]. apply (served_same kv w (t + weights (buffer_of f)) db m c (unpin a mf') m2); try done.
      intros i Hi. destruct (version_ids d m _ c i Hver Hfit Hi). rewrite Hk; [by eapply fresh_table|by rewrite ?Hv|done].
Qed.

(** The frozen tables, oldest first, until one fails. *)
Lemma flush_all_faulty kv w fs : ∀ t db m c s,
  served d kv w t db m c → frozen (memtables db) = fs → w ≤ 2 ^ 30 → t + weights (concat (buffer_of <$> fs)) ≤ 2 ^ 30 → shows s m →
  let post := λ x : Db * S, ∃ m' c', shows x.2 m' ∧ served d kv w (t + weights (concat (buffer_of <$> fs))) x.1 m' c' ∧
    write_state x.1 = write_state db in
  wp (for_each fs (flush_frozen (next_seq (write_state db)))) (db, s) (λ _, post) post.
Proof.
  induction fs as [|f fs IH]; intros t db m c s Hserve Hf Hw Ht Hs post.
  { apply wp_ret. exists m, c. split; [done|]. split; [|done]. by rewrite Z.add_0_r. }
  assert (Ew : weights (concat (buffer_of <$> f :: fs)) = weights (buffer_of f) + weights (concat (buffer_of <$> fs))).
  { rewrite fmap_cons. cbn [concat]. by rewrite weights_app. }
  pose proof (weights_nonneg (concat (buffer_of <$> fs))) as Hn. cbn [for_each].
  apply wp_bind. eapply wp_mono; [apply (flush_frozen_faulty kv w t db m c f fs s); [done|done|done|lia|done]|..]; cbn beta.
  - intros _ [db1 s1] (m1 & c1 & Hs1 & Hserve1 & Hf1 & Ews). cbn [fst snd] in *. rewrite <- Ews.
    assert (Hpost : ∀ x, (∃ m' c', shows x.2 m' ∧ served d kv w (t + weights (buffer_of f) + weights (concat (buffer_of <$> fs))) x.1 m' c' ∧
      write_state x.1 = write_state db1) → post x).
    { intros x (m2 & c2 & Hs2 & Hserve2 & Ews2). exists m2, c2. split_and!; [done| |congruence]. by rewrite Ew, Z.add_assoc. }
    eapply wp_mono; [apply (IH (t + weights (buffer_of f)) db1 m1 c1 s1); [exact Hserve1|done|done|lia|done]|..]; cbv zeta beta; auto.
  - intros x (m1 & c1 & Hs1 & Hserve1 & Ews). exists m1, c1. split; [done|]. split; [|done].
    eapply served_budget; [exact Hserve1|lia|lia].
Qed.

(** ** Compacting *)

Lemma served_steps kv w t db m c mf' m' c' : served d kv w t db m c → steps d (manifest db) m c mf' m' c' →
  served d kv w t (set_manifest mf' db) m' c'.
Proof.
  intros Hserve [Hd Hst]. pose proof (layers_sorted _ _ _ _ _ _ _ Hserve) as Hsort. destruct Hserve. pose proof Hst as [].
  unfold layers in *. apply aged_app in sv_aged0 as (Ha & Hb & Hx).
  split; unfold layers; cbn [Db.dir options wal memtables manifest readers write_state set_manifest]; try done; try lia.
  - by eapply (cache_ok_step m (ver db) c).
  - apply aged_app. split; [done|]. split; [apply (vi_aged _ _ _ _ st_inv0)|].
    intros l1 l2 Hl1 Hl2 k x y Hx1 Hy1.
    assert (Hy2 : (k, y) ∈ concat (tlists c (tiers (ver db)))) by (apply st_sub0, elem_of_concat; by exists l2).
    apply elem_of_concat in Hy2 as (l3 & Hl3 & Hy3). by apply (Hx l1 l3 Hl1 Hl3 k).
  - rewrite first_hit_app in *. rewrite <- sv_view0, <- !(tview_first_hit d _ _ _) by done. by apply same_live_union.
Qed.

Lemma compact_all_faulty kv w fuel : ∀ t db m c s,
  served d kv w t db m c → w ≤ 2 ^ 30 → t ≤ 2 ^ 30 → blen (all_tables (ver db)) < Z.of_nat fuel → shows s m →
  let post := λ x : Db * S, ∃ m' c', shows x.2 m' ∧ served d kv w t x.1 m' c' ∧ write_state x.1 = write_state db in
  wp (compact_all fuel (tier_fanout (options db))) (db, s) (λ _, post) post.
Proof.
  induction fuel as [|fuel IH]; intros t db m c s Hserve Hw Ht Hfuel Hs post.
  { pose proof (blen_nonneg (all_tables (ver db))). lia. }
  assert (Hfit : version_fits (ver db) c) by by eapply served_fits.
  cbn [compact_all]. apply wp_bind, wp_zoom, wp_map_err. pose proof Hserve as [].
  eapply wp_mono; [by apply maybe_compact_faulty|..]; cbn beta.
  - intros b [mf1 s1] (m1 & c1 & Hs1 & Hst & Hlt). cbn [fst snd] in *.
    pose proof (served_steps _ _ _ _ _ _ _ _ _ Hserve Hst) as Hserve1. destruct b.
    + change (tier_fanout (options db)) with (tier_fanout (options (set_manifest mf1 db))).
      specialize (Hlt eq_refl). apply (IH t (set_manifest mf1 db) m1 c1 s1); [done|done|done| |done].
      change (ver (set_manifest mf1 db)) with (Manifest.version (current mf1)). lia.
    + apply wp_ret. by exists m1, c1.
  - intros [mf1 s1] (m1 & c1 & Hs1 & Hst). exists m1, c1. cbn [fst snd] in *. split; [done|]. split; [|done]. by eapply served_steps.
Qed.

(** ** A whole flush *)

Lemma weights_reverse (ls : list (list Entry)) : weights (concat (reverse ls)) = weights (concat ls).
Proof.
  induction ls as [|l ls IH]; [done|]. rewrite reverse_cons, concat_app, weights_app, IH. cbn [concat].
  rewrite app_nil_r, weights_app. lia.
Qed.

Lemma served_wal kv w t db m c wal' m' : served d kv w t db m c → w ≤ 2 ^ 30 → t ≤ 2 ^ 30 → log_in d wal' →
  outside (wal_file d) m m' → served d kv w t (set_wal wal' db) m' c.
Proof. intros Hs Hw Ht Hlog Ho. apply (served_outside _ _ _ _ _ _ m') in Hs; [|done..]. by destruct Hs. Qed.

Lemma flush_quiesced_faulty kv w t db m c s :
  served d kv w t db m c → w ≤ 2 ^ 30 → t + w ≤ 2 ^ 30 → shows s m →
  let post := λ x : Db * S, ∃ m' c', shows x.2 m' ∧ served d kv w (t + w) x.1 m' c' ∧ write_state x.1 = write_state db in
  wp flush_quiesced (db, s) (λ _, post) post.
Proof.
  intros Hserve Hw Ht Hs post. unfold flush_quiesced. apply wp_bind, wp_mod_fst.
  set (db1 := if decide _ then _ else db).
  assert (H1 : served d kv w t db1 m c ∧ write_state db1 = write_state db).
  { unfold db1. case_decide; [|done]. split; [|done]. by apply served_frozen. }
  destruct H1 as [Hserve1 Ews]. apply wp_bind, wp_get_fst, wp_bind.
  assert (Hfz : 0 ≤ weights (concat (buffer_of <$> frozen (memtables db1))) ≤ w).
  { split; [apply weights_nonneg|]. pose proof (sv_mem _ _ _ _ _ _ _ Hserve1) as Hm. unfold buffers in Hm. cbn [concat] in Hm.
    rewrite weights_app, fmap_reverse, weights_reverse in Hm.
    pose proof (weights_nonneg (bt_iter (map (active (memtables db1))))). lia. }
  assert (Hpost : ∀ x, (∃ m' c', shows x.2 m' ∧ served d kv w (t + weights (concat (buffer_of <$> frozen (memtables db1)))) x.1 m' c' ∧
      write_state x.1 = write_state db1) → ∃ m' c', shows x.2 m' ∧ served d kv w (t + w) x.1 m' c' ∧ write_state x.1 = write_state db).
  { intros x (m' & c' & ? & Hx & ?). exists m', c'. split_and!; [done| |congruence]. eapply served_budget; [exact Hx|lia|lia]. }
  eapply wp_mono; [eapply flush_all_faulty; [exact Hserve1|done|done|lia|done]|..]; cbv zeta beta; [|exact Hpost].
  intros _ [db2 s2] (m2 & c2 & Hs2 & Hserve2 & Ews2)%Hpost. cbn [fst snd] in *. apply wp_bind, wp_zoom, wp_map_err.
  assert (Hlog : log_in d (wal db2) ∧ touching shows (wal_file d) m2 s2) by (split; [by apply sv_log in Hserve2|by exists m2]).
  eapply wp_mono; [eapply wp_calm; [apply (calm_reset d m2)|exact Hlog]|..]; cbn beta.
  2:{ intros [wal3 s3] [Hl3 (m3 & Hs3 & Ho)]. exists m3, c2. split; [done|]. split; [|done]. by eapply served_wal. }
  intros _ [wal3 s3] [_ [Hl3 (m3 & Hs3 & Ho)]]. cbn [fst snd] in *. apply wp_bind, wp_get_fst.
  eapply wp_mono; [eapply (compact_all_faulty kv w _ (t + w) (set_wal wal3 db2) m3 c2 s3);
    [by eapply served_wal|done|done|unfold blen; cbn; lia|done]|..]; cbv zeta beta.
  - intros _ x (m4 & c4 & ? & ? & Ew4). exists m4, c4. split_and!; [done|done|]. by rewrite Ew4.
  - intros x (m4 & c4 & ? & ? & Ew4). exists m4, c4. split_and!; [done|done|]. by rewrite Ew4.
Qed.

(** Between calls no flush is pending. *)
Definition ready kv w t db m : Prop := ∃ c, served d kv w t db m c ∧ flush_pending (write_state db) = false.

Lemma flush_locked_faulty kv w t db m c s :
  served d kv w t db m c → w ≤ 2 ^ 30 → t + w ≤ 2 ^ 30 → shows s m →
  let post := λ x : Db * S, ∃ m', shows x.2 m' ∧ ready kv w (t + w) x.1 m' in
  wp flush_locked (db, s) (λ _, post) post.
Proof.
  intros Hserve Hw Ht Hs post. pose proof Hserve as []. unfold flush_locked. apply wp_bind, wp_mod_fst, wp_bind, wp_get_fst.
  cbn [mod_write set_write write_state set_flush_pending in_flight]. rewrite sv_idle0. rewrite decide_False by lia.
  assert (Hend : ∀ db' s' m' c', shows s' m' → served d kv w (t + w) db' m' c' →
    post (mod_write (set_flush_pending false) db', s')).
  { intros db' s' m' c' Hs' Hserve'. exists m'. split; [done|]. exists c'. split; [|done].
    apply served_write_state; [done|done|]. cbn. by apply sv_idle in Hserve'. }
  apply wp_bind, wp_attempt. eapply wp_mono; [apply (flush_quiesced_faulty kv w t _ m c s); [|done|done|done]|..]; cbv zeta beta.
  - by apply served_write_state.
  - intros [] [db1 s1] (m1 & c1 & Hs1 & Hserve1 & _). cbn [fst snd] in *. apply wp_bind, wp_mod_fst, wp_ret. by eapply Hend.
  - intros [db1 s1] (m1 & c1 & Hs1 & Hserve1 & _) e. cbn [fst snd] in *. apply wp_bind, wp_mod_fst, wp_err. by eapply Hend.
Qed.

Lemma write_faulty kv w t db m k kd s :
  let w' := w + write_cost k kd in
  ready kv w t db m → w' ≤ 2 ^ 30 → t + w' ≤ 2 ^ 30 → shows s m →
  wp (Db.write k kd) (db, s)
    (λ _ x, ∃ m', shows x.2 m' ∧ ready (apply_kind k kd kv) w' (t + w') x.1 m')
    (λ x, ∃ m' kv', shows x.2 m' ∧ (kv' = kv ∨ kv' = apply_kind k kd kv) ∧ ready kv' w' (t + w') x.1 m').
Proof.
  intros w' (c & Hserve & Hp) Hw Ht Hs. pose proof (write_cost_pos k kd) as Hcost.
  assert (Hw0 : 0 ≤ w) by (pose proof (sv_mem _ _ _ _ _ _ _ Hserve); pose proof (weights_nonneg (concat (buffers (memtables db)))); lia).
  pose proof Hserve as []. unfold Db.write. apply wp_bind, wp_get_fst. rewrite Hp. set (q := next_seq (write_state db)).
  apply wp_bind, wp_mod_fst, wp_bind, wp_attempt, wp_zoom, wp_map_err. change (wal (mod_write claim db)) with (wal db).
  assert (Hlog0 : log_in d (wal db) ∧ touching shows (wal_file d) m s) by (split; [done|by exists m]).
  (* the state once the claim is settled *)
  assert (Hlogged : ∀ wal', log_in d wal' → ∀ m', outside (wal_file d) m m' →
    served d kv (w + 1) t (mod_write settle (set_wal wal' (mod_write claim db))) m' c).
  { intros wal' Hl m' Ho. eapply served_logged; [done|lia|lia|done|done]. }
  eapply wp_mono; [eapply wp_calm; [apply (calm_append d m)|exact Hlog0]|..]; cbn beta.
  - intros _ [wal' s1] [_ [Hl (m1 & Hs1 & Ho)]]. cbn [fst snd] in *. apply wp_bind, wp_mod_fst, wp_bind, wp_mod_fst, wp_bind, wp_get_fst.
    specialize (Hlogged wal' Hl m1 Ho).
    assert (Eq : next_seq (write_state (mod_write settle (set_wal wal' (mod_write claim db)))) = q + 1).
    { cbn. apply u64_wrap_id. fold q in sv_seq_max0, sv_next0. lia. }
    pose proof (served_inserted kv (w + 1) t _ m1 c k kd q Hlogged) as Hins. rewrite Eq in Hins.
    fold q in sv_next0. specialize (Hins ltac:(lia) ltac:(lia) ltac:(cbn; lia) ltac:(intros e He; by apply sv_seqs0)).
    assert (Hweight : w + 1 + weight (k, mkValue q kd) ≤ w').
    { unfold w', write_cost. rewrite !weight_alt. cbn. lia. }
    set (db1 := set_memtables _ (mod_write settle _)) in Hins.
    match goal with |- wp (if is_full (memtables ?x) then _ else _) _ _ _ => change x with db1 end.
    destruct (is_full (memtables db1)).
    + eapply wp_mono; [apply (flush_locked_faulty (apply_kind k kd kv) w' t db1 m1 c s1); [|done|done|done]|..]; cbv zeta beta.
      * eapply served_budget; [exact Hins|done|done].
      * done.
      * intros x (m2 & ? & ?). exists m2, (apply_kind k kd kv). split_and!; [done|by right|done].
    + apply wp_ret. exists m1. split; [done|]. exists c. split; [|done]. eapply served_budget; [exact Hins|lia|lia].
  - intros [wal' s1] [Hl (m1 & Hs1 & Ho)] e. cbn [fst snd] in *. apply wp_bind, wp_mod_fst, wp_err.
    exists m1, kv. split; [done|]. split; [by left|]. exists c. split; [|done].
    eapply served_budget; [by apply Hlogged|unfold w'; lia|unfold w'; lia].
Qed.

(** ** Calls *)

Lemma ready_reads kv w t db m db' : ready kv w t db m → reads_to db m db' → ready kv w t db' m.
Proof.
  intros (c & Hserve & Hp) Hr. exists c. split; [by eapply served_reads|]. destruct Hr as [(_ & _ & _ & _ & -> & _) _]. done.
Qed.
Lemma ready_budget kv w t db m w' t' : ready kv w t db m → w ≤ w' → t ≤ t' → ready kv w' t' db m.
Proof. intros (c & Hserve & Hp) ? ?. exists c. split; [by eapply served_budget|done]. Qed.

Lemma run_op_faulty kv w t db m (o : op) s :
  let w' := w + op_cost o in
  ready kv w t db m → op_ok o → w' ≤ 2 ^ 30 → t + w' ≤ 2 ^ 30 → shows s m →
  wp (run_op o) (db, s)
    (λ r x, r = (spec_step kv o).1 ∧ ∃ m', shows x.2 m' ∧ ready (spec_step kv o).2 w' (t + w') x.1 m')
    (λ x, ∃ m' kv', shows x.2 m' ∧ (kv' = kv ∨ kv' = (spec_step kv o).2) ∧ ready kv' w' (t + w') x.1 m').
Proof.
  intros w' Hready Hok Hw Ht Hs. pose proof Hready as (c & Hserve & Hp).
  assert (Hw0 : 0 ≤ w) by (pose proof (sv_mem _ _ _ _ _ _ _ Hserve); pose proof (weights_nonneg (concat (buffers (memtables db)))); lia).
  assert (Hread : ∀ db', reads_to db m db' → ready kv w' (t + w') db' m).
  { intros db' Hr. pose proof (op_cost_nonneg o). eapply ready_budget; [by eapply ready_reads|unfold w'; lia|unfold w'; lia]. }
  destruct o as [k v|k|k|r|]; cbn [run_op spec_step fst snd op_ok] in *; apply wp_bind.
  - eapply wp_mono; [by apply (write_faulty kv w t db m k (Value v) s)|..]; cbv zeta beta; [|done]. intros _ x Hx. by apply wp_ret.
  - eapply wp_mono; [by apply (write_faulty kv w t db m k Tombstone s)|..]; cbv zeta beta; [|done]. intros _ x Hx. by apply wp_ret.
  - eapply wp_mono; [by eapply (get_faulty kv w t db m c k s)|..]; cbn beta.
    + intros r x (Hs' & Hr & ->). apply wp_ret. split; [done|]. exists m. split; [done|by apply Hread].
    + intros x (Hs' & Hr). exists m, kv. split_and!; [done|by left|by apply Hread].
  - eapply wp_mono; [by eapply (scan_faulty kv w t db m c r s)|..]; cbn beta.
    + intros it x (Hs' & Hr & Hl). apply wp_bind. unfold of_outcome. rewrite Hl. apply wp_ret, wp_ret. split; [done|].
      exists m. split; [done|by apply Hread].
    + intros x (Hs' & Hr). exists m, kv. split_and!; [done|by left|by apply Hread].
  - eapply wp_mono; [by apply (flush_locked_faulty kv w t db m c s); [..|cbn in *; lia|cbn in *; lia|]|..]; cbv zeta beta.
    + intros _ x (m' & Hs' & Hr). apply wp_ret. split; [done|]. exists m'. split; [done|]. eapply ready_budget; [exact Hr|cbn in *; lia|cbn in *; lia].
    + intros x (m' & Hs' & Hr). exists m', kv. split; [done|]. split; [by left|]. eapply ready_budget; [exact Hr|cbn in *; lia|cbn in *; lia].
Qed.
Lemma run_each_faulty ops : ∀ kv w t db m s,
  ready kv w t db m → Forall op_ok ops → w + total_cost ops ≤ 2 ^ 30 →
  t + Z.of_nat (length ops) * (w + total_cost ops) ≤ 2 ^ 30 → shows s m →
  wp (run_each ops) (db, s) (λ rs x, ∃ kv', answered kv ops rs kv' ∧ ∃ m' w' t', shows x.2 m' ∧ ready kv' w' t' x.1 m') (λ _, False).
Proof.
  induction ops as [|o ops IH]; intros kv w t db m s Hready Hok Hw Ht Hs.
  { apply wp_ret. exists kv. split; [constructor|]. by exists m, w, t. }
  apply Forall_cons in Hok as [Ho Hok]. cbn [total_cost foldr] in *. fold (total_cost ops) in *.
  pose proof (total_cost_nonneg ops) as Hc. pose proof (op_cost_nonneg o) as Hoc.
  assert (Hw0 : 0 ≤ w).
  { destruct Hready as (c & Hserve & _). pose proof (sv_mem _ _ _ _ _ _ _ Hserve). pose proof (weights_nonneg (concat (buffers (memtables db)))). lia. }
  assert (Ht' : t + (w + op_cost o) + Z.of_nat (length ops) * (w + op_cost o + total_cost ops) ≤ 2 ^ 30) by (cbn [length] in Ht; lia).
  assert (Hlen : 0 ≤ Z.of_nat (length ops) * (w + op_cost o + total_cost ops)) by (apply Z.mul_nonneg_nonneg; lia).
  assert (Hnext : ∀ kv1 (x : Db * S) m1 r, shows x.2 m1 → ready kv1 (w + op_cost o) (t + (w + op_cost o)) x.1 m1 →
    (∀ rs kv', answered kv1 ops rs kv' → answered kv (o :: ops) (r :: rs) kv') →
    wp (rs ← run_each ops; mret (r :: rs)) x
      (λ rs x, ∃ kv', answered kv (o :: ops) rs kv' ∧ ∃ m' w' t', shows x.2 m' ∧ ready kv' w' t' x.1 m') (λ _, False)).
  { intros kv1 [db1 s1] m1 r Hs1 Hr1 Hans. cbn [fst snd] in *. apply wp_bind.
    eapply wp_mono; [apply (IH kv1 _ _ db1 m1 s1 Hr1); [done|lia|lia|done]|..]; cbn beta; [|done].
    intros rs x (kv' & Ha & Hend). apply wp_ret. exists kv'. split; [by apply Hans|done]. }
  cbn [run_each]. apply wp_bind, wp_attempt.
  eapply wp_mono; [apply (run_op_faulty kv w t db m o s); [done|done|lia|lia|done]|..]; cbv zeta beta.
  - intros r x (-> & m1 & Hs1 & Hr1). eapply Hnext; [done..|]. intros. by constructor.
  - intros x (m1 & kv1 & Hs1 & [->| ->] & Hr1) e; (eapply Hnext; [done..|]); intros; [by apply answered_not_done|by apply answered_done].
Qed.

(** An engine that stands for a map serves it. *)
Lemma mem_rep_ready o kv u db m : mem_rep d o kv u db m → ready kv u u db m.
Proof.
  intros (c & es & [Hi _] & Hv & Hd & Ho & Hp). exists c. split; [|done].
  pose proof (newest_weights es). pose proof (tweight_nonneg c (tiers (ver db))). pose proof (weights_nonneg es).
  pose proof (db_view_union _ _ _ _ _ Hi) as Hu. pose proof (wal_holds_path _ _ _ (di_wal _ _ _ _ _ Hi)) as [i Hi1]. destruct Hi.
  assert (Hver : version_inv d m (ver db) c) by (rewrite <- Hd, <- di_mf_dir0; by apply (mi_version _ _ _ di_manifest0)).
  assert (Eb : buffers (memtables db) = [bt_iter (newest es)]) by (unfold buffers; by rewrite di_mem0, di_frozen0).
  split; unfold layers; rewrite ?Eb; try done; try lia.
  - split; [congruence|]. split; [exists i; by rewrite Hi1, di_wal_dir0, Hd|]. by destruct di_wal0 as [_ (_ & ? & _)].
  - congruence.
  - by rewrite <- Hd.
  - unfold arcs_ok. by rewrite di_frozen0; split; [constructor|].
  - by rewrite di_frozen0.
  - cbn [app]. constructor; [apply (vi_aged _ _ _ _ Hver)|]. apply Forall_forall. intros l Hl k x y Hx Hy.
    apply (di_newer0 k x y Hx). apply elem_of_concat. by exists l.
  - rewrite first_hit_app. cbn [first_hit foldr]. rewrite list_to_map_iter, (right_id_L ∅ (∪)).
    fold (first_hit (tlists c (tiers (ver db)))). by rewrite <- (tview_first_hit d m _ _ Hver), <- Hu.
  - intros [k v]. cbn [concat]. rewrite app_nil_r. intros Hx%elem_of_bt_iter%newest_lookup. by apply di_seqs0.
  - cbn [concat]. rewrite app_nil_r. lia.
Qed.

(** C4: an engine on a storage any of whose calls may fail never panics, and its caller
    may go on after an error: every answer is the key-value map's, and a call that fails
    has left the map alone or done what it was asked. *)
Theorem faults_answered o kv u db s m (ops : list op) :
  shows s m → mem_rep d o kv u db m → Forall op_ok ops →
  u + Z.of_nat (length ops) * (u + total_cost ops) ≤ 2 ^ 30 →
  ∃ rs db' s' kv', run_each ops (db, s) = (Ok rs, (db', s')) ∧ answered kv ops rs kv'.
Proof.
  intros Hs Hrep Hok Hu. pose proof (mem_rep_ready o kv u db m Hrep) as Hready.
  destruct ops as [|p ops]; [by exists [], db, s, kv; split; [|constructor]|].
  assert (Hcost : 0 ≤ u ∧ u + total_cost (p :: ops) ≤ 2 ^ 30).
  { pose proof (total_cost_nonneg (p :: ops)). destruct Hrep as (c & es & [[] _] & _). cbn [length] in Hu. split; [lia|nia]. }
  pose proof (run_each_faulty (p :: ops) kv u u db m s Hready Hok (proj2 Hcost) Hu Hs) as Hrun. unfold wp in Hrun.
  destruct (run_each (p :: ops) (db, s)) as [[rs|e|] [db' s']]; [|done..]. destruct Hrun as (kv' & Ha & _).
  by exists rs, db', s', kv'.
Qed.
End faulty.
End spec.

(** * On the operating system *)

#[local] Existing Instance Sample.crc.
#[local] Existing Instance Sample.crc_laws.
#[local] Existing Instance Sample.xxh3.

Lemma faults_answered_witness :
  let d := [lit "/"; lit "var"; lit "db"] in
  ∃ db s, RealDb.open (λ _, 4096) d sample_options RealDb.patchy = (Ok db, s) ∧
    ∀ es, ∃ rs db' s' kv',
      run_each (H1:=RealFs.real_storage (λ _, 4096)) sample_ops (db, RealFs.mkOs (RealFs.nodes s) es) = (Ok rs, (db', s')) ∧
      answered ∅ sample_ops rs kv'.
Proof.
  intros d. destruct (RealDb.os_open_fresh (λ _, 4096) d sample_options RealDb.patchy) as (db & s & Ho & _ & m & Hs & Hrep).
  - by repeat constructor.
  - done.
  - intros p [n ->]%child_of_join. unfold RealDb.patchy; cbn [RealFs.nodes]; by rewrite lookup_singleton_ne.
  - done.
  - exists db, s. split; [exact Ho|]. intros es.
    apply (faults_answered (ST:=RealFs.real_storage (λ _, 4096)) d (FT:=RealFaults.real_faulty (λ _, 4096) d)
      sample_options ∅ 1 db (RealFs.mkOs (RealFs.nodes s) es) m sample_ops).
    + destruct Hs as [H1 H2 H3 _]. exact (RealFaults.Build_os_shows d (RealFs.mkOs (RealFs.nodes s) es) m H1 H2 H3).
    + exact Hrep.
    + by repeat constructor.
    + by vm_compute.
Defined.

(** Calls on a fresh directory while the system has [es] in store, then calls on the
    directory opened again with nothing failing. *)
Definition before_and_after (dur : Wal.Durability) (ops1 : list op) (es : list RealFs.event) (ops2 : list op) : option (list (resp + ())) :=
  let d := [lit "/"; lit "db"] in
  let o := mkOptions dur 64 2 in
  let run ops x := run_each (H1:=RealFs.real_storage (λ _, 4096)) ops x in
  let seen rs := (λ r : resp + DbError, match r with inl x => inl x | inr _ => inr () end) <$> rs in
  match RealDb.open (λ _, 4096) d o (RealFs.mkOs {[ [lit "/"] := RealFs.Dir ]} []) with
  | (Ok db, s) =>
      match run ops1 (db, RealFs.mkOs (RealFs.nodes s) es) with
      | (Ok rs1, (_, s)) =>
          match RealDb.open (λ _, 4096) d o (RealFs.mkOs (RealFs.nodes s) []) with
          | (Ok db, s) => match run ops2 (db, s) with (Ok rs2, _) => Some (seen rs1 ++ seen rs2) | _ => None end
          | _ => None
          end
      | _ => None
      end
  | _ => None
  end.
Definition put_a_put_b : list op := [OpPut (lit "a") (lit "1"); OpPut (lit "b") (lit "2")].

(** A put that fails is not seen; the next one is. *)
Example failed_put_is_not_seen dur e :
  before_and_after dur (put_a_put_b ++ [OpGet (lit "a"); OpGet (lit "b")]) [RealFs.Go; RealFs.Go; RealFs.Fault e] [] =
  Some [inr (); inl Done; inl (Found None); inl (Found (Some (lit "2")))].
Proof. by destruct dur; vm_compute. Qed.
(** A put that fails half way through its frame leaves the half in the log; the next put
    is acknowledged behind it, and the directory opened again does not have it. *)
Example torn_append_loses_the_next dur e :
  before_and_after dur put_a_put_b [RealFs.Go; RealFs.Go; RealFs.Short 4; RealFs.Fault e] [OpGet (lit "b")] =
  Some [inr (); inl Done; inl (Found None)].
Proof. by destruct dur; vm_compute. Qed.
(** One failed call of a flush leaves a table file no version names; every later flush
    finds its name taken, in the directory opened again as well. *)
Example failed_flush_blocks_flushes e :
  before_and_after Wal.GroupCommit [OpPut (lit "a") (lit "1"); OpFlush; OpFlush] (replicate 8 RealFs.Go ++ [RealFs.Fault e]) [OpFlush; OpGet (lit "a")] =
  Some [inl Done; inr (); inr (); inr (); inl (Found (Some (lit "1")))].
Proof. by vm_compute. Qed.
End FaultDb.
