(* ===== verification/Hist.v ===== *)
(** The latency histogram of the benchmark ([src/bin/accretion-bench/hist.rs]):
    samples sorted on the first question, nearest-rank quantiles, the summary a
    report prints; what a quantile is, and that every query answers. *)
From S2P Require Export Float.

Module Hist.

Record Histogram : Type := mkHist { samples : list Z; sorted : bool }.

(** The capacity is not observable. *)
Definition with_capacity (expected : Z) : Histogram := mkHist [] false.

Definition record (nanos : Z) (h : Histogram) : Histogram := mkHist (samples h ++ [nanos]) false.
Definition len (h : Histogram) : Z := blen (samples h).
Definition samples_slice (h : Histogram) : list Z := samples h.
Definition is_empty (h : Histogram) : bool := bool_decide (samples h = []).
Definition ensure_sorted (h : Histogram) : Histogram :=
  if negb (sorted h) then mkHist (merge_sort Z.le (samples h)) true else h.

(** The index of the [q]-quantile among [n] sorted samples. *)
Definition rank (q : f64) (n : Z) : Z :=
  let q := f64_clamp q f64_zero f64_one in
  f64_ceil_usize (f64_mul q (f64_of n)).
Definition quantile_idx (q : f64) (n : Z) : Z := Z.min (Z.max (rank q n) 1) n - 1.

Section queries.
Context {E : Type}.

Definition quantile (q : f64) : M Histogram E Z :=
  h ← get_state;
  if is_empty h then mret 0 else
  _ ← modify ensure_sorted;
  h ← get_state;
  expect (samples h !! Z.to_nat (quantile_idx q (len h))).

Definition min : M Histogram E Z :=
  _ ← modify ensure_sorted; gets (λ h, default 0 (head (samples h))).
Definition max : M Histogram E Z :=
  _ ← modify ensure_sorted; gets (λ h, default 0 (last (samples h))).

(** The sum is a [u128]. *)
Definition mean : M Histogram E Z :=
  h ← get_state;
  if is_empty h then mret 0 else mret (u64_wrap (foldr Z.add 0 (samples h) `div` len h)).

(** In microseconds. *)
Record LatencySummary : Type := mkSummary {
  min_us : f64; p50_us : f64; p99_us : f64; max_us : f64; mean_us : f64;
}.

(** The literals [0.50] and [0.99]: the nearest [f64]. *)
Definition P50 : f64 := f64_div (f64_of 50) (f64_of 100).
Definition P99 : f64 := f64_div (f64_of 99) (f64_of 100).

Definition us (nanos : Z) : f64 := f64_div (f64_of nanos) (f64_of 1000).
Definition summary_us : M Histogram E LatencySummary :=
  lo ← min; p50 ← quantile P50; p99 ← quantile P99; hi ← max; avg ← mean;
  mret (mkSummary (us lo) (us p50) (us p99) (us hi) (us avg)).
End queries.

(** * What the queries answer *)

(** The flag tells the truth. *)
Definition hist_wf (h : Histogram) : Prop := sorted h = true → StronglySorted Z.le (samples h).

Lemma wf_with_capacity n : hist_wf (with_capacity n).
Proof. done. Qed.
Lemma wf_record z h : hist_wf (record z h).
Proof. done. Qed.
#[export] Hint Resolve wf_with_capacity wf_record : core.

Lemma ensure_sorted_spec h : hist_wf h →
  StronglySorted Z.le (samples (ensure_sorted h)) ∧ samples (ensure_sorted h) ≡ₚ samples h ∧ hist_wf (ensure_sorted h).
Proof.
  intros Hwf. unfold ensure_sorted. destruct (sorted h) eqn:E; simpl.
  - split_and!; [by apply Hwf|done|done].
  - pose proof (StronglySorted_merge_sort Z.le (samples h)). split_and!; [done|by rewrite merge_sort_Permutation|by intros _].
Qed.

Lemma quantile_idx_range q n : 1 ≤ n → 0 ≤ quantile_idx q n < n.
Proof. intros Hn. unfold quantile_idx. lia. Qed.

(** In a sorted list, how many elements are below the one at position [i]. *)
Lemma filter_none {A} (P : A → Prop) `{!∀ x, Decision (P x)} (l : list A) : Forall (λ x, ¬ P x) l → filter P l = [].
Proof. intros Hf. induction Hf as [|x l Hx _ IH]; [done|]. rewrite filter_cons. by rewrite decide_False. Qed.
Lemma sorted_count (l : list Z) (i : nat) (v : Z) :
  StronglySorted Z.le l → l !! i = Some v →
  (length (filter (λ x, (x < v)%Z) l) ≤ i < length (filter (λ x, (x ≤ v)%Z) l))%nat.
Proof.
  intros Hs. revert i. induction Hs as [|x l Hs IH Hx]; intros i Hi; [done|].
  destruct i as [|i]; simpl in Hi.
  - injection Hi as ->. rewrite !filter_cons, decide_False, decide_True by lia.
    rewrite (filter_none _ l); [simpl; lia|]. eapply Forall_impl; [exact Hx|]. simpl. lia.
  - specialize (IH i Hi). assert (x ≤ v) by (rewrite Forall_forall in Hx; apply Hx; by eapply list_elem_of_lookup_2).
    rewrite !filter_cons, (decide_True (P:=x ≤ v)) by done. case_decide; simpl; lia.
Qed.

Lemma quantile_run {E} (q : f64) h : samples h ≠ [] →
  quantile (E:=E) q h =
    expect (samples (ensure_sorted h) !! Z.to_nat (quantile_idx q (len (ensure_sorted h)))) (ensure_sorted h).
Proof. intros Hne. unfold quantile. rewrite !bind_run. cbn. unfold is_empty. by rewrite bool_decide_eq_false_2. Qed.
Lemma mean_run {E} h : samples h ≠ [] →
  mean (E:=E) h = (Ok (u64_wrap (foldr Z.add 0 (samples h) `div` len h)), h).
Proof. intros Hne. unfold mean. rewrite !bind_run. cbn. unfold is_empty. by rewrite bool_decide_eq_false_2. Qed.

(** A quantile of a non-empty histogram is a sample; no more than its rank are
    smaller, and its rank are not larger. *)
Lemma quantile_spec {E} (q : f64) h : hist_wf h → samples h ≠ [] →
  ∃ v h', quantile (E:=E) q h = (Ok v, h') ∧ hist_wf h' ∧ samples h' ≡ₚ samples h ∧ v ∈ samples h ∧
    blen (filter (λ x, x < v) (samples h)) ≤ quantile_idx q (len h) < blen (filter (λ x, x ≤ v) (samples h)).
Proof.
  intros Hwf Hne. destruct (ensure_sorted_spec h Hwf) as (Hs & Hp & Hwf').
  rewrite quantile_run by done. assert (Hlen : len (ensure_sorted h) = len h) by (unfold len, blen; by rewrite Hp).
  assert (1 ≤ len h) as Hn.
  { unfold len, blen. destruct (samples h); [done|simpl; lia]. }
  pose proof (quantile_idx_range q (len h) Hn) as Hi. rewrite Hlen.
  destruct (samples (ensure_sorted h) !! Z.to_nat (quantile_idx q (len h))) as [v|] eqn:Hv.
  2:{ apply lookup_ge_None in Hv. unfold len, blen in *. lia. }
  exists v, (ensure_sorted h). split_and!; [done|done|done|..].
  - rewrite <- Hp. by eapply list_elem_of_lookup_2.
  - pose proof (sorted_count _ _ _ Hs Hv) as Hc. unfold blen. rewrite !Hp in Hc. lia.
  - pose proof (sorted_count _ _ _ Hs Hv) as Hc. unfold blen. rewrite !Hp in Hc. lia.
Qed.

Lemma min_spec {E} h : hist_wf h → samples h ≠ [] →
  ∃ v h', min (E:=E) h = (Ok v, h') ∧ hist_wf h' ∧ samples h' ≡ₚ samples h ∧ v ∈ samples h ∧ Forall (λ x, v ≤ x) (samples h).
Proof.
  intros Hwf Hne. destruct (ensure_sorted_spec h Hwf) as (Hs & Hp & Hwf').
  exists (default 0 (head (samples (ensure_sorted h)))), (ensure_sorted h). split_and!; [done..| |]; rewrite <- Hp;
    (destruct (samples (ensure_sorted h)) as [|x l]; [by apply Permutation_nil in Hp|simpl]).
  - apply list_elem_of_here.
  - apply StronglySorted_cons in Hs as [Hx _]. constructor; [lia|done].
Qed.
Lemma max_spec {E} h : hist_wf h → samples h ≠ [] →
  ∃ v h', max (E:=E) h = (Ok v, h') ∧ hist_wf h' ∧ samples h' ≡ₚ samples h ∧ v ∈ samples h ∧ Forall (λ x, x ≤ v) (samples h).
Proof.
  intros Hwf Hne. destruct (ensure_sorted_spec h Hwf) as (Hs & Hp & Hwf').
  exists (default 0 (last (samples (ensure_sorted h)))), (ensure_sorted h). split_and!; [done..| |]; rewrite <- Hp;
    (destruct (samples (ensure_sorted h)) as [|x l _] using rev_ind; [by apply Permutation_nil in Hp|rewrite last_snoc; simpl]).
  - apply elem_of_app. right. apply list_elem_of_here.
  - apply StronglySorted_app in Hs as (Hc & _ & _). apply Forall_app. split; [|constructor; [lia|done]].
    apply Forall_forall. intros y Hy. apply Hc; [done|]. apply list_elem_of_here.
Qed.

Lemma sum_bounds (lo hi : Z) (l : list Z) :
  Forall (λ x, lo ≤ x ≤ hi) l → lo * blen l ≤ foldr Z.add 0 l ≤ hi * blen l.
Proof. induction 1 as [|x l Hx _ IH]; [rewrite blen_nil; simpl; lia|]. rewrite blen_cons. simpl. lia. Qed.
Lemma mean_spec {E} lo hi h : samples h ≠ [] → 0 ≤ lo → hi < 2 ^ 64 → Forall (λ x, lo ≤ x ≤ hi) (samples h) →
  ∃ v, mean (E:=E) h = (Ok v, h) ∧ lo ≤ v ≤ hi.
Proof.
  intros Hne Hlo Hhi Hl. rewrite mean_run by done.
  eexists. split; [done|]. pose proof (sum_bounds lo hi _ Hl) as Hsum. unfold len.
  assert (0 < blen (samples h)) by (destruct (samples h); [done|rewrite blen_cons; pose proof (blen_nonneg l); lia]).
  assert (lo ≤ foldr Z.add 0 (samples h) `div` blen (samples h) ≤ hi).
  { split; [apply Z.div_le_lower_bound; lia|apply Z.div_le_upper_bound; lia]. }
  rewrite u64_wrap_id; lia.
Qed.

(** [v] is the nearest-rank [q]-quantile of the samples [l]: a sample, such that
    fewer samples than the rank are smaller and at least as many are not larger. *)
Definition nearest_rank (q : f64) (l : list Z) (v : Z) : Prop :=
  v ∈ l ∧ blen (filter (λ x, x < v) l) ≤ quantile_idx q (blen l) < blen (filter (λ x, x ≤ v) l).

#[export] Instance nearest_rank_proper q : Proper ((≡ₚ) ==> (=) ==> iff) (nearest_rank q).
Proof. intros l1 l2 Hl v ? <-. unfold nearest_rank, blen. by rewrite Hl. Qed.

(** The latency summary of a phase, however its samples were merged: the extremes, the
    nearest-rank median and 99th percentile and a mean between the extremes; no query panics. *)
Theorem summary_order_statistics {E} h :
  hist_wf h → samples h ≠ [] → Forall (λ x, 0 ≤ x < 2 ^ 64) (samples h) →
  ∃ lo p50 p99 hi avg h',
    summary_us (E:=E) h = (Ok (mkSummary (us lo) (us p50) (us p99) (us hi) (us avg)), h') ∧
    samples h' ≡ₚ samples h ∧ hist_wf h' ∧
    lo ∈ samples h ∧ hi ∈ samples h ∧ Forall (λ x, lo ≤ x ≤ hi) (samples h) ∧
    nearest_rank P50 (samples h) p50 ∧ nearest_rank P99 (samples h) p99 ∧ lo ≤ avg ≤ hi.
Proof.
  intros Hwf Hne Hu.
  destruct (min_spec (E:=E) h Hwf Hne) as (lo & h1 & E1 & W1 & P1 & Hlo & Hmin).
  assert (N1 : samples h1 ≠ []) by (intros N; rewrite N in P1; by apply Permutation_nil in P1).
  destruct (quantile_spec (E:=E) P50 h1 W1 N1) as (p50 & h2 & E2 & W2 & P2 & H50).
  assert (N2 : samples h2 ≠ []) by (intros N; rewrite N in P2; by apply Permutation_nil in P2).
  destruct (quantile_spec (E:=E) P99 h2 W2 N2) as (p99 & h3 & E3 & W3 & P3 & H99).
  assert (N3 : samples h3 ≠ []) by (intros N; rewrite N in P3; by apply Permutation_nil in P3).
  destruct (max_spec (E:=E) h3 W3 N3) as (hi & h4 & E4 & W4 & P4 & Hhi & Hmax).
  assert (N4 : samples h4 ≠ []) by (intros N; rewrite N in P4; by apply Permutation_nil in P4).
  rewrite P2 in P3. rewrite P1 in P2, P3. rewrite P3 in P4, Hhi, Hmax.
  assert (Hb : Forall (λ x, lo ≤ x ≤ hi) (samples h)) by (apply Forall_and; by split).
  rewrite Forall_forall in Hu.
  destruct (mean_spec (E:=E) lo hi h4 N4) as (avg & E5 & Havg); [by apply Hu|by apply Hu|by rewrite P4|].
  exists lo, p50, p99, hi, avg, h4. split.
  - unfold summary_us. by erewrite bind_ok, bind_ok, bind_ok, bind_ok, bind_ok by eassumption.
  - split_and!; try done; [rewrite <- P1; exact H50|rewrite <- P2; exact H99|lia|lia].
Qed.

Definition some_latencies : Histogram := record 5 (record 90 (record 7 (with_capacity 3))).
Lemma summary_order_statistics_witness :
  ∃ lo p50 p99 hi avg h',
    summary_us (E:=()) some_latencies = (Ok (mkSummary (us lo) (us p50) (us p99) (us hi) (us avg)), h') ∧
    samples h' ≡ₚ [7; 90; 5] ∧ hist_wf h' ∧
    lo ∈ [7; 90; 5] ∧ hi ∈ [7; 90; 5] ∧ Forall (λ x, lo ≤ x ≤ hi) [7; 90; 5] ∧
    nearest_rank P50 [7; 90; 5] p50 ∧ nearest_rank P99 [7; 90; 5] p99 ∧ lo ≤ avg ≤ hi.
Proof. apply (summary_order_statistics some_latencies); [done|done|repeat constructor; lia]. Defined.
End Hist.
