(* ===== verification/Workload.v ===== *)
(** The benchmark's data ([src/bin/accretion-bench/workload.rs]): the key and the value
    of an index, the order a fill writes them in, the indices a read phase looks up. *)
From coqutil Require Import Word.LittleEndianList.
From S2P Require Export Extern.

Module Workload.

Definition KEY_LEN : Z := 16.
Definition VALUE_LEN : Z := 100.

(** [i.to_be_bytes()] of a [u64]. *)
Definition be64 (i : Z) : bytes := reverse (le64 i).

Definition key_for (i : Z) : bytes := replicate (Z.to_nat (KEY_LEN - 8)) (byte.of_Z 0) ++ be64 i.

Definition value_for (i : Z) : bytes :=
  let seed := u64_mul i 0x9E3779B97F4A7C15 in
  le64 i ++ ((λ j, byte.of_Z (Z.land (u64_add seed j) 0xFF)) <$> seqZ 0 (VALUE_LEN - 8)).

Inductive FillOrder : Type := Sequential | Random.
#[export] Instance FillOrder_eq_dec : EqDecision FillOrder.
Proof. solve_decision. Defined.

Section indices.
Context {R : Type} {RNG : Rng R} {SHUF : Shuffle R}.

Definition fill_indices (order : FillOrder) (n seed : Z) : list Z :=
  let idx := seqZ 0 n in
  if decide (order = Random) then (shuffle idx (seed_from_u64 seed)).1 else idx.

(** [rng.gen_range(0..n)]: an empty range panics. *)
Definition gen_range {E} (n : Z) : M R E Z := λ r,
  if decide (n ≤ 0) then (Panic, r) else let '(z, r') := gen_u64_below n r in (Ok z, r').
Definition read_indices {E} (n count seed : Z) : outcome E (list Z) :=
  (repeat_m (Z.to_nat count) (gen_range n) (seed_from_u64 seed)).1.
End indices.

(** * Their laws *)

Lemma length_key_for i : blen (key_for i) = KEY_LEN.
Proof.
  unfold key_for, be64, blen. rewrite length_app, length_replicate, length_reverse.
  pose proof (blen_le64 i) as Hl. unfold blen in Hl. unfold KEY_LEN. lia.
Qed.
Lemma length_value_for i : blen (value_for i) = VALUE_LEN.
Proof. unfold value_for. rewrite blen_app, blen_le64. done. Qed.

(** Keys are ordered as their indices. *)
Lemma be_order n v w :
  0 ≤ v < 2 ^ (8 * Z.of_nat n) → 0 ≤ w < 2 ^ (8 * Z.of_nat n) →
  list_cmp (reverse (le_split n v)) (reverse (le_split n w)) = cmp v w.
Proof.
  revert v w. induction n as [|n IH]; intros v w Hv Hw.
  { simpl in *. replace v with w by lia. by rewrite (cmp_refl w). }
  assert (Hbnd : ∀ z, 0 ≤ z < 2 ^ (8 * Z.of_nat (S n)) → 0 ≤ z / 2 ^ 8 < 2 ^ (8 * Z.of_nat n)).
  { intros z Hz. rewrite Nat2Z.inj_succ, Z.mul_succ_r, Z.pow_add_r in Hz by lia.
    split; [apply Z.div_pos; lia|apply Z.div_lt_upper_bound; lia]. }
  assert (Hstep : ∀ z, le_split (S n) z = byte.of_Z z :: le_split n (Z.shiftr z 8)) by done.
  rewrite !Hstep, !Z.shiftr_div_pow2 by done. rewrite !reverse_cons, list_cmp_snoc by by rewrite !length_reverse, !length_le_split.
  rewrite IH by by apply Hbnd. rewrite <- (cmp_div_mod (2 ^ 8) v w) by done.
  destruct (cmp (v / 2 ^ 8) (w / 2 ^ 8)); [|done..]. unfold cmp, byte_ord, byte.compare, Z_ord.
  by rewrite !byte.unsigned_of_Z.
Qed.
Lemma key_for_order i j :
  0 ≤ i < 2 ^ 64 → 0 ≤ j < 2 ^ 64 → cmp (key_for i) (key_for j) = cmp i j.
Proof.
  intros Hi Hj. unfold key_for, cmp at 1, list_ord. rewrite list_cmp_app_l. unfold be64. by apply (be_order 8).
Qed.
Lemma key_for_inj i j : 0 ≤ i < 2 ^ 64 → 0 ≤ j < 2 ^ 64 → key_for i = key_for j → i = j.
Proof. intros Hi Hj E. apply (cmp_eq (A:=Z)). rewrite <- key_for_order, E by done. apply cmp_refl. Qed.

Section laws.
Context {R : Type} {RNG : Rng R} {RNGL : RngLaws R} {SHUF : Shuffle R} {SHUFL : ShuffleLaws R}.

Lemma fill_indices_perm order n seed : fill_indices (R:=R) order n seed ≡ₚ seqZ 0 n.
Proof. unfold fill_indices. case_decide; [apply shuffle_perm|done]. Qed.

Lemma gen_range_ok {E} n (r : R) : 0 < n → ∃ z r', gen_range (E:=E) n r = (Ok z, r') ∧ 0 ≤ z < n.
Proof.
  intros Hn. unfold gen_range. rewrite decide_False by lia. pose proof (gen_u64_range n r Hn) as Hz.
  destruct (gen_u64_below n r) as [z r']. by exists z, r'.
Qed.
Lemma read_indices_ok {E} n count seed :
  0 ≤ count → (count = 0 ∨ 0 < n) →
  ∃ l, read_indices (R:=R) (E:=E) n count seed = Ok l ∧ blen l = count ∧ Forall (λ i, 0 ≤ i < n) l.
Proof.
  intros Hc Hn. unfold read_indices. generalize (seed_from_u64 (R:=R) seed) as r. intros r.
  assert (Hgen : ∃ l r', repeat_m (E:=E) (Z.to_nat count) (gen_range n) r = (Ok l, r') ∧
    length l = Z.to_nat count ∧ Forall (λ i, 0 ≤ i < n) l).
  { destruct Hn as [->|Hn]; [by exists [], r|]. clear Hc. revert r. induction (Z.to_nat count) as [|k IH]; intros r.
    - by exists [], r.
    - destruct (gen_range_ok (E:=E) n r Hn) as (z & r1 & E1 & Hz). destruct (IH r1) as (l & r2 & E2 & Hl & Hf).
      exists (z :: l), r2. simpl. erewrite bind_ok by exact E1. erewrite bind_ok by exact E2.
      split; [done|]. split; [by rewrite Hl|by constructor]. }
  destruct Hgen as (l & r' & -> & Hl & Hf). exists l. split_and!; [done| |done]. unfold blen. lia.
Qed.
End laws.
End Workload.
