(* ===== verification/KvBench.v ===== *)
(** The surface the benchmark drives ([src/bin/accretion-bench/kv.rs]): the [KvBench]
    trait as a class, the engine behind it, and what a driver may rely on. *)
From S2P Require Export Db.
From Stdlib Require Import Strings.String.

Module KvBench.
Import Db.

(** [BenchError], a boxed message: [format!("put: {e}")] keeps the engine's error, or
    another store's error message, and its prefix; the other messages are constructors
    of their own. *)
Inductive BenchError : Type :=
  | Boxed (context : string) (e : DbError)
  | BoxedText (context message : string)
  | ValueMismatch
  | MissingKey
  | UnknownDurability (s : bytes)
  | NeedsValue (flag : bytes)
  | UnknownEngine (s : bytes)
  | NotANumber (flag : string)
  | UnknownFlag (s : bytes)
  | SledNotBuilt.

Class KvBench (K : Type) := {
  label : K → string;
  kv_put : bytes → bytes → M K BenchError ();
  kv_get : bytes → M K BenchError (option bytes);
  scan_count : bytes → bytes → M K BenchError Z;
  kv_flush : M K BenchError ();
}.

Record AccretionBench : Type := mkBench { db : Db; durability : Wal.Durability }.
Definition set_db (d : Db) (b : AccretionBench) : AccretionBench := mkBench d (durability b).

(** [Debug] of a [Durability]. *)
Definition debug_durability (d : Wal.Durability) : string :=
  match d with Wal.Always => "Always" | Wal.GroupCommit => "GroupCommit" | Wal.OsBuffered => "OsBuffered" end.

Section accretion.
Context `{!Crc32, !Xxh3} {S : Type} {ST : Storage.Storage S}.

(** [AccretionBench::open], and [open_on] of the tests: they differ in the backend. *)
Definition open_on (d : path) (dur : Wal.Durability) (memtable_size : Z) : M S BenchError AccretionBench :=
  let opts := mkOptions dur memtable_size 4 in
  db ← map_err (Boxed "accretion open") (Db.open_on d opts);
  mret (mkBench db dur).

(** [scan.count()] drains an iterator that has no errors of its own. *)
#[global] Instance accretion_kv : KvBench (AccretionBench * S) := {|
  label '(b, _) := ("accretion-db/" ++ debug_durability (durability b))%string;
  kv_put key value := map_err (Boxed "put") (zoom db set_db (put key value));
  kv_get key := map_err (Boxed "get") (zoom db set_db (get key));
  scan_count start end_ :=
    scan ← map_err (Boxed "scan") (zoom db set_db (scan (mkRange (Included start) (Excluded end_))));
    pairs ← map_err (Boxed "scan") (of_outcome (MergeIter.live_collect scan));
    mret (blen pairs);
  kv_flush := map_err (Boxed "flush") (zoom db set_db flush);
|}.
End accretion.

(** * What a driver relies on *)

(** The engine stands for a map, [kv_rep kv u k], and does what a map does as long as
    the budget of what it may write, of which [u] is used, lasts; a write costs by the
    lengths of its key and value. *)
Class KvSpec (K : Type) `{!KvBench K} := {
  kv_rep : gmap bytes bytes → Z → K → Prop;
  kv_budget : Z;
  put_cost : Z → Z → Z;
  flush_cost : Z;
  put_cost_nonneg x y : 0 ≤ put_cost x y;
  flush_cost_nonneg : 0 ≤ flush_cost;
  kv_put_ok kv u s k v : kv_rep kv u s → u + put_cost (blen k) (blen v) ≤ kv_budget →
    ∃ s', kv_put k v s = (Ok (), s') ∧ kv_rep (<[k := v]> kv) (u + put_cost (blen k) (blen v)) s';
  kv_get_ok kv u s k : kv_rep kv u s → ∃ s', kv_get k s = (Ok (kv !! k), s') ∧ kv_rep kv u s';
  scan_count_ok kv u s lo hi : kv_rep kv u s → lo ⪯ hi →
    ∃ s', scan_count lo hi s = (Ok (blen (bt_range (in_range (mkRange (Included lo) (Excluded hi))) kv)), s') ∧ kv_rep kv u s';
  kv_flush_ok kv u s : kv_rep kv u s → u + flush_cost ≤ kv_budget →
    ∃ s', kv_flush s = (Ok (), s') ∧ kv_rep kv (u + flush_cost) s';
}.
End KvBench.
