(* ===== verification/Runner.v ===== *)
(** The workload driver of the benchmark ([src/bin/accretion-bench/runner.rs]): worker
    threads over shares of the indices, their histograms merged, the reports. *)
From stdpp Require Import pretty.
From Stdlib Require Import Strings.String.
From S2P Require Export Hist Workload KvBench.

Module Runner.
Import Hist Workload KvBench.

Record PhaseReport : Type := mkReport {
  phase : string;
  engine : string;
  concurrency : Z;
  ops : Z;
  secs : f64;
  throughput : f64;
  latency : LatencySummary;
}.

(** [workers] ranges of indices below [n]; the last takes the remainder. *)
Definition partition (n workers : Z) : list (Z * Z) :=
  let workers := Z.max workers 1 in
  let base := n / workers in
  let turn '(ranges, start) w :=
    let len := if decide (w = workers - 1) then n - start else base in
    (ranges ++ [(start, start + len)], start + len) in
  (foldl turn ([], 0) (seqZ 0 workers)).1.

Definition merge_hists (hists : list Histogram) : Histogram :=
  let total := foldr Z.add 0 (len <$> hists) in
  foldl (λ merged h, foldl (λ merged s, record s merged) merged (samples_slice h)) (with_capacity total) hists.

(** What the scheduler and the clock decide: which of the running threads does its
    next operation and how many nanoseconds that takes, and the length of the phase. *)
Record Timing : Type := mkTiming { sched : nat → nat * Z; elapsed : f64 }.

(** [t.elapsed().as_nanos() as u64]. *)
Definition nanos (ns : Z) : Z := u64_wrap ns.

Section threads.
Context {K : Type}.

(** A thread of [thread::scope]: the indices left of its slice, its histogram, and
    how its closure has ended. *)
Record Worker : Type := mkWorker { todo : list Z; hist : Histogram; ended : outcome BenchError () }.

Definition running (w : Worker) : bool :=
  match ended w, todo w with Ok _, _ :: _ => true | _, _ => false end.

(** [scope.spawn]: [&indices[lo..hi]] may panic. *)
Definition spawn (indices : list Z) (r : Z * Z) : Worker :=
  match slice (E:=BenchError) indices r.1 r.2 with
  | Ok share => mkWorker share (with_capacity (r.2 - r.1)) (Ok ())
  | _ => mkWorker [] (with_capacity (r.2 - r.1)) Panic
  end.

(** The body of the closure's loop, for an index and a duration. *)
Context (body : Z → Z → M (Histogram * K) BenchError ()).

Definition turn (ns : Z) (w : Worker) (k : K) : Worker * K :=
  match todo w with
  | [] => (w, k)
  | i :: rest => let '(r, (h, k')) := body i ns (hist w, k) in (mkWorker rest h r, k')
  end.

Definition runnable (ws : list Worker) : list nat :=
  filter (λ j, (running <$> ws !! j) = Some true) (seq 0 (length ws)).

(** Every step one running thread does one operation, until none runs. *)
Fixpoint run_threads (fuel : nat) (sched : nat → nat * Z) (t : nat) (ws : list Worker) (k : K) : list Worker * K :=
  match fuel with
  | O => (ws, k)
  | Datatypes.S fuel' =>
      match runnable ws with
      | [] => (ws, k)
      | live =>
          let '(pick, ns) := sched t in
          match live !! (pick mod length live)%nat ≫= λ j, (j,.) <$> ws !! j with
          | None => (ws, k)
          | Some (j, w) =>
              let '(w', k') := turn ns w k in
              run_threads fuel' sched (Datatypes.S t) (<[j := w']> ws) k'
          end
      end
  end.
Definition work_left (ws : list Worker) : nat := foldr Nat.add O ((λ w, length (todo w)) <$> ws).

(** [for h in handles { out.push(h.join().expect("..")?) }].  The first failure in the
    order of the handles is the result; but the scope panics if a thread it had not yet
    joined did.  No thread still runs when the scope ends. *)
Definition panicked (w : Worker) : bool := match ended w with Panic => true | _ => false end.
Fixpoint join_all (ws : list Worker) : outcome BenchError (list Histogram) :=
  match ws with
  | [] => Ok []
  | w :: ws' =>
      if running w then Panic
      else match ended w with
           | Ok _ => out ← join_all ws'; Ok (hist w :: out)
           | Err e => if existsb panicked ws' then Panic else Err e
           | Panic => Panic
           end
  end.

Definition scoped (indices : list Z) (ranges : list (Z * Z)) (sched : nat → nat * Z)
    : M K BenchError (list Histogram) := λ k,
  let ws := spawn indices <$> ranges in
  let '(ws, k') := run_threads (work_left ws) sched 0 ws k in
  (join_all ws, k').
End threads.

Definition finish (phase engine : string) (concurrency : Z) (secs : f64) (hists : list Histogram)
    : outcome BenchError PhaseReport :=
  let merged := merge_hists hists in
  let ops := len merged in
  let throughput := if f64_lt f64_zero secs then f64_div (f64_of ops) secs else f64_zero in
  latency ← (summary_us merged).1;
  Ok (mkReport phase engine concurrency ops secs throughput latency).

Section phases.
Context {R : Type} {RNG : Rng R} {SHUF : Shuffle R} {K : Type} {KV : KvBench K}.

Definition fill_body (i ns : Z) : M (Histogram * K) BenchError () :=
  _ ← on_snd (kv_put (key_for i) (value_for i));
  mod_fst (record (nanos ns)).

Definition run_fill (order : FillOrder) (n concurrency seed : Z) (tm : Timing) : M K BenchError PhaseReport :=
  let indices := fill_indices (R:=R) order n seed in
  let ranges := partition (blen indices) concurrency in
  hists ← scoped fill_body indices ranges (sched tm);
  let phase := match order with Sequential => "fill-seq" | Random => "fill-random" end%string in
  name ← gets label;
  of_outcome (finish phase name concurrency (elapsed tm) hists).

Definition read_body (i ns : Z) : M (Histogram * K) BenchError () :=
  got ← on_snd (kv_get (key_for i));
  _ ← mod_fst (record (nanos ns));
  match got with
  | Some v => if decide (v = value_for i) then mret () else err ValueMismatch
  | None => err MissingKey
  end.

Definition run_point_read (n count concurrency seed : Z) (tm : Timing) : M K BenchError PhaseReport :=
  indices ← of_outcome (read_indices (R:=R) n count seed);
  let ranges := partition (blen indices) concurrency in
  hists ← scoped read_body indices ranges (sched tm);
  name ← gets label;
  of_outcome (finish "point-read" name concurrency (elapsed tm) hists).

(** The loop over the starts; the [t]-th scan takes [sched t]. *)
Fixpoint scan_loop (window : Z) (sched : nat → nat * Z) (t : nat) (starts : list Z) (hist : Histogram) (total_pairs : Z)
    : M K BenchError (Histogram * Z) :=
  match starts with
  | [] => mret (hist, total_pairs)
  | s :: starts' =>
      n ← scan_count (key_for s) (key_for (u64_add s window));
      scan_loop window sched (Datatypes.S t) starts' (record (nanos (sched t).2) hist) (u64_add total_pairs n)
  end.

Definition scan_phase (pairs : Z) : string := ("scan(≈" ++ pretty (Z.to_N pairs) ++ " pairs)")%string.

Definition run_scan (n count window seed : Z) (tm : Timing) : M K BenchError PhaseReport :=
  starts ← of_outcome (read_indices (R:=R) (Z.max (Z.max (n - window) 0) 1) count seed);
  '(hist, total_pairs) ← scan_loop window (sched tm) 0 starts (with_capacity count) 0;
  name ← gets label;
  report ← of_outcome (finish "scan" name 1 (elapsed tm) [hist]);
  mret (mkReport (scan_phase total_pairs) (engine report) (concurrency report) (ops report)
          (secs report) (throughput report) (latency report)).
End phases.
End Runner.
