(* ===== verification/BenchMain.v ===== *)
(** The benchmark's command line and its sequence of phases
    ([src/bin/accretion-bench/main.rs]). *)
From Stdlib Require Import Strings.String.
From S2P Require Export Runner.

Module BenchMain.
Import Workload KvBench Runner.

Inductive Engine : Type := Accretion | Sled.

Record Config : Type := mkConfig {
  workload : bytes;
  engine : Engine;
  durability : Wal.Durability;
  keys : Z;
  reads : Z;
  concurrency : Z;
  memtable_bytes : Z;
  dir : option bytes;
  seed : Z;
}.

Definition default_config : Config :=
  mkConfig (lit "all") Accretion Wal.GroupCommit 100000 0 1 (4 * 1024 * 1024) None 0x5eed.

Definition set_workload (w : bytes) (c : Config) : Config :=
  mkConfig w (engine c) (durability c) (keys c) (reads c) (concurrency c) (memtable_bytes c) (dir c) (seed c).
Definition set_engine (e : Engine) (c : Config) : Config :=
  mkConfig (workload c) e (durability c) (keys c) (reads c) (concurrency c) (memtable_bytes c) (dir c) (seed c).
Definition set_durability (d : Wal.Durability) (c : Config) : Config :=
  mkConfig (workload c) (engine c) d (keys c) (reads c) (concurrency c) (memtable_bytes c) (dir c) (seed c).
Definition set_keys (n : Z) (c : Config) : Config :=
  mkConfig (workload c) (engine c) (durability c) n (reads c) (concurrency c) (memtable_bytes c) (dir c) (seed c).
Definition set_reads (n : Z) (c : Config) : Config :=
  mkConfig (workload c) (engine c) (durability c) (keys c) n (concurrency c) (memtable_bytes c) (dir c) (seed c).
Definition set_concurrency (n : Z) (c : Config) : Config :=
  mkConfig (workload c) (engine c) (durability c) (keys c) (reads c) n (memtable_bytes c) (dir c) (seed c).
Definition set_memtable_bytes (n : Z) (c : Config) : Config :=
  mkConfig (workload c) (engine c) (durability c) (keys c) (reads c) (concurrency c) n (dir c) (seed c).
Definition set_dir (d : bytes) (c : Config) : Config :=
  mkConfig (workload c) (engine c) (durability c) (keys c) (reads c) (concurrency c) (memtable_bytes c) (Some d) (seed c).
Definition set_seed (n : Z) (c : Config) : Config :=
  mkConfig (workload c) (engine c) (durability c) (keys c) (reads c) (concurrency c) (memtable_bytes c) (dir c) n.

Definition one_of (s : bytes) (names : list string) : bool := bool_decide (s ∈ (lit <$> names)).

Definition parse_durability (s : bytes) : outcome BenchError Wal.Durability :=
  if one_of s ["always"]%string then Ok Wal.Always
  else if one_of s ["group"; "groupcommit"; "group-commit"]%string then Ok Wal.GroupCommit
  else if one_of s ["osbuffered"; "buffered"; "os"]%string then Ok Wal.OsBuffered
  else Err (UnknownDurability s).
Definition parse_engine (s : bytes) : outcome BenchError Engine :=
  if one_of s ["accretion"; "accretion-db"]%string then Ok Accretion
  else if one_of s ["sled"]%string then Ok Sled
  else Err (UnknownEngine s).
(** [value()?.parse().map_err(|e| format!("{flag}: {e}"))?], [u64] and [usize]. *)
Definition parse_number (flag : string) (s : bytes) : outcome BenchError Z :=
  match parse_u64 s with Some n => Ok n | None => Err (NotANumber flag) end.

(** The arms of the [match]: what a known flag does with its value. *)
Definition flag_arm (flag : bytes) : option (bytes → Config → outcome BenchError Config) :=
  let number (name : string) (set : Z → Config → Config) v c := n ← parse_number name v; Ok (set n c) in
  if decide (flag = lit "--engine") then Some (λ v c, e ← parse_engine v; Ok (set_engine e c))
  else if decide (flag = lit "--durability") then Some (λ v c, d ← parse_durability v; Ok (set_durability d c))
  else if decide (flag = lit "--keys") then Some (number "--keys"%string set_keys)
  else if decide (flag = lit "--reads") then Some (number "--reads"%string set_reads)
  else if decide (flag = lit "--concurrency") then Some (number "--concurrency"%string set_concurrency)
  else if decide (flag = lit "--memtable-bytes") then Some (number "--memtable-bytes"%string set_memtable_bytes)
  else if decide (flag = lit "--dir") then Some (λ v c, Ok (set_dir v c))
  else if decide (flag = lit "--seed") then Some (number "--seed"%string set_seed)
  else None.

(** The loop of [parse_flags]; [value()] takes the argument after the flag. *)
Fixpoint flags_loop (args : list bytes) (cfg : Config) : outcome BenchError Config :=
  match args with
  | [] => Ok cfg
  | flag :: args' =>
      match flag_arm flag, args' with
      | None, _ => Err (UnknownFlag flag)
      | Some _, [] => Err (NeedsValue flag)
      | Some arm, v :: rest => cfg ← arm v cfg; flags_loop rest cfg
      end
  end.
Definition parse_flags (args : list bytes) (cfg : Config) : outcome BenchError Config :=
  cfg ← flags_loop args cfg;
  Ok (if decide (reads cfg = 0) then set_reads (keys cfg) cfg else cfg).

Definition starts_with (p s : bytes) : bool := bool_decide (take (length p) s = p).
Definition parse_args (args : list bytes) : outcome BenchError Config :=
  match args with
  | [] => parse_flags [] default_config
  | first :: rest =>
      if negb (starts_with (lit "--") first) then parse_flags rest (set_workload first default_config)
      else parse_flags args default_config
  end.

Section workloads.
Context {R : Type} {RNG : Rng R} {SHUF : Shuffle R}.

(** The timings of the three phases. *)
Record Timings : Type := mkTimings { fill_timing : Timing; read_timing : Timing; scan_timing : Timing }.

Definition is_workload (cfg : Config) (name : string) : bool := bool_decide (workload cfg = lit name).
Definition want (cfg : Config) (name : string) : bool := is_workload cfg "all" || is_workload cfg name.

Section run_workload.
Context {K : Type} {KV : KvBench K} (cfg : Config) (tm : Timings).

(** The first [if] of [run_workload]: the reports, and whether it returns them. *)
Definition fill_phase : M K BenchError (list PhaseReport * bool) :=
  if want cfg "fill-random"%string || want cfg "fill-seq"%string then
    let order := if want cfg "fill-seq"%string && negb (want cfg "fill-random"%string) then Sequential else Random in
    if is_workload cfg "fill-seq" then
      r ← run_fill (R:=R) Sequential (keys cfg) (concurrency cfg) (seed cfg) (fill_timing tm);
      mret ([r], true)
    else
      r ← run_fill (R:=R) order (keys cfg) (concurrency cfg) (seed cfg) (fill_timing tm);
      mret ([r], is_workload cfg "fill-random")
  else mret ([], false).

(** The second, after the reports [out]. *)
Definition read_phase (out : list PhaseReport) : M K BenchError (list PhaseReport) :=
  if want cfg "point-read"%string || want cfg "scan"%string then
    out ← (if is_workload cfg "point-read" || is_workload cfg "scan" then
             r ← run_fill (R:=R) Random (keys cfg) (concurrency cfg) (seed cfg) (fill_timing tm);
             mret (out ++ [r])
           else mret out);
    _ ← kv_flush;
    out ← (if want cfg "point-read"%string then
             r ← run_point_read (R:=R) (keys cfg) (reads cfg) (concurrency cfg) (Z.lxor (seed cfg) 0xA5A5) (read_timing tm);
             mret (out ++ [r])
           else mret out);
    if want cfg "scan"%string then
      let window := Z.min (Z.max (keys cfg / 100) 1) 1000 in
      r ← run_scan (R:=R) (keys cfg) (Z.min (reads cfg) 1000) window (Z.lxor (seed cfg) 0x1234) (scan_timing tm);
      mret (out ++ [r])
    else mret out
  else mret out.

Definition run_workload : M K BenchError (list PhaseReport) :=
  '(out, returned) ← fill_phase;
  if returned : bool then mret out else read_phase out.
End run_workload.

(** [run] from the parsed configuration on, over a backend and a data directory. *)
Definition run_engine `{!Crc32, !Xxh3} {S : Type} {ST : Storage.Storage S} (cfg : Config) (d : path) (tm : Timings)
    : M S BenchError (list PhaseReport) :=
  match engine cfg with
  | Accretion =>
      e ← open_on d (durability cfg) (memtable_bytes cfg);
      with_local e (run_workload cfg tm)
  | Sled => err SledNotBuilt
  end.
End workloads.
End BenchMain.
