(* ===== verification/RunnerSpec.v ===== *)
(** What the driver's phases do, against the interface of the engine they drive: every
    interleaving of the worker threads writes and checks every index, and the reports
    count them. *)
From Stdlib Require Import Strings.String.
From S2P Require Export Runner.

Module RunnerSpec.
Import Hist Workload KvBench Runner.

(** * The shares of the workers *)

Lemma slice_next {E A} (l : list A) lo n :
  0 ≤ lo → 0 ≤ n → lo + n ≤ blen l →
  ∃ share, slice (E:=E) l lo (lo + n) = Ok share ∧ take (Z.to_nat (lo + n)) l = take (Z.to_nat lo) l ++ share.
Proof.
  intros Hlo Hn Hl. eexists. unfold slice. rewrite decide_True by lia. split; [done|].
  rewrite Z2Nat.inj_add by lia. replace (lo + n - lo) with n by lia. by rewrite take_take_drop.
Qed.

(** [ranges] cut the first [start] elements of [l] into the shares [shares]. *)
Definition cuts {A} (l : list A) (ranges : list (Z * Z)) (start : Z) : Prop :=
  ∃ shares, Forall2 (λ r share, slice (E:=BenchError) l r.1 r.2 = Ok share) ranges shares ∧
    concat shares = take (Z.to_nat start) l ∧ 0 ≤ start ≤ blen l.

Lemma cuts_snoc {A} (l : list A) ranges start n :
  cuts l ranges start → 0 ≤ n → start + n ≤ blen l → cuts l (ranges ++ [(start, start + n)]) (start + n).
Proof.
  intros (shares & Hs & Hc & Hstart) Hn Hl. destruct (slice_next (E:=BenchError) l start n) as (share & E1 & E2); [lia..|].
  exists (shares ++ [share]). split_and!; [|by rewrite concat_app, E2, Hc; simpl; rewrite app_nil_r|lia|lia].
  apply Forall2_app; [done|]. by repeat constructor.
Qed.

Lemma partition_cuts {A} (l : list A) workers : cuts l (partition (blen l) workers) (blen l).
Proof.
  unfold partition. set (w := Z.max workers 1). assert (Hw : 1 ≤ w) by lia. set (base := blen l / w).
  pose proof (blen_nonneg l) as Hl. assert (Hbase : 0 ≤ base) by (apply Z.div_pos; lia).
  assert (Htotal : w * base ≤ blen l) by (apply Z.mul_div_le; lia).
  set (turn := λ '(ranges, start) v, let len := if decide (v = w - 1) then blen l - start else base in
    (ranges ++ [(start, start + len)], start + len)).
  assert (Hk : ∀ k : nat, Z.of_nat k < w → ∃ ranges,
    foldl turn ([], 0) (seqZ 0 (Z.of_nat k)) = (ranges, Z.of_nat k * base) ∧ cuts l ranges (Z.of_nat k * base)).
  { induction k as [|k IH]; intros Hk.
    - exists []. split; [done|]. exists []. split; [constructor|]. split; [done|lia].
    - destruct IH as (ranges & E & Hc); [lia|]. exists (ranges ++ [(Z.of_nat k * base, Z.of_nat k * base + base)]).
      rewrite seqZ_S, foldl_app, E. simpl. rewrite decide_False by lia.
      rewrite Nat2Z.inj_succ. replace (Z.succ (Z.of_nat k) * base) with (Z.of_nat k * base + base) by lia. split; [done|]. apply cuts_snoc; [done|lia|nia]. }
  destruct (Hk (Z.to_nat (w - 1))) as (ranges & E & Hc); [lia|]. rewrite Z2Nat.id in E, Hc by lia.
  assert (Hlast : seqZ 0 w = seqZ 0 (w - 1) ++ [w - 1]).
  { pose proof (seqZ_S 0 (Z.to_nat (w - 1))) as Hseq. rewrite Nat2Z.inj_succ, Z2Nat.id in Hseq by lia.
    by replace (Z.succ (w - 1)) with w in Hseq by lia. }
  rewrite Hlast, foldl_app, E. cbn [foldl turn]. rewrite decide_True by done. cbn [fst].
  pose proof (cuts_snoc l ranges ((w - 1) * base) (blen l - (w - 1) * base) Hc ltac:(nia) ltac:(lia)) as Hcut.
  by rewrite Zplus_minus in Hcut |- *.
Qed.

(** * The threads *)

Section threads.
Context {K : Type} (body : Z → Z → M (Histogram * K) BenchError ()).
(** The indices, and what holds of the engine once some of them are done. *)
Context (all : list Z) (I : list Z → K → Prop).
Hypothesis body_ok : ∀ i ns h done k, i :: done ⊆+ all → I done k →
  ∃ k', body i ns (h, k) = (Ok (), (record (nanos ns) h, k')) ∧ I (i :: done) k'.

Definition healthy (w : Worker) : Prop :=
  ended w = Ok () ∧ hist_wf (hist w).
Record progress (ws : list Worker) (k : K) (done : list Z) : Prop := {
  pg_healthy : Forall healthy ws;
  pg_inv : I done k;
  pg_todo : done ++ concat (todo <$> ws) ≡ₚ all;
  pg_samples : blen (concat ((λ w, samples (hist w)) <$> ws)) = blen done;
}.

Lemma runnable_spec ws j : j ∈ runnable ws ↔ ∃ w, ws !! j = Some w ∧ running w = true.
Proof.
  unfold runnable. rewrite list_elem_of_filter, fmap_Some, elem_of_seq. split.
  - intros [(w & ? & ?) _]. by exists w.
  - intros (w & Hj & Hw). split; [by exists w|]. apply lookup_lt_Some in Hj. lia.
Qed.
Lemma none_runnable ws k done : progress ws k done → runnable ws = [] → Forall (λ w, todo w = []) ws.
Proof.
  intros [Hh _ _ _] Hr. rewrite Forall_forall in Hh |- *. intros w Hw. destruct (Hh w Hw) as [He _].
  apply list_elem_of_lookup in Hw as [j Hj]. destruct (todo w) as [|i l] eqn:E; [done|].
  assert (Hin : j ∈ runnable ws) by (apply runnable_spec; exists w; split; [done|]; unfold running; by rewrite He, E).
  rewrite Hr in Hin. by apply elem_of_nil in Hin.
Qed.

Lemma turn_ok ns ws k done j w :
  progress ws k done → ws !! j = Some w → running w = true →
  ∃ w' k' i, turn body ns w k = (w', k') ∧ progress (<[j := w']> ws) k' (i :: done) ∧
    (work_left (<[j := w']> ws) < work_left ws)%nat.
Proof.
  intros [Hh Hi Ht Hs] Hj Hw. pose proof (lookup_lt_Some _ _ _ Hj) as Hlt.
  pose proof (take_drop_middle ws j w Hj) as Hws. set (l1 := take j ws) in *. set (l2 := drop (Datatypes.S j) ws) in *.
  assert (Hins : ∀ w', <[j := w']> ws = l1 ++ w' :: l2) by (intros w'; by apply insert_take_drop).
  rewrite <- Hws in Hh, Ht, Hs. apply Forall_app in Hh as [Hh1 Hh2]. apply Forall_cons in Hh2 as [[He Hwf] Hh2].
  unfold running in Hw. rewrite He in Hw. destruct (todo w) as [|i rest] eqn:Etodo; [done|].
  rewrite fmap_app, fmap_cons, concat_app, concat_cons, Etodo in Ht. rewrite fmap_app, fmap_cons, concat_app, concat_cons in Hs.
  assert (Hperm : (i :: done) ++ concat (todo <$> l1) ++ rest ++ concat (todo <$> l2) ≡ₚ all) by (rewrite <- Ht; solve_Permutation).
  destruct (body_ok i ns (hist w) done k) as (k' & Eb & Hi'); [|done|].
  { rewrite <- Hperm. apply submseteq_inserts_r. done. }
  exists (mkWorker rest (record (nanos ns) (hist w)) (Ok ())), k', i. unfold turn. rewrite Etodo, Eb. split; [done|].
  rewrite Hins. split.
  - split; [|done| |].
    + apply Forall_app. split; [done|]. by constructor.
    + by rewrite fmap_app, fmap_cons, concat_app, concat_cons.
    + rewrite fmap_app, fmap_cons, concat_app, concat_cons. cbn [hist record samples]. blens. lia.
  - unfold work_left. rewrite <- Hws. rewrite !fmap_app, !fmap_cons, !foldr_app. cbn [foldr todo]. rewrite Etodo. simpl.
    generalize (foldr Nat.add 0%nat ((λ w, length (todo w)) <$> l2)) as z. intros z.
    induction ((λ w, length (todo w)) <$> l1) as [|x l IH]; simpl; lia.
Qed.

Lemma run_threads_ok fuel sched t ws k done :
  progress ws k done → (work_left ws ≤ fuel)%nat →
  ∃ ws' k' done', run_threads body fuel sched t ws k = (ws', k') ∧ progress ws' k' done' ∧
    Forall (λ w, todo w = []) ws' ∧ length ws' = length ws.
Proof.
  revert t ws k done. induction fuel as [|fuel IH]; intros t ws k done Hp Hf; cbn [run_threads].
  - exists ws, k, done. split_and!; [done|done| |done]. unfold work_left in Hf.
    clear -Hf. induction ws as [|w ws IH]; [constructor|]. rewrite fmap_cons in Hf. cbn [foldr] in Hf. constructor; [|apply IH; lia].
    apply nil_length_inv. lia.
  - destruct (runnable ws) as [|j0 live] eqn:Elive.
    { exists ws, k, done. split_and!; [done|done|by eapply none_runnable|done]. }
    destruct (sched t) as [pick ns]. rewrite <- Elive. destruct (runnable ws !! (pick mod length (runnable ws))%nat) as [j|] eqn:Ej.
    2:{ apply lookup_ge_None in Ej. pose proof (Nat.mod_upper_bound pick (length (runnable ws))). rewrite Elive in *. simpl in *. lia. }
    apply list_elem_of_lookup_2, runnable_spec in Ej as (w & Hj & Hw). cbn [mbind option_bind]. rewrite Hj. cbn [fmap option_fmap option_map].
    destruct (turn_ok ns ws k done j w Hp Hj Hw) as (w' & k' & i & Et & Hp' & Hless). rewrite Et.
    destruct (IH (Datatypes.S t) _ k' (i :: done) Hp') as (ws' & k2 & done' & Er & Hp2 & Hd & Hl); [lia|].
    exists ws', k2, done'. split_and!; [done..|]. by rewrite Hl, length_insert.
Qed.

Lemma join_all_ok ws :
  Forall healthy ws → Forall (λ w, todo w = []) ws → join_all ws = Ok (hist <$> ws).
Proof.
  induction 1 as [|w ws [He _] _ IH]; intros Ht; [done|]. apply Forall_cons in Ht as [Hw Ht]. simpl.
  unfold running. rewrite He, Hw. cbn. by rewrite (IH Ht).
Qed.

Lemma scoped_ok ranges sched k :
  cuts all ranges (blen all) → I [] k →
  ∃ hists k', scoped body all ranges sched k = (Ok hists, k') ∧ (∃ done, done ≡ₚ all ∧ I done k') ∧
    Forall hist_wf hists ∧ blen (concat (samples <$> hists)) = blen all.
Proof.
  intros (shares & Hsh & Hcat & _) Hi. set (ws := spawn all <$> ranges).
  assert (Hws : (todo <$> ws) = shares ∧ Forall healthy ws ∧ concat ((λ w, samples (hist w)) <$> ws) = []).
  { subst ws. clear Hcat. induction Hsh as [|r share ranges shares Hr _ (IH1 & IH2 & IH3)]; [done|]. rewrite !fmap_cons. unfold spawn at 1 3 5.
    rewrite Hr. cbn [todo concat hist]. rewrite IH1. split_and!; [done|by constructor|by rewrite IH3]. }
  destruct Hws as (Htodo & Hh & Hempty).
  destruct (run_threads_ok (work_left ws) sched 0%nat ws k []) as (ws' & k' & done & Er & [Hh' Hi' Ht' Hs'] & Hd & Hl).
  { split; [done|done| |by rewrite Hempty]. rewrite Htodo, Hcat. unfold blen. rewrite Nat2Z.id, take_ge by lia. done. }
  { done. }
  assert (Hdone : done ≡ₚ all).
  { rewrite <- Ht'. assert (E0 : concat (todo <$> ws') = []); [|by rewrite E0, app_nil_r].
    clear -Hd. induction Hd as [|w ws' Hw _ IH]; [done|]. simpl. by rewrite Hw. }
  exists (hist <$> ws'), k'. unfold scoped. fold ws. rewrite Er, join_all_ok by done. split_and!; [done|by exists done| |].
  - apply Forall_fmap. eapply Forall_impl; [exact Hh'|]. by intros w [_ ?].
  - rewrite <- list_fmap_compose. unfold compose. rewrite Hs'. unfold blen. by rewrite Hdone.
Qed.
End threads.

(** * The reports *)

Lemma samples_record_all h l : samples (foldl (λ merged s, record s merged) h l) = samples h ++ l.
Proof.
  revert h. induction l as [|x l IH]; intros h; simpl; [by rewrite app_nil_r|]. rewrite IH. simpl. by rewrite <- app_assoc.
Qed.
Lemma record_all_wf h l : hist_wf h → hist_wf (foldl (λ merged s, record s merged) h l).
Proof. revert h. induction l as [|x l IH]; intros h Hh; simpl; [done|]. by apply IH. Qed.
Lemma merge_hists_spec hists : samples (merge_hists hists) = concat (samples <$> hists) ∧ hist_wf (merge_hists hists).
Proof.
  unfold merge_hists. assert (Hm : ∀ h0, hist_wf h0 →
    samples (foldl (λ merged h, foldl (λ merged s, record s merged) merged (samples_slice h)) h0 hists) =
      samples h0 ++ concat (samples <$> hists) ∧
    hist_wf (foldl (λ merged h, foldl (λ merged s, record s merged) merged (samples_slice h)) h0 hists)).
  { induction hists as [|h hists IH]; intros h0 Hh; simpl; [by rewrite app_nil_r|].
    destruct (IH (foldl (λ merged s, record s merged) h0 (samples_slice h))) as [E W]; [by apply record_all_wf|].
    split; [|done]. rewrite E, samples_record_all. unfold samples_slice. by rewrite <- app_assoc. }
  by apply Hm.
Qed.

(** The queries of an empty histogram answer too. *)
Lemma summary_total {E} h : hist_wf h → ∃ l h', summary_us (E:=E) h = (Ok l, h').
Proof.
  intros Hwf. destruct (decide (samples h = [])) as [He|Hne].
  - destruct h as [l b]. simpl in He. subst l. destruct b; eexists _, _; vm_compute; reflexivity.
  - destruct (min_spec (E:=E) h Hwf Hne) as (lo & h1 & E1 & W1 & P1 & _).
    assert (N1 : samples h1 ≠ []) by (intros N; rewrite N in P1; by apply Permutation_nil in P1).
    destruct (quantile_spec (E:=E) P50 h1 W1 N1) as (p50 & h2 & E2 & W2 & P2 & _).
    assert (N2 : samples h2 ≠ []) by (intros N; rewrite N in P2; by apply Permutation_nil in P2).
    destruct (quantile_spec (E:=E) P99 h2 W2 N2) as (p99 & h3 & E3 & W3 & P3 & _).
    assert (N3 : samples h3 ≠ []) by (intros N; rewrite N in P3; by apply Permutation_nil in P3).
    destruct (max_spec (E:=E) h3 W3 N3) as (hi & h4 & E4 & W4 & P4 & _).
    assert (N4 : samples h4 ≠ []) by (intros N; rewrite N in P4; by apply Permutation_nil in P4).
    pose proof (mean_run (E:=E) h4 N4) as E5. eexists _, _. unfold summary_us.
    by erewrite bind_ok, bind_ok, bind_ok, bind_ok, bind_ok by eassumption.
Qed.

Lemma report_ok ph eng conc sec hists :
  ∃ r, finish ph eng conc sec hists = Ok r ∧ phase r = ph ∧ engine r = eng ∧ concurrency r = conc ∧
    ops r = blen (concat (samples <$> hists)).
Proof.
  destruct (merge_hists_spec hists) as [Es Hwf]. destruct (summary_total (E:=BenchError) _ Hwf) as (l & h' & E).
  eexists. unfold finish. rewrite E. split; [done|]. simpl. unfold len. by rewrite Es.
Qed.

(** * The phases *)

Section phases.
Context {R : Type} {RNG : Rng R} {RNGL : RngLaws R} {SHUF : Shuffle R} {SHUFL : ShuffleLaws R}.
Context {K : Type} {KV : KvBench K} {KVS : KvSpec K}.
Implicit Types (kv : gmap bytes bytes) (k : K) (u : Z).

Definition pair_cost : Z := put_cost KEY_LEN VALUE_LEN.

(** The map with the keys of [l] written, in whatever order. *)
Definition put_all (l : list Z) kv : gmap bytes bytes := foldr (λ i, <[key_for i := value_for i]>) kv l.

Lemma key_value i j : key_for i = key_for j → value_for i = value_for j.
Proof.
  unfold key_for, be64. intros Hk%(inj (app _))%(inj reverse). unfold value_for. rewrite Hk.
  apply (f_equal of_le) in Hk. rewrite !of_le_le64 in Hk. unfold u64_mul. unfold u64_wrap in *.
  by rewrite (Z.mul_mod i), Hk, <- Z.mul_mod.
Qed.
#[export] Instance put_all_proper : Proper ((≡ₚ) ==> (=) ==> (=)) put_all.
Proof.
  intros l1 l2 Hl kv ? <-. unfold put_all. apply (foldr_permutation_proper (=)); [apply _| |done].
  intros i j m. destruct (decide (key_for i = key_for j)) as [E|Hne].
  - rewrite E, (key_value i j E). done.
  - by apply insert_insert_ne.
Qed.

Lemma run_fill_ok order n conc seed tm kv u k :
  kv_rep kv u k → 0 ≤ n → u + n * pair_cost ≤ kv_budget →
  ∃ r k', run_fill (R:=R) order n conc seed tm k = (Ok r, k') ∧
    phase r = match order with Sequential => "fill-seq" | Random => "fill-random" end%string ∧
    ops r = n ∧ concurrency r = conc ∧ kv_rep (put_all (seqZ 0 n) kv) (u + n * pair_cost) k'.
Proof.
  intros Hrep Hn Hu. pose proof (fill_indices_perm (R:=R) order n seed) as Hperm. set (all := fill_indices order n seed) in *.
  assert (Hlen : blen all = n) by (unfold blen; rewrite Hperm, length_seqZ; lia).
  destruct (scoped_ok fill_body all (λ done k, kv_rep (put_all done kv) (u + blen done * pair_cost) k)) with (ranges := partition (blen all) conc) (sched := sched tm) (k := k)
    as (hists & k' & Es & (done & Hd & Hi) & Hwf & Hs).
  - intros i ns h done k1 Hsub Hi. apply submseteq_length in Hsub. assert (blen (i :: done) ≤ n) as Hle by (unfold blen in *; lia).
    rewrite blen_cons in Hle. unfold fill_body. pose proof (put_cost_nonneg KEY_LEN VALUE_LEN) as Hc. fold pair_cost in Hc.
    destruct (kv_put_ok _ _ k1 (key_for i) (value_for i) Hi) as (k2 & Ep & Hi2).
    { rewrite length_key_for, length_value_for. fold pair_cost. nia. }
    exists k2. erewrite bind_ok by (apply on_snd_run, Ep). split; [done|]. rewrite length_key_for, length_value_for in Hi2. fold pair_cost in Hi2.
    rewrite blen_cons. by replace (u + (1 + blen done) * pair_cost) with (u + blen done * pair_cost + pair_cost) by lia.
  - apply partition_cuts.
  - cbn [put_all foldr]. by replace (u + blen (@nil Z) * pair_cost) with u by (unfold blen; simpl; lia).
  - destruct (report_ok match order with Sequential => "fill-seq" | Random => "fill-random" end%string (label k') conc (elapsed tm) hists)
      as (r & Ef & ? & ? & ? & Hops).
    exists r, k'. unfold run_fill. fold all. erewrite bind_ok by exact Es. unfold gets. rewrite bind_run. cbn. unfold of_outcome. rewrite Ef.
    split_and!; [done|done|by rewrite Hops, Hs|done|]. rewrite Hperm in Hd.
    rewrite (put_all_proper _ _ Hd kv kv eq_refl) in Hi. unfold blen in Hi. rewrite Hd, length_seqZ in Hi. by rewrite Z2Nat.id in Hi.
Qed.

(** A map in which the first [n] indices were filled. *)
Definition filled n kv : Prop := ∀ i, 0 ≤ i < n → kv !! key_for i = Some (value_for i).

Lemma run_point_read_ok n count conc seed tm kv u k :
  kv_rep kv u k → filled n kv → 0 ≤ count → (count = 0 ∨ 0 < n) →
  ∃ r k', run_point_read (R:=R) n count conc seed tm k = (Ok r, k') ∧
    phase r = "point-read"%string ∧ ops r = count ∧ concurrency r = conc ∧ kv_rep kv u k'.
Proof.
  intros Hrep Hfill Hc Hn.
  destruct (read_indices_ok (R:=R) (E:=BenchError) n count seed Hc Hn) as (all & Er & Hlen & Hall).
  destruct (scoped_ok read_body all (λ _ k, kv_rep kv u k)) with (ranges := partition (blen all) conc) (sched := sched tm) (k := k)
    as (hists & k' & Es & (done & Hd & Hi) & Hwf & Hs).
  - intros i ns h done k1 Hsub Hi. rewrite Forall_forall in Hall.
    assert (Hin : i ∈ all) by (eapply elem_of_submseteq; [|exact Hsub]; apply list_elem_of_here).
    destruct (kv_get_ok _ _ k1 (key_for i) Hi) as (k2 & Eg & Hi2). exists k2. split; [|done]. unfold read_body.
    erewrite bind_ok by (apply on_snd_run, Eg). rewrite (Hfill i) by by apply Hall. rewrite bind_run. cbn [mod_fst].
    by rewrite decide_True.
  - apply partition_cuts.
  - done.
  - destruct (report_ok "point-read" (label k') conc (elapsed tm) hists) as (r & Ef & ? & ? & ? & Hops).
    exists r, k'. unfold run_point_read. rewrite bind_run. unfold of_outcome at 1. rewrite Er.
    erewrite bind_ok by exact Es. unfold gets. rewrite bind_run. cbn. unfold of_outcome. rewrite Ef.
    split_and!; [done|done|by rewrite Hops, Hs, Hlen|done..].
Qed.

(** ** Scans *)

(** What a fill of an empty engine leaves. *)
Definition bench_map (n : Z) : gmap bytes bytes := put_all (seqZ 0 n) ∅.

Lemma lookup_put_all l kv i : i ∈ l → put_all l kv !! key_for i = Some (value_for i).
Proof.
  induction l as [|j l IH]; [by intros ?%elem_of_nil|]. intros [->|Hi]%elem_of_cons; simpl; [by rewrite lookup_insert_eq|].
  destruct (decide (key_for j = key_for i)) as [E|Hne].
  - by rewrite E, (key_value j i E), lookup_insert_eq.
  - rewrite lookup_insert_ne by done. by apply IH.
Qed.
Lemma put_all_inv l x v : put_all l ∅ !! x = Some v → ∃ i, i ∈ l ∧ x = key_for i ∧ v = value_for i.
Proof.
  induction l as [|j l IH]; simpl; [by rewrite lookup_empty|]. destruct (decide (key_for j = x)) as [<-|Hne].
  - rewrite lookup_insert_eq. intros [= <-]. exists j. split; [apply list_elem_of_here|done].
  - rewrite lookup_insert_ne by done. intros (i & ? & ?)%IH. exists i. split; [by apply list_elem_of_further|done].
Qed.
Lemma put_all_filled n kv : filled n (put_all (seqZ 0 n) kv).
Proof. intros i Hi. apply lookup_put_all, elem_of_seqZ. lia. Qed.

Lemma bench_map_lookup n x v :
  bench_map n !! x = Some v ↔ ∃ i, 0 ≤ i < n ∧ x = key_for i ∧ v = value_for i.
Proof.
  split.
  - intros (i & Hi%elem_of_seqZ & ? & ?)%put_all_inv. exists i. split; [lia|done].
  - intros (i & Hi & -> & ->). by apply put_all_filled.
Qed.

Lemma scan_window n s w :
  0 ≤ s → 0 ≤ w → s + w ≤ n → n < 2 ^ 64 →
  blen (bt_range (in_range (mkRange (Included (key_for s)) (Excluded (key_for (s + w))))) (bench_map n)) = w.
Proof.
  intros Hs Hw Hn Hbig. set (rows := bt_range _ _).
  assert (Hperm : rows ≡ₚ (λ i, (key_for i, value_for i)) <$> seqZ s w).
  { apply NoDup_Permutation.
    - apply (NoDup_fmap_1 fst), sorted_keys_NoDup, bt_range_sorted.
    - apply NoDup_fmap_2_strong; [|apply NoDup_seqZ]. intros i j Hi%elem_of_seqZ Hj%elem_of_seqZ E.
      apply (f_equal fst) in E. apply key_for_inj; [lia|lia|exact E].
    - intros [x v]. unfold rows. rewrite elem_of_bt_range, bench_map_lookup, list_elem_of_fmap.
      assert (Hin : ∀ i, 0 ≤ i < n → in_range (mkRange (Included (key_for s)) (Excluded (key_for (s + w)))) (key_for i) = true ↔ s ≤ i < s + w).
      { intros i Hi. unfold in_range. cbn [start_bound end_bound]. rewrite andb_true_iff, oleb_ole, oltb_olt.
        unfold ole, olt. rewrite !key_for_order by lia. unfold cmp, Z_ord. done. }
      split.
      + intros ((i & Hi & -> & ->) & Hr). exists i. split; [done|]. apply Hin in Hr; [|done]. apply elem_of_seqZ. lia.
      + intros (i & E & Hi%elem_of_seqZ). apply pair_eq in E as [-> ->]. split; [exists i; split; [lia|done]|]. apply Hin; lia. }
  unfold blen. rewrite Hperm, length_fmap, length_seqZ. lia.
Qed.

Lemma scan_loop_ok n window sch t starts h total u k :
  kv_rep (bench_map n) u k → 0 ≤ window → n < 2 ^ 64 →
  Forall (λ s, 0 ≤ s ∧ s + window ≤ n) starts → 0 ≤ total → total + window * blen starts < 2 ^ 64 → hist_wf h →
  ∃ h' k', scan_loop window sch t starts h total k = (Ok (h', total + window * blen starts), k') ∧
    kv_rep (bench_map n) u k' ∧ hist_wf h' ∧ blen (samples h') = blen (samples h) + blen starts.
Proof.
  intros Hrep Hw Hn Hst. revert t h total k Hrep. induction Hst as [|s starts [Hs Hsn] _ IH]; intros t h total k Hrep Ht Hfit Hwf.
  - exists h, k. cbn [scan_loop]. unfold blen. simpl. rewrite Z.mul_0_r, !Z.add_0_r. done.
  - cbn [scan_loop]. rewrite blen_cons in Hfit. pose proof (blen_nonneg starts).
    assert (E : u64_add s window = s + window) by (apply u64_wrap_id; lia). rewrite E.
    destruct (scan_count_ok _ _ k (key_for s) (key_for (s + window)) Hrep) as (k1 & Es & Hrep1).
    { unfold ole. rewrite key_for_order by lia. intros ?%Z.compare_gt_iff. lia. }
    rewrite scan_window in Es by lia. erewrite bind_ok by exact Es.
    assert (Et : u64_add total window = total + window) by (apply u64_wrap_id; nia). rewrite Et.
    destruct (IH (Datatypes.S t) (record (nanos (sch t).2) h) (total + window) k1 Hrep1) as (h' & k' & El & Hr' & Hw' & Hl); [lia|lia|done|].
    exists h', k'. rewrite El, blen_cons. split_and!; [|done|done|].
    + do 3 f_equal. lia.
    + rewrite Hl. cbn [record samples]. rewrite blen_app. unfold blen. simpl. lia.
Qed.

(** A scan phase visits every pair of every window. *)
Lemma run_scan_ok n count window seed tm u k :
  kv_rep (bench_map n) u k → 0 ≤ count → 1 ≤ window → window * count < 2 ^ 64 → n < 2 ^ 64 →
  (count = 0 ∨ window ≤ n) →
  ∃ r k', run_scan (R:=R) n count window seed tm k = (Ok r, k') ∧
    phase r = scan_phase (window * count) ∧ ops r = count ∧ concurrency r = 1 ∧ kv_rep (bench_map n) u k'.
Proof.
  intros Hrep Hc Hw Hfit Hn Hor. set (m := Z.max (Z.max (n - window) 0) 1).
  destruct (read_indices_ok (R:=R) (E:=BenchError) m count seed Hc) as (starts & Er & Hlen & Hall); [right; lia|].
  destruct (scan_loop_ok n window (sched tm) 0 starts (with_capacity count) 0 u k) as (h & k' & El & Hrep' & Hwf & Hs);
    [done|lia|done| |done|by rewrite Hlen|done|].
  { destruct Hor as [->|Hle]; [|eapply Forall_impl; [exact Hall|]; simpl; lia].
    destruct starts; [constructor|]. rewrite blen_cons in Hlen. pose proof (blen_nonneg starts). lia. }
  destruct (report_ok "scan" (label k') 1 (elapsed tm) [h]) as (r & Ef & Hph & Heng & Hconc & Hops).
  eexists _, k'. unfold run_scan. fold m. rewrite bind_run. unfold of_outcome at 1. rewrite Er.
  erewrite bind_ok by exact El. unfold gets. rewrite !bind_run. cbn. unfold of_outcome. rewrite Ef. split; [done|]. simpl.
  rewrite Hlen, Hops, Hconc. split_and!; [done| |done|done]. cbn. rewrite app_nil_r, Hs, Hlen. unfold blen. simpl. lia.
Qed.
End phases.

(** * The self-check of the point reads *)

Section detects.
Context {K : Type} (body : Z → Z → M (Histogram * K) BenchError ()) (i : Z).
Hypothesis body_fails : ∀ ns x, (body i ns x).1 ≠ Ok ().

(** A thread that has not passed the index [i], or has failed. *)
Definition stuck (ws : list Worker) : Prop := ∃ j w, ws !! j = Some w ∧ (i ∈ todo w ∨ ended w ≠ Ok ()).

Lemma run_threads_stuck fuel sched t ws k : stuck ws → stuck (run_threads body fuel sched t ws k).1.
Proof.
  revert t ws k. induction fuel as [|fuel IH]; intros t ws k Hs; cbn [run_threads]; [done|].
  destruct (runnable ws) as [|j0 live] eqn:Elive; [done|]. rewrite <- Elive. destruct (sched t) as [pick ns].
  destruct (runnable ws !! (pick mod length (runnable ws))%nat) as [j|] eqn:Ej; [|done].
  apply list_elem_of_lookup_2, runnable_spec in Ej as (w & Hj & Hw). cbn [mbind option_bind]. rewrite Hj. cbn [fmap option_fmap option_map].
  destruct (turn body ns w k) as [w' k'] eqn:Et. apply IH. destruct Hs as (l & v & Hl & Hv).
  destruct (decide (j = l)) as [<-|Hne]; [|exists l, v; by rewrite list_lookup_insert_ne].
  exists j, w'. rewrite list_lookup_insert_eq by by eapply lookup_lt_Some. split; [done|].
  rewrite Hj in Hl. injection Hl as <-. unfold running in Hw. destruct (ended w) as [[]|e|] eqn:He; [|done..].
  destruct Hv as [Hi|Hv]; [|done]. unfold turn in Et. destruct (todo w) as [|x rest]; [by apply elem_of_nil in Hi|].
  pose proof (body_fails ns (hist w, k)) as Hfail. apply elem_of_cons in Hi as [<-|Hi].
  - destruct (body i ns (hist w, k)) as [r [h k1]]. injection Et as <- <-. by right.
  - destruct (body x ns (hist w, k)) as [r [h k1]]. injection Et as <- <-. by left.
Qed.

Lemma join_all_stuck ws hists : stuck ws → join_all ws ≠ Ok hists.
Proof.
  revert hists. induction ws as [|w ws IH]; intros hists (j & v & Hj & Hv); [done|]. simpl.
  destruct (running w) eqn:Hw; [done|]. destruct (ended w) as [[]|e|] eqn:He; [|by destruct (existsb panicked ws)|done]. cbn.
  destruct j as [|j]; simpl in Hj.
  - injection Hj as ->. exfalso. rewrite He in Hv. destruct Hv as [Hi|Hv]; [|done]. unfold running in Hw. rewrite He in Hw.
    destruct (todo v); [by apply elem_of_nil in Hi|done].
  - destruct (join_all ws) as [out|e|] eqn:Ej; [|done..]. intros _. by apply (IH out); [exists j, v|].
Qed.

Lemma scoped_detects indices ranges sched k hists :
  i ∈ indices → cuts indices ranges (blen indices) → (scoped body indices ranges sched k).1 ≠ Ok hists.
Proof.
  intros Hi (shares & Hsh & Hcat & _). unfold scoped. set (ws := spawn indices <$> ranges).
  assert (Hs : stuck ws).
  { assert (Hall : i ∈ concat shares).
    { rewrite Hcat, take_ge; [done|]. unfold blen. lia. }
    clear Hcat. subst ws. induction Hsh as [|r share ranges shares Hr _ IH]; [by apply elem_of_nil in Hall|].
    simpl in Hall. apply elem_of_app in Hall as [Hin|Hin].
    - exists 0%nat, (spawn indices r). split; [done|]. left. unfold spawn. by rewrite Hr.
    - destruct (IH Hin) as (j & w & Hj & Hw). by exists (Datatypes.S j), w. }
  pose proof (run_threads_stuck (work_left ws) sched 0 ws k Hs) as Hs'.
  destruct (run_threads body (work_left ws) sched 0 ws k) as [ws' k']. by apply join_all_stuck.
Qed.
End detects.

(** C36: whatever engine is driven and however its threads are scheduled, a point-read phase reports no
    result if some key it looks up is never answered with its value: a wrong read cannot pass for a
    fast one. *)
Theorem point_read_detects {R : Type} {RNG : Rng R} {K : Type} {KV : KvBench K} n count conc seed tm (k : K) indices i r :
  read_indices (R:=R) (E:=BenchError) n count seed = Ok indices → i ∈ indices →
  (∀ k', (kv_get (key_for i) k').1 ≠ Ok (Some (value_for i))) →
  (run_point_read (R:=R) n count conc seed tm k).1 ≠ Ok r.
Proof.
  intros Hidx Hi Hwrong. unfold run_point_read. rewrite bind_run. unfold of_outcome at 1. rewrite Hidx, bind_run.
  pose proof (scoped_detects read_body i) as Hs.
  assert (Hbody : ∀ ns x, (read_body i ns x).1 ≠ Ok ()).
  { intros ns [h k']. unfold read_body. rewrite bind_run. cbn [on_snd]. specialize (Hwrong k').
    destruct (kv_get (key_for i) k') as [[[v|]|e|] k1]; [|done..]. rewrite bind_run. cbn [mod_fst].
    rewrite decide_False; [done|]. intros ->. done. }
  specialize (Hs Hbody indices (partition (blen indices) conc) (sched tm) k).
  destruct (scoped read_body indices (partition (blen indices) conc) (sched tm) k) as [[hists|e|] k']; [|done..].
  by destruct (Hs hists Hi (partition_cuts indices conc)).
Qed.

#[local] Existing Instance Sample.rng.

(** An engine that has lost everything. *)
#[local] Instance amnesia : KvBench () := {|
  label _ := "amnesia"%string; kv_put _ _ := mret (); kv_get _ := mret None; scan_count _ _ := mret 0; kv_flush := mret ();
|}.
Definition some_report : PhaseReport :=
  mkReport "point-read" "amnesia" 2 3 f64_zero f64_zero (mkSummary f64_zero f64_zero f64_zero f64_zero f64_zero).
Lemma point_read_detects_witness :
  (run_point_read (R:=Z) (K:=()) 10 3 2 7 (mkTiming (λ t, (t, 5)) f64_zero) ()).1 ≠ Ok some_report.
Proof.
  destruct (read_indices (R:=Z) (E:=BenchError) 10 3 7) as [indices| |] eqn:E; [|by vm_compute in E..].
  destruct indices as [|i indices]; [by vm_compute in E|].
  apply (point_read_detects 10 3 2 7 _ () (i :: indices) i some_report E); [apply list_elem_of_here|done].
Defined.
End RunnerSpec.
