(* ===== verification/BenchSpec.v ===== *)
(** The benchmark on the engine: the engine meets the interface the driver relies on,
    and every workload runs to its end with the reports one expects. *)
From Stdlib Require Import Strings.String.
From S2P Require Export BenchMain RunnerSpec DbRefine.

Module BenchSpec.
Import Db DbSpec DbOpen DbRefine Workload KvBench Runner RunnerSpec BenchMain.

(** * The engine behind the interface *)

Section accretion.
Context {CRC : Crc32} {CRCL : Crc32Laws} {XXH : Xxh3}.
Context {S : Type} {ST : Storage.Storage S} {STS : StorageSpec S}.

Definition bench_rep (kv : gmap bytes bytes) (u : Z) (x : AccretionBench * S) : Prop :=
  ∃ d o, db_rep d o kv u (KvBench.db x.1) x.2.

Lemma db_rep_budget d o kv u db s : db_rep d o kv u db s → u ≤ 2 ^ 30.
Proof. intros (m & _ & c & es & [Hi _] & _). apply (di_budget _ _ _ _ _ Hi). Qed.
Lemma zoom_ok {A} (m : M (Db * S) DbError A) b (s : S) a db' s' :
  m (KvBench.db b, s) = (Ok a, (db', s')) → zoom KvBench.db set_db m (b, s) = (Ok a, (set_db db' b, s')).
Proof. intros E. unfold zoom. by rewrite E. Qed.

#[export] Instance accretion_spec : KvSpec (AccretionBench * S).
Proof.
  refine {| kv_rep := bench_rep; kv_budget := 2 ^ 30; put_cost x y := 40 + 2 * Z.max x 0 + Z.max y 0; flush_cost := 2 |}.
  - intros. lia.
  - done.
  - intros kv u [b s] k v (d & o & Hr) Hu. pose proof (blen_nonneg k). pose proof (blen_nonneg v).
    assert (Hc : op_cost (OpPut k v) = 40 + 2 * Z.max (blen k) 0 + Z.max (blen v) 0).
    { cbn [op_cost]. unfold write_cost. rewrite Tables.weight_alt. cbn [fst snd Memtable.kind]. lia. }
    destruct (run_op_rep d o kv u _ s (OpPut k v) Hr Logic.I) as (db' & s' & E & Hr'); [lia|].
    cbn [run_op] in E. apply bind_ok_inv in E as ([] & [db1 s1] & E & [= -> ->]).
    exists (set_db db' b, s'). split; [|exists d, o; by rewrite <- Hc].
    cbn [kv_put accretion_kv]. apply map_err_ok, zoom_ok, E.
  - intros kv u [b s] k (d & o & Hr). pose proof (db_rep_budget _ _ _ _ _ _ Hr).
    destruct (run_op_rep d o kv u _ s (OpGet k) Hr Logic.I) as (db' & s' & E & Hr'); [cbn [op_cost]; lia|].
    cbn [run_op] in E. apply bind_ok_inv in E as (v & [db1 s1] & E & [= -> -> ->]). cbn [op_cost] in Hr'. rewrite Z.add_0_r in Hr'.
    exists (set_db db' b, s'). split; [|by exists d, o].
    cbn [kv_get accretion_kv]. apply map_err_ok, zoom_ok, E.
  - intros kv u [b s] lo hi (d & o & Hr) Hle. pose proof (db_rep_budget _ _ _ _ _ _ Hr).
    set (r := mkRange (Included lo) (Excluded hi)). assert (Hok : op_ok (OpScan r)).
    { cbn. apply not_true_iff_false. rewrite oltb_olt. by apply not_olt. }
    destruct (run_op_rep d o kv u _ s (OpScan r) Hr Hok) as (db' & s' & E & Hr'); [cbn [op_cost]; lia|].
    cbn [run_op] in E. apply bind_ok_inv in E as (it & [db1 s1] & E & E2). apply bind_ok_inv in E2 as (l & [db2 s2] & E2 & [= -> -> ->]).
    injection E2 as E2 -> ->. cbn [op_cost] in Hr'. rewrite Z.add_0_r in Hr'.
    exists (set_db db' b, s'). split; [|by exists d, o]. cbn [scan_count accretion_kv]. fold r.
    erewrite bind_ok by (apply map_err_ok, zoom_ok, E). rewrite bind_run. unfold map_err, of_outcome. by rewrite E2.
  - intros kv u [b s] (d & o & Hr) Hu.
    destruct (run_op_rep d o kv u _ s OpFlush Hr Logic.I) as (db' & s' & E & Hr'); [done|].
    cbn [run_op] in E. apply bind_ok_inv in E as ([] & [db1 s1] & E & [= -> ->]).
    exists (set_db db' b, s'). split; [|by exists d, o]. cbn [kv_flush accretion_kv]. apply map_err_ok, zoom_ok, E.
Defined.

Lemma bench_open_ok d dur size s m :
  st_view s m → fresh_dir d m → ∃ b s', KvBench.open_on d dur size s = (Ok b, s') ∧ kv_rep ∅ 1 (b, s').
Proof.
  intros Hm Hd. destruct (db_open_fresh_ok d (mkOptions dur size 4) s m Hm Hd) as (db & s' & E & Hr); [done|].
  exists (mkBench db dur), s'. unfold KvBench.open_on. erewrite bind_ok by (apply map_err_ok, E). split; [done|].
  by exists d, (mkOptions dur size 4).
Qed.
End accretion.

(** * The workloads *)

(** What a report says, timings aside. *)
Definition facts (r : PhaseReport) : string * Z * Z := (Runner.phase r, Runner.ops r, Runner.concurrency r).

Definition fill_facts cfg : string * Z * Z := ("fill-random"%string, keys cfg, concurrency cfg).
Definition read_facts cfg : string * Z * Z := ("point-read"%string, reads cfg, concurrency cfg).
Definition window cfg : Z := Z.min (Z.max (keys cfg / 100) 1) 1000.
Definition scan_facts cfg : string * Z * Z :=
  (scan_phase (window cfg * Z.min (reads cfg) 1000), Z.min (reads cfg) 1000, 1).

(** The reports of a workload; a name that is none of the six gives none. *)
Definition expected cfg : list (string * Z * Z) :=
  if is_workload cfg "all" then [fill_facts cfg; read_facts cfg; scan_facts cfg]
  else if is_workload cfg "fill-seq" then [("fill-seq"%string, keys cfg, concurrency cfg)]
  else if is_workload cfg "fill-random" then [fill_facts cfg]
  else if is_workload cfg "point-read" then [fill_facts cfg; read_facts cfg]
  else if is_workload cfg "scan" then [fill_facts cfg; scan_facts cfg]
  else [].

(** A configuration whose numbers are in range and whose reads have keys to read. *)
Record config_ok cfg : Prop := {
  ok_keys : 0 ≤ keys cfg < 2 ^ 64;
  ok_reads : 0 ≤ reads cfg;
  ok_some : reads cfg = 0 ∨ 0 < keys cfg;
}.

Section workloads.
Context {R : Type} {RNG : Rng R} {RNGL : RngLaws R} {SHUF : Shuffle R} {SHUFL : ShuffleLaws R}.
Context {K : Type} {KV : KvBench K} {KVS : KvSpec K}.
Context (cfg : Config) (tm : Timings).

Lemma read_part_ok out seed u k :
  config_ok cfg → kv_rep (bench_map (keys cfg)) u k →
  ∃ r k', run_point_read (R:=R) (keys cfg) (reads cfg) (concurrency cfg) seed (read_timing tm) k = (Ok r, k') ∧
    facts <$> out ++ [r] = (facts <$> out) ++ [read_facts cfg] ∧ kv_rep (bench_map (keys cfg)) u k'.
Proof.
  intros [Hk Hr Hs] Hrep.
  destruct (run_point_read_ok (R:=R) (keys cfg) (reads cfg) (concurrency cfg) seed (read_timing tm) _ u k Hrep)
    as (r & k' & E & E1 & E2 & E3 & Hrep'); [apply put_all_filled|done|done|].
  exists r, k'. split_and!; [done| |done]. rewrite fmap_app. cbn. unfold facts, read_facts. by rewrite E1, E2, E3.
Qed.
Lemma scan_part_ok out seed u k :
  config_ok cfg → kv_rep (bench_map (keys cfg)) u k →
  ∃ r k', run_scan (R:=R) (keys cfg) (Z.min (reads cfg) 1000) (window cfg) seed (scan_timing tm) k = (Ok r, k') ∧
    facts <$> out ++ [r] = (facts <$> out) ++ [scan_facts cfg] ∧ kv_rep (bench_map (keys cfg)) u k'.
Proof.
  intros [Hk Hr Hs] Hrep. assert (Hw : 1 ≤ window cfg ≤ 1000) by (unfold window; lia).
  assert (Hle : 0 < keys cfg → window cfg ≤ keys cfg).
  { intros Hpos. unfold window. pose proof (Z.div_le_upper_bound (keys cfg) 100 (keys cfg)). lia. }
  destruct (run_scan_ok (R:=R) (keys cfg) (Z.min (reads cfg) 1000) (window cfg) seed (scan_timing tm) u k Hrep)
    as (r & k' & E & E1 & E2 & E3 & Hrep'); [lia|lia|nia|lia|lia|].
  exists r, k'. split_and!; [done| |done]. rewrite fmap_app. cbn. unfold facts, scan_facts. by rewrite E1, E2, E3.
Qed.
Lemma fill_part_ok order u k :
  config_ok cfg → kv_rep ∅ u k → u + keys cfg * pair_cost ≤ kv_budget →
  ∃ r k', run_fill (R:=R) order (keys cfg) (concurrency cfg) (seed cfg) (fill_timing tm) k = (Ok r, k') ∧
    facts r = (match order with Sequential => "fill-seq" | Random => "fill-random" end%string, keys cfg, concurrency cfg) ∧
    kv_rep (bench_map (keys cfg)) (u + keys cfg * pair_cost) k'.
Proof.
  intros [Hk Hr Hs] Hrep Hu.
  destruct (run_fill_ok (R:=R) order (keys cfg) (concurrency cfg) (seed cfg) (fill_timing tm) ∅ u k Hrep)
    as (r & k' & E & E1 & E2 & E3 & Hrep'); [lia|done|].
  exists r, k'. split_and!; [done| |done]. unfold facts. by rewrite E1, E2, E3.
Qed.

(** The second half of a workload, after the reports [out]. *)
Lemma read_phase_ok out kv u k :
  let alone := is_workload cfg "point-read" || is_workload cfg "scan" in
  config_ok cfg → kv_rep kv u k → want cfg "point-read" || want cfg "scan" = true →
  kv = (if alone then ∅ else bench_map (keys cfg)) →
  u + (if alone then keys cfg * pair_cost else 0) + flush_cost ≤ kv_budget →
  ∃ rs k' u', read_phase (R:=R) cfg tm out k = (Ok rs, k') ∧ kv_rep (bench_map (keys cfg)) u' k' ∧
    facts <$> rs = (facts <$> out) ++ (if alone then [fill_facts cfg] else []) ++
      (if want cfg "point-read" then [read_facts cfg] else []) ++ (if want cfg "scan" then [scan_facts cfg] else []).
Proof.
  intros alone Hok Hrep Hwant Hkv Hu. pose proof flush_cost_nonneg as Hflush. unfold read_phase. rewrite Hwant. fold alone.
  assert (Hfill : ∃ out' k1, (if alone then r ← run_fill (R:=R) Random (keys cfg) (concurrency cfg) (seed cfg) (fill_timing tm);
      mret (out ++ [r]) else mret out) k = (Ok out', k1) ∧
    facts <$> out' = (facts <$> out) ++ (if alone then [fill_facts cfg] else []) ∧
    kv_rep (bench_map (keys cfg)) (u + if alone then keys cfg * pair_cost else 0) k1).
  { destruct alone; subst kv.
    - destruct (fill_part_ok Random u k Hok Hrep) as (r & k1 & E & Ef & Hrep1); [lia|]. exists (out ++ [r]), k1.
      erewrite bind_ok by exact E. split_and!; [done| |done]. rewrite fmap_app. cbn. by rewrite Ef.
    - exists out, k. rewrite app_nil_r, Z.add_0_r. done. }
  destruct Hfill as (out1 & k1 & E1 & F1 & Hrep1). erewrite bind_ok by exact E1.
  destruct (kv_flush_ok _ _ k1 Hrep1 Hu) as (k2 & E2 & Hrep2). erewrite bind_ok by exact E2.
  rewrite app_assoc, <- F1. clear E1 F1 Hrep1. set (u2 := _ + flush_cost) in Hrep2.
  assert (Hread : ∃ out' k3, (if want cfg "point-read" then
        r ← run_point_read (R:=R) (keys cfg) (reads cfg) (concurrency cfg) (Z.lxor (seed cfg) 0xA5A5) (read_timing tm); mret (out1 ++ [r])
      else mret out1) k2 = (Ok out', k3) ∧
    facts <$> out' = (facts <$> out1) ++ (if want cfg "point-read" then [read_facts cfg] else []) ∧
    kv_rep (bench_map (keys cfg)) u2 k3).
  { destruct (want cfg "point-read").
    - destruct (read_part_ok out1 (Z.lxor (seed cfg) 0xA5A5) u2 k2 Hok Hrep2) as (r & k3 & E & Ef & Hrep3).
      exists (out1 ++ [r]), k3. by erewrite bind_ok by exact E.
    - exists out1, k2. by rewrite app_nil_r. }
  destruct Hread as (out3 & k3 & E3 & F3 & Hrep3). erewrite bind_ok by exact E3. rewrite app_assoc, <- F3. clear E3 F3.
  fold (window cfg). destruct (want cfg "scan").
  - destruct (scan_part_ok out3 (Z.lxor (seed cfg) 0x1234) u2 k3 Hok Hrep3) as (r & k4 & E & Ef & Hrep4).
    exists (out3 ++ [r]), k4, u2. by erewrite bind_ok by exact E.
  - exists out3, k3, u2. by rewrite app_nil_r.
Qed.

Lemma is_workload_lit w n : workload cfg = lit w → is_workload cfg n = String.eqb w n.
Proof.
  intros W. unfold is_workload. rewrite W. apply eq_true_iff_eq. rewrite bool_decide_eq_true, String.eqb_eq. split.
  - intros E. unfold lit in E. apply (f_equal String.string_of_list_byte) in E. by rewrite !String.string_of_list_byte_of_string in E.
  - by intros ->.
Qed.

Lemma not_workload n : workload cfg ≠ lit n → is_workload cfg n = false.
Proof. apply bool_decide_eq_false_2. Qed.

(** The name of the workload is known: every test of it computes. *)
Ltac named W := rewrite ?(is_workload_lit _ _ W) in *; cbn in *.

(** From an empty engine, every workload ends with the reports expected of it; the
    engine then holds the filled keys, or nothing if the name is of no workload. *)
Lemma run_workload_ok u k :
  config_ok cfg → kv_rep ∅ u k → u + keys cfg * pair_cost + flush_cost ≤ kv_budget →
  ∃ rs k' u', run_workload (R:=R) cfg tm k = (Ok rs, k') ∧ facts <$> rs = expected cfg ∧
    kv_rep (if decide (expected cfg = []) then ∅ else bench_map (keys cfg)) u' k'.
Proof.
  intros Hok Hrep Hu. pose proof flush_cost_nonneg as Hflush.
  destruct (fill_part_ok Sequential u k Hok Hrep) as (rs1 & k1 & E1 & F1 & Hrep1); [lia|].
  destruct (fill_part_ok Random u k Hok Hrep) as (rr & k2 & E2 & F2 & Hrep2); [lia|].
  unfold run_workload, fill_phase, expected.
  pose proof (read_phase_ok [] ∅ u k) as Halone. pose proof (read_phase_ok [rr] (bench_map (keys cfg)) (u + keys cfg * pair_cost) k2) as Hafter.
  unfold want in *. destruct (decide (workload cfg = lit "all")) as [W|N1]; [named W|rewrite (not_workload _ N1) in *].
  { destruct Hafter as (rs & k3 & u3 & E3 & Hrep3 & F3); [done..|lia|]. exists rs, k3, u3.
    erewrite bind_ok by (erewrite bind_ok by exact E2; done). rewrite F3, F2. done. }
  destruct (decide (workload cfg = lit "fill-seq")) as [W|N2]; [named W|rewrite (not_workload _ N2) in *].
  { eexists [rs1], k1, _. erewrite bind_ok by (erewrite bind_ok by exact E1; done). cbn. by rewrite F1. }
  destruct (decide (workload cfg = lit "fill-random")) as [W|N3]; [named W|rewrite (not_workload _ N3) in *].
  { eexists [rr], k2, _. erewrite bind_ok by (erewrite bind_ok by exact E2; done). cbn. by rewrite F2. }
  destruct (decide (workload cfg = lit "point-read")) as [W|N4]; [named W|rewrite (not_workload _ N4) in *].
  { destruct Halone as (rs & k3 & u3 & E3 & Hrep3 & F3); [done..|]. exists rs, k3, u3. by rewrite F3. }
  destruct (decide (workload cfg = lit "scan")) as [W|N5]; [named W|rewrite (not_workload _ N5) in *].
  { destruct Halone as (rs & k3 & u3 & E3 & Hrep3 & F3); [done..|]. exists rs, k3, u3. by rewrite F3. }
  exists [], k, u. unfold read_phase, want.
  rewrite (not_workload _ N1), (not_workload _ N4),
    (not_workload _ N5). done.
Qed.
End workloads.

(** * The driver, from the command line to the reports *)

Section driver.
Context {CRC : Crc32} {CRCL : Crc32Laws} {XXH : Xxh3}.
Context {R : Type} {RNG : Rng R} {RNGL : RngLaws R} {SHUF : Shuffle R} {SHUFL : ShuffleLaws R}.
Context {S : Type} {ST : Storage.Storage S} {STS : StorageSpec S}.

(** C35: on a fresh directory every benchmark workload, under every scheduling of its worker threads,
    ends with the expected reports: each key filled once, every point read verified, each scan
    visiting exactly its window. *)
Theorem bench_workloads d cfg tm (s : S) m :
  st_view s m → fresh_dir d m → engine cfg = Accretion → config_ok cfg → keys cfg ≤ 6000000 →
  ∃ rs s', run_engine (R:=R) cfg d tm s = (Ok rs, s') ∧ facts <$> rs = expected cfg.
Proof.
  intros Hm Hd He Hok Hkeys.
  destruct (bench_open_ok d (durability cfg) (memtable_bytes cfg) s m Hm Hd) as (b & s1 & Eo & Hrep).
  destruct (run_workload_ok (R:=R) cfg tm 1 (b, s1) Hok Hrep) as (rs & [b2 s2] & u & Er & Hf & _).
  { unfold pair_cost, kv_budget, flush_cost, put_cost, KEY_LEN, VALUE_LEN. cbn. lia. }
  exists rs, s2. split; [|done]. unfold run_engine. rewrite He. erewrite bind_ok by exact Eo. by eapply with_local_run.
Qed.
End driver.

(** The arguments that spell out a configuration. *)
Definition engine_arg (e : Engine) : string := match e with Accretion => "accretion" | Sled => "sled" end.
Definition durability_arg (d : Wal.Durability) : string :=
  match d with Wal.Always => "always" | Wal.GroupCommit => "group" | Wal.OsBuffered => "osbuffered" end.
Definition to_args (c : Config) : list bytes :=
  [workload c; lit "--engine"; lit (engine_arg (engine c)); lit "--durability"; lit (durability_arg (durability c));
   lit "--keys"; fmt020 (keys c); lit "--reads"; fmt020 (reads c); lit "--concurrency"; fmt020 (concurrency c);
   lit "--memtable-bytes"; fmt020 (memtable_bytes c)] ++
  match dir c with Some d => [lit "--dir"; d] | None => [] end ++ [lit "--seed"; fmt020 (seed c)].

Lemma flags_step flag v rest cfg arm cfg' :
  flag_arm flag = Some arm → arm v cfg = Ok cfg' → flags_loop (flag :: v :: rest) cfg = flags_loop rest cfg'.
Proof. intros Ha Hv. cbn [flags_loop]. by rewrite Ha, Hv. Qed.
Lemma flags_number name n rest cfg set :
  flag_arm (lit name) = Some (λ v c, n ← parse_number name v; Ok (set n c)) → 0 ≤ n < 2 ^ 64 →
  flags_loop (lit name :: fmt020 n :: rest) cfg = flags_loop rest (set n cfg).
Proof. intros Ha Hn. apply (flags_step _ _ _ _ _ _ Ha). unfold parse_number. by rewrite parse_fmt020. Qed.

(** A configuration spelled out as arguments parses to itself; with no reads asked for, the
    reads are the keys. *)
Theorem parse_args_roundtrip c :
  starts_with (lit "--") (workload c) = false →
  Forall (λ n, 0 ≤ n < 2 ^ 64) [keys c; reads c; concurrency c; memtable_bytes c; seed c] →
  parse_args (to_args c) = Ok (if decide (reads c = 0) then set_reads (keys c) c else c).
Proof.
  intros Hw Hn. repeat (apply Forall_cons in Hn as [? Hn]). unfold to_args, parse_args. cbn [app]. rewrite Hw. cbn [negb].
  destruct c as [w e d ks rs cc mb dr sd]. cbn [workload engine durability keys reads concurrency memtable_bytes dir seed] in *.
  unfold parse_flags. erewrite flags_step by (try reflexivity; by destruct e).
  erewrite flags_step by (try reflexivity; by destruct d).
  do 4 erewrite flags_number by (try reflexivity; done).
  assert (E : ∀ cfg, flags_loop (match dr with Some d0 => [lit "--dir"; d0] | None => [] end ++ [lit "--seed"; fmt020 sd]) cfg =
    flags_loop [lit "--seed"; fmt020 sd] (match dr with Some d0 => set_dir d0 cfg | None => cfg end)) by by destruct dr.
  rewrite E. erewrite flags_number by (try reflexivity; done). by destruct dr.
Qed.

#[local] Existing Instance Sample.crc.
#[local] Existing Instance Sample.crc_laws.
#[local] Existing Instance Sample.xxh3.
#[local] Existing Instance Sample.rng.
#[local] Existing Instance Sample.rng_laws.
#[local] Existing Instance Sample.rotation.
#[local] Existing Instance Sample.rotation_laws.

(** Three threads over thirty keys, the scheduler picking them in turn. *)
Definition small_config : Config := set_concurrency 3 (set_reads 40 (set_keys 30 default_config)).
Definition in_turn : Timing := mkTiming (λ t, (t, 1500 + Z.of_nat t)) f64_one.

Lemma bench_workloads_witness :
  ∃ rs s', run_engine (R:=Z) small_config [] (mkTimings in_turn in_turn in_turn) (SimFs.with_seed (R:=Z) 7) = (Ok rs, s') ∧
    facts <$> rs = [("fill-random"%string, 30, 3); ("point-read"%string, 40, 3); ("scan(≈40 pairs)"%string, 40, 1)].
Proof.
  apply (bench_workloads (R:=Z) [] small_config (mkTimings in_turn in_turn in_turn) (SimFs.with_seed (R:=Z) 7) ∅).
  - apply SimSpec.st_view_with_seed.
  - apply fresh_empty.
  - done.
  - by split; [|by vm_compute|right].
  - done.
Defined.

Lemma parse_args_roundtrip_witness :
  parse_args (to_args (set_dir (lit "/tmp/db") small_config)) = Ok (set_dir (lit "/tmp/db") small_config).
Proof. apply (parse_args_roundtrip (set_dir (lit "/tmp/db") small_config)); [by vm_compute|by repeat constructor]. Defined.
End BenchSpec.
