(* ===== verification/SledShim.v ===== *)
(** The sled baseline of the benchmark ([src/bin/accretion-bench/sled_shim.rs], built
    with the feature [bench-sled]): sled itself as a parameter with the laws of an
    ordered map, its two modes behind the driver's interface, and [run_sled]. *)
From Stdlib Require Import Strings.String.
From S2P Require Export BenchSpec.

Module SledShim.
Import Workload KvBench Runner RunnerSpec BenchMain BenchSpec.

(** * sled *)

(** [sled::Config], as far as the shim sets it. *)
Record SledConfig : Type := mkSledConfig {
  sled_path : path;
  flush_every_ms : option Z;
  cache_capacity : Z;
}.

(** The crate's database, over a state [D] of the process and the disk; an error is
    known by the message it displays. *)
Class Sled (D : Type) := {
  sled_open : SledConfig → M D string ();
  sled_insert : bytes → bytes → M D string (option bytes);
  sled_get : bytes → M D string (option bytes);
  sled_flush : M D string Z;
  (* the items a drained [range(lo..hi)] yields *)
  sled_range : bytes → bytes → M D string (list (bytes * bytes + string));
}.

(** What its documentation says of a database nothing goes wrong with: an ordered map. *)
Class SledLaws (D : Type) `{!Sled D} := {
  sled_holds : gmap bytes bytes → D → Prop;
  sled_insert_ok (kv : gmap bytes bytes) w k v : sled_holds kv w →
    ∃ w', sled_insert k v w = (Ok (kv !! k), w') ∧ sled_holds (<[k := v]> kv) w';
  sled_get_ok (kv : gmap bytes bytes) w k : sled_holds kv w →
    ∃ w', sled_get k w = (Ok (kv !! k), w') ∧ sled_holds kv w';
  sled_flush_ok (kv : gmap bytes bytes) w : sled_holds kv w →
    ∃ n w', sled_flush w = (Ok n, w') ∧ sled_holds kv w';
  sled_range_ok (kv : gmap bytes bytes) w lo hi : sled_holds kv w → lo ⪯ hi →
    ∃ w', sled_range lo hi w = (Ok (inl <$> bt_range (in_range (mkRange (Included lo) (Excluded hi))) kv), w') ∧
      sled_holds kv w';
}.

(** * The shim *)

Section shim.
Context {D : Type} {SLED : Sled D}.

(** [open_sled(dir, flush_every_ms)]; [SledDurable::open] and [SledBuffered::open] are
    both [open_sled(dir, None)]. *)
Definition open_sled (d : path) (flush_every : option Z) : M D BenchError () :=
  map_err (BoxedText "sled open") (sled_open (mkSledConfig d flush_every (64 * 1024 * 1024))).

Definition insert (key value : bytes) : M D BenchError () :=
  _ ← map_err (BoxedText "sled insert") (sled_insert key value); mret ().
Definition flush : M D BenchError () := _ ← map_err (BoxedText "sled flush") sled_flush; mret ().
Definition get (key : bytes) : M D BenchError (option bytes) := map_err (BoxedText "sled get") (sled_get key).

(** The loop of [scan_count]: the first error ends it. *)
Fixpoint count_items (items : list (bytes * bytes + string)) (n : Z) : outcome BenchError Z :=
  match items with
  | [] => Ok n
  | inl _ :: rest => count_items rest (n + 1)
  | inr e :: _ => Err (BoxedText "sled range" e)
  end.
Definition count (start end_ : bytes) : M D BenchError Z :=
  items ← map_err (BoxedText "sled range") (sled_range start end_);
  of_outcome (count_items items 0).

(** [impl KvBench for SledDurable] and [for SledBuffered]. *)
Definition durable_kv : KvBench D := {|
  label _ := "sled/insert+flush(durable)"%string;
  kv_put key value := _ ← insert key value; flush;
  kv_get := get;
  scan_count := count;
  kv_flush := flush;
|}.
Definition buffered_kv : KvBench D := {|
  label _ := "sled/buffered(no-flush)"%string;
  kv_put := insert;
  kv_get := get;
  scan_count := count;
  kv_flush := flush;
|}.

(** [run_sled(cfg, dir)]. *)
Definition run_sled {R} `{!Rng R, !Shuffle R} (cfg : Config) (d : path) (tm : Timings) : M D BenchError (list PhaseReport) :=
  _ ← open_sled d None;
  if decide (durability cfg = Wal.OsBuffered)
  then run_workload (R:=R) (KV:=buffered_kv) cfg tm
  else run_workload (R:=R) (KV:=durable_kv) cfg tm.
End shim.

(** * The baseline does the same work *)

Section spec.
Context {R : Type} {RNG : Rng R} {RNGL : RngLaws R} {SHUF : Shuffle R} {SHUFL : ShuffleLaws R}.
Context {D : Type} {SLED : Sled D} {SLEDL : SledLaws D}.

Lemma insert_run kv w k v :
  sled_holds kv w → ∃ w', insert k v w = (Ok (), w') ∧ sled_holds (<[k := v]> kv) w'.
Proof.
  intros Hw. destruct (sled_insert_ok kv w k v Hw) as (w' & E & Hw'). exists w'. split; [|done].
  unfold insert. by erewrite bind_ok by (apply map_err_ok, E).
Qed.
Lemma flush_run kv w : sled_holds kv w → ∃ w', flush w = (Ok (), w') ∧ sled_holds kv w'.
Proof.
  intros Hw. destruct (sled_flush_ok kv w Hw) as (n & w' & E & Hw'). exists w'. split; [|done].
  unfold flush. by erewrite bind_ok by (apply map_err_ok, E).
Qed.
Lemma get_run kv w k : sled_holds kv w → ∃ w', get k w = (Ok (kv !! k), w') ∧ sled_holds kv w'.
Proof. intros Hw. destruct (sled_get_ok kv w k Hw) as (w' & E & Hw'). exists w'. split; [|done]. apply map_err_ok, E. Qed.
Lemma count_inl l n : count_items (inl <$> l) n = Ok (n + blen l).
Proof.
  revert n. induction l as [|x l IH]; intros n; [by rewrite Z.add_0_r|].
  rewrite fmap_cons, blen_cons. cbn [count_items]. rewrite IH. f_equal. lia.
Qed.
Lemma count_run kv w lo hi :
  sled_holds kv w → lo ⪯ hi →
  ∃ w', count lo hi w = (Ok (blen (bt_range (in_range (mkRange (Included lo) (Excluded hi))) kv)), w') ∧ sled_holds kv w'.
Proof.
  intros Hw Hle. destruct (sled_range_ok kv w lo hi Hw Hle) as (w' & E & Hw'). exists w'. split; [|done].
  unfold count. erewrite bind_ok by (apply map_err_ok, E). unfold of_outcome. by rewrite count_inl.
Qed.

(** Neither mode has a budget. *)
Definition buffered_spec : KvSpec D (KvBench0:=buffered_kv).
Proof.
  refine {| kv_rep kv _ w := sled_holds kv w; kv_budget := 0; put_cost _ _ := 0; flush_cost := 0 |}; cbn; try done.
  - intros kv u w k v Hw _. by apply insert_run.
  - intros kv u w k Hw. by apply get_run.
  - intros kv u w lo hi Hw Hle. by apply count_run.
  - intros kv u w Hw _. by apply flush_run.
Defined.
Definition durable_spec : KvSpec D (KvBench0:=durable_kv).
Proof.
  refine {| kv_rep kv _ w := sled_holds kv w; kv_budget := 0; put_cost _ _ := 0; flush_cost := 0 |}; cbn; try done.
  - intros kv u w k v Hw _. destruct (insert_run kv w k v Hw) as (w1 & E & Hw1). erewrite bind_ok by exact E. by apply flush_run.
  - intros kv u w k Hw. by apply get_run.
  - intros kv u w lo hi Hw Hle. by apply count_run.
  - intros kv u w Hw _. by apply flush_run.
Defined.

(** On a fresh sled database every workload ends with the reports the engine's run has:
    the two are given the same work. *)
Theorem sled_workloads cfg d tm w w1 :
  sled_open (mkSledConfig d None (64 * 1024 * 1024)) w = (Ok (), w1) → sled_holds ∅ w1 → config_ok cfg →
  ∃ rs w', run_sled (R:=R) cfg d tm w = (Ok rs, w') ∧ facts <$> rs = expected cfg.
Proof.
  intros Ho Hw Hok. unfold run_sled, open_sled. erewrite bind_ok by (apply map_err_ok, Ho). pose proof (ok_keys _ Hok). case_decide.
  - destruct (run_workload_ok (R:=R) (KVS:=buffered_spec) cfg tm 0 w1 Hok Hw) as (rs & w' & u & E & Hf & _);
      [unfold pair_cost; cbn; lia|by exists rs, w'].
  - destruct (run_workload_ok (R:=R) (KVS:=durable_spec) cfg tm 0 w1 Hok Hw) as (rs & w' & u & E & Hf & _);
      [unfold pair_cost; cbn; lia|by exists rs, w'].
Qed.
End spec.

(** A map is such a database. *)
#[local] Instance sample_sled : Sled (gmap bytes bytes) := {|
  sled_open _ := λ _, (Ok (), ∅);
  sled_insert k v := λ kv, (Ok (kv !! k), <[k := v]> kv);
  sled_get k := λ kv, (Ok (kv !! k), kv);
  sled_flush := λ kv, (Ok 0, kv);
  sled_range lo hi := λ kv, (Ok (inl <$> bt_range (in_range (mkRange (Included lo) (Excluded hi))) kv), kv);
|}.
#[local] Instance sample_sled_laws : SledLaws (gmap bytes bytes).
Proof. exists eq; cbn; intros; subst; eauto. Defined.

#[local] Existing Instance Sample.rng.
#[local] Existing Instance Sample.rng_laws.
#[local] Existing Instance Sample.rotation.
#[local] Existing Instance Sample.rotation_laws.

Lemma sled_workloads_witness :
  ∃ rs w', run_sled (R:=Z) small_config [] (mkTimings in_turn in_turn in_turn) (∅ : gmap bytes bytes) = (Ok rs, w') ∧
    facts <$> rs = [("fill-random"%string, 30, 3); ("point-read"%string, 40, 3); ("scan(≈40 pairs)"%string, 40, 1)].
Proof.
  apply (sled_workloads (R:=Z) small_config [] (mkTimings in_turn in_turn in_turn) ∅ ∅).
  - done.
  - done.
  - by split; [|by vm_compute|right].
Defined.
End SledShim.
