(* ===== verification/CrashTest.v ===== *)
(** The crash-test binary ([src/bin/accretion-crashtest.rs]): a writer that announces
    every acknowledged put, and the checker run after it was killed. *)
From Stdlib Require Import Strings.String.
From S2P Require Export Db.

Module CrashTest.
Import Db.

(** Decimal digits of [v], at least one. *)
Fixpoint ndigits (fuel : nat) (v : Z) : nat :=
  match fuel with
  | O => 1
  | Datatypes.S fuel' => if decide (v < 10) then 1 else Datatypes.S (ndigits fuel' (v / 10))
  end.
(** [format!("{i:012}")]: padded to twelve digits, never cut. *)
Definition fmt012 (i : Z) : bytes := digits (Nat.max 12 (ndigits 20 i)) i.

Definition key_for (i : Z) : bytes := lit "key" ++ fmt012 i.
Definition value_for (i : Z) : bytes :=
  lit "val-" ++ fmt012 i ++ lit "-payload-padding-to-force-flushes-0123456789".

Inductive ExitCode : Type := SUCCESS | FAILURE | Code (n : Z).

Definition crash_options : Options := mkOptions Wal.Always (4 * 1024) 4.

Section programs.
Context `{!Crc32, !Xxh3} {S : Type} {ST : Storage.Storage S}.

(** The loop of [write_loop]: the parent's end of the pipe takes [accepts] more lines
    before it is closed.  Returned with the exit code: the indices announced. *)
Fixpoint put_loop (accepts : nat) (i : Z) (announced : list Z) : M (Db * S) Empty_set (ExitCode * list Z) :=
  r ← attempt (put (key_for i) (value_for i));
  match r with
  | inr _ => mret (FAILURE, announced)
  | inl _ =>
      match accepts with
      | O => mret (SUCCESS, announced)
      | Datatypes.S accepts' => put_loop accepts' (u64_add i 1) (announced ++ [i])
      end
  end.
Definition write_loop (accepts : nat) (dir : path) : M S Empty_set (ExitCode * list Z) :=
  r ← attempt (open_on dir crash_options);
  match r with
  | inr _ => mret (FAILURE, [])
  | inl db => with_local db (put_loop accepts 0 [])
  end.

(** The loop of [verify], up to [fuel] lookups; the indices printed. *)
Fixpoint get_loop (fuel : nat) (i : Z) (printed : list Z) : M (Db * S) Empty_set (ExitCode * list Z) :=
  match fuel with
  | O => panic
  | Datatypes.S fuel' =>
      r ← attempt (get (key_for i));
      match r with
      | inl (Some _) => get_loop fuel' (u64_add i 1) (printed ++ [i])
      | inl None => mret (SUCCESS, printed)
      | inr _ => mret (FAILURE, printed)
      end
  end.
Definition verify (fuel : nat) (dir : path) : M S Empty_set (ExitCode * list Z) :=
  r ← attempt (open_on dir crash_options);
  match r with
  | inr _ => mret (FAILURE, [])
  | inl db => with_local db (get_loop fuel 0 [])
  end.

(** [main], with what the process cannot decide: the lines the parent takes, how far
    the lookups go, and the path a string names. *)
Definition main (path_of : bytes → path) (accepts fuel : nat) (args : list bytes) : M S Empty_set (ExitCode * list Z) :=
  match args with
  | _ :: cmd :: dir :: _ =>
      if decide (cmd = lit "write") then write_loop accepts (path_of dir)
      else if decide (cmd = lit "verify") then verify fuel (path_of dir)
      else mret (Code 2, [])
  | _ => mret (Code 2, [])
  end.
End programs.
End CrashTest.
