(* ===== verification/FsyncProbe.v ===== *)
(** The probe of a disk's durability cost ([src/scripts/fsync_probe.rs]): its command
    line, the two timed loops over a file and a directory, the table it prints.  The
    durations a clock reports are parameters. *)
From Stdlib Require Import Strings.String.
From S2P Require Export RealFs CrashTest Hist.

Module FsyncProbe.
Import RealFs.

Definition BLOCK : nat := 4096.
Definition DEFAULT_ITERS : Z := 1000.
Definition WARMUP : Z := 16.

(** * The command line *)

Record Config : Type := mkConfig { iters : Z; dir : path }.

(** How the process ends before any work: [fail], or the help that was asked for. *)
Inductive Exit : Type := Failed (msg : string) | UnknownArgument (arg : bytes) | Help.
Definition exit_code (e : Exit) : Z := match e with Help => 0 | _ => 2 end.

Section args.
Context (temp_dir : path) (path_of : bytes → path).

(** The loop of [from_args]. *)
Fixpoint args_loop (args : list bytes) (cfg : Config) : outcome Exit Config :=
  match args with
  | [] => Ok cfg
  | arg :: args =>
      if decide (arg = lit "--iters") then
        match args with
        | v :: args =>
            match parse_u64 v with
            | Some n => args_loop args (mkConfig n (dir cfg))
            | None => Err (Failed "--iters needs a positive integer")
            end
        | [] => Err (Failed "--iters needs a positive integer")
        end
      else if decide (arg = lit "--dir") then
        match args with
        | v :: args => args_loop args (mkConfig (iters cfg) (path_of v))
        | [] => Err (Failed "--dir needs a path")
        end
      else if decide (arg = lit "-h" ∨ arg = lit "--help") then Err Help
      else Err (UnknownArgument arg)
  end.
Definition from_args (args : list bytes) : outcome Exit Config :=
  cfg ← args_loop (tail args) (mkConfig DEFAULT_ITERS temp_dir);
  if decide (iters cfg = 0) then Err (Failed "--iters must be > 0") else Ok cfg.
End args.

(** * More of [std::fs] *)

(** [OpenOptions::new().create(true).truncate(true).write(true).open(p)]. *)
Definition os_open_truncate (p : path) : M OsState IoError () :=
  syscall (λ s, match nodes s !! p with
                | Some Dir => (Err is_a_directory, s)
                | Some (File _) => put_file p [] s
                | None => os_parent p (put_file p []) s
                end).
(** [fs::write]. *)
Definition os_fs_write (p : path) (data : bytes) : M OsState IoError () :=
  _ ← os_open_truncate p; os_write_all p 0 data.
(** [lseek], [fdatasync], [fsync] on an open file. *)
Definition os_seek_start : M OsState IoError () := syscall (mret ()).
Definition os_sync : M OsState IoError () := syscall (mret ()).

Definition directory_not_empty : IoError := KindOther "Directory not empty (os error 39)".
Definition os_rmdir (p : path) : M OsState IoError () :=
  syscall (λ s, match nodes s !! p with
                | None => (Err KindNotFound, s)
                | Some (File _) => (Err not_a_directory, s)
                | Some Dir =>
                    if decide (filter (λ q, is_child_of q p = true) (map_to_list (nodes s)).*1 = [])
                    then (Ok (), os_set (base.delete p (nodes s)) s)
                    else (Err directory_not_empty, s)
                end).
(** [fs::remove_dir_all]: the entries first, directories recursively.  Each level is a
    longer path of the tree. *)
Fixpoint remove_tree (fuel : nat) (d : path) : M OsState IoError () :=
  match fuel with
  | O => panic
  | Datatypes.S fuel' =>
      entries ← os_read_dir d;
      _ ← for_each entries (λ q s,
            match nodes s !! q with
            | Some Dir => remove_tree fuel' q s
            | _ => os_remove_file q s
            end);
      os_rmdir d
  end.
Definition os_remove_dir_all (d : path) : M OsState IoError () := λ s,
  remove_tree (Datatypes.S (size (nodes s))) d s.

(** [Vec::<u64>::with_capacity(n)]: a panic when the bytes exceed [isize::MAX]. *)
Definition with_capacity (n : Z) : M OsState IoError (list Z) :=
  if decide (n * 8 ≤ 2 ^ 63 - 1) then mret [] else panic.

(** * The measurements *)

(** [format!("{n}")] of an unsigned number of at most [w] digits. *)
Definition fmt_dec (w : nat) (n : Z) : bytes := digits (CrashTest.ndigits w n) n.

Definition block : bytes := replicate BLOCK (byte.of_Z 0xA5).
Definition probe_file (d : path) (nonce : Z) : path :=
  Storage.join d (lit "accretion_fsync_probe_" ++ fmt_dec 39 nonce ++ lit ".dat").
Definition probe_dir (d : path) (nonce : Z) : path :=
  Storage.join d (lit "accretion_fsync_probe_dir_" ++ fmt_dec 39 nonce).

(** What the clock says: the names drawn from it, and the nanoseconds the timed calls
    of each turn took. *)
Record Clock : Type := mkClock {
  file_nonce : Z; dir_nonce : Z;
  data_ns_of : Z → Z; all_ns_of : Z → Z; dir_ns_of : Z → Z;
}.

(** [if i >= WARMUP { v.push(ns as u64) }]. *)
Definition sample (i ns : Z) (v : list Z) : list Z :=
  if decide (WARMUP ≤ i) then v ++ [u64_wrap ns] else v.

Section measure.
Context (clk : Clock).

(** One turn of the loop of [run]. *)
Definition file_turn (p : path) (i : Z) (acc : list Z * list Z) : M OsState IoError (list Z * list Z) :=
  _ ← os_seek_start;
  _ ← os_write_all p 0 block;
  _ ← os_sync;
  _ ← os_seek_start;
  _ ← os_write_all p 0 block;
  _ ← os_sync;
  mret (sample i (data_ns_of clk i) acc.1, sample i (all_ns_of clk i) acc.2).
Definition turns (n : Z) : list Z := Z.of_nat <$> seq 0 (Z.to_nat n).

(** One turn of the loop of [probe_dir_fsync]; [None]: it returns [Ok(None)]. *)
Definition dir_turn (subdir : path) (i : Z) (samples : list Z) : M OsState IoError (option (list Z)) :=
  let tmp := Storage.join subdir (lit "t" ++ fmt_dec 20 i ++ lit ".tmp") in
  let dst := Storage.join subdir (lit "f" ++ fmt_dec 20 i) in
  _ ← os_fs_write tmp (lit "x");
  _ ← os_rename tmp dst;
  let abandon : M OsState IoError (option (list Z)) := (_ ← ignore_err (os_remove_dir_all subdir); mret None) in
  dh ← attempt (os_open_read subdir);
  match dh with
  | inr _ => abandon
  | inl _ =>
      synced ← attempt os_sync;
      match synced with
      | inl _ => mret (Some (sample i (dir_ns_of clk i) samples))
      | inr _ => abandon
      end
  end.
Fixpoint dir_loop (subdir : path) (todo : list Z) (samples : list Z) : M OsState IoError (option (list Z)) :=
  match todo with
  | [] =>
      _ ← ignore_err (os_remove_dir_all subdir);
      mret (if decide (samples = []) then None else Some samples)
  | i :: todo =>
      r ← dir_turn subdir i samples;
      match r with Some samples => dir_loop subdir todo samples | None => mret None end
  end.
Definition probe_dir_fsync (d : path) (iters : Z) : M OsState IoError (option (list Z)) :=
  let subdir := probe_dir d (dir_nonce clk) in
  _ ← os_create_dir_all subdir;
  samples ← with_capacity iters;
  dir_loop subdir (turns (u64_add iters WARMUP)) samples.

(** * What is printed *)

(** [percentile]: it sorts in place. *)
Definition percentile {E} (pct : f64) : M (list Z) E Z :=
  l ← get_state;
  if decide (l = []) then mret 0 else
  _ ← modify (merge_sort Z.le);
  let rank := f64_ceil_usize (f64_mul (f64_div pct (f64_of 100)) (f64_of (blen l))) in
  let idx := Z.min (Z.max 0 (rank - 1)) (blen l - 1) in
  gets (λ l, l !! Z.to_nat idx) ≫= expect.

(** [fmt_dur] of a duration in nanoseconds: the number and its unit. *)
Inductive Shown : Type := Millis (x : f64) | Micros (x : f64).
Definition fmt_dur (ns : Z) : Shown :=
  let secs := f64_add (f64_of (ns `div` 1000000000)) (f64_div (f64_of (ns mod 1000000000)) (f64_of 1000000000)) in
  let us := f64_mul secs (f64_of 1000000) in
  if f64_le (f64_of 1000) us then Millis (f64_div us (f64_of 1000)) else Micros us.

Definition ops_per_sec (ns : Z) : Z :=
  if decide (ns = 0) then 0 else f64_trunc_u64 (f64_div (f64_of 1000000000) (f64_of ns)).

(** A row of the table, in nanoseconds; no figures stand for [(n/a)]. *)
Record Figures : Type := mkFigures { p50 : Z; p99 : Z; lowest : Z; highest : Z; average : Z }.
Definition print_row {E} : M (list Z) E (option Figures) :=
  l ← get_state;
  if decide (l = []) then mret None else
  p50 ← percentile (f64_of 50);
  p99 ← percentile (f64_of 99);
  l ← get_state;
  lo ← expect (match l with [] => None | x :: l => Some (foldl Z.min x l) end);
  hi ← expect (match l with [] => None | x :: l => Some (foldl Z.max x l) end);
  mret (Some (mkFigures p50 p99 lo hi (foldl u64_add 0 l `div` blen l))).

(** The rows, the last only when directories can be synced, and the headline: the
    median, the 99th percentile and the writes per second. *)
Record Report : Type := mkReport {
  data_row : option Figures; all_row : option Figures; dir_row : option (option Figures);
  headline : Z * Z * Z;
}.
Definition report (data_ns all_ns : list Z) (dir_ns : option (list Z)) : M OsState IoError Report :=
  let on {A} (l : list Z) (m : M (list Z) IoError A) : M OsState IoError A := of_outcome (m l).1 in
  data_row ← on data_ns print_row;
  all_row ← on all_ns print_row;
  dir_row ← match dir_ns with
            | Some l => r ← on l print_row; mret (Some r)
            | None => mret None
            end;
  h50 ← on data_ns (percentile (f64_of 50));
  h99 ← on data_ns (percentile (f64_of 99));
  h50' ← on data_ns (percentile (f64_of 50));
  mret (mkReport data_row all_row dir_row (h50, h99, ops_per_sec h50')).

Definition run (cfg : Config) : M OsState IoError Report :=
  let p := probe_file (dir cfg) (file_nonce clk) in
  _ ← os_open_truncate p;
  data_ns ← with_capacity (iters cfg);
  all_ns ← with_capacity (iters cfg);
  '(data_ns, all_ns) ← fold_m (turns (u64_add (iters cfg) WARMUP)) (data_ns, all_ns) (λ acc i, file_turn p i acc);
  dir_ns ← probe_dir_fsync (dir cfg) (iters cfg);
  _ ← ignore_err (os_remove_file p);
  report data_ns all_ns dir_ns.

(** [main]: the exit code, and what was printed. *)
Definition main (temp_dir : path) (path_of : bytes → path) (args : list bytes) : M OsState Empty_set (Z * option Report) :=
  match from_args temp_dir path_of args with
  | Ok cfg =>
      r ← attempt (run cfg);
      mret (match r with inl rep => (0, Some rep) | inr _ => (1, None) end)
  | Err e => mret (exit_code e, None)
  | Panic => panic
  end.
End measure.
End FsyncProbe.
