(* ===== verification/FsyncProbeSpec.v ===== *)
(** The probe on an operating system that reports no fault: it measures as many times
    as it was asked to, leaves every file and directory as it was, and prints the order
    statistics of its samples. *)
From Stdlib Require Import Strings.String.
From S2P Require Export FsyncProbe RealFsSpec.

Module FsyncProbeSpec.
Import RealFs RealFsSpec FsyncProbe.

Abbreviation tree := (gmap path node).
Implicit Types (P : tree → Prop) (f : tree).

(** * A triple for code on a calm system *)

Definition runs {A : Type} (P : tree → Prop) (m : M OsState IoError A) (Q : A → tree → Prop) : Prop :=
  ∀ s, Forall calm (events s) → P (nodes s) →
    ∃ a s', m s = (Ok a, s') ∧ Forall calm (events s') ∧ Q a (nodes s').

Lemma runs_ret {A : Type} (P : tree → Prop) (a : A) Q : (∀ f, P f → Q a f) → runs P (mret a) Q.
Proof. intros H s Hs Hp. exists a, s. split_and!; [done|done|by apply H]. Qed.
Lemma runs_bind {A B : Type} P (m : M OsState IoError A) (Q : A → tree → Prop) (k : A → M OsState IoError B) R :
  runs P m Q → (∀ a, runs (Q a) (k a) R) → runs P (m ≫= k) R.
Proof.
  intros Hm Hk s Hs Hp. destruct (Hm s Hs Hp) as (a & s1 & E & Hs1 & Hq).
  destruct (Hk a s1 Hs1 Hq) as (b & s2 & E2 & Hs2 & Hr). exists b, s2. split_and!; [|done..].
  by erewrite bind_ok by exact E.
Qed.
Lemma runs_strengthen {A : Type} (P P' : tree → Prop) (m : M OsState IoError A) Q Q' :
  (∀ f, P' f → P f) → (∀ a f, Q a f → Q' a f) → runs P m Q → runs P' m Q'.
Proof. intros HP HQ Hm s Hs Hp. destruct (Hm s Hs (HP _ Hp)) as (a & s1 & E & Hs1 & Hq). exists a, s1. auto. Qed.
Lemma runs_ignore {A : Type} P (m : M OsState IoError A) Q :
  runs P m (λ _, Q) → runs P (ignore_err m) (λ _, Q).
Proof.
  intros Hm s Hs Hp. destruct (Hm s Hs Hp) as (a & s1 & E & Hs1 & Hq). exists (), s1. split_and!; [|done..].
  unfold ignore_err. by rewrite E.
Qed.
Lemma runs_attempt {A : Type} P (m : M OsState IoError A) Q :
  runs P m Q → runs P (attempt m) (λ r f, ∃ a, r = inl a ∧ Q a f).
Proof.
  intros Hm s Hs Hp. destruct (Hm s Hs Hp) as (a & s1 & E & Hs1 & Hq). exists (inl a), s1. split_and!; [|done|by exists a].
  unfold attempt. by rewrite E.
Qed.
Lemma runs_fold {A B : Type} (P : tree → Prop) (g : B → A → B) (l : list A) acc (f : B → A → M OsState IoError B) :
  (∀ acc a, runs P (f acc a) (λ r f, r = g acc a ∧ P f)) →
  runs P (fold_m l acc f) (λ r f, r = foldl g acc l ∧ P f).
Proof.
  intros Hf. revert acc. induction l as [|a l IH]; intros acc; simpl; [by apply runs_ret|].
  eapply runs_bind; [apply Hf|]. intros b s Hs [-> Hp]. by apply IH.
Qed.
Lemma runs_pre {A : Type} (P : tree → Prop) (m : M OsState IoError A) Q :
  (∀ f, P f → runs (eq f) m Q) → runs P m Q.
Proof. intros Hm s Hs Hp. by apply (Hm _ Hp). Qed.

(** The calls, from a known tree. *)
Lemma runs_syscall {A : Type} f (k : M OsState IoError A) a f' :
  (∀ es, k (mkOs f es) = (Ok a, mkOs f' es)) → runs (eq f) (syscall k) (λ r g, r = a ∧ g = f').
Proof.
  intros Hk s Hs Hf. destruct (syscall_calm k s Hs) as (es & Hes & E). rewrite <- Hf, Hk in E. eauto 6.
Qed.
Lemma runs_sync P : runs P os_sync (λ _, P).
Proof. apply runs_pre. intros f Hf. eapply runs_strengthen; [done| |by apply (runs_syscall f _ () f)]. by intros ? ? [_ ->]. Qed.
Lemma runs_open_truncate f p :
  (∃ b, f !! p = Some (File b)) ∨ (f !! p = None ∧ (parent p ≫= λ d, f !! d) = Some Dir) →
  runs (eq f) (os_open_truncate p) (λ _ g, g = <[p := File []]> f).
Proof.
  intros Hp. eapply runs_strengthen; [done| |apply (runs_syscall f _ () (<[p := File []]> f))]; [by intros ? ? [_ ->]|].
  intros es. cbn [nodes]. destruct Hp as [[b ->]|[-> Hd]]; [done|]. unfold os_parent. cbn [nodes]. by rewrite Hd.
Qed.
Lemma runs_write_all f p b data :
  f !! p = Some (File b) → runs (eq f) (os_write_all p 0 data) (λ _ g, g = <[p := File (splice b 0 data)]> f).
Proof.
  intros Hb s Hs Hf. destruct (os_write_all_calm p data s b 0) as (es & Hes & E); [done|by rewrite <- Hf|pose proof (blen_nonneg b); lia|].
  rewrite <- Hf in E. eauto 6.
Qed.
Lemma runs_remove_file f p b :
  f !! p = Some (File b) → runs (eq f) (os_remove_file p) (λ _ g, g = base.delete p f).
Proof.
  intros Hb. eapply runs_strengthen; [done| |apply (runs_syscall f _ () (base.delete p f))]; [by intros ? ? [_ ->]|].
  intros es. unfold os_file. cbn [nodes]. by rewrite Hb.
Qed.
Lemma runs_with_capacity P n : n * 8 ≤ 2 ^ 63 - 1 → runs P (with_capacity n) (λ l f, l = [] ∧ P f).
Proof. intros Hn. unfold with_capacity. rewrite decide_True by done. by apply runs_ret. Qed.

(** * The samples *)

(** What a timed loop of [n] measured turns collects. *)
Definition measured (ns : Z → Z) (n : Z) : list Z := (λ i, u64_wrap (ns i)) <$> seqZ WARMUP n.

Lemma foldl_sample ns l acc :
  foldl (λ v i, sample i (ns i) v) acc l = acc ++ ((λ i, u64_wrap (ns i)) <$> filter (λ i, WARMUP ≤ i) l).
Proof.
  revert acc. induction l as [|i l IH]; intros acc; simpl; [by rewrite app_nil_r|]. rewrite IH. unfold sample.
  rewrite filter_cons. case_decide; [|done]. by rewrite fmap_cons, <- (assoc_L (++)).
Qed.
Lemma filter_every {A : Type} (Q : A → Prop) `{!∀ x, Decision (Q x)} (l : list A) : Forall Q l → filter Q l = l.
Proof. intros Hf. induction Hf as [|x l Hx _ IH]; [done|]. rewrite filter_cons, decide_True by done. by rewrite IH. Qed.
Lemma measured_turns n : 0 ≤ n → filter (λ i, WARMUP ≤ i) (turns (n + WARMUP)) = seqZ WARMUP n.
Proof.
  intros Hn. unfold turns, WARMUP. replace (Z.to_nat (n + 16)) with (16 + Z.to_nat n)%nat by lia.
  rewrite seq_app, fmap_app, filter_app. replace (filter _ (Z.of_nat <$> seq 0 16)) with (@nil Z) by reflexivity.
  cbn [app]. rewrite filter_every.
  - unfold seqZ. apply list_eq. intros i. rewrite !list_lookup_fmap. destruct (decide (i < Z.to_nat n)%nat).
    + rewrite !lookup_seq_lt by lia. simpl. f_equal. lia.
    + by rewrite !lookup_seq_ge by lia.
  - apply Forall_forall. intros x (i & -> & Hi%elem_of_seq)%list_elem_of_fmap. lia.
Qed.

(** * The file *)

Section probe.
Context (clk : Clock) (d : path) (N : tree) (Hd : N !! d = Some Dir).
Let p := probe_file d (file_nonce clk).
Let sub := probe_dir d (dir_nonce clk).

(** The probe's file is there, whatever it holds. *)
Definition with_file (f : tree) : Prop := ∃ b, f = <[p := File b]> N.

Lemma runs_rewrite data : runs with_file (os_write_all p 0 data) (λ _, with_file).
Proof.
  apply runs_pre. intros f [b ->]. eapply runs_strengthen; [done| |by apply (runs_write_all _ p b data), lookup_insert_eq].
  intros _ g ->. eexists. by rewrite insert_insert_eq.
Qed.
Lemma runs_file_turn i acc :
  runs with_file (file_turn clk p i acc)
    (λ r f, r = (sample i (data_ns_of clk i) acc.1, sample i (all_ns_of clk i) acc.2) ∧ with_file f).
Proof.
  unfold file_turn. change os_seek_start with os_sync.
  do 2 (eapply runs_bind; [apply runs_sync|intros ?]; eapply runs_bind; [apply runs_rewrite|intros ?];
        eapply runs_bind; [apply runs_sync|intros ?]).
  by apply runs_ret.
Qed.
Lemma runs_file_loop n : 0 ≤ n →
  runs with_file (fold_m (turns (n + WARMUP)) ([], []) (λ acc i, file_turn clk p i acc))
    (λ r f, r = (measured (data_ns_of clk) n, measured (all_ns_of clk) n) ∧ with_file f).
Proof.
  intros Hn. eapply runs_strengthen; [done| |apply runs_fold; intros; apply runs_file_turn].
  cbn beta. intros r f [-> Hf]. split; [|done]. unfold measured. rewrite <- measured_turns by done.
  change (([], []) : list Z * list Z) with ([] : list Z, [] : list Z).
  rewrite <- (app_nil_l ((λ i, u64_wrap (data_ns_of clk i)) <$> _)), <- (app_nil_l ((λ i, u64_wrap (all_ns_of clk i)) <$> _)).
  rewrite <- !foldl_sample. generalize (@nil Z) at 1 3 as l1. generalize (@nil Z) as l2.
  generalize (turns (n + WARMUP)). induction l as [|i l IH]; intros l2 l1; simpl; [done|]. apply IH.
Qed.

(** * The directory *)

Context (HN : ∀ q, sub `prefix_of` q → N !! q = None).

(** What is under the probe's directory are files. *)
Record probing (N1 f : tree) : Prop := {
  pr_dir : f !! sub = Some Dir;
  pr_outside q : ¬ sub `prefix_of` q → f !! q = N1 !! q;
  pr_inside q : sub `prefix_of` q → q ≠ sub → f !! q = None ∨ (is_child_of q sub = true ∧ ∃ b, f !! q = Some (File b));
}.
Abbreviation child q := (is_child_of q sub = true).

Lemma child_inside q : child q → sub `prefix_of` q ∧ q ≠ sub.
Proof. intros Hq. split; [|by apply child_not_self]. apply child_of_join in Hq as [n ->]. by exists [n]. Qed.
Lemma probing_insert N1 f q b : child q → probing N1 f → probing N1 (<[q := File b]> f).
Proof.
  intros Hq [H1 H2 H3]. destruct (child_inside q Hq) as [Hpre Hne]. split.
  - by rewrite lookup_insert_ne.
  - intros q' Hq'. rewrite lookup_insert_ne; [by apply H2|]. by intros <-.
  - intros q' Hpre' Hne'. destruct (decide (q = q')) as [<-|]; [rewrite lookup_insert_eq; eauto|].
    rewrite lookup_insert_ne by done. by apply H3.
Qed.
Lemma probing_delete N1 f q : child q → probing N1 f → probing N1 (base.delete q f).
Proof.
  intros Hq [H1 H2 H3]. destruct (child_inside q Hq) as [Hpre Hne]. split.
  - by rewrite lookup_delete_ne.
  - intros q' Hq'. rewrite lookup_delete_ne; [by apply H2|]. by intros <-.
  - intros q' Hpre' Hne'. destruct (decide (q = q')) as [<-|]; [rewrite lookup_delete_eq; eauto|].
    rewrite lookup_delete_ne by done. by apply H3.
Qed.
Lemma probing_child N1 f q : child q → probing N1 f → f !! q = None ∨ ∃ b, f !! q = Some (File b).
Proof. intros Hq [_ _ H3]. destruct (child_inside q Hq). destruct (H3 q) as [?|[_ ?]]; auto. Qed.

Lemma runs_fs_write N1 q data : child q →
  runs (probing N1) (os_fs_write q data) (λ _ f, probing N1 f ∧ ∃ b, f !! q = Some (File b)).
Proof.
  intros Hq. apply runs_pre. intros f Hf. eapply runs_bind.
  { apply runs_open_truncate. destruct (probing_child _ _ q Hq Hf) as [Hn|Hb]; [right|by left].
    split; [done|]. rewrite (child_parent q sub Hq). apply Hf. }
  intros ?. apply runs_pre. intros g ->. eapply runs_strengthen; [done| |by apply (runs_write_all _ q []), lookup_insert_eq].
  intros _ g ->. split; [by repeat apply probing_insert|]. rewrite lookup_insert_eq. eauto.
Qed.
Lemma runs_rename N1 q q' : child q → child q' →
  runs (λ f, probing N1 f ∧ ∃ b, f !! q = Some (File b)) (os_rename q q') (λ _, probing N1).
Proof.
  intros Hq Hq'. apply runs_pre. intros f [Hf [b Hb]].
  eapply runs_strengthen; [done| |apply (runs_syscall f _ () (if decide (q = q') then f else base.delete q (<[q' := File b]> f)))].
  - intros _ g [_ ->]. case_decide; [done|]. by apply probing_delete, probing_insert.
  - intros es. unfold os_file, os_parent. cbn [nodes]. rewrite Hb, (child_parent q' sub Hq'). cbn [mbind option_bind].
    rewrite (pr_dir _ _ Hf). cbn [nodes]. destruct (probing_child _ _ q' Hq' Hf) as [->|[b' ->]]; done.
Qed.

(** ** Removing it *)

Lemma runs_remove_entries N1 n l f : NoDup l → Forall (λ q, child q ∧ is_Some (f !! q)) l → probing N1 f →
  runs (eq f) (for_each l (λ q s, match nodes s !! q with Some Dir => remove_tree n q s | _ => os_remove_file q s end))
    (λ _ g, probing N1 g ∧ ∀ q, g !! q = if decide (q ∈ l) then None else f !! q).
Proof.
  revert f. induction l as [|q l IH]; intros f Hnd Hl Hf; simpl.
  { apply runs_ret. intros g <-. done. }
  apply NoDup_cons in Hnd as [Hq Hnd]. apply Forall_cons in Hl as [[Hc [x Hx]] Hl].
  destruct (probing_child _ _ q Hc Hf) as [Hn|[b Hb]]; [congruence|].
  eapply (runs_bind _ _ (λ _ g, g = base.delete q f)).
  { intros s Hs Hp. rewrite <- Hp, Hb. by apply (runs_remove_file f q b Hb s). }
  intros _. apply runs_pre. intros g ->. eapply runs_strengthen; [done| |apply IH; [done| |by apply probing_delete]].
  - intros _ g [Hg Hl']. split; [done|]. intros q'. rewrite Hl'. destruct (decide (q' ∈ l)) as [Hin|Hin].
    + rewrite decide_True; [done|]. by right.
    + destruct (decide (q = q')) as [<-|Hne]; [rewrite lookup_delete_eq, decide_True; [done|by left]|].
      rewrite lookup_delete_ne, decide_False; [done| |done]. by intros [->|?]%elem_of_cons.
  - rewrite Forall_forall in Hl |- *. intros q' Hin. destruct (Hl q' Hin) as [Hc' Hs]. split; [done|].
    rewrite lookup_delete_ne; [done|]. by intros <-.
Qed.

Lemma elem_of_children f q :
  q ∈ filter (λ q, child q) (map_to_list f).*1 ↔ child q ∧ is_Some (f !! q).
Proof.
  rewrite list_elem_of_filter, list_elem_of_fmap. split.
  - intros [Hq ([q' x] & -> & Hx%elem_of_map_to_list)]. eauto.
  - intros [Hq [x Hx]]. split; [done|]. exists (q, x). by rewrite elem_of_map_to_list.
Qed.
Lemma runs_remove_dir N1 : (∀ q, sub `prefix_of` q → N1 !! q = None) →
  runs (probing N1) (os_remove_dir_all sub) (λ _ f, f = N1).
Proof.
  intros HN1. enough (Hr : ∀ n, runs (probing N1) (remove_tree (Datatypes.S n) sub) (λ _ f, f = N1)).
  { intros s Hs Hp. by apply Hr. }
  intros n. cbn [remove_tree]. apply runs_pre. intros f Hf.
  eapply runs_bind.
  { unfold os_read_dir. apply (runs_syscall f _ (filter (λ q, child q) (map_to_list f).*1) f). intros es. cbn [nodes].
    by rewrite (pr_dir _ _ Hf). }
  intros l. apply runs_pre. intros g [-> ->]. eapply runs_bind.
  { apply (runs_remove_entries N1); [apply NoDup_filter, NoDup_fst_map_to_list| |done].
    apply Forall_forall. intros q. apply elem_of_children. }
  intros ?. apply runs_pre. intros g [Hg Hl]. eapply runs_strengthen; [done| |apply (runs_syscall g _ () (base.delete sub g))].
  - intros _ h [_ ->]. apply map_eq. intros q. destruct (decide (sub `prefix_of` q)) as [Hq|Hq].
    + rewrite HN1 by done. destruct (decide (q = sub)) as [->|Hne]; [apply lookup_delete_eq|]. rewrite lookup_delete_ne by done.
      destruct (pr_inside _ _ Hf q Hq Hne) as [Hn|[Hc Hb]]; rewrite Hl; case_decide as Hin; try done.
      destruct Hin. apply elem_of_children. split; [done|]. destruct Hb. eauto.
    + rewrite lookup_delete_ne by (by intros <-). by apply pr_outside.
  - intros es. cbn [nodes]. rewrite (pr_dir _ _ Hg). rewrite decide_True; [done|].
    apply elem_of_nil_inv. intros q [Hc [x Hx]]%elem_of_children. rewrite Hl in Hx. case_decide as Hin; [done|].
    destruct Hin. apply elem_of_children. eauto.
Qed.

(** ** The loop *)

Lemma runs_dir_turn N1 i l :
  runs (probing N1) (dir_turn clk sub i l) (λ r f, r = Some (sample i (dir_ns_of clk i) l) ∧ probing N1 f).
Proof.
  unfold dir_turn. eapply runs_bind; [apply runs_fs_write, is_child_join|]. intros ?.
  eapply runs_bind; [apply runs_rename; apply is_child_join|]. intros ?.
  eapply runs_bind.
  { apply runs_attempt, runs_pre. intros f Hf. eapply runs_strengthen; [done| |apply (runs_syscall f _ () f)].
    - intros ? g [_ ->]. exact Hf.
    - intros es. cbn [nodes]. by rewrite (pr_dir _ _ Hf). }
  intros r. apply runs_pre. intros f (? & -> & Hf). eapply runs_bind.
  { apply runs_attempt. eapply runs_strengthen; [|done|apply (runs_sync (probing N1))]. by intros ? <-. }
  intros r. apply runs_pre. intros g (? & -> & Hg). apply runs_ret. by intros ? <-.
Qed.
Lemma runs_dir_loop N1 todo l : (∀ q, sub `prefix_of` q → N1 !! q = None) →
  runs (probing N1) (dir_loop clk sub todo l)
    (λ r f, r = (let l' := foldl (λ v i, sample i (dir_ns_of clk i) v) l todo in if decide (l' = []) then None else Some l') ∧ f = N1).
Proof.
  intros HN1. revert l. induction todo as [|i todo IH]; intros l; cbn [dir_loop foldl].
  - eapply runs_bind; [by apply runs_ignore, runs_remove_dir|]. intros ?. by apply runs_ret.
  - eapply runs_bind; [apply runs_dir_turn|]. intros r s Hs [-> Hf]. by apply IH.
Qed.

Lemma runs_mkdir N1 : N1 !! d = Some Dir → (∀ q, sub `prefix_of` q → N1 !! q = None) →
  runs (eq N1) (os_create_dir_all sub) (λ _, probing N1).
Proof.
  intros Hd1 HN1 s Hs Hf. destruct (mkdir_calm s (reverse d) (lit "accretion_fsync_probe_dir_" ++ fmt_dec 39 (dir_nonce clk)) Hs) as (es & Hes & E1).
  rewrite reverse_cons, !reverse_involutive in E1. change (d ++ [_]) with sub in E1. rewrite <- Hf, HN1, Hd1 in E1 by done.
  assert (Hsub : reverse sub = (lit "accretion_fsync_probe_dir_" ++ fmt_dec 39 (dir_nonce clk)) :: reverse d).
  { unfold sub, probe_dir, Storage.join. by rewrite reverse_snoc. }
  exists (), (mkOs (<[sub := Dir]> N1) es). split_and!; [|done|].
  - unfold os_create_dir_all. rewrite Hsub. cbn [mkdirs]. rewrite reverse_cons, reverse_involutive. change (d ++ [_]) with sub.
    rewrite bind_run. unfold attempt at 1. by rewrite E1.
  - split; cbn [nodes]; [apply lookup_insert_eq| |].
    + intros q Hq. rewrite lookup_insert_ne; [done|]. by intros <-.
    + intros q Hq Hne. rewrite lookup_insert_ne by done. left. by apply HN1.
Qed.
Lemma runs_probe_dir N1 n : N1 !! d = Some Dir → (∀ q, sub `prefix_of` q → N1 !! q = None) → 0 < n → n * 8 ≤ 2 ^ 63 - 1 →
  runs (eq N1) (probe_dir_fsync clk d n) (λ r f, r = Some (measured (dir_ns_of clk) n) ∧ f = N1).
Proof.
  intros Hd1 HN1 Hn Hc. unfold probe_dir_fsync. eapply runs_bind; [by apply runs_mkdir|]. intros ?.
  eapply runs_bind; [by apply runs_with_capacity|]. intros l s Hs [-> Hp].
  destruct (runs_dir_loop N1 (turns (u64_add n WARMUP)) [] HN1 s Hs Hp) as (r & s1 & E & Hs1 & -> & Hf).
  exists (Some (measured (dir_ns_of clk) n)), s1. split_and!; [|done..]. etrans; [exact E|].
  unfold u64_add, WARMUP. rewrite u64_wrap_id by lia. fold WARMUP. rewrite foldl_sample, measured_turns by lia. cbn [app].
  fold (measured (dir_ns_of clk) n). rewrite decide_False; [done|]. intros Hnil. apply (f_equal length) in Hnil.
  unfold measured in Hnil. rewrite length_fmap, length_seqZ in Hnil. simpl in Hnil. lia.
Qed.

(** The two names differ: one ends in a letter, the other in a digit. *)
Lemma last_fmt_dec w n : ∃ v, last (fmt_dec w n) = Some (digit (v mod 10)).
Proof.
  unfold fmt_dec. assert (H : ∃ k, CrashTest.ndigits w n = Datatypes.S k).
  { destruct w; cbn [CrashTest.ndigits]; [eauto|]. case_decide; eauto. }
  destruct H as [k ->]. cbn [digits]. rewrite last_snoc. eauto.
Qed.
Lemma digit_not_t v : digit (v mod 10) ≠ byte.of_Z 116.
Proof.
  intros E. apply (f_equal byte.unsigned) in E. pose proof (Z.mod_pos_bound v 10 ltac:(lia)).
  rewrite unsigned_digit in E by lia. change (byte.unsigned (byte.of_Z 116)) with 116 in E. lia.
Qed.
Lemma probe_names_differ : ¬ sub `prefix_of` p.
Proof.
  intros [k Hk]. unfold sub, p, probe_dir, probe_file, Storage.join in Hk.
  destruct k as [|? k]; [|apply (f_equal length) in Hk; rewrite !length_app in Hk; simpl in Hk; lia].
  rewrite app_nil_r in Hk. apply app_inj_tail in Hk as [_ E]. apply (f_equal last) in E.
  destruct (last_fmt_dec 39 (dir_nonce clk)) as [v Hv]. rewrite (assoc_L (++)), !last_app, Hv in E.
  change (Some (byte.of_Z 116) = Some (digit (v mod 10))) in E. injection E. intros Ht. by apply (digit_not_t v).
Qed.
End probe.

(** * The figures *)

#[local] Existing Instance Hist.nearest_rank_proper.

(** The position [percentile] reads among [n] sorted samples is that of the
    benchmark's quantile. *)
Definition pct (n : Z) : f64 := f64_div (f64_of n) (f64_of 100).

Lemma percentile_run {E : Type} n (l : list Z) :
  f64_clamp (pct n) f64_zero f64_one = pct n → l ≠ [] →
  ∃ v l', percentile (E:=E) (f64_of n) l = (Ok v, l') ∧ l' ≡ₚ l ∧ Hist.nearest_rank (pct n) l v.
Proof.
  intros Hc Hne. unfold percentile. rewrite bind_run. cbn [get_state]. rewrite decide_False by done. fold (pct n).
  rewrite !bind_run. cbn [modify gets].
  assert (Hp : merge_sort Z.le l ≡ₚ l) by apply merge_sort_Permutation.
  assert (Hl : blen (merge_sort Z.le l) = blen l) by (unfold blen; by rewrite Hp).
  assert (1 ≤ blen l) by (destruct l; [done|rewrite blen_cons; pose proof (blen_nonneg l); lia]).
  set (r := f64_ceil_usize (f64_mul (pct n) (f64_of (blen l)))).
  assert (Hi : Z.min (Z.max 0 (r - 1)) (blen l - 1) = Hist.quantile_idx (pct n) (blen l)).
  { unfold Hist.quantile_idx, Hist.rank. rewrite Hc. fold r. lia. }
  rewrite Hi. pose proof (Hist.quantile_idx_range (pct n) (blen l) ltac:(lia)) as Hr. set (i := Hist.quantile_idx (pct n) (blen l)) in *.
  destruct (merge_sort Z.le l !! Z.to_nat i) as [v|] eqn:Ev.
  2:{ apply lookup_ge_None in Ev. unfold blen in *. lia. }
  exists v, (merge_sort Z.le l). split_and!; [unfold gets; by rewrite bind_run, Ev|done|]. unfold Hist.nearest_rank.
  pose proof (Hist.sorted_count _ _ _ (StronglySorted_merge_sort Z.le l) Ev) as Hcount. rewrite !Hp in Hcount.
  split; [rewrite <- Hp; by eapply list_elem_of_lookup_2|]. fold i. unfold blen in *. lia.
Qed.

Lemma fold_min_spec (l : list Z) x :
  foldl Z.min x l ∈ x :: l ∧ Forall (λ y, foldl Z.min x l ≤ y) (x :: l).
Proof.
  revert x. induction l as [|y l IH]; intros x; simpl; [split; [by left|by repeat constructor]|].
  destruct (IH (Z.min x y)) as [H1 H2]. apply Forall_cons in H2 as [H2 H3]. split; [|by repeat constructor; try lia].
  apply elem_of_cons in H1 as [->|H1]; [|by do 2 right]. destruct (Z.min_spec x y) as [[_ ->]|[_ ->]]; [by left|by right; left].
Qed.
Lemma fold_max_spec (l : list Z) x :
  foldl Z.max x l ∈ x :: l ∧ Forall (λ y, y ≤ foldl Z.max x l) (x :: l).
Proof.
  revert x. induction l as [|y l IH]; intros x; simpl; [split; [by left|by repeat constructor]|].
  destruct (IH (Z.max x y)) as [H1 H2]. apply Forall_cons in H2 as [H2 H3]. split; [|by repeat constructor; try lia].
  apply elem_of_cons in H1 as [->|H1]; [|by do 2 right]. destruct (Z.max_spec x y) as [[_ ->]|[_ ->]]; [by right; left|by left].
Qed.
Lemma fold_u64_add (l : list Z) a : Forall (λ x, 0 ≤ x) l → 0 ≤ a → a + foldr Z.add 0 l < 2 ^ 64 →
  foldl u64_add a l = a + foldr Z.add 0 l.
Proof.
  intros Hl. revert a. induction Hl as [|x l Hx Hl IH]; intros a Ha Hs; simpl in *; [lia|].
  assert (0 ≤ foldr Z.add 0 l) by (clear -Hl; induction Hl; simpl; lia).
  unfold u64_add at 2. rewrite u64_wrap_id by lia. rewrite IH by lia. lia.
Qed.

(** What a row shows of its samples. *)
Record figures_of (l : list Z) (fig : Figures) : Prop := {
  fig_p50 : Hist.nearest_rank (pct 50) l (p50 fig);
  fig_p99 : Hist.nearest_rank (pct 99) l (p99 fig);
  fig_lowest : lowest fig ∈ l;
  fig_highest : highest fig ∈ l;
  fig_range : Forall (λ x, lowest fig ≤ x ≤ highest fig) l;
  fig_average : foldr Z.add 0 l < 2 ^ 64 → lowest fig ≤ average fig ≤ highest fig;
}.

#[local] Instance sum_proper : Proper ((≡ₚ) ==> (=)) (foldr Z.add 0).
Proof. intros l1 l2 Hl. induction Hl; simpl; lia. Qed.

Lemma print_row_run {E : Type} (l : list Z) : l ≠ [] → Forall (λ x, 0 ≤ x) l →
  ∃ fig, (print_row (E:=E) l).1 = Ok (Some fig) ∧ figures_of l fig.
Proof.
  intros Hne Hpos. unfold print_row. rewrite bind_run. cbn [get_state]. rewrite decide_False by done.
  destruct (percentile_run (E:=E) 50 l) as (v50 & l1 & E1 & P1 & R1); [by vm_compute|done|]. erewrite bind_ok by exact E1.
  assert (l1 ≠ []) by (intros ->; by apply Permutation_nil in P1).
  destruct (percentile_run (E:=E) 99 l1) as (v99 & l2 & E2 & P2 & R2); [by vm_compute|done|]. erewrite bind_ok by exact E2.
  rewrite P1 in P2, R2. rewrite bind_run. cbn [get_state].
  destruct l2 as [|x l2]; [by apply Permutation_nil in P2|]. cbn.
  destruct (fold_min_spec l2 x) as [M1 M2], (fold_max_spec l2 x) as [X1 X2].
  eexists. split; [done|].
  assert (Hr : Forall (λ y, foldl Z.min x l2 ≤ y ≤ foldl Z.max x l2) (x :: l2)) by (apply Forall_and; by split).
  split; cbn [p50 p99 lowest highest average]; try done; [by rewrite <- P2..|]. intros Hsum. rewrite <- P2 in Hsum, Hpos.
  pose proof (Hist.sum_bounds _ _ _ Hr) as Hb. change (foldl u64_add (u64_add 0 x) l2) with (foldl u64_add 0 (x :: l2)).
  rewrite fold_u64_add by (done || lia). rewrite Z.add_0_l. pose proof (blen_nonneg l2).
  assert (0 < blen (x :: l2)) by (rewrite blen_cons; lia).
  split; [apply Z.div_le_lower_bound; lia|apply Z.div_le_upper_bound; lia].
Qed.

Lemma measured_spec ns n : 0 < n → measured ns n ≠ [] ∧ Forall (λ x, 0 ≤ x) (measured ns n).
Proof.
  intros Hn. split.
  - intros E. apply (f_equal length) in E. unfold measured in E. rewrite length_fmap, length_seqZ in E. simpl in E. lia.
  - apply Forall_forall. intros x (i & -> & _)%list_elem_of_fmap. unfold u64_wrap. apply Z.mod_pos_bound. lia.
Qed.

Lemma parse_u64_nonneg v n : parse_u64 v = Some n → 0 ≤ n.
Proof.
  assert (H : ∀ ds acc, foldl parse_step acc ds = Some n → (∀ a, acc = Some a → 0 ≤ a) → 0 ≤ n).
  { induction ds as [|c ds IH]; intros acc E Ha; simpl in E; [by apply Ha|]. apply (IH _ E). intros a.
    unfold parse_step. destruct acc as [x|]; [|done]. cbn. specialize (Ha x eq_refl). repeat case_decide; [|done..].
    intros [= <-]. lia. }
  unfold parse_u64. destruct v as [|c r]; [done|]. intros E. case_match; [done|]. eapply H; [exact E|]. by intros a [= <-].
Qed.
Lemma args_loop_range path_of args cfg cfg' :
  args_loop path_of args cfg = Ok cfg' → 0 ≤ iters cfg → 0 ≤ iters cfg'.
Proof.
  remember (length args) as k eqn:Hk. revert args cfg Hk.
  induction (lt_wf k) as [k _ IH]; intros [|a args] cfg -> E Hc; cbn [args_loop] in E; [by simplify_eq|].
  repeat case_decide; try done; destruct args as [|v args]; try done.
  - destruct (parse_u64 v) as [n|] eqn:Hn; [|done]. eapply (IH (length args)); [simpl; lia|done|exact E|]. cbn. by eapply parse_u64_nonneg.
  - eapply (IH (length args)); [simpl; lia|done|exact E|done].
Qed.
Lemma from_args_positive temp_dir path_of args cfg : from_args temp_dir path_of args = Ok cfg → 0 < iters cfg.
Proof.
  unfold from_args. destruct (args_loop _ _ _) as [c| |] eqn:E; [|done..]. cbn. case_decide; [done|]. intros [= <-].
  apply args_loop_range in E; [lia|done].
Qed.

(** What a run that measured [n] times prints. *)
Definition prints (clk : Clock) (n : Z) (rep : Report) : Prop :=
  let data := measured (data_ns_of clk) n in
  (∃ fig, data_row rep = Some fig ∧ figures_of data fig ∧
     headline rep = (p50 fig, p99 fig, ops_per_sec (p50 fig))) ∧
  (∃ fig, all_row rep = Some fig ∧ figures_of (measured (all_ns_of clk) n) fig) ∧
  (∃ fig, dir_row rep = Some (Some fig) ∧ figures_of (measured (dir_ns_of clk) n) fig).

(** The headline repeats the row: sorting twice does not move a sample. *)
Lemma percentile_again {E : Type} n (l l' : list Z) :
  l' ≡ₚ l → (percentile (E:=E) (f64_of n) l').1 = (percentile (E:=E) (f64_of n) l).1.
Proof.
  intros Hp. unfold percentile. rewrite !bind_run. cbn [get_state].
  destruct (decide (l' = [])) as [->|H']; [apply Permutation_nil in Hp as ->; by rewrite decide_True|].
  rewrite decide_False by (intros ->; by apply Permutation_sym, Permutation_nil in Hp).
  rewrite !bind_run. cbn [modify]. assert (Hs : merge_sort Z.le l' = merge_sort Z.le l).
  { apply (StronglySorted_unique Z.le); [apply (StronglySorted_merge_sort Z.le)..|]. by rewrite !merge_sort_Permutation. }
  rewrite Hs. unfold gets, blen.
  by rewrite (Permutation_length Hp).
Qed.
Lemma print_row_headline {E : Type} l fig : (print_row (E:=E) l).1 = Ok (Some fig) →
  (percentile (E:=E) (f64_of 50) l).1 = Ok (p50 fig) ∧ (percentile (E:=E) (f64_of 99) l).1 = Ok (p99 fig).
Proof.
  intros E1. destruct (decide (l = [])) as [->|Hne]; [done|]. unfold print_row in E1.
  rewrite bind_run in E1. cbn [get_state] in E1. rewrite decide_False in E1 by done.
  destruct (percentile_run (E:=E) 50 l) as (v50 & l1 & P1 & Hp1 & _); [by vm_compute|done|]. erewrite bind_ok in E1 by exact P1.
  assert (l1 ≠ []) by (intros ->; by apply Permutation_nil in Hp1).
  destruct (percentile_run (E:=E) 99 l1) as (v99 & l2 & P2 & _ & _); [by vm_compute|done|]. erewrite bind_ok in E1 by exact P2.
  rewrite <- (percentile_again 99 l l1) by done. rewrite P1, P2. rewrite bind_run in E1. cbn [get_state] in E1.
  destruct l2 as [|x l2]; [done|]. cbn in E1. by injection E1 as <-.
Qed.
Lemma report_run clk n s : 0 < n →
  ∃ rep, report (measured (data_ns_of clk) n) (measured (all_ns_of clk) n) (Some (measured (dir_ns_of clk) n)) s = (Ok rep, s) ∧
    prints clk n rep.
Proof.
  intros Hn. destruct (measured_spec (data_ns_of clk) n Hn) as [D1 D2], (measured_spec (all_ns_of clk) n Hn) as [A1 A2],
    (measured_spec (dir_ns_of clk) n Hn) as [R1 R2].
  destruct (print_row_run (E:=IoError) _ D1 D2) as (fd & Ed & Hd), (print_row_run (E:=IoError) _ A1 A2) as (fa & Ea & Ha),
    (print_row_run (E:=IoError) _ R1 R2) as (fr & Er & Hr).
  destruct (print_row_headline _ _ Ed) as [H50 H99].
  unfold report, of_outcome. rewrite !bind_run, Ed, bind_run, Ea, !bind_run, Er. cbn [mret M_ret].
  rewrite !bind_run, H50, bind_run, H99, bind_run. eexists. split; [done|]. split_and!; eauto.
Qed.

(** C40: On a system that reports no fault, the probe of an existing directory in which its two names
    are free ends with exit code 0, prints the order statistics of exactly the samples after the
    warm-up, and leaves every file and directory as it was. *)
Theorem probe_leaves_no_trace temp_dir path_of args clk cfg s :
  from_args temp_dir path_of args = Ok cfg → iters cfg * 8 ≤ 2 ^ 63 - 1 →
  Forall calm (events s) → nodes s !! dir cfg = Some Dir → nodes s !! probe_file (dir cfg) (file_nonce clk) = None →
  (∀ q, probe_dir (dir cfg) (dir_nonce clk) `prefix_of` q → nodes s !! q = None) →
  ∃ rep s', main clk temp_dir path_of args s = (Ok (0, Some rep), s') ∧ nodes s' = nodes s ∧
    prints clk (iters cfg) rep.
Proof.
  intros Hargs Hcap Hs Hd Hp Hsub. assert (Hn : 0 < iters cfg) by by eapply from_args_positive.
  set (n := iters cfg) in *. set (p := probe_file (dir cfg) (file_nonce clk)) in *.
  pose proof (probe_names_differ clk (dir cfg)) as Hne. fold p in Hne.
  assert (Hpd : parent p = Some (dir cfg)) by apply parent_join.
  assert (Hr : runs (eq (nodes s)) (run clk cfg) (λ rep f, f = nodes s ∧ prints clk n rep)).
  { unfold run. fold p n. eapply runs_bind; [apply runs_open_truncate; right; rewrite Hpd; by split|]. intros ?.
    eapply runs_bind; [by apply runs_with_capacity|]. intros l1. eapply runs_bind; [by apply runs_with_capacity|]. intros l2.
    apply runs_pre. intros f [-> [-> ->]]. unfold u64_add, WARMUP. rewrite u64_wrap_id by lia. fold WARMUP.
    eapply runs_bind.
    { eapply runs_strengthen; [|done|apply (runs_file_loop clk (dir cfg) (nodes s)); lia]. intros f <-. by eexists. }
    intros [data all]. apply runs_pre. intros f [[= -> ->] [b ->]]. fold p. eapply runs_bind.
    { apply runs_probe_dir; [| |done|done].
      - rewrite lookup_insert_ne; [done|]. intros E. by rewrite E, Hd in Hp.
      - intros q Hq. rewrite lookup_insert_ne; [by apply Hsub|]. by intros ->. }
    intros r. apply runs_pre. intros f [-> ->]. eapply runs_bind; [by apply runs_ignore, (runs_remove_file _ p b), lookup_insert_eq|].
    intros ?. apply runs_pre. intros f ->. rewrite delete_insert_id by done. intros s1 Hs1 Hf.
    destruct (report_run clk n s1 Hn) as (rep & E & Hrep). exists rep, s1. by split_and!. }
  destruct (Hr s Hs eq_refl) as (rep & s' & E & _ & Hf & Hrep). exists rep, s'. split_and!; [|done..].
  unfold main. rewrite Hargs, bind_run. unfold attempt. by rewrite E.
Qed.

(** Three measurements in a directory of a system that stutters. *)
Definition a_clock : Clock := mkClock 17 18 (λ i, 1000 + i) (λ i, 5000 - i) (λ i, 7).
Definition a_system : OsState := mkOs {[ [lit "tmp"] := Dir ]} [Go; Go; Short 7; Interrupted; Go; Short 0].
Definition an_args : list bytes := [lit "fsync_probe"; lit "--dir"; lit "tmp"; lit "--iters"; lit "3"].
Lemma probe_leaves_no_trace_witness :
  ∃ rep s', main a_clock [] (λ b, [b]) an_args a_system = (Ok (0, Some rep), s') ∧ nodes s' = nodes a_system ∧
    prints a_clock 3 rep.
Proof.
  apply (probe_leaves_no_trace [] (λ b, [b]) an_args a_clock (mkConfig 3 [lit "tmp"])).
  - by vm_compute.
  - done.
  - by repeat constructor.
  - apply lookup_singleton_eq.
  - by apply lookup_singleton_ne.
  - intros q [k ->]. by apply lookup_singleton_ne.
Defined.
End FsyncProbeSpec.
